(* ===== verification/_CoqProject ===== *)
-Q . S2P
Prelude.v
BTree.v
F64.v
Externals.v
Types.v
Memtable.v
Fs.v
ChunkFormat.v
ChunkWriter.v
ChunkReader.v
ChunkFile.v
WalWriter.v
Recovery.v
GroupCommit.v
WalLoop.v
ChunkIndex.v
Persistence.v
SaveTask.v
Compaction.v
Config.v
Server.v
QuerySource.v
Store.v
StoreMerge.v
CompactTask.v
ShardLog.v
Restart.v
System.v
SystemInv.v
Answers.v
Runs.v
Requests.v
QueryTask.v
Concurrent.v
Metrics.v
Startup.v
Conformance.v
