(* ===== verification/Prelude.v ===== *)
(** * Verification of the Micius storage engine

    Micius is a time-series store written in Rust ([src/storage-engine/src]).  A point
    (metric, tags, timestamp, value) arrives in an [Append] call, is routed to a shard by
    the hash of its series, written to the shard's write-ahead log by a group-commit task,
    and inserted into the shard's memtable.  A periodic sweep drains full memtables into
    immutable chunk files and registers them in the chunk index; compaction merges chunk
    files of similar size; a snapshot persists the index together with one log watermark
    per shard.  After a crash, [open] loads the snapshot and replays each shard's log above
    its watermark.  Queries read the memtables and the chunk files the index selects.

    ** Files and the code they model

    - [Prelude]: the result type with its monad, little-endian bytes, wrap-around of the
      machine widths, generic lemmas, tactics and the hint databases.
    - [BTree]: [Ord], [BTreeMap] (a strictly sorted association list), the standard
      library's binary search.  [F64]: doubles as bit patterns with the IEEE comparisons,
      proved against the standard library's specification of binary64.  [Fs]: files,
      partial writes, paths, number formatting.
    - [Externals]: the crates the engine calls (xxhash, crc32fast, lz4_flex, bloomfilter,
      prost and bincode), each a class of operations and a class of the laws relied on,
      with a concrete instance that satisfies them.
    - [Types]: [types.rs] (keys and their bytes, series ids, statistics, predicates).
    - [Memtable]: [memtable/mod.rs].
    - [ChunkFormat], [ChunkWriter], [ChunkReader]: [chunk/format.rs], [chunk/writer.rs],
      [chunk/reader.rs], byte by byte.  [ChunkFile]: the contract between writer and reader.
    - [WalWriter]: [wal/proto.rs] and [wal/writer.rs].  [Recovery]: [wal/recovery.rs].
      [GroupCommit]: [wal/group_commit.rs], one iteration of the task, and the system of a
      task and its clients.  [WalLoop]: the loop of the task on its bounded channel.
    - [ChunkIndex]: [index/chunk_index.rs].  [Persistence]: [index/persistence.rs].
      [SaveTask]: a save in its system calls, with several savers at once.
    - [Compaction]: [compaction/mod.rs].  [Config]: [config.rs].
    - [Server]: [server/mod.rs]: the four RPC handlers, [open], and the bodies of the
      background tasks, as functions on one server state, and the sender's calls of
      [wal/group_commit.rs].
    - [QuerySource], [Store], [StoreMerge]: the interface between the query handler and what
      it queries, and its implementation by the memtables and by the chunk store (files,
      index and their content, with what flushing and merging do to them).  [CompactTask]: a
      compaction cycle in the steps between which it holds no lock.  [ShardLog],
      [Restart]: what the handlers and [open] do to a shard's log and to the store.
    - [System]: the server as a state machine whose steps are the parts of handlers and
      background tasks between which others run; its invariant.  [SystemInv]: every step keeps
      the invariant.  [Answers]: what queries deliver in a state that satisfies it.  [Runs]: the
      theorems about runs, and sample runs.  [Requests]: the handlers [append] and [compact] as
      runs.
    - [QueryTask]: the task [query] spawns, in small steps.  [Concurrent]: that task
      interleaved with the steps of the system.
    - [Metrics]: [metrics.rs] (registration, the scrape endpoint) and the handlers with the
      metrics they write; the prometheus crate is a class with laws.  [Startup]:
      [ensure_dirs] of [config.rs], the background tasks [open] starts, and [main.rs].
    - [Conformance]: integration tests of the repository, evaluated on the model.

    Records and functions carry the source's names, with a prefix where two modules use
    the same one.  A [HashMap] is a [gmap], a [BTreeMap] a sorted list, an integer a [Z]
    that wraps where the source's type does, [anyhow::Result] is [result].  What the
    environment decides (clock, random seeds, the outcome of each write, rename, rotation
    and deletion, how many bytes of a failed write reached the file) is an argument, so a
    theorem holds for all of it.  Arithmetic wraps as in the release build ([delta_encode] of
    a debug build panics on overflow).

    ** What the theorems show

    - System.  About every state that a run without accidents reaches (below):
      [Runs.system_no_loss]: every cell has an answer, the last value unless merged chunks
      clashed on it, except where a sweep is writing it or a flush of the shard has failed;
      [system_no_invention]: everything delivered was written; [system_crash_recovers]: from a
      state the snapshot and the logs cover, a crash at any byte of what is being written is
      recovered from; [system_query_full_scan]: answers equal a full scan;
      [system_compaction_transparent]: merging adds no answer, keeps an answer for every cell
      and changes none where chunks do not clash; [system_well_formed]: shape, invariants,
      watermarks and readable files.  [Requests.append_refines], [compact_refines]: a call of
      [append] or of [compact] is a run of the system, the latter on every path.
      Accidents are computed, so that a sample run shows by evaluation that it has none.
    - Queries.  [QueryTask.query_task_refines]: on a server that stands still the task
      delivers what [query_rpc] says; [query_task_terminates]: it ends however the server
      changes; [Concurrent.query_sound] and [query_complete]: interleaved with the running
      server it delivers only what was written, and every cell that was there before it began,
      up to the exceptions they state.
    - Log.  [GroupCommit.wal_durability]: along every run of batches, rotations, drains and
      deletions, recovery returns exactly the acknowledged points above the watermark;
      [wal_crash_durability] adds a crash after any number of bytes of a batch;
      [group_commit_acks], [group_commit_replies_once], [group_commit_batch_fifo] describe
      the replies; [wal_restart_resumes] re-establishes the invariant.
      [WalLoop.wal_loop_refines_log]: the loop, with messages arriving at any moment,
      implements an append-only log while writes and rotations succeed; [wal_loop_answers],
      for any outcomes: every message is answered once and
      in turn and the channel keeps to its capacity; [wal_loop_drains]: without senders the
      loop answers everything and returns.  [Recovery]: the scan is exact on segments with
      torn tails and terminates.
    - Memtable.  It refines the partial map of last writes; reads and series resolution are
      exact; the counters are exact up to their width; routing is in range.
    - Chunk files.  What is written is read back, by series and as a whole; the bloom filter
      has no false negatives; the returned records describe the stored series; delta coding
      round-trips under wrap-around.
    - Index.  Registration and deregistration keep the invariant; resolution is exact;
      pruning is complete; a saved snapshot is loaded back up to [index_equiv], and a failed
      save leaves the old one.  [SaveTask.save_serial_complete]: saves that take turns leave a
      complete snapshot on disk after every system call; [save_alone_refines]: they amount to
      [save_index].
    - Compaction.  [compaction_groups]: the groups are the tiers of the one way to cut the
      files by the size ratio; the merged chunk has the last value in merge order; the index
      invariant survives.
    - Server.  [server_append_logs_first], [server_append_durable], [server_append_visible]:
      the handler logs before it inserts, an acknowledged point is recovered from the log and
      is visible; [server_sweep_keeps_visible] and [server_open_recovers_shard]: a flush and a
      restart keep every value queryable.
    - Errors, metrics, start.  [chunk_read_rejects_damage]: the readers on arbitrary bytes;
      [startup_outcomes]: [main] on every branch, and what is there when it serves;
      [process_restart_serves]: crash recovery through a new start of the process;
      [metrics_register_once] and [metrics_append_counts]: registration cannot panic and the
      counters count requests.

    Some theorems record what goes wrong outside their conditions, on concrete runs of the
    model: [server_double_crash_loses_data], [server_sequence_reset_loses_data],
    [server_sweep_race_loses_data], [server_failed_flush_loses_data],
    [wal_failed_write_poisons_segment], [wal_failed_rotation_loses_entries],
    [compaction_resurrects_old_value], [compaction_dangling_chunk],
    [index_same_start_hides_chunk], [series_key_collision], [chunk_version_unchecked],
    [config_ratio_unchecked], [system_compaction_crash_loses_data],
    [startup_bad_address_loses_data], [metrics_total_counts_series], [query_race],
    [append_order_differs], [save_race_truncates_snapshot], [config_zeros_unchecked],
    [metrics_scrape_hides_errors], [metrics_entries_count_requests],
    [recovery_short_tail_unreported], [system_start_taken_loses_data],
    [system_ambiguous_key_invents].

    ** Fuel

    Seven loops take fuel.  [Recovery.scan_loop] returns [None] when it runs out;
    [scan_segment] gives it a round for every eight bytes of the buffer and one more, every
    frame consumes at least eight, and [recovery_scan_terminates] shows that it returns and
    that     more fuel changes nothing.  [Server.shard_groups] runs with the number of points, each
    round consuming at least one ([shard_groups_spec]).  [WalLoop.wal_task] runs with two
    steps for each waiting message and two more ([wal_loop_drains]).
    [ChunkFormat.chunks_exact_8] runs with the buffer's length, each round consuming eight
    bytes.  [BTree.search_loop] runs with the slice's length and halves it
    ([binary_search_by_spec]); [Fs.trim_end_matches] with the string's length; [Fs.dec_len]
    with 19, enough for the 20 digits of a [u64] ([dec_len_bound]).  The loops over series
    counts are bounded by the count, as in the source.

    ** The steps and what they remember

    [System.live_step] has a step for a batch of groups that goes to a shard's log, for a
    batch whose write fails after any number of bytes, for the insertion of a logged group
    into the memtable (in any order, not only the log's), for giving up a logged group
    whose request is dropped, for the answer, for the two halves of a sweep and of a
    snapshot (several snapshots may be under way), and for the parts of a compaction cycle
    (picking the groups, writing a merged chunk, updating the index, removing a file);
    [crash_step] stops every shard at any byte of a batch and restarts.  The steps have no
    conditions but that there is something to do (that a saved snapshot is one its codec can
    represent, that a restart succeeds).  The state has both the order of the insertions and
    the order of the log ([written]), and [settled] tells the shards where the two agree on
    every cell; recovery is stated in the order of the log.

    What is known to lose data is not excluded.  Some of it is remembered in the state, and
    the theorems say what still holds: [logged] is false once a WAL write or rotation has
    failed or a restart has set the sequence numbers of a log back
    ([wal_failed_write_poisons_segment], [wal_failed_rotation_loses_entries],
    [server_sequence_reset_loses_data]); [ahead] has the shards whose watermark covers points
    that are in no chunk ([server_sweep_race_loses_data]); [gone] the shards whose flush has
    failed ([server_failed_flush_loses_data]); [covered] is false when the snapshot and the
    logs do not account for everything ([server_double_crash_loses_data],
    [system_compaction_crash_loses_data]); [clashed] has the cells on which chunks were merged
    that hold different values ([compaction_resurrects_old_value]).

    The rest is the label of a step, a list of [Accident]s, which a [run] collects: a number,
    a frame or a chunk does not fit its width ([TooLarge]); a flushed key contains separators
    or shares its id ([AmbiguousKey]: [series_key_collision], [system_ambiguous_key_invents]);
    the clock names a chunk twice ([ClockRepeats]); a series of a new chunk starts where a
    chunk of the series starts ([StartTaken]: [index_same_start_hides_chunk],
    [compaction_dangling_chunk], [system_start_taken_loses_data]); the server crashes in a
    state that is not covered ([NotCovered]).  The theorems about runs have the hypothesis
    [run cfg valid s0 [] s]: the run had no accident.

    ** Not modelled

    The text of log lines, the tokio runtime and the length of its timers (a tick is a step
    that may happen at any moment), the gRPC transport and its generated code, signals, and
    the parsers of the standard library for doubles and socket addresses (arguments of [load]
    and [main]).  In [System] the snapshots take turns on the temporary file, their overlap
    being the subject of [SaveTask], and a write or a read of a chunk file is one step.  The
    load generator is a client of the protocol and has no part in the store. *)
From Stdlib Require Export ZArith Lia.
From Stdlib Require Import Strings.Byte.
From stdpp Require Export base tactics list gmap strings sorting.
#[global] Open Scope Z_scope.

(** ** The result type of fallible code *)

(** [anyhow::Result<A>]: a value or an error, which carries the message the
    source formats (its interpolated arguments are left out). *)
Inductive result (A : Type) : Type :=
| Ok (a : A)
| Err (msg : string).
Arguments Ok {A} _.
Arguments Err {A} _.

(** The [?] operator. *)
#[global] Instance result_ret : MRet result := λ A, @Ok A.
#[global] Instance result_bind : MBind result := λ A B f r,
  match r with Ok a => f a | Err e => Err e end.
#[global] Instance result_fmap : FMap result := λ A B f r,
  match r with Ok a => Ok (f a) | Err e => Err e end.
#[global] Instance result_inhabited {A} : Inhabited (result A) := populate (Err "").

(** [Option::ok_or_else]. *)
Definition ok_or {A} (e : string) (o : option A) : result A :=
  match o with Some a => Ok a | None => Err e end.

(** [anyhow::ensure!]. *)
Definition ensure (b : bool) (e : string) : result () :=
  if b then Ok () else Err e.

(** [Result::is_ok]. *)
Definition is_ok {A} (r : result A) : bool :=
  match r with Ok _ => true | Err _ => false end.

(** Collecting an iterator of results: the first error wins. *)
Fixpoint collect {A} (l : list (result A)) : result (list A) :=
  match l with
  | [] => Ok []
  | Ok a :: l' => match collect l' with Ok as' => Ok (a :: as') | Err e => Err e end
  | Err e :: _ => Err e
  end.

(** ** Bytes and little-endian integers *)

Abbreviation byte := Byte.byte.
Abbreviation bytes := (list Byte.byte).

#[global] Instance byte_eq_dec : EqDecision byte := Byte.byte_eq_dec.

Definition byte_to_Z (b : byte) : Z := Z.of_N (Byte.to_N b).
Definition byte_of_Z (z : Z) : byte :=
  default Byte.x00 (Byte.of_N (Z.to_N (z mod 256))).

(** [to_le_bytes] of an [8n]-bit integer, signed or not: two's complement. *)
Fixpoint le_bytes (n : nat) (z : Z) : bytes :=
  match n with
  | O => []
  | S n' => byte_of_Z z :: le_bytes n' (z / 256)
  end.

(** [from_le_bytes] of an unsigned integer. *)
Fixpoint le_Z (l : bytes) : Z :=
  match l with
  | [] => 0
  | b :: l' => byte_to_Z b + 256 * le_Z l'
  end.

(** ** Machine integers *)

Definition u32_mod : Z := 2 ^ 32.
Definition u64_mod : Z := 2 ^ 64.
Definition u64_max : Z := 2 ^ 64 - 1.
Definition i64_min : Z := - 2 ^ 63.
Definition i64_max : Z := 2 ^ 63 - 1.

(** Casts and wrapping arithmetic: [as u32], [as u64] (and [usize], which is
    64 bits wide on every supported target), [as i64]. *)
Definition wrap_u32 (z : Z) : Z := z mod u32_mod.
Definition wrap_u64 (z : Z) : Z := z mod u64_mod.
Definition wrap_i64 (z : Z) : Z := (z + 2 ^ 63) mod u64_mod - 2 ^ 63.

(** [u64::saturating_sub]. *)
Definition saturating_sub (a b : Z) : Z := Z.max 0 (a - b).

Definition in_u32 (z : Z) : Prop := 0 <= z < u32_mod.
Definition in_u64 (z : Z) : Prop := 0 <= z < u64_mod.
Definition in_i64 (z : Z) : Prop := i64_min <= z <= i64_max.

(** [i64::from_le_bytes]. *)
Definition le_i64 (l : bytes) : Z := wrap_i64 (le_Z l).

(** [v.len()]. *)
Definition len {A} (l : list A) : Z := Z.of_nat (length l).

(** [l[off .. off + n]] for [off], [n] in range. *)
Definition sub {A} (l : list A) (off n : Z) : list A :=
  take (Z.to_nat n) (drop (Z.to_nat off) l).

(** ** Automation *)

Create HintDb micius.
Create Rewrite HintDb micius.

(** Unfold the machine-integer vocabulary and solve by [lia]. *)
Ltac width :=
  unfold in_u32, in_u64, in_i64, i64_min, i64_max, u64_max, u32_mod, u64_mod, len in *;
  change (2 ^ 63) with 9223372036854775808 in *;
  change (2 ^ 64) with 18446744073709551616 in *;
  change (2 ^ 32) with 4294967296 in *;
  lia.

(** Case analysis on the scrutinee of a [match] or [if] in the goal. *)
Ltac case_goal :=
  match goal with
  | |- context [match ?x with _ => _ end] =>
      lazymatch x with context [match _ with _ => _ end] => fail | _ => destruct x eqn:? end
  end.

(** The same in a hypothesis. *)
Ltac case_hyp H :=
  match type of H with
  | context [match ?x with _ => _ end] =>
      lazymatch x with context [match _ with _ => _ end] => fail | _ => destruct x eqn:? end
  end.

(** Boolean comparisons on [Z] into propositions. *)
Ltac zbool :=
  repeat match goal with
  | H : _ && _ = true |- _ => apply andb_true_iff in H as [? ?]
  | H : (_ <=? _) = true |- _ => apply Z.leb_le in H
  | H : (_ <=? _) = false |- _ => apply Z.leb_gt in H
  | H : (_ <? _) = true |- _ => apply Z.ltb_lt in H
  | H : (_ <? _) = false |- _ => apply Z.ltb_ge in H
  | H : (_ =? _) = true |- _ => apply Z.eqb_eq in H
  | H : (_ =? _) = false |- _ => apply Z.eqb_neq in H
  end.

(** ** Lemmas on the result monad *)

Lemma result_bind_Ok {A B} (a : A) (f : A → result B) : (Ok a ≫= f) = f a.
Proof. done. Qed.

Lemma bind_Ok_inv {A B} (r : result A) (f : A → result B) b :
  (r ≫= f) = Ok b → ∃ a, r = Ok a ∧ f a = Ok b.
Proof. destruct r; simpl; eauto; discriminate. Qed.

Lemma collect_map_Ok {A B} (f : A → B) (l : list A) :
  collect (map (λ a, Ok (f a)) l) = Ok (map f l).
Proof. induction l as [|a l IH]; simpl; [done|]. by rewrite IH. Qed.

Lemma ensure_true e : ensure true e = Ok ().
Proof. done. Qed.

(** ** Lemmas on bytes *)

Lemma byte_to_of_Z z : byte_to_Z (byte_of_Z z) = z mod 256.
Proof.
  unfold byte_to_Z, byte_of_Z.
  pose proof (Z.mod_pos_bound z 256 eq_refl) as Hb.
  destruct (Byte.of_N (Z.to_N (z mod 256))) as [b|] eqn:E; simpl.
  - apply Byte.to_of_N in E. rewrite E. lia.
  - apply Byte.of_N_None_iff in E. lia.
Qed.

Lemma byte_to_Z_range b : 0 <= byte_to_Z b < 256.
Proof. unfold byte_to_Z. pose proof (Byte.to_N_bounded b). lia. Qed.

Lemma byte_to_Z_inj b c : byte_to_Z b = byte_to_Z c → b = c.
Proof.
  unfold byte_to_Z. intros H%N2Z.inj.
  pose proof (Byte.of_to_N b) as Hb. pose proof (Byte.of_to_N c) as Hc. congruence.
Qed.

Lemma byte_of_to_Z b : byte_of_Z (byte_to_Z b) = b.
Proof.
  apply byte_to_Z_inj. rewrite byte_to_of_Z. apply Z.mod_small, byte_to_Z_range.
Qed.

Lemma length_le_bytes n z : length (le_bytes n z) = n.
Proof. revert z. induction n; simpl; auto. Qed.

Lemma le_Z_range l : 0 <= le_Z l < 256 ^ len l.
Proof.
  unfold len. induction l as [|b l IH]; [done|].
  change (le_Z (b :: l)) with (byte_to_Z b + 256 * le_Z l).
  pose proof (byte_to_Z_range b). simpl length.
  rewrite Nat2Z.inj_succ, Z.pow_succ_r by lia. lia.
Qed.

Lemma le_Z_le_bytes n z : le_Z (le_bytes n z) = z mod 256 ^ Z.of_nat n.
Proof.
  revert z. induction n as [|n IH]; intros z; simpl le_bytes.
  - by rewrite Z.mod_1_r.
  - simpl le_Z. rewrite IH, byte_to_of_Z, Nat2Z.inj_succ, Z.pow_succ_r by lia.
    rewrite Z.rem_mul_r; lia.
Qed.

Lemma le_Z_le_bytes_small n z : 0 <= z < 256 ^ Z.of_nat n → le_Z (le_bytes n z) = z.
Proof. intros. rewrite le_Z_le_bytes. by apply Z.mod_small. Qed.

Lemma le_bytes_le_Z l : le_bytes (length l) (le_Z l) = l.
Proof.
  induction l as [|b l IH]; simpl; [done|].
  pose proof (byte_to_Z_range b).
  replace ((byte_to_Z b + 256 * le_Z l) / 256) with (le_Z l)
    by (rewrite Z.mul_comm, Z.div_add by lia; rewrite Z.div_small by lia; lia).
  rewrite IH. f_equal. apply byte_to_Z_inj. rewrite byte_to_of_Z.
  rewrite Z.mul_comm, Z.mod_add by lia. by apply Z.mod_small.
Qed.

(** ** Lemmas on machine integers *)

Lemma wrap_i64_id z : in_i64 z → wrap_i64 z = z.
Proof. intros H. unfold wrap_i64. rewrite Z.mod_small; width. Qed.

Lemma wrap_i64_range z : in_i64 (wrap_i64 z).
Proof.
  unfold wrap_i64. pose proof (Z.mod_pos_bound (z + 2 ^ 63) u64_mod eq_refl). width.
Qed.

Lemma wrap_u64_id z : in_u64 z → wrap_u64 z = z.
Proof. intros H. by apply Z.mod_small. Qed.

Lemma wrap_u64_range z : in_u64 (wrap_u64 z).
Proof. apply Z.mod_pos_bound. done. Qed.

Lemma wrap_u32_id z : in_u32 z → wrap_u32 z = z.
Proof. intros H. by apply Z.mod_small. Qed.

Lemma wrap_u32_range z : in_u32 (wrap_u32 z).
Proof. apply Z.mod_pos_bound. done. Qed.

Lemma wrap_i64_add_l a b : wrap_i64 (wrap_i64 a + b) = wrap_i64 (a + b).
Proof.
  unfold wrap_i64. f_equal.
  replace ((a + 2 ^ 63) mod u64_mod - 2 ^ 63 + b + 2 ^ 63)
    with ((a + 2 ^ 63) mod u64_mod + b) by lia.
  rewrite Zplus_mod_idemp_l. f_equal. lia.
Qed.

Lemma wrap_i64_add_r a b : wrap_i64 (a + wrap_i64 b) = wrap_i64 (a + b).
Proof. rewrite Z.add_comm, wrap_i64_add_l. f_equal. lia. Qed.

Lemma wrap_u64_add_l a b : wrap_u64 (wrap_u64 a + b) = wrap_u64 (a + b).
Proof. apply Zplus_mod_idemp_l. Qed.

Lemma wrap_u64_add_r a b : wrap_u64 (a + wrap_u64 b) = wrap_u64 (a + b).
Proof. apply Zplus_mod_idemp_r. Qed.

Lemma wrap_i64_mod_u64 z : wrap_i64 (z mod u64_mod) = wrap_i64 z.
Proof. unfold wrap_i64. by rewrite Zplus_mod_idemp_l. Qed.

Lemma le_u32_roundtrip z : in_u32 z → le_Z (le_bytes 4 z) = z.
Proof. intros. apply le_Z_le_bytes_small. by change (256 ^ Z.of_nat 4) with u32_mod. Qed.

Lemma le_u64_roundtrip z : in_u64 z → le_Z (le_bytes 8 z) = z.
Proof. intros. apply le_Z_le_bytes_small. by change (256 ^ Z.of_nat 8) with u64_mod. Qed.

Lemma le_i64_roundtrip z : in_i64 z → le_i64 (le_bytes 8 z) = z.
Proof.
  intros. unfold le_i64. rewrite le_Z_le_bytes. change (256 ^ Z.of_nat 8) with u64_mod.
  rewrite wrap_i64_mod_u64. by apply wrap_i64_id.
Qed.

(** ** Lemmas on lengths and sub-lists *)

Lemma len_nonneg {A} (l : list A) : 0 <= len l.
Proof. unfold len. lia. Qed.

Lemma len_app {A} (l k : list A) : len (l ++ k) = len l + len k.
Proof. unfold len. rewrite length_app. lia. Qed.

Lemma len_nil {A} : len (@nil A) = 0.
Proof. done. Qed.

Lemma len_cons {A} (a : A) l : len (a :: l) = 1 + len l.
Proof. unfold len. simpl length. lia. Qed.

Lemma len_le_bytes n z : len (le_bytes n z) = Z.of_nat n.
Proof. unfold len. by rewrite length_le_bytes. Qed.

Lemma len_map {A B} (f : A → B) l : len (map f l) = len l.
Proof. unfold len. by rewrite length_map. Qed.

(** A field is found again behind everything written before it. *)
Lemma sub_app_mid {A} (l m r : list A) off n :
  off = len l → n = len m → sub (l ++ m ++ r) off n = m.
Proof.
  intros -> ->. unfold sub, len. rewrite !Nat2Z.id, drop_app_length.
  by rewrite take_app_length.
Qed.

Lemma length_sub {A} (l : list A) off n :
  0 <= off → 0 <= n → off + n <= len l → len (sub l off n) = n.
Proof. intros. unfold sub, len in *. rewrite length_take, length_drop. lia. Qed.

Lemma sub_app_l {A} (l r : list A) off n :
  0 <= off → 0 <= n → off + n <= len l → sub (l ++ r) off n = sub l off n.
Proof.
  intros. unfold sub, len in *. rewrite drop_app_le by lia.
  rewrite take_app_le; [done|]. rewrite length_drop. lia.
Qed.

Lemma sub_app_r {A} (l r : list A) off n :
  len l <= off → sub (l ++ r) off n = sub r (off - len l) n.
Proof.
  intros. unfold sub, len in *. rewrite drop_app_ge by lia. do 2 f_equal. lia.
Qed.

(** ** Membership through [filter], [map] and [flat_map] *)

Lemma elem_of_filterb {A} (f : A → bool) l x : x ∈ List.filter f l ↔ x ∈ l ∧ f x = true.
Proof. by rewrite !list_elem_of_In, filter_In. Qed.

Lemma elem_of_map {A B} (f : A → B) l y : y ∈ map f l ↔ ∃ x, y = f x ∧ x ∈ l.
Proof.
  rewrite list_elem_of_In, in_map_iff. setoid_rewrite list_elem_of_In. naive_solver.
Qed.

Lemma elem_of_flat_map {A B} (f : A → list B) l y : y ∈ flat_map f l ↔ ∃ x, x ∈ l ∧ y ∈ f x.
Proof. rewrite list_elem_of_In, in_flat_map. by setoid_rewrite list_elem_of_In. Qed.

Lemma flat_map_ext_elem {A B} (f g : A → list B) l : (∀ x, x ∈ l → f x = g x) → flat_map f l = flat_map g l.
Proof.
  induction l as [|x l IH]; intros Hfg; [done|]. cbn [flat_map].
  rewrite Hfg by left. f_equal. apply IH. intros y Hy. apply Hfg. by right.
Qed.

(** Pointwise choice of a list. *)
Lemma list_choice {A B} (P : nat → A → B → Prop) (l : list A) :
  (∀ i x, l !! i = Some x → ∃ y, P i x y) →
  ∃ l', length l' = length l ∧ ∀ i x y, l !! i = Some x → l' !! i = Some y → P i x y.
Proof.
  revert P. induction l as [|x l IH]; intros P Hall; [by exists []|].
  destruct (Hall O x eq_refl) as [y Hy]. destruct (IH (λ i, P (S i))) as (l' & El & Hl').
  { intros i. apply (Hall (S i)). }
  exists (y :: l'). split; [cbn; lia|]. intros [|i] x' y'; cbn; [congruence|apply Hl'].
Qed.

Lemma elem_of_concat {A} (x : A) (ls : list (list A)) : x ∈ concat ls ↔ ∃ l, l ∈ ls ∧ x ∈ l.
Proof. rewrite <-(map_id ls) at 1. rewrite <-flat_map_concat_map. apply elem_of_flat_map. Qed.

Lemma forallb_Forall {A} (f : A → bool) l : forallb f l = true ↔ Forall (λ x, f x = true) l.
Proof.
  rewrite forallb_forall, Forall_forall. by setoid_rewrite list_elem_of_In.
Qed.

Lemma StronglySorted_filterb {A} (R : A → A → Prop) (f : A → bool) l :
  StronglySorted R l → StronglySorted R (List.filter f l).
Proof.
  induction 1 as [|a l Hs IH Hf]; simpl; [constructor|].
  destruct (f a); [|done]. constructor; [done|].
  rewrite !Forall_forall in *. intros x [? _]%elem_of_filterb. auto.
Qed.

Lemma StronglySorted_map {A B} (R : A → A → Prop) (R' : B → B → Prop) (f : A → B) l :
  (∀ x y, R x y → R' (f x) (f y)) → StronglySorted R l → StronglySorted R' (map f l).
Proof.
  intros Hf. induction 1 as [|a l Hs IH Hall]; simpl; constructor; [done|].
  rewrite Forall_forall in Hall. apply Forall_forall. intros y (x & -> & Hx)%elem_of_map. by apply Hf, Hall.
Qed.

Lemma StronglySorted_NoDup {A} (R : A → A → Prop) l :
  (∀ x, ¬ R x x) → StronglySorted R l → NoDup l.
Proof.
  intros Hirr. induction 1 as [|a l Hs IH Hall]; constructor; [|done].
  intros Hin. rewrite Forall_forall in Hall. by apply (Hirr a), Hall.
Qed.

(** ** Sublists *)

Lemma sublist_Forall {A} (P : A → Prop) l k : sublist l k → Forall P k → Forall P l.
Proof.
  induction 1 as [|x l k Hs IH|x l k Hs IH]; intros Hk; [done| |];
    apply Forall_cons in Hk as [Hx Hk]; auto.
Qed.

Lemma sublist_map {A B} (f : A → B) l k : sublist l k → sublist (map f l) (map f k).
Proof. induction 1; cbn; by constructor. Qed.

Lemma StronglySorted_sublist {A} (R : A → A → Prop) l k :
  sublist l k → StronglySorted R k → StronglySorted R l.
Proof.
  induction 1 as [|x l k Hs IH|x l k Hs IH]; intros Hk; [done| |];
    inversion Hk as [|? ? Hk' Hf]; subst; [|by apply IH].
  constructor; [by apply IH|]. by eapply sublist_Forall.
Qed.

#[export] Hint Rewrite @len_app @len_nil @len_cons len_le_bytes @len_map : micius.
#[export] Hint Resolve len_nonneg wrap_i64_range wrap_u64_range wrap_u32_range : micius.
#[global] Arguments u32_mod : simpl never.
#[global] Arguments u64_mod : simpl never.
#[global] Arguments le_bytes : simpl never.
#[global] Arguments le_Z : simpl never.
#[global] Arguments Z.pow : simpl never.
#[global] Arguments Z.modulo : simpl never.
#[global] Arguments Z.div : simpl never.
