(* ===== verification/BTree.v ===== *)
(** * Ordered maps and the ordering traits

    The standard library's [Ord] trait as a type class with its laws, instances
    for the key types the engine uses ([i64], [String], tuples and sequences,
    which [#[derive(Ord)]] combines lexicographically), and [BTreeMap] as an
    association list kept strictly sorted by key, which is what its iterator
    shows.  Also [slice::binary_search_by], the loop of the standard library,
    with its specification on sorted slices. *)
From S2P Require Import Prelude.

(** ** The [Ord] trait *)

Class Ord (K : Type) := cmp : K → K → comparison.

Class OrdLaws (K : Type) `{Ord K} : Prop := {
  cmp_eq_iff : ∀ a b : K, cmp a b = Eq ↔ a = b;
  cmp_antisym : ∀ a b : K, cmp b a = CompOpp (cmp a b);
  cmp_lt_trans : ∀ a b c : K, cmp a b = Lt → cmp b c = Lt → cmp a c = Lt
}.

#[global] Instance Z_ord : Ord Z := Z.compare.
#[global] Instance string_ord : Ord string := String.compare.
#[global] Instance prod_ord {A B} `{Ord A, Ord B} : Ord (A * B) := λ p q,
  match cmp p.1 q.1 with Eq => cmp p.2 q.2 | c => c end.

Fixpoint list_cmp {A} `{Ord A} (l k : list A) : comparison :=
  match l, k with
  | [], [] => Eq
  | [], _ :: _ => Lt
  | _ :: _, [] => Gt
  | a :: l', b :: k' => match cmp a b with Eq => list_cmp l' k' | c => c end
  end.
#[global] Instance list_ord {A} `{Ord A} : Ord (list A) := list_cmp.

(** ** [BTreeMap] *)

Section Operations.
Context {K V : Type} `{Ord K}.

Fixpoint bt_get (m : list (K * V)) (k : K) : option V :=
  match m with
  | [] => None
  | (k', v') :: m' =>
      match cmp k k' with Eq => Some v' | Lt => None | Gt => bt_get m' k end
  end.

Fixpoint bt_insert (m : list (K * V)) (k : K) (v : V) : list (K * V) :=
  match m with
  | [] => [(k, v)]
  | (k', v') :: m' =>
      match cmp k k' with
      | Lt => (k, v) :: m
      | Eq => (k, v) :: m'
      | Gt => (k', v') :: bt_insert m' k v
      end
  end.

Fixpoint bt_remove (m : list (K * V)) (k : K) : list (K * V) :=
  match m with
  | [] => []
  | (k', v') :: m' =>
      match cmp k k' with
      | Lt => m
      | Eq => m'
      | Gt => (k', v') :: bt_remove m' k
      end
  end.

(** [iter.collect::<BTreeMap<_, _>>()]: later duplicates win. *)
Definition bt_collect (l : list (K * V)) : list (K * V) :=
  fold_left (λ m p, bt_insert m p.1 p.2) l [].

Definition contains_key (m : list (K * V)) (k : K) : bool :=
  match bt_get m k with Some _ => true | None => false end.

Definition key_lt (p q : K * V) : Prop := cmp p.1 q.1 = Lt.

(** The representation invariant: keys strictly increasing. *)
Definition bt_wf (m : list (K * V)) : Prop := StronglySorted key_lt m.

End Operations.

(** ** [slice::binary_search_by] *)

Section BinarySearch.
Context {A : Type} (f : A → comparison).

(** The loop of [core::slice::binary_search_by]: halve the window until one
    candidate is left.  [fuel] is the slice's length; the window shrinks in
    every iteration, so it never runs out. *)
Fixpoint search_loop (fuel : nat) (l : list A) (base size : nat) : nat :=
  match fuel with
  | O => base
  | S fuel' =>
      if (1 <? size)%nat then
        let half := (size / 2)%nat in
        let mid := (base + half)%nat in
        let base' :=
          match l !! mid with
          | Some x => match f x with Gt => base | _ => mid end
          | None => base
          end in
        search_loop fuel' l base' (size - half)
      else base
  end.

(** [Ok(pos)]: found at [pos]; [Err(pos)]: absent, [pos] keeps the slice
    sorted. *)
Definition binary_search_by (l : list A) : nat + nat :=
  match l with
  | [] => inr O
  | _ :: _ =>
      let base := search_loop (length l) l 0 (length l) in
      match l !! base with
      | Some x =>
          match f x with
          | Eq => inl base
          | Lt => inr (S base)
          | Gt => inr base
          end
      | None => inr O
      end
  end.

End BinarySearch.

(** [Vec::insert]: shift the tail right. *)
Definition vec_insert {A} (l : list A) (pos : nat) (x : A) : list A :=
  take pos l ++ x :: drop pos l.

(** ** Laws of the orders *)

#[global] Instance Z_ord_laws : OrdLaws Z.
Proof.
  split; unfold cmp, Z_ord.
  - apply Z.compare_eq_iff.
  - intros. apply Z.compare_antisym.
  - intros a b c. rewrite !Z.compare_lt_iff. lia.
Qed.

Lemma cmp_Z_lt (a b : Z) : cmp a b = Lt ↔ a < b.
Proof. apply Z.compare_lt_iff. Qed.

Lemma ascii_compare_trans a b c :
  Ascii.compare a b = Lt → Ascii.compare b c = Lt → Ascii.compare a c = Lt.
Proof. unfold Ascii.compare. rewrite !N.compare_lt_iff. lia. Qed.

Lemma string_compare_trans s t u :
  String.compare s t = Lt → String.compare t u = Lt → String.compare s u = Lt.
Proof.
  revert t u. induction s as [|a s IH]; intros [|b t] [|c u]; simpl; try done.
  destruct (Ascii.compare a b) eqn:E1; try done;
    destruct (Ascii.compare b c) eqn:E2; try done.
  - apply Ascii.compare_eq_iff in E1 as ->. rewrite E2. apply IH.
  - apply Ascii.compare_eq_iff in E1 as ->. by rewrite E2.
  - apply Ascii.compare_eq_iff in E2 as <-. by rewrite E1.
  - by rewrite (ascii_compare_trans _ _ _ E1 E2).
Qed.

Lemma string_compare_refl s : String.compare s s = Eq.
Proof.
  induction s as [|a s IH]; simpl; [done|].
  unfold Ascii.compare. by rewrite N.compare_refl.
Qed.

#[global] Instance string_ord_laws : OrdLaws string.
Proof.
  split; unfold cmp, string_ord.
  - intros a b. split; [apply String.compare_eq_iff|]. intros ->. by apply string_compare_refl.
  - intros a b. apply String.compare_antisym.
  - apply string_compare_trans.
Qed.

Section Laws.
Context {A B : Type} `{OrdLaws A, OrdLaws B}.

Lemma cmp_refl (a : A) : cmp a a = Eq.
Proof. by apply cmp_eq_iff. Qed.

Lemma cmp_gt_iff (a b : A) : cmp a b = Gt ↔ cmp b a = Lt.
Proof. rewrite (cmp_antisym b a). destruct (cmp b a); simpl; split; congruence. Qed.

#[global] Instance prod_ord_laws : OrdLaws (A * B).
Proof.
  split; unfold cmp, prod_ord.
  - intros [a b] [a' b']; simpl. split.
    + destruct (cmp a a') eqn:E; try done. apply cmp_eq_iff in E as ->.
      by intros ->%cmp_eq_iff.
    + intros [= -> ->]. rewrite cmp_refl. by apply cmp_eq_iff.
  - intros [a b] [a' b']; simpl. rewrite (cmp_antisym a a').
    destruct (cmp a a'); simpl; [apply cmp_antisym|done..].
  - intros [a b] [a' b'] [a'' b'']; simpl.
    destruct (cmp a a') eqn:E1; try done; destruct (cmp a' a'') eqn:E2; try done.
    + apply cmp_eq_iff in E1 as ->. rewrite E2. apply cmp_lt_trans.
    + apply cmp_eq_iff in E1 as ->. by rewrite E2.
    + apply cmp_eq_iff in E2 as <-. by rewrite E1.
    + by rewrite (cmp_lt_trans _ _ _ E1 E2).
Qed.

Lemma list_cmp_eq_iff (l k : list A) : list_cmp l k = Eq ↔ l = k.
Proof.
  revert k. induction l as [|a l IH]; intros [|b k]; simpl; try done.
  destruct (cmp a b) eqn:E.
  - apply cmp_eq_iff in E as ->. rewrite IH. split; congruence.
  - split; [done|]. intros [= -> ->]. by rewrite cmp_refl in E.
  - split; [done|]. intros [= -> ->]. by rewrite cmp_refl in E.
Qed.

Lemma list_cmp_antisym (l k : list A) : list_cmp k l = CompOpp (list_cmp l k).
Proof.
  revert k. induction l as [|a l IH]; intros [|b k]; simpl; try done.
  rewrite (cmp_antisym a b). destruct (cmp a b); simpl; auto.
Qed.

Lemma list_cmp_trans (l k m : list A) :
  list_cmp l k = Lt → list_cmp k m = Lt → list_cmp l m = Lt.
Proof.
  revert k m. induction l as [|a l IH]; intros [|b k] [|c m]; simpl; try done.
  destruct (cmp a b) eqn:E1; try done; destruct (cmp b c) eqn:E2; try done.
  - apply cmp_eq_iff in E1 as ->. rewrite E2. apply IH.
  - apply cmp_eq_iff in E1 as ->. by rewrite E2.
  - apply cmp_eq_iff in E2 as <-. by rewrite E1.
  - by rewrite (cmp_lt_trans _ _ _ E1 E2).
Qed.

#[global] Instance list_ord_laws : OrdLaws (list A).
Proof.
  split.
  - apply list_cmp_eq_iff.
  - intros. apply list_cmp_antisym.
  - apply list_cmp_trans.
Qed.

End Laws.

(** ** Laws of the map *)

Section MapLaws.
Context {K V : Type} `{OrdLaws K}.
Implicit Types (m l : list (K * V)) (k : K) (v : V).

Lemma cmp_lt_neq k k' : cmp k k' = Lt → k ≠ k'.
Proof. intros E ->. by rewrite cmp_refl in E. Qed.

Lemma bt_wf_cons_inv k v m :
  bt_wf ((k, v) :: m) → bt_wf m ∧ Forall (λ p, cmp k p.1 = Lt) m.
Proof. intros Hs. inversion Hs; subst. split; [done|]. done. Qed.

Lemma bt_wf_cons k v m :
  bt_wf m → Forall (λ p, cmp k p.1 = Lt) m → bt_wf ((k, v) :: m).
Proof. intros Hm Hf. constructor; [done|]. exact Hf. Qed.

Lemma bt_get_None_lt m k : Forall (λ p : K * V, cmp k p.1 = Lt) m → bt_get m k = None.
Proof. destruct m as [|[k' v'] m]; [done|]. intros [E _]%Forall_cons. simpl in *. by rewrite E. Qed.

Lemma bt_get_Some_In m k v : bt_get m k = Some v → (k, v) ∈ m.
Proof.
  induction m as [|[k' v'] m IH]; simpl; [done|].
  destruct (cmp k k') eqn:E; intros Hg; try done.
  - apply cmp_eq_iff in E as ->. simplify_eq. left.
  - right. auto.
Qed.

Lemma bt_In_get m k v : bt_wf m → (k, v) ∈ m → bt_get m k = Some v.
Proof.
  induction m as [|[k' v'] m IH]; intros Hwf Hin; [by apply elem_of_nil in Hin|].
  apply bt_wf_cons_inv in Hwf as [Hwf Hlt]. simpl.
  apply elem_of_cons in Hin as [[= -> ->]|Hin].
  - by rewrite cmp_refl.
  - rewrite Forall_forall in Hlt. specialize (Hlt _ Hin). simpl in Hlt.
    apply cmp_gt_iff in Hlt. rewrite Hlt. auto.
Qed.

Lemma bt_get_In m k v : bt_wf m → bt_get m k = Some v ↔ (k, v) ∈ m.
Proof. split; eauto using bt_get_Some_In, bt_In_get. Qed.

Lemma bt_get_insert `{EqDecision K} m k k' v :
  bt_get (bt_insert m k v) k' = if decide (k' = k) then Some v else bt_get m k'.
Proof.
  induction m as [|[k0 v0] m IH]; simpl.
  - case_decide as D.
    + subst. by rewrite cmp_refl.
    + destruct (cmp k' k) eqn:E; try done. by apply cmp_eq_iff in E.
  - destruct (cmp k k0) eqn:E; simpl.
    + apply cmp_eq_iff in E as ->. case_decide as D.
      * subst. by rewrite cmp_refl.
      * destruct (cmp k' k0) eqn:E; try done. by apply cmp_eq_iff in E.
    + case_decide as D.
      * subst. by rewrite cmp_refl.
      * destruct (cmp k' k) eqn:E'; try done; [by apply cmp_eq_iff in E'|].
        by rewrite (cmp_lt_trans _ _ _ E' E).
    + rewrite IH. case_decide as D; [|done].
      subst. by rewrite E.
Qed.

Lemma bt_insert_Forall (P : K * V → Prop) m k v :
  P (k, v) → Forall P m → Forall P (bt_insert m k v).
Proof.
  intros Hp. induction 1 as [|[k0 v0] m ? ? IH]; simpl; [by constructor|].
  destruct (cmp k k0); repeat constructor; auto.
Qed.

Lemma bt_wf_insert m k v : bt_wf m → bt_wf (bt_insert m k v).
Proof.
  induction m as [|[k0 v0] m IH]; simpl; intros Hwf; [by repeat constructor|].
  apply bt_wf_cons_inv in Hwf as [Hwf Hlt]. destruct (cmp k k0) eqn:E.
  - apply cmp_eq_iff in E as ->. by apply bt_wf_cons.
  - apply bt_wf_cons; [by apply bt_wf_cons|]. constructor; [done|].
    eapply Forall_impl; [exact Hlt|]. intros [k1 v1]; simpl. by apply cmp_lt_trans.
  - apply bt_wf_cons; [by auto|]. apply bt_insert_Forall; [|done]. by apply cmp_gt_iff.
Qed.

Lemma bt_remove_Forall (P : K * V → Prop) m k : Forall P m → Forall P (bt_remove m k).
Proof.
  induction 1 as [|[k0 v0] m ? ? IH]; simpl; [by constructor|].
  destruct (cmp k k0); repeat constructor; auto.
Qed.

Lemma bt_wf_remove m k : bt_wf m → bt_wf (bt_remove m k).
Proof.
  induction m as [|[k0 v0] m IH]; simpl; intros Hwf; [done|].
  pose proof Hwf as [Hwf' Hlt]%bt_wf_cons_inv. destruct (cmp k k0) eqn:E; [done..|].
  apply bt_wf_cons; [by auto|]. by apply bt_remove_Forall.
Qed.

Lemma bt_get_remove `{EqDecision K} m k k' :
  bt_wf m → bt_get (bt_remove m k) k' = if decide (k' = k) then None else bt_get m k'.
Proof.
  induction m as [|[k0 v0] m IH]; simpl; intros Hwf; [by case_decide|].
  apply bt_wf_cons_inv in Hwf as [Hwf Hlt]. destruct (cmp k k0) eqn:E; simpl.
  - apply cmp_eq_iff in E as ->. case_decide as D.
    + subst. by apply bt_get_None_lt.
    + destruct (cmp k' k0) eqn:E; try done; [by apply cmp_eq_iff in E|].
      apply bt_get_None_lt. eapply Forall_impl; [exact Hlt|].
      intros [k1 v1]; simpl. by apply cmp_lt_trans.
  - case_decide as D; [|done]. subst. by rewrite E.
  - rewrite IH by done. case_decide as D; [|done]. subst. by rewrite E.
Qed.

(** Two maps with the same lookups are the same map. *)
Lemma bt_ext m m' :
  bt_wf m → bt_wf m' → (∀ k, bt_get m k = bt_get m' k) → m = m'.
Proof.
  revert m'. induction m as [|[k v] m IH]; intros [|[k' v'] m'] Hwf Hwf' Hext.
  - done.
  - specialize (Hext k'). simpl in Hext. by rewrite cmp_refl in Hext.
  - specialize (Hext k). simpl in Hext. by rewrite cmp_refl in Hext.
  - apply bt_wf_cons_inv in Hwf as [Hwf Hlt]. apply bt_wf_cons_inv in Hwf' as [Hwf' Hlt'].
    assert (k = k') as ->.
    { pose proof (Hext k) as H1. pose proof (Hext k') as H2. simpl in H1, H2.
      rewrite cmp_refl in H1, H2. destruct (cmp k k') eqn:E; [by apply cmp_eq_iff in E|done|].
      apply cmp_gt_iff in E. by rewrite E in H2. }
    pose proof (Hext k') as H1. simpl in H1. rewrite cmp_refl in H1. simplify_eq.
    f_equal. apply IH; [done..|]. intros k. specialize (Hext k). simpl in Hext.
    destruct (cmp k k') eqn:E; [|..|done].
    + apply cmp_eq_iff in E as ->. by rewrite !bt_get_None_lt.
    + rewrite !bt_get_None_lt; [done|..].
      * eapply Forall_impl; [exact Hlt'|]. intros [k1 v1]; simpl. by apply cmp_lt_trans.
      * eapply Forall_impl; [exact Hlt|]. intros [k1 v1]; simpl. by apply cmp_lt_trans.
Qed.

Lemma bt_collect_wf_from l m :
  bt_wf m → bt_wf (fold_left (λ m p, bt_insert m p.1 p.2) l m : list (K * V)).
Proof. revert m. induction l as [|[k v] l IH]; simpl; [done|]. auto using bt_wf_insert. Qed.

Lemma bt_collect_wf l : bt_wf (bt_collect l).
Proof. apply bt_collect_wf_from. constructor. Qed.

(** Inserting above every key appends. *)
Lemma bt_insert_snoc m k v :
  Forall (λ p, cmp p.1 k = Lt) m → bt_insert m k v = m ++ [(k, v)].
Proof.
  induction 1 as [|[k0 v0] m Hlt ? IH]; simpl; [done|].
  apply cmp_gt_iff in Hlt. simpl in Hlt. by rewrite Hlt, IH.
Qed.

(** Collecting a sequence that is already sorted gives it back. *)
Lemma bt_collect_sorted_from l m :
  bt_wf (m ++ l) → fold_left (λ m p, bt_insert m p.1 p.2) l m = m ++ l.
Proof.
  revert m. induction l as [|[k v] l IH]; intros m Hwf; simpl; [by rewrite app_nil_r|].
  rewrite bt_insert_snoc.
  - rewrite IH, <-app_assoc; [done|]. by rewrite <-app_assoc.
  - apply Forall_forall. intros p Hp.
    unfold bt_wf in Hwf. induction m as [|q m IHm]; [by apply elem_of_nil in Hp|].
    simpl in Hwf. inversion Hwf as [|? ? Hs Hf]; subst.
    apply elem_of_cons in Hp as [->|Hp]; [|by apply IHm].
    rewrite Forall_forall in Hf. apply (Hf (k, v)). set_solver.
Qed.

Lemma bt_collect_sorted l : bt_wf l → bt_collect l = l.
Proof. intros. by apply (bt_collect_sorted_from l []). Qed.

Lemma bt_insert_app_l l1 m k v :
  Forall (λ p, cmp p.1 k = Lt) l1 → bt_insert (l1 ++ m) k v = l1 ++ bt_insert m k v.
Proof.
  induction 1 as [|[k0 v0] l Hlt ? IH]; simpl; [done|].
  apply cmp_gt_iff in Hlt. simpl in Hlt. by rewrite Hlt, IH.
Qed.

Lemma bt_insert_head_lt m k v :
  Forall (λ p, cmp k p.1 = Lt) m → bt_insert m k v = (k, v) :: m.
Proof. destruct 1 as [|[k0 v0] m Hlt]; simpl in *; [done|]. by rewrite Hlt. Qed.

Lemma bt_wf_app_inv l m :
  bt_wf (l ++ m) →
  bt_wf l ∧ bt_wf m ∧ ∀ p q, p ∈ l → q ∈ m → cmp p.1 q.1 = Lt.
Proof.
  induction l as [|[k v] l IH]; simpl; intros Hwf.
  - split; [constructor|]. split; [done|]. intros p q []%elem_of_nil.
  - apply bt_wf_cons_inv in Hwf as [Hwf Hlt]. destruct (IH Hwf) as (Hl & Hm & Hlm).
    rewrite Forall_app in Hlt. destruct Hlt as [Hlt1 Hlt2].
    split; [by apply bt_wf_cons|]. split; [done|].
    intros p q [->|Hp]%elem_of_cons Hq; [|by auto]. rewrite Forall_forall in Hlt2. by apply Hlt2.
Qed.

(** The total of a weight over the entries, and how an insertion changes it. *)
Definition bt_sum (w : K * V → Z) (l : list (K * V)) : Z :=
  fold_right (λ p acc, w p + acc) 0 l.

Lemma bt_sum_insert w l k v :
  bt_sum w (bt_insert l k v) =
  bt_sum w l + w (k, v) - match bt_get l k with Some v0 => w (k, v0) | None => 0 end.
Proof.
  induction l as [|[k0 v0] l IH]; simpl; [lia|].
  destruct (cmp k k0) eqn:E; simpl; [|lia|rewrite IH; lia].
  apply cmp_eq_iff in E as ->. lia.
Qed.

Lemma bt_get_app_r l m k :
  Forall (λ p, cmp p.1 k = Lt) l → bt_get (l ++ m) k = bt_get m k.
Proof.
  induction 1 as [|[k0 v0] l Hlt ? IH]; simpl; [done|].
  apply cmp_gt_iff in Hlt. simpl in Hlt. by rewrite Hlt.
Qed.

Lemma bt_wf_lookup l i j p q :
  bt_wf l → (i < j)%nat → l !! i = Some p → l !! j = Some q → cmp p.1 q.1 = Lt.
Proof.
  intros Hwf Hij Hp Hq. rewrite <-(take_drop_middle _ _ _ Hp) in Hwf.
  apply bt_wf_app_inv in Hwf as (_ & Hwf & _). destruct p as [k v].
  apply bt_wf_cons_inv in Hwf as [_ Hf]. rewrite Forall_forall in Hf. apply Hf.
  apply list_elem_of_lookup. exists (j - S i)%nat. rewrite lookup_drop.
  by replace (S i + (j - S i))%nat with j by lia.
Qed.

(** Collecting pairs with distinct keys, in any order, sorts them. *)
Lemma bt_collect_get_from `{EqDecision K} l m k v :
  NoDup (l.*1) → (k, v) ∈ l → bt_get (fold_left (λ m p, bt_insert m p.1 p.2) l m) k = Some v.
Proof.
  revert m. induction l as [|[k0 v0] l IH]; intros m Hnd Hin; [by apply elem_of_nil in Hin|].
  apply NoDup_cons in Hnd as [Hn Hnd]. simpl. apply elem_of_cons in Hin as [[= <- <-]|Hin]; [|by apply IH].
  assert (∀ m, bt_get (fold_left (λ m p, bt_insert m p.1 p.2) l m) k = bt_get m k) as ->.
  { clear -Hn H0 EqDecision0. induction l as [|[k1 v1] l IH]; intros m; simpl in *; [done|].
    rewrite not_elem_of_cons in Hn. rewrite IH by apply Hn. rewrite bt_get_insert.
    rewrite decide_False; [done|apply Hn]. }
  rewrite bt_get_insert. by rewrite decide_True.
Qed.

Lemma bt_wf_NoDup_keys m : bt_wf m → NoDup (m.*1).
Proof.
  intros Hwf. apply (StronglySorted_NoDup (λ a b, cmp a b = Lt)).
  - intros k. by rewrite (proj2 (cmp_eq_iff k k) eq_refl).
  - apply (StronglySorted_map key_lt); [done|exact Hwf].
Qed.

Lemma bt_collect_perm `{EqDecision K} l m : Permutation l m → bt_wf m → bt_collect l = m.
Proof.
  intros Hp Hwf. apply bt_ext; [apply bt_collect_wf|done|].
  assert (NoDup (l.*1)) as Hnd by (rewrite Hp; by apply bt_wf_NoDup_keys).
  assert (∀ k v, bt_get m k = Some v → bt_get (bt_collect l) k = Some v) as Hto.
  { intros k v Hg. apply bt_collect_get_from; [done|]. rewrite Hp. by apply bt_get_Some_In. }
  intros k. destruct (bt_get m k) as [v|] eqn:E; [by apply Hto|].
  destruct (bt_get (bt_collect l) k) as [v|] eqn:E2; [|done]. exfalso.
  assert (Forall (λ p, p ∈ l) (bt_collect l)) as Hall.
  { unfold bt_collect. assert (∀ acc l', Forall (λ p, p ∈ l) acc → l' ⊆ l →
      Forall (λ p, p ∈ l) (fold_left (λ m p, bt_insert m p.1 p.2) l' acc)) as Hgen.
    { intros acc l'. revert acc. induction l' as [|[k1 v1] l' IH]; intros acc Hacc Hsub; simpl; [done|].
      apply IH; [|set_solver]. apply bt_insert_Forall; [|done]. apply Hsub. set_solver. }
    apply Hgen; [constructor|done]. }
  rewrite Forall_forall in Hall. apply bt_get_Some_In, Hall in E2. rewrite Hp in E2.
  apply bt_In_get in E2; [congruence|done].
Qed.

End MapLaws.

(** ** Specification of the binary search *)

Section BinarySearchLaws.
Context {A : Type} (f : A → comparison).

(** [f] compares an element with the target: on a strictly sorted slice it
    answers [Lt] up to some point, [Eq] at most once, and then [Gt]. *)
Definition search_sorted (l : list A) : Prop :=
  ∀ i j x y, (i < j)%nat → l !! i = Some x → l !! j = Some y → f x = Lt ∨ f y = Gt.

Lemma search_loop_spec fuel l base size :
  (size ≤ fuel)%nat → (1 ≤ size)%nat → (base + size ≤ length l)%nat →
  (base = O ∨ ∃ x, l !! base = Some x ∧ f x ≠ Gt) →
  (∀ i x, (base + size ≤ i)%nat → l !! i = Some x → f x = Gt) →
  search_sorted l →
  let r := search_loop f fuel l base size in
  (r < length l)%nat ∧ (r = O ∨ ∃ x, l !! r = Some x ∧ f x ≠ Gt) ∧
  (∀ i x, (r < i)%nat → l !! i = Some x → f x = Gt).
Proof.
  revert base size. induction fuel as [|fuel IH]; intros base size Hfuel Hsz Hlen Hb Hgt Hs.
  { lia. }
  cbn -[Nat.div Nat.ltb]. destruct (Nat.ltb_spec 1 size) as [Hlt|Hge].
  - assert (size / 2 < size ∧ 1 ≤ size / 2)%nat as [? ?].
    { split; [apply Nat.div_lt; lia|]. apply Nat.div_le_lower_bound; lia. }
    pose proof (Nat.Div0.mul_div_le size 2).
    destruct (lookup_lt_is_Some_2 l (base + size / 2)) as [x Hx]; [lia|]. rewrite Hx.
    apply IH; try lia; [destruct (f x) eqn:E; try lia..|done].
    + right. exists x. split; [done|]. by rewrite E.
    + right. exists x. split; [done|]. by rewrite E.
    + done.
    + intros i y Hi. apply Hgt. lia.
    + intros i y Hi. apply Hgt. lia.
    + intros i y Hi Hy.
      destruct (decide (i = base + size / 2)%nat) as [->|Hne]; [by simplify_eq|].
      destruct (Hs (base + size / 2)%nat i x y) as [Hl|Hr]; [lia|done..| |done]. congruence.
  - assert (size = 1%nat) as -> by lia. split; [lia|]. split; [done|].
    intros i x Hi. apply Hgt. lia.
Qed.

Lemma search_sorted_before l i j x y :
  search_sorted l → (i < j)%nat → l !! i = Some x → l !! j = Some y → f y ≠ Gt → f x = Lt.
Proof. intros Hs Hij Hx Hy Hf. by destruct (Hs i j x y). Qed.

Lemma binary_search_by_spec l :
  search_sorted l →
  match binary_search_by f l with
  | inl pos => ∃ x, l !! pos = Some x ∧ f x = Eq
  | inr pos => (pos ≤ length l)%nat ∧ Forall (λ x, f x = Lt) (take pos l) ∧
               Forall (λ x, f x = Gt) (drop pos l)
  end.
Proof.
  intros Hs. destruct (decide (l = [])) as [->|Hne]; [simpl; auto|].
  assert (0 < length l)%nat as Hlen by (destruct l; simpl; [done|lia]).
  destruct (search_loop_spec (length l) l 0 (length l)) as (Hr & Hb & Hgt); [lia..|by left| |done|].
  { intros i x Hi Hx%lookup_lt_Some. lia. }
  destruct (lookup_lt_is_Some_2 _ _ Hr) as [x Hx].
  assert (binary_search_by f l = match f x with
    | Eq => inl (search_loop f (length l) l 0 (length l))
    | Lt => inr (S (search_loop f (length l) l 0 (length l)))
    | Gt => inr (search_loop f (length l) l 0 (length l)) end) as ->.
  { unfold binary_search_by. destruct l; [done|]. by rewrite Hx. }
  set (r := search_loop f (length l) l 0 (length l)) in *. clearbody r.
  destruct (f x) eqn:E.
  - by exists x.
  - split; [lia|]. split; apply Forall_lookup; intros i y.
    + intros [Hy Hi]%lookup_take_Some. destruct (decide (i = r)) as [->|]; [by simplify_eq|].
      eapply search_sorted_before; [done| |done|exact Hx|by rewrite E]. lia.
    + rewrite lookup_drop. intros Hy. eapply Hgt; [|exact Hy]. lia.
  - destruct Hb as [->|(y & Hy & Hf)]; [|by simplify_eq].
    split; [lia|]. split; [constructor|]. rewrite drop_0. apply Forall_lookup. intros [|i] y Hy.
    + by simplify_eq.
    + eapply Hgt; [|exact Hy]. lia.
Qed.

End BinarySearchLaws.

(** ** A sorted vector updated through binary search is an ordered map *)

Section SortedVec.
Context {K V : Type} `{OrdLaws K}.
Implicit Types (l : list (K * V)).

Lemma bt_wf_search l k : bt_wf l → search_sorted (λ p : K * V, cmp p.1 k) l.
Proof.
  intros Hwf i j p q Hij Hp Hq. pose proof (bt_wf_lookup _ _ _ _ _ Hwf Hij Hp Hq) as Hlt.
  destruct (cmp p.1 k) eqn:E1; [|by left|].
  - right. apply cmp_eq_iff in E1 as <-. by apply cmp_gt_iff.
  - right. apply cmp_gt_iff in E1. apply cmp_gt_iff. eapply cmp_lt_trans; eauto.
Qed.

(** [match vec.binary_search_by_key(&k, ..) { Ok(pos) => vec[pos].1 = v,
    Err(pos) => vec.insert(pos, (k, v)) }] as the reference insertion. *)
Lemma binary_search_found l k pos :
  bt_wf l → binary_search_by (λ p : K * V, cmp p.1 k) l = inl pos →
  ∃ v0, l !! pos = Some (k, v0) ∧ bt_get l k = Some v0 ∧
        ∀ v, <[pos := (k, v)]> l = bt_insert l k v.
Proof.
  intros Hwf E.
  pose proof (binary_search_by_spec (λ p : K * V, cmp p.1 k) l) as Hs.
  rewrite E in Hs. destruct Hs as ([k0 v0] & Hx & Heq); [by apply bt_wf_search|].
  simpl in Heq. apply cmp_eq_iff in Heq as ->. exists v0.
  pose proof (take_drop_middle _ _ _ Hx) as Hsplit.
  assert (Forall (λ p : K * V, cmp p.1 k = Lt) (take pos l)) as Hbefore.
  { rewrite <-Hsplit in Hwf. apply bt_wf_app_inv in Hwf as (_ & _ & Hb).
    apply Forall_forall. intros p Hp. apply (Hb p (k, v0) Hp). left. }
  split; [done|]. split.
  - rewrite <-Hsplit, bt_get_app_r by done. simpl. by rewrite cmp_refl.
  - intros v. rewrite <-Hsplit at 2. rewrite bt_insert_app_l by done. simpl. rewrite cmp_refl.
    apply insert_take_drop. by eapply lookup_lt_Some.
Qed.

Lemma binary_search_absent l k pos :
  bt_wf l → binary_search_by (λ p : K * V, cmp p.1 k) l = inr pos →
  ∀ v, vec_insert l pos (k, v) = bt_insert l k v ∧ bt_get l k = None.
Proof.
  intros Hwf E v.
  pose proof (binary_search_by_spec (λ p : K * V, cmp p.1 k) l) as Hs.
  rewrite E in Hs. destruct Hs as (Hlen & Hlt & Hgt); [by apply bt_wf_search|].
  assert (Forall (λ p : K * V, cmp k p.1 = Lt) (drop pos l)) as Hgt'.
  { eapply Forall_impl; [exact Hgt|]. intros p. apply cmp_gt_iff. }
  unfold vec_insert. rewrite <-(take_drop pos l) at 3 4. split.
  - rewrite bt_insert_app_l by done. by rewrite bt_insert_head_lt.
  - rewrite bt_get_app_r by done. by apply bt_get_None_lt.
Qed.

End SortedVec.

#[export] Hint Resolve bt_wf_insert bt_wf_remove bt_collect_wf : micius.
