(* ===== verification/F64.v ===== *)
(** * [f64]

    A double is its 64-bit pattern, which is what [to_le_bytes] writes and
    [from_le_bytes] reads back; equality of the model is equality of the bits.
    The comparisons are the IEEE ones: every one with a NaN is false and the two
    zeros are equal.  They are defined on the bit pattern (the magnitude orders
    like an integer) and proved equal to the comparisons of the standard
    library's specification of binary64, which also gives division and the
    conversion from [u64]. *)
From S2P Require Import Prelude.
From Stdlib Require Import SpecFloat.

Record f64 := F64 { f64_bits : Z }.

#[global] Instance f64_eq_dec : EqDecision f64.
Proof. solve_decision. Defined.

(** The bit pattern of an [f64] is a [u64]. *)
Definition f64_wf (x : f64) : Prop := in_u64 (f64_bits x).

(** [f64::to_le_bytes] and [f64::from_le_bytes]. *)
Definition f64_to_le_bytes (x : f64) : bytes := le_bytes 8 (f64_bits x).
Definition f64_from_le_bytes (l : bytes) : f64 := F64 (le_Z l).

Definition f64_sign (x : f64) : bool := 2 ^ 63 <=? f64_bits x.
Definition f64_mag (x : f64) : Z := f64_bits x mod 2 ^ 63.
Definition inf_mag : Z := 2047 * 2 ^ 52.
Definition is_nan (x : f64) : bool := inf_mag <? f64_mag x.

(** Position on the real line: the magnitude with the sign applied. *)
Definition f64_ord (x : f64) : Z := if f64_sign x then - f64_mag x else f64_mag x.

(** [x < y], [x <= y], [x > y], [x >= y]. *)
Definition f64_lt (x y : f64) : bool :=
  negb (is_nan x) && negb (is_nan y) && (f64_ord x <? f64_ord y).
Definition f64_le (x y : f64) : bool :=
  negb (is_nan x) && negb (is_nan y) && (f64_ord x <=? f64_ord y).
Definition f64_gt (x y : f64) : bool := f64_lt y x.
Definition f64_ge (x y : f64) : bool := f64_le y x.

(** [f64::min] and [f64::max]: a NaN argument is ignored.  Between [-0.0] and
    [0.0] the language leaves the choice open; the first argument is taken. *)
Definition f64_min (x y : f64) : f64 :=
  if is_nan x then y else if is_nan y then x else if f64_lt y x then y else x.
Definition f64_max (x y : f64) : f64 :=
  if is_nan x then y else if is_nan y then x else if f64_lt x y then y else x.

(** [iter.reduce(f)]. *)
Definition reduce {A} (f : A → A → A) (l : list A) : option A :=
  match l with [] => None | a :: l' => Some (fold_left f l' a) end.

(** ** The value a bit pattern denotes *)

Definition to_spec (x : f64) : spec_float :=
  let s := f64_sign x in
  let e := f64_mag x / 2 ^ 52 in
  let m := f64_mag x mod 2 ^ 52 in
  if e =? 2047 then (if m =? 0 then S754_infinity s else S754_nan)
  else if e =? 0 then
    match m with Zpos p => S754_finite s p (-1074) | _ => S754_zero s end
  else
    match m + 2 ^ 52 with Zpos p => S754_finite s p (e - 1075) | _ => S754_nan end.

Definition of_spec (v : spec_float) : f64 :=
  let sgn (s : bool) := if s then 2 ^ 63 else 0 in
  match v with
  | S754_zero s => F64 (sgn s)
  | S754_infinity s => F64 (sgn s + inf_mag)
  | S754_nan => F64 (inf_mag + 2 ^ 51)
  | S754_finite s m e =>
      if Zpos m <? 2 ^ 52 then F64 (sgn s + Zpos m)
      else F64 (sgn s + (e + 1075) * 2 ^ 52 + (Zpos m - 2 ^ 52))
  end.

(** [z as f64] for a [u64], rounding to nearest even. *)
Definition f64_of_u64 (z : Z) : f64 := of_spec (binary_normalize 53 1024 z 0 false).

(** [x / y]. *)
Definition f64_div (x y : f64) : f64 := of_spec (SFdiv 53 1024 (to_spec x) (to_spec y)).

Definition f64_zero : f64 := F64 0.
Definition f64_one : f64 := F64 (1023 * 2 ^ 52).

(** ** Bytes *)

Lemma f64_bytes_roundtrip x : f64_wf x → f64_from_le_bytes (f64_to_le_bytes x) = x.
Proof.
  destruct x as [b]. intros H. unfold f64_from_le_bytes, f64_to_le_bytes. simpl f64_bits.
  by rewrite le_u64_roundtrip.
Qed.

Lemma length_f64_to_le_bytes x : length (f64_to_le_bytes x) = 8%nat.
Proof. apply length_le_bytes. Qed.

(** ** The comparisons agree with the specification of binary64 *)

Lemma f64_mag_range x : 0 <= f64_mag x < 2 ^ 63.
Proof. by apply Z.mod_pos_bound. Qed.

Lemma mag_split x : f64_mag x = f64_mag x / 2 ^ 52 * 2 ^ 52 + f64_mag x mod 2 ^ 52.
Proof. rewrite Z.mul_comm. by apply Z.div_mod. Qed.

(** Mantissa [p] and exponent [e] of a finite nonzero magnitude [mag]: subnormal
    or normal. *)
Definition finite_mag (mag : Z) (p : positive) (e : Z) : Prop :=
  0 < mag < 2 ^ 52 ∧ Zpos p = mag ∧ e = -1074 ∨
  ∃ b, 1 <= b < 2047 ∧ 2 ^ 52 <= Zpos p < 2 ^ 53 ∧
       mag = (b - 1) * 2 ^ 52 + Zpos p ∧ e = b - 1075.

(** What [to_spec] yields. *)
Inductive decoded (x : f64) : spec_float → Prop :=
| decoded_zero : f64_mag x = 0 → decoded x (S754_zero (f64_sign x))
| decoded_inf : f64_mag x = inf_mag → decoded x (S754_infinity (f64_sign x))
| decoded_nan : inf_mag < f64_mag x → decoded x S754_nan
| decoded_finite p e : finite_mag (f64_mag x) p e →
    decoded x (S754_finite (f64_sign x) p e).

(** Expand the powers of two of this file. *)
Ltac pows :=
  unfold inf_mag, finite_mag in *;
  change (2 ^ 52) with 4503599627370496 in *; change (2 ^ 63) with 9223372036854775808 in *;
  change (2 ^ 53) with 9007199254740992 in *.

Lemma to_spec_decoded x : decoded x (to_spec x).
Proof.
  pose proof (f64_mag_range x) as Hr. pose proof (mag_split x) as Hs.
  pose proof (Z.mod_pos_bound (f64_mag x) (2 ^ 52) eq_refl) as Hm.
  unfold to_spec. set (e := f64_mag x / 2 ^ 52) in *. set (m := f64_mag x mod 2 ^ 52) in *.
  clearbody e m. pows.
  destruct (Z.eqb_spec e 2047) as [->|He].
  { destruct (Z.eqb_spec m 0); [apply decoded_inf|apply decoded_nan]; pows; lia. }
  destruct (Z.eqb_spec e 0) as [->|He0].
  { destruct m as [|p|p] eqn:Ep; [apply decoded_zero; lia| |lia].
    apply decoded_finite. left. pows. lia. }
  destruct (m + 4503599627370496) as [|p|p] eqn:Ep; [lia| |lia].
  apply decoded_finite. right. exists e. pows. lia.
Qed.

(** Finite values compare by exponent and then mantissa: the same as comparing
    magnitudes. *)
Lemma finite_compare ma mb pa pb ea eb :
  finite_mag ma pa ea → finite_mag mb pb eb →
  (match ea ?= eb with Eq => Pos.compare pa pb | c => c end) = (ma ?= mb).
Proof.
  intros Ha Hb. change (Pos.compare pa pb) with (Zpos pa ?= Zpos pb).
  pows. destruct (Z.compare_spec ea eb); destruct (Z.compare_spec (Zpos pa) (Zpos pb));
    destruct (Z.compare_spec ma mb); try reflexivity; exfalso;
    destruct Ha as [(? & ? & ?)|(e1 & ? & ? & ? & ?)];
    destruct Hb as [(? & ? & ?)|(e2 & ? & ? & ? & ?)]; lia.
Qed.

Lemma finite_mag_range mag p e : finite_mag mag p e → 0 < mag < inf_mag.
Proof. pows. intros [?|(b & ?)]; lia. Qed.

(** Decide a comparison of integers by [lia]. *)
Ltac zcmp :=
  symmetry; first [apply Z.compare_eq_iff; lia | apply Z.compare_lt_iff; lia
                  | apply Z.compare_gt_iff; lia].

Lemma is_nan_false x : f64_mag x <= inf_mag → is_nan x = false.
Proof. intros. unfold is_nan. apply Z.ltb_ge. lia. Qed.

Lemma f64_compare_spec x y :
  SFcompare (to_spec x) (to_spec y) =
  if is_nan x || is_nan y then None else Some (f64_ord x ?= f64_ord y).
Proof.
  pose proof (to_spec_decoded x) as Hx. pose proof (to_spec_decoded y) as Hy.
  assert (0 < inf_mag) by done. unfold f64_ord.
  destruct Hx as [Hx|Hx|Hx|p e Hx].
  3: { unfold is_nan. apply Z.ltb_lt in Hx. by rewrite Hx. }
  all: destruct Hy as [Hy|Hy|Hy|p' e' Hy].
  3, 7, 11: unfold is_nan at 2; apply Z.ltb_lt in Hy; rewrite Hy, orb_true_r; by destruct (f64_sign x).
  all: try pose proof (finite_mag_range _ _ _ Hx); try pose proof (finite_mag_range _ _ _ Hy).
  all: rewrite (is_nan_false x), (is_nan_false y) by lia; simpl orb; cbn [SFcompare].
  9: { pose proof (finite_compare _ _ _ _ _ _ Hx Hy) as Hc.
       destruct (f64_sign x), (f64_sign y); f_equal; [|zcmp..|by rewrite <-Hc; destruct (e ?= e')].
       rewrite Z.compare_opp, (Z.compare_antisym (f64_mag x)), <-Hc.
       destruct (e ?= e'); try done. }
  all: destruct (f64_sign x), (f64_sign y); f_equal; zcmp.
Qed.

Lemma f64_lt_spec x y : f64_lt x y = SFltb (to_spec x) (to_spec y).
Proof.
  unfold SFltb, f64_lt. rewrite f64_compare_spec.
  destruct (is_nan x), (is_nan y); simpl; try done.
Qed.

Lemma f64_le_spec x y : f64_le x y = SFleb (to_spec x) (to_spec y).
Proof.
  unfold SFleb, f64_le. rewrite f64_compare_spec.
  destruct (is_nan x), (is_nan y); simpl; try done.
Qed.

(** ** Order facts *)

Lemma f64_lt_iff x y :
  f64_lt x y = true ↔ is_nan x = false ∧ is_nan y = false ∧ f64_ord x < f64_ord y.
Proof.
  unfold f64_lt. destruct (is_nan x), (is_nan y); simpl; rewrite ?Z.ltb_lt; intuition congruence.
Qed.

Lemma f64_le_iff x y :
  f64_le x y = true ↔ is_nan x = false ∧ is_nan y = false ∧ f64_ord x <= f64_ord y.
Proof.
  unfold f64_le. destruct (is_nan x), (is_nan y); simpl; rewrite ?Z.leb_le; intuition congruence.
Qed.

Lemma f64_min_spec x y :
  (is_nan x = false ∨ is_nan y = false →
   is_nan (f64_min x y) = false) ∧
  (is_nan x = false → f64_ord (f64_min x y) <= f64_ord x) ∧
  (is_nan y = false → f64_ord (f64_min x y) <= f64_ord y).
Proof.
  unfold f64_min, f64_lt.
  destruct (is_nan x) eqn:Ex, (is_nan y) eqn:Ey; simpl; try (intuition (congruence || lia)).
  destruct (Z.ltb_spec (f64_ord y) (f64_ord x)); rewrite ?Ex, ?Ey; intuition lia.
Qed.

Lemma f64_max_spec x y :
  (is_nan x = false ∨ is_nan y = false →
   is_nan (f64_max x y) = false) ∧
  (is_nan x = false → f64_ord x <= f64_ord (f64_max x y)) ∧
  (is_nan y = false → f64_ord y <= f64_ord (f64_max x y)).
Proof.
  unfold f64_max, f64_lt.
  destruct (is_nan x) eqn:Ex, (is_nan y) eqn:Ey; simpl; try (intuition (congruence || lia)).
  destruct (Z.ltb_spec (f64_ord x) (f64_ord y)); rewrite ?Ex, ?Ey; intuition lia.
Qed.

(** Folding the minimum over a list bounds every number in it from below. *)
Lemma fold_min_bound l a v :
  v ∈ a :: l → is_nan v = false →
  is_nan (fold_left f64_min l a) = false ∧ f64_ord (fold_left f64_min l a) <= f64_ord v.
Proof.
  revert a v. induction l as [|b l IH]; intros a v Hin Hv; simpl.
  - apply list_elem_of_singleton in Hin as ->. auto with lia.
  - destruct (f64_min_spec a b) as (Hn & Ha & Hb).
    apply elem_of_cons in Hin as [->|Hin].
    + destruct (IH (f64_min a b) (f64_min a b)) as [H1 H2]; [left|by auto|].
      split; [done|]. specialize (Ha Hv). lia.
    + apply elem_of_cons in Hin as [->|Hin].
      * destruct (IH (f64_min a b) (f64_min a b)) as [H1 H2]; [left|by auto|].
        split; [done|]. specialize (Hb Hv). lia.
      * apply IH; [by right|done].
Qed.

Lemma fold_max_bound l a v :
  v ∈ a :: l → is_nan v = false →
  is_nan (fold_left f64_max l a) = false ∧ f64_ord v <= f64_ord (fold_left f64_max l a).
Proof.
  revert a v. induction l as [|b l IH]; intros a v Hin Hv; simpl.
  - apply list_elem_of_singleton in Hin as ->. auto with lia.
  - destruct (f64_max_spec a b) as (Hn & Ha & Hb).
    apply elem_of_cons in Hin as [->|Hin].
    + destruct (IH (f64_max a b) (f64_max a b)) as [H1 H2]; [left|by auto|].
      split; [done|]. specialize (Ha Hv). lia.
    + apply elem_of_cons in Hin as [->|Hin].
      * destruct (IH (f64_max a b) (f64_max a b)) as [H1 H2]; [left|by auto|].
        split; [done|]. specialize (Hb Hv). lia.
      * apply IH; [by right|done].
Qed.

(** The extremum of a list is one of its elements. *)
Lemma fold_pick (f : f64 → f64 → f64) l a :
  (∀ x y, f x y = x ∨ f x y = y) → fold_left f l a ∈ a :: l.
Proof.
  intros Hf. revert a. induction l as [|b l IH]; intros a; simpl; [left|].
  specialize (IH (f a b)). apply elem_of_cons in IH as [->|IH]; [|by do 2 right].
  destruct (Hf a b) as [->| ->]; [left|right; left].
Qed.

Lemma f64_min_pick x y : f64_min x y = x ∨ f64_min x y = y.
Proof. unfold f64_min. repeat case_match; auto. Qed.

Lemma f64_max_pick x y : f64_max x y = x ∨ f64_max x y = y.
Proof. unfold f64_max. repeat case_match; auto. Qed.
