(* ===== verification/Externals.v ===== *)
(** * Third-party code

    The crates the engine calls are parameters of the model: one class of
    operations per crate and one class of the documented laws the engine relies
    on.  Nothing is assumed about a checksum beyond its width, and nothing about
    a hash beyond its width and that streaming the input does not change it.

    Each class has a concrete instance at the end of the file (a real CRC-32, a
    polynomial hash, stored blocks for lz4, a one-hash bloom filter,
    self-delimiting codecs), which shows that the laws can hold and lets examples
    compute. *)
From S2P Require Import Prelude.

(** ** [xxhash_rust]: [xxh64(bytes, 0)] and the streaming [Xxh64] *)

Class XxHash := {
  xxh64 : bytes → Z;
  xxh_state : Type;
  xxh_new : xxh_state;
  xxh_update : xxh_state → bytes → xxh_state;
  xxh_digest : xxh_state → Z
}.

Class XxHashLaws `{XxHash} : Prop := {
  xxh64_range : ∀ l, in_u64 (xxh64 l);
  xxh_stream : ∀ parts, xxh_digest (fold_left xxh_update parts xxh_new) = xxh64 (concat parts)
}.

(** ** [crc32fast]: the checksum of a byte string *)

Class Crc32 := crc32 : bytes → Z.

Class Crc32Laws `{Crc32} : Prop := crc32_range : ∀ l, in_u32 (crc32 l).

(** ** [lz4_flex::block] with a prepended size

    The size prefix is 32 bits wide, so blocks of 4 GiB and more are outside the
    law. *)

Class Lz4 := {
  compress_prepend_size : bytes → bytes;
  decompress_size_prepended : bytes → result bytes
}.

Class Lz4Laws `{Lz4} : Prop :=
  lz4_roundtrip : ∀ l, len l < u32_mod →
    decompress_size_prepended (compress_prepend_size l) = Ok l.

(** ** [bloomfilter]

    [new_for_fp_rate] draws its SipHash keys at random; the draw is the extra
    argument [seed]. *)

Class BloomFilter := {
  bloom : Type;
  bloom_new_for_fp_rate : Z → Z → bloom;
  bloom_set : bloom → bytes → bloom;
  bloom_check : bloom → bytes → bool;
  number_of_bits : bloom → Z;
  number_of_hash_functions : bloom → Z;
  sip_keys : bloom → (Z * Z) * (Z * Z);
  bitmap : bloom → bytes;
  bloom_from_existing : bytes → Z → Z → (Z * Z) * (Z * Z) → bloom
}.

Class BloomLaws `{BloomFilter} : Prop := {
  bloom_set_check : ∀ b k, bloom_check (bloom_set b k) k = true;
  bloom_set_mono : ∀ b k k', bloom_check b k = true → bloom_check (bloom_set b k') k = true;
  bloom_existing : ∀ b k,
    bloom_check (bloom_from_existing (bitmap b) (number_of_bits b)
                   (number_of_hash_functions b) (sip_keys b)) k = bloom_check b k;
  bloom_bits_range : ∀ b, in_u64 (number_of_bits b);
  bloom_k_range : ∀ b, in_u32 (number_of_hash_functions b);
  bloom_sip_range : ∀ b,
    in_u64 (sip_keys b).1.1 ∧ in_u64 (sip_keys b).1.2 ∧
    in_u64 (sip_keys b).2.1 ∧ in_u64 (sip_keys b).2.2
}.

(** ** Message codecs: [prost] and [bincode]

    Derived code; what the engine relies on is that decoding what was encoded
    gives the message back, for messages of the Rust type ([valid]). *)

Class Codec (M : Type) := {
  encode_to_vec : M → bytes;
  decode : bytes → result M
}.

Class CodecLaws (M : Type) `{Codec M} (valid : M → Prop) : Prop :=
  decode_encode : ∀ m, valid m → decode (encode_to_vec m) = Ok m.

(** ** Concrete instances *)

(** The bits of a byte string folded into a 64-bit polynomial hash. *)
Definition poly_step (h : Z) (b : byte) : Z := (h * 31 + byte_to_Z b + 7) mod u64_mod.

Definition poly_hash : XxHash := {|
  xxh64 l := fold_left poly_step l 0;
  xxh_state := Z;
  xxh_new := 0;
  xxh_update h l := fold_left poly_step l h;
  xxh_digest h := h
|}.

(** CRC-32 (IEEE, reflected), one bit at a time. *)
Definition crc_bit (c : Z) : Z :=
  if Z.testbit c 0 then Z.lxor (Z.shiftr c 1) 3988292384 else Z.shiftr c 1.
Definition crc_byte (c : Z) (b : byte) : Z :=
  Nat.iter 8 crc_bit (Z.lxor c (byte_to_Z b)).
Definition ieee_crc32 : Crc32 := λ l,
  Z.lxor (fold_left crc_byte l 4294967295) 4294967295 mod u32_mod.

(** Blocks stored as they are behind their size. *)
Definition stored_lz4 : Lz4 := {|
  compress_prepend_size l := le_bytes 4 (len l) ++ l;
  decompress_size_prepended l :=
    if le_Z (take 4 l) =? len (drop 4 l) then Ok (drop 4 l) else Err "lz4"
|}.

(** One hash function over 64 cells, a byte each. *)
Definition cell (k : bytes) : nat := Z.to_nat (fold_left poly_step k 0 mod 64).
Definition cell_bloom : BloomFilter := {|
  bloom := bytes;
  bloom_new_for_fp_rate _ _ := replicate 64 Byte.x00;
  bloom_set b k := <[cell k := Byte.xff]> (take 64 (b ++ replicate 64 Byte.x00));
  bloom_check b k := bool_decide (b !! cell k = Some Byte.xff);
  number_of_bits _ := 512;
  number_of_hash_functions _ := 1;
  sip_keys _ := ((1, 2), (3, 4));
  bitmap b := b;
  bloom_from_existing b _ _ _ := b
|}.

(** A self-delimiting serialization, for codecs that compute: a value is written so
    that reading stops where it ends. *)
Class Ser (A : Type) := {
  put : A → bytes;
  get : bytes → option (A * bytes)
}.
Class SerLaws (A : Type) `{Ser A} : Prop :=
  get_put : ∀ a rest, get (put a ++ rest) = Some (a, rest).

Definition ser_codec (A : Type) `{Ser A} : Codec A := {|
  encode_to_vec a := put a;
  decode l := match get l with Some (a, []) => Ok a | _ => Err "decode" end
|}.

(** Integers: their width in unary, their sign, their magnitude. *)
Definition z_width (z : Z) : nat := Z.to_nat (Z.log2 (Z.abs z) / 8 + 1).
Fixpoint get_unary (l : bytes) (n : nat) : option (nat * bytes) :=
  match l with
  | Byte.x01 :: l' => get_unary l' (S n)
  | Byte.x00 :: l' => Some (n, l')
  | _ => None
  end.
#[global] Instance ser_Z : Ser Z := {|
  put z := replicate (z_width z) Byte.x01 ++ Byte.x00 ::
           (if z <? 0 then Byte.x01 else Byte.x00) :: le_bytes (z_width z) (Z.abs z);
  get l :=
    '(n, l1) ← get_unary l 0;
    match l1 with
    | [] => None
    | s :: l2 =>
        let m := le_Z (take n l2) in
        Some (if bool_decide (s = Byte.x01) then - m else m, drop n l2)
    end
|}.

#[global] Instance ser_byte : Ser byte := {|
  put b := [b];
  get l := match l with [] => None | b :: l' => Some (b, l') end
|}.

#[global] Instance ser_prod {A B} `{Ser A, Ser B} : Ser (A * B) := {|
  put p := put p.1 ++ put p.2;
  get l := '(a, l1) ← get l; '(b, l2) ← get l1; Some ((a, b), l2)
|}.

Fixpoint get_times {A} `{Ser A} (n : nat) (l : bytes) : option (list A * bytes) :=
  match n with
  | O => Some ([], l)
  | S n' => '(a, l1) ← get l; '(as', l2) ← get_times n' l1; Some (a :: as', l2)
  end.
#[global] Instance ser_list {A} `{Ser A} : Ser (list A) := {|
  put as' := put (len as') ++ flat_map put as';
  get l := '(n, l1) ← get l; get_times (Z.to_nat n) l1
|}.

(** Types given by an injection. *)
Definition ser_iso {A B} `{Ser A} (f : B → A) (g : A → B) : Ser B := {|
  put b := put (f b);
  get l := '(a, l1) ← get l; Some (g a, l1)
|}.

#[global] Instance ser_string : Ser string :=
  ser_iso String.list_byte_of_string String.string_of_list_byte.

(** ** The instances satisfy the laws *)

Lemma poly_range l h : in_u64 h → in_u64 (fold_left poly_step l h).
Proof.
  revert h. induction l as [|b l IH]; intros h Hh; simpl; [done|].
  apply IH. by apply Z.mod_pos_bound.
Qed.

Lemma poly_hash_laws : @XxHashLaws poly_hash.
Proof.
  split; simpl.
  - intros l. apply poly_range. done.
  - intros parts. generalize 0 as h. induction parts as [|p parts IH]; intros h; simpl; [done|].
    by rewrite fold_left_app, IH.
Qed.

Lemma ieee_crc32_laws : @Crc32Laws ieee_crc32.
Proof. intros l. by apply Z.mod_pos_bound. Qed.

Lemma stored_lz4_laws : @Lz4Laws stored_lz4.
Proof.
  intros l Hl. unfold compress_prepend_size, decompress_size_prepended, stored_lz4.
  rewrite take_app_length', drop_app_length' by (by rewrite length_le_bytes).
  rewrite le_u32_roundtrip by (split; [apply len_nonneg|done]). by rewrite Z.eqb_refl.
Qed.

Lemma cell_lt k : (cell k < 64)%nat.
Proof. unfold cell. pose proof (Z.mod_pos_bound (fold_left poly_step k 0) 64 eq_refl). lia. Qed.

Lemma cell_bloom_laws : @BloomLaws cell_bloom.
Proof.
  split; cbn -[replicate take cell]; intros.
  - apply bool_decide_eq_true. apply list_lookup_insert_eq.
    rewrite length_take, length_app, length_replicate. pose proof (cell_lt k). lia.
  - apply bool_decide_eq_true in H. apply bool_decide_eq_true.
    destruct (decide (cell k = cell k')) as [->|Hne].
    + apply list_lookup_insert_eq. rewrite length_take, length_app, length_replicate.
      pose proof (cell_lt k'). lia.
    + rewrite list_lookup_insert_ne by done. rewrite lookup_take_lt by apply cell_lt.
      by apply lookup_app_l_Some.
  - done.
  - done.
  - done.
  - done.
Qed.

Lemma ser_codec_laws A `{SerLaws A} : @CodecLaws A (ser_codec A) (λ _, True).
Proof.
  intros a _. unfold encode_to_vec, decode, ser_codec. rewrite <-(app_nil_r (put a)). by rewrite get_put.
Qed.

Lemma get_unary_put n k rest : get_unary (replicate n Byte.x01 ++ Byte.x00 :: rest) k = Some ((n + k)%nat, rest).
Proof.
  revert k. induction n as [|n IH]; intros k; cbn; [done|]. rewrite IH. do 2 f_equal. lia.
Qed.

Lemma z_width_bound z : 0 <= Z.abs z < 256 ^ Z.of_nat (z_width z).
Proof.
  split; [lia|]. unfold z_width. destruct (decide (Z.abs z = 0)) as [->|Hz]; [done|].
  pose proof (Z.log2_spec (Z.abs z) ltac:(lia)) as [_ Hlt]. pose proof (Z.log2_nonneg (Z.abs z)).
  assert (0 <= Z.log2 (Z.abs z) / 8) by (apply Z.div_pos; lia).
  rewrite Z2Nat.id by lia. change 256 with (2 ^ 8). rewrite <-Z.pow_mul_r by lia.
  eapply Z.lt_le_trans; [exact Hlt|]. apply Z.pow_le_mono_r; [lia|].
  pose proof (Z.mod_pos_bound (Z.log2 (Z.abs z)) 8 eq_refl).
  pose proof (Z.div_mod (Z.log2 (Z.abs z)) 8 ltac:(lia)). lia.
Qed.

#[global] Instance ser_Z_laws : SerLaws Z.
Proof.
  intros z rest. unfold put, get, ser_Z. rewrite <-app_assoc. cbn [app].
  rewrite get_unary_put. cbn [mbind option_bind]. rewrite Nat.add_0_r.
  rewrite take_app_length', drop_app_length' by (by rewrite length_le_bytes).
  rewrite le_Z_le_bytes_small by apply z_width_bound.
  destruct (z <? 0) eqn:E; zbool; case_bool_decide; try done; do 2 f_equal; lia.
Qed.

#[global] Instance ser_byte_laws : SerLaws byte.
Proof. by intros b rest. Qed.

#[global] Instance ser_prod_laws {A B} `{SerLaws A, SerLaws B} : SerLaws (A * B).
Proof.
  intros [a b] rest. unfold put, get, ser_prod. cbn [fst snd]. rewrite <-app_assoc, get_put.
  cbn [mbind option_bind]. by rewrite get_put.
Qed.

#[global] Instance ser_list_laws {A} `{SerLaws A} : SerLaws (list A).
Proof.
  intros l rest. unfold put at 1, get at 1, ser_list. rewrite <-app_assoc, get_put.
  cbn [mbind option_bind]. unfold len. rewrite Nat2Z.id.
  induction l as [|a l IH]; cbn [flat_map length get_times app]; [done|].
  rewrite <-app_assoc, get_put. cbn [mbind option_bind]. by rewrite IH.
Qed.

Lemma ser_iso_laws {A B} `{SerLaws A} (f : B → A) (g : A → B) :
  (∀ b, g (f b) = b) → @SerLaws B (ser_iso f g).
Proof. intros Hg b rest. unfold put, get, ser_iso. rewrite get_put. cbn [mbind option_bind]. by rewrite Hg. Qed.

#[global] Instance ser_string_laws : SerLaws string.
Proof. apply ser_iso_laws, String.string_of_list_byte_of_string. Qed.
