(* ===== verification/Types.v ===== *)
(** * Core types ([src/storage-engine/src/types.rs])

    Data points, series keys with their canonical byte form, series ids,
    per-chunk statistics and value predicates.  [String] is Rocq's byte string;
    Rust's invariant that it holds UTF-8 is the predicate [utf8_string].
    xxHash is the parameter [XxHash] of [Externals.v]. *)
From S2P Require Import Prelude BTree F64 Externals.
From Stdlib Require Import Strings.Byte.

(** ** Strings as bytes *)

(** [s.as_bytes()] and the way back. *)
Definition as_bytes (s : string) : bytes := String.list_byte_of_string s.
Definition of_bytes (l : bytes) : string := String.string_of_list_byte l.
(** [s.len()]. *)
Definition slen (s : string) : Z := len (as_bytes s).

Definition comma : byte := Byte.x2c.
Definition equals : byte := Byte.x3d.

Definition in_range (lo hi : Z) (b : byte) : bool :=
  (lo <=? byte_to_Z b) && (byte_to_Z b <=? hi).
Definition continuation (b : byte) : bool := in_range 128 191 b.

(** Well-formed two-, three- and four-byte sequences, by their first bytes. *)
Definition utf8_2 (a b : byte) : bool := in_range 194 223 a && continuation b.
Definition utf8_3 (a b c : byte) : bool :=
  (in_range 224 224 a && in_range 160 191 b
   || in_range 225 236 a && continuation b
   || in_range 237 237 a && in_range 128 159 b
   || in_range 238 239 a && continuation b) && continuation c.
Definition utf8_4 (a b c d : byte) : bool :=
  (in_range 240 240 a && in_range 144 191 b
   || in_range 241 243 a && continuation b
   || in_range 244 244 a && in_range 128 143 b) && continuation c && continuation d.

(** [std::str::from_utf8] accepts the bytes. *)
Fixpoint utf8_valid (l : bytes) : bool :=
  match l with
  | [] => true
  | a :: l1 =>
      if in_range 0 127 a then utf8_valid l1
      else match l1 with
      | [] => false
      | b :: l2 =>
          if utf8_2 a b then utf8_valid l2
          else match l2 with
          | [] => false
          | c :: l3 =>
              if utf8_3 a b c then utf8_valid l3
              else match l3 with
              | [] => false
              | d :: l4 => if utf8_4 a b c d then utf8_valid l4 else false
              end
          end
      end
  end.

(** [s.split(sep)] for an ASCII separator: at least one part. *)
Fixpoint split_on (sep : byte) (l : bytes) : list bytes :=
  match l with
  | [] => [[]]
  | b :: l' =>
      if decide (b = sep) then [] :: split_on sep l'
      else match split_on sep l' with
           | part :: parts => (b :: part) :: parts
           | [] => [[b]]
           end
  end.

(** [s.split_once(sep)]: around the first separator. *)
Fixpoint split_once (sep : byte) (l : bytes) : option (bytes * bytes) :=
  match l with
  | [] => None
  | b :: l' =>
      if decide (b = sep) then Some ([], l')
      else match split_once sep l' with
           | Some (k, v) => Some (b :: k, v)
           | None => None
           end
  end.

(** ** Data points and series keys *)

Abbreviation Tags := (list (string * string)).

Record DataPoint := {
  metric_name : string;
  tags : Tags;
  timestamp_ns : Z;
  value : f64
}.

Record SeriesKey := {
  sk_metric_name : string;
  sk_tags : Tags
}.

#[global] Instance series_key_eq_dec : EqDecision SeriesKey.
Proof. solve_decision. Defined.
#[global] Instance data_point_eq_dec : EqDecision DataPoint.
Proof. solve_decision. Defined.

(** [#[derive(Ord)]]: fields in order. *)
#[global] Instance series_key_ord : Ord SeriesKey := λ a b,
  cmp (sk_metric_name a, sk_tags a) (sk_metric_name b, sk_tags b).

(** One tag in the canonical form: [,k=v]. *)
Definition tag_bytes (kv : string * string) : bytes :=
  comma :: as_bytes kv.1 ++ equals :: as_bytes kv.2.

(** [SeriesKey::to_bytes]: [metric_name,k1=v1,k2=v2]. *)
Definition to_bytes (k : SeriesKey) : bytes :=
  fold_left (λ buf kv, buf ++ tag_bytes kv) (sk_tags k) (as_bytes (sk_metric_name k)).

(** The loop of [from_bytes] over the parts after the metric name. *)
Fixpoint parse_tags (parts : list bytes) (acc : Tags) : result Tags :=
  match parts with
  | [] => Ok acc
  | kv :: parts' =>
      match split_once equals kv with
      | Some (k, v) => parse_tags parts' (bt_insert acc (of_bytes k) (of_bytes v))
      | None => Err "malformed tag pair"
      end
  end.

(** [SeriesKey::from_bytes]. *)
Definition from_bytes (l : bytes) : result SeriesKey :=
  if utf8_valid l then
    match split_on comma l with
    | [] => Err "empty series key bytes"
    | metric :: parts =>
        tags ← parse_tags parts [];
        Ok {| sk_metric_name := of_bytes metric; sk_tags := tags |}
    end
  else Err "invalid UTF-8 in series key".

(** ** Series ids *)

Section SeriesIds.
Context `{XxHash}.

(** [impl From<&SeriesKey> for SeriesId]. *)
Definition series_id (k : SeriesKey) : Z := xxh64 (to_bytes k).

(** [series_id_from_parts]: the same hash without building the key. *)
Definition series_id_from_parts (metric : string) (tags : Tags) : Z :=
  xxh_digest
    (fold_left
       (λ h kv, xxh_update (xxh_update (xxh_update (xxh_update h
                  [comma]) (as_bytes kv.1)) [equals]) (as_bytes kv.2))
       tags (xxh_update xxh_new (as_bytes metric))).

End SeriesIds.

(** ** Index records *)

Record SeriesChunkEntry := {
  ce_chunk_id : Z;
  ce_series_id : Z;
  ce_time_start_ns : Z;
  ce_time_end_ns : Z;
  ce_size_bytes : Z
}.

Record SeriesChunkStats := {
  min_value : f64;
  max_value : f64;
  null_count : Z
}.

Record ChunkMeta := {
  file_path : string;
  file_size : Z
}.

#[global] Instance entry_eq_dec : EqDecision SeriesChunkEntry.
Proof. solve_decision. Defined.
#[global] Instance stats_eq_dec : EqDecision SeriesChunkStats.
Proof. solve_decision. Defined.
#[global] Instance meta_eq_dec : EqDecision ChunkMeta.
Proof. solve_decision. Defined.

(** [SeriesChunkStats::from_values]. *)
Definition from_values (values : list f64) : option SeriesChunkStats :=
  min ← reduce f64_min values;
  max ← reduce f64_max values;
  Some {| min_value := min; max_value := max; null_count := 0 |}.

(** ** Value predicates *)

Inductive ValuePredicate :=
| GreaterThan (t : f64)
| LessThan (t : f64)
| Between (lo hi : f64).

(** [ValuePredicate::matches]: can a chunk with these extremes hold a match? *)
Definition matches (p : ValuePredicate) (min_val max_val : f64) : bool :=
  match p with
  | GreaterThan t => f64_gt max_val t
  | LessThan t => f64_lt min_val t
  | Between lo hi => f64_le min_val hi && f64_ge max_val lo
  end.

(** [ValuePredicate::satisfies]. *)
Definition satisfies (p : ValuePredicate) (v : f64) : bool :=
  match p with
  | GreaterThan t => f64_gt v t
  | LessThan t => f64_lt v t
  | Between lo hi => f64_ge v lo && f64_le v hi
  end.

(** [predicate.is_none_or(|p| p.satisfies(v))]. *)
Definition satisfies_opt (p : option ValuePredicate) (v : f64) : bool :=
  match p with None => true | Some p => satisfies p v end.

(** ** Well-formed values: what Rust's types guarantee *)

Definition utf8_string (s : string) : Prop := utf8_valid (as_bytes s) = true.

Definition key_wf (k : SeriesKey) : Prop :=
  utf8_string (sk_metric_name k) ∧
  Forall (λ kv, utf8_string kv.1 ∧ utf8_string kv.2) (sk_tags k) ∧
  bt_wf (sk_tags k).

Definition point_key (p : DataPoint) : SeriesKey :=
  {| sk_metric_name := metric_name p; sk_tags := tags p |}.

Definition point_wf (p : DataPoint) : Prop :=
  key_wf (point_key p) ∧ in_i64 (timestamp_ns p) ∧ f64_wf (value p).

(** Keys whose canonical form is unambiguous: the separators occur in no
    component (a value may hold [=]). *)
Definition key_clean (k : SeriesKey) : Prop :=
  (comma ∉ as_bytes (sk_metric_name k)) ∧
  Forall (λ kv, (comma ∉ as_bytes kv.1) ∧ (equals ∉ as_bytes kv.1) ∧ (comma ∉ as_bytes kv.2))
         (sk_tags k).

(** ** Splitting *)

#[global] Instance series_key_ord_laws : OrdLaws SeriesKey.
Proof.
  split.
  - intros [a b] [a' b']. etrans; [apply (cmp_eq_iff (a, b) (a', b'))|]. naive_solver.
  - intros [a b] [a' b']. apply (cmp_antisym (a, b) (a', b')).
  - intros [a b] [a' b'] [a'' b'']. apply (cmp_lt_trans (a, b) (a', b') (a'', b'')).
Qed.

Lemma of_as_bytes s : of_bytes (as_bytes s) = s.
Proof. apply String.string_of_list_byte_of_string. Qed.

Lemma as_of_bytes l : as_bytes (of_bytes l) = l.
Proof. apply String.list_byte_of_string_of_list_byte. Qed.

Lemma as_bytes_inj s t : as_bytes s = as_bytes t → s = t.
Proof. intros E. by rewrite <-(of_as_bytes s), E, of_as_bytes. Qed.

Lemma split_on_clean sep a : sep ∉ a → split_on sep a = [a].
Proof.
  induction a as [|b a IH]; intros Hn; simpl; [done|].
  rewrite not_elem_of_cons in Hn. destruct Hn as [Hne Hn].
  rewrite decide_False by congruence. by rewrite IH.
Qed.

Lemma split_on_app sep a l : sep ∉ a → split_on sep (a ++ sep :: l) = a :: split_on sep l.
Proof.
  induction a as [|b a IH]; intros Hn; simpl.
  - by rewrite decide_True.
  - rewrite not_elem_of_cons in Hn. destruct Hn as [Hne Hn].
    rewrite decide_False by congruence. by rewrite IH.
Qed.

Lemma split_once_app sep k v : sep ∉ k → split_once sep (k ++ sep :: v) = Some (k, v).
Proof.
  induction k as [|b k IH]; intros Hn; simpl.
  - by rewrite decide_True.
  - rewrite not_elem_of_cons in Hn. destruct Hn as [Hne Hn].
    rewrite decide_False by congruence. by rewrite IH.
Qed.

(** ** UTF-8 validity of a concatenation *)

Lemma utf8_valid_app l r : utf8_valid l = true → utf8_valid r = true → utf8_valid (l ++ r) = true.
Proof.
  remember (length l) as n eqn:En. revert l En.
  induction n as [n IH] using lt_wf_ind; intros l -> Hl Hr.
  destruct l as [|a l]; [done|]; simpl in *.
  destruct (in_range 0 127 a); [apply (IH (length l)); auto with lia|].
  destruct l as [|b l]; [done|]; simpl in *.
  destruct (utf8_2 a b); [apply (IH (length l)); auto with lia|].
  destruct l as [|c l]; [done|]; simpl in *.
  destruct (utf8_3 a b c); [apply (IH (length l)); auto with lia|].
  destruct l as [|d l]; [done|]; simpl in *.
  destruct (utf8_4 a b c d); [apply (IH (length l)); auto with lia|done].
Qed.

Lemma utf8_valid_sep b l :
  in_range 0 127 b = true → utf8_valid l = true → utf8_valid (b :: l) = true.
Proof. simpl. by intros -> ->. Qed.

(** ** The canonical form *)

Lemma fold_app_concat {A B} (f : A → list B) l acc :
  fold_left (λ buf a, buf ++ f a) l acc = acc ++ concat (map f l).
Proof.
  revert acc. induction l as [|a l IH]; intros acc; simpl; [by rewrite app_nil_r|].
  by rewrite IH, app_assoc.
Qed.

Lemma to_bytes_concat k :
  to_bytes k = as_bytes (sk_metric_name k) ++ concat (map tag_bytes (sk_tags k)).
Proof. apply fold_app_concat. Qed.

Lemma utf8_tag_bytes kv :
  utf8_string kv.1 → utf8_string kv.2 → utf8_valid (tag_bytes kv) = true.
Proof.
  intros Hk Hv. unfold tag_bytes. apply utf8_valid_sep; [done|].
  apply utf8_valid_app; [done|]. by apply utf8_valid_sep.
Qed.

Lemma utf8_to_bytes k : key_wf k → utf8_valid (to_bytes k) = true.
Proof.
  intros (Hm & Ht & _). rewrite to_bytes_concat. apply utf8_valid_app; [done|].
  induction Ht as [|kv l [Hk Hv] ? IH]; simpl; [done|].
  apply utf8_valid_app; [by apply utf8_tag_bytes|done].
Qed.

(** Splitting the canonical form of a clean key finds the metric name and the
    [k=v] parts. *)
Lemma split_tags m (ts : Tags) :
  comma ∉ m →
  Forall (λ kv, (comma ∉ as_bytes kv.1) ∧ (equals ∉ as_bytes kv.1) ∧ (comma ∉ as_bytes kv.2)) ts →
  split_on comma (m ++ concat (map tag_bytes ts)) =
  m :: map (λ kv, as_bytes kv.1 ++ equals :: as_bytes kv.2) ts.
Proof.
  intros Hm Hts. revert m Hm. induction Hts as [|kv ts (Hk & _ & Hv) ? IH]; intros m Hm; simpl.
  - rewrite app_nil_r. by apply split_on_clean.
  - rewrite split_on_app by done. f_equal. apply IH.
    rewrite elem_of_app, elem_of_cons. intros [?|[?|?]]; done.
Qed.

Lemma parse_tags_fold (ts acc : Tags) :
  Forall (λ kv, equals ∉ as_bytes kv.1) ts →
  parse_tags (map (λ kv, as_bytes kv.1 ++ equals :: as_bytes kv.2) ts) acc =
  Ok (fold_left (λ m p, bt_insert m p.1 p.2) ts acc).
Proof.
  intros Hts. revert acc. induction Hts as [|kv ts Hk ? IH]; intros acc; simpl; [done|].
  by rewrite split_once_app, IH, !of_as_bytes.
Qed.

Lemma from_to_bytes k : key_wf k → key_clean k → from_bytes (to_bytes k) = Ok k.
Proof.
  intros Hwf [Hm Ht]. unfold from_bytes. rewrite utf8_to_bytes by done.
  rewrite to_bytes_concat, split_tags by done. simpl.
  rewrite parse_tags_fold by (eapply Forall_impl; [exact Ht|]; naive_solver). simpl.
  rewrite of_as_bytes. destruct Hwf as (_ & _ & Hwf).
  change (fold_left _ (sk_tags k) []) with (bt_collect (sk_tags k)).
  rewrite bt_collect_sorted by done. by destruct k.
Qed.

Lemma to_bytes_inj k k' :
  key_wf k → key_wf k' → key_clean k → key_clean k' → to_bytes k = to_bytes k' → k = k'.
Proof.
  intros ? ? ? ? E. enough (Ok k = Ok k') by congruence.
  rewrite <-!from_to_bytes by done. by rewrite E.
Qed.

(** ** Series ids *)

Section SeriesIdLaws.
Context `{XxHashLaws}.

(** The pieces [series_id_from_parts] feeds to the hasher. *)
Definition tag_pieces (kv : string * string) : list bytes :=
  [[comma]; as_bytes kv.1; [equals]; as_bytes kv.2].

Lemma concat_tag_pieces kv : concat (tag_pieces kv) = tag_bytes kv.
Proof. unfold tag_pieces, tag_bytes. simpl. by rewrite app_nil_r. Qed.

Lemma stream_tags (ts : Tags) (h : xxh_state) :
  fold_left (λ h kv, xxh_update (xxh_update (xxh_update (xxh_update h
               [comma]) (as_bytes kv.1)) [equals]) (as_bytes kv.2)) ts h =
  fold_left xxh_update (concat (map tag_pieces ts)) h.
Proof. revert h. induction ts as [|kv ts IH]; intros h; simpl; [done|]. by rewrite IH. Qed.

Lemma series_id_parts_eq k :
  series_id_from_parts (sk_metric_name k) (sk_tags k) = series_id k.
Proof.
  unfold series_id_from_parts, series_id. rewrite stream_tags.
  change (fold_left _ ?l (xxh_update xxh_new ?m)) with (fold_left xxh_update (m :: l) xxh_new).
  rewrite xxh_stream, to_bytes_concat. simpl. do 2 f_equal.
  induction (sk_tags k) as [|kv ts IH]; simpl; [done|].
  rewrite <-IH. unfold tag_bytes. simpl. by rewrite <-app_assoc.
Qed.

Lemma series_id_range k : in_u64 (series_id k).
Proof. apply xxh64_range. Qed.

End SeriesIdLaws.

(** ** Statistics *)

Lemma from_values_Some values st :
  from_values values = Some st →
  ∃ a l, values = a :: l ∧ min_value st = fold_left f64_min l a ∧
         max_value st = fold_left f64_max l a ∧ null_count st = 0.
Proof. destruct values as [|a l]; simpl; [done|]. intros [= <-]. by exists a, l. Qed.

Lemma from_values_bounds values st v :
  from_values values = Some st → v ∈ values → is_nan v = false →
  f64_le (min_value st) v = true ∧ f64_le v (max_value st) = true.
Proof.
  intros (a & l & -> & -> & -> & _)%from_values_Some Hin Hv.
  pose proof (fold_min_bound l a v Hin Hv) as [? ?].
  pose proof (fold_max_bound l a v Hin Hv) as [? ?].
  split; apply f64_le_iff; auto.
Qed.

Lemma satisfies_not_nan p v : satisfies p v = true → is_nan v = false.
Proof.
  destruct p; simpl; unfold f64_gt, f64_ge; rewrite ?andb_true_iff, ?f64_lt_iff, ?f64_le_iff;
    naive_solver.
Qed.

Lemma matches_sound p lo hi v :
  f64_le lo v = true → f64_le v hi = true → satisfies p v = true → matches p lo hi = true.
Proof.
  destruct p; simpl; unfold f64_gt, f64_ge;
    rewrite ?andb_true_iff, ?f64_lt_iff, ?f64_le_iff; intuition lia.
Qed.

(** ** Sample values *)

(** [cpu{host=a}] and a second series of the same metric. *)
Definition key_a : SeriesKey := {| sk_metric_name := "cpu"; sk_tags := [("host", "a")] |}.
Definition key_b : SeriesKey := {| sk_metric_name := "cpu"; sk_tags := [("host", "b")] |}.

(** Closed facts about concrete keys, points and maps. *)
Ltac concrete :=
  repeat first
    [ progress intros | reflexivity | lia | split | constructor
    | match goal with
      | |- _ ∉ _ => apply (bool_decide_unpack _); vm_compute; exact I
      | |- _ ≠ _ => discriminate
      end ].

Lemma key_a_wf : key_wf key_a ∧ key_clean key_a.
Proof. concrete. Qed.

(** ** Properties *)

(** C37. Decoding the canonical byte form of a series key gives the key back:
    [from_bytes] inverts [to_bytes] on every key whose metric name and tags do not
    contain the separators. *)
Theorem series_key_roundtrip (k : SeriesKey) (Hwf : key_wf k) (Hclean : key_clean k) :
  from_bytes (to_bytes k) = Ok k.
Proof. by apply from_to_bytes. Qed.

Lemma series_key_roundtrip_witness :
  key_wf key_a ∧ key_clean key_a ∧ from_bytes (to_bytes key_a) = Ok key_a.
Proof.
  split; [apply key_a_wf|]. split; [apply key_a_wf|].
  apply (series_key_roundtrip key_a); apply key_a_wf.
Defined.

(** The canonical form is not injective on all keys: a comma in a metric name
    makes two different series share their bytes, and so, whatever the hash, their
    series id; decoding then yields the wrong key for one of them. *)
Theorem series_key_collision :
  ∃ k k', key_wf k ∧ key_wf k' ∧ k ≠ k' ∧ to_bytes k = to_bytes k' ∧
    (∀ X : XxHash, series_id k = series_id k') ∧ from_bytes (to_bytes k') = Ok k.
Proof.
  exists key_a, {| sk_metric_name := "cpu,host=a"; sk_tags := [] |}.
  split; [apply key_a_wf|]. split; [by concrete|]. split; [discriminate|].
  split; [reflexivity|]. split; [|reflexivity]. intros X. unfold series_id. f_equal.
Qed.

(** The allocation-free [series_id_from_parts], which routes points to shards,
    computes the same id as [SeriesId::from(&SeriesKey)], which the index uses. *)
Theorem series_id_parts_agree `{HX : XxHash} (Hlaws : XxHashLaws) (k : SeriesKey) :
  series_id_from_parts (sk_metric_name k) (sk_tags k) = series_id k.
Proof. apply series_id_parts_eq. Qed.

Lemma series_id_parts_agree_witness :
  @XxHashLaws poly_hash ∧
  @series_id_from_parts poly_hash "cpu" [("host", "a")] = @series_id poly_hash key_a.
Proof.
  split; [exact poly_hash_laws|].
  exact (series_id_parts_agree (HX := poly_hash) poly_hash_laws key_a).
Defined.

Lemma stats_match (values : list f64) st p v :
  from_values values = Some st → v ∈ values → satisfies p v = true →
  matches p (min_value st) (max_value st) = true.
Proof.
  intros Hst Hin Hsat. pose proof (satisfies_not_nan _ _ Hsat) as Hn.
  destruct (from_values_bounds _ _ _ Hst Hin Hn). eapply matches_sound; eauto.
Qed.

(** C38. Statistics pruning never drops a match: if some value of a column satisfies
    a predicate, the predicate [matches] the min/max that [from_values] computed for
    the column, NaNs in the column or in the predicate included. *)
Theorem stats_pruning_sound (values : list f64) st p v
    (Hst : from_values values = Some st) (Hin : v ∈ values) (Hsat : satisfies p v = true) :
  matches p (min_value st) (max_value st) = true.
Proof. by eapply stats_match. Qed.

Lemma stats_pruning_sound_witness :
  let values := [F64 (inf_mag + 1); f64_one; f64_zero] in
  ∃ st, from_values values = Some st ∧ f64_one ∈ values ∧
    satisfies (GreaterThan f64_zero) f64_one = true ∧
    matches (GreaterThan f64_zero) (min_value st) (max_value st) = true.
Proof.
  intros values. eexists. split; [reflexivity|].
  assert (f64_one ∈ values) as Hin by (right; left).
  split; [exact Hin|]. split; [reflexivity|].
  apply (stats_pruning_sound values _ (GreaterThan f64_zero) f64_one); [reflexivity|exact Hin|reflexivity].
Defined.
