(* ===== verification/Memtable.v ===== *)
(** * The memtable ([src/storage-engine/src/memtable/mod.rs])

    The in-memory write buffer of one shard: an ordered map from series keys to
    vectors of points, each vector sorted by timestamp through binary search.
    Counters are [usize]/[u64] and wrap.  The abstract view of a memtable is a
    finite partial function from (series, timestamp) to value, [mt_lookup]; the
    theorems say that every operation implements its operation on that view. *)
From S2P Require Import Prelude BTree F64 Externals Types.

Record Memtable := {
  entries : list (SeriesKey * list (Z * f64));
  mt_size_bytes : Z;
  flush_threshold : Z;
  mt_entry_count : Z
}.

(** [Memtable::new]. *)
Definition new (threshold : Z) : Memtable :=
  {| entries := []; mt_size_bytes := 0; flush_threshold := threshold; mt_entry_count := 0 |}.

(** [size_of::<(i64, f64)>() * 2], charged per stored point. *)
Definition point_size : Z := 16 * 2.

(** The heap estimate of a new key: its strings and [U64_SIZE]. *)
Definition key_size (k : SeriesKey) : Z :=
  slen (sk_metric_name k)
  + fold_left (λ acc kv, acc + (slen kv.1 + slen kv.2)) (sk_tags k) 0
  + 8.

(** [Memtable::insert]. *)
Definition insert (m : Memtable) (point : DataPoint) : Memtable :=
  let key := point_key point in
  let is_new := negb (contains_key (entries m) key) in
  let vec := default [] (bt_get (entries m) key) in
  match binary_search_by (λ q : Z * f64, cmp q.1 (timestamp_ns point)) vec with
  | inl pos =>
      let vec' := match vec !! pos with
                  | Some q => <[pos := (q.1, value point)]> vec
                  | None => vec
                  end in
      {| entries := bt_insert (entries m) key vec';
         mt_size_bytes := mt_size_bytes m;
         flush_threshold := flush_threshold m;
         mt_entry_count := mt_entry_count m |}
  | inr pos =>
      let size1 := wrap_u64 (mt_size_bytes m + point_size) in
      {| entries := bt_insert (entries m) key
                      (vec_insert vec pos (timestamp_ns point, value point));
         mt_size_bytes := if is_new then wrap_u64 (size1 + key_size key) else size1;
         flush_threshold := flush_threshold m;
         mt_entry_count := wrap_u64 (mt_entry_count m + 1) |}
  end.

(** [for point in points { mem.insert(point) }]. *)
Definition insert_all (m : Memtable) (points : list DataPoint) : Memtable :=
  fold_left insert points m.

(** [should_flush], [size_bytes], [is_empty], [entry_count]. *)
Definition should_flush (m : Memtable) : bool := flush_threshold m <=? mt_size_bytes m.
Definition size_bytes (m : Memtable) : Z := mt_size_bytes m.
Definition is_empty (m : Memtable) : bool := match entries m with [] => true | _ => false end.
Definition entry_count (m : Memtable) : Z := mt_entry_count m.

(** [Memtable::drain]: the contents, and the memtable left behind. *)
Definition drain (m : Memtable) : list (SeriesKey * list (Z * f64)) * Memtable :=
  (entries m,
   {| entries := []; mt_size_bytes := 0; flush_threshold := flush_threshold m;
      mt_entry_count := 0 |}).

(** One tag filter against a series: [sk.tags.get(k) == Some(v)]. *)
Definition tag_matches (k : SeriesKey) (f : string * string) : bool :=
  match bt_get (sk_tags k) f.1 with
  | Some val => bool_decide (val = f.2)
  | None => false
  end.

(** [Memtable::resolve_series]; [tag_filters] lists the filter map in its
    iteration order. *)
Definition resolve_series (m : Memtable) (metric : string) (tag_filters : list (string * string))
    : list SeriesKey :=
  match tag_filters with
  | [] => map fst (List.filter (λ e, bool_decide (sk_metric_name e.1 = metric)) (entries m))
  | _ =>
      map fst
        (List.filter (λ e, forallb (tag_matches e.1) tag_filters)
           (List.filter (λ e, bool_decide (sk_metric_name e.1 = metric)) (entries m)))
  end.

(** A stored pair as a data point of the series. *)
Definition to_point (k : SeriesKey) (q : Z * f64) : DataPoint :=
  {| metric_name := sk_metric_name k; tags := sk_tags k; timestamp_ns := q.1; value := q.2 |}.

(** [Memtable::read_series]. *)
Definition read_series (m : Memtable) (key : SeriesKey) (time_start_ns time_end_ns : Z)
    (predicate : option ValuePredicate) : list DataPoint :=
  match bt_get (entries m) key with
  | None => []
  | Some time_map =>
      map (to_point key)
        (List.filter (λ q, satisfies_opt predicate q.2)
           (List.filter (λ q, (time_start_ns <=? q.1) && (q.1 <=? time_end_ns)) time_map))
  end.

(** [shard_index]: the series id masked with [shards - 1]. *)
Definition shard_index `{XxHash} (point : DataPoint) (shards : Z) : Z :=
  Z.land (series_id_from_parts (metric_name point) (tags point)) (wrap_u64 (shards - 1)).

(** ** Abstract view and invariant *)

Definition data_lookup (d : list (SeriesKey * list (Z * f64))) (k : SeriesKey) (ts : Z) : option f64 :=
  vec ← bt_get d k; bt_get vec ts.

Definition mt_lookup (m : Memtable) (k : SeriesKey) (ts : Z) : option f64 :=
  data_lookup (entries m) k ts.

(** Keys sorted, every vector sorted by time and not empty. *)
Definition data_wf (d : list (SeriesKey * list (Z * f64))) : Prop :=
  bt_wf d ∧ Forall (λ e, bt_wf e.2 ∧ e.2 ≠ []) d.

Definition total_points (d : list (SeriesKey * list (Z * f64))) : Z :=
  bt_sum (λ e, len e.2) d.
Definition total_size (d : list (SeriesKey * list (Z * f64))) : Z :=
  bt_sum (λ e, point_size * len e.2 + key_size e.1) d.

Definition mt_wf (m : Memtable) : Prop :=
  data_wf (entries m) ∧
  mt_entry_count m = wrap_u64 (total_points (entries m)) ∧
  mt_size_bytes m = wrap_u64 (total_size (entries m)).

(** The value the last of the points with this key and timestamp carries. *)
Definition last_write (points : list DataPoint) (k : SeriesKey) (ts : Z) : option f64 :=
  fold_left (λ acc p, if decide (point_key p = k ∧ timestamp_ns p = ts)
                      then Some (value p) else acc) points None.

(** ** One insertion *)

(** The vector of a series, empty when the series is new. *)
Definition series_vec (d : list (SeriesKey * list (Z * f64))) (k : SeriesKey) : list (Z * f64) :=
  default [] (bt_get d k).

(** The reference insertion: into the series' ordered map. *)
Definition data_insert (d : list (SeriesKey * list (Z * f64))) (k : SeriesKey) (ts : Z) (v : f64) :=
  bt_insert d k (bt_insert (series_vec d k) ts v).

Lemma data_wf_vec d k vec : data_wf d → bt_get d k = Some vec → bt_wf vec ∧ vec ≠ [].
Proof.
  intros [_ Hall] E%bt_get_Some_In. rewrite Forall_forall in Hall. by apply (Hall _ E).
Qed.

Lemma series_vec_wf d k : data_wf d → bt_wf (series_vec d k).
Proof.
  intros Hwf. unfold series_vec. destruct (bt_get d k) as [vec|] eqn:E; simpl; [|constructor].
  by eapply data_wf_vec.
Qed.

(** The entries after an insertion, and what happens to the two counters. *)
Lemma insert_spec m p :
  data_wf (entries m) →
  let d := entries m in let k := point_key p in let ts := timestamp_ns p in
  entries (insert m p) = data_insert d k ts (value p) ∧
  flush_threshold (insert m p) = flush_threshold m ∧
  match data_lookup d k ts with
  | Some _ =>
      mt_entry_count (insert m p) = mt_entry_count m ∧
      mt_size_bytes (insert m p) = mt_size_bytes m
  | None =>
      mt_entry_count (insert m p) = wrap_u64 (mt_entry_count m + 1) ∧
      mt_size_bytes (insert m p) =
        wrap_u64 (mt_size_bytes m + point_size +
                  match bt_get d k with Some _ => 0 | None => key_size k end)
  end.
Proof.
  intros Hwf d k ts. pose proof (series_vec_wf d k Hwf) as Hvec.
  unfold data_insert, data_lookup, insert. fold k ts d.
  change (default [] (bt_get d k)) with (series_vec d k).
  destruct (binary_search_by _ (series_vec d k)) as [pos|pos] eqn:E; simpl.
  - destruct (binary_search_found _ _ _ Hvec E) as (v0 & Hx & Hg & Hins).
    rewrite Hx. simpl. rewrite Hins. split; [done|]. split; [done|].
    unfold series_vec in Hg. destruct (bt_get d k) as [vec|]; simpl in *; [|done]. by rewrite Hg.
  - destruct (binary_search_absent _ _ _ Hvec E (value p)) as [-> Hg].
    split; [done|]. split; [done|]. unfold contains_key. unfold series_vec in Hg.
    destruct (bt_get d k) as [vec|]; simpl in *; rewrite ?Hg; (split; [done|]).
    + by rewrite Z.add_0_r.
    + by rewrite wrap_u64_add_l.
Qed.

Lemma bt_insert_nonempty {K V} `{Ord K} (l : list (K * V)) k v : bt_insert l k v ≠ [].
Proof. destruct l as [|[k0 v0] l]; simpl; [done|]. by destruct (cmp k k0). Qed.

Lemma data_insert_wf d k ts v : data_wf d → data_wf (data_insert d k ts v).
Proof.
  intros Hwf. pose proof (series_vec_wf d k Hwf). destruct Hwf as [Hwf Hall].
  split; [by apply bt_wf_insert|]. apply bt_insert_Forall; [|done].
  split; [by apply bt_wf_insert|]. apply bt_insert_nonempty.
Qed.

Lemma data_lookup_insert d k ts v k' ts' :
  data_lookup (data_insert d k ts v) k' ts' =
  if decide (k = k' ∧ ts = ts') then Some v else data_lookup d k' ts'.
Proof.
  unfold data_lookup, data_insert. rewrite bt_get_insert.
  destruct (decide (k' = k)) as [->|Hne]; simpl.
  - rewrite bt_get_insert. unfold series_vec.
    destruct (decide (ts' = ts)) as [->|]; [by rewrite decide_True|].
    rewrite decide_False by naive_solver. by destruct (bt_get d k).
  - by rewrite decide_False by naive_solver.
Qed.

Lemma len_bt_insert {V} (l : list (Z * V)) ts v :
  len (bt_insert l ts v) = len l + match bt_get l ts with Some _ => 0 | None => 1 end.
Proof.
  pose proof (bt_sum_insert (λ _, 1) l ts v) as Hs.
  assert (∀ l : list (Z * V), bt_sum (λ _, 1) l = len l) as Hlen.
  { induction l0 as [|q l0 IH]; simpl; [done|]. rewrite IH, len_cons. lia. }
  rewrite !Hlen in Hs. rewrite Hs. destruct (bt_get l ts); lia.
Qed.

Lemma total_points_insert d k ts v :
  total_points (data_insert d k ts v) =
  total_points d + match data_lookup d k ts with Some _ => 0 | None => 1 end.
Proof.
  unfold total_points, data_insert, data_lookup, series_vec. rewrite bt_sum_insert. simpl.
  rewrite len_bt_insert. destruct (bt_get d k) as [vec|]; simpl; [|rewrite len_nil; lia].
  destruct (bt_get vec ts); lia.
Qed.

Lemma total_size_insert d k ts v :
  total_size (data_insert d k ts v) =
  total_size d +
  match data_lookup d k ts with
  | Some _ => 0
  | None => point_size + match bt_get d k with Some _ => 0 | None => key_size k end
  end.
Proof.
  unfold total_size, data_insert, data_lookup, series_vec. rewrite bt_sum_insert. simpl.
  rewrite len_bt_insert. destruct (bt_get d k) as [vec|]; simpl; [|rewrite len_nil; lia].
  destruct (bt_get vec ts); lia.
Qed.

Lemma insert_wf m p : mt_wf m → mt_wf (insert m p).
Proof.
  intros (Hwf & Hc & Hs). destruct (insert_spec m p Hwf) as (He & _ & Hcs).
  unfold mt_wf. rewrite He, total_points_insert, total_size_insert.
  split; [by apply data_insert_wf|].
  destruct (data_lookup (entries m) (point_key p) (timestamp_ns p)).
  - destruct Hcs as [-> ->]. by rewrite !Z.add_0_r.
  - destruct Hcs as [-> ->]. rewrite Hc, Hs, <-Z.add_assoc. by rewrite !wrap_u64_add_l.
Qed.

Lemma new_wf t : mt_wf (new t).
Proof. repeat split; constructor. Qed.

Lemma drain_wf m : mt_wf (drain m).2.
Proof. repeat split; constructor. Qed.

(** ** Sequences of insertions *)

Lemma insert_all_wf m ps : mt_wf m → mt_wf (insert_all m ps).
Proof. revert m. induction ps as [|p ps IH]; intros m Hm; simpl; [done|]. by apply IH, insert_wf. Qed.

Lemma mt_lookup_insert m p k ts :
  mt_wf m →
  mt_lookup (insert m p) k ts =
  if decide (point_key p = k ∧ timestamp_ns p = ts) then Some (value p) else mt_lookup m k ts.
Proof.
  intros (Hwf & _). destruct (insert_spec m p Hwf) as (He & _). unfold mt_lookup.
  by rewrite He, data_lookup_insert.
Qed.

Lemma last_write_from ps k ts acc :
  fold_left (λ acc p, if decide (point_key p = k ∧ timestamp_ns p = ts)
                      then Some (value p) else acc) ps acc =
  match last_write ps k ts with Some v => Some v | None => acc end.
Proof.
  unfold last_write. revert acc. induction ps as [|p ps IH] using rev_ind; intros acc; [done|].
  rewrite !fold_left_app. simpl. case_decide; [done|]. apply IH.
Qed.

Lemma last_write_cons p ps k ts :
  last_write (p :: ps) k ts =
  match last_write ps k ts with
  | Some v => Some v
  | None => if decide (point_key p = k ∧ timestamp_ns p = ts) then Some (value p) else None
  end.
Proof. unfold last_write at 1. simpl. by rewrite last_write_from. Qed.

Lemma last_write_app ps qs k ts :
  last_write (ps ++ qs) k ts =
  match last_write qs k ts with Some v => Some v | None => last_write ps k ts end.
Proof. unfold last_write at 1. by rewrite fold_left_app, last_write_from. Qed.

Lemma last_write_Some_In ps k ts v :
  last_write ps k ts = Some v →
  ∃ p, p ∈ ps ∧ point_key p = k ∧ timestamp_ns p = ts ∧ value p = v.
Proof.
  induction ps as [|p ps IH]; [done|]. rewrite last_write_cons.
  destruct (last_write ps k ts) as [v'|] eqn:E.
  - intros [= ->]. destruct (IH eq_refl) as (q & ? & ?). exists q. split; [by right|done].
  - case_decide as D; [|done]. intros [= <-]. exists p. split; [left|]. naive_solver.
Qed.

Lemma mt_lookup_insert_all m ps k ts :
  mt_wf m →
  mt_lookup (insert_all m ps) k ts =
  match last_write ps k ts with Some v => Some v | None => mt_lookup m k ts end.
Proof.
  revert m. induction ps as [|p ps IH]; intros m Hm; [done|].
  simpl insert_all. change (fold_left insert ps (insert m p)) with (insert_all (insert m p) ps).
  rewrite IH by by apply insert_wf. rewrite mt_lookup_insert, last_write_cons by done.
  destruct (last_write ps k ts); [done|]. by case_decide.
Qed.

(** ** Reading *)

Lemma bt_wf_filter {K V} `{OrdLaws K} (f : K * V → bool) (l : list (K * V)) :
  bt_wf l → bt_wf (List.filter f l).
Proof. apply StronglySorted_filterb. Qed.

Lemma elem_of_read_series m key lo hi pred p :
  data_wf (entries m) →
  p ∈ read_series m key lo hi pred ↔
  point_key p = key ∧ mt_lookup m key (timestamp_ns p) = Some (value p) ∧
  lo <= timestamp_ns p <= hi ∧ satisfies_opt pred (value p) = true.
Proof.
  intros Hwf. unfold read_series, mt_lookup, data_lookup.
  destruct (bt_get (entries m) key) as [vec|] eqn:E; simpl.
  - destruct (data_wf_vec _ _ _ Hwf E) as [Hvec _]. rewrite elem_of_map.
    repeat setoid_rewrite elem_of_filterb.
    setoid_rewrite andb_true_iff. setoid_rewrite Z.leb_le. split.
    + intros ([ts v] & -> & (Hg & Hr) & Hp). simpl in *.
      rewrite bt_get_In by done. by destruct key.
    + intros (<- & Hg & Hr & Hp). exists (timestamp_ns p, value p). simpl.
      rewrite bt_get_In in Hg by done. by destruct p.
  - rewrite elem_of_nil. naive_solver.
Qed.

Lemma read_series_sorted m key lo hi pred :
  data_wf (entries m) →
  StronglySorted (λ p q, timestamp_ns p < timestamp_ns q) (read_series m key lo hi pred).
Proof.
  intros Hwf. unfold read_series. destruct (bt_get (entries m) key) as [vec|] eqn:E; [|constructor].
  destruct (data_wf_vec _ _ _ Hwf E) as [Hvec _].
  apply (StronglySorted_map key_lt).
  - intros q q'. unfold key_lt, cmp, Z_ord. by rewrite Z.compare_lt_iff.
  - by apply bt_wf_filter, bt_wf_filter.
Qed.

Lemma elem_of_resolve_series m metric filters k :
  bt_wf (entries m) →
  k ∈ resolve_series m metric filters ↔
  contains_key (entries m) k = true ∧ sk_metric_name k = metric ∧
  Forall (λ f, bt_get (sk_tags k) f.1 = Some f.2) filters.
Proof.
  intros Hwf.
  assert (∀ f, tag_matches k f = true ↔ bt_get (sk_tags k) f.1 = Some f.2) as Htag.
  { intros f. unfold tag_matches. destruct (bt_get (sk_tags k) f.1); [|done].
    rewrite bool_decide_eq_true. naive_solver. }
  assert (contains_key (entries m) k = true ↔ ∃ v, (k, v) ∈ entries m) as Hck.
  { unfold contains_key. destruct (bt_get (entries m) k) as [v|] eqn:E.
    - apply bt_get_Some_In in E. naive_solver.
    - split; [done|]. intros (v & Hv%bt_In_get); [|done]. congruence. }
  assert (k ∈ resolve_series m metric filters ↔
    ∃ e, k = e.1 ∧ (e ∈ entries m) ∧ sk_metric_name e.1 = metric ∧
      forallb (tag_matches e.1) filters = true) as ->.
  { unfold resolve_series. destruct filters as [|f filters].
    - rewrite elem_of_map. setoid_rewrite elem_of_filterb.
      setoid_rewrite bool_decide_eq_true. naive_solver.
    - rewrite elem_of_map. repeat setoid_rewrite elem_of_filterb.
      setoid_rewrite bool_decide_eq_true. naive_solver. }
  rewrite Hck. setoid_rewrite forallb_Forall. split.
  - intros ([k' v] & -> & Hin & Hm & Hf). simpl in *. split; [eauto|]. split; [done|].
    eapply Forall_impl; [exact Hf|]. intros f. apply Htag.
  - intros ((v & Hin) & Hm & Hf). exists (k, v). split_and!; [done..|].
    eapply Forall_impl; [exact Hf|]. intros f. apply Htag.
Qed.

Lemma resolve_series_NoDup m metric filters :
  bt_wf (entries m) → NoDup (resolve_series m metric filters).
Proof.
  intros Hwf. apply (StronglySorted_NoDup (λ a b, cmp a b = Lt)).
  { intros k. by rewrite cmp_refl. }
  unfold resolve_series.
  destruct filters; apply (StronglySorted_map key_lt); try done; by repeat apply bt_wf_filter.
Qed.

(** ** Shards *)

Lemma shard_index_mod `{XxHashLaws} p k :
  0 <= k < 64 → shard_index p (2 ^ k) = series_id (point_key p) mod 2 ^ k.
Proof.
  intros Hk. unfold shard_index. rewrite (series_id_parts_eq (point_key p)).
  assert (1 <= 2 ^ k < 2 ^ 64) as Hp.
  { split; [apply (Z.pow_le_mono_r 2 0 k); lia|]. apply Z.pow_lt_mono_r; lia. }
  rewrite wrap_u64_id by (unfold in_u64; change u64_mod with (2 ^ 64); lia).
  replace (2 ^ k - 1) with (Z.ones k) by (rewrite Z.ones_equiv; lia).
  apply Z.land_ones. lia.
Qed.

(** ** Sample values *)

Definition point_at (k : SeriesKey) (ts v : Z) : DataPoint := to_point k (ts, F64 v).

(** Three points of one series out of order, one of them overwritten, and a
    point of another series. *)
Definition sample_points : list DataPoint :=
  [point_at key_a 30 3; point_at key_a 10 1; point_at key_b 5 7; point_at key_a 30 4].
Definition sample_memtable : Memtable := insert_all (new 100) sample_points.

Example sample_memtable_entries :
  entries sample_memtable = [(key_a, [(10, F64 1); (30, F64 4)]); (key_b, [(5, F64 7)])].
Proof. reflexivity. Qed.

Lemma sample_memtable_wf : mt_wf sample_memtable.
Proof. apply insert_all_wf, new_wf. Qed.

(** ** Properties *)

(** Insertion through binary search keeps the memtable's invariant: series keys
    sorted, every vector strictly sorted by timestamp and not empty, [entry_count]
    the number of stored points and [size_bytes] the estimate over the stored data,
    both modulo 2^64. *)
Theorem memtable_insert_invariant m p (Hwf : mt_wf m) : mt_wf (insert m p).
Proof. by apply insert_wf. Qed.

Lemma memtable_insert_invariant_witness :
  mt_wf sample_memtable ∧ mt_wf (insert sample_memtable (point_at key_b 1 1)).
Proof.
  split; [exact sample_memtable_wf|].
  apply (memtable_insert_invariant sample_memtable (point_at key_b 1 1)), sample_memtable_wf.
Defined.

(** C13. The memtable refines a finite map from (series, timestamp) to value in which
    the last write wins: after any sequence of inserts, each cell holds the value of
    the last point written to it, or what it held before. *)
Theorem memtable_last_write_wins m ps k ts (Hwf : mt_wf m) :
  mt_lookup (insert_all m ps) k ts =
  match last_write ps k ts with Some v => Some v | None => mt_lookup m k ts end.
Proof. by apply mt_lookup_insert_all. Qed.

Lemma memtable_last_write_wins_witness :
  mt_wf (new 100) ∧
  mt_lookup sample_memtable key_a 30 = last_write sample_points key_a 30 ∧
  last_write sample_points key_a 30 = Some (F64 4).
Proof.
  split; [apply new_wf|]. split; [|reflexivity].
  exact (memtable_last_write_wins (new 100) sample_points key_a 30 (new_wf 100)).
Defined.

(** Reading a series returns exactly its stored points that lie in the inclusive
    time range and satisfy the predicate, in strictly increasing time order. *)
Theorem memtable_read_exact m key lo hi pred (Hwf : mt_wf m) :
  (∀ p, p ∈ read_series m key lo hi pred ↔
     point_key p = key ∧ mt_lookup m key (timestamp_ns p) = Some (value p) ∧
     lo <= timestamp_ns p <= hi ∧ satisfies_opt pred (value p) = true) ∧
  StronglySorted (λ p q, timestamp_ns p < timestamp_ns q) (read_series m key lo hi pred).
Proof.
  destruct Hwf as (Hd & _). split; [|by apply read_series_sorted].
  intros p. by apply elem_of_read_series.
Qed.

Lemma memtable_read_exact_witness :
  mt_wf sample_memtable ∧
  (point_at key_a 30 4 ∈ read_series sample_memtable key_a 20 40 None ↔
     point_key (point_at key_a 30 4) = key_a ∧
     mt_lookup sample_memtable key_a 30 = Some (F64 4) ∧ 20 <= 30 <= 40 ∧ true = true).
Proof.
  split; [exact sample_memtable_wf|].
  exact (proj1 (memtable_read_exact sample_memtable key_a 20 40 None sample_memtable_wf)
           (point_at key_a 30 4)).
Defined.

(** Resolving a query against the memtable returns, without duplicates, exactly
    the stored series of the metric whose tags contain every filter, whatever the
    order in which the filters are iterated. *)
Theorem memtable_resolve_exact m metric filters (Hwf : mt_wf m) :
  NoDup (resolve_series m metric filters) ∧
  (∀ k, k ∈ resolve_series m metric filters ↔
     contains_key (entries m) k = true ∧ sk_metric_name k = metric ∧
     Forall (λ f, bt_get (sk_tags k) f.1 = Some f.2) filters).
Proof.
  destruct Hwf as ((Hd & _) & _). split; [by apply resolve_series_NoDup|].
  intros k. by apply elem_of_resolve_series.
Qed.

Lemma memtable_resolve_exact_witness :
  mt_wf sample_memtable ∧ NoDup (resolve_series sample_memtable "cpu" [("host", "b")]) ∧
  resolve_series sample_memtable "cpu" [("host", "b")] = [key_b].
Proof.
  split; [exact sample_memtable_wf|]. split; [|reflexivity].
  exact (proj1 (memtable_resolve_exact sample_memtable "cpu" [("host", "b")] sample_memtable_wf)).
Defined.

(** C34. With a power-of-two shard count the bitmask is the series id modulo the shard
    count: the shard exists, and all points of a series go to one shard. *)
Theorem shard_index_routes `{HX : XxHash} (Hlaws : XxHashLaws) p q k (Hk : 0 <= k < 64) :
  shard_index p (2 ^ k) = series_id (point_key p) mod 2 ^ k ∧
  0 <= shard_index p (2 ^ k) < 2 ^ k ∧
  (point_key p = point_key q → shard_index p (2 ^ k) = shard_index q (2 ^ k)).
Proof.
  rewrite !shard_index_mod by done. split; [done|]. split; [|by intros ->].
  apply Z.mod_pos_bound, Z.pow_pos_nonneg; lia.
Qed.

Lemma shard_index_routes_witness :
  @XxHashLaws poly_hash ∧
  0 <= @shard_index poly_hash (point_at key_a 1 1) (2 ^ 4) < 2 ^ 4 ∧
  @shard_index poly_hash (point_at key_a 1 1) (2 ^ 4) =
  @shard_index poly_hash (point_at key_a 9 2) (2 ^ 4).
Proof.
  split; [exact poly_hash_laws|].
  pose proof (shard_index_routes (HX := poly_hash) poly_hash_laws
    (point_at key_a 1 1) (point_at key_a 9 2) 4 ltac:(lia)) as (_ & Hr & Hs).
  split; [exact Hr|]. apply Hs. reflexivity.
Defined.
