(* ===== verification/Fs.v ===== *)
(** * Files, paths and number formatting

    The part of the operating system the engine relies on: a file system is a
    finite map from paths to contents.  A write may fail after any prefix of the
    buffer has reached the file; which prefix is the [io_outcome] argument of the
    operation, so every theorem holds for every failure.  Paths are joined and
    numbers formatted and parsed the way the standard library does. *)
From S2P Require Import Prelude BTree Types.
From Stdlib Require Import Strings.Ascii.

Abbreviation Fs := (gmap string bytes).

(** How one "write everything, then [sync_all]" ends: success, or an error after
    [n] bytes reached the file (all of them when the sync failed). *)
Inductive io_outcome :=
| IoOk
| IoErr (n : nat).

(** [OpenOptions::create_new] followed by [write_all] and [sync_all]. *)
Definition fs_create_new (fs : Fs) (path : string) (buf : bytes) (io : io_outcome)
    : Fs * result () :=
  match fs !! path with
  | Some _ => (fs, Err "file exists")
  | None =>
      match io with
      | IoOk => (<[path := buf]> fs, Ok ())
      | IoErr n => (<[path := take n buf]> fs, Err "write failed")
      end
  end.

(** [tokio::fs::read]. *)
Definition fs_read (fs : Fs) (path : string) : result bytes := ok_or "not found" (fs !! path).

(** [tokio::fs::remove_file]; the callers log an error and go on. *)
Definition fs_remove (fs : Fs) (path : string) : Fs := delete path fs.

(** ** Strings *)

Fixpoint ends_with_slash (s : string) : bool :=
  match s with
  | EmptyString => false
  | String c EmptyString => bool_decide (c = "/"%char)
  | String _ s' => ends_with_slash s'
  end.

(** [dir.join(name)] for a relative [name]. *)
Definition path_join (dir name : string) : string :=
  if bool_decide (dir = "") then name
  else if ends_with_slash dir then dir +:+ name
  else dir +:+ "/" +:+ name.

Definition digit_char (d : Z) : ascii :=
  Ascii.ascii_of_N (Z.to_N (if d <? 10 then 48 + d else 87 + d)).

(** The last [n] digits of [z] in [base], most significant first, in front of
    [acc]: [{:0n}] of a number that fits. *)
Fixpoint digits (base : Z) (n : nat) (z : Z) (acc : string) : string :=
  match n with
  | O => acc
  | S n' => digits base n' (z / base) (String (digit_char (z mod base)) acc)
  end.

(** [{:016x}] and [{:020}] of a [u64]. *)
Definition fmt_hex16 (z : Z) : string := digits 16 16 z "".
Definition fmt_dec20 (z : Z) : string := digits 10 20 z "".

(** The number of decimal digits of a [u64]. *)
Fixpoint dec_len (fuel : nat) (z : Z) : nat :=
  match fuel with
  | O => 1
  | S fuel' => if z <? 10 then 1 else S (dec_len fuel' (z / 10))
  end.

(** [{:02}] of a [u64]: at least two digits. *)
Definition fmt_dec2 (z : Z) : string := digits 10 (2 `max` dec_len 19 z)%nat z "".

Definition char_digit (c : ascii) : option Z :=
  let n := Z.of_N (Ascii.N_of_ascii c) in
  if (48 <=? n) && (n <=? 57) then Some (n - 48) else None.

Fixpoint parse_digits (s : string) (acc : Z) : option Z :=
  match s with
  | EmptyString => Some acc
  | String c s' =>
      match char_digit c with
      | Some d =>
          let acc' := acc * 10 + d in
          if acc' <=? u64_max then parse_digits s' acc' else None
      | None => None
      end
  end.

(** [str::parse::<u64>]: an optional [+], at least one digit, no overflow. *)
Definition parse_u64 (s : string) : option Z :=
  match s with
  | EmptyString => None
  | String c s' =>
      if bool_decide (c = "+"%char) then
        match s' with EmptyString => None | _ => parse_digits s' 0 end
      else parse_digits s 0
  end.

Fixpoint starts_with (p s : string) : option string :=
  match p, s with
  | EmptyString, _ => Some s
  | String a p', String b s' => if bool_decide (a = b) then starts_with p' s' else None
  | _, _ => None
  end.

(** Strip one suffix [p] of [s]. *)
Definition strip_suffix (p s : string) : option string :=
  String.rev <$> starts_with (String.rev p) (String.rev s).

(** [s.ends_with(p)]. *)
Definition ends_with (p s : string) : bool :=
  match strip_suffix p s with Some _ => true | None => false end.

(** [s.trim_end_matches(p)] for a non-empty [p]: strip as long as it is there. *)
Fixpoint trim_end_matches (fuel : nat) (p s : string) : string :=
  match fuel with
  | O => s
  | S fuel' =>
      match strip_suffix p s with Some s' => trim_end_matches fuel' p s' | None => s end
  end.

(** ** Formatting and parsing *)

Lemma digits_app base n z acc : digits base n z acc = digits base n z "" +:+ acc.
Proof.
  revert z acc. induction n as [|n IH]; intros z acc; simpl; [done|].
  rewrite (IH _ (String _ acc)), (IH _ (String _ "")).
  generalize (digits base n (z / base) ""). intros s.
  induction s as [|c s IHs]; [done|]. change (String c (s +:+ String (digit_char (z mod base)) acc)
    = String c ((s +:+ String (digit_char (z mod base)) "") +:+ acc)). by f_equal.
Qed.

Lemma char_digit_char d : 0 <= d < 10 → char_digit (digit_char d) = Some d.
Proof.
  intros Hd. unfold char_digit, digit_char.
  replace (d <? 10) with true by (symmetry; apply Z.ltb_lt; lia).
  rewrite Ascii.N_ascii_embedding by lia. rewrite Z2N.id by lia.
  replace ((48 <=? 48 + d) && (48 + d <=? 57)) with true by lia. f_equal. lia.
Qed.

Lemma append_cons a (s t : string) : String a s +:+ t = String a (s +:+ t).
Proof. done. Qed.

Lemma append_assoc (s t u : string) : (s +:+ t) +:+ u = s +:+ (t +:+ u).
Proof. induction s as [|a s IH]; [done|]. by rewrite !append_cons, IH. Qed.

Lemma append_nil_r (s : string) : s +:+ "" = s.
Proof. induction s as [|a s IH]; [done|]. by rewrite !append_cons, IH. Qed.

Lemma rev_app_spec s t : String.rev_app s t = String.rev s +:+ t.
Proof.
  unfold String.rev. revert t. induction s as [|a s IH]; intros t; [done|]. cbn [String.rev_app].
  rewrite (IH (String a t)), (IH (String a "")), append_assoc. done.
Qed.

Lemma rev_cons a s : String.rev (String a s) = String.rev s +:+ String a "".
Proof. unfold String.rev at 1. cbn [String.rev_app]. apply rev_app_spec. Qed.

Lemma rev_append s t : String.rev (s +:+ t) = String.rev t +:+ String.rev s.
Proof.
  induction s as [|a s IH]; [by rewrite append_nil_r|].
  by rewrite append_cons, !rev_cons, IH, append_assoc.
Qed.

Lemma rev_rev s : String.rev (String.rev s) = s.
Proof. induction s as [|a s IH]; [done|]. by rewrite rev_cons, rev_append, IH. Qed.

Lemma starts_with_app p s : starts_with p (p +:+ s) = Some s.
Proof.
  induction p as [|a p IH]; [done|].
  rewrite append_cons. cbn [starts_with]. by rewrite bool_decide_eq_true_2.
Qed.

(** A suffix that was appended is stripped again. *)
Lemma strip_suffix_app p s : strip_suffix p (s +:+ p) = Some s.
Proof. unfold strip_suffix. rewrite rev_append, starts_with_app. simpl. by rewrite rev_rev. Qed.

Lemma ends_with_app p s : ends_with p (s +:+ p) = true.
Proof. unfold ends_with. by rewrite strip_suffix_app. Qed.

(** Every character is a decimal digit. *)
Fixpoint all_digits (s : string) : bool :=
  match s with
  | EmptyString => true
  | String c s' => match char_digit c with Some _ => all_digits s' | None => false end
  end.

Lemma all_digits_digits n z acc : all_digits acc = true → all_digits (digits 10 n z acc) = true.
Proof.
  revert z acc. induction n as [|n IH]; intros z acc Ha; cbn [digits]; [done|].
  apply IH. cbn [all_digits]. rewrite char_digit_char by (by apply Z.mod_pos_bound). done.
Qed.

Lemma all_digits_app s t : all_digits (s +:+ t) = all_digits s && all_digits t.
Proof.
  induction s as [|a s IH]; [done|].
  rewrite append_cons. cbn [all_digits]. by destruct (char_digit a).
Qed.

(** A number does not end in a letter: no suffix to trim. *)
Lemma strip_suffix_digits s p c :
  all_digits s = true → char_digit c = None → strip_suffix (p +:+ String c "") s = None.
Proof.
  intros Hs Hc. unfold strip_suffix. rewrite rev_append.
  destruct (String.rev s) as [|b r] eqn:E.
  - done.
  - assert (s = String.rev r +:+ String b "") as -> by (rewrite <-(rev_rev s), E; apply rev_cons).
    rewrite all_digits_app in Hs. apply andb_true_iff in Hs as [_ Hb]. cbn in Hb.
    change (String.rev (String c "")) with (String c ""). rewrite append_cons. cbn [starts_with].
    rewrite bool_decide_eq_false_2; [done|]. intros ->. by rewrite Hc in Hb.
Qed.

Lemma parse_digits_digits n z s acc :
  0 <= z < 10 ^ Z.of_nat n → 0 <= acc → acc * 10 ^ Z.of_nat n + z <= u64_max →
  parse_digits (digits 10 n z "" +:+ s) acc = parse_digits s (acc * 10 ^ Z.of_nat n + z).
Proof.
  revert z s acc. induction n as [|n IH]; intros z s acc Hz Ha Hb.
  - change (10 ^ Z.of_nat 0) with 1 in *. simpl. f_equal. lia.
  - rewrite Nat2Z.inj_succ, Z.pow_succ_r in * by lia. cbn [digits].
    pose proof (Z.div_mod z 10 ltac:(lia)). pose proof (Z.mod_pos_bound z 10 eq_refl).
    rewrite digits_app, append_assoc, IH by nia. rewrite append_cons. cbn [parse_digits].
    change ("" +:+ s) with s.
    rewrite char_digit_char by done.
    replace ((acc * 10 ^ Z.of_nat n + z / 10) * 10 + z mod 10)
      with (acc * (10 * 10 ^ Z.of_nat n) + z) by lia.
    by replace (_ <=? _) with true by lia.
Qed.

Lemma all_digits_head c s : all_digits (String c s) = true → c ≠ "+"%char.
Proof. intros E ->. done. Qed.

(** Parsing inverts zero-padded formatting. *)
Lemma parse_fmt_dec20 z : in_u64 z → parse_u64 (fmt_dec20 z) = Some z.
Proof.
  intros Hz. pose proof (all_digits_digits 20 z "" eq_refl) as Hd.
  assert (0 <= z < 10 ^ Z.of_nat 20).
  { change (10 ^ Z.of_nat 20) with 100000000000000000000. width. }
  assert (parse_digits (fmt_dec20 z) 0 = Some z) as Hp.
  { unfold fmt_dec20. rewrite <-(append_nil_r (digits _ _ _ _)).
    rewrite parse_digits_digits; [by rewrite Z.mul_0_l|done|done|rewrite Z.mul_0_l; width]. }
  fold (fmt_dec20 z) in Hd. unfold parse_u64. destruct (fmt_dec20 z) as [|c s] eqn:E.
  - exfalso. apply (f_equal String.length) in E. revert E. unfold fmt_dec20. simpl. lia.
  - apply all_digits_head in Hd. by rewrite bool_decide_eq_false_2.
Qed.

Lemma dec_len_bound fuel z : 0 <= z < 10 ^ (Z.of_nat fuel + 1) → z < 10 ^ Z.of_nat (dec_len fuel z).
Proof.
  revert z. induction fuel as [|fuel IH]; intros z Hz; cbn [dec_len]; [exact (proj2 Hz)|].
  destruct (z <? 10) eqn:E; zbool; [exact E|].
  rewrite Nat2Z.inj_succ in *. rewrite Z.add_succ_l, !Z.pow_succ_r in * by lia.
  pose proof (Z.div_mod z 10 ltac:(lia)). pose proof (Z.mod_pos_bound z 10 eq_refl).
  assert (z / 10 < 10 ^ Z.of_nat (dec_len fuel (z / 10))) by (apply IH; lia). lia.
Qed.

Lemma parse_fmt_dec2 z : in_u64 z → parse_digits (fmt_dec2 z) 0 = Some z.
Proof.
  intros Hz. unfold fmt_dec2. set (n := (2 `max` dec_len 19 z)%nat).
  assert (z < 10 ^ Z.of_nat n) as Hn.
  { eapply Z.lt_le_trans; [apply (dec_len_bound 19); revert Hz; width|]. apply Z.pow_le_mono_r; [lia|]. unfold n. lia. }
  rewrite <-(append_nil_r (digits 10 n z "")), parse_digits_digits; [by rewrite Z.mul_0_l|..].
  - destruct Hz. lia.
  - lia.
  - destruct Hz as [_ Hz]. revert Hz. rewrite Z.mul_0_l. width.
Qed.
