(* ===== verification/ChunkFormat.v ===== *)
(** * The chunk file format ([src/storage-engine/src/chunk/format.rs])

    Sizes, the file header, delta coding of timestamps and the byte form of the
    columns.  Subtraction and addition of timestamps are [i64] operations and
    wrap; the delta round trip holds for every sequence of [i64]s because
    decoding wraps back. *)
From S2P Require Import Prelude BTree F64 Externals Types.

Definition MAGIC : Z := 0x4D494349.
Definition VERSION : Z := 1.
Definition HEADER_SIZE : Z := 48.
Definition U32_SIZE : Z := 4.
Definition U64_SIZE : Z := 8.
Definition I64_SIZE : Z := 8.
Definition F64_SIZE : Z := 8.
Definition DIR_ENTRY_FIXED_SIZE : Z :=
  U32_SIZE + U32_SIZE + U64_SIZE + U64_SIZE + F64_SIZE + F64_SIZE.
Definition COL_LEN_SIZE : Z := U32_SIZE.
Definition FOOTER_OFFSET_SIZE : Z := U64_SIZE.
Definition CHECKSUM_SIZE : Z := U32_SIZE.
Definition FOOTER_TAIL_SIZE : Z := FOOTER_OFFSET_SIZE + CHECKSUM_SIZE.
Definition BLOOM_SIP_KEYS_SIZE : Z := 4 * U64_SIZE.
Definition BLOOM_HEADER_SIZE : Z := U64_SIZE + U32_SIZE + BLOOM_SIP_KEYS_SIZE + U32_SIZE.

Record ChunkHeader := {
  magic : Z;
  version : Z;
  padding : bytes;
  chunk_id : Z;
  time_start_ns : Z;
  time_end_ns : Z;
  series_count : Z;
  total_entries : Z;
  col_data_offset : Z
}.

(** [ChunkHeader::to_bytes]. *)
Definition header_to_bytes (h : ChunkHeader) : bytes :=
  le_bytes 4 (magic h) ++ le_bytes 1 (version h) ++ padding h ++ le_bytes 8 (chunk_id h)
  ++ le_bytes 8 (time_start_ns h) ++ le_bytes 8 (time_end_ns h)
  ++ le_bytes 4 (series_count h) ++ le_bytes 4 (total_entries h)
  ++ le_bytes 8 (col_data_offset h).

(** [new_chunk_id]: the nanoseconds of the clock, a [u128], as [u64]. *)
Definition new_chunk_id (now_nanos : Z) : Z := wrap_u64 now_nanos.

(** [deltas.push(input[i] - input[i - 1])] for [i] in [1..len]. *)
Fixpoint deltas_from (prev : Z) (l : list Z) : list Z :=
  match l with
  | [] => []
  | x :: l' => wrap_i64 (x - prev) :: deltas_from x l'
  end.

(** [delta_encode]; differences wrap around, as in a release build (a debug build panics). *)
Definition delta_encode (input : list Z) : list Z :=
  match input with [] => [] | x :: l => x :: deltas_from x l end.

(** [out.push(out[i - 1] + deltas[i])] for [i] in [1..len]. *)
Fixpoint sums_from (prev : Z) (l : list Z) : list Z :=
  match l with
  | [] => []
  | d :: l' => let x := wrap_i64 (prev + d) in x :: sums_from x l'
  end.

(** [delta_decode]. *)
Definition delta_decode (deltas : list Z) : list Z :=
  match deltas with [] => [] | x :: l => x :: sums_from x l end.

(** [i64_slice_to_bytes] and [f64_slice_to_bytes]. *)
Definition i64_slice_to_bytes (values : list Z) : bytes := flat_map (le_bytes 8) values.
Definition f64_slice_to_bytes (values : list f64) : bytes := flat_map f64_to_le_bytes values.

(** [slice::chunks_exact(8)]: an incomplete last group is dropped.  Every step
    consumes eight bytes, so the length is fuel enough. *)
Fixpoint chunks_exact_8 (fuel : nat) (l : bytes) : list bytes :=
  match fuel with
  | O => []
  | S fuel' =>
      if (8 <=? length l)%nat then take 8 l :: chunks_exact_8 fuel' (drop 8 l) else []
  end.

(** [bytes_to_i64_slice] and [bytes_to_f64_slice]: [try_into] succeeds on the
    eight-byte groups. *)
Definition bytes_to_i64_slice (l : bytes) : result (list Z) :=
  collect (map (λ b, Ok (le_i64 b)) (chunks_exact_8 (length l) l)).
Definition bytes_to_f64_slice (l : bytes) : result (list f64) :=
  collect (map (λ b, Ok (f64_from_le_bytes b)) (chunks_exact_8 (length l) l)).

(** ** Delta coding *)

Lemma sums_deltas prev l : Forall in_i64 l → sums_from prev (deltas_from prev l) = l.
Proof.
  intros Hl. revert prev. induction Hl as [|x l Hx ? IH]; intros prev; simpl; [done|].
  rewrite wrap_i64_add_r. replace (prev + (x - prev)) with x by lia.
  rewrite wrap_i64_id by done. by rewrite IH.
Qed.

Lemma delta_decode_encode l : Forall in_i64 l → delta_decode (delta_encode l) = l.
Proof. destruct 1 as [|x l Hx Hl]; simpl; [done|]. by rewrite sums_deltas. Qed.

Lemma deltas_from_range prev l : Forall in_i64 (deltas_from prev l).
Proof.
  revert prev. induction l as [|x l IH]; intros prev; simpl; constructor; auto with micius.
Qed.

Lemma delta_encode_range l : Forall in_i64 l → Forall in_i64 (delta_encode l).
Proof. destruct 1; simpl; [constructor|]. constructor; [done|]. apply deltas_from_range. Qed.

Lemma length_deltas_from prev l : length (deltas_from prev l) = length l.
Proof. revert prev. induction l; intros; simpl; auto. Qed.

Lemma length_delta_encode l : length (delta_encode l) = length l.
Proof. destruct l; simpl; [done|]. by rewrite length_deltas_from. Qed.

(** ** Columns *)

Lemma length_flat_map_8 {A} (f : A → bytes) l :
  (∀ a, length (f a) = 8%nat) → length (flat_map f l) = (8 * length l)%nat.
Proof. intros Hf. induction l as [|a l IH]; simpl; [done|]. rewrite length_app, Hf, IH. lia. Qed.

Lemma chunks_exact_flat_map {A} (f : A → bytes) l fuel :
  (∀ a, length (f a) = 8%nat) → (length l ≤ fuel)%nat →
  chunks_exact_8 fuel (flat_map f l) = map f l.
Proof.
  intros Hf. revert fuel. induction l as [|a l IH]; intros fuel Hfuel; simpl.
  - by destruct fuel.
  - destruct fuel as [|fuel]; simpl in *; [lia|].
    rewrite length_app, Hf.
    replace (8 <=? 8 + length (flat_map f l))%nat with true by (symmetry; apply Nat.leb_le; lia).
    rewrite take_app_length', drop_app_length' by done. rewrite IH by lia. done.
Qed.

Lemma chunks_of_slice {A} (f : A → bytes) l :
  (∀ a, length (f a) = 8%nat) →
  chunks_exact_8 (length (flat_map f l)) (flat_map f l) = map f l.
Proof. intros Hf. apply chunks_exact_flat_map; [done|]. rewrite length_flat_map_8; [lia|done]. Qed.

Lemma i64_slice_roundtrip l :
  Forall in_i64 l → bytes_to_i64_slice (i64_slice_to_bytes l) = Ok l.
Proof.
  intros Hl. unfold bytes_to_i64_slice, i64_slice_to_bytes.
  rewrite chunks_of_slice by (intros; apply length_le_bytes).
  rewrite (collect_map_Ok le_i64), map_map. f_equal.
  induction Hl as [|x l Hx ? IH]; simpl; [done|]. by rewrite le_i64_roundtrip, IH.
Qed.

Lemma f64_slice_roundtrip l :
  Forall f64_wf l → bytes_to_f64_slice (f64_slice_to_bytes l) = Ok l.
Proof.
  intros Hl. unfold bytes_to_f64_slice, f64_slice_to_bytes.
  rewrite chunks_of_slice by apply length_f64_to_le_bytes.
  rewrite (collect_map_Ok f64_from_le_bytes), map_map. f_equal.
  induction Hl as [|x l Hx ? IH]; simpl; [done|]. by rewrite f64_bytes_roundtrip, IH.
Qed.

Lemma len_i64_slice l : len (i64_slice_to_bytes l) = 8 * len l.
Proof.
  unfold len, i64_slice_to_bytes. rewrite length_flat_map_8; [lia|]. intros. apply length_le_bytes.
Qed.

Lemma len_f64_slice l : len (f64_slice_to_bytes l) = 8 * len l.
Proof.
  unfold len, f64_slice_to_bytes. rewrite length_flat_map_8; [lia|]. apply length_f64_to_le_bytes.
Qed.

Lemma len_header_to_bytes h : len (padding h) = 3 → len (header_to_bytes h) = HEADER_SIZE.
Proof.
  intros Hp. unfold header_to_bytes. autorewrite with micius. rewrite Hp. done.
Qed.

#[export] Hint Rewrite len_i64_slice len_f64_slice length_delta_encode : micius.

(** ** Properties *)

(** C36. Delta coding is lossless on every sequence of 64-bit timestamps, including
    those whose differences overflow [i64]: decoding wraps back. *)
Theorem delta_roundtrip (l : list Z) (Hl : Forall in_i64 l) :
  delta_decode (delta_encode l) = l ∧ Forall in_i64 (delta_encode l).
Proof. split; [by apply delta_decode_encode|by apply delta_encode_range]. Qed.

Lemma delta_roundtrip_witness :
  Forall in_i64 [i64_max; i64_min; 7] ∧
  delta_decode (delta_encode [i64_max; i64_min; 7]) = [i64_max; i64_min; 7].
Proof.
  assert (Forall in_i64 [i64_max; i64_min; 7]) as H by (repeat constructor; width).
  split; [exact H|]. exact (proj1 (delta_roundtrip _ H)).
Defined.
