(* ===== verification/ChunkWriter.v ===== *)
(** * Writing chunk files ([src/storage-engine/src/chunk/writer.rs])

    [ChunkWriter::write] in the source's two passes: pass 1 encodes and
    compresses every non-empty series and folds the header fields and the bloom
    filter; pass 2 computes the absolute column offsets and the index records;
    then the buffer is assembled and written.  The clock and the random bloom
    seed are arguments.  The lemmas describe the buffer as header, directory,
    columns and footer, with every column at the offset its directory entry
    names. *)
From S2P Require Import Prelude BTree F64 Externals Types Fs ChunkFormat.

Record ChunkWriter := { chunk_dir : string }.

(** [ChunkWriter::new]. *)
Definition chunk_writer_new (dir : string) : ChunkWriter := {| chunk_dir := dir |}.

Record SeriesWriteResult := {
  sr_series_key : SeriesKey;
  sr_entry : SeriesChunkEntry;
  sr_stats : SeriesChunkStats
}.

Record ChunkWriteResult := {
  cw_chunk_id : Z;
  cw_chunk_meta : ChunkMeta;
  cw_series_results : list SeriesWriteResult
}.

Record EncodedSeries := {
  es_key : SeriesKey;
  es_key_bytes : bytes;
  es_entry_count : Z;
  es_time_start_ns : Z;
  es_time_end_ns : Z;
  es_ts_compressed : bytes;
  es_val_compressed : bytes;
  es_stats : SeriesChunkStats
}.

(** [build_directory_entry]. *)
Definition build_directory_entry (s : EncodedSeries) (ts_offset val_offset : Z) : bytes :=
  le_bytes 4 (len (es_key_bytes s)) ++ es_key_bytes s ++ le_bytes 4 (es_entry_count s)
  ++ le_bytes 8 ts_offset ++ le_bytes 8 val_offset
  ++ f64_to_le_bytes (min_value (es_stats s)) ++ f64_to_le_bytes (max_value (es_stats s)).

Section Writer.
Context `{XxHash, Crc32, Lz4, BloomFilter}.

(** What pass 1 accumulates. *)
Record Pass1 := {
  p1_encoded : list EncodedSeries;
  p1_min_ts : Z;
  p1_max_ts : Z;
  p1_total_entries : Z;
  p1_bloom : bloom
}.

(** Encode and compress the columns of one non-empty series. *)
Definition encode_series (key : SeriesKey) (points : list (Z * f64)) : result EncodedSeries :=
  let timestamps := map fst points in
  let values := map snd points in
  let deltas := delta_encode timestamps in
  stats ← ok_or "no chunk stats found" (from_values values);
  Ok {| es_key := key;
        es_key_bytes := to_bytes key;
        es_entry_count := wrap_u32 (len timestamps);
        es_time_start_ns := hd 0 timestamps;
        es_time_end_ns := List.last timestamps 0;
        es_ts_compressed := compress_prepend_size (i64_slice_to_bytes deltas);
        es_val_compressed := compress_prepend_size (f64_slice_to_bytes values);
        es_stats := stats |}.

(** One iteration of pass 1; an empty series is skipped. *)
Definition pass1_step (st : Pass1) (e : SeriesKey * list (Z * f64)) : result Pass1 :=
  match e.2 with
  | [] => Ok st
  | _ =>
      s ← encode_series e.1 e.2;
      Ok {| p1_encoded := p1_encoded st ++ [s];
            p1_min_ts := Z.min (p1_min_ts st) (es_time_start_ns s);
            p1_max_ts := Z.max (p1_max_ts st) (es_time_end_ns s);
            p1_total_entries := wrap_u32 (p1_total_entries st + wrap_u32 (len e.2));
            p1_bloom := bloom_set (p1_bloom st) (es_key_bytes s) |}
  end.

Fixpoint pass1 (data : list (SeriesKey * list (Z * f64))) (st : Pass1) : result Pass1 :=
  match data with
  | [] => Ok st
  | e :: data' => st' ← pass1_step st e; pass1 data' st'
  end.

Definition pass1_init (data : list (SeriesKey * list (Z * f64))) (seed : Z) : Pass1 :=
  {| p1_encoded := []; p1_min_ts := i64_max; p1_max_ts := i64_min; p1_total_entries := 0;
     p1_bloom := bloom_new_for_fp_rate (Z.max (len data) 1) seed |}.

(** [encoded.iter().map(|s| DIR_ENTRY_FIXED_SIZE + s.key_bytes.len()).sum()]. *)
Definition dir_size (encoded : list EncodedSeries) : Z :=
  fold_right (λ s acc, DIR_ENTRY_FIXED_SIZE + len (es_key_bytes s) + acc) 0 encoded.

(** Pass 2: the offsets of every series' two columns, from [off] on, and the
    index records. *)
Fixpoint pass2 (id off : Z) (encoded : list EncodedSeries)
    : list (Z * Z) * list SeriesWriteResult :=
  match encoded with
  | [] => ([], [])
  | s :: encoded' =>
      let ts_offset := off in
      let val_offset := off + (U32_SIZE + len (es_ts_compressed s)) in
      let off' := val_offset + (U32_SIZE + len (es_val_compressed s)) in
      let r := pass2 id off' encoded' in
      ((ts_offset, val_offset) :: r.1,
       {| sr_series_key := es_key s;
          sr_entry :=
            {| ce_chunk_id := id;
               ce_series_id := xxh64 (es_key_bytes s);
               ce_time_start_ns := es_time_start_ns s;
               ce_time_end_ns := es_time_end_ns s;
               ce_size_bytes := len (es_ts_compressed s) + len (es_val_compressed s) + U32_SIZE * 2 |};
          sr_stats := es_stats s |} :: r.2)
  end.

(** The series directory. *)
Fixpoint directory (encoded : list EncodedSeries) (offsets : list (Z * Z)) : bytes :=
  match encoded, offsets with
  | s :: encoded', (ts_off, val_off) :: offsets' =>
      build_directory_entry s ts_off val_off ++ directory encoded' offsets'
  | _, _ => []
  end.

(** The two columns of a series, length-prefixed. *)
Definition column_data (s : EncodedSeries) : bytes :=
  le_bytes 4 (len (es_ts_compressed s)) ++ es_ts_compressed s
  ++ le_bytes 4 (len (es_val_compressed s)) ++ es_val_compressed s.

(** The bloom section of the footer. *)
Definition bloom_section (b : bloom) : bytes :=
  le_bytes 8 (number_of_bits b) ++ le_bytes 4 (number_of_hash_functions b)
  ++ le_bytes 8 (sip_keys b).1.1 ++ le_bytes 8 (sip_keys b).1.2
  ++ le_bytes 8 (sip_keys b).2.1 ++ le_bytes 8 (sip_keys b).2.2
  ++ le_bytes 4 (len (bitmap b)) ++ bitmap b.

Definition chunk_header (id : Z) (p : Pass1) : ChunkHeader :=
  {| magic := MAGIC; version := VERSION; padding := replicate 3 Byte.x00; chunk_id := id;
     time_start_ns := p1_min_ts p; time_end_ns := p1_max_ts p;
     series_count := wrap_u32 (len (p1_encoded p)); total_entries := p1_total_entries p;
     col_data_offset := HEADER_SIZE + dir_size (p1_encoded p) |}.

(** The file up to its checksum. *)
Definition chunk_body (id : Z) (p : Pass1) : bytes :=
  let offsets := (pass2 id (HEADER_SIZE + dir_size (p1_encoded p)) (p1_encoded p)).1 in
  let columns := header_to_bytes (chunk_header id p) ++ directory (p1_encoded p) offsets
                 ++ flat_map column_data (p1_encoded p) in
  let footer_offset := len columns in
  columns ++ bloom_section (p1_bloom p) ++ le_bytes 8 footer_offset.

(** The complete file: the checksum covers everything before it. *)
Definition chunk_bytes (id : Z) (p : Pass1) : bytes :=
  chunk_body id p ++ le_bytes 4 (crc32 (chunk_body id p)).

(** The path of a chunk file. *)
Definition chunk_path (w : ChunkWriter) (id : Z) : string :=
  path_join (chunk_dir w) ("chunk-" +:+ fmt_hex16 id +:+ ".mcs").

(** What [write] returns. *)
Definition write_result (id : Z) (path : string) (buf : bytes) (results : list SeriesWriteResult) : ChunkWriteResult :=
  {| cw_chunk_id := id; cw_chunk_meta := {| file_path := path; file_size := len buf |}; cw_series_results := results |}.

(** [ChunkWriter::write]. *)
Definition write (w : ChunkWriter) (fs : Fs) (series_data : list (SeriesKey * list (Z * f64)))
    (now seed : Z) (io : io_outcome) : Fs * result ChunkWriteResult :=
  match series_data with
  | [] => (fs, Err "cannot write empty chunk")
  | _ =>
      let id := new_chunk_id now in
      let path := chunk_path w id in
      match pass1 series_data (pass1_init series_data seed) with
      | Err e => (fs, Err e)
      | Ok p =>
          let r := pass2 id (HEADER_SIZE + dir_size (p1_encoded p)) (p1_encoded p) in
          let buf := chunk_bytes id p in
          match fs_create_new fs path buf io with
          | (fs', Err e) => (fs', Err e)
          | (fs', Ok _) =>
              (fs', Ok (write_result id path buf r.2))
          end
      end
  end.

(** ** Pass 1 *)

(** The series pass 1 keeps, in order. *)
Definition non_empty (data : list (SeriesKey * list (Z * f64))) : list (SeriesKey * list (Z * f64)) :=
  List.filter (λ e, match e.2 with [] => false | _ => true end) data.

(** [s] is the encoding of the series [e]. *)
Definition encodes (e : SeriesKey * list (Z * f64)) (s : EncodedSeries) : Prop :=
  encode_series e.1 e.2 = Ok s.

Lemma encode_series_Ok key points :
  points ≠ [] → ∃ s, encode_series key points = Ok s.
Proof. destruct points as [|[ts v] points]; [done|]. intros _. by eexists. Qed.

Lemma pass1_cons st key q points data :
  ∃ s, encode_series key (q :: points) = Ok s ∧
    pass1 ((key, q :: points) :: data) st =
    pass1 data {| p1_encoded := p1_encoded st ++ [s];
            p1_min_ts := Z.min (p1_min_ts st) (es_time_start_ns s);
            p1_max_ts := Z.max (p1_max_ts st) (es_time_end_ns s);
            p1_total_entries := wrap_u32 (p1_total_entries st + wrap_u32 (len (q :: points)));
            p1_bloom := bloom_set (p1_bloom st) (es_key_bytes s) |}.
Proof. eexists. split; reflexivity. Qed.

(** Pass 1 never fails; it appends the encodings of the non-empty series, keeps
    the time range of them all and puts every key into the bloom filter. *)
Lemma pass1_spec data st :
  ∃ encs st', pass1 data st = Ok st' ∧
    p1_encoded st' = p1_encoded st ++ encs ∧
    Forall2 encodes (non_empty data) encs ∧
    p1_min_ts st' = fold_left (λ m s, Z.min m (es_time_start_ns s)) encs (p1_min_ts st) ∧
    p1_max_ts st' = fold_left (λ m s, Z.max m (es_time_end_ns s)) encs (p1_max_ts st) ∧
    p1_bloom st' = fold_left (λ b s, bloom_set b (es_key_bytes s)) encs (p1_bloom st).
Proof.
  revert st. induction data as [|[key [|q points]] data IH]; intros st.
  - exists [], st. rewrite app_nil_r. by repeat split.
  - apply (IH st).
  - destruct (pass1_cons st key q points data) as (s & Hs & ->).
    match goal with |- context [pass1 data ?x] =>
      destruct (IH x) as (encs & st' & -> & He & Hf & Hrest) end.
    exists (s :: encs), st'. split; [done|]. rewrite He. cbn [p1_encoded]. rewrite <-app_assoc.
    split; [done|]. split; [by constructor|]. done.
Qed.

(** ** Pass 2 *)

Lemma length_pass2 id off encs : length (pass2 id off encs).1 = length encs.
Proof. revert off. induction encs as [|s encs IH]; intros off; simpl; [done|]. by rewrite IH. Qed.

Lemma len_column_data s :
  len (column_data s) = U32_SIZE + len (es_ts_compressed s) + (U32_SIZE + len (es_val_compressed s)).
Proof. unfold column_data. autorewrite with micius. unfold U32_SIZE. lia. Qed.

Lemma len_directory_entry s a b :
  len (build_directory_entry s a b) = DIR_ENTRY_FIXED_SIZE + len (es_key_bytes s).
Proof.
  unfold build_directory_entry, f64_to_le_bytes. autorewrite with micius.
  change DIR_ENTRY_FIXED_SIZE with 40. lia.
Qed.

Lemma len_directory encs offs :
  length offs = length encs → len (directory encs offs) = dir_size encs.
Proof.
  revert offs. induction encs as [|s encs IH]; intros [|[a b] offs] Hl; try done.
  cbn [directory]. rewrite len_app, len_directory_entry, IH by (simpl in Hl; lia).
  unfold dir_size. cbn [fold_right]. lia.
Qed.

(** The offsets of a series are the position of its columns. *)
Lemma pass2_offsets id off pre s post :
  (pass2 id off (pre ++ s :: post)).1 =
  (pass2 id off pre).1 ++
  (off + len (flat_map column_data pre),
   off + len (flat_map column_data pre) + (U32_SIZE + len (es_ts_compressed s))) ::
  (pass2 id (off + len (flat_map column_data (pre ++ [s]))) post).1.
Proof.
  revert off. induction pre as [|s' pre IH]; intros off; cbn [pass2 flat_map app fst].
  - rewrite app_nil_r, len_nil, Z.add_0_r, len_column_data, <-!Z.add_assoc. done.
  - rewrite (IH (off + (U32_SIZE + len (es_ts_compressed s')) +
                 (U32_SIZE + len (es_val_compressed s')))).
    replace (off + (U32_SIZE + len (es_ts_compressed s')) + (U32_SIZE + len (es_val_compressed s')))
      with (off + len (column_data s')) by (rewrite len_column_data; lia).
    cbn [app fst]. by rewrite !len_app, !Z.add_assoc.
Qed.

End Writer.
