(* ===== verification/ChunkReader.v ===== *)
(** * Reading chunk files ([src/storage-engine/src/chunk/reader.rs])

    Every read of the file goes through [slice], which fails instead of leaving
    the buffer, so a truncated or corrupt file gives an error value.  The reader
    is modelled on the file's bytes; the entry points take the file system and
    the path. *)
From S2P Require Import Prelude BTree F64 Externals Types Fs ChunkFormat.

(** [slice]: [bytes.get(offset..offset + len)]; the end is a [usize] sum. *)
Definition slice (b : bytes) (offset n : Z) : result bytes :=
  let e := wrap_u64 (offset + n) in
  if (offset <=? e) && (e <=? len b) then Ok (sub b offset (e - offset))
  else Err "chunk file truncated".

(** [u32::from_le_bytes(slice(..)?.try_into()?)] and the 64-bit versions; the
    conversion to an array cannot fail on a slice of that length. *)
Definition slice_u32 (b : bytes) (offset : Z) : result Z := s ← slice b offset U32_SIZE; Ok (le_Z s).
Definition slice_u64 (b : bytes) (offset : Z) : result Z := s ← slice b offset U64_SIZE; Ok (le_Z s).
Definition slice_i64 (b : bytes) (offset : Z) : result Z := s ← slice b offset I64_SIZE; Ok (le_i64 s).

(** [is_magic_valid]. *)
Definition is_magic_valid (b : bytes) : result () :=
  magic ← slice_u32 b 0;
  ensure (magic =? MAGIC) "Invalid chunk magic".

Section Reader.
Context `{XxHash, Crc32, Lz4, BloomFilter}.

(** [is_checksum_valid]: the last four bytes against the CRC of the rest. *)
Definition is_checksum_valid (b : bytes) : result () :=
  _ ← ensure (CHECKSUM_SIZE <=? len b) "chunk file too small to contain checksum";
  let data := take (length b - 4) b in
  let stored := drop (length b - 4) b in
  ensure (crc32 data =? le_Z stored) "CRC32 mismatch".

(** [is_within_global_range]. *)
Definition is_within_global_range (start_ns end_ns : Z) (h : ChunkHeader) : bool :=
  negb ((time_end_ns h <? start_ns) || (end_ns <? time_start_ns h)).

(** [parse_header]. *)
Definition parse_header (b : bytes) : result ChunkHeader :=
  _ ← ensure (HEADER_SIZE <=? len b) "file too small to contain header";
  magic ← slice_u32 b 0;
  v ← slice b 4 1;
  version ← ok_or "missing version byte" (head v);
  padding ← slice b 5 3;
  chunk_id ← slice_u64 b 8;
  time_start_ns ← slice_i64 b 16;
  time_end_ns ← slice_i64 b 24;
  series_count ← slice_u32 b 32;
  total_entries ← slice_u32 b 36;
  col_data_offset ← slice_u64 b 40;
  Ok {| magic := magic; version := byte_to_Z version; padding := padding; chunk_id := chunk_id;
        time_start_ns := time_start_ns; time_end_ns := time_end_ns;
        series_count := series_count; total_entries := total_entries;
        col_data_offset := col_data_offset |}.

(** [parse_bloom_from_buf]. *)
Definition parse_bloom_from_buf (b : bytes) : result bloom :=
  _ ← ensure (BLOOM_HEADER_SIZE <=? len b) "bloom footer offset points outside file bounds";
  bitmap_bits ← slice_u64 b 0;
  k_num ← slice_u32 b 8;
  k00 ← slice_u64 b 12;
  k01 ← slice_u64 b 20;
  k10 ← slice_u64 b 28;
  k11 ← slice_u64 b 36;
  bloom_len ← slice_u32 b 44;
  _ ← ensure (48 + bloom_len <=? len b) "bloom bitmap extends beyond file bounds";
  map ← slice b 48 bloom_len;
  Ok (bloom_from_existing map bitmap_bits k_num ((k00, k01), (k10, k11))).

(** The directory scan of [find_series]: [n] entries from [cursor] on. *)
Fixpoint find_loop (n : nat) (b : bytes) (cursor : Z) (key_bytes : bytes) : result (option (Z * Z)) :=
  match n with
  | O => Ok None
  | S n' =>
      key_len ← slice_u32 b cursor;
      found ← (if len key_bytes =? key_len then
                 k ← slice b (cursor + U32_SIZE) key_len; Ok (bool_decide (key_bytes = k))
               else Ok false);
      if found : bool then
        let ts_cursor := cursor + U32_SIZE + key_len + U32_SIZE in
        ts_col_offset ← slice_u64 b ts_cursor;
        val_col_offset ← slice_u64 b (ts_cursor + U64_SIZE);
        Ok (Some (ts_col_offset, val_col_offset))
      else find_loop n' b (cursor + (key_len + DIR_ENTRY_FIXED_SIZE)) key_bytes
  end.

(** [find_series]. *)
Definition find_series (b : bytes) (count : Z) (key : SeriesKey) : result (option (Z * Z)) :=
  find_loop (Z.to_nat count) b HEADER_SIZE (to_bytes key).

(** [retrieve_data]. *)
Definition retrieve_data (b : bytes) (key : SeriesKey) (ts_offset val_offset : Z)
    (start_ns end_ns : option Z) : result (list DataPoint) :=
  ts_len ← slice_u32 b ts_offset;
  ts_block ← slice b (wrap_u64 (ts_offset + COL_LEN_SIZE)) ts_len;
  ts_decompressed ← decompress_size_prepended ts_block;
  val_len ← slice_u32 b val_offset;
  val_block ← slice b (wrap_u64 (val_offset + COL_LEN_SIZE)) val_len;
  val_decompressed ← decompress_size_prepended val_block;
  _ ← ensure (len val_decompressed =? len ts_decompressed)
        "length mismatch between timestamp and value columns";
  ts_deltas ← bytes_to_i64_slice ts_decompressed;
  val_decoded ← bytes_to_f64_slice val_decompressed;
  let ts_decoded := delta_decode ts_deltas in
  Ok (map (λ q : Z * f64, {| metric_name := sk_metric_name key; tags := sk_tags key;
                             timestamp_ns := q.1; value := q.2 |})
        (List.filter (λ q : Z * f64,
             (default i64_min start_ns <=? q.1) && (q.1 <=? default i64_max end_ns))
           (combine ts_decoded val_decoded))).

(** [ChunkReader::read_series] on the file's bytes. *)
Definition read_series_bytes (b : bytes) (key : SeriesKey) (start_ns end_ns : Z)
    : result (option (list DataPoint)) :=
  _ ← is_magic_valid b;
  _ ← is_checksum_valid b;
  header ← parse_header b;
  if negb (is_within_global_range start_ns end_ns header) then Ok None
  else
    found ← find_series b (series_count header) key;
    match found with
    | None => Ok None
    | Some (ts_offset, val_offset) =>
        data ← retrieve_data b key ts_offset val_offset (Some start_ns) (Some end_ns);
        Ok (Some data)
    end.

Definition read_series (fs : Fs) (path : string) (key : SeriesKey) (start_ns end_ns : Z)
    : result (option (list DataPoint)) :=
  b ← fs_read fs path; read_series_bytes b key start_ns end_ns.

(** The directory walk of [read_chunk]. *)
Fixpoint read_loop (n : nat) (b : bytes) (cursor : Z) (data : list DataPoint)
    : result (list DataPoint) :=
  match n with
  | O => Ok data
  | S n' =>
      key_len ← slice_u32 b cursor;
      key_bytes ← slice b (cursor + U32_SIZE) key_len;
      series_key ← from_bytes key_bytes;
      let ts_cursor := cursor + U32_SIZE + key_len + U32_SIZE in
      ts_col_offset ← slice_u64 b ts_cursor;
      val_col_offset ← slice_u64 b (ts_cursor + U64_SIZE);
      series ← retrieve_data b series_key ts_col_offset val_col_offset None None;
      read_loop n' b (cursor + (key_len + DIR_ENTRY_FIXED_SIZE)) (data ++ series)
  end.

(** [ChunkReader::read_chunk]. *)
Definition read_chunk_bytes (b : bytes) : result (list DataPoint) :=
  _ ← is_magic_valid b;
  _ ← is_checksum_valid b;
  header ← parse_header b;
  read_loop (Z.to_nat (series_count header)) b HEADER_SIZE [].

Definition read_chunk (fs : Fs) (path : string) : result (list DataPoint) :=
  b ← fs_read fs path; read_chunk_bytes b.

(** [read_exact] of [n] bytes at [off]. *)
Definition read_exact (b : bytes) (off n : Z) : result bytes :=
  if (0 <=? off) && (0 <=? n) && (off + n <=? len b) then Ok (sub b off n)
  else Err "unexpected end of file".

(** [ChunkReader::check_bloom] on the file's bytes: footer offset from the last
    twelve bytes, then the bloom section up to the checksum. *)
Definition check_bloom_bytes (b : bytes) (key : SeriesKey) : result bool :=
  let file_size := len b in
  _ ← ensure (FOOTER_TAIL_SIZE <=? file_size) "chunk file too small to contain footer";
  tail ← read_exact b (file_size - FOOTER_TAIL_SIZE) FOOTER_TAIL_SIZE;
  let footer_offset := le_Z (take 8 tail) in
  _ ← ensure (wrap_u64 (CHECKSUM_SIZE + footer_offset) <=? file_size)
        "bloom footer offset points outside file bounds";
  bloom_buf ← read_exact b footer_offset (file_size - CHECKSUM_SIZE - footer_offset);
  bloom ← parse_bloom_from_buf bloom_buf;
  Ok (bloom_check bloom (to_bytes key)).

Definition check_bloom (fs : Fs) (path : string) (key : SeriesKey) : result bool :=
  b ← fs_read fs path; check_bloom_bytes b key.

End Reader.

(** ** Finding what was written *)

(** The bytes [m] stand at offset [off] of [b]. *)
Definition at_off (b : bytes) (off : Z) (m : bytes) : Prop :=
  ∃ pre post, b = pre ++ m ++ post ∧ off = len pre.

Lemma at_off_start m post : at_off (m ++ post) 0 m.
Proof. by exists [], post. Qed.

Lemma at_off_l b off m m' : at_off b off (m ++ m') → at_off b off m.
Proof. intros (pre & post & -> & ->). exists pre, (m' ++ post). by rewrite <-app_assoc. Qed.

Lemma at_off_r b off m m' : at_off b off (m ++ m') → at_off b (off + len m) m'.
Proof.
  intros (pre & post & -> & ->). exists (pre ++ m), post. rewrite len_app. split; [|lia].
  by rewrite <-!app_assoc.
Qed.

Lemma at_off_mid b pre m post : b = pre ++ m ++ post → at_off b (len pre) m.
Proof. intros ->. by exists pre, post. Qed.

Lemma at_off_nonneg b off m : at_off b off m → 0 <= off ∧ off + len m <= len b.
Proof.
  intros (pre & post & -> & ->). rewrite !len_app.
  pose proof (len_nonneg pre). pose proof (len_nonneg post). lia.
Qed.

Lemma slice_at b off m n :
  at_off b off m → n = len m → len b < u64_mod → slice b off n = Ok m.
Proof.
  intros Hat -> Hb. pose proof (at_off_nonneg _ _ _ Hat) as [? ?]. pose proof (len_nonneg m).
  unfold slice. rewrite wrap_u64_id by (unfold in_u64; lia).
  replace ((off <=? off + len m) && (off + len m <=? len b)) with true by lia.
  destruct Hat as (pre & post & -> & ->). f_equal. apply sub_app_mid; lia.
Qed.

Lemma slice_u32_at b off z :
  at_off b off (le_bytes 4 z) → in_u32 z → len b < u64_mod → slice_u32 b off = Ok z.
Proof.
  intros. unfold slice_u32. erewrite slice_at; [|done|by rewrite len_le_bytes|done].
  simpl. by rewrite le_u32_roundtrip.
Qed.

Lemma slice_u64_at b off z :
  at_off b off (le_bytes 8 z) → in_u64 z → len b < u64_mod → slice_u64 b off = Ok z.
Proof.
  intros. unfold slice_u64. erewrite slice_at; [|done|by rewrite len_le_bytes|done].
  simpl. by rewrite le_u64_roundtrip.
Qed.

Lemma slice_i64_at b off z :
  at_off b off (le_bytes 8 z) → in_i64 z → len b < u64_mod → slice_i64 b off = Ok z.
Proof.
  intros. unfold slice_i64. erewrite slice_at; [|done|by rewrite len_le_bytes|done].
  simpl. by rewrite le_i64_roundtrip.
Qed.

(** Errors, never a panic: [slice] fails exactly outside the buffer. *)
Lemma slice_outside b off n :
  0 <= off → 0 <= n → off + n < u64_mod → len b < off + n → is_ok (slice b off n) = false.
Proof.
  intros. unfold slice. rewrite wrap_u64_id by (unfold in_u64; lia).
  by replace ((off <=? off + n) && (off + n <=? len b)) with false by lia.
Qed.

(** ** What the reader checks *)

Lemma ensure_Ok_inv c e u : ensure c e = Ok u → c = true.
Proof. unfold ensure. by destruct c. Qed.

Section Checks.
Context `{Crc32, Lz4}.

(** The file is long enough, starts with the magic and ends with the checksum of the rest. *)
Definition file_sound (b : bytes) : Prop :=
  HEADER_SIZE <= len b ∧ le_Z (sub b 0 4) = MAGIC ∧
  crc32 (take (length b - 4) b) = le_Z (drop (length b - 4) b).

Lemma checks_sound b h :
  is_magic_valid b = Ok () → is_checksum_valid b = Ok () → parse_header b = Ok h → file_sound b.
Proof.
  intros Hm Hc Hh. unfold is_magic_valid in Hm. apply bind_Ok_inv in Hm as (m & Es & Em%ensure_Ok_inv).
  unfold slice_u32 in Es. apply bind_Ok_inv in Es as (s & Es & [= <-]). unfold slice in Es.
  destruct (_ && _); [|done]. injection Es as <-.
  unfold is_checksum_valid in Hc. apply bind_Ok_inv in Hc as (_ & _ & Hc%ensure_Ok_inv).
  unfold parse_header in Hh. apply bind_Ok_inv in Hh as (_ & Hl%ensure_Ok_inv & _). zbool. done.
Qed.

Lemma retrieve_sound b key ts_offset val_offset lo hi points :
  retrieve_data b key ts_offset val_offset (Some lo) (Some hi) = Ok points →
  Forall (λ p, point_key p = key ∧ lo <= timestamp_ns p <= hi) points.
Proof.
  unfold retrieve_data. intros E. repeat (apply bind_Ok_inv in E as (? & _ & E)). injection E as <-.
  apply Forall_forall. intros p (q & -> & [_ Hq]%elem_of_filterb)%elem_of_map. cbn in Hq.
  split; [by destruct key|]. cbn. lia.
Qed.

End Checks.
