(* ===== verification/ChunkFile.v ===== *)
(** * Chunk files: what is written is read back

    The contract between [ChunkWriter] and [ChunkReader].  For a chunk that fits
    the format's field widths ([chunk_fits]), a query on one series returns
    exactly the stored points of the range, reading the whole chunk returns every
    stored point, and the bloom filter admits every stored series. *)
From S2P Require Import Prelude BTree F64 Externals Types Memtable Fs ChunkFormat ChunkWriter ChunkReader.

Abbreviation SeriesData := (list (SeriesKey * list (Z * f64))).

(** The points of a vector that lie in the inclusive range. *)
Definition in_time_range (lo hi : Z) (q : Z * f64) : bool := (lo <=? q.1) && (q.1 <=? hi).

(** Split [at_off b off (m1 ++ .. ++ mn)] into one fact per field, the last one
    under the name given. *)
Ltac split_at H :=
  repeat match type of H with
  | at_off _ _ (_ ++ _) =>
      let F := fresh "F" in pose proof (at_off_l _ _ _ _ H) as F; apply at_off_r in H
  end.

Section Contract.
Context `{XxHash, Crc32, Lz4, BloomFilter}.

(** Everything stored in fixed-width fields fits them. *)
Record chunk_fits (id : Z) (p : Pass1) : Prop := {
  fits_id : in_u64 id;
  fits_series : Forall (λ s, in_u32 (len (es_key_bytes s)) ∧ in_u32 (len (es_ts_compressed s)) ∧
                             in_u32 (len (es_val_compressed s))) (p1_encoded p);
  fits_count : in_u32 (len (p1_encoded p));
  fits_bitmap : in_u32 (len (bitmap (p1_bloom p)));
  fits_file : len (chunk_bytes id p) < u64_mod
}.

(** The values the caller's types allow, and columns below 4 GiB. *)
Definition values_wf (data : SeriesData) : Prop :=
  Forall (λ e, Forall (λ q, in_i64 q.1 ∧ f64_wf q.2) e.2 ∧ 8 * len e.2 < u32_mod) data.

(** The chunk of [data]: the result of pass 1. *)
Definition chunk_of (data : SeriesData) (seed : Z) (p : Pass1) : Prop :=
  pass1 data (pass1_init data seed) = Ok p.

(** ** The layout *)

Definition col_base (p : Pass1) : Z := HEADER_SIZE + dir_size (p1_encoded p).
Definition offsets (id : Z) (p : Pass1) : list (Z * Z) := (pass2 id (col_base p) (p1_encoded p)).1.

Lemma chunk_bytes_layout id p :
  chunk_bytes id p =
  header_to_bytes (chunk_header id p) ++ directory (p1_encoded p) (offsets id p) ++
  flat_map column_data (p1_encoded p) ++ bloom_section (p1_bloom p) ++
  le_bytes 8 (col_base p + len (flat_map column_data (p1_encoded p))) ++
  le_bytes 4 (crc32 (chunk_body id p)).
Proof.
  unfold chunk_bytes. unfold chunk_body at 1. fold (col_base p). fold (offsets id p).
  rewrite <-!app_assoc. do 4 f_equal. rewrite !len_app.
  rewrite len_header_to_bytes by done.
  rewrite len_directory by (unfold offsets; apply length_pass2). f_equal. f_equal.
  unfold col_base. lia.
Qed.

Lemma chunk_header_at id p : at_off (chunk_bytes id p) 0 (header_to_bytes (chunk_header id p)).
Proof. rewrite chunk_bytes_layout. apply at_off_start. Qed.

Lemma chunk_directory_at id p :
  at_off (chunk_bytes id p) HEADER_SIZE (directory (p1_encoded p) (offsets id p)).
Proof.
  rewrite <-(len_header_to_bytes (chunk_header id p)) by done.
  eapply at_off_mid. apply chunk_bytes_layout.
Qed.

Lemma chunk_columns_at id p :
  at_off (chunk_bytes id p) (col_base p) (flat_map column_data (p1_encoded p)).
Proof.
  replace (col_base p) with
    (len (header_to_bytes (chunk_header id p) ++ directory (p1_encoded p) (offsets id p))).
  - eapply at_off_mid. rewrite chunk_bytes_layout, <-!app_assoc. done.
  - rewrite len_app, len_header_to_bytes by done. unfold offsets.
    rewrite len_directory by apply length_pass2. done.
Qed.

(** The columns of the series at a position of the directory. *)
Lemma chunk_column_at id p pre s post :
  p1_encoded p = pre ++ s :: post →
  at_off (chunk_bytes id p) (col_base p + len (flat_map column_data pre)) (column_data s).
Proof.
  intros He. pose proof (chunk_columns_at id p) as Hat. rewrite He, flat_map_app in Hat.
  apply at_off_r in Hat. cbn [flat_map] in Hat. by apply at_off_l in Hat.
Qed.

(** ** The header *)

Lemma fold_min_range (l : list EncodedSeries) a :
  in_i64 a → Forall (λ s, in_i64 (es_time_start_ns s)) l →
  in_i64 (fold_left (λ m s, Z.min m (es_time_start_ns s)) l a).
Proof.
  intros Ha Hl. revert a Ha. induction Hl as [|s l Hs ? IH]; intros a Ha; simpl; [done|].
  apply IH. width.
Qed.

Lemma fold_max_range (l : list EncodedSeries) a :
  in_i64 a → Forall (λ s, in_i64 (es_time_end_ns s)) l →
  in_i64 (fold_left (λ m s, Z.max m (es_time_end_ns s)) l a).
Proof.
  intros Ha Hl. revert a Ha. induction Hl as [|s l Hs ? IH]; intros a Ha; simpl; [done|].
  apply IH. width.
Qed.

Lemma fold_min_le (l : list EncodedSeries) a s :
  s ∈ l → fold_left (λ m s, Z.min m (es_time_start_ns s)) l a <= es_time_start_ns s.
Proof.
  assert (∀ l a, fold_left (λ m s, Z.min m (es_time_start_ns s)) l a <= a) as Hle.
  { clear. induction l as [|s l IH]; intros a; simpl; [done|]. etrans; [apply IH|lia]. }
  revert a. induction l as [|s' l IH]; intros a Hin; [by apply elem_of_nil in Hin|].
  apply elem_of_cons in Hin as [->|Hin]; simpl; [|by apply IH].
  etrans; [apply Hle|lia].
Qed.

Lemma fold_max_ge (l : list EncodedSeries) a s :
  s ∈ l → es_time_end_ns s <= fold_left (λ m s, Z.max m (es_time_end_ns s)) l a.
Proof.
  assert (∀ l a, a <= fold_left (λ m s, Z.max m (es_time_end_ns s)) l a) as Hle.
  { clear. induction l as [|s l IH]; intros a; simpl; [done|]. etrans; [|apply IH]. lia. }
  revert a. induction l as [|s' l IH]; intros a Hin; [by apply elem_of_nil in Hin|].
  apply elem_of_cons in Hin as [->|Hin]; simpl; [|by apply IH].
  etrans; [|apply Hle]. lia.
Qed.

Lemma le_bytes_1_head z : 0 <= z < 256 → ∃ v, le_bytes 1 z = [v] ∧ byte_to_Z v = z.
Proof.
  intros Hz. exists (byte_of_Z z). split; [done|]. rewrite byte_to_of_Z. by apply Z.mod_small.
Qed.

(** The fields of a header that its widths can hold. *)
Definition header_wf (h : ChunkHeader) : Prop :=
  in_u32 (magic h) ∧ 0 <= version h < 256 ∧ len (padding h) = 3 ∧ in_u64 (chunk_id h) ∧
  in_i64 (time_start_ns h) ∧ in_i64 (time_end_ns h) ∧ in_u32 (series_count h) ∧
  in_u32 (total_entries h) ∧ in_u64 (col_data_offset h).

Lemma parse_header_at b h :
  at_off b 0 (header_to_bytes h) → header_wf h → len b < u64_mod → parse_header b = Ok h.
Proof.
  intros Hat (Hm & Hv & Hp & Hid & Hs & He & Hc & Ht & Ho) Hb.
  pose proof (at_off_nonneg _ _ _ Hat) as [_ Hlen]. rewrite len_header_to_bytes in Hlen by done.
  unfold header_to_bytes in Hat.
  split_at Hat.
  rewrite !len_le_bytes, ?Hp in *. simpl Z.of_nat in *. simpl Z.add in *.
  destruct (le_bytes_1_head (version h) Hv) as (v & Ev & Hv').
  unfold parse_header. replace (HEADER_SIZE <=? len b) with true by lia.
  rewrite (slice_u32_at b 0 (magic h)) by done.
  rewrite (slice_at b 4 (le_bytes 1 (version h))) by done. rewrite Ev.
  rewrite (slice_at b 5 (padding h)) by done.
  rewrite (slice_u64_at b 8 (chunk_id h)) by done.
  rewrite (slice_i64_at b 16 (time_start_ns h)) by done.
  rewrite (slice_i64_at b 24 (time_end_ns h)) by done.
  rewrite (slice_u32_at b 32 (series_count h)) by done.
  rewrite (slice_u32_at b 36 (total_entries h)) by done.
  rewrite (slice_u64_at b 40 (col_data_offset h)) by done.
  simpl. rewrite Hv'. by destruct h.
Qed.

(** ** Magic and checksum *)

Context `{!Crc32Laws, !Lz4Laws, !BloomLaws}.

Lemma chunk_magic_valid id p : len (chunk_bytes id p) < u64_mod → is_magic_valid (chunk_bytes id p) = Ok ().
Proof.
  intros Hb. pose proof (chunk_header_at id p) as Hat. unfold header_to_bytes in Hat.
  apply at_off_l in Hat. unfold is_magic_valid.
  by rewrite (slice_u32_at _ 0 MAGIC) by done.
Qed.

Lemma chunk_checksum_valid id p : is_checksum_valid (chunk_bytes id p) = Ok ().
Proof.
  unfold is_checksum_valid, chunk_bytes. set (body := chunk_body id p).
  rewrite len_app, len_le_bytes. pose proof (len_nonneg body).
  replace (CHECKSUM_SIZE <=? len body + Z.of_nat 4) with true
    by (symmetry; apply Z.leb_le; unfold CHECKSUM_SIZE, U32_SIZE; lia).
  rewrite length_app, length_le_bytes.
  replace (length body + 4 - 4)%nat with (length body) by lia.
  rewrite take_app_length, drop_app_length, le_u32_roundtrip by apply crc32_range.
  by rewrite Z.eqb_refl.
Qed.

(** ** The directory *)

(** Reference scan: the offsets of the first series with these key bytes. *)
Fixpoint find_encoded (encs : list EncodedSeries) (offs : list (Z * Z)) (kb : bytes) : option (Z * Z) :=
  match encs, offs with
  | s :: encs', o :: offs' =>
      if decide (kb = es_key_bytes s) then Some o else find_encoded encs' offs' kb
  | _, _ => None
  end.

Definition dir_fits (encs : list EncodedSeries) (offs : list (Z * Z)) : Prop :=
  length offs = length encs ∧ Forall (λ s, in_u32 (len (es_key_bytes s))) encs ∧
  Forall (λ o, in_u64 o.1 ∧ in_u64 o.2) offs.

Lemma dir_fits_cons s encs o offs :
  dir_fits (s :: encs) (o :: offs) →
  in_u32 (len (es_key_bytes s)) ∧ in_u64 o.1 ∧ in_u64 o.2 ∧ dir_fits encs offs.
Proof.
  intros (Hl & Hk & Ho). apply Forall_cons in Hk as [? ?]. apply Forall_cons in Ho as [[? ?] ?].
  simpl in Hl. do 3 (split; [done|]). split; [lia|done].
Qed.

(** One directory entry, field by field. *)
Lemma directory_entry_at b cursor s o rest :
  at_off b cursor (build_directory_entry s o.1 o.2 ++ rest) →
  in_u32 (len (es_key_bytes s)) → in_u64 o.1 → in_u64 o.2 → len b < u64_mod →
  slice_u32 b cursor = Ok (len (es_key_bytes s)) ∧
  slice b (cursor + U32_SIZE) (len (es_key_bytes s)) = Ok (es_key_bytes s) ∧
  slice_u64 b (cursor + U32_SIZE + len (es_key_bytes s) + U32_SIZE) = Ok o.1 ∧
  slice_u64 b (cursor + U32_SIZE + len (es_key_bytes s) + U32_SIZE + U64_SIZE) = Ok o.2 ∧
  at_off b (cursor + (len (es_key_bytes s) + DIR_ENTRY_FIXED_SIZE)) rest.
Proof.
  intros Hat Hk Ho1 Ho2 Hb. pose proof Hat as Hrest. apply at_off_r in Hrest.
  rewrite len_directory_entry, (Z.add_comm DIR_ENTRY_FIXED_SIZE) in Hrest.
  apply at_off_l in Hat. unfold build_directory_entry in Hat. split_at Hat.
  rewrite ?len_le_bytes in *. change (Z.of_nat 4) with U32_SIZE in *.
  change (Z.of_nat 8) with U64_SIZE in *.
  split; [by apply slice_u32_at|]. split; [by apply slice_at|].
  split; [by apply slice_u64_at|]. split; [by apply slice_u64_at|done].
Qed.

Lemma find_loop_directory b cursor encs offs kb :
  at_off b cursor (directory encs offs) → dir_fits encs offs → len b < u64_mod →
  find_loop (length encs) b cursor kb = Ok (find_encoded encs offs kb).
Proof.
  revert cursor offs. induction encs as [|s encs IH]; intros cursor offs Hat Hf Hb; [done|].
  destruct offs as [|[o1 o2] offs]; [by destruct Hf|].
  apply dir_fits_cons in Hf as (Hk & Ho1 & Ho2 & Hf). cbn [directory] in Hat.
  destruct (directory_entry_at b cursor s (o1, o2) _ Hat Hk Ho1 Ho2 Hb) as (E1 & E2 & E3 & E4 & Hrest).
  cbn [find_loop length find_encoded]. rewrite E1. cbn [mbind result_bind].
  destruct (decide (kb = es_key_bytes s)) as [->|Hne].
  - rewrite Z.eqb_refl, E2. cbn [mbind result_bind]. rewrite bool_decide_eq_true_2 by done.
    rewrite E3. cbn [mbind result_bind]. by rewrite E4.
  - destruct (len kb =? len (es_key_bytes s)); [rewrite E2|]; cbn [mbind result_bind].
    + rewrite bool_decide_eq_false_2 by done. by apply IH.
    + by apply IH.
Qed.

(** ** Columns *)

Lemma encodes_fields e s :
  encodes e s →
  es_key s = e.1 ∧ es_key_bytes s = to_bytes e.1 ∧
  es_time_start_ns s = hd 0 (map fst e.2) ∧ es_time_end_ns s = List.last (map fst e.2) 0 ∧
  es_ts_compressed s = compress_prepend_size (i64_slice_to_bytes (delta_encode (map fst e.2))) ∧
  es_val_compressed s = compress_prepend_size (f64_slice_to_bytes (map snd e.2)) ∧
  from_values (map snd e.2) = Some (es_stats s).
Proof.
  unfold encodes, encode_series. destruct (from_values (map snd e.2)); [|done].
  intros [= <-]. done.
Qed.

Lemma combine_fst_snd {A B} (l : list (A * B)) : combine (map fst l) (map snd l) = l.
Proof. induction l as [|[a b] l IH]; simpl; [done|]. by rewrite IH. Qed.

Lemma retrieve_data_at b key off k pts s lo hi :
  at_off b off (column_data s) → encodes (k, pts) s →
  Forall (λ q, in_i64 q.1 ∧ f64_wf q.2) pts → 8 * len pts < u32_mod →
  in_u32 (len (es_ts_compressed s)) → in_u32 (len (es_val_compressed s)) → len b < u64_mod →
  retrieve_data b key off (off + (U32_SIZE + len (es_ts_compressed s))) lo hi =
  Ok (map (to_point key) (List.filter (in_time_range (default i64_min lo) (default i64_max hi)) pts)).
Proof.
  intros Hat (_ & _ & _ & _ & Ets & Eval & _)%encodes_fields Hpts Hlen Hts Hval Hb. simpl in *.
  pose proof (at_off_nonneg _ _ _ Hat) as [Hoff Hend]. rewrite len_column_data in Hend.
  pose proof (len_nonneg (es_ts_compressed s)). pose proof (len_nonneg (es_val_compressed s)).
  unfold U32_SIZE in *. unfold column_data in Hat. split_at Hat.
  rewrite ?len_le_bytes in *. change (Z.of_nat 4) with 4 in *.
  unfold retrieve_data, COL_LEN_SIZE, U32_SIZE.
  rewrite !wrap_u64_id by (unfold in_u64; lia).
  assert (decompress_size_prepended (es_ts_compressed s) =
          Ok (i64_slice_to_bytes (delta_encode (map fst pts)))) as Dts.
  { rewrite Ets. apply lz4_roundtrip. rewrite len_i64_slice. unfold len.
    by rewrite length_delta_encode, length_map. }
  assert (decompress_size_prepended (es_val_compressed s) =
          Ok (f64_slice_to_bytes (map snd pts))) as Dval.
  { rewrite Eval. apply lz4_roundtrip. by rewrite len_f64_slice, len_map. }
  rewrite (slice_u32_at b off (len (es_ts_compressed s))) by done. cbn [mbind result_bind].
  rewrite (slice_at b _ (es_ts_compressed s)) by done. cbn [mbind result_bind].
  rewrite Dts. cbn [mbind result_bind].
  rewrite (slice_u32_at b _ (len (es_val_compressed s))) by (done || by rewrite Z.add_assoc).
  cbn [mbind result_bind].
  rewrite (slice_at b (off + (4 + len (es_ts_compressed s)) + 4) (es_val_compressed s))
    by (done || by rewrite Z.add_assoc).
  cbn [mbind result_bind]. rewrite Dval. cbn [mbind result_bind].
  rewrite len_f64_slice, len_i64_slice. unfold len at 1 2.
  rewrite length_delta_encode, !length_map, Z.eqb_refl. cbn [mbind result_bind ensure].
  rewrite i64_slice_roundtrip, f64_slice_roundtrip.
  - cbn [mbind result_bind]. rewrite delta_decode_encode, combine_fst_snd; [done|].
    apply Forall_map. eapply Forall_impl; [exact Hpts|]. naive_solver.
  - apply Forall_map. eapply Forall_impl; [exact Hpts|]. naive_solver.
  - apply delta_encode_range, Forall_map. eapply Forall_impl; [exact Hpts|]. naive_solver.
Qed.

(** ** The encoded series of a chunk *)

Lemma chunk_of_spec data seed p :
  chunk_of data seed p →
  Forall2 encodes (non_empty data) (p1_encoded p) ∧
  p1_min_ts p = fold_left (λ m s, Z.min m (es_time_start_ns s)) (p1_encoded p) i64_max ∧
  p1_max_ts p = fold_left (λ m s, Z.max m (es_time_end_ns s)) (p1_encoded p) i64_min ∧
  p1_bloom p = fold_left (λ b s, bloom_set b (es_key_bytes s)) (p1_encoded p)
                 (bloom_new_for_fp_rate (Z.max (len data) 1) seed).
Proof.
  unfold chunk_of. intros Hp.
  destruct (pass1_spec data (pass1_init data seed)) as (encs & p' & Hp' & He & Hf & Hrest).
  rewrite Hp in Hp'. simplify_eq. simpl in He. by rewrite He.
Qed.

Lemma chunk_of_total data seed p : chunk_of data seed p → in_u32 (p1_total_entries p).
Proof.
  unfold chunk_of. assert (in_u32 (p1_total_entries (pass1_init data seed))) as Hi by done.
  revert Hi. generalize (pass1_init data seed) as st.
  induction data as [|[key [|q points]] data IH]; intros st Hi Hp.
  - by injection Hp as <-.
  - by apply (IH st).
  - destruct (pass1_cons st key q points data) as (s & _ & E). rewrite E in Hp.
    eapply IH; [|exact Hp]. apply wrap_u32_range.
Qed.

Lemma elem_of_non_empty data e : e ∈ non_empty data ↔ e ∈ data ∧ e.2 ≠ [].
Proof. unfold non_empty. rewrite elem_of_filterb. destruct e.2; naive_solver. Qed.

(** The encoding of a stored series. *)
Lemma encoded_of data seed p k pts :
  chunk_of data seed p → (k, pts) ∈ data → pts ≠ [] →
  ∃ d1 d2 e1 s e2, non_empty data = d1 ++ (k, pts) :: d2 ∧ p1_encoded p = e1 ++ s :: e2 ∧
    encodes (k, pts) s ∧ Forall2 encodes d1 e1 ∧ Forall2 encodes d2 e2.
Proof.
  intros (Hf & _)%chunk_of_spec Hin Hne.
  assert ((k, pts) ∈ non_empty data) as Hin' by (by apply elem_of_non_empty).
  apply list_elem_of_split in Hin' as (d1 & d2 & Hd). rewrite Hd in Hf.
  apply Forall2_app_inv_l in Hf as (e1 & e' & Hf1 & Hf2 & He).
  apply Forall2_cons_inv_l in Hf2 as (s & e2 & Hs & Hf2 & ->). by exists d1, d2, e1, s, e2.
Qed.

(** Every encoding comes from a stored series. *)
Lemma encoded_from data seed p s :
  chunk_of data seed p → s ∈ p1_encoded p →
  ∃ k pts, (k, pts) ∈ data ∧ pts ≠ [] ∧ encodes (k, pts) s.
Proof.
  intros (Hf & _)%chunk_of_spec Hin. apply list_elem_of_split in Hin as (e1 & e2 & He).
  rewrite He in Hf. apply Forall2_app_inv_r in Hf as (d1 & d' & _ & Hf2 & Hd).
  apply Forall2_cons_inv_r in Hf2 as ([k pts] & d2 & Hs & _ & ->).
  assert ((k, pts) ∈ non_empty data) as [? ?]%elem_of_non_empty by (rewrite Hd; set_solver).
  by exists k, pts.
Qed.

Lemma sorted_hd_last (l : list (Z * f64)) q :
  bt_wf l → q ∈ l → hd 0 (map fst l) <= q.1 <= List.last (map fst l) 0.
Proof.
  intros Hwf Hin. split.
  - destruct l as [|[t v] l]; [by apply elem_of_nil in Hin|]. simpl.
    apply bt_wf_cons_inv in Hwf as [_ Hlt]. apply elem_of_cons in Hin as [->|Hin]; [done|].
    rewrite Forall_forall in Hlt. specialize (Hlt _ Hin).
    rewrite cmp_Z_lt in Hlt. lia.
  - revert q Hin. induction l as [|[t v] l IH]; intros q Hin; [by apply elem_of_nil in Hin|].
    apply bt_wf_cons_inv in Hwf as [Hwf Hlt]. destruct l as [|[t' v'] l].
    + apply list_elem_of_singleton in Hin as ->. done.
    + change (List.last (map fst ((t, v) :: (t', v') :: l)) 0)
        with (List.last (map fst ((t', v') :: l)) 0).
      apply elem_of_cons in Hin as [->|Hin]; [|by apply IH].
      etrans; [|apply (IH Hwf (t', v')); left].
      apply Forall_cons in Hlt as [Hlt _]. rewrite cmp_Z_lt in Hlt. simpl in *. lia.
Qed.

Lemma hd_last_In (l : list (Z * f64)) :
  l ≠ [] → (∃ q, q ∈ l ∧ q.1 = hd 0 (map fst l)) ∧ (∃ q, q ∈ l ∧ q.1 = List.last (map fst l) 0).
Proof.
  intros Hne. split.
  - destruct l as [|q l]; [done|]. exists q. split; [left|done].
  - destruct (exists_last Hne) as (l' & q & ->). exists q. split; [set_solver|].
    rewrite map_app. simpl. by rewrite last_last.
Qed.

(** Points well formed, vectors sorted: what the caller guarantees of the data. *)
Definition chunk_data_wf (data : SeriesData) : Prop :=
  bt_wf data ∧ Forall (λ e, bt_wf e.2) data ∧ values_wf data.

Lemma chunk_data_entry data k pts :
  chunk_data_wf data → (k, pts) ∈ data →
  bt_wf pts ∧ Forall (λ q, in_i64 q.1 ∧ f64_wf q.2) pts ∧ 8 * len pts < u32_mod.
Proof.
  intros (_ & Hs & Hv) Hin. unfold values_wf in Hv. rewrite Forall_forall in Hs, Hv.
  destruct (Hv _ Hin). split; [apply (Hs _ Hin)|done].
Qed.

Lemma encoded_times data seed p s :
  chunk_of data seed p → chunk_data_wf data → s ∈ p1_encoded p →
  in_i64 (es_time_start_ns s) ∧ in_i64 (es_time_end_ns s).
Proof.
  intros Hp Hwf Hin. destruct (encoded_from _ _ _ _ Hp Hin) as (k & pts & Hk & Hne & Hs).
  destruct (chunk_data_entry _ _ _ Hwf Hk) as (_ & Hv & _). rewrite Forall_forall in Hv.
  apply encodes_fields in Hs as (_ & _ & -> & -> & _). simpl.
  destruct (hd_last_In pts Hne) as [(q & Hq & <-) (q' & Hq' & <-)].
  split; [apply (Hv _ Hq)|apply (Hv _ Hq')].
Qed.

(** Every stored point lies in the header's time range. *)
Lemma point_in_header_range data seed p k pts q :
  chunk_of data seed p → chunk_data_wf data → (k, pts) ∈ data → q ∈ pts →
  p1_min_ts p <= q.1 <= p1_max_ts p.
Proof.
  intros Hp Hwf Hk Hq. destruct (chunk_data_entry _ _ _ Hwf Hk) as (Hs & _).
  assert (pts ≠ []) as Hne by (by intros ->; apply elem_of_nil in Hq).
  destruct (encoded_of _ _ _ _ _ Hp Hk Hne) as (d1 & d2 & e1 & s & e2 & _ & He & Hes & _).
  destruct (chunk_of_spec _ _ _ Hp) as (_ & -> & -> & _).
  assert (s ∈ p1_encoded p) as Hin by (rewrite He; set_solver).
  pose proof (fold_min_le _ i64_max _ Hin). pose proof (fold_max_ge _ i64_min _ Hin).
  apply encodes_fields in Hes as (_ & _ & Es & Ee & _). simpl in Es, Ee.
  pose proof (sorted_hd_last _ _ Hs Hq). lia.
Qed.

(** ** Offsets *)

Lemma offsets_lookup id p pre s post :
  p1_encoded p = pre ++ s :: post →
  offsets id p !! length pre =
  Some (col_base p + len (flat_map column_data pre),
        col_base p + len (flat_map column_data pre) + (U32_SIZE + len (es_ts_compressed s))).
Proof.
  intros He. unfold offsets. rewrite He, pass2_offsets.
  rewrite lookup_app_r by (by rewrite length_pass2). rewrite length_pass2.
  by rewrite Nat.sub_diag.
Qed.

Lemma offsets_fit id p : chunk_fits id p → Forall (λ o, in_u64 o.1 ∧ in_u64 o.2) (offsets id p).
Proof.
  intros Hfit. apply Forall_lookup. intros i o Hi.
  pose proof (lookup_lt_Some _ _ _ Hi) as Hlt. unfold offsets in Hlt. rewrite length_pass2 in Hlt.
  destruct (lookup_lt_is_Some_2 _ _ Hlt) as [s Hs].
  pose proof (eq_sym (take_drop_middle _ _ _ Hs)) as He.
  pose proof (offsets_lookup id p _ _ _ He) as Ho.
  rewrite length_take_le in Ho by lia. rewrite Hi in Ho. injection Ho as ->. simpl.
  pose proof (chunk_column_at id p _ _ _ He) as Hat.
  apply at_off_nonneg in Hat as [? Hend]. rewrite len_column_data in Hend.
  pose proof (fits_file _ _ Hfit). pose proof (len_nonneg (es_ts_compressed s)).
  pose proof (len_nonneg (es_val_compressed s)). unfold in_u64, U32_SIZE in *. lia.
Qed.

Lemma chunk_dir_fits id p : chunk_fits id p → dir_fits (p1_encoded p) (offsets id p).
Proof.
  intros Hfit. split; [apply length_pass2|]. split; [|by apply offsets_fit].
  eapply Forall_impl; [apply (fits_series _ _ Hfit)|]. naive_solver.
Qed.

Lemma chunk_header_wf data seed id p :
  chunk_of data seed p → chunk_data_wf data → chunk_fits id p → header_wf (chunk_header id p).
Proof.
  intros Hp Hwf Hfit. destruct (chunk_of_spec _ _ _ Hp) as (_ & Hmin & Hmax & _).
  pose proof (at_off_nonneg _ _ _ (chunk_columns_at id p)) as [? ?].
  pose proof (fits_file _ _ Hfit). pose proof (len_nonneg (flat_map column_data (p1_encoded p))).
  unfold header_wf. simpl. rewrite Hmin, Hmax.
  split; [done|]. split; [done|]. split; [done|]. split; [apply (fits_id _ _ Hfit)|].
  split.
  { apply fold_min_range; [width|]. apply Forall_forall. intros s Hs. by eapply encoded_times. }
  split.
  { apply fold_max_range; [width|]. apply Forall_forall. intros s Hs. by eapply encoded_times. }
  split; [apply wrap_u32_range|]. split; [by eapply chunk_of_total|].
  unfold in_u64, col_base in *. lia.
Qed.

Lemma chunk_parse_header data seed id p :
  chunk_of data seed p → chunk_data_wf data → chunk_fits id p →
  parse_header (chunk_bytes id p) = Ok (chunk_header id p).
Proof.
  intros Hp Hwf Hfit. apply parse_header_at.
  - apply chunk_header_at.
  - by eapply chunk_header_wf.
  - apply (fits_file _ _ Hfit).
Qed.

Lemma chunk_find_series id p key :
  chunk_fits id p →
  find_series (chunk_bytes id p) (wrap_u32 (len (p1_encoded p))) key =
  Ok (find_encoded (p1_encoded p) (offsets id p) (to_bytes key)).
Proof.
  intros Hfit. unfold find_series. rewrite wrap_u32_id by apply (fits_count _ _ Hfit).
  unfold len. rewrite Nat2Z.id. apply find_loop_directory.
  - apply chunk_directory_at.
  - by apply chunk_dir_fits.
  - apply (fits_file _ _ Hfit).
Qed.

Lemma find_encoded_first pre s post o offs kb :
  Forall (λ s', es_key_bytes s' ≠ kb) pre → es_key_bytes s = kb →
  offs !! length pre = Some o → find_encoded (pre ++ s :: post) offs kb = Some o.
Proof.
  intros Hpre Hs. revert offs. induction Hpre as [|s' pre Hne ? IH]; intros [|o' offs] Ho; try done.
  - simpl in *. simplify_eq. by rewrite decide_True.
  - simpl in *. rewrite decide_False by congruence. by apply IH.
Qed.

Lemma find_encoded_none encs offs kb :
  Forall (λ s', es_key_bytes s' ≠ kb) encs → find_encoded encs offs kb = None.
Proof.
  intros Hencs. revert offs. induction Hencs as [|s encs Hne ? IH]; intros [|o offs]; simpl; try done.
  rewrite decide_False by congruence. apply IH.
Qed.

(** No other stored key has the bytes of [key]. *)
Definition key_unambiguous (data : SeriesData) (key : SeriesKey) : Prop :=
  ∀ k pts, (k, pts) ∈ data → to_bytes k = to_bytes key → k = key.

Lemma encodes_key_ne data d e key :
  Forall2 encodes d e → (∀ x, x ∈ d → x ∈ data ∧ x.1 ≠ key) → key_unambiguous data key →
  Forall (λ s, es_key_bytes s ≠ to_bytes key) e.
Proof.
  intros Hf Hd Hu. induction Hf as [|[k pts] s d e Hs ? IH]; constructor.
  - apply encodes_fields in Hs as (_ & -> & _). simpl. intros E.
    destruct (Hd (k, pts)) as [Hin Hne]; [left|]. by apply Hne, (Hu k pts).
  - apply IH. intros x Hx. apply Hd. by right.
Qed.

(** ** Reading one series *)

Lemma read_series_found data seed id p key pts lo hi :
  chunk_of data seed p → chunk_data_wf data → chunk_fits id p → key_unambiguous data key →
  (key, pts) ∈ data → pts ≠ [] →
  find_encoded (p1_encoded p) (offsets id p) (to_bytes key) ≠ None ∧
  ∀ o, find_encoded (p1_encoded p) (offsets id p) (to_bytes key) = Some o →
    retrieve_data (chunk_bytes id p) key o.1 o.2 lo hi =
    Ok (map (to_point key)
         (List.filter (in_time_range (default i64_min lo) (default i64_max hi)) pts)).
Proof.
  intros Hp Hwf Hfit Hu Hin Hne.
  destruct (encoded_of _ _ _ _ _ Hp Hin Hne) as (d1 & d2 & e1 & s & e2 & Hd & He & Hs & Hf1 & _).
  assert (Forall (λ s', es_key_bytes s' ≠ to_bytes key) e1) as Hpre.
  { eapply (encodes_key_ne data d1); [done| |done]. intros [k' pts'] Hx. split.
    - assert ((k', pts') ∈ non_empty data) as [? _]%elem_of_non_empty; [|done].
      rewrite Hd. set_solver.
    - destruct Hwf as (Hsort & _). apply (bt_wf_filter (λ e, match e.2 with [] => false | _ => true end)) in Hsort.
      change (bt_wf (non_empty data)) in Hsort. rewrite Hd in Hsort.
      apply bt_wf_app_inv in Hsort as (_ & _ & Hlt). apply cmp_lt_neq.
      apply (Hlt (k', pts') (key, pts)); [done|left]. }
  pose proof (offsets_lookup id p _ _ _ He) as Ho.
  destruct (encodes_fields _ _ Hs) as (_ & Ekb & _).
  rewrite He. erewrite find_encoded_first; [|done|done|exact Ho]. split; [done|].
  intros o [= <-]. simpl.
  destruct (chunk_data_entry _ _ _ Hwf Hin) as (_ & Hv & Hlen).
  pose proof (fits_series _ _ Hfit) as Hfs. rewrite He, Forall_app, Forall_cons in Hfs.
  destruct Hfs as (_ & (_ & ? & ?) & _).
  eapply retrieve_data_at; [by eapply chunk_column_at|done..|]. apply (fits_file _ _ Hfit).
Qed.

Lemma filter_range_outside data seed p key lo hi :
  chunk_of data seed p → chunk_data_wf data →
  p1_max_ts p < lo ∨ hi < p1_min_ts p →
  List.filter (in_time_range lo hi) (series_vec data key) = [].
Proof.
  intros Hp Hwf Hout. unfold series_vec.
  destruct (bt_get data key) as [pts|] eqn:E; [|done]. apply bt_get_Some_In in E. simpl.
  destruct (List.filter _ pts) as [|q l] eqn:Ef; [done|]. exfalso.
  assert (q ∈ List.filter (in_time_range lo hi) pts) as [Hq Hr]%elem_of_filterb
    by (rewrite Ef; left).
  pose proof (point_in_header_range _ _ _ _ _ _ Hp Hwf E Hq).
  unfold in_time_range in Hr. lia.
Qed.

Lemma read_series_written data seed id p key lo hi :
  chunk_of data seed p → chunk_data_wf data → chunk_fits id p → key_unambiguous data key →
  ∃ r, read_series_bytes (chunk_bytes id p) key lo hi = Ok r ∧
       default [] r = map (to_point key) (List.filter (in_time_range lo hi) (series_vec data key)).
Proof.
  intros Hp Hwf Hfit Hu. unfold read_series_bytes.
  rewrite chunk_magic_valid by apply (fits_file _ _ Hfit). cbn [mbind result_bind].
  rewrite chunk_checksum_valid. cbn [mbind result_bind].
  rewrite (chunk_parse_header _ _ _ _ Hp Hwf Hfit). cbn [mbind result_bind].
  unfold is_within_global_range. rewrite negb_involutive. simpl time_end_ns. simpl time_start_ns.
  destruct ((p1_max_ts p <? lo) || (hi <? p1_min_ts p)) eqn:Er.
  - exists None. split; [done|]. erewrite filter_range_outside; [done|done|done|].
    apply orb_true_iff in Er. lia.
  - simpl series_count. rewrite chunk_find_series by done. cbn [mbind result_bind].
    unfold series_vec. destruct (bt_get data key) as [pts|] eqn:E; simpl.
    + destruct (decide (pts = [])) as [->|Hne].
      * exists None. split; [|done]. erewrite find_encoded_none; [done|].
        eapply (encodes_key_ne data); [by eapply chunk_of_spec| |done].
        intros [k' pts'] [Hx Hne]%elem_of_non_empty. split; [done|]. simpl in *. intros ->.
        apply bt_In_get in Hx; [|by destruct Hwf]. congruence.
      * apply bt_get_Some_In in E.
        destruct (read_series_found _ _ _ _ _ _ (Some lo) (Some hi) Hp Hwf Hfit Hu E Hne) as [Hsome Hret].
        destruct (find_encoded _ _ _) as [[o1 o2]|]; [|done].
        specialize (Hret (o1, o2) eq_refl). simpl in Hret. rewrite Hret. cbn [mbind result_bind]. by eexists.
    + exists None. split; [|done]. erewrite find_encoded_none; [done|].
      eapply (encodes_key_ne data); [by eapply chunk_of_spec| |done].
      intros [k' pts'] [Hx Hne]%elem_of_non_empty. split; [done|]. simpl in *. intros ->.
      apply bt_In_get in Hx; [|by destruct Hwf]. congruence.
Qed.

(** ** Reading the whole chunk *)

(** The points of the data in iteration order. *)
Definition all_points (data : SeriesData) : list DataPoint :=
  flat_map (λ e, map (to_point e.1) e.2) data.

Lemma all_points_non_empty data : all_points (non_empty data) = all_points data.
Proof.
  induction data as [|[k [|q pts]] data IH]; [done|done|].
  cbn [non_empty List.filter snd]. change (List.filter _ data) with (non_empty data).
  unfold all_points in *. cbn [flat_map]. by rewrite IH.
Qed.

Lemma full_range_filter (pts : list (Z * f64)) :
  Forall (λ q, in_i64 q.1 ∧ f64_wf q.2) pts → List.filter (in_time_range i64_min i64_max) pts = pts.
Proof.
  induction 1 as [|q pts [Hq _] ? IH]; simpl; [done|].
  unfold in_time_range at 1. replace ((i64_min <=? q.1) && (q.1 <=? i64_max)) with true
    by (unfold in_i64 in Hq; lia).
  by rewrite IH.
Qed.

Definition keys_clean (data : SeriesData) : Prop := Forall (λ e, key_wf e.1 ∧ key_clean e.1) data.

Lemma read_loop_directory id p d pre post acc cursor :
  chunk_fits id p → p1_encoded p = pre ++ post → Forall2 encodes d post →
  keys_clean d → values_wf d →
  at_off (chunk_bytes id p) cursor (directory post (drop (length pre) (offsets id p))) →
  read_loop (length post) (chunk_bytes id p) cursor acc = Ok (acc ++ all_points d).
Proof.
  intros Hfit He Hf. revert pre cursor acc He.
  induction Hf as [|[k pts] s d post Hs Hf IH]; intros pre cursor acc He Hc Hv Hat.
  { simpl. by rewrite app_nil_r. }
  pose proof (offsets_lookup id p _ _ _ He) as Ho.
  pose proof (fits_file _ _ Hfit) as Hb. pose proof (fits_series _ _ Hfit) as Hfs.
  pose proof (offsets_fit _ _ Hfit) as Hof. rewrite Forall_lookup in Hof. specialize (Hof _ _ Ho).
  rewrite (drop_S _ _ _ Ho) in Hat. cbn [directory] in Hat.
  rewrite He, Forall_app, Forall_cons in Hfs. destruct Hfs as (_ & (Hk & Hts & Hval) & _).
  destruct (directory_entry_at _ _ s (_, _) _ Hat Hk (proj1 Hof) (proj2 Hof) Hb)
    as (E1 & E2 & E3 & E4 & Hrest). cbn [fst snd] in E3, E4.
  apply Forall_cons in Hc as [[Hkwf Hkc] Hc]. apply Forall_cons in Hv as [[Hpts Hlen] Hv].
  destruct (encodes_fields _ _ Hs) as (_ & Ekb & _). cbn [fst snd] in *.
  cbn [read_loop length]. rewrite E1. cbn [mbind result_bind]. rewrite E2. cbn [mbind result_bind].
  rewrite Ekb at 1. rewrite from_to_bytes by done. cbn [mbind result_bind].
  rewrite E3. cbn [mbind result_bind]. rewrite E4. cbn [mbind result_bind].
  erewrite retrieve_data_at; [|by eapply chunk_column_at|done..].
  cbn [mbind result_bind default]. rewrite full_range_filter by done.
  rewrite (IH (pre ++ [s])).
  - unfold all_points. cbn [flat_map fst snd]. by rewrite app_assoc.
  - by rewrite <-app_assoc.
  - done.
  - done.
  - by rewrite length_app, Nat.add_1_r.
Qed.

Lemma read_chunk_written data seed id p :
  chunk_of data seed p → chunk_data_wf data → chunk_fits id p → keys_clean data →
  read_chunk_bytes (chunk_bytes id p) = Ok (all_points data).
Proof.
  intros Hp Hwf Hfit Hc. unfold read_chunk_bytes.
  rewrite chunk_magic_valid by apply (fits_file _ _ Hfit). cbn [mbind result_bind].
  rewrite chunk_checksum_valid. cbn [mbind result_bind].
  rewrite (chunk_parse_header _ _ _ _ Hp Hwf Hfit). cbn [mbind result_bind].
  cbn [chunk_header series_count]. rewrite wrap_u32_id by apply (fits_count _ _ Hfit).
  unfold len. rewrite Nat2Z.id, <-all_points_non_empty.
  destruct (chunk_of_spec _ _ _ Hp) as (Hf & _). destruct Hwf as (_ & _ & Hv).
  apply (read_loop_directory id p (non_empty data) [] (p1_encoded p) [] HEADER_SIZE); try done.
  - unfold keys_clean in *. rewrite Forall_forall in *.
    intros e [He _]%elem_of_non_empty. by apply Hc.
  - unfold values_wf in *. rewrite Forall_forall in *.
    intros e [He _]%elem_of_non_empty. by apply Hv.
  - apply chunk_directory_at.
Qed.

(** ** The bloom filter *)

Lemma read_exact_at b off m n : at_off b off m → n = len m → read_exact b off n = Ok m.
Proof.
  intros Hat ->. pose proof (at_off_nonneg _ _ _ Hat) as [? ?]. pose proof (len_nonneg m).
  unfold read_exact. replace ((0 <=? off) && (0 <=? len m) && (off + len m <=? len b)) with true by lia.
  destruct Hat as (pre & post & -> & ->). f_equal. by apply sub_app_mid.
Qed.

Lemma len_bloom_section b : len (bloom_section b) = BLOOM_HEADER_SIZE + len (bitmap b).
Proof.
  unfold bloom_section. autorewrite with micius. change BLOOM_HEADER_SIZE with 48. lia.
Qed.

Lemma parse_bloom_section b rest :
  in_u32 (len (bitmap b)) → len (bloom_section b ++ rest) < u64_mod →
  parse_bloom_from_buf (bloom_section b ++ rest) =
  Ok (bloom_from_existing (bitmap b) (number_of_bits b) (number_of_hash_functions b) (sip_keys b)).
Proof.
  intros Hbm Hb. pose proof (at_off_start (bloom_section b) rest) as Hat.
  pose proof (len_bloom_section b) as Hlen. pose proof (len_nonneg (bitmap b)).
  pose proof (len_nonneg rest). set (buf := bloom_section b ++ rest) in *.
  assert (len buf = 48 + len (bitmap b) + len rest) as Hl.
  { unfold buf. rewrite len_app, Hlen. change BLOOM_HEADER_SIZE with 48. lia. }
  clearbody buf. unfold bloom_section in Hat. split_at Hat.
  rewrite ?len_le_bytes in *. simpl Z.of_nat in *. simpl Z.add in *.
  pose proof (bloom_sip_range b) as (? & ? & ? & ?).
  pose proof (bloom_bits_range b). pose proof (bloom_k_range b).
  unfold parse_bloom_from_buf. change BLOOM_HEADER_SIZE with 48.
  replace (48 <=? len buf) with true by lia. cbn [ensure mbind result_bind].
  rewrite (slice_u64_at buf 0 (number_of_bits b)) by done. cbn [mbind result_bind].
  rewrite (slice_u32_at buf 8 (number_of_hash_functions b)) by done. cbn [mbind result_bind].
  rewrite (slice_u64_at buf 12 (sip_keys b).1.1) by done. cbn [mbind result_bind].
  rewrite (slice_u64_at buf 20 (sip_keys b).1.2) by done. cbn [mbind result_bind].
  rewrite (slice_u64_at buf 28 (sip_keys b).2.1) by done. cbn [mbind result_bind].
  rewrite (slice_u64_at buf 36 (sip_keys b).2.2) by done. cbn [mbind result_bind].
  rewrite (slice_u32_at buf 44 (len (bitmap b))) by done. cbn [mbind result_bind].
  replace (48 + len (bitmap b) <=? len buf) with true by lia. cbn [ensure mbind result_bind].
  rewrite (slice_at buf 48 (bitmap b)) by done. cbn [mbind result_bind].
  by destruct (sip_keys b) as [[? ?] [? ?]].
Qed.

Lemma bloom_fold_check encs b k :
  (bloom_check b k = true ∨ ∃ s, s ∈ encs ∧ es_key_bytes s = k) →
  bloom_check (fold_left (λ b s, bloom_set b (es_key_bytes s)) encs b) k = true.
Proof.
  revert b. induction encs as [|s encs IH]; intros b Hb; simpl.
  - destruct Hb as [Hb|(s & Hs & _)]; [done|by apply elem_of_nil in Hs].
  - apply IH. destruct Hb as [Hb|(s' & [->|Hs]%elem_of_cons & Hk)].
    + left. by apply bloom_set_mono.
    + left. rewrite <-Hk. apply bloom_set_check.
    + right. by exists s'.
Qed.

Lemma check_bloom_parses id p key :
  chunk_fits id p →
  check_bloom_bytes (chunk_bytes id p) key = Ok (bloom_check (p1_bloom p) (to_bytes key)).
Proof.
  intros Hfit. pose proof (fits_file _ _ Hfit) as Hb. pose proof (fits_bitmap _ _ Hfit) as Hbm.
  set (cols := header_to_bytes (chunk_header id p) ++ directory (p1_encoded p) (offsets id p) ++
               flat_map column_data (p1_encoded p)).
  set (fo := col_base p + len (flat_map column_data (p1_encoded p))).
  set (crc := le_bytes 4 (crc32 (chunk_body id p))).
  set (bl := bloom_section (p1_bloom p)).
  assert (chunk_bytes id p = cols ++ bl ++ le_bytes 8 fo ++ crc) as E.
  { rewrite chunk_bytes_layout. unfold cols. by rewrite <-!app_assoc. }
  assert (len cols = fo) as Hcols.
  { unfold cols, fo, col_base. rewrite !len_app, len_header_to_bytes by done.
    rewrite len_directory by apply length_pass2. lia. }
  assert (len crc = 4) as Hcrc by (unfold crc; by rewrite len_le_bytes).
  clearbody cols fo crc. rewrite E in *. clear E.
  rewrite !len_app, Hcols, len_le_bytes, Hcrc in Hb. simpl Z.of_nat in Hb.
  pose proof (len_nonneg bl). pose proof (len_nonneg cols).
  unfold check_bloom_bytes. change FOOTER_TAIL_SIZE with 12.
  change CHECKSUM_SIZE with 4. rewrite !len_app, Hcols, len_le_bytes, Hcrc.
  change (Z.of_nat 8) with 8.
  replace (12 <=? fo + (len bl + (8 + 4))) with true by lia. cbn [ensure mbind result_bind].
  rewrite (read_exact_at _ _ (le_bytes 8 fo ++ crc)); cycle 1.
  { exists (cols ++ bl), []. rewrite app_nil_r, <-!app_assoc, len_app. split; [done|lia]. }
  { rewrite len_app, len_le_bytes, Hcrc. done. }
  cbn [mbind result_bind]. rewrite take_app_length' by (by rewrite length_le_bytes).
  rewrite le_u64_roundtrip by (unfold in_u64; lia).
  rewrite wrap_u64_id by (unfold in_u64; lia).
  replace (4 + fo <=? fo + (len bl + (8 + 4))) with true by lia. cbn [ensure mbind result_bind].
  rewrite (read_exact_at _ _ (bl ++ le_bytes 8 fo)); cycle 1.
  { exists cols, crc. by rewrite <-!app_assoc. }
  { rewrite len_app, len_le_bytes. simpl Z.of_nat. lia. }
  cbn [mbind result_bind]. unfold bl. rewrite parse_bloom_section; [|done|].
  - cbn [mbind result_bind]. by rewrite bloom_existing.
  - fold bl. rewrite len_app, len_le_bytes. simpl Z.of_nat. lia.
Qed.

Lemma check_bloom_stored data seed id p key pts :
  chunk_of data seed p → chunk_fits id p → (key, pts) ∈ data → pts ≠ [] →
  check_bloom_bytes (chunk_bytes id p) key = Ok true.
Proof.
  intros Hp Hfit Hin Hne. rewrite check_bloom_parses by done. f_equal.
  destruct (chunk_of_spec _ _ _ Hp) as (_ & _ & _ & ->). apply bloom_fold_check. right.
  destruct (encoded_of _ _ _ _ _ Hp Hin Hne) as (d1 & d2 & e1 & s & e2 & _ & He & Hs & _).
  exists s. split; [rewrite He; set_solver|]. by apply encodes_fields in Hs as (_ & -> & _).
Qed.

(** ** The write operation *)

(** [write] as a whole: an error for empty input, for an existing file and for a
    failed write; otherwise the file is there, complete. *)
Lemma write_cases w fs data now seed io :
  data ≠ [] →
  ∃ p, chunk_of data seed p ∧
    let id := new_chunk_id now in
    let path := chunk_path w id in
    write w fs data now seed io =
    match fs !! path, io with
    | Some _, _ => (fs, Err "file exists")
    | None, IoErr n => (<[path := take n (chunk_bytes id p)]> fs, Err "write failed")
    | None, IoOk =>
        (<[path := chunk_bytes id p]> fs,
         Ok {| cw_chunk_id := id;
               cw_chunk_meta := {| file_path := path; file_size := len (chunk_bytes id p) |};
               cw_series_results := (pass2 id (col_base p) (p1_encoded p)).2 |})
    end.
Proof.
  intros Hne. destruct (pass1_spec data (pass1_init data seed)) as (encs & p & Hp & _).
  exists p. split; [done|]. unfold write. destruct data as [|e data]; [done|].
  rewrite Hp. unfold fs_create_new. by destruct (fs !! _), io.
Qed.

Lemma write_Ok_inv w fs data now seed io fs' r :
  write w fs data now seed io = (fs', Ok r) →
  ∃ p, chunk_of data seed p ∧ fs !! file_path (cw_chunk_meta r) = None ∧
    cw_chunk_id r = new_chunk_id now ∧
    file_path (cw_chunk_meta r) = chunk_path w (new_chunk_id now) ∧
    fs' = <[file_path (cw_chunk_meta r) := chunk_bytes (new_chunk_id now) p]> fs ∧
    file_size (cw_chunk_meta r) = len (chunk_bytes (new_chunk_id now) p) ∧
    cw_series_results r = (pass2 (new_chunk_id now) (col_base p) (p1_encoded p)).2.
Proof.
  intros Hw. destruct (decide (data = [])) as [->|Hne]; [done|].
  destruct (write_cases w fs data now seed io Hne) as (p & Hp & E). rewrite Hw in E.
  cbv zeta in E. exists p. split; [done|].
  destruct (fs !! chunk_path w (new_chunk_id now)) eqn:Ef; [done|]. destruct io; [|done].
  injection E as -> ->. done.
Qed.

Lemma fs_read_insert fs path b : fs_read (<[path := b]> fs) path = Ok b.
Proof. unfold fs_read. by rewrite lookup_insert_eq. Qed.

(** The index records describe the stored series: one per non-empty series, with
    its id, its first and last timestamp and the statistics of its values. *)
Definition describes (id : Z) (e : SeriesKey * list (Z * f64)) (r : SeriesWriteResult) : Prop :=
  sr_series_key r = e.1 ∧ ce_chunk_id (sr_entry r) = id ∧
  ce_series_id (sr_entry r) = series_id e.1 ∧
  ce_time_start_ns (sr_entry r) = hd 0 (map fst e.2) ∧
  ce_time_end_ns (sr_entry r) = List.last (map fst e.2) 0 ∧
  from_values (map snd e.2) = Some (sr_stats r).

Lemma pass2_describes id off d encs :
  Forall2 encodes d encs → Forall2 (describes id) d (pass2 id off encs).2.
Proof.
  intros Hf. revert off. induction Hf as [|e s d encs Hs ? IH]; intros off; simpl; constructor; [|done].
  apply encodes_fields in Hs as (E1 & E2 & E3 & E4 & _ & _ & E5).
  unfold describes, series_id. simpl. by rewrite E1, E2, E3, E4, E5.
Qed.

(** ** Checking that a chunk fits, by computation *)

Definition u32b (z : Z) : bool := (0 <=? z) && (z <? u32_mod).
Definition u64b (z : Z) : bool := (0 <=? z) && (z <? u64_mod).

Definition chunk_fitsb (id : Z) (p : Pass1) : bool :=
  u64b id &&
  forallb (λ s, u32b (len (es_key_bytes s)) && u32b (len (es_ts_compressed s)) &&
                u32b (len (es_val_compressed s))) (p1_encoded p) &&
  u32b (len (p1_encoded p)) && u32b (len (bitmap (p1_bloom p))) &&
  (len (chunk_bytes id p) <? u64_mod).

Lemma u32b_spec z : u32b z = true → in_u32 z.
Proof. unfold u32b, in_u32. lia. Qed.

Lemma u64b_spec z : u64b z = true → in_u64 z.
Proof. unfold u64b, in_u64. lia. Qed.

Lemma chunk_fitsb_spec id p : chunk_fitsb id p = true → chunk_fits id p.
Proof.
  unfold chunk_fitsb. rewrite !andb_true_iff, forallb_Forall, Z.ltb_lt.
  intros ((((Hi & Hs) & Hc) & Hb) & Hf). split; auto using u32b_spec, u64b_spec.
  eapply Forall_impl; [exact Hs|]. intros s. simpl. rewrite !andb_true_iff.
  intros [[? ?] ?]. auto using u32b_spec.
Qed.

(** The data fits its chunk, whatever the bloom seed and the chunk id. *)
Definition data_fits (data : SeriesData) (now seed : Z) : Prop :=
  ∀ p, chunk_of data seed p → chunk_fits (new_chunk_id now) p.

Lemma data_fitsb data now seed :
  (match pass1 data (pass1_init data seed) with
   | Ok p => chunk_fitsb (new_chunk_id now) p
   | Err _ => false end) = true → data_fits data now seed.
Proof.
  unfold data_fits, chunk_of. intros Hb p Hp. rewrite Hp in Hb. by apply chunk_fitsb_spec.
Qed.

(** ** The contract on the file system *)

Lemma write_then_read_series w fs data now seed io fs' r key lo hi :
  write w fs data now seed io = (fs', Ok r) →
  chunk_data_wf data → data_fits data now seed → key_unambiguous data key →
  ∃ res, read_series fs' (file_path (cw_chunk_meta r)) key lo hi = Ok res ∧
         default [] res = map (to_point key) (List.filter (in_time_range lo hi) (series_vec data key)).
Proof.
  intros Hw Hwf Hfit Hu. apply write_Ok_inv in Hw as (p & Hp & _ & _ & _ & -> & _).
  unfold read_series. rewrite fs_read_insert. cbn [mbind result_bind].
  eapply read_series_written; eauto.
Qed.

Lemma write_then_read_chunk w fs data now seed io fs' r :
  write w fs data now seed io = (fs', Ok r) →
  chunk_data_wf data → data_fits data now seed → keys_clean data →
  read_chunk fs' (file_path (cw_chunk_meta r)) = Ok (all_points data).
Proof.
  intros Hw Hwf Hfit Hc. apply write_Ok_inv in Hw as (p & Hp & _ & _ & _ & -> & _).
  unfold read_chunk. rewrite fs_read_insert. cbn [mbind result_bind].
  eapply read_chunk_written; eauto.
Qed.

End Contract.

(** ** Sample chunk *)

Definition sample_data : SeriesData :=
  [(key_a, [(10, F64 1); (30, F64 4)]); (key_b, [(5, F64 7)])].
Definition sample_writer : ChunkWriter := chunk_writer_new "/data/chunks".

(** The sample written into an empty directory, with the concrete instances. *)
Definition sample_write : Fs * result ChunkWriteResult :=
  @write poly_hash ieee_crc32 stored_lz4 cell_bloom sample_writer ∅ sample_data 77 0 IoOk.
Definition sample_result : ChunkWriteResult :=
  match sample_write.2 with
  | Ok r => r
  | Err _ => {| cw_chunk_id := 0; cw_chunk_meta := {| file_path := ""; file_size := 0 |};
                cw_series_results := [] |}
  end.

Lemma sample_write_ok : sample_write = (sample_write.1, Ok sample_result).
Proof. vm_compute. reflexivity. Qed.

Lemma sample_data_wf : chunk_data_wf sample_data.
Proof.
  split; [repeat constructor|]. split; [repeat constructor|].
  repeat constructor; simpl; try (unfold f64_wf; simpl); width.
Qed.

Lemma sample_data_fits : @data_fits poly_hash ieee_crc32 stored_lz4 cell_bloom sample_data 77 0.
Proof. apply data_fitsb. vm_compute. reflexivity. Qed.

Lemma sample_unambiguous : key_unambiguous sample_data key_a.
Proof.
  intros k pts Hin E. repeat (apply elem_of_cons in Hin as [Hin|Hin]; [simplify_eq; try done|]);
    try by apply elem_of_nil in Hin.
Qed.

Lemma sample_keys_clean : keys_clean sample_data.
Proof. repeat (apply Forall_cons; split; [concrete|]). constructor. Qed.

(** There is no file, or one that fails the checks on the whole file. *)
Definition damaged `{Crc32} (fs : Fs) (path : string) : Prop :=
  match fs !! path with Some b => ¬ file_sound b | None => True end.

(** The sample file, and a file whose last byte is changed. *)
Definition sample_bytes : bytes := default [] (sample_write.1 !! file_path (cw_chunk_meta sample_result)).
Definition flip_last (b : bytes) : bytes :=
  match List.last b Byte.x00 with
  | Byte.x00 => removelast b ++ [Byte.x01]
  | _ => removelast b ++ [Byte.x00]
  end.

(** ** Properties *)

(** C14. Writing a chunk and querying one of its series through the file returns
    exactly the stored points of that series in the inclusive time range: layout,
    offsets, delta coding, compression and the checksum all agree between writer and
    reader, including when the header range lets the reader skip the file. *)
Theorem chunk_write_read_series `{HX : XxHash, HC : Crc32, HL : Lz4, HB : BloomFilter}
    (LC : Crc32Laws) (LL : Lz4Laws) (LB : BloomLaws)
    w fs data now seed io fs' r key lo hi
    (Hw : write w fs data now seed io = (fs', Ok r))
    (Hwf : chunk_data_wf data) (Hfit : data_fits data now seed) (Hu : key_unambiguous data key) :
  ∃ res, read_series fs' (file_path (cw_chunk_meta r)) key lo hi = Ok res ∧
    default [] res = map (to_point key) (List.filter (in_time_range lo hi) (series_vec data key)).
Proof. by eapply write_then_read_series. Qed.

Lemma chunk_write_read_series_witness :
  ∃ res, @read_series ieee_crc32 stored_lz4 sample_write.1
           (file_path (cw_chunk_meta sample_result)) key_a 20 40 = Ok res ∧
    default [] res = [point_at key_a 30 4].
Proof.
  exact (chunk_write_read_series (HX := poly_hash) (HC := ieee_crc32) (HL := stored_lz4)
    (HB := cell_bloom) ieee_crc32_laws stored_lz4_laws cell_bloom_laws
    sample_writer ∅ sample_data 77 0 IoOk sample_write.1 sample_result key_a 20 40
    sample_write_ok sample_data_wf sample_data_fits sample_unambiguous).
Defined.

(** C35. Reading a whole chunk file back, as compaction does, returns every stored
    point of every series in order, provided the series keys do not contain the
    separators of the canonical form. *)
Theorem chunk_write_read_chunk `{HX : XxHash, HC : Crc32, HL : Lz4, HB : BloomFilter}
    (LC : Crc32Laws) (LL : Lz4Laws) (LB : BloomLaws) w fs data now seed io fs' r
    (Hw : write w fs data now seed io = (fs', Ok r))
    (Hwf : chunk_data_wf data) (Hfit : data_fits data now seed) (Hc : keys_clean data) :
  read_chunk fs' (file_path (cw_chunk_meta r)) = Ok (all_points data).
Proof. by eapply write_then_read_chunk. Qed.

Lemma chunk_write_read_chunk_witness :
  @read_chunk ieee_crc32 stored_lz4 sample_write.1
    (file_path (cw_chunk_meta sample_result)) =
  Ok [point_at key_a 10 1; point_at key_a 30 4; point_at key_b 5 7].
Proof.
  exact (chunk_write_read_chunk (HX := poly_hash) (HC := ieee_crc32) (HL := stored_lz4)
    (HB := cell_bloom) ieee_crc32_laws stored_lz4_laws cell_bloom_laws
    sample_writer ∅ sample_data 77 0 IoOk sample_write.1 sample_result
    sample_write_ok sample_data_wf sample_data_fits sample_keys_clean).
Defined.

(** C23. Errors on damaged files, for arbitrary bytes: both readers answer with an error
    when there is no file, when it is shorter than a header, does not start with the
    magic or does not end with the checksum of the rest; and whatever a series read
    returns, from any file at all, are points of the requested series in the range. *)
Theorem chunk_read_rejects_damage `{HC : Crc32, HL : Lz4} fs path key lo hi :
  (damaged fs path →
   is_ok (read_series fs path key lo hi) = false ∧ is_ok (read_chunk fs path) = false) ∧
  ∀ points, read_series fs path key lo hi = Ok (Some points) →
    Forall (λ p, point_key p = key ∧ lo <= timestamp_ns p <= hi) points.
Proof.
  unfold damaged, read_series, read_chunk, fs_read. destruct (fs !! path) as [b|]; cbn [ok_or mbind result_bind]; [|done]. split.
  - intros Hbad. unfold read_series_bytes, read_chunk_bytes.
    destruct (is_magic_valid b) as [[]|] eqn:Hm; [|done]. destruct (is_checksum_valid b) as [[]|] eqn:Hc; [|done].
    destruct (parse_header b) as [h|] eqn:Hh; [|done]. destruct Hbad. by eapply checks_sound.
  - intros points E. unfold read_series_bytes in E. do 3 (apply bind_Ok_inv in E as (? & _ & E)).
    destruct (negb _); [done|]. apply bind_Ok_inv in E as ([[ts_offset val_offset]|] & _ & E); [|done].
    apply bind_Ok_inv in E as (data & Hr & [= <-]). by eapply retrieve_sound.
Qed.

(** One flipped byte in the sample file. *)
Lemma chunk_read_rejects_damage_witness :
  is_ok (@read_chunk ieee_crc32 stored_lz4 {["/c" := flip_last sample_bytes]} "/c") = false.
Proof.
  refine (proj2 (proj1 (chunk_read_rejects_damage (HC := ieee_crc32) (HL := stored_lz4)
    {["/c" := flip_last sample_bytes]} "/c" key_a 0 0) _)).
  unfold damaged. rewrite lookup_singleton_eq. intros (_ & _ & E). revert E. vm_compute. discriminate.
Defined.

(** The bloom filter of a chunk file has no false negatives: [check_bloom] on the
    file answers [true] for every series stored in it. *)
Theorem chunk_bloom_no_false_negative `{HX : XxHash, HC : Crc32, HL : Lz4, HB : BloomFilter}
    (LC : Crc32Laws) (LL : Lz4Laws) (LB : BloomLaws) w fs data now seed io fs' r key pts
    (Hw : write w fs data now seed io = (fs', Ok r)) (Hfit : data_fits data now seed)
    (Hin : (key, pts) ∈ data) (Hne : pts ≠ []) :
  check_bloom fs' (file_path (cw_chunk_meta r)) key = Ok true.
Proof.
  apply write_Ok_inv in Hw as (p & Hp & _ & _ & _ & -> & _).
  unfold check_bloom. rewrite fs_read_insert. cbn [mbind result_bind].
  eapply check_bloom_stored; eauto.
Qed.

Lemma chunk_bloom_no_false_negative_witness :
  @check_bloom cell_bloom sample_write.1 (file_path (cw_chunk_meta sample_result)) key_b = Ok true.
Proof.
  refine (chunk_bloom_no_false_negative (HX := poly_hash) (HC := ieee_crc32) (HL := stored_lz4)
    (HB := cell_bloom) ieee_crc32_laws stored_lz4_laws cell_bloom_laws
    sample_writer ∅ sample_data 77 0 IoOk sample_write.1 sample_result key_b [(5, F64 7)]
    sample_write_ok sample_data_fits _ _); [right; left|discriminate].
Defined.

(** A successful write yields one index record per non-empty series, carrying the
    series' id, the earliest and latest timestamp of its points and the min/max of
    its values; a write with no data, to an existing path or with an I/O error is an
    error and registers nothing. *)
Theorem chunk_write_describes_series `{HX : XxHash, HC : Crc32, HL : Lz4, HB : BloomFilter}
    w fs data now seed io :
  match write w fs data now seed io with
  | (fs', Ok r) =>
      io = IoOk ∧ fs !! chunk_path w (new_chunk_id now) = None ∧
      Forall2 (describes (new_chunk_id now)) (non_empty data) (cw_series_results r)
  | (fs', Err _) =>
      data = [] ∨ is_Some (fs !! chunk_path w (new_chunk_id now)) ∨ io ≠ IoOk
  end.
Proof.
  destruct (decide (data = [])) as [->|Hne]; [by left|].
  destruct (write_cases w fs data now seed io Hne) as (p & Hp & E). cbv zeta in E.
  destruct (chunk_of_spec _ _ _ Hp) as (Hf & _).
  destruct (fs !! chunk_path w (new_chunk_id now)) eqn:Ef; rewrite E; [right; left; by eexists|].
  destruct io; [|by right; right]. split; [done|]. split; [done|]. by apply pass2_describes.
Qed.

(** The version byte of a chunk file is parsed but never checked: a file whose
    header carries another version, with a valid checksum, is read as if it were
    version 1. *)
Theorem chunk_version_unchecked :
  ∃ b h, parse_header b = Ok h ∧ version h ≠ VERSION ∧
    @read_series_bytes ieee_crc32 stored_lz4 b key_b 0 10 = Ok (Some [point_at key_b 5 7]).
Proof.
  set (body := match sample_write.1 !! file_path (cw_chunk_meta sample_result) with
               | Some b => <[4%nat := Byte.x02]> (take (length b - 4) b)
               | None => [] end).
  exists (body ++ le_bytes 4 (@crc32 ieee_crc32 body)). eexists.
  split; [vm_compute; reflexivity|]. split; [vm_compute; discriminate|vm_compute; reflexivity].
Qed.
