(* ===== verification/WalWriter.v ===== *)
(** * WAL segments ([src/storage-engine/src/wal/proto.rs], [wal/writer.rs])

    The log of one shard: a directory of segment files, each a sequence of frames
    [length][crc32][payload].  A directory maps file names to contents (the
    writer's [wal_dir] is the directory itself, so a path is a file name).  The
    writer appends to the open segment, rotates to the next number and remembers
    the highest sequence of every completed segment for garbage collection.  The
    prost encoding of a [WalEntry] is the parameter [Codec WalEntry]. *)
From S2P Require Import Prelude BTree F64 Externals Types Fs.

(** ** Messages ([wal/proto.rs]) *)

Record WalDataPoint := {
  w_metric_name : string;
  w_tags : Tags;
  w_timestamp_ns : Z;
  w_value : f64
}.

Record WalEntry := {
  sequence : Z;
  points : list WalDataPoint
}.

(** [impl From<&DataPoint> for WalDataPoint] and back. *)
Definition to_wal (p : DataPoint) : WalDataPoint :=
  {| w_metric_name := metric_name p; w_tags := tags p;
     w_timestamp_ns := timestamp_ns p; w_value := value p |}.
Definition of_wal (p : WalDataPoint) : DataPoint :=
  {| metric_name := w_metric_name p; tags := w_tags p;
     timestamp_ns := w_timestamp_ns p; value := w_value p |}.

(** ** The writer's state *)

Abbreviation Dir := (gmap string bytes).

Record WalWriter := {
  file : string;
  current_seq : Z;
  current_size : Z;
  current_segment : Z;
  max_segment_bytes : Z;
  completed_segments : list (Z * Z)
}.

(** [segment_path]. *)
Definition segment_path (segment : Z) : string := fmt_dec20 segment +:+ ".wal".

(** The number of a file name that [highest_segment_number] considers. *)
Definition segment_number (name : string) : option Z :=
  if ends_with ".wal" name then parse_u64 (trim_end_matches (String.length name) ".wal" name)
  else None.

(** One directory entry: [max] becomes its number when that is larger. *)
Definition max_segment (max : option Z) (e : string * bytes) : option Z :=
  match segment_number e.1 with
  | Some n => match max with
              | None => Some n
              | Some m => if m <? n then Some n else max
              end
  | None => max
  end.

(** [highest_segment_number]: the maximum over the directory's entries. *)
Definition highest_segment_number (d : Dir) : option Z :=
  fold_left max_segment (map_to_list d) None.

(** Opening a file for append creates it when missing. *)
Definition open_append (d : Dir) (name : string) : Dir :=
  match d !! name with Some _ => d | None => <[name := []]> d end.

(** [write_all] and [sync_all] on a file open for append: on an error a prefix
    of the buffer may have reached the file. *)
Definition append_sync (d : Dir) (name : string) (buf : bytes) (io : io_outcome) : Dir * result () :=
  let old := default [] (d !! name) in
  match io with
  | IoOk => (<[name := old ++ buf]> d, Ok ())
  | IoErr n => (<[name := old ++ take n buf]> d, Err "write failed")
  end.

(** [WalWriter::open]. *)
Definition open (d : Dir) (max_bytes resume_seq : Z) : Dir * WalWriter :=
  let segment := default 1 (highest_segment_number d) in
  let path := segment_path segment in
  let completed := map (λ i, (Z.of_nat i, u64_max)) (seq 1 (Z.to_nat (segment - 1))) in
  let d' := open_append d path in
  (d', {| file := path;
          current_seq := resume_seq;
          current_size := len (default [] (d' !! path));
          current_segment := segment;
          max_segment_bytes := max_bytes;
          completed_segments := completed |}).

(** [WalWriter::rotate]; [ok] tells whether opening the new segment succeeds. *)
Definition rotate (d : Dir) (w : WalWriter) (ok : bool) : Dir * WalWriter * result () :=
  let segment := wrap_u64 (current_segment w + 1) in
  let completed := completed_segments w ++ [(current_segment w, current_seq w)] in
  let path := segment_path segment in
  if ok then
    (open_append d path,
     {| file := path; current_seq := current_seq w; current_size := 0;
        current_segment := segment; max_segment_bytes := max_segment_bytes w;
        completed_segments := completed |}, Ok ())
  else
    (d,
     {| file := file w; current_seq := current_seq w; current_size := current_size w;
        current_segment := segment; max_segment_bytes := max_segment_bytes w;
        completed_segments := completed |}, Err "failed to open new WAL segment").

(** [current_sequence] and [current_segment_path]. *)
Definition current_sequence (w : WalWriter) : Z := current_seq w.
Definition current_segment_path (w : WalWriter) : string := segment_path (current_segment w).

(** [WalWriter::drain_completed_before]: the paths to delete, and the writer that
    has forgotten them. *)
Definition drain_completed_before (w : WalWriter) (flushed_seq : Z) : list string * WalWriter :=
  (map (λ c, segment_path c.1) (List.filter (λ c : Z * Z, c.2 <=? flushed_seq) (completed_segments w)),
   {| file := file w; current_seq := current_seq w; current_size := current_size w;
      current_segment := current_segment w; max_segment_bytes := max_segment_bytes w;
      completed_segments :=
        List.filter (λ c : Z * Z, negb (c.2 <=? flushed_seq)) (completed_segments w) |}).

Section Frames.
Context `{Crc32, Codec WalEntry}.

(** The entry a batch is stored as. *)
Definition wal_entry (seq : Z) (pts : list DataPoint) : WalEntry :=
  {| sequence := seq; points := map to_wal pts |}.

(** The frame of a payload. *)
Definition frame_of (payload : bytes) : bytes :=
  le_bytes 4 (len payload) ++ le_bytes 4 (crc32 payload) ++ payload.

(** [WalWriter::encode_frame]. *)
Definition encode_frame (seq : Z) (pts : list DataPoint) : bytes :=
  frame_of (encode_to_vec (wal_entry seq pts)).

(** Bump the sequence number. *)
Definition bump_seq (w : WalWriter) : WalWriter :=
  {| file := file w; current_seq := wrap_u64 (current_seq w + 1); current_size := current_size w;
     current_segment := current_segment w; max_segment_bytes := max_segment_bytes w;
     completed_segments := completed_segments w |}.

(** Account for [n] bytes written. *)
Definition grow (w : WalWriter) (n : Z) : WalWriter :=
  {| file := file w; current_seq := current_seq w; current_size := wrap_u64 (current_size w + n);
     current_segment := current_segment w; max_segment_bytes := max_segment_bytes w;
     completed_segments := completed_segments w |}.

(** [WalWriter::append]. *)
Definition append (d : Dir) (w : WalWriter) (pts : list DataPoint) (io : io_outcome) (rot : bool)
    : Dir * WalWriter * result Z :=
  let w1 := bump_seq w in
  let frame := encode_frame (current_seq w1) pts in
  match append_sync d (file w1) frame io with
  | (d1, Err e) => (d1, w1, Err e)
  | (d1, Ok _) =>
      let w2 := grow w1 (len frame) in
      if max_segment_bytes w2 <=? current_size w2 then
        match rotate d1 w2 rot with
        | (d2, w3, Err e) => (d2, w3, Err e)
        | (d2, w3, Ok _) => (d2, w3, Ok (current_seq w3))
        end
      else (d1, w2, Ok (current_seq w2))
  end.

End Frames.

(** ** Segment names *)

Lemma ascii_compare_digit c d :
  0 <= c < 10 → 0 <= d < 10 → Ascii.compare (digit_char c) (digit_char d) = (c ?= d).
Proof.
  intros Hc Hd. unfold Ascii.compare, digit_char.
  replace (c <? 10) with true by lia. replace (d <? 10) with true by lia.
  rewrite !Ascii.N_ascii_embedding by lia.
  rewrite <-N2Z.inj_compare, !Z2N.id by lia.
  destruct (Z.compare_spec (48 + c) (48 + d)), (Z.compare_spec c d); try lia; done.
Qed.

Lemma string_compare_app s t u v :
  String.length s = String.length t →
  String.compare (s +:+ u) (t +:+ v) =
  match String.compare s t with Eq => String.compare u v | r => r end.
Proof.
  revert t. induction s as [|a s IH]; intros [|b t] Hl; simpl in *; try done.
  cbn [String.append String.compare].
  destruct (Ascii.compare a b); [|done..]. apply IH. lia.
Qed.

Lemma length_digits base n z acc :
  String.length (digits base n z acc) = (n + String.length acc)%nat.
Proof. revert z acc. induction n as [|n IH]; intros z acc; simpl; [done|]. rewrite IH. simpl. lia. Qed.

(** Zero-padded decimals of one width compare like the numbers. *)
Lemma digits_compare n z w :
  0 <= z < 10 ^ Z.of_nat n → 0 <= w < 10 ^ Z.of_nat n →
  String.compare (digits 10 n z "") (digits 10 n w "") = (z ?= w).
Proof.
  revert z w. induction n as [|n IH]; intros z w Hz Hw.
  - change (10 ^ Z.of_nat 0) with 1 in *. assert (z = w) as -> by lia. by rewrite Z.compare_refl.
  - rewrite Nat2Z.inj_succ, Z.pow_succ_r in Hz, Hw by lia.
    cbn [digits]. rewrite (digits_app _ n (z / 10)), (digits_app _ n (w / 10)).
    rewrite string_compare_app by (by rewrite !length_digits).
    pose proof (Z.mod_pos_bound z 10 eq_refl). pose proof (Z.mod_pos_bound w 10 eq_refl).
    pose proof (Z.div_mod z 10 ltac:(lia)). pose proof (Z.div_mod w 10 ltac:(lia)).
    rewrite IH by lia. cbn [String.compare]. rewrite ascii_compare_digit by lia.
    destruct (Z.compare_spec (z / 10) (w / 10)); destruct (Z.compare_spec z w); try lia; try done;
      destruct (Z.compare_spec (z mod 10) (w mod 10)); try lia; done.
Qed.

Lemma u64_20_digits z : in_u64 z → 0 <= z < 10 ^ Z.of_nat 20.
Proof. unfold in_u64. change u64_mod with 18446744073709551616. change (10 ^ Z.of_nat 20) with 100000000000000000000. lia. Qed.

Lemma segment_path_compare z w :
  in_u64 z → in_u64 w → String.compare (segment_path z) (segment_path w) = (z ?= w).
Proof.
  intros Hz Hw. unfold segment_path, fmt_dec20.
  rewrite string_compare_app by (by rewrite !length_digits).
  rewrite digits_compare by (by apply u64_20_digits).
  destruct (Z.compare_spec z w); try done.
Qed.

Lemma segment_path_inj z w : in_u64 z → in_u64 w → segment_path z = segment_path w → z = w.
Proof.
  intros Hz Hw E. apply Z.compare_eq_iff. rewrite <-segment_path_compare by done.
  rewrite E. apply string_compare_refl.
Qed.

(** The number is read back from the name. *)
Lemma segment_number_path z : in_u64 z → segment_number (segment_path z) = Some z.
Proof.
  intros Hz. unfold segment_number, segment_path. rewrite ends_with_app.
  assert (trim_end_matches (String.length (fmt_dec20 z +:+ ".wal")) ".wal" (fmt_dec20 z +:+ ".wal")
    = fmt_dec20 z) as ->; [|by apply parse_fmt_dec20].
  assert (∀ fuel, trim_end_matches fuel ".wal" (fmt_dec20 z) = fmt_dec20 z) as Hstop.
  { intros [|fuel]; [done|]. cbn [trim_end_matches].
    change ".wal" with (".wa" +:+ "l"). rewrite strip_suffix_digits; [done| |done].
    by apply all_digits_digits. }
  destruct (String.length (fmt_dec20 z +:+ ".wal")) as [|fuel] eqn:E.
  - by destruct (fmt_dec20 z).
  - cbn [trim_end_matches]. rewrite strip_suffix_app. apply Hstop.
Qed.
