(* ===== verification/Recovery.v ===== *)
(** * Crash recovery ([src/storage-engine/src/wal/recovery.rs])

    [recover] scans every segment of a shard's directory in name order, frame by
    frame, and collects the points of the entries above the snapshot watermark.
    A frame that is cut short or fails its checksum ends the scan of its segment.

    The specification is a list of segments: a number, the entries written
    completely, and a tail that is not a complete frame.  The theorems say that
    recovery of a directory that holds such segments returns exactly their
    entries above the watermark, in order, whatever the tails are. *)
From S2P Require Import Prelude BTree F64 Externals Types Memtable Fs WalWriter.

Record RecoveryResult := {
  rr_points : list DataPoint;
  last_sequence : Z;
  segments_replayed : Z;
  entries_replayed : Z;
  torn_write_detected : bool
}.

(** [path.extension() == Some("wal")] of a file of the directory. *)
Definition has_wal_extension (name : string) : bool :=
  ends_with ".wal" name && negb (bool_decide (name = ".wal")).

(** [get_wal_files]: the segment names, sorted. *)
Definition get_wal_files (d : Dir) : list string :=
  map fst (bt_collect (List.filter (λ e, has_wal_extension e.1) (map_to_list d))).

(** [result.torn_write_detected = true]. *)
Definition set_torn (r : RecoveryResult) : RecoveryResult :=
  {| rr_points := rr_points r; last_sequence := last_sequence r;
     segments_replayed := segments_replayed r; entries_replayed := entries_replayed r;
     torn_write_detected := true |}.

(** What a decoded entry does to the result: nothing when the snapshot covers it. *)
Definition replay_entry (watermark : Z) (r : RecoveryResult) (e : WalEntry) : RecoveryResult :=
  if sequence e <=? watermark then r
  else {| rr_points := rr_points r ++ map of_wal (points e);
          last_sequence := Z.max (last_sequence r) (sequence e);
          segments_replayed := segments_replayed r;
          entries_replayed := wrap_u64 (entries_replayed r + 1);
          torn_write_detected := torn_write_detected r |}.

(** [result.segments_replayed += 1]. *)
Definition count_segment (r : RecoveryResult) : RecoveryResult :=
  {| rr_points := rr_points r; last_sequence := last_sequence r;
     segments_replayed := wrap_u32 (segments_replayed r + 1);
     entries_replayed := entries_replayed r;
     torn_write_detected := torn_write_detected r |}.

Section Recovery.
Context `{Crc32, Codec WalEntry}.

(** The frame loop of [recover] over one segment; [None] when the [fuel] does not last. *)
Fixpoint scan_loop (fuel : nat) (buf : bytes) (cursor watermark : Z) (r : RecoveryResult)
    : option (result RecoveryResult) :=
  match fuel with
  | O => None
  | S fuel' =>
      if len buf <? cursor + 8 then Some (Ok r)
      else
        let stored_length := le_Z (sub buf cursor 4) in
        if len buf <? cursor + stored_length + 8 then Some (Ok (set_torn r))
        else
          let stored_checksum := le_Z (sub buf (cursor + 4) 4) in
          let payload := sub buf (cursor + 8) stored_length in
          let cursor' := cursor + 8 + stored_length in
          if negb (stored_checksum =? crc32 payload) then Some (Ok (set_torn r))
          else
            match decode payload with
            | Err e => Some (Err e)
            | Ok entry => scan_loop fuel' buf cursor' watermark (replay_entry watermark r entry)
            end
  end.

(** Each iteration that goes on consumes at least eight bytes, so the loop ends within this
    many ([scan_loop_ends]), and the error below is never returned. *)
Definition scan_segment (buf : bytes) (watermark : Z) (r : RecoveryResult) : result RecoveryResult :=
  default (Err "out of fuel") (scan_loop (S (length buf / 8)) buf 0 watermark r).

(** The loop of [recover] over the segment files. *)
Fixpoint recover_files (d : Dir) (paths : list string) (watermark : Z) (r : RecoveryResult)
    : result RecoveryResult :=
  match paths with
  | [] => Ok r
  | path :: paths' =>
      buf ← ok_or "open" (d !! path);
      r' ← scan_segment buf watermark r;
      recover_files d paths' watermark (count_segment r')
  end.

(** [recover]. *)
Definition recover (wal_dir : Dir) (snapshot_watermark : Z) : result RecoveryResult :=
  recover_files wal_dir (get_wal_files wal_dir) snapshot_watermark
    {| rr_points := []; last_sequence := 0; segments_replayed := 0; entries_replayed := 0;
       torn_write_detected := false |}.

(** ** Specification: segments of complete entries and a tail *)

Record Segment := {
  seg_no : Z;
  seg_entries : list WalEntry;
  seg_tail : bytes
}.

(** The frame of an entry, and the bytes of a run of entries. *)
Definition entry_frame (e : WalEntry) : bytes := frame_of (encode_to_vec e).
Definition frames (es : list WalEntry) : bytes := concat (map entry_frame es).
Definition seg_bytes (s : Segment) : bytes := frames (seg_entries s) ++ seg_tail s.
Definition seg_file (s : Segment) : string * bytes := (segment_path (seg_no s), seg_bytes s).

(** How a scan that reaches [tail] ends: [Some torn] when [tail] does not start
    with a complete frame, and then whether a torn write is reported. *)
Definition tail_end (tail : bytes) : option bool :=
  if len tail <? 8 then Some false
  else
    let n := le_Z (sub tail 0 4) in
    if len tail <? n + 8 then Some true
    else if negb (le_Z (sub tail 4 4) =? crc32 (sub tail 8 n)) then Some true
    else None.

(** Entries of the Rust type, whose encoding fits a frame. *)
Definition wal_point_wf (p : WalDataPoint) : Prop := point_wf (of_wal p).
Definition entry_wf (e : WalEntry) : Prop :=
  in_u64 (sequence e) ∧ Forall wal_point_wf (points e).
Definition entry_fits (e : WalEntry) : Prop := len (encode_to_vec e) < u32_mod.
Definition entry_ok (e : WalEntry) : Prop := entry_wf e ∧ entry_fits e.

Definition segment_ok (s : Segment) : Prop :=
  in_u64 (seg_no s) ∧ Forall entry_ok (seg_entries s) ∧ is_Some (tail_end (seg_tail s)).

(** The directory's segment files are exactly [segs], in increasing order. *)
Definition dir_holds (d : Dir) (segs : list Segment) : Prop :=
  StronglySorted (λ s t, seg_no s < seg_no t) segs ∧
  Forall segment_ok segs ∧
  ∀ name, has_wal_extension name = true → d !! name = bt_get (map seg_file segs) name.

(** All entries of the directory, in log order, and those above the watermark. *)
Definition log_of (segs : list Segment) : list WalEntry := flat_map seg_entries segs.
Definition above (watermark : Z) (es : list WalEntry) : list WalEntry :=
  List.filter (λ e, watermark <? sequence e) es.
Definition points_of (es : list WalEntry) : list DataPoint :=
  flat_map (λ e, map of_wal (points e)) es.
Definition torn_tail (s : Segment) : bool := default false (tail_end (seg_tail s)).

(** What recovery of [segs] must return. *)
Definition recovered (segs : list Segment) (watermark : Z) : RecoveryResult :=
  let es := above watermark (log_of segs) in
  {| rr_points := points_of es;
     last_sequence := fold_left (λ m e, Z.max m (sequence e)) es 0;
     segments_replayed := wrap_u32 (len segs);
     entries_replayed := wrap_u64 (len es);
     torn_write_detected := existsb torn_tail segs |}.

(** ** Scanning *)

Lemma sub_range_le4 (l : bytes) off : 0 <= le_Z (sub l off 4).
Proof. apply le_Z_range. Qed.

(** The rounds a segment has. *)
Lemma scan_rounds (buf : bytes) : len buf - 0 < 8 * Z.of_nat (length buf / 8) + 8.
Proof. unfold len. pose proof (Nat.div_mod_eq (length buf) 8). pose proof (Nat.mod_upper_bound (length buf) 8). lia. Qed.

(** More fuel changes no result. *)
Lemma scan_loop_more f1 f2 buf cursor wm r res :
  (f1 ≤ f2)%nat → scan_loop f1 buf cursor wm r = Some res → scan_loop f2 buf cursor wm r = Some res.
Proof.
  revert f2 cursor r. induction f1 as [|f1 IH]; intros [|f2] cursor r Hf; [done|done|lia|]. cbn [scan_loop].
  destruct (len buf <? cursor + 8); [done|]. destruct (len buf <? _); [done|]. destruct (negb _); [done|].
  destruct (decode _); [|done]. apply IH. lia.
Qed.

(** The loop ends by itself: whatever the bytes are, one round for every eight of them that
    are left and one more suffice, and more change nothing. *)
Lemma scan_loop_ends fuel buf cursor wm r :
  0 <= cursor → len buf - cursor < 8 * Z.of_nat fuel + 8 →
  ∃ res, ∀ more, scan_loop (S fuel + more) buf cursor wm r = Some res.
Proof.
  revert cursor r. induction fuel as [|fuel IH]; intros cursor r Hc Hf.
  - exists (Ok r). intros more. cbn [scan_loop Nat.add]. by replace (len buf <? cursor + 8) with true by lia.
  - change (S (S fuel)) with (1 + S fuel)%nat. setoid_rewrite <-Nat.add_assoc. cbn [Nat.add scan_loop].
    destruct (len buf <? cursor + 8); [by eexists|]. destruct (len buf <? _); [by eexists|].
    destruct (negb _); [by eexists|]. destruct (decode _) as [e|e]; [|by eexists].
    pose proof (sub_range_le4 buf cursor). apply IH; lia.
Qed.

Lemma scan_segment_loop buf wm r fuel res : scan_loop fuel buf 0 wm r = Some res → scan_segment buf wm r = res.
Proof.
  intros Hr. unfold scan_segment. destruct (scan_loop_ends (length buf / 8) buf 0 wm r) as (res' & Hres); [lia|apply scan_rounds|].
  pose proof (Hres 0%nat) as H0'. rewrite Nat.add_0_r in H0'. rewrite H0'. cbn [default id].
  destruct (decide (fuel ≤ S (length buf / 8))%nat) as [Hle|Hgt].
  - rewrite (scan_loop_more fuel (S (length buf / 8)) _ _ _ _ _ Hle Hr) in H0'. by injection H0' as <-.
  - specialize (Hres (fuel - S (length buf / 8))%nat).
    replace (S (length buf / 8) + (fuel - S (length buf / 8)))%nat with fuel in Hres by lia. congruence.
Qed.

(** The pieces a scan reads at the end of [pre]. *)
Lemma sub_skip {A} (pre l : list A) k n : 0 <= k → sub (pre ++ l) (len pre + k) n = sub l k n.
Proof. intros. rewrite sub_app_r by lia. f_equal. lia. Qed.

Lemma sub_skip_0 {A} (pre l : list A) n : sub (pre ++ l) (len pre) n = sub l 0 n.
Proof. rewrite <-(Z.add_0_r (len pre)) at 1. by apply sub_skip. Qed.

Lemma len_frame_of p : len (frame_of p) = 8 + len p.
Proof. unfold frame_of. rewrite !len_app, !len_le_bytes. lia. Qed.

Lemma scan_tail f pre tail t wm r :
  tail_end tail = Some t →
  scan_loop (S f) (pre ++ tail) (len pre) wm r = Some (Ok (if t then set_torn r else r)).
Proof.
  intros Ht. cbn [scan_loop]. rewrite len_app, sub_skip_0, !sub_skip by lia.
  unfold tail_end in Ht.
  replace (len pre + len tail <? len pre + 8) with (len tail <? 8) by lia.
  destruct (len tail <? 8); [by simplify_eq|].
  replace (len pre + len tail <? _) with (len tail <? le_Z (sub tail 0 4) + 8) by lia.
  destruct (len tail <? _); [by simplify_eq|].
  destruct (negb _); [by simplify_eq|done].
Qed.

Section Laws.
Context `{!Crc32Laws, !CodecLaws WalEntry entry_wf}.

Lemma scan_frame f pre e rest wm r :
  entry_ok e →
  scan_loop (S f) (pre ++ entry_frame e ++ rest) (len pre) wm r =
  scan_loop f ((pre ++ entry_frame e) ++ rest) (len (pre ++ entry_frame e)) wm (replay_entry wm r e).
Proof.
  intros [Hwf Hfit]. cbn [scan_loop]. set (p := encode_to_vec e).
  assert (in_u32 (len p)) as Hp by (split; [apply len_nonneg|exact Hfit]).
  assert (len (pre ++ entry_frame e ++ rest) = len pre + 8 + len p + len rest) as Hlen.
  { unfold entry_frame. rewrite !len_app, len_frame_of. unfold p. lia. }
  pose proof (len_nonneg rest). pose proof (len_nonneg p).
  assert (sub (pre ++ entry_frame e ++ rest) (len pre) 4 = le_bytes 4 (len p)) as ->.
  { rewrite sub_skip_0. unfold entry_frame, frame_of. rewrite <-!app_assoc.
    apply (sub_app_mid []); [done|by rewrite len_le_bytes]. }
  assert (sub (pre ++ entry_frame e ++ rest) (len pre + 4) 4 = le_bytes 4 (crc32 p)) as ->.
  { rewrite sub_skip by lia. unfold entry_frame, frame_of. rewrite <-!app_assoc.
    apply sub_app_mid; by rewrite len_le_bytes. }
  rewrite (le_u32_roundtrip (len p)) by done. rewrite (le_u32_roundtrip (crc32 p)) by apply crc32_range.
  assert (sub (pre ++ entry_frame e ++ rest) (len pre + 8) (len p) = p) as ->.
  { rewrite sub_skip by lia. unfold entry_frame, frame_of. rewrite <-!app_assoc.
    rewrite (app_assoc (le_bytes 4 _)). apply sub_app_mid; [|done].
    by rewrite len_app, !len_le_bytes. }
  rewrite Hlen. replace (_ <? len pre + 8) with false by lia.
  replace (_ <? len pre + len p + 8) with false by lia. rewrite Z.eqb_refl. cbn [negb].
  change (decode p) with (decode (encode_to_vec e)).
  rewrite (decode_encode e Hwf).
  rewrite <-app_assoc. f_equal. unfold entry_frame. rewrite len_app, len_frame_of. unfold p. lia.
Qed.

Lemma scan_frames f pre es tail t wm r :
  (length es < f)%nat → Forall entry_ok es → tail_end tail = Some t →
  scan_loop f (pre ++ frames es ++ tail) (len pre) wm r =
  Some (Ok (let r' := fold_left (replay_entry wm) es r in if t then set_torn r' else r')).
Proof.
  revert f pre r. induction es as [|e es IH]; intros f pre r Hf Hes Ht.
  - destruct f; [lia|]. by apply scan_tail.
  - destruct f as [|f]; [simpl in Hf; lia|]. apply Forall_cons in Hes as [He Hes].
    change (frames (e :: es)) with (entry_frame e ++ frames es). rewrite <-app_assoc.
    rewrite scan_frame by done. rewrite IH by (done || (simpl in Hf; lia)). done.
Qed.

(** One segment: its complete entries, then the tail. *)
Lemma scan_segment_ok s wm r :
  segment_ok s →
  scan_segment (seg_bytes s) wm r =
  Ok (let r' := fold_left (replay_entry wm) (seg_entries s) r in
      if torn_tail s then set_torn r' else r').
Proof.
  intros (_ & Hes & t & Ht). unfold torn_tail, seg_bytes. rewrite Ht.
  by apply scan_segment_loop with (S (length (seg_entries s))), (scan_frames _ []); [lia|..].
Qed.

(** ** Replaying *)

(** A result extended by a run of entries and segments. *)
Definition extended (r : RecoveryResult) (es : list WalEntry) (nsegs : Z) (torn : bool) : RecoveryResult :=
  {| rr_points := rr_points r ++ points_of es;
     last_sequence := fold_left (λ m e, Z.max m (sequence e)) es (last_sequence r);
     segments_replayed := wrap_u32 (segments_replayed r + nsegs);
     entries_replayed := wrap_u64 (entries_replayed r + len es);
     torn_write_detected := torn_write_detected r || torn |}.

Definition counts_ok (r : RecoveryResult) : Prop :=
  in_u32 (segments_replayed r) ∧ in_u64 (entries_replayed r).

Lemma replay_entries wm es r :
  counts_ok r → fold_left (replay_entry wm) es r = extended r (above wm es) 0 false.
Proof.
  revert r. induction es as [|e es IH]; intros r [Hs He]; unfold extended.
  - destruct r. simpl in *. rewrite app_nil_r, orb_false_r, !Z.add_0_r.
    by rewrite wrap_u32_id, wrap_u64_id.
  - cbn [fold_left]. unfold above. cbn [List.filter]. fold (above wm es). unfold replay_entry at 2.
    replace (wm <? sequence e) with (negb (sequence e <=? wm)) by lia.
    destruct (sequence e <=? wm); cbn [negb]; [by apply IH|].
    rewrite IH by (split; [done|apply wrap_u64_range]).
    unfold extended. cbn. f_equal.
    + by rewrite <-app_assoc.
    + rewrite wrap_u64_add_l, len_cons. f_equal. lia.
Qed.

Lemma wrap_u32_add_l a b : wrap_u32 (wrap_u32 a + b) = wrap_u32 (a + b).
Proof. apply Zplus_mod_idemp_l. Qed.

Lemma points_of_app es es' : points_of (es ++ es') = points_of es ++ points_of es'.
Proof. apply flat_map_app. Qed.

Lemma above_app wm es es' : above wm (es ++ es') = above wm es ++ above wm es'.
Proof. apply List.filter_app. Qed.

(** Extensions compose. *)
Lemma extended_extended r es n t es' n' t' :
  extended (extended r es n t) es' n' t' = extended r (es ++ es') (n + n') (t || t').
Proof.
  unfold extended. cbn [rr_points last_sequence segments_replayed entries_replayed torn_write_detected].
  rewrite points_of_app, fold_left_app, app_assoc, wrap_u32_add_l, wrap_u64_add_l, len_app.
  rewrite !Z.add_assoc, orb_assoc. done.
Qed.

Lemma replay_segment wm s r :
  counts_ok r →
  count_segment (let r' := fold_left (replay_entry wm) (seg_entries s) r in
                 if torn_tail s then set_torn r' else r') =
  extended r (above wm (seg_entries s)) 1 (torn_tail s).
Proof.
  intros Hr. rewrite replay_entries by done. unfold count_segment, set_torn, extended.
  destruct (torn_tail s); cbn; rewrite Z.add_0_r; f_equal;
    try (rewrite wrap_u32_add_l; done); by rewrite ?orb_true_r, ?orb_false_r.
Qed.

Lemma extended_counts r es n t : counts_ok (extended r es n t).
Proof. split; [apply wrap_u32_range|apply wrap_u64_range]. Qed.

Lemma recover_files_ok d segs wm r :
  Forall segment_ok segs → Forall (λ s, d !! segment_path (seg_no s) = Some (seg_bytes s)) segs →
  counts_ok r →
  recover_files d (map (λ s, segment_path (seg_no s)) segs) wm r =
  Ok (extended r (above wm (log_of segs)) (len segs) (existsb torn_tail segs)).
Proof.
  revert r. induction segs as [|s segs IH]; intros r Hok Hd Hr.
  - cbn. rewrite <-(replay_entries wm []) by done. done.
  - apply Forall_cons in Hok as [Hs Hok]. apply Forall_cons in Hd as [E Hd].
    cbn [map recover_files]. rewrite E. cbn [ok_or mbind result_bind].
    rewrite scan_segment_ok by done. cbn [mbind result_bind]. rewrite replay_segment by done.
    rewrite IH by (done || apply extended_counts). rewrite extended_extended. do 2 f_equal.
    + by rewrite <-above_app.
    + rewrite len_cons. lia.
Qed.

End Laws.

(** ** The directory *)

Lemma has_wal_extension_path n : has_wal_extension (segment_path n) = true.
Proof.
  unfold has_wal_extension, segment_path. rewrite ends_with_app, bool_decide_eq_false_2; [done|].
  intros E. apply (f_equal String.length) in E. revert E. unfold fmt_dec20. rewrite <-digits_app.
  rewrite length_digits. simpl. lia.
Qed.

Lemma seg_files_wf segs :
  StronglySorted (λ s t, seg_no s < seg_no t) segs → Forall segment_ok segs →
  bt_wf (map seg_file segs).
Proof.
  induction 1 as [|s segs Hs IH Hlt]; intros Hok; [constructor|].
  apply Forall_cons in Hok as [Hn Hok]. cbn [map]. constructor; [by apply IH|].
  rewrite Forall_forall in Hok, Hlt. apply Forall_forall. intros f (t & -> & Ht)%elem_of_map.
  unfold key_lt. cbn [seg_file fst]. unfold cmp, string_ord.
  rewrite segment_path_compare; [|apply Hn|by apply Hok]. apply Z.compare_lt_iff. by apply Hlt.
Qed.

Lemma dir_files d segs :
  dir_holds d segs →
  Permutation (List.filter (λ e, has_wal_extension e.1) (map_to_list d)) (map seg_file segs).
Proof.
  intros (Hs & Hok & Hd). pose proof (seg_files_wf _ Hs Hok) as Hwf. apply NoDup_Permutation.
  - apply NoDup_ListNoDup, List.NoDup_filter, NoDup_ListNoDup, NoDup_map_to_list.
  - eapply NoDup_fmap_1, bt_wf_NoDup_keys, Hwf.
  - intros [name b]. rewrite elem_of_filterb, elem_of_map_to_list. cbn [fst].
    rewrite <-bt_get_In by done. split.
    + intros [E Hw]. by rewrite <-Hd.
    + intros E. assert (has_wal_extension name = true) as Hw.
      { apply bt_get_Some_In, elem_of_map in E as (s & [= -> _] & _). apply has_wal_extension_path. }
      by rewrite Hd.
Qed.

Lemma get_wal_files_ok d segs :
  dir_holds d segs → get_wal_files d = map (λ s, segment_path (seg_no s)) segs.
Proof.
  intros Hd. unfold get_wal_files. rewrite (bt_collect_perm _ _ (dir_files _ _ Hd)).
  - by rewrite map_map.
  - destruct Hd as (? & ? & _). by apply seg_files_wf.
Qed.

Lemma dir_holds_lookup d segs s :
  dir_holds d segs → s ∈ segs → d !! segment_path (seg_no s) = Some (seg_bytes s).
Proof.
  intros (Hs & Hok & Hd) Hin. rewrite Hd by apply has_wal_extension_path.
  apply bt_In_get; [by apply seg_files_wf|]. apply elem_of_map. by exists s.
Qed.

Lemma recover_ok `{!Crc32Laws, !CodecLaws WalEntry entry_wf} d segs wm : dir_holds d segs → recover d wm = Ok (recovered segs wm).
Proof.
  intros Hd. unfold recover. rewrite (get_wal_files_ok _ _ Hd), recover_files_ok; [done|apply Hd| |done].
  apply Forall_forall. intros s Hs. by apply (dir_holds_lookup d segs).
Qed.

(** The highest number among the directory's segments. *)
Lemma highest_fold l acc :
  let r := fold_left max_segment l acc in
  (∀ a, acc = Some a → ∃ m, r = Some m ∧ a <= m) ∧
  (∀ e n, e ∈ l → segment_number e.1 = Some n → ∃ m, r = Some m ∧ n <= m) ∧
  (r = acc ∨ ∃ e, e ∈ l ∧ is_Some r ∧ segment_number e.1 = r).
Proof.
  revert acc. induction l as [|e l IH]; intros acc.
  - cbn. split; [intros a ->; exists a; split; [done|lia]|].
    split; [by intros e n He%elem_of_nil|by left].
  - cbn [fold_left]. set (acc' := max_segment acc e).
    destruct (IH acc') as (Ha & Hl & Hr). split_and!.
    + intros a ->. assert (∃ a', acc' = Some a' ∧ a <= a') as (a' & E & Hle).
      { unfold acc', max_segment. destruct (segment_number e.1) as [n|]; [|eauto with lia].
        destruct (a <? n) eqn:L; zbool; eauto with lia. }
      destruct (Ha a' E) as (m & -> & ?). exists m. split; [done|lia].
    + intros e0 n He Hn. apply elem_of_cons in He as [->|He]; [|by eapply Hl].
      assert (∃ a', acc' = Some a' ∧ n <= a') as (a' & E & Hle).
      { unfold acc', max_segment. rewrite Hn. destruct acc as [a|]; [|eauto with lia].
        destruct (a <? n) eqn:L; zbool; eauto with lia. }
      destruct (Ha a' E) as (m & -> & ?). exists m. split; [done|lia].
    + destruct Hr as [->|(e0 & He0 & Hs)]; [|right; exists e0; split; [by right|done]].
      unfold acc', max_segment. destruct (segment_number e.1) as [n|] eqn:E; [|by left].
      destruct acc as [a|]; [destruct (a <? n); [|by left]|];
        right; exists e; split_and!; [left|eauto|by rewrite E|left|eauto|by rewrite E].
Qed.

Lemma segment_number_not_wal name : has_wal_extension name = false → segment_number name = None.
Proof.
  unfold has_wal_extension, segment_number. destruct (ends_with ".wal" name) eqn:E; [|done].
  cbn [andb]. case_bool_decide as D; [|done]. intros _. by subst.
Qed.

Lemma highest_segment_number_ok d segs s :
  dir_holds d (segs ++ [s]) → highest_segment_number d = Some (seg_no s).
Proof.
  intros Hd. pose proof Hd as (Hs & Hok & Hl).
  destruct (highest_fold (map_to_list d) None) as (_ & Hle & Hr).
  fold (highest_segment_number d) in Hle, Hr. rewrite Forall_forall in Hok.
  assert (s ∈ segs ++ [s]) as Hin by set_solver.
  destruct (Hle (seg_file s) (seg_no s)) as (m & E & Hm).
  { apply elem_of_map_to_list. cbn. by apply (dir_holds_lookup d (segs ++ [s])). }
  { apply segment_number_path, Hok, Hin. }
  rewrite E in Hr |- *. f_equal. destruct Hr as [?|([name b] & He & _ & Hn)]; [done|].
  apply elem_of_map_to_list in He. cbn in Hn.
  destruct (has_wal_extension name) eqn:Hw; [|by rewrite segment_number_not_wal in Hn].
  rewrite Hl in He by done. apply bt_get_Some_In, elem_of_map in He as (t & [= -> _] & Ht).
  rewrite segment_number_path in Hn by (by apply Hok). injection Hn as <-.
  apply elem_of_app in Ht as [Ht|Ht%list_elem_of_singleton]; [|by subst].
  apply StronglySorted_app in Hs as (Hlt & _). specialize (Hlt t s Ht). set_solver by lia.
Qed.

(** Such a directory exists for every list of segments. *)
Lemma dir_of_holds segs :
  StronglySorted (λ s t, seg_no s < seg_no t) segs → Forall segment_ok segs →
  dir_holds (list_to_map (map seg_file segs)) segs.
Proof.
  intros Hs Hok. pose proof (seg_files_wf _ Hs Hok) as Hwf. split; [done|]. split; [done|].
  intros name _. apply option_eq. intros b. rewrite bt_get_In by done. symmetry.
  apply elem_of_list_to_map. by apply bt_wf_NoDup_keys.
Qed.

(** ** Torn writes *)

Lemma sub_take_le {A} (l : list A) k off n :
  0 <= off → 0 <= n → off + n <= Z.of_nat k → sub (take k l) off n = sub l off n.
Proof.
  intros. unfold sub. rewrite skipn_firstn_comm, take_take. f_equal. lia.
Qed.

(** A frame that was cut short is not taken for a frame. *)
Lemma tail_end_torn p k :
  len p < u32_mod → (k < length (frame_of p))%nat →
  tail_end (take k (frame_of p)) = Some (8 <=? Z.of_nat k).
Proof.
  intros Hp Hk. unfold tail_end.
  assert (len (take k (frame_of p)) = Z.of_nat k) as -> by (unfold len; rewrite length_take; lia).
  pose proof (len_frame_of p) as Hlen. unfold len in Hlen, Hp |- *.
  destruct (Z.of_nat k <? 8) eqn:E; zbool; [f_equal; lia|].
  rewrite sub_take_le by lia.
  assert (sub (frame_of p) 0 4 = le_bytes 4 (len p)) as -> by by apply (sub_app_mid []).
  rewrite le_u32_roundtrip by (unfold in_u32, len; lia). unfold len.
  replace (Z.of_nat k <? _) with true by lia. f_equal. lia.
Qed.

(** [j] is how many frames of the batch fit into its first [k] bytes. *)
Definition complete_frames (es : list WalEntry) (k j : nat) : Prop :=
  (length (frames (take j es)) ≤ k)%nat ∧
  (j = length es ∨ k < length (frames (take (S j) es)))%nat.

Lemma length_frames_cons e es :
  length (frames (e :: es)) = (length (entry_frame e) + length (frames es))%nat.
Proof. apply length_app. Qed.

(** A prefix of a batch is some of its frames and a torn one. *)
Lemma take_frames es k :
  Forall entry_ok es →
  ∃ j tail t, complete_frames es k j ∧
    take k (frames es) = frames (take j es) ++ tail ∧ tail_end tail = Some t.
Proof.
  unfold complete_frames.
  intros Hes. revert k. induction Hes as [|e es [_ Hfit] Hes IH]; intros k.
  - exists O, [], false. split; [split; [simpl; lia|by left]|]. split; [apply take_nil|done].
  - change (frames (e :: es)) with (entry_frame e ++ frames es). rewrite take_app.
    destruct (decide (k < length (entry_frame e))%nat) as [Hlt|Hge].
    + exists O, (take k (entry_frame e)), (8 <=? Z.of_nat k).
      replace (k - length (entry_frame e))%nat with O by lia. rewrite take_0, app_nil_r.
      split; [split; [simpl; lia|right; cbn [take]; rewrite length_frames_cons; lia]|].
      split; [done|]. by apply tail_end_torn.
    + destruct (IH (k - length (entry_frame e))%nat) as (j & tail & t & [Hj Hj'] & E & Ht).
      exists (S j), tail, t. rewrite E, (take_ge (entry_frame e)) by lia.
      rewrite (firstn_cons j e es), (firstn_cons (S j) e es), !length_frames_cons.
      split; [split; [lia|cbn [length]; lia]|]. split; [|done].
      change (frames (e :: take j es)) with (entry_frame e ++ frames (take j es)).
      by rewrite app_assoc.
Qed.

(** ** Changing one segment *)

Lemma segments_lt segs s :
  StronglySorted (λ s t, seg_no s < seg_no t) (segs ++ [s]) → Forall segment_ok (segs ++ [s]) →
  Forall (λ p, cmp p.1 (segment_path (seg_no s)) = Lt) (map seg_file segs).
Proof.
  intros (Hlt & _)%StronglySorted_app Hok. rewrite Forall_forall in Hok. apply Forall_forall.
  intros f (t & -> & Ht)%elem_of_map. unfold cmp, string_ord. cbn [seg_file fst].
  rewrite segment_path_compare by (apply Hok; set_solver).
  apply Z.compare_lt_iff, Hlt; set_solver.
Qed.

(** Setting the file of the last segment, which may be new. *)
Lemma dir_holds_set d segs old s :
  dir_holds d (segs ++ old) → (old = [] ∨ ∃ s0, old = [s0] ∧ seg_no s0 = seg_no s) →
  StronglySorted (λ s t, seg_no s < seg_no t) (segs ++ [s]) → segment_ok s →
  dir_holds (<[segment_path (seg_no s) := seg_bytes s]> d) (segs ++ [s]).
Proof.
  intros (Hs & Hok & Hd) Hold Hs' Hsok. apply Forall_app in Hok as [Hok _].
  assert (Forall segment_ok (segs ++ [s])) as Hok' by (apply Forall_app; auto).
  split; [done|]. split; [done|]. intros name Hw.
  assert (map seg_file (segs ++ [s]) =
    bt_insert (map seg_file (segs ++ old)) (segment_path (seg_no s)) (seg_bytes s)) as ->.
  { rewrite !map_app, bt_insert_app_l by (by apply segments_lt).
    destruct Hold as [->|(s0 & -> & E)]; [done|]. cbn. by rewrite E, cmp_refl. }
  rewrite bt_get_insert. case_decide as D; subst.
  - by rewrite lookup_insert_eq.
  - by rewrite lookup_insert_ne, Hd by done.
Qed.

(** Appending complete entries and a tail to the last segment. *)
Lemma dir_holds_append d segs s es tail t :
  dir_holds d (segs ++ [s]) → seg_tail s = [] → Forall entry_ok es → tail_end tail = Some t →
  dir_holds (<[segment_path (seg_no s) := seg_bytes s ++ frames es ++ tail]> d)
    (segs ++ [{| seg_no := seg_no s; seg_entries := seg_entries s ++ es; seg_tail := tail |}]).
Proof.
  intros Hd Htl Hes Ht. set (s' := {| seg_no := seg_no s |}).
  assert (seg_bytes s ++ frames es ++ tail = seg_bytes s') as ->.
  { unfold seg_bytes, frames. rewrite Htl. cbn. by rewrite map_app, concat_app, app_nil_r, app_assoc. }
  apply (dir_holds_set d segs [s] s' Hd); [right; by exists s| |].
  - destruct Hd as ((Hlt & Hss & _)%StronglySorted_app & _). apply StronglySorted_app. split_and!;
      [|done|repeat constructor]. intros t1 t2 Ht1 ->%list_elem_of_singleton. cbn. apply Hlt; set_solver.
  - destruct Hd as (_ & (_ & ((Hn & He & _) & _)%Forall_cons)%Forall_app & _).
    split_and!; [done|by apply Forall_app|by eexists].
Qed.

(** Deleting a segment file. *)
Lemma dir_holds_delete d segs n :
  dir_holds d segs → in_u64 n →
  dir_holds (delete (segment_path n) d) (List.filter (λ s, negb (seg_no s =? n)) segs).
Proof.
  intros (Hs & Hok & Hd) Hn.
  assert (Forall segment_ok (List.filter (λ s, negb (seg_no s =? n)) segs)) as Hok'.
  { rewrite Forall_forall in *. intros s [Hin _]%elem_of_filterb. by apply Hok. }
  pose proof (StronglySorted_filterb _ (λ s, negb (seg_no s =? n)) _ Hs) as Hs'.
  split; [done|]. split; [done|]. intros name Hw.
  apply option_eq. intros b. rewrite bt_get_In, elem_of_map by (by apply seg_files_wf).
  setoid_rewrite elem_of_filterb. rewrite lookup_delete_Some, Hd, bt_get_In, elem_of_map
    by (done || by apply seg_files_wf). rewrite Forall_forall in Hok. split.
  - intros (Hne & s & E & Hin). exists s. split; [done|]. split; [done|].
    apply negb_true_iff, Z.eqb_neq. intros <-. by injection E as -> _.
  - intros (s & E & Hin & Hf). apply negb_true_iff, Z.eqb_neq in Hf. injection E as -> ->.
    split; [|by exists s]. intros E. apply Hf. symmetry. apply segment_path_inj; [done|by apply Hok|done].
Qed.

(** A crash in the middle of a batch write. *)
Lemma dir_holds_crash d segs s es k :
  dir_holds d (segs ++ [s]) → seg_tail s = [] → Forall entry_ok es →
  ∃ j s', complete_frames es k j ∧ seg_no s' = seg_no s ∧ seg_entries s' = seg_entries s ++ take j es ∧
    dir_holds (<[segment_path (seg_no s) := seg_bytes s ++ take k (frames es)]> d) (segs ++ [s']).
Proof.
  intros Hd Htl Hes. destruct (take_frames es k Hes) as (j & tail & t & Hj & E & Ht). rewrite E.
  exists j, {| seg_no := seg_no s; seg_entries := seg_entries s ++ take j es; seg_tail := tail |}.
  do 3 (split; [done|]). eapply dir_holds_append; eauto. by apply Forall_take.
Qed.

Lemma log_of_app segs segs' : log_of (segs ++ segs') = log_of segs ++ log_of segs'.
Proof. apply flat_map_app. Qed.

End Recovery.

(** ** Sample log *)

Definition wal_point_tuple (p : WalDataPoint) : string * Tags * Z * Z :=
  (w_metric_name p, w_tags p, w_timestamp_ns p, f64_bits (w_value p)).
#[global] Instance ser_wal_point : Ser WalDataPoint :=
  ser_iso wal_point_tuple
    (λ q, {| w_metric_name := q.1.1.1; w_tags := q.1.1.2; w_timestamp_ns := q.1.2; w_value := F64 q.2 |}).
#[global] Instance ser_wal_point_laws : SerLaws WalDataPoint.
Proof. apply ser_iso_laws. by intros [? ? ? []]. Qed.
#[global] Instance ser_wal_entry : Ser WalEntry :=
  ser_iso (λ e, (sequence e, points e)) (λ q, {| sequence := q.1; points := q.2 |}).
#[global] Instance ser_wal_entry_laws : SerLaws WalEntry.
Proof. apply ser_iso_laws. by intros []. Qed.

Definition wal_codec : Codec WalEntry := ser_codec WalEntry.

Lemma wal_codec_laws : @CodecLaws WalEntry wal_codec entry_wf.
Proof. intros e _. exact (ser_codec_laws WalEntry e I). Qed.

(** Two segments: two entries, and one entry followed by five stray bytes. *)
Definition entry_at (seq : Z) (p : DataPoint) : WalEntry := wal_entry seq [p].
Definition tiny_key : SeriesKey := {| sk_metric_name := "m"; sk_tags := [] |}.
Definition tiny_entry (seq : Z) : WalEntry :=
  {| sequence := seq;
     points := [{| w_metric_name := "m"; w_tags := []; w_timestamp_ns := seq; w_value := F64 seq |}] |}.
Definition sample_segments : list Segment :=
  [{| seg_no := 1; seg_entries := [tiny_entry 1; tiny_entry 2]; seg_tail := [] |};
   {| seg_no := 2; seg_entries := [tiny_entry 3]; seg_tail := [] |}].
Definition sample_dir : Dir :=
  list_to_map (map (@seg_file ieee_crc32 wal_codec) sample_segments).

Lemma tiny_entry_ok seq :
  0 <= seq < 2 ^ 20 → @entry_fits wal_codec (tiny_entry seq) → @entry_ok wal_codec (tiny_entry seq).
Proof.
  intros Hs Hf. change (2 ^ 20) with 1048576 in Hs. split; [|done]. split; [cbn; width|].
  apply Forall_cons. split; [|constructor]. split; [|split; [cbn; width|]].
  - split; [done|]. split; constructor.
  - unfold f64_wf. cbn. width.
Qed.

Lemma sample_dir_holds : @dir_holds ieee_crc32 wal_codec sample_dir sample_segments.
Proof.
  apply dir_of_holds; [repeat constructor|].
  repeat (apply Forall_cons; split; [split; [done|split; [|by eexists]]|]); [| |constructor];
    repeat (apply Forall_cons; split; [apply tiny_entry_ok; [lia|vm_compute; reflexivity]|]); constructor.
Qed.

(** ** Properties *)



(** A frame that is cut inside its header is not reported: a segment that ends in one to
    seven bytes of a frame makes recovery stop early there, and [torn_write_detected] stays
    false. *)
Theorem recovery_short_tail_unreported `{HC : Crc32, HD : Codec WalEntry} (LC : Crc32Laws)
    (LD : CodecLaws WalEntry entry_wf) d no es tail wm
    (Hd : dir_holds d [{| seg_no := no; seg_entries := es; seg_tail := tail |}]) (Ht : 0 < len tail < 8) :
  ∃ r, recover d wm = Ok r ∧ rr_points r = points_of (above wm es) ∧ torn_write_detected r = false.
Proof.
  exists (recovered [{| seg_no := no; seg_entries := es; seg_tail := tail |}] wm). split; [by apply recover_ok|].
  unfold recovered, torn_tail, tail_end. cbn. rewrite app_nil_r. split; [done|].
  by replace (len tail <? 8) with true by lia.
Qed.

(** A crash in the middle of a group-commit write loses no earlier entry: when
    only the first [k] bytes of the batch reached the open segment, recovery returns
    everything that was there before and exactly the frames of the batch that fit
    into those [k] bytes. *)
Theorem recovery_after_torn_batch `{HC : Crc32, HD : Codec WalEntry} (LC : Crc32Laws)
    (LD : CodecLaws WalEntry entry_wf) d segs s es k wm
    (Hd : dir_holds d (segs ++ [s])) (Htl : seg_tail s = []) (Hes : Forall entry_ok es) :
  ∃ j r, complete_frames es k j ∧
    recover (<[segment_path (seg_no s) := seg_bytes s ++ take k (frames es)]> d) wm = Ok r ∧
    rr_points r = points_of (above wm (log_of (segs ++ [s]) ++ take j es)).
Proof.
  destruct (dir_holds_crash d segs s es k Hd Htl Hes) as (j & s' & Hj & _ & E & Hd').
  exists j, (recovered (segs ++ [s']) wm). split; [done|]. split; [by apply recover_ok|].
  unfold recovered. cbn [rr_points]. rewrite !log_of_app. cbn. by rewrite E, !app_nil_r, app_assoc.
Qed.

(** The second segment of the sample, and a batch of one entry cut at ten bytes. *)
Lemma recovery_after_torn_batch_witness :
  ∃ j r, @complete_frames ieee_crc32 wal_codec [tiny_entry 4] 10 j ∧
    @recover ieee_crc32 wal_codec
      (<[segment_path 2 := @frames ieee_crc32 wal_codec [tiny_entry 3] ++
          take 10 (@frames ieee_crc32 wal_codec [tiny_entry 4])]> sample_dir) 2 = Ok r ∧
    rr_points r = points_of (above 2 ([tiny_entry 1; tiny_entry 2; tiny_entry 3] ++ take j [tiny_entry 4])).
Proof.
  rewrite <-(app_nil_r (frames [tiny_entry 3])).
  exact (recovery_after_torn_batch (HC := ieee_crc32) (HD := wal_codec) ieee_crc32_laws wal_codec_laws
    sample_dir [{| seg_no := 1; seg_entries := [tiny_entry 1; tiny_entry 2]; seg_tail := [] |}]
    {| seg_no := 2; seg_entries := [tiny_entry 3]; seg_tail := [] |} [tiny_entry 4] 10 2
    sample_dir_holds eq_refl
    (Forall_cons_2 _ _ _ (tiny_entry_ok 4 ltac:(lia) ltac:(vm_compute; reflexivity)) (Forall_nil_2 _))).
Defined.

(** C27. The frame loop ends on any bytes, corrupt ones included: it goes through at most one
    round for every eight bytes of the segment and one more, with a result that more fuel
    does not change, and that is the result [recover] takes for the segment. *)
Theorem recovery_scan_terminates `{HC : Crc32, HD : Codec WalEntry} buf wm r :
  ∃ res, scan_segment buf wm r = res ∧
    ∀ more, scan_loop (S (length buf / 8) + more) buf 0 wm r = Some res.
Proof.
  destruct (scan_loop_ends (length buf / 8) buf 0 wm r) as (res & Hres); [lia|apply scan_rounds|].
  exists res. split; [|done]. by apply scan_segment_loop with (S (length buf / 8) + 0)%nat.
Qed.
