(* ===== verification/GroupCommit.v ===== *)
(** * Group commit ([src/storage-engine/src/wal/group_commit.rs])

    One task per shard owns the writer and serves a channel: it takes the waiting
    messages as a batch, writes the frames of all appends with one write and one
    [sync_all], publishes the last sequence and answers every message.

    [process_batch] is one iteration of the task; the outcome of the write and of
    the (up to two) rotations are arguments.  The step relation [wal_step] adds the
    clients that delete the segments a drain returned, at any later time.  The
    theorems relate it to an append-only log: what was acknowledged and not
    garbage-collected is exactly what recovery returns, also after a crash in the
    middle of a batch. *)
From S2P Require Import Prelude BTree F64 Externals Types Memtable Fs WalWriter Recovery.

(** [WalMessage]; a reply channel is a number. *)
Inductive WalMessage :=
| Append (pts : list DataPoint) (reply : nat)
| Rotate (reply : nat)
| DrainBefore (seq : Z) (reply : nat).

Inductive Reply :=
| ReplySeq (r : result Z)
| ReplyPaths (r : result (list string)).

Definition reply_id (m : WalMessage) : nat :=
  match m with Append _ r => r | Rotate r => r | DrainBefore _ r => r end.

(** The task: the shard's directory, the writer and the published sequence. *)
Record WalTask := {
  dir : Dir;
  writer : WalWriter;
  last_seq : Z
}.

(** [mpsc::channel] panics unless the capacity is positive and at most
    [Semaphore::MAX_PERMITS]. *)
Definition channel_ok (capacity : Z) : bool := (0 <? capacity) && (capacity <=? u64_max / 8).

(** [WalSender::spawn], once the channel exists, and [WalSender::current_sequence]. *)
Definition spawn (d : Dir) (w : WalWriter) : WalTask :=
  {| dir := d; writer := w; last_seq := current_seq w |}.
Definition sender_current_sequence (t : WalTask) : Z := last_seq t.

(** Steps 1 to 3 of the loop: the batch taken from the waiting messages, and the
    messages left in the channel. *)
Fixpoint drain_backlog (max_batch : Z) (batch waiting : list WalMessage)
    : list WalMessage * list WalMessage :=
  match waiting with
  | [] => (batch, [])
  | m :: waiting' =>
      if len batch <? max_batch then drain_backlog max_batch (batch ++ [m]) waiting'
      else (batch, waiting)
  end.
Definition collect_batch (max_batch : Z) (waiting : list WalMessage)
    : list WalMessage * list WalMessage :=
  match waiting with
  | [] => ([], [])
  | m :: waiting' => drain_backlog max_batch [m] waiting'
  end.

(** The local variables of an iteration. *)
Record Gathered := {
  g_frames : bytes;
  g_seqs : list Z;
  g_replies : list nat;
  g_rotate : option nat;
  g_drains : list (Z * nat);
  g_sent : list (nat * Reply)
}.

Section Task.
Context `{Crc32, Codec WalEntry}.

(** The body of [for msg in batch]. *)
Definition gather_step (st : WalWriter * Gathered) (m : WalMessage) : WalWriter * Gathered :=
  let '(w, g) := st in
  match m with
  | Append pts reply =>
      let w' := bump_seq w in
      (w', {| g_frames := g_frames g ++ encode_frame (current_seq w') pts;
              g_seqs := g_seqs g ++ [current_seq w'];
              g_replies := g_replies g ++ [reply];
              g_rotate := g_rotate g; g_drains := g_drains g; g_sent := g_sent g |})
  | Rotate reply =>
      match g_rotate g with
      | None => (w, {| g_frames := g_frames g; g_seqs := g_seqs g; g_replies := g_replies g;
                       g_rotate := Some reply; g_drains := g_drains g; g_sent := g_sent g |})
      | Some _ =>
          (w, {| g_frames := g_frames g; g_seqs := g_seqs g; g_replies := g_replies g;
                 g_rotate := g_rotate g; g_drains := g_drains g;
                 g_sent := g_sent g ++ [(reply, ReplyPaths (Err "concurrent Rotate in same batch"))] |})
      end
  | DrainBefore seq reply =>
      (w, {| g_frames := g_frames g; g_seqs := g_seqs g; g_replies := g_replies g;
             g_rotate := g_rotate g; g_drains := g_drains g ++ [(seq, reply)];
             g_sent := g_sent g |})
  end.

Definition gather (w : WalWriter) (batch : list WalMessage) : WalWriter * Gathered :=
  fold_left gather_step batch
    (w, {| g_frames := []; g_seqs := []; g_replies := []; g_rotate := None; g_drains := [];
           g_sent := [] |}).

(** One write and one [sync_all] for the whole batch. *)
Definition commit (d : Dir) (w : WalWriter) (frames : bytes) (io : io_outcome)
    : Dir * WalWriter * result () :=
  match frames with
  | [] => (d, w, Ok ())
  | _ =>
      match append_sync d (file w) frames io with
      | (d', Ok _) => (d', grow w (len frames), Ok ())
      | (d', Err e) => (d', w, Err e)
      end
  end.

(** Rotation once the segment is full; a failure is only logged. *)
Definition rotate_if_full (d : Dir) (w : WalWriter) (ok : bool) : Dir * WalWriter :=
  if max_segment_bytes w <=? current_size w then (rotate d w ok).1 else (d, w).

(** Serving the DrainBefore messages: one drain at the highest sequence. *)
Definition serve_drains (w : WalWriter) (drains : list (Z * nat)) : WalWriter * list (nat * Reply) :=
  match drains with
  | [] => (w, [])
  | _ =>
      let max_seq := fold_left (λ m d, Z.max m d.1) drains 0 in
      let '(paths, w') := drain_completed_before w max_seq in
      (w', map (λ d, (d.2, ReplyPaths (Ok paths))) drains)
  end.

(** Serving the Rotate message. *)
Definition serve_rotate (d : Dir) (w : WalWriter) (req : option nat) (ok : bool)
    : Dir * WalWriter * list (nat * Reply) :=
  match req with
  | None => (d, w, [])
  | Some reply =>
      match rotate d w ok with
      | (d', w', Ok _) =>
          let '(paths, w'') := drain_completed_before w' u64_max in
          (d', w'', [(reply, ReplyPaths (Ok paths))])
      | (d', w', Err e) => (d', w', [(reply, ReplyPaths (Err e))])
      end
  end.

(** One iteration of [wal_task] on a batch: the new state and the replies, in the
    order they are sent. *)
Definition process_batch (t : WalTask) (batch : list WalMessage) (io : io_outcome) (rot1 rot2 : bool)
    : WalTask * list (nat * Reply) :=
  let '(w, g) := gather (writer t) batch in
  match commit (dir t) w (g_frames g) io with
  | (d1, w1, Ok _) =>
      let published := match last (g_seqs g) with Some s => s | None => last_seq t end in
      let acks := map (λ sr, (sr.2, ReplySeq (Ok sr.1))) (zip (g_seqs g) (g_replies g)) in
      let '(d2, w2) := rotate_if_full d1 w1 rot1 in
      let '(w3, drained) := serve_drains w2 (g_drains g) in
      let '(d4, w4, rotated) := serve_rotate d2 w3 (g_rotate g) rot2 in
      ({| dir := d4; writer := w4; last_seq := published |},
       g_sent g ++ acks ++ drained ++ rotated)
  | (d1, w1, Err e) =>
      ({| dir := d1; writer := w1; last_seq := last_seq t |},
       g_sent g ++ map (λ r, (r, ReplySeq (Err e))) (g_replies g)
       ++ map (λ d, (d.2, ReplyPaths (Err "WAL write failed"))) (g_drains g)
       ++ match g_rotate g with Some r => [(r, ReplyPaths (Err "WAL write failed"))] | None => [] end)
  end.

(** ** What a batch asks for *)

Fixpoint appends (batch : list WalMessage) : list (list DataPoint * nat) :=
  match batch with
  | [] => []
  | Append pts r :: batch' => (pts, r) :: appends batch'
  | _ :: batch' => appends batch'
  end.
Fixpoint drains (batch : list WalMessage) : list (Z * nat) :=
  match batch with
  | [] => []
  | DrainBefore s r :: batch' => (s, r) :: drains batch'
  | _ :: batch' => drains batch'
  end.
Fixpoint rotates (batch : list WalMessage) : list nat :=
  match batch with
  | [] => []
  | Rotate r :: batch' => r :: rotates batch'
  | _ :: batch' => rotates batch'
  end.

(** The appends as log entries, numbered from the writer's sequence. *)
Fixpoint number (seq : Z) (aps : list (list DataPoint * nat)) : list WalEntry :=
  match aps with
  | [] => []
  | (pts, _) :: aps' => wal_entry (wrap_u64 (seq + 1)) pts :: number (wrap_u64 (seq + 1)) aps'
  end.
Definition new_entries (w : WalWriter) (batch : list WalMessage) : list WalEntry :=
  number (current_seq w) (appends batch).

(** The writer after [n] more sequence numbers. *)
Definition advance (w : WalWriter) (n : nat) : WalWriter := Nat.iter n bump_seq w.

Lemma gather_spec batch w g :
  fold_left gather_step batch (w, g) =
  (advance w (length (appends batch)),
   {| g_frames := g_frames g ++ frames (new_entries w batch);
      g_seqs := g_seqs g ++ map sequence (new_entries w batch);
      g_replies := g_replies g ++ map snd (appends batch);
      g_rotate := match g_rotate g with Some r => Some r | None => head (rotates batch) end;
      g_drains := g_drains g ++ drains batch;
      g_sent := g_sent g ++
        map (λ r, (r, ReplyPaths (Err "concurrent Rotate in same batch")))
          (match g_rotate g with Some _ => rotates batch | None => tail (rotates batch) end) |}).
Proof.
  unfold new_entries. revert w g. induction batch as [|m batch IH]; intros w g.
  - destruct g as [f s r [|] dr se]; cbn; by rewrite !app_nil_r.
  - cbn [fold_left]. destruct m as [pts r|r|sq r]; cbn [gather_step appends drains rotates].
    + rewrite IH. cbn [g_frames g_seqs g_replies g_rotate g_drains g_sent length number map].
      f_equal; [symmetry; apply Nat.iter_succ_r|].
      change (frames (?e :: ?l)) with (entry_frame e ++ frames l). cbn [map snd].
      by rewrite <-!app_assoc.
    + destruct (g_rotate g) as [r0|] eqn:E; rewrite IH;
        cbn [g_frames g_seqs g_replies g_rotate g_drains g_sent]; rewrite ?E; [|done].
      by rewrite <-!app_assoc.
    + rewrite IH. cbn [g_frames g_seqs g_replies g_rotate g_drains g_sent].
      by rewrite <-!app_assoc.
Qed.

(** ** Every message is answered *)

Lemma length_number seq aps : length (number seq aps) = length aps.
Proof. revert seq. induction aps as [|[pts r] aps IH]; intros seq; cbn; [done|]. by rewrite IH. Qed.

Lemma batch_ids batch :
  Permutation (map reply_id batch)
    (tail (rotates batch) ++ map snd (appends batch) ++ map snd (drains batch) ++
     option_list (head (rotates batch))).
Proof.
  assert (Permutation (map reply_id batch)
    (rotates batch ++ map snd (appends batch) ++ map snd (drains batch))) as ->.
  { induction batch as [|m batch IH]; [done|]. cbn [map]. rewrite IH.
    destruct m; cbn [reply_id appends drains rotates map snd]; solve_Permutation. }
  destruct (rotates batch) as [|r rs]; cbn; solve_Permutation.
Qed.

Lemma serve_drains_ids w ds : map fst (serve_drains w ds).2 = map snd ds.
Proof.
  unfold serve_drains. destruct ds as [|d ds]; [done|]. set (ds' := d :: ds).
  destruct (drain_completed_before _ _). cbn. by rewrite map_map.
Qed.

Lemma serve_rotate_ids d w req ok : map fst (serve_rotate d w req ok).2 = option_list req.
Proof.
  unfold serve_rotate. destruct req as [r|]; [|done].
  destruct (rotate d w ok) as [[d' w'] [u|e]]; [|done].
  by destruct (drain_completed_before _ _).
Qed.

Lemma acks_ids (seqs : list Z) (ids : list nat) :
  length seqs = length ids →
  map fst (map (λ sr : Z * nat, (sr.2, ReplySeq (Ok sr.1))) (zip seqs ids)) = ids.
Proof.
  intros E. rewrite map_map. cbn. revert ids E. induction seqs as [|s seqs IH]; intros [|i ids] E;
    simpl in *; try done. f_equal. apply IH. lia.
Qed.

Lemma process_batch_ids t batch io rot1 rot2 :
  Permutation (map fst (process_batch t batch io rot1 rot2).2) (map reply_id batch).
Proof.
  rewrite batch_ids. unfold process_batch, gather. rewrite gather_spec.
  cbn [g_frames g_seqs g_replies g_rotate g_drains g_sent].
  destruct (commit _ _ _ _) as [[d1 w1] [u|e]].
  - destruct (rotate_if_full d1 w1 rot1) as [d2 w2].
    destruct (serve_drains w2 _) as [w3 drained] eqn:Ed.
    destruct (serve_rotate d2 w3 _ rot2) as [[d4 w4] rotated] eqn:Er. cbn [snd].
    pose proof (serve_drains_ids w2 (drains batch)) as Hd.
    pose proof (serve_rotate_ids d2 w3 (head (rotates batch)) rot2) as Hr.
    cbn [app] in Ed. rewrite Ed in Hd. rewrite Er in Hr. cbn [snd] in Hd, Hr.
    rewrite !map_app, Hd, Hr, acks_ids by (cbn; rewrite !length_map; apply length_number).
    cbn [app]. by rewrite map_map, map_id.
  - cbn [snd app]. rewrite !map_app, !map_map. cbn [fst]. rewrite !map_id.
    by destruct (head (rotates batch)).
Qed.

(** ** Taking a batch *)

Lemma drain_backlog_spec mb batch waiting :
  let r := drain_backlog mb batch waiting in
  r.1 ++ r.2 = batch ++ waiting ∧ (∃ more, r.1 = batch ++ more) ∧
  (len r.1 <= Z.max (len batch) mb) ∧ (r.2 = [] ∨ mb <= len r.1).
Proof.
  revert batch. induction waiting as [|m waiting IH]; intros batch; cbn [drain_backlog].
  - cbn. split; [done|]. split; [exists []; by rewrite app_nil_r|]. split; [lia|by left].
  - destruct (len batch <? mb) eqn:E; zbool.
    + destruct (IH (batch ++ [m])) as (Ha & (more & Hm) & Hl & Hr). cbv zeta.
      split; [by rewrite Ha, <-app_assoc|]. split; [exists (m :: more); by rewrite Hm, <-app_assoc|].
      rewrite len_app, len_cons, len_nil in Hl. split; [lia|done].
    + cbn. split; [done|]. split; [exists []; by rewrite app_nil_r|]. split; [lia|by right].
Qed.

(** ** The writer's invariant *)

Definition seqs_below (n : Z) (es : list WalEntry) : Prop := Forall (λ e, sequence e <= n) es.

(** [d] holds the segments, the last of them open and clean; sequences increase
    along the log up to the writer's; what is recorded for a completed segment
    bounds the sequences in it. *)
Record log_inv (d : Dir) (w : WalWriter) (older : list Segment) (cur : Segment) : Prop := {
  inv_dir : dir_holds d (older ++ [cur]);
  inv_no : seg_no cur = current_segment w;
  inv_file : file w = segment_path (current_segment w);
  inv_tail : seg_tail cur = [];
  inv_sorted : StronglySorted Z.lt (map sequence (log_of (older ++ [cur])));
  inv_seqs : seqs_below (current_seq w) (log_of (older ++ [cur]));
  inv_seq64 : in_u64 (current_seq w);
  inv_completed : Forall (λ c, 0 <= c.1 < current_segment w ∧
    ∀ s, s ∈ older → seg_no s = c.1 → seqs_below c.2 (seg_entries s)) (completed_segments w)
}.

Lemma advance_spec w n :
  in_u64 (current_seq w) → current_seq w + Z.of_nat n < u64_mod →
  advance w n =
  {| file := file w; current_seq := current_seq w + Z.of_nat n; current_size := current_size w;
     current_segment := current_segment w; max_segment_bytes := max_segment_bytes w;
     completed_segments := completed_segments w |}.
Proof.
  intros Hs Hb. unfold advance. induction n as [|n IH].
  - cbn. rewrite Z.add_0_r. by destruct w.
  - rewrite Nat.iter_succ. rewrite IH by lia. unfold bump_seq. cbn. f_equal.
    rewrite wrap_u64_id by (destruct Hs; split; lia). lia.
Qed.

Lemma number_seqs seq aps :
  in_u64 seq → seq + len aps < u64_mod →
  Forall (λ e, seq < sequence e <= seq + len aps) (number seq aps) ∧
  StronglySorted Z.lt (map sequence (number seq aps)).
Proof.
  revert seq. induction aps as [|[pts r] aps IH]; intros seq Hs Hb; [by repeat constructor|].
  rewrite len_cons in *. pose proof (len_nonneg aps). cbn [number].
  rewrite wrap_u64_id by (destruct Hs; split; lia).
  destruct (IH (seq + 1)) as [Hall Hsort]; [destruct Hs; split; lia|lia|].
  assert (Forall (λ e, seq + 1 < sequence e <= seq + (1 + len aps)) (number (seq + 1) aps)) as Hall'.
  { eapply Forall_impl; [exact Hall|]. cbn. lia. }
  split.
  - constructor; [cbn; lia|]. eapply Forall_impl; [exact Hall'|]. cbn. lia.
  - cbn [map]. constructor; [done|]. apply Forall_map. eapply Forall_impl; [exact Hall'|].
    intros e. cbn. lia.
Qed.

Lemma seqs_below_mono n m es : n <= m → seqs_below n es → seqs_below m es.
Proof. intros Hle He. eapply Forall_impl; [exact He|]. cbn. lia. Qed.

Lemma log_of_snoc older cur : log_of (older ++ [cur]) = log_of older ++ seg_entries cur.
Proof. rewrite log_of_app. cbn. by rewrite app_nil_r. Qed.

Lemma frames_nil_inv es : frames es = [] → es = [].
Proof.
  destruct es as [|e es]; [done|]. change (frames (e :: es)) with (entry_frame e ++ frames es).
  unfold entry_frame, frame_of. intros E. apply (f_equal length) in E.
  rewrite !length_app, !length_le_bytes in E. simpl in E. lia.
Qed.

(** The open segment with more entries. *)
Definition extend (cur : Segment) (es : list WalEntry) : Segment :=
  {| seg_no := seg_no cur; seg_entries := seg_entries cur ++ es; seg_tail := [] |}.

Lemma StronglySorted_Zlt_app l l' a :
  StronglySorted Z.lt l → StronglySorted Z.lt l' → Forall (λ x, x <= a) l → Forall (λ x, a < x) l' →
  StronglySorted Z.lt (l ++ l').
Proof.
  intros Hl Hl' Ha Ha'. apply StronglySorted_app. split; [|done]. rewrite Forall_forall in Ha, Ha'.
  intros x y Hx Hy. specialize (Ha x Hx). specialize (Ha' y Hy). lia.
Qed.

Lemma log_inv_commit d w older cur aps :
  log_inv d w older cur → Forall entry_ok (number (current_seq w) aps) →
  current_seq w + len aps < u64_mod →
  ∃ d' w', commit d (advance w (length aps)) (frames (number (current_seq w) aps)) IoOk = (d', w', Ok ()) ∧
    log_inv d' w' older (extend cur (number (current_seq w) aps)) ∧
    current_seq w' = current_seq w + len aps ∧ current_segment w' = current_segment w ∧
    completed_segments w' = completed_segments w.
Proof.
  intros [Hd Hn Hf Ht Hs Hq H64 Hc] Hok Hb. set (es := number (current_seq w) aps) in *.
  destruct (number_seqs (current_seq w) aps H64 Hb) as [Hes Hss]. fold es in Hes, Hss.
  pose proof (len_nonneg aps). rewrite (advance_spec w (length aps)) by done.
  fold (len aps). match goal with |- context [commit d ?x] => set (w1 := x) end.
  assert (∃ d' w', commit d w1 (frames es) IoOk = (d', w', Ok ()) ∧
    dir_holds d' (older ++ [extend cur es]) ∧ current_seq w' = current_seq w + len aps ∧
    current_segment w' = current_segment w ∧ completed_segments w' = completed_segments w ∧
    file w' = file w) as (d' & w' & E & Hd' & Eq & Eg & Ec & Ef).
  { unfold commit. destruct (frames es) eqn:Ef.
    - apply frames_nil_inv in Ef. exists d, w1. split; [done|]. split; [|done].
      unfold extend. rewrite Ef, app_nil_r, <-Ht. by destruct cur.
    - rewrite <-Ef. exists (<[file w1 := default [] (d !! file w1) ++ frames es]> d), (grow w1 (len (frames es))).
      split; [done|]. split; [|done].
      cbn [file w1]. rewrite Hf, <-Hn, (dir_holds_lookup _ _ cur Hd) by set_solver. cbn.
      rewrite <-(app_nil_r (frames es)). by eapply dir_holds_append. }
  exists d', w'. split; [done|]. split; [|done].
  assert (log_of (older ++ [extend cur es]) = log_of (older ++ [cur]) ++ es) as El.
  { rewrite !log_of_snoc. cbn. by rewrite app_assoc. }
  split; try done; rewrite ?El, ?Eq, ?Eg, ?Ec.
  - done.
  - by rewrite Ef.
  - rewrite map_app. apply (StronglySorted_Zlt_app _ _ (current_seq w)); [done..| |];
      apply Forall_map; [done|]. eapply Forall_impl; [exact Hes|]. cbn. lia.
  - apply Forall_app. split; [by eapply seqs_below_mono, Hq; lia|].
    eapply Forall_impl; [exact Hes|]. cbn. lia.
  - destruct H64. split; lia.
  - done.
Qed.

(** ** Rotation and garbage collection *)

Definition fresh_segment (n : Z) : Segment := {| seg_no := n; seg_entries := []; seg_tail := [] |}.

Lemma log_inv_segment d w older cur : log_inv d w older cur → in_u64 (current_segment w).
Proof.
  intros [(_ & Hok & _) Hn _ _ _ _ _ _]. rewrite <-Hn.
  apply Forall_app in Hok as [_ [[? _] _]%Forall_cons]. done.
Qed.

Lemma inv_older_lt d w older cur s :
  log_inv d w older cur → s ∈ older → 0 <= seg_no s < current_segment w.
Proof.
  intros [(Hs & Hok & _) Hn _ _ _ _ _ _] Hin. apply StronglySorted_app in Hs as (Hlt & _).
  rewrite <-Hn. rewrite Forall_forall in Hok. destruct (Hok s) as [[? _] _]; [set_solver|].
  split; [done|]. apply Hlt; [done|set_solver].
Qed.

(** A fresh number has no file yet. *)
Lemma open_append_fresh d older cur n :
  dir_holds d (older ++ [cur]) → seg_no cur < n → in_u64 n →
  open_append d (segment_path n) = <[segment_path n := []]> d ∧
  dir_holds (open_append d (segment_path n)) ((older ++ [cur]) ++ [fresh_segment n]).
Proof.
  intros Hd Hlt Hn. pose proof Hd as (Hs & Hok & Hl).
  assert (∀ s, s ∈ older ++ [cur] → seg_no s < n) as Hall.
  { intros s [Hin| ->%list_elem_of_singleton]%elem_of_app; [|done].
    apply StronglySorted_app in Hs as (Hsc & _).
    specialize (Hsc s cur Hin ltac:(set_solver)). lia. }
  assert (d !! segment_path n = None) as E.
  { rewrite Hl by apply has_wal_extension_path.
    destruct (bt_get _ _) as [b|] eqn:E; [|done]. exfalso.
    apply bt_get_Some_In, elem_of_map in E as (s & E & Hin).
    apply (f_equal fst) in E. change (segment_path n = segment_path (seg_no s)) in E.
    rewrite Forall_forall in Hok. apply segment_path_inj in E; [|done|by apply Hok].
    specialize (Hall s Hin). lia. }
  unfold open_append. rewrite E. split; [done|].
  apply (dir_holds_set d (older ++ [cur]) [] (fresh_segment n)); [by rewrite app_nil_r|by left| |].
  - apply StronglySorted_app. split_and!; [|done|repeat constructor].
    intros s t Hin ->%list_elem_of_singleton. by apply Hall.
  - split_and!; [done|constructor|by eexists].
Qed.

Lemma log_inv_rotate d w older cur :
  log_inv d w older cur → current_segment w + 1 < u64_mod →
  ∃ d' w', rotate d w true = (d', w', Ok ()) ∧
    log_inv d' w' (older ++ [cur]) (fresh_segment (current_segment w + 1)) ∧
    current_seq w' = current_seq w ∧ current_segment w' = current_segment w + 1.
Proof.
  intros Hinv Hb. pose proof (log_inv_segment _ _ _ _ Hinv) as H64.

  destruct Hinv as [Hd Hn Hf Ht Hs Hq Hq64 Hc].
  assert (in_u64 (current_segment w + 1)) as Hn64 by (destruct H64; split; lia).
  unfold rotate. rewrite wrap_u64_id by done. do 2 eexists. split; [done|].
  split; [|done].
  destruct (open_append_fresh d older cur (current_segment w + 1) Hd ltac:(lia) Hn64) as [_ Hd'].
  split; try done.
  - rewrite log_of_snoc. cbn. by rewrite app_nil_r.
  - rewrite log_of_snoc. cbn. by rewrite app_nil_r.
  - cbn. apply Forall_app. split.
    + eapply Forall_impl; [exact Hc|]. intros c [Hlt Hall]. split; [lia|].
      intros s [Hin| ->%list_elem_of_singleton]%elem_of_app E; [by apply Hall|lia].
    + constructor; [|constructor]. cbn. split; [destruct H64; lia|]. intros s Hin _.
      unfold seqs_below in *. rewrite Forall_forall in *. intros e He. apply Hq.
      apply elem_of_flat_map. by exists s.
Qed.

(** A segment file that may go once the log is not needed up to [g]. *)
Definition collectable (g : Z) (w : WalWriter) (older : list Segment) (path : string) : Prop :=
  ∃ n, path = segment_path n ∧ 0 <= n < current_segment w ∧ in_u64 n ∧
    ∀ s, s ∈ older → seg_no s = n → seqs_below g (seg_entries s).

Lemma log_inv_drain d w older cur g :
  log_inv d w older cur →
  let r := drain_completed_before w g in
  log_inv d r.2 older cur ∧ Forall (collectable g w older) r.1 ∧
  current_seq r.2 = current_seq w ∧ current_segment r.2 = current_segment w.
Proof.
  intros Hinv r. pose proof (log_inv_segment _ _ _ _ Hinv) as H64.
  destruct Hinv as [Hd Hn Hf Ht Hs Hq Hq64 Hc]. split; [|split; [|done]].
  - split; try done. cbn. rewrite Forall_forall in *. intros c [Hin _]%elem_of_filterb. by apply Hc.
  - apply Forall_forall. intros p (c & -> & [Hin Hle]%elem_of_filterb)%elem_of_map.
    rewrite Forall_forall in Hc. destruct (Hc c Hin) as [Hlt Hall]. zbool.
    exists c.1. split; [done|]. split; [done|]. split; [destruct H64; split; lia|].
    intros s Hso E. eapply seqs_below_mono; [|by apply Hall]. done.
Qed.

(** ** One batch *)

(** Same log, same sequence, possibly more completed segments. *)
Definition evolves (w : WalWriter) (older : list Segment) (cur : Segment)
    (w' : WalWriter) (older' : list Segment) (cur' : Segment) : Prop :=
  log_of (older' ++ [cur']) = log_of (older ++ [cur]) ∧ current_seq w' = current_seq w ∧
  current_segment w <= current_segment w' ∧
  ∃ extra, older' = older ++ extra ∧ Forall (λ s, current_segment w <= seg_no s) extra.

Lemma evolves_refl w older cur w' :
  current_seq w' = current_seq w → current_segment w' = current_segment w →
  evolves w older cur w' older cur.
Proof. intros E1 E2. split_and!; [done|done|lia|]. exists []. by rewrite app_nil_r. Qed.

Lemma evolves_trans w older cur w1 older1 cur1 w2 older2 cur2 :
  evolves w older cur w1 older1 cur1 → evolves w1 older1 cur1 w2 older2 cur2 →
  evolves w older cur w2 older2 cur2.
Proof.
  intros (E1 & E2 & Hle & x & -> & Hx) (E1' & E2' & Hle' & x' & -> & Hx').
  split_and!; [congruence..|lia|]. exists (x ++ x'). split; [by rewrite app_assoc|].
  apply Forall_app. split; [done|]. eapply Forall_impl; [exact Hx'|]. cbn. lia.
Qed.

Lemma collectable_mono g g' w older cur w' older' cur' p :
  evolves w older cur w' older' cur' → g <= g' → collectable g w older p → collectable g' w' older' p.
Proof.
  intros (_ & _ & Hle & x & -> & Hx) Hg (n & -> & Hn & Hn64 & Hall). exists n.
  split; [done|]. split; [lia|]. split; [done|]. intros s [Hs|Hs]%elem_of_app E.
  - by eapply seqs_below_mono, Hall.
  - rewrite Forall_forall in Hx. specialize (Hx s Hs). lia.
Qed.

Lemma rotate_full_inv d w older cur :
  log_inv d w older cur → current_segment w + 1 < u64_mod →
  ∃ older' cur', let r := rotate_if_full d w true in
    log_inv r.1 r.2 older' cur' ∧ evolves w older cur r.2 older' cur' ∧
    current_segment r.2 <= current_segment w + 1.
Proof.
  intros Hinv Hb. unfold rotate_if_full. destruct (_ <=? _).
  - destruct (log_inv_rotate d w older cur Hinv Hb) as (d' & w' & -> & Hinv' & Eq & Eg).
    do 2 eexists. cbn. split; [exact Hinv'|]. split; [|lia].
    split_and!; [|done|lia|].
    + rewrite (log_of_snoc (older ++ [cur])). cbn. by rewrite app_nil_r.
    + exists [cur]. split; [done|]. constructor; [|constructor]. rewrite (inv_no _ _ _ _ Hinv). lia.
  - exists older, cur. cbn. split; [done|]. split; [by apply evolves_refl|lia].
Qed.

(** The paths handed to clients for deletion, and the sequence they were asked
    to be safe for. *)
Definition returned_paths (replies : list (nat * Reply)) : list string :=
  flat_map (λ r, match r.2 with ReplyPaths (Ok ps) => ps | _ => [] end) replies.
Definition drain_seq (ds : list (Z * nat)) : Z := fold_left (λ m d, Z.max m d.1) ds 0.
Definition batch_gc (batch : list WalMessage) : Z :=
  Z.max (drain_seq (drains batch)) (match rotates batch with [] => 0 | _ => u64_max end).

Lemma returned_paths_const (ps : list string) ds :
  Forall (λ p, p ∈ ps)
    (returned_paths (map (λ d : Z * nat, (d.2, ReplyPaths (Ok ps))) ds)).
Proof.
  apply Forall_forall. intros p (r & Hr & Hp)%elem_of_flat_map.
  apply elem_of_map in Hr as (d & -> & _). done.
Qed.

Lemma serve_drains_inv d w older cur ds :
  log_inv d w older cur →
  let r := serve_drains w ds in
  log_inv d r.1 older cur ∧ evolves w older cur r.1 older cur ∧
  current_segment r.1 = current_segment w ∧
  Forall (collectable (drain_seq ds) w older) (returned_paths r.2).
Proof.
  intros Hinv. unfold serve_drains. destruct ds as [|d0 ds].
  - cbn. split; [done|]. split; [by apply evolves_refl|]. split; [done|constructor].
  - fold (drain_seq (d0 :: ds)). set (g := drain_seq (d0 :: ds)).
    pose proof (log_inv_drain d w older cur g Hinv) as (Hi & Hc & Eq & Eg).
    destruct (drain_completed_before w g) as [ps w']. cbn [fst snd] in *. split; [done|].
    split; [by apply evolves_refl|]. split; [done|].
    eapply Forall_impl; [apply returned_paths_const|]. intros p. rewrite Forall_forall in Hc. apply Hc.
Qed.

Lemma serve_rotate_inv d w older cur req :
  log_inv d w older cur → current_segment w + 1 < u64_mod →
  ∃ older' cur', let r := serve_rotate d w req true in
    log_inv r.1.1 r.1.2 older' cur' ∧ evolves w older cur r.1.2 older' cur' ∧
    Forall (collectable (match req with None => 0 | _ => u64_max end) r.1.2 older') (returned_paths r.2).
Proof.
  intros Hinv Hb. unfold serve_rotate. destruct req as [rep|].
  - destruct (log_inv_rotate d w older cur Hinv Hb) as (d' & w' & -> & Hinv' & Eq & Eg).
    pose proof (log_inv_drain _ _ _ _ u64_max Hinv') as (Hi & Hc & Eq' & Eg').
    destruct (drain_completed_before w' u64_max) as [ps w'']. cbn [fst snd] in *.
    do 2 eexists. split; [exact Hi|]. split.
    + split_and!; [|congruence|lia|].
      * rewrite (log_of_snoc (older ++ [cur])). cbn. by rewrite app_nil_r.
      * exists [cur]. split; [done|]. constructor; [|constructor]. rewrite (inv_no _ _ _ _ Hinv). lia.
    + cbn. rewrite app_nil_r. eapply Forall_impl; [exact Hc|]. intros p (n & -> & Hn & Hall).
      exists n. split; [done|]. split; [lia|done].
  - exists older, cur. cbn. split; [done|]. split; [by apply evolves_refl|constructor].
Qed.

Lemma number_last seq aps :
  in_u64 seq → seq + len aps < u64_mod →
  match last (map sequence (number seq aps)) with Some s => s | None => seq end = seq + len aps.
Proof.
  revert seq. induction aps as [|[pts r] aps IH]; intros seq Hs Hb; [symmetry; apply Z.add_0_r|].
  rewrite len_cons in *. pose proof (len_nonneg aps). cbn [number map].
  rewrite wrap_u64_id by (destruct Hs; split; lia). rewrite last_cons. cbn [sequence wal_entry].
  specialize (IH (seq + 1)). rewrite <-Z.add_assoc in IH. rewrite <-IH; [|destruct Hs; split; lia|lia].
  by destruct (last _).
Qed.

(** What a batch needs: entries that can be framed, and no counter overflow. *)
Definition batch_ok (w : WalWriter) (batch : list WalMessage) : Prop :=
  Forall entry_ok (new_entries w batch) ∧ current_seq w + len (appends batch) < u64_mod ∧
  current_segment w + 2 < u64_mod.

(** Evaluating a successful iteration. *)
Lemma process_batch_ok t batch :
  process_batch t batch IoOk true true =
  let es := new_entries (writer t) batch in
  let c := commit (dir t) (advance (writer t) (length (appends batch))) (frames es) IoOk in
  let f := rotate_if_full c.1.1 c.1.2 true in
  let s := serve_drains f.2 (drains batch) in
  let r := serve_rotate f.1 s.1 (head (rotates batch)) true in
  ({| dir := r.1.1; writer := r.1.2;
      last_seq := match last (map sequence es) with Some q => q | None => last_seq t end |},
   map (λ i, (i, ReplyPaths (Err "concurrent Rotate in same batch"))) (tail (rotates batch)) ++
   map (λ sr, (sr.2, ReplySeq (Ok sr.1))) (zip (map sequence es) (map snd (appends batch))) ++
   s.2 ++ r.2).
Proof.
  unfold process_batch, gather. rewrite gather_spec.
  cbn [g_frames g_seqs g_replies g_rotate g_drains g_sent app]. cbv zeta.
  set (es := new_entries (writer t) batch). set (w1 := advance _ _).
  assert (∃ d1 w2, commit (dir t) w1 (frames es) IoOk = (d1, w2, Ok ())) as (d1 & w2 & ->).
  { unfold commit. destruct (frames es); eauto. }
  cbn [fst snd]. destruct (rotate_if_full d1 w2 true) as [d2 w3]. cbn [fst snd].
  destruct (serve_drains w3 _) as [w4 dr]. cbn [fst snd].
  by destruct (serve_rotate d2 w4 _ true) as [[d5 w5] rr].
Qed.

Lemma returned_paths_app l l' : returned_paths (l ++ l') = returned_paths l ++ returned_paths l'.
Proof. apply flat_map_app. Qed.

Lemma returned_paths_none l :
  Forall (λ r : nat * Reply, match r.2 with ReplyPaths (Ok _) => False | _ => True end) l →
  returned_paths l = [].
Proof. induction 1 as [|[i [[|]|[|]]] l Hr Hl IH]; cbn in *; try done. Qed.

Lemma process_batch_inv t batch older cur :
  log_inv (dir t) (writer t) older cur → last_seq t = current_seq (writer t) →
  batch_ok (writer t) batch →
  let r := process_batch t batch IoOk true true in
  ∃ older' cur', log_inv (dir r.1) (writer r.1) older' cur' ∧
    log_of (older' ++ [cur']) = log_of (older ++ [cur]) ++ new_entries (writer t) batch ∧
    last_seq r.1 = current_seq (writer r.1) ∧
    current_seq (writer r.1) = current_seq (writer t) + len (appends batch) ∧
    (∀ g p, collectable g (writer t) older p → collectable g (writer r.1) older' p) ∧
    Forall (collectable (batch_gc batch) (writer r.1) older') (returned_paths r.2).
Proof.
  intros Hinv Hlast (Hes & Hq & Hg). rewrite process_batch_ok. cbv zeta. cbn [fst snd dir writer last_seq].
  fold (new_entries (writer t) batch) in *. set (es := new_entries (writer t) batch) in *.
  destruct (log_inv_commit (dir t) (writer t) older cur (appends batch) Hinv Hes Hq)
    as (d1 & w1 & E & Hinv1 & Eq1 & Eg1 & _).
  fold (new_entries (writer t) batch) in E, Hinv1. fold es in E, Hinv1. rewrite E. cbn [fst snd].
  destruct (rotate_full_inv d1 w1 older (extend cur es) Hinv1 ltac:(lia)) as (older2 & cur2 & Hinv2 & Hev2 & Hg2).
  destruct (rotate_if_full d1 w1 true) as [d2 w2]. cbn [fst snd] in *.
  destruct (serve_drains_inv d2 w2 older2 cur2 (drains batch) Hinv2) as (Hinv3 & Hev3 & Eg3 & Hc3).
  destruct (serve_drains w2 (drains batch)) as [w3 dr]. cbn [fst snd] in *.
  destruct (serve_rotate_inv d2 w3 older2 cur2 (head (rotates batch)) Hinv3 ltac:(lia))
    as (older4 & cur4 & Hinv4 & Hev4 & Hc4).
  destruct (serve_rotate d2 w3 (head (rotates batch)) true) as [[d4 w4] rr]. cbn [fst snd] in *.
  pose proof (evolves_trans _ _ _ _ _ _ _ _ _ Hev2 (evolves_trans _ _ _ _ _ _ _ _ _ Hev3 Hev4)) as Hev.
  exists older4, cur4. split; [done|].
  split; [destruct Hev as (-> & _); rewrite !log_of_snoc; cbn; by rewrite app_assoc|].
  assert (current_seq w4 = current_seq (writer t) + len (appends batch)) as Eseq.
  { destruct Hev as (_ & -> & _). done. }
  split; [rewrite Hlast, Eseq; apply number_last; [apply Hinv|done]|]. split; [done|]. split.
  - intros g p Hp. eapply collectable_mono; [exact Hev|reflexivity|].
    destruct Hp as (n & -> & Hn & Hrest). exists n. by rewrite Eg1.
  - rewrite !returned_paths_app, (returned_paths_none (map _ (tail _))), (returned_paths_none (map _ (zip _ _)));
      [|by apply Forall_map, Forall_true|by apply Forall_map, Forall_true].
    cbn [app]. apply Forall_app. unfold batch_gc. split.
    + eapply Forall_impl; [exact Hc3|]. intros p Hp. eapply collectable_mono; [|apply Z.le_max_l|exact Hp].
      eapply evolves_trans; [exact Hev3|exact Hev4].
    + eapply Forall_impl; [exact Hc4|]. intros p Hp. eapply collectable_mono;
        [exact (evolves_refl w4 older4 cur4 w4 eq_refl eq_refl)| |exact Hp].
      destruct (rotates batch); cbn [head]; lia.
Qed.

(** ** Acknowledgements *)

Definition append_acks (replies : list (nat * Reply)) : list (nat * result Z) :=
  omap (λ r, match r.2 with ReplySeq x => Some (r.1, x) | ReplyPaths _ => None end) replies.

Lemma number_seqZ seq aps :
  in_u64 seq → seq + len aps < u64_mod → map sequence (number seq aps) = seqZ (seq + 1) (len aps).
Proof.
  revert seq. induction aps as [|[pts r] aps IH]; intros seq Hs Hb; [done|].
  rewrite len_cons in *. pose proof (len_nonneg aps). cbn [number map].
  rewrite wrap_u64_id by (destruct Hs; split; lia). rewrite seqZ_cons by lia. cbn [sequence wal_entry].
  f_equal. rewrite IH; [f_equal; lia|destruct Hs; split; lia|lia].
Qed.

Lemma append_acks_paths l :
  Forall (λ r : nat * Reply, match r.2 with ReplyPaths _ => True | _ => False end) l → append_acks l = [].
Proof. induction 1 as [|[i [|]] l Hr Hl IH]; cbn in *; try done. Qed.

Lemma append_acks_zip {A} (f : A → result Z) (xs : list A) (ids : list nat) :
  append_acks (map (λ sr, (sr.2, ReplySeq (f sr.1))) (zip xs ids)) = zip ids (map f xs).
Proof. revert ids. induction xs as [|x xs IH]; intros [|i ids]; cbn; try done. f_equal. apply IH. Qed.

Lemma serve_drains_paths w ds :
  Forall (λ r : nat * Reply, match r.2 with ReplyPaths _ => True | _ => False end) (serve_drains w ds).2.
Proof.
  unfold serve_drains. destruct ds as [|d ds]; [constructor|]. destruct (drain_completed_before _ _).
  by apply Forall_map, Forall_true.
Qed.

Lemma serve_rotate_paths d w req ok :
  Forall (λ r : nat * Reply, match r.2 with ReplyPaths _ => True | _ => False end) (serve_rotate d w req ok).2.
Proof.
  unfold serve_rotate. destruct req; [|constructor].
  destruct (rotate d w ok) as [[d' w'] [u|e]]; [destruct (drain_completed_before _ _)|];
    by repeat constructor.
Qed.

Lemma append_acks_app l l' : append_acks (l ++ l') = append_acks l ++ append_acks l'.
Proof. apply omap_app. Qed.

Lemma process_batch_acks t batch io rot1 rot2 :
  in_u64 (current_seq (writer t)) → current_seq (writer t) + len (appends batch) < u64_mod →
  append_acks (process_batch t batch io rot1 rot2).2 =
  zip (map snd (appends batch))
    (match io with
     | IoOk => map Ok (seqZ (current_seq (writer t) + 1) (len (appends batch)))
     | IoErr _ => map (λ _, Err "write failed") (appends batch)
     end).
Proof.
  intros Hs Hb. unfold process_batch, gather. rewrite gather_spec.
  cbn [g_frames g_seqs g_replies g_rotate g_drains g_sent app]. unfold new_entries.
  pose proof (number_seqZ _ _ Hs Hb) as Hn. rewrite Hn.
  set (es := number _ _) in *. set (w1 := advance _ _).
  assert (es = [] ∧ appends batch = [] ∨ frames es ≠ []) as Hcase.
  { destruct (frames es) eqn:E; [left|by right]. apply frames_nil_inv in E. split; [done|].
    unfold es in E. destruct (appends batch) as [|[]]; [done|]. done. }
  destruct (commit (dir t) w1 (frames es) io) as [[d1 w2] [u|e]] eqn:Ec.
  - destruct (rotate_if_full d1 w2 rot1) as [d2 w3]. pose proof (serve_drains_paths w3 (drains batch)) as Hd.
    destruct (serve_drains w3 _) as [w4 dr]. pose proof (serve_rotate_paths d2 w4 (head (rotates batch)) rot2) as Hr.
    destruct (serve_rotate d2 w4 _ rot2) as [[d5 w5] rr]. cbn [fst snd] in *.
    rewrite !append_acks_app, (append_acks_paths dr), (append_acks_paths rr), !app_nil_r by done.
    rewrite append_acks_paths by by apply Forall_map, Forall_true.
    cbn [app]. rewrite append_acks_zip. destruct io; [done|].
    destruct Hcase as [[_ ->]|Hne]; [done|]. unfold commit in Ec. by destruct (frames es).
  - cbn [snd]. rewrite !append_acks_app. rewrite (append_acks_paths (map _ (tail _))) by by apply Forall_map, Forall_true.
    rewrite (append_acks_paths (map _ (drains _))) by by apply Forall_map, Forall_true.
    assert (append_acks (match head (rotates batch) with
      | Some r => [(r, ReplyPaths (Err "WAL write failed"))] | None => [] end) = []) as -> by by destruct (head _).
    rewrite !app_nil_r. cbn [app]. unfold commit, append_sync in Ec.
    destruct (frames es); [done|]. destruct io; [done|]. simplify_eq. clear.
    induction (appends batch) as [|[pts r] aps IH]; cbn; [done|]. f_equal. apply IH.
Qed.

(** ** The task and its clients *)

(** The task, the log of everything acknowledged, the highest sequence clients
    asked to collect up to, and the paths they have yet to delete. *)
Record WalSystem := {
  task : WalTask;
  acked : list WalEntry;
  gc_seq : Z;
  pending : list string
}.

Definition with_dir (t : WalTask) (d : Dir) : WalTask :=
  {| dir := d; writer := writer t; last_seq := last_seq t |}.

Definition after_batch (sys : WalSystem) (batch : list WalMessage) : WalSystem :=
  let r := process_batch (task sys) batch IoOk true true in
  {| task := r.1;
     acked := acked sys ++ new_entries (writer (task sys)) batch;
     gc_seq := Z.max (gc_seq sys) (batch_gc batch);
     pending := pending sys ++ returned_paths r.2 |}.

Definition after_delete (sys : WalSystem) (path : string) : WalSystem :=
  {| task := with_dir (task sys) (delete path (dir (task sys)));
     acked := acked sys; gc_seq := gc_seq sys; pending := pending sys |}.

Inductive wal_step : WalSystem → WalSystem → Prop :=
| step_batch sys batch :
    batch_ok (writer (task sys)) batch → wal_step sys (after_batch sys batch)
| step_delete sys path :
    path ∈ pending sys → wal_step sys (after_delete sys path).

Definition sys_inv (sys : WalSystem) : Prop :=
  ∃ older cur, log_inv (dir (task sys)) (writer (task sys)) older cur ∧
    last_seq (task sys) = current_seq (writer (task sys)) ∧
    above (gc_seq sys) (log_of (older ++ [cur])) = above (gc_seq sys) (acked sys) ∧
    Forall (collectable (gc_seq sys) (writer (task sys)) older) (pending sys).

Lemma above_mono g g' es es' : g <= g' → above g es = above g es' → above g' es = above g' es'.
Proof.
  intros Hle E. assert (∀ l, above g' l = above g' (above g l)) as Hf.
  { intros l. unfold above. induction l as [|e l IH]; cbn; [done|].
    destruct (g <? sequence e) eqn:Eg; cbn; zbool.
    - destruct (g' <? sequence e); by rewrite IH.
    - replace (g' <? sequence e) with false by lia. done. }
  by rewrite (Hf es), (Hf es'), E.
Qed.

Lemma sys_inv_batch sys batch :
  sys_inv sys → batch_ok (writer (task sys)) batch → sys_inv (after_batch sys batch).
Proof.
  intros (older & cur & Hinv & Hl & Ha & Hp) Hb.
  destruct (process_batch_inv _ _ _ _ Hinv Hl Hb) as (older' & cur' & Hinv' & El & Hl' & _ & Hmono & Hret).
  exists older', cur'. split; [done|]. split; [done|]. cbn [gc_seq acked pending after_batch]. split.
  - rewrite El, !above_app. f_equal. eapply above_mono; [|exact Ha]. lia.
  - assert (∀ g g' w o p, g <= g' → collectable g w o p → collectable g' w o p) as Hg.
    { intros g g' w o p Hle (n & -> & Hn & Hn64 & Hall). exists n. do 3 (split; [done|]).
      intros s Hs E. by eapply seqs_below_mono, Hall. }
    apply Forall_app. split.
    + eapply Forall_impl; [exact Hp|]. intros p Hc. eapply Hg, Hmono, Hc. lia.
    + eapply Forall_impl; [exact Hret|]. intros p. apply Hg. lia.
Qed.

(** Deleting a completed segment, as a list of segments. *)
Definition without (n : Z) (segs : list Segment) : list Segment :=
  List.filter (λ s, negb (seg_no s =? n)) segs.

Lemma above_without g n segs :
  (∀ s, s ∈ segs → seg_no s = n → seqs_below g (seg_entries s)) →
  above g (log_of (without n segs)) = above g (log_of segs).
Proof.
  intros Hall. induction segs as [|s segs IH]; [done|].
  change (log_of (s :: segs)) with (seg_entries s ++ log_of segs). rewrite above_app.
  rewrite <-IH by (intros t Ht; apply Hall; by right).
  unfold without. cbn [List.filter]. fold (without n segs).
  destruct (seg_no s =? n) eqn:E; cbn [negb]; zbool; [|by rewrite <-above_app].
  assert (above g (seg_entries s) = []) as ->; [|done].
  specialize (Hall s ltac:(left) E). induction Hall as [|e es He Hes IHe]; [done|].
  cbn. by replace (g <? sequence e) with false by lia.
Qed.

Lemma log_without_sublist n segs : sublist (log_of (without n segs)) (log_of segs).
Proof.
  induction segs as [|s segs IH]; [constructor|]. cbn. destruct (negb _); cbn.
  - by apply sublist_app.
  - by apply sublist_inserts_l.
Qed.

Lemma log_inv_delete d w older cur n :
  log_inv d w older cur → 0 <= n < current_segment w → in_u64 n →
  log_inv (delete (segment_path n) d) w (without n older) cur.
Proof.
  intros [Hd Hn Hf Ht Hs Hq H64 Hc] Hlt Hn64.
  assert (without n (older ++ [cur]) = without n older ++ [cur]) as E.
  { unfold without. rewrite List.filter_app. cbn. by replace (seg_no cur =? n) with false by lia. }
  pose proof (log_without_sublist n (older ++ [cur])) as Hsub. rewrite E in Hsub.
  split; try done.
  - rewrite <-E. by apply dir_holds_delete.
  - eapply StronglySorted_sublist; [|exact Hs]. by apply sublist_map.
  - by eapply sublist_Forall.
  - eapply Forall_impl; [exact Hc|]. intros c [? Hall]. split; [done|].
    intros s [Hin _]%elem_of_filterb. by apply Hall.
Qed.

Lemma sys_inv_delete sys path : sys_inv sys → path ∈ pending sys → sys_inv (after_delete sys path).
Proof.
  intros (older & cur & Hinv & Hl & Ha & Hp) Hin. pose proof Hp as Hp'. rewrite Forall_forall in Hp.
  destruct (Hp path Hin) as (n & -> & Hn & Hn64 & Hall).
  exists (without n older), cur. split; [by apply log_inv_delete|]. split; [done|].
  cbn [gc_seq acked pending after_delete]. split.
  - rewrite <-Ha, !log_of_snoc, !above_app. f_equal. by apply above_without.
  - eapply Forall_impl; [exact Hp'|]. intros p (m & -> & Hm & Hm64 & Hall'). exists m.
    do 3 (split; [done|]). intros s [Hs _]%elem_of_filterb. by apply Hall'.
Qed.

Lemma sys_inv_reachable sys sys' : rtc wal_step sys sys' → sys_inv sys → sys_inv sys'.
Proof.
  induction 1 as [|sys1 sys2 sys3 Hstep _ IH]; intros Hinv; [done|]. apply IH.
  destruct Hstep; [by apply sys_inv_batch|by apply sys_inv_delete].
Qed.

(** A failed or interrupted write: a prefix of the batch behind the log. *)
Lemma failed_write_dir t batch k rot1 rot2 :
  appends batch ≠ [] →
  dir (process_batch t batch (IoErr k) rot1 rot2).1 =
  <[file (writer t) := default [] (dir t !! file (writer t)) ++ take k (frames (new_entries (writer t) batch))]>
    (dir t).
Proof.
  intros Hne. unfold process_batch, gather. rewrite gather_spec.
  cbn [g_frames g_seqs g_replies g_rotate g_drains g_sent app]. unfold commit.
  destruct (frames _) as [|b l] eqn:E.
  { apply frames_nil_inv in E. exfalso. revert E. unfold new_entries. by destruct (appends batch) as [|[]]. }
  cbn. f_equal; unfold advance; induction (length (appends batch)) as [|n IH]; try done;
    by rewrite Nat.iter_succ.
Qed.

Lemma sys_inv_torn sys batch k rot1 rot2 :
  sys_inv sys → batch_ok (writer (task sys)) batch → appends batch ≠ [] →
  ∃ j segs, complete_frames (new_entries (writer (task sys)) batch) k j ∧
    dir_holds (dir (process_batch (task sys) batch (IoErr k) rot1 rot2).1) segs ∧
    above (gc_seq sys) (log_of segs) =
    above (gc_seq sys) (acked sys ++ take j (new_entries (writer (task sys)) batch)).
Proof.
  intros (older & cur & [Hd Hn Hf Ht _ _ _ _] & Hl & Ha & Hp) (Hes & Hq & Hg) Hne.
  rewrite failed_write_dir, Hf, <-Hn, (dir_holds_lookup _ _ cur Hd) by set_solver. cbn [default id].
  destruct (dir_holds_crash _ older cur _ k Hd Ht Hes) as (j & s' & Hj & _ & Es & Hd').
  exists j, (older ++ [s']). split; [done|]. split; [done|].
  rewrite log_of_snoc, Es, app_assoc, <-log_of_snoc, !above_app, Ha. done.
Qed.

(** ** Starting *)

(** The system over a started task. *)
Definition system (t : WalTask) (log : list WalEntry) : WalSystem :=
  {| task := t; acked := log; gc_seq := 0; pending := [] |}.

(** A shard without any segment. *)
Definition fresh_task (max_bytes : Z) : WalTask :=
  let r := open ∅ max_bytes 0 in spawn r.1 r.2.

Lemma fresh_log_inv mb : log_inv (open ∅ mb 0).1 (open ∅ mb 0).2 [] (fresh_segment 1).
Proof.
  unfold open. change (highest_segment_number ∅) with (@None Z). cbn [default].
  unfold open_append. rewrite lookup_empty. cbn [fst snd id]. split; try done.
  - apply (dir_holds_set ∅ [] [] (fresh_segment 1)); [|by left|repeat constructor|].
    + split; [constructor|]. split; [constructor|]. intros name _. apply lookup_empty.
    + split_and!; [done|constructor|by eexists].
  - constructor.
  - constructor.
Qed.

Lemma fresh_sys_inv mb : sys_inv (system (fresh_task mb) []).
Proof.
  exists [], (fresh_segment 1). split; [apply fresh_log_inv|]. split; [done|]. split; [done|constructor].
Qed.

(** A restart: reopen the directory and rotate to a new segment. *)
Definition restarted_task (d : Dir) (max_bytes resume_seq : Z) : WalTask :=
  let r := open d max_bytes resume_seq in
  let r' := rotate r.1 r.2 true in
  spawn r'.1.1 r'.1.2.

Lemma restart_log_inv d mb resume segs s :
  dir_holds d (segs ++ [s]) → seg_no s + 1 < u64_mod →
  StronglySorted Z.lt (map sequence (log_of (segs ++ [s]))) →
  seqs_below resume (log_of (segs ++ [s])) → in_u64 resume →
  let t := restarted_task d mb resume in
  log_inv (dir t) (writer t) (segs ++ [s]) (fresh_segment (seg_no s + 1)) ∧ last_seq t = resume.
Proof.
  intros Hd Hb Hs Hq H64. unfold restarted_task, open.
  rewrite (highest_segment_number_ok d segs s Hd). cbn [default id].
  assert (open_append d (segment_path (seg_no s)) = d) as ->.
  { unfold open_append. by rewrite (dir_holds_lookup _ _ s Hd) by set_solver. }
  assert (in_u64 (seg_no s)) as Hn64.
  { destruct Hd as (_ & Hok & _). apply Forall_app in Hok as [_ [[? _] _]%Forall_cons]. done. }
  assert (in_u64 (seg_no s + 1)) as Hn64' by (destruct Hn64; split; lia).
  unfold rotate. cbn [fst snd current_segment]. rewrite wrap_u64_id by done. cbn [fst snd spawn dir writer last_seq].
  destruct (open_append_fresh d segs s (seg_no s + 1) Hd ltac:(lia) Hn64') as [_ Hd'].
  split; [|done]. split; try done.
  - rewrite log_of_snoc. cbn. by rewrite app_nil_r.
  - rewrite log_of_snoc. cbn. by rewrite app_nil_r.
  - cbn. apply Forall_app. split; [apply Forall_map, Forall_seq|constructor; [|constructor]].
    + cbn. intros j Hj. destruct Hn64. split; [lia|]. intros t Ht _. unfold seqs_below.
      apply Forall_forall. intros e He. unfold seqs_below in Hq. rewrite Forall_forall in Hq.
      assert (sequence e <= resume); [apply Hq, elem_of_flat_map; by exists t|]. destruct H64. width.
    + cbn. destruct Hn64. split; [lia|]. intros t Ht _. unfold seqs_below in *. rewrite Forall_forall in Hq.
      apply Forall_forall. intros e He. apply Hq, elem_of_flat_map. by exists t.
Qed.

Lemma restart_sys_inv d mb resume segs s :
  dir_holds d (segs ++ [s]) → seg_no s + 1 < u64_mod →
  StronglySorted Z.lt (map sequence (log_of (segs ++ [s]))) →
  seqs_below resume (log_of (segs ++ [s])) → in_u64 resume →
  sys_inv (system (restarted_task d mb resume) (log_of (segs ++ [s]))).
Proof.
  intros Hd Hb Hs Hq H64. destruct (restart_log_inv d mb resume segs s Hd Hb Hs Hq H64) as [Hinv Hl].
  do 2 eexists. split; [exact Hinv|]. split; [cbn [task system]; rewrite Hl; unfold restarted_task, open, rotate; done|].
  split; [|constructor]. cbn [acked system gc_seq]. rewrite (log_of_snoc (segs ++ [s])). cbn [fresh_segment seg_entries].
  by rewrite app_nil_r.
Qed.

End Task.

(** ** Sample runs *)

Definition tiny_points (n : Z) : list DataPoint := [point_at tiny_key n n].

(** Two appends, a drain and two rotations in one batch. *)
Definition sample_batch : list WalMessage :=
  [Append (tiny_points 1) 10; Rotate 11; DrainBefore 0 12; Append (tiny_points 2) 13; Rotate 14].

Definition sample_task : WalTask := fresh_task 1000.

Lemma tiny_batch_ok w batch :
  current_seq w = 0 → current_segment w = 1 →
  new_entries w batch = map tiny_entry (seqZ 1 (len (appends batch))) → len (appends batch) < 1000 →
  forallb (λ e, len (@encode_to_vec _ wal_codec e) <? u32_mod) (new_entries w batch) = true →
  @batch_ok wal_codec w batch.
Proof.
  intros Hs Hg He Hl Hf. split; [|split; [rewrite Hs; width|rewrite Hg; width]].
  rewrite forallb_Forall in Hf. rewrite Forall_forall in *. intros e Hin. specialize (Hf e Hin). zbool.
  rewrite He in Hin. apply elem_of_map in Hin as (n & -> & Hn%elem_of_seqZ).
  apply tiny_entry_ok; [change (2 ^ 20) with 1048576; lia|done].
Qed.

Lemma sample_batch_ok : @batch_ok wal_codec (writer sample_task) sample_batch.
Proof. by apply tiny_batch_ok; vm_compute. Qed.

Definition plain_batch : list WalMessage :=
  [Append (tiny_points 1) 10; DrainBefore 0 12; Append (tiny_points 2) 13].

Lemma plain_batch_ok : @batch_ok wal_codec (writer sample_task) plain_batch.
Proof. by apply tiny_batch_ok; vm_compute. Qed.

(** A write that fails after three bytes, then a write that succeeds. *)
Definition poisoned_task : WalTask :=
  (@process_batch ieee_crc32 wal_codec sample_task [Append (tiny_points 1) 1] (IoErr 3) true true).1.
Definition after_poison : WalTask * list (nat * Reply) :=
  @process_batch ieee_crc32 wal_codec poisoned_task [Append (tiny_points 2) 2] IoOk true true.

(** A segment that is full after one append, whose rotation fails; a second
    append; a drain of what is flushed, up to the first append. *)
Definition stuck_task : WalTask :=
  (@process_batch ieee_crc32 wal_codec (fresh_task 1) [Append (tiny_points 1) 1] IoOk false true).1.
Definition stuck_append : WalTask * list (nat * Reply) :=
  @process_batch ieee_crc32 wal_codec stuck_task [Append (tiny_points 2) 2] IoOk true true.
Definition stuck_drain : WalTask * list (nat * Reply) :=
  @process_batch ieee_crc32 wal_codec stuck_append.1 [DrainBefore 1 3] IoOk true true.

(** ** Properties *)

(** Every message of a batch gets exactly one reply, whether the write, the
    rotation of a full segment and the requested rotation succeed or fail. *)
Theorem group_commit_replies_once `{HC : Crc32, HD : Codec WalEntry} t batch io rot1 rot2 :
  Permutation (map fst (process_batch t batch io rot1 rot2).2) (map reply_id batch).
Proof. apply process_batch_ids. Qed.

(** Taking a batch is first-in first-out and loses nothing: the batch is a
    non-empty prefix of the waiting messages of at most [max_batch] (but at least
    one), and it stops short of the waiting messages only when it is full. *)
Theorem group_commit_batch_fifo max_batch m waiting :
  let r := collect_batch max_batch (m :: waiting) in
  r.1 ++ r.2 = m :: waiting ∧ r.1 ≠ [] ∧ len r.1 <= Z.max 1 max_batch ∧
  (r.2 = [] ∨ max_batch <= len r.1).
Proof.
  cbn [collect_batch]. destruct (drain_backlog_spec max_batch [m] waiting) as (Ha & (more & Hm) & Hl & Hr).
  split; [done|]. split; [by rewrite Hm|]. split; [exact Hl|done].
Qed.

(** Acknowledgements: after a successful write the appends of a batch are answered
    in order with consecutive sequence numbers following the writer's; after a failed
    write every append of the batch is answered with the error. *)
Theorem group_commit_acks `{HC : Crc32, HD : Codec WalEntry} t batch io rot1 rot2
    (Hs : in_u64 (current_seq (writer t)))
    (Hb : current_seq (writer t) + len (appends batch) < u64_mod) :
  append_acks (process_batch t batch io rot1 rot2).2 =
  zip (map snd (appends batch))
    (match io with
     | IoOk => map Ok (seqZ (current_seq (writer t) + 1) (len (appends batch)))
     | IoErr _ => map (λ _, Err "write failed") (appends batch)
     end).
Proof. by apply process_batch_acks. Qed.

Lemma group_commit_acks_witness :
  append_acks (@process_batch ieee_crc32 wal_codec sample_task sample_batch IoOk true true).2 =
  [(10%nat, Ok 1); (13%nat, Ok 2)].
Proof.
  exact (group_commit_acks (HC := ieee_crc32) (HD := wal_codec) sample_task sample_batch IoOk true true
    ltac:(done) ltac:(done)).
Defined.

(** Durability of acknowledged appends: from a started shard, after any sequence of
    batches (appends, rotations, drains) and of segment deletions by the clients that
    were handed the paths, recovery at any watermark at or above what was asked to be
    collected returns exactly the points of the acknowledged entries above the
    watermark, in order: the WAL implements an append-only log. *)
Theorem wal_durability `{HC : Crc32, HD : Codec WalEntry} (LC : Crc32Laws)
    (LD : CodecLaws WalEntry entry_wf) sys0 sys wm
    (H0 : sys_inv sys0) (Hr : rtc wal_step sys0 sys) (Hwm : gc_seq sys <= wm) :
  ∃ r, recover (dir (task sys)) wm = Ok r ∧ rr_points r = points_of (above wm (acked sys)).
Proof.
  destruct (sys_inv_reachable _ _ Hr H0) as (older & cur & [Hd _ _ _ _ _ _ _] & _ & Ha & _).
  eexists. split; [by apply recover_ok|]. cbn. by rewrite (above_mono _ _ _ _ Hwm Ha).
Qed.

Lemma wal_durability_witness :
  ∃ r, @recover ieee_crc32 wal_codec
         (dir (@process_batch ieee_crc32 wal_codec sample_task plain_batch IoOk true true).1) 0 = Ok r ∧
    rr_points r = tiny_points 1 ++ tiny_points 2.
Proof.
  exact (wal_durability (HC := ieee_crc32) (HD := wal_codec) ieee_crc32_laws wal_codec_laws
    (system sample_task []) (after_batch (H := ieee_crc32) (system sample_task []) plain_batch) 0
    (fresh_sys_inv (H := ieee_crc32) 1000)
    (rtc_once _ _ (step_batch (H := ieee_crc32) (system sample_task []) plain_batch plain_batch_ok))
    ltac:(vm_compute; discriminate)).
Defined.

(** C22. Crash consistency of group commit: if the write of the next batch stops after
    [k] bytes (a crash or an I/O error), recovery returns every acknowledged entry above
    the watermark followed by exactly the entries of the batch whose frames fit into
    those [k] bytes. *)
Theorem wal_crash_durability `{HC : Crc32, HD : Codec WalEntry} (LC : Crc32Laws)
    (LD : CodecLaws WalEntry entry_wf) sys0 sys wm batch k rot1 rot2
    (H0 : sys_inv sys0) (Hr : rtc wal_step sys0 sys) (Hwm : gc_seq sys <= wm)
    (Hb : batch_ok (writer (task sys)) batch) (Hne : appends batch ≠ []) :
  ∃ j r, complete_frames (new_entries (writer (task sys)) batch) k j ∧
    recover (dir (process_batch (task sys) batch (IoErr k) rot1 rot2).1) wm = Ok r ∧
    rr_points r =
    points_of (above wm (acked sys ++ take j (new_entries (writer (task sys)) batch))).
Proof.
  destruct (sys_inv_torn sys batch k rot1 rot2 (sys_inv_reachable _ _ Hr H0) Hb Hne)
    as (j & segs & Hj & Hd & Ha).
  exists j. eexists. split; [done|]. split; [by apply recover_ok|].
  cbn. by rewrite (above_mono _ _ _ _ Hwm Ha).
Qed.

Lemma wal_crash_durability_witness :
  ∃ j r, @complete_frames ieee_crc32 wal_codec [tiny_entry 1; tiny_entry 2] 100 j ∧
    @recover ieee_crc32 wal_codec
      (dir (@process_batch ieee_crc32 wal_codec sample_task sample_batch (IoErr 100) true true).1) 0 = Ok r ∧
    rr_points r = points_of (above 0 (take j [tiny_entry 1; tiny_entry 2])).
Proof.
  exact (wal_crash_durability (HC := ieee_crc32) (HD := wal_codec) ieee_crc32_laws wal_codec_laws
    (system sample_task []) (system sample_task []) 0 sample_batch 100 true true
    (fresh_sys_inv (H := ieee_crc32) 1000) (rtc_refl _ _) ltac:(vm_compute; discriminate)
    sample_batch_ok ltac:(discriminate)).
Defined.

(** A restart resumes the log: reopening a directory after a crash, torn tails
    included, and rotating to a new segment satisfies the task's invariant with the
    complete entries as the acknowledged log, provided the writer resumes at or above
    the highest sequence in the log; later appends never go behind a torn frame. *)
Theorem wal_restart_resumes `{HC : Crc32, HD : Codec WalEntry} d mb resume segs s
    (Hd : dir_holds d (segs ++ [s])) (Hn : seg_no s + 1 < u64_mod)
    (Hs : StronglySorted Z.lt (map sequence (log_of (segs ++ [s]))))
    (Hq : seqs_below resume (log_of (segs ++ [s]))) (H64 : in_u64 resume) :
  sys_inv (system (restarted_task d mb resume) (log_of (segs ++ [s]))).
Proof. by apply restart_sys_inv. Qed.

Lemma wal_restart_resumes_witness :
  @sys_inv ieee_crc32 wal_codec
    (system (restarted_task sample_dir 1000 3) [tiny_entry 1; tiny_entry 2; tiny_entry 3]).
Proof.
  exact (wal_restart_resumes (HC := ieee_crc32) (HD := wal_codec) sample_dir 1000 3
    [{| seg_no := 1; seg_entries := [tiny_entry 1; tiny_entry 2]; seg_tail := [] |}]
    {| seg_no := 2; seg_entries := [tiny_entry 3]; seg_tail := [] |} sample_dir_holds eq_refl
    ltac:(repeat constructor) ltac:(repeat (constructor; [cbn; lia|]); constructor) ltac:(done)).
Defined.

(** A failed write poisons the open segment: the bytes that reached the file stay
    there, the task goes on appending behind them, and an append that is acknowledged
    afterwards is not found by recovery. *)
Theorem wal_failed_write_poisons_segment :
  append_acks after_poison.2 = [(2%nat, Ok 2)] ∧
  ∃ r, @recover ieee_crc32 wal_codec (dir after_poison.1) 0 = Ok r ∧ rr_points r = [].
Proof. split; [vm_compute; reflexivity|]. eexists. split; vm_compute; reflexivity. Qed.

(** A failed rotation makes the garbage collector delete live data: the writer
    records the segment as completed but goes on writing to it, so a drain up to the
    recorded sequence returns the file that also holds the next acknowledged append;
    deleting it loses that append although its sequence is above the drained one. *)
Theorem wal_failed_rotation_loses_entries :
  append_acks stuck_append.2 = [(2%nat, Ok 2)] ∧
  returned_paths stuck_drain.2 = [segment_path 1] ∧
  (∃ r, @recover ieee_crc32 wal_codec (dir stuck_drain.1) 1 = Ok r ∧ rr_points r = tiny_points 2) ∧
  ∃ r, @recover ieee_crc32 wal_codec (delete (segment_path 1) (dir stuck_drain.1)) 1 = Ok r ∧
    rr_points r = [].
Proof.
  split; [vm_compute; reflexivity|]. split; [vm_compute; reflexivity|].
  split; eexists; split; vm_compute; reflexivity.
Qed.
