(* ===== verification/WalLoop.v ===== *)
(** * The WAL task and its channel ([wal_task] of [src/storage-engine/src/wal/group_commit.rs])

    [GroupCommit] has one iteration of the task; here is the loop around it.  Senders put
    messages into a bounded channel; the task parks until one arrives, takes it, may sleep
    for the collect window, drains what is waiting up to [max_batch], serves the batch and
    parks again; it returns when the channel is empty and the last sender is gone.  Messages
    arrive at any moment.  The theorems: every message is answered exactly once and in turn,
    the channel never holds more than its capacity, a task without senders answers
    everything and returns, and the loop as a whole implements an append-only log. *)
From S2P Require Import Prelude BTree F64 Externals Types Memtable Fs WalWriter Recovery GroupCommit.

(** Where the loop is: parked in [recv], in the collect window with the first message, or
    returned. *)
Inductive Place :=
| Parked
| Holding (first : WalMessage)
| Returned.

(** The task, the channel, the senders that are alive, and what has been offered and
    answered so far. *)
Record WalLoop := {
  lp_task : WalTask;
  place : Place;
  waiting : list WalMessage;
  senders : nat;
  offered : list WalMessage;
  answered : list (nat * Reply)
}.

Definition held_message (p : Place) : list WalMessage := match p with Holding m => [m] | _ => [] end.

(** What the task has yet to serve. *)
Definition unserved (l : WalLoop) : list WalMessage := held_message (place l) ++ waiting l.

Section WalLoop.
Context `{Crc32, Codec WalEntry}.
Context (capacity max_batch : Z).

(** [WalSender::spawn]: the channel is empty and has one sender. *)
Definition spawn_loop (t : WalTask) : WalLoop :=
  {| lp_task := t; place := Parked; waiting := []; senders := 1; offered := []; answered := [] |}.

(** [tx.send]: waits until there is room. *)
Definition send_message (l : WalLoop) (m : WalMessage) : WalLoop :=
  {| lp_task := lp_task l; place := place l; waiting := waiting l ++ [m]; senders := senders l;
     offered := offered l ++ [m]; answered := answered l |}.

Definition with_senders (l : WalLoop) (n : nat) : WalLoop :=
  {| lp_task := lp_task l; place := place l; waiting := waiting l; senders := n; offered := offered l;
     answered := answered l |}.

(** [rx.recv] with a message, and with a closed channel. *)
Definition receive (l : WalLoop) (m : WalMessage) (rest : list WalMessage) : WalLoop :=
  {| lp_task := lp_task l; place := Holding m; waiting := rest; senders := senders l; offered := offered l;
     answered := answered l |}.
Definition return_task (l : WalLoop) : WalLoop :=
  {| lp_task := lp_task l; place := Returned; waiting := waiting l; senders := senders l; offered := offered l;
     answered := answered l |}.

(** The rest of an iteration: drain the backlog and serve the batch. *)
Definition serve_batch (l : WalLoop) (m : WalMessage) (io : io_outcome) (rot1 rot2 : bool) : WalLoop :=
  let '(batch, rest) := drain_backlog max_batch [m] (waiting l) in
  let '(t', replies) := process_batch (lp_task l) batch io rot1 rot2 in
  {| lp_task := t'; place := Parked; waiting := rest; senders := senders l; offered := offered l;
     answered := answered l ++ replies |}.

(** A client removes a segment it was handed. *)
Definition remove_segment (l : WalLoop) (path : string) : WalLoop :=
  {| lp_task := with_dir (lp_task l) (delete path (dir (lp_task l))); place := place l; waiting := waiting l;
     senders := senders l; offered := offered l; answered := answered l |}.

(** What may happen; [ok] says which outcomes the file system has for a batch. *)
Inductive loop_step (ok : WalTask → list WalMessage → io_outcome → bool → bool → Prop) : WalLoop → WalLoop → Prop :=
| do_send l m :
    senders l ≠ 0%nat → len (waiting l) < capacity → loop_step ok l (send_message l m)
| do_clone l : senders l ≠ 0%nat → loop_step ok l (with_senders l (S (senders l)))
| do_drop l n : senders l = S n → loop_step ok l (with_senders l n)
| do_receive l m rest : place l = Parked → waiting l = m :: rest → loop_step ok l (receive l m rest)
| do_serve l m io rot1 rot2 :
    place l = Holding m → ok (lp_task l) (drain_backlog max_batch [m] (waiting l)).1 io rot1 rot2 →
    loop_step ok l (serve_batch l m io rot1 rot2)
| do_return l :
    place l = Parked → waiting l = [] → senders l = 0%nat → loop_step ok l (return_task l)
| do_remove l path : path ∈ returned_paths (answered l) → loop_step ok l (remove_segment l path).

(** What the task itself does next, if anything; [outcome] is how the file system treats the
    next batch. *)
Definition wal_task_step (outcome : WalTask → list WalMessage → io_outcome * bool * bool) (l : WalLoop) : option WalLoop :=
  match place l with
  | Parked =>
      match waiting l with
      | m :: rest => Some (receive l m rest)
      | [] => if decide (senders l = 0%nat) then Some (return_task l) else None
      end
  | Holding m =>
      let '(io, rot1, rot2) := outcome (lp_task l) (drain_backlog max_batch [m] (waiting l)).1 in
      Some (serve_batch l m io rot1 rot2)
  | Returned => None
  end.

(** The task runs until it parks on an empty channel or returns. *)
Fixpoint wal_task (outcome : WalTask → list WalMessage → io_outcome * bool * bool) (fuel : nat) (l : WalLoop)
    : option WalLoop :=
  match wal_task_step outcome l with
  | None => Some l
  | Some l' => match fuel with O => None | S fuel' => wal_task outcome fuel' l' end
  end.

Definition any_outcome (t : WalTask) (batch : list WalMessage) (io : io_outcome) (rot1 rot2 : bool) : Prop := True.
Definition all_succeeds (t : WalTask) (batch : list WalMessage) (io : io_outcome) (rot1 rot2 : bool) : Prop :=
  io = IoOk ∧ rot1 = true ∧ rot2 = true ∧ batch_ok (writer t) batch.

(** ** Answers *)

(** The appends of a batch are answered in their order, whatever the outcome. *)
Lemma process_batch_ack_ids t batch io rot1 rot2 :
  map fst (append_acks (process_batch t batch io rot1 rot2).2) = map snd (appends batch).
Proof.
  unfold process_batch, gather. rewrite gather_spec. cbn [g_frames g_seqs g_replies g_rotate g_drains g_sent app].
  assert (∀ (seqs : list Z) (ids : list nat), length seqs = length ids →
    map fst (append_acks (map (λ sr : Z * nat, (sr.2, ReplySeq (Ok sr.1))) (zip seqs ids))) = ids) as Hzip.
  { intros seqs. induction seqs as [|s seqs IH]; intros [|i ids] E; cbn in *; try done. f_equal. apply IH. lia. }
  destruct (commit _ _ _ io) as [[d1 w2] [u|e]].
  - destruct (rotate_if_full d1 w2 rot1) as [d2 w3]. pose proof (serve_drains_paths w3 (drains batch)) as Hd.
    destruct (serve_drains w3 _) as [w4 dr]. pose proof (serve_rotate_paths d2 w4 (head (rotates batch)) rot2) as Hr.
    destruct (serve_rotate d2 w4 _ rot2) as [[d5 w5] rr]. cbn [fst snd] in *.
    rewrite !append_acks_app, (append_acks_paths dr), (append_acks_paths rr), !app_nil_r by done.
    rewrite append_acks_paths by by apply Forall_map, Forall_true. apply Hzip. rewrite !length_map. apply length_number.
  - cbn [snd]. rewrite !append_acks_app. rewrite (append_acks_paths (map _ (tail _))) by by apply Forall_map, Forall_true.
    rewrite (append_acks_paths (map _ (drains _))) by by apply Forall_map, Forall_true.
    assert (append_acks (match head (rotates batch) with
      | Some r => [(r, ReplyPaths (Err "WAL write failed"))] | None => [] end) = []) as -> by by destruct (head _).
    rewrite !app_nil_r. cbn [app]. induction (map snd (appends batch)) as [|i ids IH]; cbn; [done|]. f_equal. apply IH.
Qed.

Lemma appends_app b c : appends (b ++ c) = appends b ++ appends c.
Proof. induction b as [|[] b IH]; cbn; by rewrite ?IH. Qed.

(** The messages are served in the order they were offered, each of them answered once, and
    the channel keeps to its capacity. *)
Record loop_inv (l : WalLoop) (served : list WalMessage) : Prop := {
  lp_order : offered l = served ++ unserved l;
  lp_answers : Permutation (map fst (answered l)) (map reply_id served);
  lp_acks : map fst (append_acks (answered l)) = map snd (appends served);
  lp_room : len (waiting l) <= Z.max 0 capacity;
  lp_returned : place l = Returned → senders l = 0%nat ∧ waiting l = []
}.

Lemma loop_inv_start t : loop_inv (spawn_loop t) [].
Proof. split; try done. cbn. change (len []) with 0. lia. Qed.

(** What a step does to the task and to the answers, [more] being the messages it serves. *)
Inductive loop_effect (ok : WalTask → list WalMessage → io_outcome → bool → bool → Prop) (l l' : WalLoop)
    : list WalMessage → Prop :=
| effect_none : lp_task l' = lp_task l → answered l' = answered l → loop_effect ok l l' []
| effect_remove path :
    path ∈ returned_paths (answered l) → answered l' = answered l →
    lp_task l' = with_dir (lp_task l) (delete path (dir (lp_task l))) → loop_effect ok l l' []
| effect_batch batch io rot1 rot2 :
    ok (lp_task l) batch io rot1 rot2 →
    lp_task l' = (process_batch (lp_task l) batch io rot1 rot2).1 →
    answered l' = answered l ++ (process_batch (lp_task l) batch io rot1 rot2).2 → loop_effect ok l l' batch.

Lemma loop_inv_serve ok l m io rot1 rot2 served :
  loop_inv l served → place l = Holding m → ok (lp_task l) (drain_backlog max_batch [m] (waiting l)).1 io rot1 rot2 →
  ∃ batch, loop_inv (serve_batch l m io rot1 rot2) (served ++ batch) ∧ loop_effect ok l (serve_batch l m io rot1 rot2) batch.
Proof.
  intros [Ho Ha Hk Hr _] Hp Hok. unfold serve_batch.
  destruct (drain_backlog_spec max_batch [m] (waiting l)) as (Eb & (more & Hm) & _ & _).
  destruct (drain_backlog max_batch [m] (waiting l)) as [batch rest]. cbn [fst snd] in Eb, Hm, Hok.
  pose proof (process_batch_ids (lp_task l) batch io rot1 rot2) as Hids.
  pose proof (process_batch_ack_ids (lp_task l) batch io rot1 rot2) as Hacks. exists batch.
  destruct (process_batch (lp_task l) batch io rot1 rot2) as [t' replies] eqn:E. cbn [snd] in *.
  split; [split|]; cbn [offered answered waiting place senders]; try done.
  - rewrite Ho. unfold unserved. rewrite Hp. cbn [held_message place waiting app]. by rewrite <-app_assoc, Eb.
  - by rewrite !map_app, Ha, Hids.
  - by rewrite append_acks_app, appends_app, !map_app, Hk, Hacks.
  - apply (f_equal len) in Eb. rewrite Hm, !len_app, len_cons, len_nil in Eb. pose proof (len_nonneg more). lia.
  - eapply effect_batch; [exact Hok|by rewrite E..].
Qed.

Lemma loop_inv_step ok l l' served :
  loop_inv l served → loop_step ok l l' → ∃ more, loop_inv l' (served ++ more) ∧ loop_effect ok l l' more.
Proof.
  intros Hi Hs. pose proof Hi as [Ho Ha Hk Hr Hret].
  destruct Hs as [l m Hn Hroom|l Hn|l n Hn|l m rest Hp Hw|l m io rot1 rot2 Hp Hok|l Hp Hw Hn|l path Hp];
    [..|by eapply loop_inv_serve| |]; exists []; rewrite app_nil_r;
    (split; [split|first [by apply effect_none|by eapply effect_remove]]);
    cbn [send_message with_senders receive return_task remove_segment offered answered waiting place senders]; try done.
  - rewrite Ho. unfold unserved. cbn. by rewrite !app_assoc.
  - rewrite len_app, len_cons, len_nil. lia.
  - intros Hp. destruct (Hret Hp). done.
  - intros Hp. destruct (Hret Hp). done.
  - intros Hp. destruct (Hret Hp). lia.
  - rewrite Ho. unfold unserved. by rewrite Hp, Hw.
  - rewrite Hw, len_cons in Hr. lia.
  - rewrite Ho. unfold unserved. cbn. by rewrite Hp.
Qed.

Lemma loop_inv_reachable ok t l : rtc (loop_step ok) (spawn_loop t) l → ∃ served, loop_inv l served.
Proof.
  intros Hr. assert (∃ served, loop_inv (spawn_loop t) served) as Hi by (exists []; apply loop_inv_start).
  induction Hr as [|l1 l2 l3 Hs _ IH]; [done|]. apply IH. destruct Hi as (served & Hi).
  destruct (loop_inv_step _ _ _ _ Hi Hs) as (more & Hi' & _). by eexists.
Qed.


(** ** Draining the channel *)

Lemma serve_fields l m io rot1 rot2 :
  place (serve_batch l m io rot1 rot2) = Parked ∧ senders (serve_batch l m io rot1 rot2) = senders l ∧
  offered (serve_batch l m io rot1 rot2) = offered l ∧
  (length (waiting (serve_batch l m io rot1 rot2)) <= length (waiting l))%nat.
Proof.
  unfold serve_batch. destruct (drain_backlog_spec max_batch [m] (waiting l)) as (Eb & (more & Hm) & _ & _).
  destruct (drain_backlog max_batch [m] (waiting l)) as [batch rest].
  destruct (process_batch _ _ _ _ _) as [t' replies]. cbn [fst snd] in *. split_and!; [done..|]. cbn [waiting].
  apply (f_equal length) in Eb. rewrite Hm, !length_app in Eb. cbn in Eb. lia.
Qed.

(** The task's step is a step of the loop. *)
Lemma wal_task_step_sound outcome l l' : wal_task_step outcome l = Some l' → loop_step any_outcome l l'.
Proof.
  unfold wal_task_step. destruct (place l) as [|m|] eqn:Hp; [|destruct (outcome _ _) as [[io rot1] rot2]|done].
  - destruct (waiting l) as [|m rest] eqn:Hw; [destruct (decide _); [|done]|]; intros [= <-].
    + by apply do_return.
    + by apply do_receive.
  - intros [= <-]. by apply do_serve.
Qed.

(** Each step of the task uses up some of this. *)
Definition work (l : WalLoop) : nat :=
  2 * length (waiting l) + match place l with Parked => 1 | Holding _ => 2 | Returned => 0 end.

Lemma wal_task_step_work outcome l l' : wal_task_step outcome l = Some l' → (work l' < work l)%nat.
Proof.
  unfold wal_task_step, work. destruct (place l) as [|m|] eqn:Hp; [|destruct (outcome _ _) as [[io rot1] rot2]|done].
  - destruct (waiting l) as [|m rest] eqn:Hw; [destruct (decide _); [|done]|]; intros [= <-]; cbn.
    + rewrite Hw. cbn. lia.
    + lia.
  - intros [= <-]. destruct (serve_fields l m io rot1 rot2) as (-> & _ & _ & Hlen). lia.
Qed.

Lemma wal_task_step_keeps outcome l l' :
  wal_task_step outcome l = Some l' → senders l' = senders l ∧ offered l' = offered l.
Proof.
  unfold wal_task_step. destruct (place l) as [|m|] eqn:Hp; [|destruct (outcome _ _) as [[io rot1] rot2]|done].
  - destruct (waiting l) as [|m rest]; [destruct (decide _); [|done]|]; by intros [= <-].
  - intros [= <-]. by destruct (serve_fields l m io rot1 rot2) as (_ & -> & -> & _).
Qed.

(** A task that has stopped has nothing left to serve. *)
Lemma wal_task_step_stops outcome l served :
  loop_inv l served → wal_task_step outcome l = None →
  unserved l = [] ∧ place l = if decide (senders l = 0%nat) then Returned else Parked.
Proof.
  intros Hi. unfold wal_task_step, unserved. destruct (place l) as [|m|] eqn:Hp.
  - destruct (waiting l); [|done]. by destruct (decide _).
  - by destruct (outcome _ _) as [[io rot1] rot2].
  - destruct (lp_returned _ _ Hi Hp) as [-> ->]. by rewrite decide_True.
Qed.

Lemma wal_task_spec outcome fuel l served :
  loop_inv l served → (work l <= fuel)%nat →
  ∃ l' more, wal_task outcome fuel l = Some l' ∧ rtc (loop_step any_outcome) l l' ∧
    loop_inv l' (served ++ more) ∧ wal_task_step outcome l' = None ∧ senders l' = senders l ∧ offered l' = offered l.
Proof.
  revert l served. induction fuel as [|fuel IH]; intros l served Hi Hw; cbn [wal_task];
    destruct (wal_task_step outcome l) as [l1|] eqn:E;
    try (exists l, []; rewrite app_nil_r; split_and!; by try apply rtc_refl).
  - apply wal_task_step_work in E. lia.
  - pose proof (wal_task_step_work _ _ _ E). pose proof (wal_task_step_sound _ _ _ E) as Hs.
    destruct (wal_task_step_keeps _ _ _ E) as [<- <-]. destruct (loop_inv_step _ _ _ _ Hi Hs) as (m1 & Hi1 & _).
    destruct (IH l1 _ Hi1 ltac:(lia)) as (l' & m2 & -> & Hr & Hi' & Hrest). exists l', (m1 ++ m2).
    rewrite app_assoc. split_and!; [done|by eapply rtc_l|done|apply Hrest..].
Qed.

(** ** The log behind the loop *)

Lemma drain_seq_app a b : drain_seq (a ++ b) = Z.max (drain_seq a) (drain_seq b).
Proof.
  unfold drain_seq. rewrite fold_left_app. set (f := λ (m : Z) (d : Z * nat), Z.max m d.1).
  assert (∀ l x y, fold_left f l (Z.max x y) = Z.max x (fold_left f l y)) as Hmax.
  { intros l. induction l as [|d l IH]; intros x y; [done|]. cbn. rewrite <-IH. f_equal. unfold f. lia. }
  assert (0 <= fold_left f a 0) as Ha.
  { rewrite <-(Z.max_id 0), Hmax. lia. }
  rewrite <-(Z.max_l (fold_left f a 0) 0) at 1 by done. apply Hmax.
Qed.

Lemma drains_app b c : drains (b ++ c) = drains b ++ drains c.
Proof. induction b as [|[] b IH]; cbn; by rewrite ?IH. Qed.
Lemma rotates_app b c : rotates (b ++ c) = rotates b ++ rotates c.
Proof. induction b as [|[] b IH]; cbn; by rewrite ?IH. Qed.

Lemma batch_gc_app b c : batch_gc (b ++ c) = Z.max (batch_gc b) (batch_gc c).
Proof.
  unfold batch_gc. rewrite drains_app, rotates_app, drain_seq_app.
  assert (0 <= u64_max) by width. destruct (rotates b), (rotates c); cbn [app]; lia.
Qed.

Lemma number_app seq a b :
  in_u64 seq → seq + len a < u64_mod → number seq (a ++ b) = number seq a ++ number (seq + len a) b.
Proof.
  revert seq. induction a as [|[pts r] a IH]; intros seq Hs Hb; [by rewrite len_nil, Z.add_0_r|].
  rewrite len_cons in *. pose proof (len_nonneg a). cbn [number app].
  rewrite wrap_u64_id by (destruct Hs; split; lia). rewrite IH; [|destruct Hs; split; lia|lia].
  do 2 f_equal. f_equal. lia.
Qed.

(** The loop behind [served] messages stands for a state of the log system. *)
Record loop_log (t0 : WalTask) (log : list WalEntry) (l : WalLoop) (served : list WalMessage) (sys : WalSystem) : Prop := {
  lg_run : rtc wal_step (system t0 log) sys;
  lg_task : task sys = lp_task l;
  lg_acked : acked sys = log ++ number (current_seq (writer t0)) (appends served);
  lg_gc : gc_seq sys = batch_gc served;
  lg_pending : pending sys = returned_paths (answered l);
  lg_seq : current_seq (writer (lp_task l)) = current_seq (writer t0) + len (appends served);
  lg_acks : append_acks (answered l) =
    zip (map snd (appends served)) (map Ok (seqZ (current_seq (writer t0) + 1) (len (appends served))))
}.

Lemma loop_log_start t log : loop_log t log (spawn_loop t) [] (system t log).
Proof. split; try done; [cbn; by rewrite app_nil_r|symmetry; apply Z.add_0_r]. Qed.

Lemma loop_log_batch t0 log l served sys batch :
  sys_inv (system t0 log) → loop_log t0 log l served sys → batch_ok (writer (lp_task l)) batch →
  let r := process_batch (lp_task l) batch IoOk true true in
  ∀ l', lp_task l' = r.1 → answered l' = answered l ++ r.2 →
  loop_log t0 log l' (served ++ batch) (after_batch sys batch).
Proof.
  intros Hs0 [Hrun Ht Ha Hg Hp Hq Hk] Hb r l' El Eans.
  pose proof (sys_inv_reachable _ _ Hrun Hs0) as (older & cur & Hinv & Hl & _). rewrite Ht in Hinv, Hl.
  pose proof (inv_seq64 _ _ _ _ Hinv) as H64. destruct Hs0 as (o0 & c0 & Hinv0 & _).
  pose proof (inv_seq64 _ _ _ _ Hinv0) as H640. cbn [task system] in H640.
  destruct (process_batch_inv _ _ _ _ Hinv Hl Hb) as (older' & cur' & _ & _ & _ & Hq' & _ & _).
  pose proof (process_batch_acks (lp_task l) batch IoOk true true H64 (proj1 (proj2 Hb))) as Hacks.
  pose proof Hb as (Hes & Hbound & Hseg). pose proof (len_nonneg (appends served)). pose proof (len_nonneg (appends batch)).
  fold r in Hq', Hacks. split.
  - eapply rtc_r; [exact Hrun|]. apply step_batch. by rewrite Ht.
  - cbn [after_batch task]. by rewrite Ht, El.
  - cbn [after_batch acked]. unfold new_entries. rewrite Ha, Ht, Hq, appends_app, number_app by (done || lia).
    by rewrite <-app_assoc.
  - cbn [after_batch gc_seq]. by rewrite Hg, batch_gc_app.
  - cbn [after_batch pending]. by rewrite Hp, Ht, Eans, returned_paths_app.
  - rewrite El, Hq', Hq, appends_app, len_app. lia.
  - rewrite Eans, append_acks_app, Hk, Hacks, appends_app, len_app, Hq, map_app, seqZ_app, map_app by lia.
    rewrite zip_with_app; [do 4 f_equal; lia|]. rewrite !length_map, length_seqZ. unfold len. lia.
Qed.

Lemma loop_log_step t0 log l l' served sys more :
  sys_inv (system t0 log) → loop_log t0 log l served sys → loop_effect all_succeeds l l' more →
  ∃ sys', loop_log t0 log l' (served ++ more) sys'.
Proof.
  intros Hs0 Hlog He. destruct He as [E1 E2|path Hp E2 E1|batch io rot1 rot2 (-> & -> & -> & Hok) E1 E2].
  - exists sys. rewrite app_nil_r. destruct Hlog. split; rewrite ?E1, ?E2; done.
  - exists (after_delete sys path). rewrite app_nil_r. destruct Hlog as [Hrun Ht Ha Hg Hpe Hq Hk].
    split; rewrite ?E1, ?E2; cbn [after_delete task acked gc_seq pending]; try done.
    + eapply rtc_r; [exact Hrun|]. apply step_delete. by rewrite Hpe.
    + by rewrite Ht.
  - exists (after_batch sys batch). by eapply loop_log_batch.
Qed.

Lemma loop_log_reachable t0 log l :
  sys_inv (system t0 log) → rtc (loop_step all_succeeds) (spawn_loop t0) l →
  ∃ served sys, loop_inv l served ∧ loop_log t0 log l served sys.
Proof.
  intros Hs0 Hr. assert (∃ served sys, loop_inv (spawn_loop t0) served ∧ loop_log t0 log (spawn_loop t0) served sys) as Hi.
  { exists [], (system t0 log). split; [apply loop_inv_start|apply loop_log_start]. }
  induction Hr as [|l1 l2 l3 Hs _ IH]; [done|]. apply IH. destruct Hi as (served & sys & Hi & Hlog).
  destruct (loop_inv_step _ _ _ _ Hi Hs) as (more & Hi' & He).
  destruct (loop_log_step _ _ _ _ _ _ _ Hs0 Hlog He) as (sys' & Hlog'). by exists (served ++ more), sys'.
Qed.

End WalLoop.

(** ** A sample run *)

(** Three messages are sent, the task takes the first and serves them as one batch. *)
Definition sample_sent : WalLoop := foldl send_message (spawn_loop sample_task) plain_batch.
Definition sample_holding : WalLoop := receive sample_sent (Append (tiny_points 1) 10) (tail plain_batch).
Definition sample_served : WalLoop :=
  @serve_batch ieee_crc32 wal_codec 64 sample_holding (Append (tiny_points 1) 10) IoOk true true.

Lemma sample_loop (ok : WalTask → list WalMessage → io_outcome → bool → bool → Prop) :
  ok sample_task plain_batch IoOk true true →
  rtc (@loop_step ieee_crc32 wal_codec 8 64 ok) (spawn_loop sample_task) sample_served.
Proof.
  intros Hok. do 3 (eapply rtc_l; [apply do_send; [discriminate|reflexivity]|]).
  eapply rtc_l; [by apply do_receive|]. eapply rtc_l; [|apply rtc_refl]. by apply do_serve.
Qed.

(** ** Properties *)

(** C25. The WAL task answers every message once and in turn: however sends, clones and
    drops of senders, batches (with any outcome of their writes and rotations) and removals
    of drained segments interleave, the messages served are a prefix of those offered, each
    of them has exactly one reply, the appends are answered in their order, the channel
    holds at most its capacity, and the task has returned only when no sender is left and
    everything offered was answered. *)
Theorem wal_loop_answers `{HC : Crc32, HD : Codec WalEntry} capacity max_batch t l
    (Hr : rtc (loop_step capacity max_batch any_outcome) (spawn_loop t) l) :
  ∃ served, offered l = served ++ unserved l ∧
    Permutation (map fst (answered l)) (map reply_id served) ∧
    map fst (append_acks (answered l)) = map snd (appends served) ∧
    len (waiting l) <= Z.max 0 capacity ∧
    (place l = Returned → senders l = 0%nat ∧ served = offered l).
Proof.
  destruct (loop_inv_reachable _ _ _ _ _ Hr) as (served & [Ho Ha Hk Hc Hret]). exists served. split_and!; try done.
  intros Hp. destruct (Hret Hp) as [Hn Hw]. split; [done|]. rewrite Ho. unfold unserved. rewrite Hp, Hw. cbn.
  by rewrite app_nil_r.
Qed.

Lemma wal_loop_answers_witness :
  ∃ served, offered sample_served = served ++ unserved sample_served ∧
    Permutation (map fst (answered sample_served)) (map reply_id served) ∧
    map fst (append_acks (answered sample_served)) = map snd (appends served) ∧
    len (waiting sample_served) <= Z.max 0 8 ∧
    (place sample_served = Returned → senders sample_served = 0%nat ∧ served = offered sample_served).
Proof.
  exact (wal_loop_answers (HC := ieee_crc32) (HD := wal_codec) 8 64 sample_task sample_served
    (sample_loop any_outcome I)).
Defined.

(** C39. The WAL task makes progress: from any state it can reach, with whatever outcomes the
    file system has, it answers every message that was offered in at most two steps per
    waiting message and two more; then it waits for the next message, or, when the last
    sender is gone, it has returned. *)
Theorem wal_loop_drains `{HC : Crc32, HD : Codec WalEntry} capacity max_batch outcome t l fuel
    (Hr : rtc (loop_step capacity max_batch any_outcome) (spawn_loop t) l)
    (Hf : (2 * length (waiting l) + 2 <= fuel)%nat) :
  ∃ l', wal_task max_batch outcome fuel l = Some l' ∧ rtc (loop_step capacity max_batch any_outcome) l l' ∧
    offered l' = offered l ∧ unserved l' = [] ∧
    Permutation (map fst (answered l')) (map reply_id (offered l)) ∧
    place l' = if decide (senders l = 0%nat) then Returned else Parked.
Proof.
  destruct (loop_inv_reachable _ _ _ _ _ Hr) as (served & Hi).
  destruct (wal_task_spec capacity max_batch outcome fuel l served Hi) as (l' & more & E & Hr' & Hi' & Hstop & Es & Eo).
  { unfold work. destruct (place l); lia. }
  destruct (wal_task_step_stops _ _ _ _ _ Hi' Hstop) as [Hu Hp]. exists l'. split_and!; try done.
  - rewrite (lp_answers _ _ _ Hi'), <-Eo, (lp_order _ _ _ Hi'), Hu. by rewrite app_nil_r.
  - by rewrite Hp, Es.
Qed.

Lemma wal_loop_drains_witness :
  ∃ l', @wal_task ieee_crc32 wal_codec 64 (λ _ _, (IoErr 3, true, true)) 8 sample_sent = Some l' ∧
    rtc (@loop_step ieee_crc32 wal_codec 8 64 any_outcome) sample_sent l' ∧
    offered l' = plain_batch ∧ unserved l' = [] ∧
    Permutation (map fst (answered l')) [10; 12; 13]%nat ∧ place l' = Parked.
Proof.
  refine (wal_loop_drains (HC := ieee_crc32) (HD := wal_codec) 8 64 (λ _ _, (IoErr 3, true, true)) sample_task
    sample_sent 8 _ ltac:(cbn; lia)).
  do 3 (eapply rtc_l; [apply do_send; [discriminate|reflexivity]|]). apply rtc_refl.
Defined.

(** C4. The WAL task implements an append-only log as long as every write and every rotation
    succeeds and every batch fits its widths ([all_succeeds]; [wal_failed_write_poisons_segment]
    shows that it does not after a failed write): started over a log that satisfies its
    invariant, whatever way sends, batches and removals interleave, the appends served so far are acknowledged in the order they were sent with consecutive
    sequence numbers, the published sequence is the last of them, and a recovery at any
    watermark at or above what was asked to be collected returns exactly the points of the
    starting log and of the served appends above that watermark, in order. *)
Theorem wal_loop_refines_log `{HC : Crc32, HD : Codec WalEntry} (LC : Crc32Laws)
    (LD : CodecLaws WalEntry entry_wf) capacity max_batch t log l
    (Hs : sys_inv (system t log)) (Hr : rtc (loop_step capacity max_batch all_succeeds) (spawn_loop t) l) :
  ∃ served, offered l = served ++ unserved l ∧
    append_acks (answered l) =
      zip (map snd (appends served)) (map Ok (seqZ (current_seq (writer t) + 1) (len (appends served)))) ∧
    sender_current_sequence (lp_task l) = current_seq (writer t) + len (appends served) ∧
    ∀ wm, batch_gc served <= wm →
      ∃ r, recover (dir (lp_task l)) wm = Ok r ∧
        rr_points r = points_of (above wm (log ++ number (current_seq (writer t)) (appends served))).
Proof.
  destruct (loop_log_reachable _ _ _ _ _ Hs Hr) as (served & sys & Hi & [Hrun Ht Ha Hg _ Hq Hk]).
  destruct (sys_inv_reachable _ _ Hrun Hs) as (older & cur & [Hd _ _ _ _ _ _ _] & Hl & Hab & _).
  exists served. split; [apply Hi|]. split; [done|]. rewrite Ht in Hd, Hl. split.
  { unfold sender_current_sequence. by rewrite Hl, Hq. }
  intros wm Hwm. eexists. split; [by apply recover_ok|]. cbn. rewrite <-Hg in Hwm.
  by rewrite (above_mono _ _ _ _ Hwm Hab), Ha.
Qed.

Lemma wal_loop_refines_log_witness :
  ∃ served, plain_batch = served ++ unserved sample_served ∧
    append_acks (answered sample_served) =
      zip (map snd (appends served)) (map Ok (seqZ 1 (len (appends served)))) ∧
    sender_current_sequence (lp_task sample_served) = 0 + len (appends served) ∧
    ∀ wm, batch_gc served <= wm →
      ∃ r, @recover ieee_crc32 wal_codec (dir (lp_task sample_served)) wm = Ok r ∧
        rr_points r = points_of (above wm ([] ++ number 0 (appends served))).
Proof.
  exact (wal_loop_refines_log (HC := ieee_crc32) (HD := wal_codec) ieee_crc32_laws wal_codec_laws 8 64 sample_task []
    sample_served (fresh_sys_inv (H := ieee_crc32) 1000)
    (sample_loop all_succeeds (conj eq_refl (conj eq_refl (conj eq_refl plain_batch_ok))))).
Defined.
