(* ===== verification/ChunkIndex.v ===== *)
(** * The chunk index ([src/storage-engine/src/index/chunk_index.rs])

    The in-memory index over all chunk files.  A [HashMap] is a finite map, a
    [HashSet] a finite set; the order in which they are iterated is whatever the
    map's enumeration gives, and no theorem depends on it.  [register] returns the
    series id along with the new index. *)
From S2P Require Import Prelude BTree F64 Externals Types Memtable.

Record ChunkIndex := {
  series_registry : gmap Z SeriesKey;
  time_index : gmap Z (list (Z * SeriesChunkEntry));
  tag_index : gmap (string * string) (gset Z);
  chunk_stats : gmap (Z * Z) SeriesChunkStats;
  chunk_files : gmap Z ChunkMeta;
  shard_watermarks : list Z
}.

(** [ChunkIndex::new]. *)
Definition index_new : ChunkIndex :=
  {| series_registry := ∅; time_index := ∅; tag_index := ∅; chunk_stats := ∅; chunk_files := ∅;
     shard_watermarks := [] |}.

(** [tag_index.entry((k, v)).or_default().insert(id)] for every tag. *)
Definition insert_tags (ti : gmap (string * string) (gset Z)) (tags : Tags) (id : Z)
    : gmap (string * string) (gset Z) :=
  fold_left (λ ti kv, <[kv := {[id]} ∪ default ∅ (ti !! kv)]> ti) tags ti.

(** [ChunkIndex::register]. *)
Definition register `{XxHash} (idx : ChunkIndex) (key : SeriesKey) (entry : SeriesChunkEntry)
    (stats : SeriesChunkStats) (meta : ChunkMeta) : ChunkIndex * Z :=
  let id := series_id key in
  ({| series_registry := <[id := key]> (series_registry idx);
      time_index :=
        <[id := bt_insert (default [] (time_index idx !! id)) (ce_time_start_ns entry) entry]>
          (time_index idx);
      tag_index :=
        match series_registry idx !! id with
        | None => insert_tags (tag_index idx) (sk_tags key) id
        | Some _ => tag_index idx
        end;
      chunk_stats := <[(ce_chunk_id entry, id) := stats]> (chunk_stats idx);
      chunk_files := <[ce_chunk_id entry := meta]> (chunk_files idx);
      shard_watermarks := shard_watermarks idx |}, id).

(** [chunk_stats.keys().any(|(cid, _)| cid == chunk_id)]. *)
Definition chunk_referenced (stats : gmap (Z * Z) SeriesChunkStats) (chunk_id : Z) : bool :=
  existsb (λ e, e.1.1 =? chunk_id) (map_to_list stats).

(** [ChunkIndex::deregister]. *)
Definition deregister (idx : ChunkIndex) (series_id chunk_id time_start_ns : Z) : ChunkIndex :=
  let stats := delete (chunk_id, series_id) (chunk_stats idx) in
  {| series_registry := series_registry idx;
     time_index :=
       match time_index idx !! series_id with
       | Some time_map =>
           if bool_decide ((ce_chunk_id <$> bt_get time_map time_start_ns) = Some chunk_id)
           then <[series_id := bt_remove time_map time_start_ns]> (time_index idx)
           else time_index idx
       | None => time_index idx
       end;
     tag_index := tag_index idx;
     chunk_stats := stats;
     chunk_files := if chunk_referenced stats chunk_id then chunk_files idx
                    else delete chunk_id (chunk_files idx);
     shard_watermarks := shard_watermarks idx |}.

(** [series_registry.get(id).is_some_and(|sk| sk.metric_name == metric)]. *)
Definition metric_is (idx : ChunkIndex) (metric : string) (id : Z) : bool :=
  match series_registry idx !! id with
  | Some sk => bool_decide (sk_metric_name sk = metric)
  | None => false
  end.

(** The loop over the remaining filters: intersect, stopping at the empty set. *)
Fixpoint intersect_filters (idx : ChunkIndex) (filters : list (string * string)) (cand : gset Z) : gset Z :=
  match filters with
  | [] => cand
  | f :: filters' =>
      match tag_index idx !! f with
      | None => ∅
      | Some set =>
          let cand' := filter (λ id, id ∈ set) cand in
          if bool_decide (cand' = ∅) then ∅ else intersect_filters idx filters' cand'
      end
  end.

(** [ChunkIndex::resolve_series]; [tag_filters] lists the filter map in its
    iteration order. *)
Definition index_resolve_series (idx : ChunkIndex) (metric : string)
    (tag_filters : list (string * string)) : list Z :=
  match tag_filters with
  | [] =>
      map fst (List.filter (λ e, bool_decide (sk_metric_name e.2 = metric))
                 (map_to_list (series_registry idx)))
  | first :: filters =>
      match tag_index idx !! first with
      | None => []
      | Some first_set =>
          let cand := filter (λ id, metric_is idx metric id = true) first_set in
          if bool_decide (cand = ∅) then []
          else List.filter (metric_is idx metric) (elements (intersect_filters idx filters cand))
      end
  end.

(** The value filter of [prune_chunks]. *)
Definition stats_allow (idx : ChunkIndex) (predicate : option ValuePredicate) (e : SeriesChunkEntry) : bool :=
  match predicate with
  | None => true
  | Some p =>
      match chunk_stats idx !! (ce_chunk_id e, ce_series_id e) with
      | None => true
      | Some st => matches p (min_value st) (max_value st)
      end
  end.

(** [ChunkIndex::prune_chunks]. *)
Definition prune_chunks (idx : ChunkIndex) (series_id time_start_ns time_end_ns : Z)
    (predicate : option ValuePredicate) : list SeriesChunkEntry :=
  match time_index idx !! series_id with
  | None => []
  | Some time_map =>
      map snd
        (List.filter (λ e, stats_allow idx predicate e.2)
           (List.filter (λ e, time_start_ns <=? ce_time_end_ns e.2)
              (List.filter (λ e, e.1 <=? time_end_ns) time_map)))
  end.

(** [series_count], [series_chunk_count], [chunk_file_count]. *)
Definition series_count (idx : ChunkIndex) : Z := Z.of_nat (size (series_registry idx)).
Definition series_chunk_count (idx : ChunkIndex) : Z := Z.of_nat (size (chunk_stats idx)).
Definition chunk_file_count (idx : ChunkIndex) : Z := Z.of_nat (size (chunk_files idx)).

(** ** Invariant *)

Definition time_map (idx : ChunkIndex) (id : Z) : list (Z * SeriesChunkEntry) :=
  default [] (time_index idx !! id).
Definition tag_set (idx : ChunkIndex) (kv : string * string) : gset Z :=
  default ∅ (tag_index idx !! kv).

Section Invariant.
Context `{XxHash}.

Record idx_wf (idx : ChunkIndex) : Prop := {
  (** ids are the hashes of their keys *)
  wf_ids : ∀ id k, series_registry idx !! id = Some k → series_id k = id ∧ bt_wf (sk_tags k);
  (** the inverted index is exact *)
  wf_tags : ∀ kv id, id ∈ tag_set idx kv ↔ ∃ k, series_registry idx !! id = Some k ∧ kv ∈ sk_tags k;
  (** time maps are sorted and keyed by the start of their entries *)
  wf_sorted : ∀ id, bt_wf (time_map idx id);
  wf_entries : ∀ id t e, (t, e) ∈ time_map idx id → ce_time_start_ns e = t ∧ ce_series_id e = id;
  (** every entry belongs to a registered series and has statistics *)
  wf_series : ∀ id t e, (t, e) ∈ time_map idx id → is_Some (series_registry idx !! id);
  wf_stats : ∀ id t e, (t, e) ∈ time_map idx id → is_Some (chunk_stats idx !! (ce_chunk_id e, id));
  (** a chunk holds a series once *)
  wf_once : ∀ id t e t' e', (t, e) ∈ time_map idx id → (t', e') ∈ time_map idx id →
    ce_chunk_id e = ce_chunk_id e' → t = t';
  (** a file is listed as long as some series refers to it *)
  wf_files : ∀ c, is_Some (chunk_files idx !! c) ↔ ∃ id, is_Some (chunk_stats idx !! (c, id))
}.

(** ** Registration *)

Lemma tag_in_insert_tags ti tags id kv x :
  x ∈ default ∅ (insert_tags ti tags id !! kv) ↔ x ∈ default ∅ (ti !! kv) ∨ x = id ∧ kv ∈ tags.
Proof.
  unfold insert_tags. revert ti. induction tags as [|kv0 tags IH]; intros ti; cbn [fold_left].
  - set_solver.
  - rewrite IH, elem_of_cons. destruct (decide (kv0 = kv)) as [->|Hne].
    + rewrite lookup_insert_eq. cbn. set_solver.
    + rewrite lookup_insert_ne by done. naive_solver.
Qed.

(** The id is not taken by another key: neither a hash collision nor a canonical
    form shared by two keys. *)
Definition no_collision (idx : ChunkIndex) (key : SeriesKey) : Prop :=
  ∀ k, series_registry idx !! series_id key = Some k → k = key.

(** The chunk does not already hold the series under another start time. *)
Definition chunk_fresh (idx : ChunkIndex) (id : Z) (entry : SeriesChunkEntry) : Prop :=
  ∀ t e, (t, e) ∈ time_map idx id → ce_chunk_id e = ce_chunk_id entry → t = ce_time_start_ns entry.

Lemma time_map_register idx key entry stats meta id :
  time_map (register idx key entry stats meta).1 id =
  if decide (id = series_id key)
  then bt_insert (time_map idx id) (ce_time_start_ns entry) entry else time_map idx id.
Proof.
  unfold time_map, register. cbn [fst time_index]. case_decide as D; subst.
  - by rewrite lookup_insert_eq.
  - by rewrite lookup_insert_ne by done.
Qed.

Lemma elem_of_time_map_register idx key entry stats meta id t e :
  bt_wf (time_map idx id) →
  (t, e) ∈ time_map (register idx key entry stats meta).1 id ↔
  (id = series_id key ∧ t = ce_time_start_ns entry ∧ e = entry) ∨
  ((t, e) ∈ time_map idx id ∧ (id = series_id key → t ≠ ce_time_start_ns entry)).
Proof.
  intros Hwf. rewrite time_map_register. case_decide as D; [|naive_solver].
  rewrite <-bt_get_In, bt_get_insert by (by apply bt_wf_insert). rewrite <-(bt_get_In (time_map idx id)) by done.
  case_decide; naive_solver.
Qed.

Lemma register_wf idx key entry stats meta :
  idx_wf idx → bt_wf (sk_tags key) → ce_series_id entry = series_id key →
  no_collision idx key → chunk_fresh idx (series_id key) entry →
  idx_wf (register idx key entry stats meta).1.
Proof.
  intros Hw Ht Hid Hnc Hcf. set (idx' := (register idx key entry stats meta).1).
  assert (∀ id, series_registry idx' !! id =
    if decide (id = series_id key) then Some key else series_registry idx !! id) as Hreg.
  { intros id. unfold idx', register. cbn [fst series_registry]. case_decide as D; subst.
    - by rewrite lookup_insert_eq. - by rewrite lookup_insert_ne by done. }
  assert (∀ id t e, (t, e) ∈ time_map idx' id ↔ _) as Htm
    by (intros id t e; apply elem_of_time_map_register, Hw).
  assert (∀ c id, is_Some (chunk_stats idx' !! (c, id)) ↔
    is_Some (chunk_stats idx !! (c, id)) ∨ c = ce_chunk_id entry ∧ id = series_id key) as Hst.
  { intros c id. unfold idx', register. cbn [fst chunk_stats]. rewrite lookup_insert_is_Some'.
    split; [intros [[= <- <-]|?]|intros [?|[-> ->]]]; auto. }
  destruct Hw as [W1 W2 W3 W4 W5 W6 W7 W8]. split.
  - intros id k. rewrite Hreg. case_decide as D; [|apply W1]. intros [= <-]. by subst.
  - intros kv id. setoid_rewrite Hreg. unfold tag_set, idx', register. cbn [fst tag_index].
    destruct (series_registry idx !! series_id key) as [k|] eqn:Ek.
    + apply Hnc in Ek as Hk. subst k. change (default ∅ _) with (tag_set idx kv). rewrite W2.
      case_decide; subst; [rewrite Ek|]; done.
    + rewrite tag_in_insert_tags. change (default ∅ _) with (tag_set idx kv). rewrite W2.
      case_decide; subst; [rewrite Ek|]; naive_solver.
  - intros id. unfold idx'. rewrite time_map_register. case_decide; [by apply bt_wf_insert|done].
  - intros id t e. rewrite Htm. intros [(-> & -> & ->)|[Hin _]]; [done|by apply W4].
  - intros id t e. rewrite Htm, Hreg. intros [(-> & _)|[Hin _]]; [by rewrite decide_True|].
    case_decide; [done|by eapply W5].
  - intros id t e. rewrite Htm, Hst. intros [(-> & _ & ->)|[Hin _]]; [by right|left; by eapply W6].
  - intros id t e t' e'. rewrite !Htm.
    intros [(-> & -> & ->)|[Hin Hne]] [(E & -> & ->)|[Hin' Hne']] Ec; [done| | |by eapply W7].
    + symmetry. by eapply Hcf.
    + subst id. by eapply Hcf.
  - intros c. setoid_rewrite Hst. unfold idx', register. cbn [fst chunk_files].
    rewrite lookup_insert_is_Some', W8. naive_solver.
Qed.

(** ** Deregistration *)

Lemma chunk_referenced_spec stats c :
  chunk_referenced stats c = true ↔ ∃ id, is_Some (stats !! (c, id)).
Proof.
  unfold chunk_referenced. rewrite existsb_exists. split.
  - intros ([[c' id] st] & Hin%list_elem_of_In%elem_of_map_to_list & E). cbn in E. zbool. subst. eauto.
  - intros (id & st & Hst). exists ((c, id), st). split; [|cbn; lia].
    by apply list_elem_of_In, elem_of_map_to_list.
Qed.

Lemma elem_of_time_map_deregister idx sid cid ts id t e :
  bt_wf (time_map idx id) →
  (∀ t e, (t, e) ∈ time_map idx sid → ce_chunk_id e = cid → t = ts) →
  (t, e) ∈ time_map (deregister idx sid cid ts) id ↔
  (t, e) ∈ time_map idx id ∧ ¬ (id = sid ∧ ce_chunk_id e = cid).
Proof.
  intros Hwf Hone. unfold time_map at 1, deregister. cbn [time_index].
  assert (time_index idx !! sid = None → time_map idx sid = []) as Hnone.
  { unfold time_map. by intros ->. }
  destruct (time_index idx !! sid) as [tm|] eqn:E.
  - assert (time_map idx sid = tm) as Etm by (unfold time_map; by rewrite E). case_bool_decide as D.
    + destruct (decide (id = sid)) as [->|Hne].
      * rewrite lookup_insert_eq. change (default [] (Some ?l)) with l. rewrite Etm in *.
        rewrite <-(bt_get_In (bt_remove tm ts)), bt_get_remove by (done || by apply bt_wf_remove).
        rewrite <-(bt_get_In tm) by done. case_decide as D'; [subst t|].
        -- split; [done|]. intros [Hg Hn]. rewrite Hg in D. injection D as D.
           exfalso. by apply Hn.
        -- split; [|by intros []]. intros Hg. split; [done|]. intros [_ Hc].
           apply D', (Hone t e); [by apply bt_get_In|done].
      * rewrite lookup_insert_ne by done. naive_solver.
    + change (default [] (time_index idx !! id)) with (time_map idx id). split; [|by intros []].
      intros Hin. split; [done|]. intros [-> Hc]. apply D. pose proof (Hone t e Hin Hc) as ->.
      rewrite Etm in *. apply bt_get_In in Hin; [|done]. by rewrite Hin, <-Hc.
  - change (default [] (time_index idx !! id)) with (time_map idx id). split; [|by intros []].
    intros Hin. split; [done|]. intros [-> _]. rewrite Hnone in Hin by done. by apply elem_of_nil in Hin.
Qed.

Lemma deregister_wf idx sid cid ts :
  idx_wf idx → (∀ t e, (t, e) ∈ time_map idx sid → ce_chunk_id e = cid → t = ts) →
  idx_wf (deregister idx sid cid ts).
Proof.
  intros Hw Hone. set (idx' := deregister idx sid cid ts).
  assert (∀ id t e, (t, e) ∈ time_map idx' id ↔ _) as Htm
    by (intros id t e; apply elem_of_time_map_deregister; [apply Hw|exact Hone]).
  assert (∀ c id, is_Some (chunk_stats idx' !! (c, id)) ↔
    is_Some (chunk_stats idx !! (c, id)) ∧ ¬ (c = cid ∧ id = sid)) as Hst.
  { intros c id. unfold idx', deregister. cbn [chunk_stats]. rewrite lookup_delete_is_Some. naive_solver. }
  destruct Hw as [W1 W2 W3 W4 W5 W6 W7 W8]. split; try done.
  - intros id. unfold idx', deregister, time_map. cbn [time_index].
    specialize (W3 id). unfold time_map in W3.
    destruct (time_index idx !! sid) as [tm|] eqn:E; [|done]. case_bool_decide; [|done].
    destruct (decide (id = sid)) as [->|Hne].
    + rewrite lookup_insert_eq. rewrite E in W3. by apply bt_wf_remove.
    + by rewrite lookup_insert_ne.
  - intros id t e. rewrite Htm. intros [Hin _]. by apply W4.
  - intros id t e. rewrite Htm. intros [Hin _]. by eapply W5.
  - intros id t e. rewrite Htm, Hst. intros [Hin Hn]. split; [by eapply W6|naive_solver].
  - intros id t e t' e'. rewrite !Htm. intros [Hin _] [Hin' _]. by eapply W7.
  - intros c. setoid_rewrite Hst. unfold idx', deregister. cbn [chunk_files].
    destruct (chunk_referenced _ cid) eqn:E.
    + apply chunk_referenced_spec in E as (id & Hid). setoid_rewrite lookup_delete_is_Some in Hid.
      rewrite W8. split; [|naive_solver]. intros (id' & Hid').
      destruct (decide (c = cid)) as [->|]; [exists id|exists id']; naive_solver.
    + rewrite lookup_delete_is_Some, W8.
      assert (∀ id, is_Some (delete (cid, sid) (chunk_stats idx) !! (cid, id)) → False) as Hn.
      { intros id Hid. assert (chunk_referenced (delete (cid, sid) (chunk_stats idx)) cid = true); [|congruence].
        apply chunk_referenced_spec. by exists id. }
      setoid_rewrite lookup_delete_is_Some in Hn. split.
      * intros [Hne (id & Hid)]. exists id. naive_solver.
      * intros (id & Hid & Hne). split; [|by exists id]. intros <-. apply (Hn id). naive_solver.
Qed.

(** ** Queries *)

Lemma index_new_wf : idx_wf index_new.
Proof.
  split; unfold index_new, time_map, tag_set; cbn; intros.
  - by rewrite lookup_empty in *.
  - rewrite lookup_empty. cbn. setoid_rewrite lookup_empty. set_solver.
  - rewrite lookup_empty. constructor.
  - rewrite lookup_empty in *. by apply elem_of_nil in H0.
  - rewrite lookup_empty in *. by apply elem_of_nil in H0.
  - rewrite lookup_empty in *. by apply elem_of_nil in H0.
  - rewrite lookup_empty in *. by apply elem_of_nil in H0.
  - rewrite lookup_empty, is_Some_alt. split; [done|]. intros (id & Hid). by rewrite lookup_empty, is_Some_alt in Hid.
Qed.

Lemma elem_of_intersect_filters idx filters cand id :
  id ∈ intersect_filters idx filters cand ↔ id ∈ cand ∧ Forall (λ f, id ∈ tag_set idx f) filters.
Proof.
  revert cand. induction filters as [|f filters IH]; intros cand; cbn [intersect_filters].
  - split; [|by intros []]. intros Hin. split; [done|constructor].
  - rewrite Forall_cons. destruct (tag_index idx !! f) as [set|] eqn:E.
    + assert (tag_set idx f = set) as -> by (unfold tag_set; by rewrite E).
      case_bool_decide as D.
      * assert (∀ x, x ∈ cand → x ∉ set) as Hn by set_solver. set_solver.
      * rewrite IH, elem_of_filter. naive_solver.
    + assert (tag_set idx f = ∅) as -> by (unfold tag_set; by rewrite E). set_solver.
Qed.

Lemma metric_is_spec idx metric id :
  metric_is idx metric id = true ↔ ∃ k, series_registry idx !! id = Some k ∧ sk_metric_name k = metric.
Proof.
  unfold metric_is. destruct (series_registry idx !! id) as [k|]; [|naive_solver].
  rewrite bool_decide_eq_true. naive_solver.
Qed.

(** The series a query selects. *)
Definition selects (idx : ChunkIndex) (metric : string) (filters : list (string * string)) (id : Z) : Prop :=
  ∃ k, series_registry idx !! id = Some k ∧ sk_metric_name k = metric ∧
    Forall (λ f, bt_get (sk_tags k) f.1 = Some f.2) filters.

Lemma selects_tags idx metric filters id :
  idx_wf idx →
  selects idx metric filters id ↔
  metric_is idx metric id = true ∧ Forall (λ f, id ∈ tag_set idx f) filters.
Proof.
  intros Hw. rewrite metric_is_spec. unfold selects. split.
  - intros (k & Hk & Hm & Hf). split; [by exists k|]. eapply Forall_impl; [exact Hf|].
    intros [t v] Hg. apply (wf_tags idx Hw). exists k. split; [done|]. by apply bt_get_Some_In.
  - intros ((k & Hk & Hm) & Hf). exists k. split; [done|]. split; [done|].
    eapply Forall_impl; [exact Hf|]. intros [t v] (k' & Hk' & Hin)%(wf_tags idx Hw). simplify_eq.
    apply bt_In_get; [by apply (wf_ids idx Hw id)|done].
Qed.

Lemma elem_of_index_resolve idx metric filters id :
  idx_wf idx → id ∈ index_resolve_series idx metric filters ↔ selects idx metric filters id.
Proof.
  intros Hw. rewrite selects_tags by done. unfold index_resolve_series. destruct filters as [|f filters].
  - rewrite elem_of_map, metric_is_spec. split.
    + intros ([id' k] & -> & [Hin Hm]%elem_of_filterb). apply elem_of_map_to_list in Hin.
      apply bool_decide_eq_true in Hm. split; [by exists k|constructor].
    + intros [(k & Hk & Hm) _]. exists (id, k). split; [done|]. apply elem_of_filterb.
      split; [by apply elem_of_map_to_list|]. by apply bool_decide_eq_true.
  - rewrite Forall_cons. destruct (tag_index idx !! f) as [set|] eqn:E.
    + assert (tag_set idx f = set) as -> by (unfold tag_set; by rewrite E).
      case_bool_decide as D.
      * rewrite elem_of_nil. split; [done|]. intros (Hm & Hin & _). set_solver.
      * rewrite elem_of_filterb, elem_of_elements, elem_of_intersect_filters, elem_of_filter. naive_solver.
    + assert (tag_set idx f = ∅) as -> by (unfold tag_set; by rewrite E). set_solver.
Qed.

Lemma index_resolve_NoDup idx metric filters : NoDup (index_resolve_series idx metric filters).
Proof.
  unfold index_resolve_series. destruct filters as [|f filters].
  - eapply sublist_NoDup; [apply (NoDup_fst_map_to_list (series_registry idx))|].
    induction (map_to_list (series_registry idx)) as [|e l IH]; [constructor|]. cbn.
    destruct (bool_decide _); by constructor.
  - destruct (tag_index idx !! f); [|constructor]. case_bool_decide; [constructor|].
    apply NoDup_ListNoDup, List.NoDup_filter, NoDup_ListNoDup, NoDup_elements.
Qed.

Lemma elem_of_prune idx id lo hi pred e :
  e ∈ prune_chunks idx id lo hi pred ↔
  ∃ t, (t, e) ∈ time_map idx id ∧ t <= hi ∧ lo <= ce_time_end_ns e ∧ stats_allow idx pred e = true.
Proof.
  unfold prune_chunks, time_map. destruct (time_index idx !! id) as [tm|]; cbn [default].
  - rewrite elem_of_map. repeat setoid_rewrite elem_of_filterb. split.
    + intros ([t e'] & -> & ((Hin & H1) & H2) & H3). cbn in *. zbool. eauto.
    + intros (t & Hin & H1 & H2 & H3). exists (t, e). cbn. split; [done|].
      split; [|done]. split; [split; [done|lia]|lia].
  - rewrite elem_of_nil. split; [done|]. by intros (t & ?%elem_of_nil & _).
Qed.

(** A chunk that can hold a match is never pruned. *)
Lemma prune_complete idx id lo hi pred t e values st ts v :
  idx_wf idx → (t, e) ∈ time_map idx id →
  chunk_stats idx !! (ce_chunk_id e, id) = Some st → from_values values = Some st → v ∈ values →
  ce_time_start_ns e <= ts <= ce_time_end_ns e → lo <= ts <= hi → satisfies_opt pred v = true →
  e ∈ prune_chunks idx id lo hi pred.
Proof.
  intros Hw Hin Hst Hv Hval Hts Hr Hp. apply elem_of_prune. exists t.
  destruct (wf_entries idx Hw _ _ _ Hin) as [<- Eid]. split; [done|]. split; [lia|]. split; [lia|].
  unfold stats_allow. destruct pred as [p|]; [|done]. rewrite Eid, Hst. by eapply stats_match.
Qed.

End Invariant.

(** ** Sample index: two chunks of one series *)

Definition sample_entry (chunk start stop : Z) : SeriesChunkEntry :=
  {| ce_chunk_id := chunk; ce_series_id := @series_id poly_hash key_a; ce_time_start_ns := start;
     ce_time_end_ns := stop; ce_size_bytes := 0 |}.
Definition sample_stats : SeriesChunkStats :=
  {| min_value := f64_zero; max_value := f64_one; null_count := 0 |}.
Definition sample_meta (n : Z) : ChunkMeta := {| file_path := "chunk"; file_size := n |}.
Definition one_chunk : ChunkIndex :=
  (@register poly_hash index_new key_a (sample_entry 1 10 30) sample_stats (sample_meta 5)).1.
Definition two_chunks : ChunkIndex :=
  (@register poly_hash one_chunk key_a (sample_entry 2 20 40) sample_stats (sample_meta 6)).1.

Lemma one_chunk_wf : @idx_wf poly_hash one_chunk.
Proof.
  apply register_wf; [apply index_new_wf|repeat constructor|done| |].
  - intros k Hk. done.
  - intros t e Hin. by apply elem_of_nil in Hin.
Qed.

Lemma two_chunks_wf : @idx_wf poly_hash two_chunks.
Proof.
  apply register_wf; [apply one_chunk_wf|repeat constructor|done| |].
  - intros k Hk. unfold one_chunk, register in Hk. cbn [fst series_registry] in Hk.
    rewrite lookup_insert_eq in Hk. congruence.
  - intros t e Hin Ec. unfold one_chunk in Hin. rewrite time_map_register, decide_True in Hin by done.
    apply list_elem_of_singleton in Hin. by injection Hin as -> ->.
Qed.

(** ** Properties *)

(** C18. Registration keeps the index consistent: series ids are the hashes of their
    keys, the inverted tag index lists exactly the series with each tag, time maps are
    sorted and keyed by their entries' start, every entry has statistics, and a file is
    listed exactly while some series refers to it. *)
Theorem index_register_invariant `{HX : XxHash} idx key entry stats meta
    (Hw : idx_wf idx) (Ht : bt_wf (sk_tags key)) (Hid : ce_series_id entry = series_id key)
    (Hnc : no_collision idx key) (Hcf : chunk_fresh idx (series_id key) entry) :
  idx_wf (register idx key entry stats meta).1.
Proof. by apply register_wf. Qed.

Lemma index_register_invariant_witness : @idx_wf poly_hash one_chunk.
Proof.
  exact (index_register_invariant (HX := poly_hash) index_new key_a (sample_entry 1 10 30) sample_stats
    (sample_meta 5) index_new_wf ltac:(repeat constructor) eq_refl
    ltac:(intros k Hk; discriminate Hk) ltac:(intros t e Hin; by apply elem_of_nil in Hin)).
Defined.

(** C30. Deregistration of the entry a series has for a chunk keeps the index consistent:
    no other entry loses its statistics, and the file is dropped from the index exactly
    when its last series goes. *)
Theorem index_deregister_invariant `{HX : XxHash} idx sid cid ts (Hw : idx_wf idx)
    (Hone : ∀ t e, (t, e) ∈ time_map idx sid → ce_chunk_id e = cid → t = ts) :
  idx_wf (deregister idx sid cid ts).
Proof. by apply deregister_wf. Qed.

Lemma index_deregister_invariant_witness :
  @idx_wf poly_hash (deregister two_chunks (@series_id poly_hash key_a) 1 10) ∧
  chunk_file_count (deregister two_chunks (@series_id poly_hash key_a) 1 10) = 1.
Proof.
  split; [|reflexivity].
  refine (index_deregister_invariant (HX := poly_hash) two_chunks (@series_id poly_hash key_a) 1 10
    two_chunks_wf _).
  intros t e Hin Hc. vm_compute in Hin.
  repeat (apply elem_of_cons in Hin as [Hin|Hin]; [injection Hin as -> ->; try reflexivity; discriminate Hc|]).
  by apply elem_of_nil in Hin.
Defined.

(** C19. Resolving a query through the inverted index returns, without duplicates,
    exactly the registered series of the metric that carry every filter tag, whatever
    the order in which the filters and the sets are iterated. *)
Theorem index_resolve_exact `{HX : XxHash} idx metric filters (Hw : idx_wf idx) :
  NoDup (index_resolve_series idx metric filters) ∧
  ∀ id, id ∈ index_resolve_series idx metric filters ↔ selects idx metric filters id.
Proof. split; [apply index_resolve_NoDup|]. intros id. by apply elem_of_index_resolve. Qed.

Lemma index_resolve_exact_witness :
  (@series_id poly_hash key_a ∈ index_resolve_series two_chunks "cpu" [("host", "a")] ↔
   selects two_chunks "cpu" [("host", "a")] (@series_id poly_hash key_a)) ∧
  index_resolve_series two_chunks "cpu" [("host", "a")] = [@series_id poly_hash key_a].
Proof.
  split; [|vm_compute; reflexivity].
  exact (proj2 (index_resolve_exact (HX := poly_hash) two_chunks "cpu" [("host", "a")] two_chunks_wf)
    (@series_id poly_hash key_a)).
Defined.

(** C31. Pruning is safe: a chunk registered for the series with the time span and the
    min/max statistics of its values is kept by [prune_chunks] whenever one of its
    points lies in the query window and satisfies the value predicate. *)
Theorem index_prune_complete `{HX : XxHash} idx id lo hi pred t e values st ts v
    (Hw : idx_wf idx) (Hin : (t, e) ∈ time_map idx id)
    (Hst : chunk_stats idx !! (ce_chunk_id e, id) = Some st) (Hv : from_values values = Some st)
    (Hval : v ∈ values) (Hts : ce_time_start_ns e <= ts <= ce_time_end_ns e)
    (Hr : lo <= ts <= hi) (Hp : satisfies_opt pred v = true) :
  e ∈ prune_chunks idx id lo hi pred.
Proof. by eapply prune_complete. Qed.

Lemma index_prune_complete_witness :
  sample_entry 1 10 30 ∈
  prune_chunks two_chunks (@series_id poly_hash key_a) 25 35 (Some (GreaterThan f64_zero)).
Proof.
  exact (index_prune_complete (HX := poly_hash) two_chunks (@series_id poly_hash key_a) 25 35
    (Some (GreaterThan f64_zero)) 10 (sample_entry 1 10 30) [f64_zero; f64_one] sample_stats 30 f64_one
    two_chunks_wf ltac:(left) eq_refl eq_refl ltac:(right; left) ltac:(cbn; lia) ltac:(lia) eq_refl).
Defined.

(** Two chunks of a series that start at the same timestamp hide each other: the
    time map is keyed by start time, so registering the second removes the first from
    every query window, while its file stays listed. *)
Theorem index_same_start_hides_chunk `{HX : XxHash} idx key e1 e2 stats meta lo hi pred
    (Hw : idx_wf idx) (Hin : (ce_time_start_ns e1, e1) ∈ time_map idx (series_id key))
    (Hsame : ce_time_start_ns e2 = ce_time_start_ns e1) (Hne : ce_chunk_id e1 ≠ ce_chunk_id e2) :
  let idx' := (register idx key e2 stats meta).1 in
  (e1 ∉ prune_chunks idx' (series_id key) lo hi pred) ∧ is_Some (chunk_files idx' !! ce_chunk_id e1).
Proof.
  intros idx'. split.
  - rewrite elem_of_prune. intros (t & Ht & _). unfold idx' in Ht.
    rewrite elem_of_time_map_register in Ht by apply Hw. destruct Ht as [(_ & _ & ->)|[Ht Hn]]; [done|].
    destruct (wf_entries idx Hw _ _ _ Ht) as [<- _]. by apply Hn.
  - unfold idx', register. cbn [fst chunk_files]. rewrite lookup_insert_is_Some'. right.
    apply (wf_files idx Hw). eexists. by eapply (wf_stats idx Hw).
Qed.

Lemma index_same_start_hides_chunk_witness :
  let idx' := (@register poly_hash one_chunk key_a (sample_entry 2 10 10) sample_stats (sample_meta 6)).1 in
  (sample_entry 1 10 30 ∉ prune_chunks idx' (@series_id poly_hash key_a) 0 100 None) ∧
  is_Some (chunk_files idx' !! 1).
Proof.
  exact (index_same_start_hides_chunk (HX := poly_hash) one_chunk key_a (sample_entry 1 10 30)
    (sample_entry 2 10 10) sample_stats (sample_meta 6) 0 100 None one_chunk_wf ltac:(left) eq_refl
    ltac:(discriminate)).
Defined.
