(* ===== verification/Persistence.v ===== *)
(** * Index snapshots ([src/storage-engine/src/index/persistence.rs])

    The index is written to a temporary file and renamed over the snapshot; the
    inverted tag index is not stored but rebuilt.  The outcome of the write and of
    the rename are arguments.  The bincode encoding of the snapshot is the parameter
    [Codec IndexSnapshot].  A loaded index equals the saved one up to the tag sets,
    which are equal as sets: that is the relation [index_equiv]. *)
From S2P Require Import Prelude BTree F64 Externals Types Memtable Fs ChunkIndex.
From Stdlib Require Import Strings.Ascii.

Record IndexSnapshot := {
  sn_version : Z;
  sn_shard_watermarks : list Z;
  sn_series_registry : list (Z * SeriesKey);
  sn_time_index : list (Z * list (Z * SeriesChunkEntry));
  sn_chunk_stats : list (Z * Z * SeriesChunkStats);
  sn_chunk_files : list (Z * ChunkMeta)
}.

(** The snapshot [save_index] builds. *)
Definition snapshot_of (idx : ChunkIndex) (watermarks : list Z) : IndexSnapshot :=
  {| sn_version := 2;
     sn_shard_watermarks := watermarks;
     sn_series_registry := map_to_list (series_registry idx);
     sn_time_index := map_to_list (time_index idx);
     sn_chunk_stats := map (λ e, (e.1.1, e.1.2, e.2)) (map_to_list (chunk_stats idx));
     sn_chunk_files := map_to_list (chunk_files idx) |}.

(** Cut a string at the last occurrence of a character. *)
Fixpoint rsplit (c : ascii) (s : string) : option (string * string) :=
  match s with
  | EmptyString => None
  | String a s' =>
      match rsplit c s' with
      | Some (l, r) => Some (String a l, r)
      | None => if bool_decide (a = c) then Some ("", s') else None
      end
  end.

(** [path.with_extension(ext)] for a path that ends in a file name. *)
Definition with_extension (path ext : string) : string :=
  let '(dir, name) :=
    match rsplit "/" path with Some (d, n) => (d +:+ "/", n) | None => ("", path) end in
  let stem := match rsplit "." name with
              | Some (EmptyString, _) | None => name
              | Some (st, _) => st
              end in
  dir +:+ stem +:+ "." +:+ ext.

(** [tokio::fs::write]: create or truncate, then write. *)
Definition fs_write (fs : Fs) (path : string) (buf : bytes) (io : io_outcome) : Fs * result () :=
  match io with
  | IoOk => (<[path := buf]> fs, Ok ())
  | IoErr n => (<[path := take n buf]> fs, Err "write failed")
  end.

(** [tokio::fs::rename]: atomic when it succeeds. *)
Definition fs_rename (fs : Fs) (from to : string) (ok : bool) : Fs * result () :=
  match fs !! from, ok with
  | Some buf, true => (<[to := buf]> (delete from fs), Ok ())
  | _, _ => (fs, Err "rename failed")
  end.

(** Collecting pairs into a [HashMap]: the last pair of a key wins. *)
Definition hm_collect {K V} `{Countable K} (l : list (K * V)) : gmap K V :=
  fold_left (λ m p, <[p.1 := p.2]> m) l ∅.

(** [rebuild_index]. *)
Definition rebuild_index (s : IndexSnapshot) : ChunkIndex :=
  {| series_registry := hm_collect (sn_series_registry s);
     time_index := hm_collect (map (λ e, (e.1, bt_collect e.2)) (sn_time_index s));
     tag_index := fold_left (λ ti e, insert_tags ti (sk_tags e.2) e.1) (sn_series_registry s) ∅;
     chunk_stats := hm_collect (map (λ e, ((e.1.1, e.1.2), e.2)) (sn_chunk_stats s));
     chunk_files := hm_collect (sn_chunk_files s);
     shard_watermarks := sn_shard_watermarks s |}.

Section Persistence.
Context `{Codec IndexSnapshot}.

(** [save_index]. *)
Definition save_index (fs : Fs) (idx : ChunkIndex) (path : string) (watermarks : list Z)
    (io : io_outcome) (renamed : bool) : Fs * result () :=
  let bytes := encode_to_vec (snapshot_of idx watermarks) in
  let tmp := with_extension path "tmp" in
  match fs_write fs tmp bytes io with
  | (fs1, Err e) => (fs1, Err e)
  | (fs1, Ok _) => fs_rename fs1 tmp path renamed
  end.

(** [load_index]. *)
Definition load_index (fs : Fs) (path : string) : result (option ChunkIndex) :=
  match fs !! path with
  | None => Ok None
  | Some bytes =>
      match decode bytes with
      | Err _ => Ok None
      | Ok s => if negb (sn_version s =? 2) then Ok None else Ok (Some (rebuild_index s))
      end
  end.

End Persistence.

(** ** The loaded index *)

Record index_equiv (a b : ChunkIndex) : Prop := {
  eq_registry : series_registry a = series_registry b;
  eq_times : time_index a = time_index b;
  eq_tags : ∀ kv, tag_set a kv = tag_set b kv;
  eq_stats : chunk_stats a = chunk_stats b;
  eq_files : chunk_files a = chunk_files b
}.

#[global] Instance index_equiv_equivalence : Equivalence index_equiv.
Proof.
  split.
  - by split.
  - intros a b []. by split.
  - intros a b c [] []. split; congruence.
Qed.

Lemma hm_collect_from {K V} `{Countable K} (l : list (K * V)) (m : gmap K V) :
  NoDup (l.*1) → fold_left (λ m p, <[p.1 := p.2]> m) l m = list_to_map l ∪ m.
Proof.
  revert m. induction l as [|[k v] l IH]; intros m Hnd; cbn; [by rewrite (left_id ∅ (∪))|].
  apply NoDup_cons in Hnd as [Hn Hnd]. rewrite IH by done.
  apply map_eq. intros k'. rewrite !lookup_union.
  destruct (decide (k = k')) as [->|Hne].
  - rewrite !lookup_insert_eq. assert (list_to_map l !! k' = (None : option V)) as ->.
    { by apply not_elem_of_list_to_map_1. } by destruct (m !! k').
  - by rewrite !lookup_insert_ne.
Qed.

Lemma hm_collect_map_to_list {K V} `{Countable K} (m : gmap K V) : hm_collect (map_to_list m) = m.
Proof.
  unfold hm_collect. rewrite hm_collect_from by apply NoDup_fst_map_to_list.
  by rewrite list_to_map_to_list, (right_id ∅ (∪)).
Qed.

Lemma hm_collect_map_id {K V} `{Countable K} (f : K * V → K * V) (m : gmap K V) :
  (∀ k v, m !! k = Some v → f (k, v) = (k, v)) → hm_collect (map f (map_to_list m)) = m.
Proof.
  intros Hf. rewrite <-(hm_collect_map_to_list m) at 2. f_equal.
  rewrite <-(map_id (map_to_list m)) at 2. apply map_ext_in.
  intros [k v] Hin%list_elem_of_In%elem_of_map_to_list. by apply Hf.
Qed.

Lemma tag_in_rebuilt (l : list (Z * SeriesKey)) ti kv x :
  x ∈ default ∅ (fold_left (λ ti e, insert_tags ti (sk_tags e.2) e.1) l ti !! kv) ↔
  x ∈ default ∅ (ti !! kv) ∨ ∃ k, (x, k) ∈ l ∧ kv ∈ sk_tags k.
Proof.
  revert ti. induction l as [|[id k] l IH]; intros ti; cbn [fold_left].
  - set_solver.
  - rewrite IH, tag_in_insert_tags. cbn [fst snd]. setoid_rewrite elem_of_cons. split.
    + intros [[?|[-> ?]]|(k' & ? & ?)]; [by left|right; eauto|right; eauto].
    + intros [?|(k' & [[= -> ->]|?] & ?)]; [by left; left|left; by right|right; eauto].
Qed.

Lemma rebuild_snapshot `{XxHash} idx wm :
  idx_wf idx → index_equiv (rebuild_index (snapshot_of idx wm)) idx ∧
  shard_watermarks (rebuild_index (snapshot_of idx wm)) = wm.
Proof.
  intros Hw. split; [|done]. split; cbn.
  - apply hm_collect_map_to_list.
  - apply hm_collect_map_id. intros id tm Hin. cbn. f_equal. apply bt_collect_sorted.
    pose proof (wf_sorted idx Hw id) as Hs. unfold time_map in Hs. by rewrite Hin in Hs.
  - intros kv. apply set_eq. intros x. unfold tag_set at 1. cbn. rewrite tag_in_rebuilt, (wf_tags idx Hw).
    rewrite lookup_empty. setoid_rewrite elem_of_map_to_list. cbn. set_solver.
  - rewrite map_map. apply hm_collect_map_id. by intros [c sid] st.
  - apply hm_collect_map_to_list.
Qed.

(** Queries do not distinguish equivalent indexes. *)
#[global] Instance time_map_proper : Proper (index_equiv ==> (=) ==> (=)) time_map.
Proof. intros a b E id ? <-. unfold time_map. by rewrite (eq_times _ _ E). Qed.

#[global] Instance stats_allow_proper : Proper (index_equiv ==> (=) ==> (=) ==> (=)) stats_allow.
Proof. intros a b E p ? <- e ? <-. unfold stats_allow. by rewrite (eq_stats _ _ E). Qed.

#[global] Instance prune_chunks_proper :
  Proper (index_equiv ==> (=) ==> (=) ==> (=) ==> (=) ==> (=)) prune_chunks.
Proof.
  intros a b E id ? <- lo ? <- hi ? <- p ? <-. unfold prune_chunks. rewrite (eq_times _ _ E).
  destruct (time_index b !! id); [|done]. f_equal. apply List.filter_ext. intros e.
  by rewrite E.
Qed.

#[global] Instance idx_wf_proper `{XxHash} : Proper (index_equiv ==> iff) idx_wf.
Proof.
  assert (∀ a b, index_equiv a b → idx_wf a → idx_wf b) as Hto.
  { intros a b E [W1 W2 W3 W4 W5 W6 W7 W8]. split; intros *.
    - rewrite <-(eq_registry _ _ E). apply W1.
    - rewrite <-(eq_registry _ _ E), <-(eq_tags _ _ E). apply W2.
    - rewrite <-E. apply W3.
    - rewrite <-E. apply W4.
    - rewrite <-(eq_registry _ _ E), <-E. apply W5.
    - rewrite <-(eq_stats _ _ E), <-E. apply W6.
    - rewrite <-E. apply W7.
    - rewrite <-(eq_files _ _ E), <-(eq_stats _ _ E). apply W8. }
  intros a b E. split; apply Hto; [done|by symmetry].
Qed.

#[global] Instance selects_proper : Proper (index_equiv ==> (=) ==> (=) ==> (=) ==> iff) selects.
Proof. intros a b E m ? <- f ? <- id ? <-. unfold selects. by rewrite (eq_registry _ _ E). Qed.

(** ** Saving *)

Section Saving.
Context `{Codec IndexSnapshot}.

(** The three ways a save ends. *)
Lemma save_cases fs idx path wm io ren :
  let tmp := with_extension path "tmp" in
  let bytes := encode_to_vec (snapshot_of idx wm) in
  save_index fs idx path wm io ren =
  match io, ren with
  | IoErr n, _ => (<[tmp := take n bytes]> fs, Err "write failed")
  | IoOk, false => (<[tmp := bytes]> fs, Err "rename failed")
  | IoOk, true => (<[path := bytes]> (delete tmp (<[tmp := bytes]> fs)), Ok ())
  end.
Proof.
  unfold save_index, fs_write, fs_rename. destruct io; [|done]. rewrite lookup_insert_eq. by destruct ren.
Qed.

Lemma save_Ok_inv fs idx path wm io ren fs' :
  save_index fs idx path wm io ren = (fs', Ok ()) →
  fs' !! path = Some (encode_to_vec (snapshot_of idx wm)).
Proof.
  rewrite save_cases. destruct io, ren; try done. intros [= <-]. apply lookup_insert_eq.
Qed.

(** Loading what was saved. *)
Lemma load_saved valid `{!CodecLaws IndexSnapshot valid} fs path idx wm :
  valid (snapshot_of idx wm) → fs !! path = Some (encode_to_vec (snapshot_of idx wm)) →
  load_index fs path = Ok (Some (rebuild_index (snapshot_of idx wm))).
Proof. intros Hv E. unfold load_index. by rewrite E, decode_encode by done. Qed.

End Saving.

(** ** Sample snapshot *)

#[global] Instance ser_series_key : Ser SeriesKey :=
  ser_iso (λ k, (sk_metric_name k, sk_tags k)) (λ q, {| sk_metric_name := q.1; sk_tags := q.2 |}).
#[global] Instance ser_series_key_laws : SerLaws SeriesKey.
Proof. apply ser_iso_laws. by intros []. Qed.
#[global] Instance ser_entry : Ser SeriesChunkEntry :=
  ser_iso (λ e, (ce_chunk_id e, ce_series_id e, ce_time_start_ns e, ce_time_end_ns e, ce_size_bytes e))
    (λ q, {| ce_chunk_id := q.1.1.1.1; ce_series_id := q.1.1.1.2; ce_time_start_ns := q.1.1.2;
             ce_time_end_ns := q.1.2; ce_size_bytes := q.2 |}).
#[global] Instance ser_entry_laws : SerLaws SeriesChunkEntry.
Proof. apply ser_iso_laws. by intros []. Qed.
#[global] Instance ser_stats : Ser SeriesChunkStats :=
  ser_iso (λ s, (f64_bits (min_value s), f64_bits (max_value s), null_count s))
    (λ q, {| min_value := F64 q.1.1; max_value := F64 q.1.2; null_count := q.2 |}).
#[global] Instance ser_stats_laws : SerLaws SeriesChunkStats.
Proof. apply ser_iso_laws. by intros [[] []]. Qed.
#[global] Instance ser_meta : Ser ChunkMeta :=
  ser_iso (λ m, (file_path m, file_size m)) (λ q, {| file_path := q.1; file_size := q.2 |}).
#[global] Instance ser_meta_laws : SerLaws ChunkMeta.
Proof. apply ser_iso_laws. by intros []. Qed.
#[global] Instance ser_snapshot : Ser IndexSnapshot :=
  ser_iso (λ s, (sn_version s, sn_shard_watermarks s, sn_series_registry s, sn_time_index s,
                 sn_chunk_stats s, sn_chunk_files s))
    (λ q, {| sn_version := q.1.1.1.1.1; sn_shard_watermarks := q.1.1.1.1.2; sn_series_registry := q.1.1.1.2;
             sn_time_index := q.1.1.2; sn_chunk_stats := q.1.2; sn_chunk_files := q.2 |}).
#[global] Instance ser_snapshot_laws : SerLaws IndexSnapshot.
Proof. apply ser_iso_laws. by intros []. Qed.

Definition snapshot_codec : Codec IndexSnapshot := ser_codec IndexSnapshot.

Lemma snapshot_codec_laws : @CodecLaws IndexSnapshot snapshot_codec (λ _, True).
Proof. apply ser_codec_laws, _. Qed.

Definition sample_save : Fs * result () :=
  @save_index snapshot_codec ∅ two_chunks "/data/index.bin" [7; 9] IoOk true.

Example tmp_name : with_extension "/data/v1.0/index.bin" "tmp" = "/data/v1.0/index.tmp".
Proof. reflexivity. Qed.

(** ** Properties *)

(** C28. Snapshot round trip: loading a successfully saved snapshot gives back the index
    with the rebuilt tag index equal to the original as sets, with the saved watermarks,
    and the loaded index satisfies the invariant. *)
Theorem snapshot_roundtrip `{HX : XxHash, HD : Codec IndexSnapshot} valid
    (LD : CodecLaws IndexSnapshot valid) fs idx path wm io ren fs'
    (Hw : idx_wf idx) (Hv : valid (snapshot_of idx wm))
    (Hs : save_index fs idx path wm io ren = (fs', Ok ())) :
  ∃ idx', load_index fs' path = Ok (Some idx') ∧ index_equiv idx' idx ∧
    shard_watermarks idx' = wm ∧ idx_wf idx'.
Proof.
  destruct (rebuild_snapshot idx wm Hw) as [He Hwm]. eexists.
  split; [by eapply load_saved, save_Ok_inv|]. split; [done|]. split; [done|]. by rewrite He.
Qed.

Lemma snapshot_roundtrip_witness :
  ∃ idx', @load_index snapshot_codec sample_save.1 "/data/index.bin" = Ok (Some idx') ∧
    index_equiv idx' two_chunks ∧ shard_watermarks idx' = [7; 9] ∧ @idx_wf poly_hash idx'.
Proof.
  exact (snapshot_roundtrip (HX := poly_hash) (HD := snapshot_codec) (λ _, True) snapshot_codec_laws
    ∅ two_chunks "/data/index.bin" [7; 9] IoOk true sample_save.1 two_chunks_wf I eq_refl).
Defined.

(** Saving is atomic: however the write of the temporary file or the rename fails, a
    later load sees the previous snapshot unchanged, and no file other than the
    temporary one and the snapshot is touched. *)
Theorem snapshot_save_atomic `{HD : Codec IndexSnapshot} fs idx path wm io ren
    (Htmp : with_extension path "tmp" ≠ path) :
  let r := save_index fs idx path wm io ren in
  (is_ok r.2 = false → load_index r.1 path = load_index fs path) ∧
  ∀ p, p ≠ path → p ≠ with_extension path "tmp" → r.1 !! p = fs !! p.
Proof.
  cbv zeta. rewrite save_cases. unfold load_index.
  destruct io, ren; cbn; (split; [intros E; try done; by rewrite lookup_insert_ne|]);
    intros p Hp Ht; by rewrite ?lookup_insert_ne, ?lookup_delete_ne, ?lookup_insert_ne by done.
Qed.

Lemma snapshot_save_atomic_witness :
  @load_index snapshot_codec
    (@save_index snapshot_codec sample_save.1 one_chunk "/data/index.bin" [8] (IoErr 5) true).1 "/data/index.bin" =
  @load_index snapshot_codec sample_save.1 "/data/index.bin".
Proof.
  exact (proj1 (snapshot_save_atomic (HD := snapshot_codec) sample_save.1 one_chunk "/data/index.bin" [8]
    (IoErr 5) true ltac:(discriminate)) eq_refl).
Defined.
