(* ===== verification/SaveTask.v ===== *)
(** * Saving a snapshot, system call by system call ([save_index] of [src/storage-engine/src/index/persistence.rs])

    [Persistence.save_index] is one function.  Here the save is what it is on disk: the
    temporary file is created or truncated, its bytes are written in pieces, and the file is
    renamed over the snapshot.  Names refer to files, so that a file that is being written
    keeps its writer when it is renamed.  The [Snapshot] call and the periodic task hold the
    index lock for reading only, so several saves may run, all through the same temporary
    name.  The theorems: saves that take turns leave a complete snapshot on disk at every
    moment, and amount to [save_index]; saves that overlap can leave a truncated snapshot
    behind an acknowledged call. *)
From S2P Require Import Prelude BTree F64 Externals Types Memtable Fs ChunkIndex Persistence.
From Stdlib Require Import Strings.Byte.

(** Files and their names. *)
Record Disk := {
  names : gmap string nat;
  contents : gmap nat bytes
}.

Definition disk_view (d : Disk) : Fs := omap (λ f, contents d !! f) (names d).

(** No file has two names, and every name has its file. *)
Definition disk_ok (d : Disk) : Prop :=
  (∀ p q f, names d !! p = Some f → names d !! q = Some f → p = q) ∧
  ∀ p f, names d !! p = Some f → is_Some (contents d !! f).

(** Where a save is: before [File::create], with [pos] bytes of the file written, before
    the rename, or over. *)
Inductive SaveStage :=
| ToCreate
| Writing (f pos : nat)
| ToRename
| Saved
| Failed (msg : string).

Record Saver := { payload : bytes; stage : SaveStage }.

Definition with_stage (s : Saver) (st : SaveStage) : Saver := {| payload := payload s; stage := st |}.

(** Writing at an offset; a gap reads as zeros. *)
Definition write_at (old : bytes) (pos : nat) (buf : bytes) : bytes :=
  take pos (old ++ replicate (pos - length old) "000"%byte) ++ buf ++ drop (pos + length buf) old.

Definition set_content (d : Disk) (f : nat) (b : bytes) : Disk :=
  {| names := names d; contents := <[f := b]> (contents d) |}.
Definition add_file (d : Disk) (p : string) (f : nat) : Disk :=
  {| names := <[p := f]> (names d); contents := <[f := []]> (contents d) |}.
Definition move_name (d : Disk) (p q : string) (f : nat) : Disk :=
  {| names := <[q := f]> (delete p (names d)); contents := contents d |}.

(** The saves under way, and the snapshots that were renamed into place, in order. *)
Record SaveRun := {
  disk : Disk;
  savers : list Saver;
  installed : list bytes
}.

Definition step_saver (r : SaveRun) (i : nat) (s : Saver) (st : SaveStage) (d : Disk) : SaveRun :=
  {| disk := d; savers := <[i := with_stage s st]> (savers r); installed := installed r |}.
Definition install (r : SaveRun) (i : nat) (s : Saver) (d : Disk) : SaveRun :=
  {| disk := d; savers := <[i := with_stage s Saved]> (savers r); installed := installed r ++ [payload s] |}.

Section SaveTask.
Context (path : string).
#[local] Abbreviation tmp := (with_extension path "tmp").

(** The system calls of save [i]. *)
Inductive save_step (i : nat) : SaveRun → SaveRun → Prop :=
| save_truncate r s f :
    savers r !! i = Some s → stage s = ToCreate → names (disk r) !! tmp = Some f →
    save_step i r (step_saver r i s (Writing f 0) (set_content (disk r) f []))
| save_create r s f :
    savers r !! i = Some s → stage s = ToCreate → names (disk r) !! tmp = None →
    contents (disk r) !! f = None →
    save_step i r (step_saver r i s (Writing f 0) (add_file (disk r) tmp f))
| save_create_failed r s :
    savers r !! i = Some s → stage s = ToCreate → save_step i r (step_saver r i s (Failed "open failed") (disk r))
| save_write r s f pos old n :
    savers r !! i = Some s → stage s = Writing f pos → contents (disk r) !! f = Some old →
    (0 < n <= length (payload s) - pos)%nat →
    save_step i r (step_saver r i s (Writing f (pos + n))
      (set_content (disk r) f (write_at old pos (take n (drop pos (payload s))))))
| save_write_failed r s f pos :
    savers r !! i = Some s → stage s = Writing f pos → (pos < length (payload s))%nat →
    save_step i r (step_saver r i s (Failed "write failed") (disk r))
| save_written r s f :
    savers r !! i = Some s → stage s = Writing f (length (payload s)) →
    save_step i r (step_saver r i s ToRename (disk r))
| save_rename r s f :
    savers r !! i = Some s → stage s = ToRename → names (disk r) !! tmp = Some f →
    save_step i r (install r i s (move_name (disk r) tmp path f))
| save_rename_failed r s :
    savers r !! i = Some s → stage s = ToRename → save_step i r (step_saver r i s (Failed "rename failed") (disk r)).

Definition any_step (r r' : SaveRun) : Prop := ∃ i, save_step i r r'.

(** Between [File::create] and the rename. *)
Definition active (st : SaveStage) : bool := match st with Writing _ _ | ToRename => true | _ => false end.

(** The saves take turns. *)
Definition serial_step (r r' : SaveRun) : Prop :=
  ∃ i, save_step i r r' ∧ ∀ j s, j ≠ i → savers r !! j = Some s → active (stage s) = false.

(** A new save. *)
Definition saver_of `{Codec IndexSnapshot} (idx : ChunkIndex) (wms : list Z) : Saver :=
  {| payload := encode_to_vec (snapshot_of idx wms); stage := ToCreate |}.
Definition begin_saves (d : Disk) (ss : list Saver) : SaveRun := {| disk := d; savers := ss; installed := [] |}.

(** ** Files *)

Lemma view_lookup d p : disk_view d !! p = names d !! p ≫= λ f, contents d !! f.
Proof. apply lookup_omap. Qed.

Lemma write_at_end old buf : write_at old (length old) buf = old ++ buf.
Proof.
  unfold write_at. rewrite Nat.sub_diag. cbn [replicate]. rewrite app_nil_r, firstn_all, skipn_all2 by lia.
  by rewrite app_nil_r.
Qed.

Lemma write_at_next b (pos n : nat) :
  (pos + n <= length b)%nat → write_at (take pos b) pos (take n (drop pos b)) = take (pos + n) b.
Proof.
  intros Hn. assert (length (take pos b) = pos) as E by (rewrite length_firstn; lia).
  rewrite <-E at 2. rewrite write_at_end. by rewrite take_take_drop.
Qed.

Lemma view_set_content d f b p q :
  disk_ok d → names d !! p = Some f → q ≠ p → disk_view (set_content d f b) !! q = disk_view d !! q.
Proof.
  intros [Hinj _] Hp Hq. rewrite !view_lookup. cbn [set_content names contents].
  destruct (names d !! q) as [g|] eqn:Eq; [|done]. cbn. rewrite lookup_insert_ne; [done|].
  intros ->. apply Hq. by eapply Hinj.
Qed.

Lemma view_content d p f : names d !! p = Some f → disk_view d !! p = contents d !! f.
Proof. intros E. by rewrite view_lookup, E. Qed.

Lemma disk_ok_set d f b : disk_ok d → disk_ok (set_content d f b).
Proof.
  intros [Hinj Hc]. split; [exact Hinj|]. intros p g Hp. cbn [set_content contents names] in *.
  destruct (decide (f = g)) as [->|Hne]; [rewrite lookup_insert_eq; by eexists|].
  rewrite lookup_insert_ne by done. by eapply Hc.
Qed.

Lemma disk_ok_add d p f : disk_ok d → names d !! p = None → contents d !! f = None → disk_ok (add_file d p f).
Proof.
  intros [Hinj Hc] Hp Hf. assert (∀ q, names d !! q ≠ Some f) as Hnew.
  { intros q Hq. destruct (Hc q f Hq) as [b Hb]. congruence. }
  split; cbn [add_file names contents].
  - intros q1 q2 g [[<- <-]|[Hne1 Hq1]]%lookup_insert_Some [[<- E]|[Hne2 Hq2]]%lookup_insert_Some; try done.
    + by destruct (Hnew q2).
    + subst g. by destruct (Hnew q1).
    + by eapply Hinj.
  - intros q g [[<- <-]|[Hne Hq]]%lookup_insert_Some; [rewrite lookup_insert_eq; by eexists|].
    rewrite lookup_insert_ne; [by eapply Hc|]. intros ->. by destruct (Hnew q).
Qed.

Lemma disk_ok_move d p q f : disk_ok d → names d !! p = Some f → disk_ok (move_name d p q f).
Proof.
  intros [Hinj Hc] Hp. assert (∀ x, delete p (names d) !! x ≠ Some f) as Hnew.
  { intros x [Hne Hx]%lookup_delete_Some. apply Hne. by eapply Hinj. }
  split; cbn [move_name names contents].
  - intros q1 q2 g [[<- <-]|[Hne1 Hq1]]%lookup_insert_Some [[<- E]|[Hne2 Hq2]]%lookup_insert_Some; try done.
    + by destruct (Hnew q2).
    + subst g. by destruct (Hnew q1).
    + apply lookup_delete_Some in Hq1 as [_ Hq1], Hq2 as [_ Hq2]. by eapply Hinj.
  - intros x g [[<- <-]|[Hne [_ Hx]%lookup_delete_Some]]%lookup_insert_Some; by eapply Hc.
Qed.

Lemma view_move d p q f x :
  names d !! p = Some f →
  disk_view (move_name d p q f) !! x = if decide (x = q) then contents d !! f else if decide (x = p) then None else disk_view d !! x.
Proof.
  intros Hp. rewrite !view_lookup. cbn [move_name names contents].
  destruct (decide (x = q)) as [->|Hq]; [by rewrite lookup_insert_eq|]. rewrite lookup_insert_ne by done.
  destruct (decide (x = p)) as [->|Hne]; [by rewrite lookup_delete_eq|]. by rewrite lookup_delete_ne.
Qed.

(** ** What is installed *)

(** The saves keep their bytes, and what was installed is what the finished ones had. *)
Record book_inv (ss : list Saver) (r : SaveRun) : Prop := {
  bk_payload : map payload (savers r) = map payload ss;
  bk_installed : ∀ b, b ∈ installed r ↔ ∃ i s, savers r !! i = Some s ∧ stage s = Saved ∧ payload s = b
}.

Lemma payload_step i s st (l : list Saver) : l !! i = Some s → map payload (<[i := with_stage s st]> l) = map payload l.
Proof.
  intros Hs. apply list_eq. intros j. rewrite !list_lookup_fmap. destruct (decide (i = j)) as [<-|Hne].
  - by rewrite list_lookup_insert_eq, Hs by (by eapply lookup_lt_Some).
  - by rewrite list_lookup_insert_ne.
Qed.

Lemma saved_step i s st (l : list Saver) b :
  l !! i = Some s → stage s ≠ Saved →
  (∃ j t, <[i := with_stage s st]> l !! j = Some t ∧ stage t = Saved ∧ payload t = b) ↔
  (st = Saved ∧ payload s = b) ∨ ∃ j t, l !! j = Some t ∧ stage t = Saved ∧ payload t = b.
Proof.
  intros Hs Hst. split.
  - intros (j & t & [(-> & <- & _)|[Hne Ht]]%list_lookup_insert_Some & Es & Ep); [by left|right; by exists j, t].
  - intros [[-> Ep]|(j & t & Ht & Es & Ep)].
    + exists i, (with_stage s Saved). rewrite list_lookup_insert_eq by (by eapply lookup_lt_Some). done.
    + exists j, t. rewrite list_lookup_insert_ne; [done|]. intros ->. congruence.
Qed.

Lemma book_inv_step ss r r' : book_inv ss r → any_step r r' → book_inv ss r'.
Proof.
  intros [Hp Hb] (i & Hs). destruct Hs as [r s f Hs Hst Hn|r s f Hs Hst Hn Hc|r s Hs Hst|r s f pos old n Hs Hst Hc Hlen|
    r s f pos Hs Hst _|r s f Hs Hst|r s f Hs Hst Hn|r s Hs Hst];
    (split; cbn [step_saver install savers installed]; [by rewrite payload_step|]; intros b;
     rewrite saved_step, ?elem_of_app, ?list_elem_of_singleton, Hb by (done || by rewrite Hst); naive_solver).
Qed.

Lemma book_inv_begin d ss : Forall (λ s, stage s = ToCreate) ss → book_inv ss (begin_saves d ss).
Proof.
  intros HF. split; [done|]. intros b. cbn. split; [by intros ?%elem_of_nil|]. intros (i & s & Hs & E & _).
  rewrite Forall_lookup in HF. by rewrite (HF i s Hs) in E.
Qed.

Lemma book_inv_reachable ss r r' : rtc any_step r r' → book_inv ss r → book_inv ss r'.
Proof. induction 1; eauto using book_inv_step. Qed.

Lemma serial_any r r' : rtc serial_step r r' → rtc any_step r r'.
Proof. apply rtc_subrel. intros x y (i & Hs & _). by exists i. Qed.

(** A save that is alone takes its turn. *)
Lemma alone_serial r r' s0 : rtc any_step r r' → map payload (savers r) = [s0] → rtc serial_step r r'.
Proof.
  induction 1 as [|r1 r2 r3 Hs _ IH]; intros E; [apply rtc_refl|].
  assert (map payload (savers r2) = map payload (savers r1)) as E2.
  { destruct Hs as (i & Hs). destruct Hs; cbn [step_saver install savers]; by apply payload_step. }
  eapply rtc_l; [|apply IH; congruence]. destruct Hs as (i & Hs). exists i. split; [done|].
  intros j t Hne Ht. exfalso. apply (f_equal length) in E. rewrite length_map in E. cbn in E.
  assert (i < length (savers r1))%nat by (destruct Hs; by eapply lookup_lt_Some). apply lookup_lt_Some in Ht. lia.
Qed.

(** ** Saves that take turns *)

(** What the file behind the temporary name holds, as far as a save knows. *)
Definition saver_inv (d : Disk) (s : Saver) : Prop :=
  match stage s with
  | Writing f pos =>
      names d !! tmp = Some f ∧ contents d !! f = Some (take pos (payload s)) ∧ (pos <= length (payload s))%nat
  | ToRename => disk_view d !! tmp = Some (payload s)
  | _ => True
  end.

(** Outside of the temporary file the disk has what it had, with the last installed
    snapshot. *)
Record run_inv (d0 : Disk) (r : SaveRun) : Prop := {
  ri_disk : disk_ok (disk r);
  ri_active : ∀ i j s t, savers r !! i = Some s → savers r !! j = Some t →
    active (stage s) = true → active (stage t) = true → i = j;
  ri_saver : ∀ i s, savers r !! i = Some s → saver_inv (disk r) s;
  ri_path : disk_view (disk r) !! path = match last (installed r) with Some b => Some b | None => disk_view d0 !! path end;
  ri_other : ∀ p, p ≠ path → p ≠ tmp → disk_view (disk r) !! p = disk_view d0 !! p
}.

Lemma inactive_inv d s : active (stage s) = false → saver_inv d s.
Proof. unfold saver_inv. by destruct (stage s). Qed.

(** One save moves, the others are not active. *)
Lemma run_inv_step d0 r i s st d b :
  run_inv d0 r → (∀ j t, j ≠ i → savers r !! j = Some t → active (stage t) = false) →
  disk_ok d → saver_inv d (with_stage s st) →
  disk_view d !! path = match last (installed r ++ b) with Some b => Some b | None => disk_view d0 !! path end →
  (∀ p, p ≠ path → p ≠ tmp → disk_view d !! p = disk_view (disk r) !! p) →
  run_inv d0 {| disk := d; savers := <[i := with_stage s st]> (savers r); installed := installed r ++ b |}.
Proof.
  intros [Hd Ha Hs Hp Ho] Halone Hd' Hs' Hp' Ho'.
  assert (∀ j t, <[i := with_stage s st]> (savers r) !! j = Some t →
    j = i ∧ t = with_stage s st ∨ j ≠ i ∧ active (stage t) = false) as Hcase.
  { intros j t [(-> & <- & _)|[Hne Ht]]%list_lookup_insert_Some; [by left|right; split; [done|]]. by eapply Halone. }
  split; cbn [disk savers installed]; [done| | |done|].
  - intros j k t u [[-> _]|[_ E1]]%Hcase [[-> _]|[_ E2]]%Hcase; congruence.
  - intros j t [[_ ->]|[_ E]]%Hcase; [done|by apply inactive_inv].
  - intros p H1 H2. by rewrite Ho', Ho.
Qed.

Context (Hnew : tmp ≠ path).

Lemma run_inv_serial d0 r r' : run_inv d0 r → serial_step r r' → run_inv d0 r'.
Proof.
  intros Hi (i & Hs & Halone). pose proof Hi as [Hd Ha Hsv Hp Ho].
  destruct Hs as [r s f Hs Hst Hn|r s f Hs Hst Hn Hc|r s Hs Hst|r s f pos old n Hs Hst Hc Hlen|r s f pos Hs Hst _|
    r s f Hs Hst|r s f Hs Hst Hn|r s Hs Hst]; unfold step_saver, install;
    pose proof (Hsv i s Hs) as Hinv; unfold saver_inv in Hinv; rewrite Hst in Hinv;
    (first [apply (run_inv_step d0 r i s _ _ [payload s])|rewrite <-(app_nil_r (installed r)) at 1; apply run_inv_step];
     [done|done|..]; rewrite ?app_nil_r; try done).
  - by apply disk_ok_set.
  - cbn. rewrite lookup_insert_eq. split_and!; [done..|lia].
  - rewrite (view_set_content _ _ _ tmp) by done. exact Hp.
  - intros p _ Hne. by apply (view_set_content _ _ _ tmp).
  - by apply disk_ok_add.
  - cbn. rewrite !lookup_insert_eq. split_and!; [done..|lia].
  - rewrite <-Hp, !view_lookup. cbn. rewrite lookup_insert_ne by done. destruct (names (disk r) !! path) as [g|] eqn:E; [|done].
    cbn. apply lookup_insert_ne. intros ->. destruct Hd as [_ Hf]. destruct (Hf path g E). congruence.
  - intros p _ Hne. rewrite !view_lookup. cbn. rewrite lookup_insert_ne by done.
    destruct (names (disk r) !! p) as [g|] eqn:E; [|done].
    cbn. apply lookup_insert_ne. intros ->. destruct Hd as [_ Hf]. destruct (Hf p g E). congruence.
  - by apply disk_ok_set.
  - destruct Hinv as (Hn & Hc' & Hle). rewrite Hc in Hc'. injection Hc' as ->. cbn. rewrite lookup_insert_eq.
    rewrite write_at_next by lia. split_and!; [done..|lia].
  - destruct Hinv as (Hn & _). rewrite (view_set_content _ _ _ tmp) by done. exact Hp.
  - destruct Hinv as (Hn & _). intros p _ Hne. by apply (view_set_content _ _ _ tmp).
  - destruct Hinv as (Hn & Hc & _). cbn. by rewrite (view_content _ _ _ Hn), Hc, firstn_all.
  - by apply disk_ok_move.
  - rewrite last_snoc, view_move, decide_True by done. rewrite <-(view_content _ _ _ Hn). exact Hinv.
  - intros p Hne Hne'. by rewrite view_move, !decide_False.
Qed.

Lemma run_inv_begin d0 ss : disk_ok d0 → Forall (λ s, active (stage s) = false) ss → run_inv d0 (begin_saves d0 ss).
Proof.
  intros Hd HF. rewrite Forall_lookup in HF. split; try done.
  - intros i j s t Hs _ E. cbn in Hs. by rewrite (HF i s Hs) in E.
  - intros i s Hs. apply inactive_inv. by eapply HF.
Qed.

Lemma run_inv_reachable d0 r r' : rtc serial_step r r' → run_inv d0 r → run_inv d0 r'.
Proof. induction 1; eauto using run_inv_serial. Qed.

End SaveTask.

(** ** Sample saves *)

Module SaveSample.
#[local] Existing Instance snapshot_codec.

Definition path : string := "/data/index.bin".
Definition tmp : string := "/data/index.tmp".
Definition old_snapshot : bytes := encode_to_vec (snapshot_of one_chunk [7]).
Definition start : Disk := {| names := {[path := 0%nat]}; contents := {[0%nat := old_snapshot]} |}.
Definition first : Saver := saver_of two_chunks [7; 9].
Definition second : Saver := saver_of two_chunks [8; 9].
Definition both : SaveRun := begin_saves start [first; second].

(** The first save has written its file; the second truncates it; the first renames it. *)
Definition opened : SaveRun := step_saver both 0 first (Writing 1 0) (add_file start tmp 1).
Definition filled : SaveRun :=
  step_saver opened 0 first (Writing 1 (length (payload first))) (set_content (disk opened) 1 (payload first)).
Definition ready : SaveRun := step_saver filled 0 first ToRename (disk filled).
Definition truncated : SaveRun := step_saver ready 1 second (Writing 1 0) (set_content (disk ready) 1 []).
Definition renamed (r : SaveRun) : SaveRun := install r 0 first (move_name (disk r) tmp path 1).

Lemma start_ok : disk_ok start.
Proof.
  assert (∀ p f, names start !! p = Some f → p = path ∧ f = 0%nat) as Hn.
  { intros p f Hp. unfold start in Hp. cbn [names] in Hp. apply lookup_singleton_Some in Hp as [<- <-]. done. }
  split.
  - intros p q f [-> _]%Hn [-> _]%Hn. done.
  - intros p f [_ ->]%Hn. eexists. vm_compute. reflexivity.
Qed.

Lemma open_step : save_step path 0 both opened.
Proof. by apply (save_create path 0 both first 1). Qed.
Lemma fill_step : save_step path 0 opened filled.
Proof.
  assert (filled = step_saver opened 0 (with_stage first (Writing 1 0)) (Writing 1 (0 + length (payload first)))
    (set_content (disk opened) 1 (write_at [] 0 (take (length (payload first)) (drop 0 (payload first)))))) as ->
    by (vm_compute; reflexivity).
  apply (save_write path 0 opened (with_stage first (Writing 1 0)) 1 0 [] (length (payload first))); [done|done|done|].
  vm_compute. lia.
Qed.
Lemma ready_step : save_step path 0 filled ready.
Proof. by apply (save_written path 0 filled (with_stage first (Writing 1 (length (payload first)))) 1). Qed.
Lemma truncate_step : save_step path 1 ready truncated.
Proof. by apply (save_truncate path 1 ready second 1). Qed.
Lemma rename_step r : r = ready ∨ r = truncated → save_step path 0 r (renamed r).
Proof. intros [->| ->]; by apply (save_rename path 0 _ (with_stage first ToRename) 1). Qed.

Lemma turn r r' i : save_step path i r r' → Forall (λ s, active (stage s) = false) (delete i (savers r)) → serial_step path r r'.
Proof.
  intros Hs HF. exists i. split; [done|]. intros j s Hne Hj. rewrite Forall_forall in HF. apply HF.
  apply list_elem_of_lookup. destruct (decide (j < i)%nat) as [Hlt|Hge].
  - exists j. by rewrite list_lookup_delete_lt.
  - exists (pred j). rewrite list_lookup_delete_ge by lia. by replace (S (pred j)) with j by lia.
Qed.

Lemma serial_run : rtc (serial_step path) both (renamed ready).
Proof.
  eapply rtc_l; [apply (turn _ _ 0 open_step); by repeat constructor|].
  eapply rtc_l; [apply (turn _ _ 0 fill_step); by repeat constructor|].
  eapply rtc_l; [apply (turn _ _ 0 ready_step); by repeat constructor|].
  eapply rtc_l; [|apply rtc_refl]. apply (turn _ _ 0); [apply rename_step; by left|by repeat constructor].
Qed.

Lemma save_race_run : rtc (any_step path) both (renamed truncated).
Proof.
  eapply rtc_l; [exists 0%nat; apply open_step|]. eapply rtc_l; [exists 0%nat; apply fill_step|].
  eapply rtc_l; [exists 0%nat; apply ready_step|]. eapply rtc_l; [exists 1%nat; apply truncate_step|].
  eapply rtc_l; [|apply rtc_refl]. exists 0%nat. apply rename_step. by right.
Qed.
End SaveSample.

(** ** Properties *)

(** C29. A snapshot is on disk at every moment: when saves take turns, then after any number
    of their system calls, with files created, written in pieces and renamed or with any of
    these failing, a load (that is, a restart after a crash at that moment) finds the
    complete snapshot of a finished save, or what was there before as long as none has
    finished; every other file is as it was. *)
Theorem save_serial_complete `{HD : Codec IndexSnapshot} valid (LD : CodecLaws IndexSnapshot valid) path d inputs r
    (Hnew : with_extension path "tmp" ≠ path) (Hd : disk_ok d)
    (Hv : Forall (λ x, valid (snapshot_of x.1 x.2)) inputs)
    (Hr : rtc (serial_step path) (begin_saves d (map (λ x, saver_of x.1 x.2) inputs)) r) :
  (∀ p, p ≠ path → p ≠ with_extension path "tmp" → disk_view (disk r) !! p = disk_view d !! p) ∧
  ((∀ i s, savers r !! i = Some s → stage s ≠ Saved) ∧ load_index (disk_view (disk r)) path = load_index (disk_view d) path ∨
   ∃ i s x, savers r !! i = Some s ∧ stage s = Saved ∧ inputs !! i = Some x ∧
     load_index (disk_view (disk r)) path = Ok (Some (rebuild_index (snapshot_of x.1 x.2)))).
Proof.
  set (ss := map _ inputs) in Hr. assert (Forall (λ s, stage s = ToCreate) ss) as Hss by by apply Forall_map, Forall_true.
  destruct (run_inv_reachable path Hnew d _ _ Hr) as [_ _ _ Hp Ho].
  { apply run_inv_begin; [done|]. eapply Forall_impl; [exact Hss|]. by intros s ->. }
  destruct (book_inv_reachable path ss _ _ (serial_any _ _ _ Hr) (book_inv_begin d ss Hss)) as [Epay Hb].
  split; [exact Ho|]. destruct (last (installed r)) as [b|] eqn:El.
  - right. apply last_Some_elem_of, Hb in El as (i & s & Hs & Est & Ep).
    assert (map payload ss !! i = Some b) as Hi by (by rewrite <-Epay, list_lookup_fmap, Hs, <-Ep).
    unfold ss in Hi. rewrite !list_lookup_fmap in Hi. destruct (inputs !! i) as [x|] eqn:Hx; [|done].
    injection Hi as <-. exists i, s, x. split_and!; [done..|]. rewrite Forall_lookup in Hv.
    by eapply load_saved; [exact LD|by eapply Hv|].
  - left. apply last_None in El. split; [|unfold load_index; by rewrite Hp].
    intros i s Hs Est. assert (payload s ∈ installed r) as Hin by (apply Hb; by exists i, s).
    rewrite El in Hin. by apply elem_of_nil in Hin.
Qed.

Lemma save_serial_complete_witness :
  @load_index snapshot_codec (disk_view (disk (SaveSample.renamed SaveSample.ready))) SaveSample.path =
  Ok (Some (rebuild_index (snapshot_of two_chunks [7; 9]))).
Proof.
  destruct (proj2 (save_serial_complete (HD := snapshot_codec) (λ _, True) snapshot_codec_laws SaveSample.path
    SaveSample.start [(two_chunks, [7; 9]); (two_chunks, [8; 9])] (SaveSample.renamed SaveSample.ready)
    ltac:(discriminate) SaveSample.start_ok ltac:(by repeat constructor) SaveSample.serial_run))
    as [[Hn _]|(i & s & x & Hs & Est & Hx & El)].
  - exfalso. exact (Hn 0%nat _ eq_refl eq_refl).
  - destruct i as [|[|i]]; [|exfalso|exfalso]; [|injection Hs as <-; discriminate Est|destruct i; discriminate Hs].
    injection Hx as <-. exact El.
Defined.

(** [save_index] is what a save amounts to: a save that runs alone and is over has left, on
    every path but the temporary one, the files [save_index] leaves for some outcome of its
    write and its rename, and it has succeeded exactly when [save_index] says so. *)
Theorem save_alone_refines `{HD : Codec IndexSnapshot} path d idx wms r s
    (Hnew : with_extension path "tmp" ≠ path) (Hd : disk_ok d)
    (Hr : rtc (any_step path) (begin_saves d [saver_of idx wms]) r) (Hs : savers r = [s])
    (Hover : stage s = Saved ∨ ∃ msg, stage s = Failed msg) :
  ∃ io ren, let res := save_index (disk_view d) idx path wms io ren in
    (is_ok res.2 = true ↔ stage s = Saved) ∧
    ∀ p, p ≠ with_extension path "tmp" → disk_view (disk r) !! p = res.1 !! p.
Proof.
  assert (Forall (λ s, stage s = ToCreate) [saver_of idx wms]) as Hss by by repeat constructor.
  destruct (book_inv_reachable path _ _ _ Hr (book_inv_begin d _ Hss)) as [Epay Hb].
  destruct (run_inv_reachable path Hnew d _ _ (alone_serial path _ _ _ Hr eq_refl)) as [_ _ _ Hp Ho].
  { apply run_inv_begin; [done|]. by repeat constructor. }
  rewrite Hs in Epay, Hb. injection Epay as Ep. destruct Hover as [Est|[msg Est]].
  - exists IoOk, true. cbv zeta. rewrite save_cases. split; [by split|]. intros p Hne. cbn [fst].
    destruct (decide (p = path)) as [->|Hpp].
    + rewrite lookup_insert_eq, Hp. destruct (last (installed r)) as [b|] eqn:El.
      * apply last_Some_elem_of, Hb in El as ([|[]] & t & Ht & _ & <-); [|done..]. injection Ht as <-. by rewrite Ep.
      * apply last_None in El. assert (payload s ∈ installed r) as Hin by (apply Hb; by exists 0%nat, s).
        rewrite El in Hin. by apply elem_of_nil in Hin.
    + by rewrite lookup_insert_ne, lookup_delete_ne, lookup_insert_ne, Ho by done.
  - exists (IoErr 0), false. cbv zeta. rewrite save_cases. split; [by rewrite Est|]. intros p Hne. cbn [fst].
    rewrite lookup_insert_ne by done. destruct (decide (p = path)) as [->|Hpp]; [|by apply Ho].
    rewrite Hp. destruct (last (installed r)) as [b|] eqn:El; [|done].
    apply last_Some_elem_of, Hb in El as ([|[]] & t & Ht & Et & _); [|done..]. injection Ht as <-. congruence.
Qed.

(** Two saves that overlap: the one that has written its file renames it after the other has
    truncated it.  The first call has succeeded, and the snapshot on disk, which was
    complete before, is gone: a restart at this moment starts with no index. *)
Theorem save_race_truncates_snapshot :
  rtc (any_step SaveSample.path) SaveSample.both (SaveSample.renamed SaveSample.truncated) ∧
  @load_index snapshot_codec (disk_view SaveSample.start) SaveSample.path =
    Ok (Some (rebuild_index (snapshot_of one_chunk [7]))) ∧
  stage <$> savers (SaveSample.renamed SaveSample.truncated) !! 0%nat = Some Saved ∧
  @load_index snapshot_codec (disk_view (disk (SaveSample.renamed SaveSample.truncated))) SaveSample.path = Ok None.
Proof.
  split; [exact SaveSample.save_race_run|]. split; [vm_compute; reflexivity|]. split; vm_compute; reflexivity.
Qed.
