(* ===== verification/Compaction.v ===== *)
(** * Compaction ([src/storage-engine/src/compaction/mod.rs])

    One cycle groups the chunk files of the index by size, merges each group into
    one new chunk, registers it and deregisters and deletes the old ones.  The
    state is the file system and the index; what the environment decides (clock,
    bloom seed, outcome of the write, which deletions succeed) is the argument
    [env], one record per merged group. *)
From S2P Require Import Prelude BTree F64 Externals Types Memtable Fs ChunkFormat ChunkWriter ChunkReader ChunkFile ChunkIndex.

Record CompactionWorker := {
  cw_writer : ChunkWriter;
  min_threshold : Z;
  size_ratio : f64
}.

(** [CompactionWorker::new]; [None] is the failed assertion. *)
Definition compaction_new (w : ChunkWriter) (min_threshold : Z) (size_ratio : f64) : option CompactionWorker :=
  if f64_ge size_ratio f64_one
  then Some {| cw_writer := w; min_threshold := min_threshold; size_ratio := size_ratio |}
  else None.

Record CompactionResult := {
  chunks_merged : Z;
  bytes_freed : Z
}.

Record MergeGroup := {
  chunks : list (Z * string);
  to_deregister : list (Z * Z * Z)
}.

(** A candidate file: id, path, size. *)
Abbreviation CFile := (Z * string * Z)%type.

(** [files.sort_by_key(size)], stable. *)
Fixpoint insert_by_size (x : CFile) (l : list CFile) : list CFile :=
  match l with
  | [] => [x]
  | y :: l' => if x.2 <=? y.2 then x :: l else y :: insert_by_size x l'
  end.
Definition sort_by_size (l : list CFile) : list CFile := foldr insert_by_size [] l.

(** The files [find_candidates] considers, in the order it considers them; files of one size
    come in the order of the map, which for a [HashMap] is any. *)
Definition candidate_files (idx : ChunkIndex) : list CFile :=
  sort_by_size
    (map (λ e, (e.1, file_path e.2, file_size e.2))
       (List.filter (λ e, 0 <? file_size e.2) (map_to_list (chunk_files idx)))).

(** [size as f64 / group_min_size as f64 <= self.size_ratio]. *)
Definition within_ratio (w : CompactionWorker) (size group_min : Z) : bool :=
  f64_le (f64_div (f64_of_u64 size) (f64_of_u64 group_min)) (size_ratio w).

(** The grouping loop: finished groups, the open group and its smallest size. *)
Record Grouping := {
  raw_groups : list (list (Z * string));
  current : list (Z * string);
  group_min_size : Z
}.

Definition close_group (w : CompactionWorker) (g : Grouping) : list (list (Z * string)) :=
  if min_threshold w <=? len (current g) then raw_groups g ++ [current g] else raw_groups g.

Definition group_step (w : CompactionWorker) (g : Grouping) (f : CFile) : Grouping :=
  match current g with
  | [] => {| raw_groups := raw_groups g; current := [f.1]; group_min_size := f.2 |}
  | _ =>
      if within_ratio w f.2 (group_min_size g)
      then {| raw_groups := raw_groups g; current := current g ++ [f.1]; group_min_size := group_min_size g |}
      else {| raw_groups := close_group w g; current := [f.1]; group_min_size := f.2 |}
  end.

Definition group_files (w : CompactionWorker) (files : list CFile) : list (list (Z * string)) :=
  close_group w (fold_left (group_step w) files {| raw_groups := []; current := []; group_min_size := 0 |}).

(** The (series, chunk, start) triples of the group's chunks in the time index. *)
Definition deregister_list (idx : ChunkIndex) (group : list (Z * string)) : list (Z * Z * Z) :=
  flat_map
    (λ e : Z * list (Z * SeriesChunkEntry),
       map (λ p, (e.1, ce_chunk_id p.2, p.1))
         (List.filter (λ p, bool_decide (ce_chunk_id p.2 ∈ map fst group)) e.2))
    (map_to_list (time_index idx)).

(** [find_candidates]. *)
Definition find_candidates (w : CompactionWorker) (idx : ChunkIndex) : list MergeGroup :=
  map (λ g, {| chunks := g; to_deregister := deregister_list idx g |})
    (group_files w (candidate_files idx)).

(** One point into the merged data: the vector of its series, by binary search. *)
Definition merge_point (entries : list (SeriesKey * list (Z * f64))) (point : DataPoint)
    : list (SeriesKey * list (Z * f64)) :=
  let key := point_key point in
  let vec := default [] (bt_get entries key) in
  match binary_search_by (λ q : Z * f64, cmp q.1 (timestamp_ns point)) vec with
  | inl pos =>
      bt_insert entries key
        (match vec !! pos with
         | Some q => <[pos := (q.1, value point)]> vec
         | None => vec
         end)
  | inr pos => bt_insert entries key (vec_insert vec pos (timestamp_ns point, value point))
  end.

(** What the environment decides while a group is merged. *)
Record MergeEnv := {
  env_now : Z;
  env_seed : Z;
  env_io : io_outcome;
  env_removed : string → bool
}.

Section Merge.
Context `{XxHash, Crc32, Lz4, BloomFilter}.

(** The reading loop of [merge_group]. *)
Fixpoint merge_chunks (fs : Fs) (group : list (Z * string)) (entries : list (SeriesKey * list (Z * f64)))
    : result (list (SeriesKey * list (Z * f64))) :=
  match group with
  | [] => Ok entries
  | (_, path) :: group' =>
      points ← read_chunk fs path;
      merge_chunks fs group' (fold_left merge_point points entries)
  end.

(** Registering the series of a written chunk. *)
Definition register_all (idx : ChunkIndex) (r : ChunkWriteResult) : ChunkIndex :=
  fold_left (λ idx s, (register idx (sr_series_key s) (sr_entry s) (sr_stats s) (cw_chunk_meta r)).1)
    (cw_series_results r) idx.

Definition deregister_all (idx : ChunkIndex) (l : list (Z * Z * Z)) : ChunkIndex :=
  fold_left (λ idx d, deregister idx d.1.1 d.1.2 d.2) l idx.

(** Deleting the old files; failures are only logged. *)
Definition remove_files (fs : Fs) (group : list (Z * string)) (removed : string → bool) : Fs :=
  fold_left (λ fs c, if removed c.2 then fs_remove fs c.2 else fs) group fs.

(** [merge_group]. *)
Definition merge_group (w : CompactionWorker) (fs : Fs) (idx : ChunkIndex) (g : MergeGroup) (env : MergeEnv)
    : Fs * ChunkIndex * result ChunkWriteResult :=
  match merge_chunks fs (chunks g) [] with
  | Err e => (fs, idx, Err e)
  | Ok entries =>
      match write (cw_writer w) fs entries (env_now env) (env_seed env) (env_io env) with
      | (fs1, Err e) => (fs1, idx, Err e)
      | (fs1, Ok r) =>
          (remove_files fs1 (chunks g) (env_removed env),
           deregister_all (register_all idx r) (to_deregister g), Ok r)
      end
  end.

(** The merging loop of [compact_once]: stops at the first error. *)
Fixpoint merge_groups (w : CompactionWorker) (fs : Fs) (idx : ChunkIndex) (groups : list MergeGroup)
    (env : nat → MergeEnv) (i : nat) (new_bytes merged : Z) : Fs * ChunkIndex * result (Z * Z) :=
  match groups with
  | [] => (fs, idx, Ok (new_bytes, merged))
  | g :: groups' =>
      match merge_group w fs idx g (env i) with
      | (fs1, idx1, Err e) => (fs1, idx1, Err e)
      | (fs1, idx1, Ok r) =>
          merge_groups w fs1 idx1 groups' env (S i)
            (wrap_u64 (new_bytes + file_size (cw_chunk_meta r))) (wrap_u64 (merged + len (chunks g)))
      end
  end.

(** The sizes of a group's files in the index, summed. *)
Definition group_bytes (idx : ChunkIndex) (g : MergeGroup) : Z :=
  fold_left (λ acc c, match chunk_files idx !! c.1 with
                      | Some m => wrap_u64 (acc + file_size m)
                      | None => acc end) (chunks g) 0.

(** [compact_once]. *)
Definition compact_once (w : CompactionWorker) (fs : Fs) (idx : ChunkIndex) (env : nat → MergeEnv)
    : Fs * ChunkIndex * result CompactionResult :=
  let candidates := find_candidates w idx in
  let old_bytes := fold_left (λ acc g, wrap_u64 (acc + group_bytes idx g)) candidates 0 in
  match candidates with
  | [] => (fs, idx, Ok {| chunks_merged := 0; bytes_freed := 0 |})
  | _ =>
      match merge_groups w fs idx candidates env 0 0 0 with
      | (fs1, idx1, Err e) => (fs1, idx1, Err e)
      | (fs1, idx1, Ok (new_bytes, merged)) =>
          (fs1, idx1, Ok {| chunks_merged := wrap_u32 merged;
                            bytes_freed := saturating_sub old_bytes new_bytes |})
      end
  end.

End Merge.

(** ** Candidate selection *)

Lemma insert_by_size_perm x l : Permutation (insert_by_size x l) (x :: l).
Proof.
  induction l as [|y l IH]; cbn; [done|]. destruct (x.2 <=? y.2); [done|]. rewrite IH. constructor.
Qed.

Lemma sort_by_size_perm l : Permutation (sort_by_size l) l.
Proof. induction l as [|x l IH]; cbn; [done|]. by rewrite insert_by_size_perm, IH. Qed.

Lemma insert_by_size_sorted x l :
  StronglySorted (λ a b : CFile, a.2 <= b.2) l → StronglySorted (λ a b : CFile, a.2 <= b.2) (insert_by_size x l).
Proof.
  induction 1 as [|y l Hs IH Hall]; cbn; [by repeat constructor|].
  destruct (x.2 <=? y.2) eqn:E; zbool.
  - constructor; [by constructor|]. constructor; [done|]. eapply Forall_impl; [exact Hall|]. cbn. lia.
  - constructor; [done|]. rewrite insert_by_size_perm. constructor; [lia|done].
Qed.

Lemma sort_by_size_sorted l : StronglySorted (λ a b : CFile, a.2 <= b.2) (sort_by_size l).
Proof. induction l as [|x l IH]; cbn; [constructor|]. by apply insert_by_size_sorted. Qed.

(** ** The tiers of a list of files, by the arithmetic of the language *)

(** A file of [size] bytes belongs to a tier whose first file has [smallest] bytes. *)
Definition close_in_size (ratio : f64) (size smallest : Z) : Prop :=
  f64_le (f64_div (f64_of_u64 size) (f64_of_u64 smallest)) ratio = true.

(** The files cut into tiers: every file of a tier is close in size to its first one, and
    the file after a tier is not. *)
Inductive tiers (ratio : f64) : list CFile → list (list CFile) → Prop :=
| tiers_nil : tiers ratio [] []
| tiers_cons f block rest blocks :
    Forall (λ x : CFile, close_in_size ratio x.2 f.2) block →
    match rest with [] => True | x :: _ => ¬ close_in_size ratio x.2 f.2 end →
    tiers ratio rest blocks → tiers ratio (f :: block ++ rest) ((f :: block) :: blocks).

Definition big_enough (w : CompactionWorker) (block : list CFile) : bool := min_threshold w <=? len block.

Lemma tiers_concat ratio files blocks : tiers ratio files blocks → concat blocks = files.
Proof. induction 1 as [|f block rest blocks _ _ _ IH]; [done|]. cbn. by rewrite IH. Qed.

(** There is one way to cut. *)
Lemma tiers_unique ratio files bs bs' : tiers ratio files bs → tiers ratio files bs' → bs = bs'.
Proof.
  intros Ht. revert bs'. induction Ht as [|f block rest blocks Hin Hout _ IH]; intros bs' Ht'; [by inversion Ht'|].
  remember (f :: block ++ rest) as files eqn:E. destruct Ht' as [|f' block' rest' blocks' Hin' Hout' Hrest']; [done|].
  injection E as -> E.
  assert (block' = block ∧ rest' = rest) as [-> ->].
  { clear -Hin Hin' Hout Hout' E. revert block' Hin' E. induction Hin as [|x block Hx _ IH]; intros [|x' block'] Hin' E; cbn in *.
    - done.
    - subst rest. by apply Forall_cons in Hin' as [Hx' _].
    - subst rest'. done.
    - injection E as -> E. apply Forall_cons in Hin' as [_ Hin']. by destruct (IH block' Hin' E) as [-> ->]. }
  by rewrite (IH _ Hrest').
Qed.

(** The state of the grouping loop after the files [concat blocks ++ open]. *)
Definition grouping_of (w : CompactionWorker) (blocks : list (list CFile)) (block : list CFile) : Grouping :=
  {| raw_groups := map (map fst) (List.filter (big_enough w) blocks);
     current := map fst block;
     group_min_size := match block with [] => 0 | f0 :: _ => f0.2 end |}.

Lemma close_grouping w blocks block :
  close_group w (grouping_of w blocks block) =
  map (map fst) (List.filter (big_enough w) (blocks ++ [block])).
Proof.
  unfold close_group. cbn [current grouping_of raw_groups]. rewrite len_map.
  rewrite List.filter_app, map_app. cbn [List.filter]. fold (big_enough w block).
  destruct (big_enough w block); cbn; [done|by rewrite app_nil_r].
Qed.

(** The loop closes a tier exactly where the relation does. *)
Lemma group_fold w files blocks f0 block :
  Forall (λ x : CFile, close_in_size (size_ratio w) x.2 f0.2) block →
  ∃ cut last, fold_left (group_step w) files (grouping_of w blocks (f0 :: block)) = grouping_of w (blocks ++ cut) last ∧
    tiers (size_ratio w) (f0 :: block ++ files) (cut ++ [last]).
Proof.
  revert blocks f0 block. induction files as [|f files IH]; intros blocks f0 block Hb.
  - exists [], (f0 :: block). rewrite app_nil_r. split; [done|]. by apply tiers_cons; [|..|constructor].
  - cbn [fold_left]. unfold group_step at 2. cbn [current grouping_of map].
    change (group_min_size (grouping_of w blocks (f0 :: block))) with f0.2.
    destruct (within_ratio w f.2 f0.2) eqn:E.
    + destruct (IH blocks f0 (block ++ [f])) as (cut & last & Ef & Ht); [apply Forall_app; by repeat constructor|].
      exists cut, last. rewrite <-app_assoc in Ht. split; [|exact Ht]. rewrite <-Ef. unfold grouping_of at 2. cbn [map]. by rewrite map_app.
    + destruct (IH (blocks ++ [f0 :: block]) f []) as (cut & last & Ef & Ht); [constructor|].
      exists ((f0 :: block) :: cut), last. split.
      { rewrite <-(app_assoc blocks [_] cut) in Ef. cbn [app] in Ef. rewrite <-Ef. f_equal. by rewrite close_grouping. }
      apply (tiers_cons _ f0 block (f :: files)); [done| |exact Ht]. unfold close_in_size, within_ratio in *. congruence.
Qed.

Lemma group_files_tiers w files :
  files ≠ [] ∨ 0 < min_threshold w →
  ∃ blocks, tiers (size_ratio w) files blocks ∧
    group_files w files = map (map fst) (List.filter (big_enough w) blocks).
Proof.
  intros Hm. unfold group_files. destruct files as [|f files].
  - exists []. split; [constructor|]. destruct Hm as [?|Hm]; [done|]. unfold close_group. cbn.
    by replace (min_threshold w <=? len []) with false by (rewrite len_nil; lia).
  - cbn [fold_left]. change (group_step w _ f) with (grouping_of w [] [f]).
    destruct (group_fold w files [] f []) as (cut & last & Ef & Ht); [constructor|].
    exists (cut ++ [last]). split; [exact Ht|]. rewrite Ef. apply close_grouping.
Qed.

(** What the candidates are: the files of the index that are not empty. *)
Lemma elem_of_candidate_files idx c path size :
  (c, path, size) ∈ candidate_files idx ↔
  ∃ m, chunk_files idx !! c = Some m ∧ path = file_path m ∧ size = file_size m ∧ 0 < size.
Proof.
  unfold candidate_files. rewrite sort_by_size_perm, elem_of_map. setoid_rewrite elem_of_filterb. split.
  - intros ([c' m] & E & Hin%elem_of_map_to_list & Hs). cbn in *. simplify_eq. exists m. split_and!; [done..|lia].
  - intros (m & Hm & -> & -> & Hs). exists (c, m). split; [done|]. split; [by apply elem_of_map_to_list|cbn; lia].
Qed.

Lemma candidate_files_ids idx : NoDup (map (λ f : CFile, f.1.1) (candidate_files idx)).
Proof.
  unfold candidate_files. rewrite sort_by_size_perm, map_map. cbn.
  eapply sublist_NoDup; [apply (NoDup_fst_map_to_list (chunk_files idx))|].
  induction (map_to_list (chunk_files idx)) as [|e l IH]; [constructor|]. cbn.
  destruct (0 <? _); by constructor.
Qed.

Lemma concat_filter_sublist {A} (f : list A → bool) (bs : list (list A)) :
  sublist (concat (List.filter f bs)) (concat bs).
Proof.
  induction bs as [|b bs IH]; cbn; [constructor|]. destruct (f b); cbn.
  - by apply sublist_app.
  - by apply sublist_inserts_l.
Qed.

(** ** Merging *)

Lemma merge_point_spec d p :
  data_wf d → merge_point d p = data_insert d (point_key p) (timestamp_ns p) (value p).
Proof.
  intros Hwf. pose proof (series_vec_wf d (point_key p) Hwf) as Hvec. unfold merge_point, data_insert.
  change (default [] (bt_get d (point_key p))) with (series_vec d (point_key p)).
  destruct (binary_search_by _ (series_vec d (point_key p))) as [pos|pos] eqn:E.
  - destruct (binary_search_found _ _ _ Hvec E) as (v0 & Hx & _ & Hins). by rewrite Hx, <-Hins.
  - by destruct (binary_search_absent _ _ _ Hvec E (value p)) as [-> _].
Qed.

Lemma merge_points_spec ps d :
  data_wf d →
  data_wf (fold_left merge_point ps d) ∧
  ∀ k ts, data_lookup (fold_left merge_point ps d) k ts =
    match last_write ps k ts with Some v => Some v | None => data_lookup d k ts end.
Proof.
  revert d. induction ps as [|p ps IH]; intros d Hd; [done|]. cbn [fold_left].
  rewrite merge_point_spec by done. destruct (IH _ (data_insert_wf d (point_key p) (timestamp_ns p) (value p) Hd)) as [Hw Hl].
  split; [done|]. intros k ts. rewrite Hl, last_write_cons, data_lookup_insert.
  destruct (last_write ps k ts); [done|]. by case_decide.
Qed.

Section MergeLaws.
Context `{XxHash, Crc32, Lz4, BloomFilter}.

(** The files of the group read as [parts], in order. *)
Definition group_reads (fs : Fs) (group : list (Z * string)) (parts : list (list DataPoint)) : Prop :=
  Forall2 (λ c ps, read_chunk fs c.2 = Ok ps) group parts.

Lemma group_reads_collect fs group parts :
  collect (map (λ c : Z * string, read_chunk fs c.2) group) = Ok parts → group_reads fs group parts.
Proof.
  revert parts. induction group as [|c group IH]; intros parts E; cbn in E.
  - injection E as <-. constructor.
  - destruct (read_chunk fs c.2) as [ps|] eqn:Er; [|done].
    destruct (collect _) as [pss|]; [|done]. injection E as <-. constructor; [done|by apply IH].
Qed.

Lemma merge_chunks_spec fs group parts d :
  group_reads fs group parts → merge_chunks fs group d = Ok (fold_left merge_point (concat parts) d).
Proof.
  intros Hr. revert d. induction Hr as [|[id path] ps group parts Hp Hr IH]; intros d; cbn; [done|].
  cbn in Hp. rewrite Hp. cbn [mbind result_bind]. by rewrite IH, fold_left_app.
Qed.

Lemma merge_group_Ok_inv w fs idx g env fs' idx' r parts :
  merge_group w fs idx g env = (fs', idx', Ok r) → group_reads fs (chunks g) parts →
  let data := fold_left merge_point (concat parts) [] in
  ∃ fs1, write (cw_writer w) fs data (env_now env) (env_seed env) (env_io env) = (fs1, Ok r) ∧
    fs' = remove_files fs1 (chunks g) (env_removed env) ∧
    idx' = deregister_all (register_all idx r) (to_deregister g).
Proof.
  intros Hm Hr. cbv zeta. unfold merge_group in Hm. rewrite (merge_chunks_spec _ _ _ _ Hr) in Hm.
  destruct (write _ _ _ _ _ _) as [fs1 [r1|e]] eqn:E; [|done]. injection Hm as <- <- <-. by exists fs1.
Qed.

(** Reading a file that exists differs from a freshly created path. *)
Lemma group_reads_paths fs group parts path :
  group_reads fs group parts → fs !! path = None → Forall (λ c, c.2 ≠ path) group.
Proof.
  intros Hr Hn. induction Hr as [|c ps group parts Hp Hr IH]; constructor; [|done].
  intros E. rewrite E in Hp. unfold read_chunk, fs_read in Hp. by rewrite Hn in Hp.
Qed.

Lemma remove_files_other fs group removed path :
  Forall (λ c : Z * string, c.2 ≠ path) group → remove_files fs group removed !! path = fs !! path.
Proof.
  intros Hg. unfold remove_files. revert fs. induction Hg as [|c group Hc Hg IH]; intros fs; cbn; [done|].
  rewrite IH. destruct (removed c.2); [|done]. unfold fs_remove. by rewrite lookup_delete_ne.
Qed.

Lemma read_series_same_file fs fs' path key lo hi :
  fs !! path = fs' !! path → read_series fs path key lo hi = read_series fs' path key lo hi.
Proof. intros E. unfold read_series, fs_read. by rewrite E. Qed.

Context `{!Crc32Laws, !Lz4Laws, !BloomLaws}.

(** The merged chunk answers for the last write of every cell. *)
Lemma merge_group_reads w fs idx g env fs' idx' r parts key lo hi :
  let data := fold_left merge_point (concat parts) [] in
  merge_group w fs idx g env = (fs', idx', Ok r) → group_reads fs (chunks g) parts →
  values_wf data → data_fits data (env_now env) (env_seed env) → key_unambiguous data key →
  ∃ res, read_series fs' (file_path (cw_chunk_meta r)) key lo hi = Ok res ∧
    ∀ p, p ∈ default [] res ↔ point_key p = key ∧
      last_write (concat parts) key (timestamp_ns p) = Some (value p) ∧ lo <= timestamp_ns p <= hi.
Proof.
  intros data Hm Hr Hv Hfit Hu. destruct (merge_group_Ok_inv _ _ _ _ _ _ _ _ _ Hm Hr) as (fs1 & Hw & -> & _).
  fold data in Hw. destruct (merge_points_spec (concat parts) []) as [[Hbw Hall] Hl]; [split; constructor|].
  fold data in Hbw, Hall, Hl.
  assert (chunk_data_wf data) as Hwf.
  { split; [done|]. split; [|done]. eapply Forall_impl; [exact Hall|]. by intros e []. }
  destruct (write_then_read_series _ _ _ _ _ _ _ _ key lo hi Hw Hwf Hfit Hu) as (res & Hres & Eres).
  exists res. split.
  - rewrite <-Hres. apply read_series_same_file, remove_files_other.
    apply write_Ok_inv in Hw as (p & _ & Hnone & _). by eapply group_reads_paths.
  - intros p. rewrite Eres, elem_of_map. setoid_rewrite elem_of_filterb.
    assert (∀ ts v, (ts, v) ∈ series_vec data key ↔ last_write (concat parts) key ts = Some v) as Hvec.
    { intros ts v. specialize (Hl key ts). unfold data_lookup in Hl.
      rewrite <-bt_get_In by (by apply series_vec_wf). unfold series_vec.
      destruct (last_write (concat parts) key ts), (bt_get data key) as [vec|]; cbn in *; split; congruence. }
    unfold in_time_range. setoid_rewrite andb_true_iff. setoid_rewrite Z.leb_le. split.
    + intros ([ts v] & -> & Hin%Hvec & Hr'). cbn. by destruct key.
    + intros (<- & Hlw & Hr'). exists (timestamp_ns p, value p). split; [by destruct p|].
      split; [by apply Hvec|done].
Qed.

End MergeLaws.

(** ** The index after a merge *)

Section MergeIndex.
Context `{XxHash, Crc32, Lz4, BloomFilter}.

(** Records of one chunk that can be registered. *)
Definition results_ok (cid : Z) (l : list SeriesWriteResult) : Prop :=
  Forall (λ s, bt_wf (sk_tags (sr_series_key s)) ∧ ce_series_id (sr_entry s) = series_id (sr_series_key s) ∧
               ce_chunk_id (sr_entry s) = cid) l ∧
  NoDup (map sr_series_key l).

(** The series ids among the records and in the index belong to one key each. *)
Definition ids_distinct (idx : ChunkIndex) (l : list SeriesWriteResult) : Prop :=
  (∀ s, s ∈ l → no_collision idx (sr_series_key s)) ∧
  ∀ s s', s ∈ l → s' ∈ l → series_id (sr_series_key s) = series_id (sr_series_key s') →
    sr_series_key s = sr_series_key s'.

Definition register_list (idx : ChunkIndex) (meta : ChunkMeta) (l : list SeriesWriteResult) : ChunkIndex :=
  fold_left (λ idx s, (register idx (sr_series_key s) (sr_entry s) (sr_stats s) meta).1) l idx.

Lemma register_list_wf idx meta cid l :
  idx_wf idx → results_ok cid l → ids_distinct idx l →
  (∀ s t e, s ∈ l → (t, e) ∈ time_map idx (series_id (sr_series_key s)) → ce_chunk_id e ≠ cid) →
  idx_wf (register_list idx meta l).
Proof.
  revert idx. induction l as [|s l IH]; intros idx Hw [Hok Hnd] [Hnc Hinj] Hfresh; [done|].
  unfold register_list. cbn [fold_left]. fold (register_list (register idx (sr_series_key s) (sr_entry s) (sr_stats s) meta).1 meta l).
  apply Forall_cons in Hok as [(Ht & Hid & Hc) Hok]. apply NoDup_cons in Hnd as [Hn Hnd].
  assert (∀ s', s' ∈ l → series_id (sr_series_key s') ≠ series_id (sr_series_key s)) as Hne.
  { intros s' Hs' E. apply Hn. apply elem_of_map. exists s'. split; [|done].
    symmetry. apply Hinj; [by right|left|done]. }
  apply IH.
  - apply register_wf; [done..|apply Hnc; left|].
    intros t e Hin Ec. exfalso. eapply (Hfresh s); [left|exact Hin|congruence].
  - by split.
  - split; [|intros s1 s2 H1' H2'; apply Hinj; by right].
    intros s' Hs' k. unfold register. cbn [fst series_registry].
    rewrite lookup_insert_ne by (symmetry; by apply Hne). apply Hnc. by right.
  - intros s' t e Hs' Hin. rewrite time_map_register in Hin. rewrite decide_False in Hin by by apply Hne.
    by eapply (Hfresh s'); [right|].
Qed.

(** What a registered record leaves in the index. *)
Lemma register_list_keeps idx meta l id :
  (∀ s, s ∈ l → series_id (sr_series_key s) ≠ id) →
  series_registry (register_list idx meta l) !! id = series_registry idx !! id ∧
  time_map (register_list idx meta l) id = time_map idx id.
Proof.
  revert idx. induction l as [|s l IH]; intros idx Hne; [done|].
  unfold register_list. cbn [fold_left].
  fold (register_list (register idx (sr_series_key s) (sr_entry s) (sr_stats s) meta).1 meta l).
  destruct (IH (register idx (sr_series_key s) (sr_entry s) (sr_stats s) meta).1) as [-> ->].
  { intros s' Hs'. apply Hne. by right. }
  rewrite time_map_register, decide_False by (intros ->; by apply (Hne s); [left|]).
  unfold register. cbn [fst series_registry]. rewrite lookup_insert_ne; [done|]. apply Hne. left.
Qed.

Lemma register_list_file idx meta l s :
  s ∈ l → Forall (λ s', ce_chunk_id (sr_entry s') = ce_chunk_id (sr_entry s)) l →
  chunk_files (register_list idx meta l) !! ce_chunk_id (sr_entry s) = Some meta.
Proof.
  intros Hin Hall. destruct l as [|s0 l _] using rev_ind; [by apply elem_of_nil in Hin|].
  unfold register_list. rewrite fold_left_app. cbn. apply Forall_app in Hall as [_ [E _]%Forall_cons].
  rewrite E. apply lookup_insert_eq.
Qed.

Lemma register_list_entry idx meta cid l s :
  idx_wf idx → results_ok cid l → ids_distinct idx l → s ∈ l →
  (∀ s t e, s ∈ l → (t, e) ∈ time_map idx (series_id (sr_series_key s)) → ce_chunk_id e ≠ cid) →
  series_registry (register_list idx meta l) !! series_id (sr_series_key s) = Some (sr_series_key s) ∧
  (ce_time_start_ns (sr_entry s), sr_entry s) ∈ time_map (register_list idx meta l) (series_id (sr_series_key s)).
Proof.
  intros Hw [Hok Hnd] [Hnc Hinj] Hin Hfresh.
  destruct (list_elem_of_split _ _ Hin) as (pre & post & ->).
  unfold register_list. rewrite fold_left_app. cbn [fold_left]. fold (register_list idx meta pre).
  set (idx1 := register_list idx meta pre).
  fold (register_list (register idx1 (sr_series_key s) (sr_entry s) (sr_stats s) meta).1 meta post).
  destruct (register_list_keeps (register idx1 (sr_series_key s) (sr_entry s) (sr_stats s) meta).1 meta post
    (series_id (sr_series_key s))) as [-> ->].
  { intros s' Hs' E. rewrite map_app in Hnd. cbn in Hnd. apply NoDup_app in Hnd as (_ & _ & [Hn _]%NoDup_cons).
    apply Hn, elem_of_map. exists s'. split; [|done]. symmetry. apply Hinj; [set_solver..|done]. }
  split.
  - unfold register. cbn [fst series_registry]. apply lookup_insert_eq.
  - rewrite time_map_register, decide_True by done.
    assert (bt_wf (time_map idx1 (series_id (sr_series_key s)))) as Hb.
    { apply wf_sorted. apply (register_list_wf idx meta cid pre); [done| | |].
      - split; [by apply Forall_app in Hok as [? _]|]. rewrite map_app in Hnd. by apply NoDup_app in Hnd as [? _].
      - split; [intros s' Hs'; apply Hnc; set_solver|]. intros s1 s2 ? ?. apply Hinj; set_solver.
      - intros s' t e Hs'. apply Hfresh. set_solver. }
    apply bt_get_In; [by apply bt_wf_insert|]. rewrite bt_get_insert. by rewrite decide_True.
Qed.

(** Where the entries of the registered index come from. *)
Lemma elem_of_register_list idx meta cid l id t e :
  Forall (λ s, ce_chunk_id (sr_entry s) = cid) l → (∀ id, bt_wf (time_map idx id)) →
  (t, e) ∈ time_map (register_list idx meta l) id → (t, e) ∈ time_map idx id ∨ ce_chunk_id e = cid.
Proof.
  intros Hc. revert idx. induction Hc as [|s l Hs Hl IH]; intros idx Hb Hin; [by left|].
  unfold register_list in Hin. cbn [fold_left] in Hin.
  apply IH in Hin as [Hin|]; [|by right|].
  - apply elem_of_time_map_register in Hin as [(_ & _ & ->)|[? _]]; [by right|by left|done].
  - intros id'. rewrite time_map_register. case_decide; [by apply bt_wf_insert|done].
Qed.

Lemma deregister_all_wf idx l :
  idx_wf idx →
  (∀ d t e, d ∈ l → (t, e) ∈ time_map idx d.1.1 → ce_chunk_id e = d.1.2 → t = d.2) →
  idx_wf (deregister_all idx l).
Proof.
  revert idx. induction l as [|d l IH]; intros idx Hw Hone; [done|].
  unfold deregister_all. cbn [fold_left].
  assert (∀ t e, (t, e) ∈ time_map idx d.1.1 → ce_chunk_id e = d.1.2 → t = d.2) as Hd.
  { intros t e. apply Hone. left. }
  apply IH; [by apply deregister_wf|]. intros d' t e Hd' Hin.
  rewrite elem_of_time_map_deregister in Hin by (apply Hw || done). destruct Hin as [Hin _].
  by apply Hone; [right|].
Qed.

Lemma elem_of_deregister_list idx group d :
  d ∈ deregister_list idx group →
  ∃ e, (d.2, e) ∈ time_map idx d.1.1 ∧ ce_chunk_id e = d.1.2 ∧ d.1.2 ∈ map fst group.
Proof.
  unfold deregister_list. intros ([id tm] & Htm%elem_of_map_to_list & Hd)%elem_of_flat_map.
  apply elem_of_map in Hd as ([t e] & -> & [Hin Hg]%elem_of_filterb). apply bool_decide_eq_true in Hg.
  exists e. cbn in *. split_and!; [|done..]. unfold time_map. by rewrite Htm.
Qed.

(** Merging keeps the index invariant. *)
Lemma merge_index_wf idx group cid meta results :
  idx_wf idx → results_ok cid results → ids_distinct idx results →
  (∀ id t e, (t, e) ∈ time_map idx id → ce_chunk_id e ≠ cid) → cid ∉ map fst group →
  idx_wf (deregister_all (register_list idx meta results) (deregister_list idx group)).
Proof.
  intros Hw Hok Hids Hfresh Hcid. apply deregister_all_wf.
  - eapply register_list_wf; eauto.
  - intros d t e Hd Hin Hc. apply elem_of_deregister_list in Hd as (e0 & Hin0 & Hc0 & Hg).
    apply (elem_of_register_list idx meta cid) in Hin as [Hin|Hin]; [| | |apply (wf_sorted idx Hw)].
    + eapply (wf_once idx Hw); [exact Hin|exact Hin0|congruence].
    + exfalso. apply Hcid. congruence.
    + eapply Forall_impl; [apply Hok|]. by intros s (_ & _ & ?).
Qed.

(** The records of a written chunk. *)
Lemma write_results_ok w fs data now seed io fs' r :
  write w fs data now seed io = (fs', Ok r) → bt_wf data → Forall (λ e, bt_wf (sk_tags e.1)) data →
  results_ok (new_chunk_id now) (cw_series_results r) ∧
  map sr_series_key (cw_series_results r) = map fst (non_empty data).
Proof.
  intros Hw Hwf Htags. apply write_Ok_inv in Hw as (p & Hp & _ & _ & _ & _ & _ & Er).
  destruct (chunk_of_spec _ _ _ Hp) as (Hf & _).
  pose proof (pass2_describes (new_chunk_id now) (col_base p) _ _ Hf) as Hd. rewrite <-Er in Hd.
  assert (map sr_series_key (cw_series_results r) = map fst (non_empty data)) as Ek.
  { clear -Hd. induction Hd as [|e s d l (E & _) _ IH]; cbn; [done|]. by rewrite E, IH. }
  split; [|done]. split.
  - assert (Forall (λ e : SeriesKey * list (Z * f64), bt_wf (sk_tags e.1)) (non_empty data)) as Ht.
    { rewrite Forall_forall in *. intros e [Hin _]%elem_of_filterb. by apply Htags. }
    clear -Hd Ht. induction Hd as [|e s d l (E1 & E2 & E3 & _) _ IH]; constructor.
    + apply Forall_cons in Ht as [Ht _]. by rewrite E1, E2, E3.
    + apply IH. by apply Forall_cons in Ht as [_ Ht].
  - rewrite Ek. apply bt_wf_NoDup_keys. by apply bt_wf_filter.
Qed.

(** The keys of merged data are keys of merged points. *)
Lemma merged_keys ps d :
  data_wf d → Forall (λ e, bt_wf (sk_tags e.1)) d → Forall (λ p, bt_wf (tags p)) ps →
  Forall (λ e, bt_wf (sk_tags e.1)) (fold_left merge_point ps d).
Proof.
  intros Hd Hk Hp. revert d Hd Hk. induction Hp as [|p ps Hp Hps IH]; intros d Hd Hk; [done|]. cbn [fold_left].
  apply IH; [rewrite merge_point_spec by done; by apply data_insert_wf|].
  rewrite merge_point_spec by done. by apply bt_insert_Forall.
Qed.

Lemma merge_group_wf w fs idx group env fs' idx' r parts :
  let g := {| chunks := group; to_deregister := deregister_list idx group |} in
  merge_group w fs idx g env = (fs', idx', Ok r) → group_reads fs group parts →
  idx_wf idx → Forall (λ p, bt_wf (tags p)) (concat parts) →
  ids_distinct idx (cw_series_results r) →
  (∀ id t e, (t, e) ∈ time_map idx id → ce_chunk_id e ≠ new_chunk_id (env_now env)) →
  new_chunk_id (env_now env) ∉ map fst group →
  idx_wf idx'.
Proof.
  intros g Hm Hr Hw Ht Hids Hfresh Hc.
  destruct (merge_group_Ok_inv _ _ _ _ _ _ _ _ _ Hm Hr) as (fs1 & Hwr & _ & ->).
  assert (data_wf []) as Hnil by (split; constructor).
  destruct (merge_points_spec (concat parts) [] Hnil) as [[Hbw _] _].
  destruct (write_results_ok _ _ _ _ _ _ _ _ Hwr Hbw) as [Hok _]; [by apply merged_keys|].
  by eapply (merge_index_wf idx group).
Qed.

End MergeIndex.

(** ** Sample: chunks of one series, merged *)

Definition f64_four : f64 := F64 (1025 * 2 ^ 52).
Definition sample_worker : CompactionWorker :=
  {| cw_writer := sample_writer; min_threshold := 2; size_ratio := f64_four |}.
Definition sample_env (now : Z) : MergeEnv :=
  {| env_now := now; env_seed := 0; env_io := IoOk; env_removed := λ _, true |}.

(** Flushing [data] into a chunk: write it and register its series. *)
Definition flush_sample (st : Fs * ChunkIndex) (data : SeriesData) (now : Z) : Fs * ChunkIndex :=
  match @write poly_hash ieee_crc32 stored_lz4 cell_bloom sample_writer st.1 data now 0 IoOk with
  | (fs, Ok r) => (fs, @register_all poly_hash st.2 r)
  | (fs, Err _) => (fs, st.2)
  end.
Definition compact_sample (st : Fs * ChunkIndex) (now : Z) : Fs * ChunkIndex * result CompactionResult :=
  @compact_once poly_hash ieee_crc32 stored_lz4 cell_bloom sample_worker st.1 st.2
    (λ i, sample_env (now + Z.of_nat i)).

(** All values of series [key_a] at one timestamp that a query of the chunks sees. *)
Definition values_at (st : Fs * ChunkIndex) (ts : Z) : list Z :=
  flat_map
    (λ e, match chunk_files st.2 !! ce_chunk_id e with
          | None => []
          | Some m =>
              match @read_series ieee_crc32 stored_lz4 st.1 (file_path m) key_a ts ts with
              | Ok (Some ps) => map (λ p, f64_bits (value p)) ps
              | _ => []
              end
          end)
    (prune_chunks st.2 (@series_id poly_hash key_a) ts ts None).

(** An older, larger chunk and a newer, smaller one that overwrites timestamp 10. *)
Definition old_then_new : Fs * ChunkIndex :=
  flush_sample
    (flush_sample (∅, index_new) [(key_a, [(5, F64 1); (10, F64 1); (15, F64 1); (20, F64 1)])] 1)
    [(key_a, [(10, F64 2)])] 2.

(** Two chunks of a series that start at the same timestamp. *)
Definition same_start : Fs * ChunkIndex :=
  flush_sample (flush_sample (∅, index_new) [(key_a, [(10, F64 1); (11, F64 1)])] 1)
    [(key_a, [(10, F64 2); (20, F64 2)])] 2.

(** The two chunks of [old_then_new], as a merge group. *)
Definition sample_group : MergeGroup :=
  match find_candidates sample_worker old_then_new.2 with
  | g :: _ => g
  | [] => {| chunks := []; to_deregister := [] |}
  end.
Definition sample_parts : list (list DataPoint) :=
  [[point_at key_a 10 2];
   [point_at key_a 5 1; point_at key_a 10 1; point_at key_a 15 1; point_at key_a 20 1]].
Definition sample_merge : Fs * ChunkIndex * result ChunkWriteResult :=
  @merge_group poly_hash ieee_crc32 stored_lz4 cell_bloom sample_worker old_then_new.1 old_then_new.2
    sample_group (sample_env 3).
Definition merged_result : ChunkWriteResult :=
  match sample_merge.2 with Ok r => r | Err _ => sample_result end.

Lemma sample_merge_ok : sample_merge = (sample_merge.1.1, sample_merge.1.2, Ok merged_result).
Proof. vm_compute. reflexivity. Qed.

Lemma sample_group_reads : @group_reads ieee_crc32 stored_lz4 old_then_new.1 (chunks sample_group) sample_parts.
Proof. apply group_reads_collect. vm_compute. reflexivity. Qed.

Lemma merged_data : fold_left merge_point (concat sample_parts) [] =
  [(key_a, [(5, F64 1); (10, F64 1); (15, F64 1); (20, F64 1)])].
Proof. vm_compute. reflexivity. Qed.

Lemma merged_values_wf : values_wf (fold_left merge_point (concat sample_parts) []).
Proof.
  rewrite merged_data. apply Forall_singleton. split; [|done].
  repeat (apply Forall_cons; split; [split; [cbn; width|unfold f64_wf; cbn; width]|]). constructor.
Qed.

Lemma merged_fits :
  @data_fits poly_hash ieee_crc32 stored_lz4 cell_bloom (fold_left merge_point (concat sample_parts) []) 3 0.
Proof. rewrite merged_data. apply data_fitsb. vm_compute. reflexivity. Qed.

Lemma merged_unambiguous : key_unambiguous (fold_left merge_point (concat sample_parts) []) key_a.
Proof.
  rewrite merged_data. intros k pts Hin E. apply list_elem_of_singleton in Hin. by injection Hin as -> ->.
Qed.

(** The index of the sample, as two registrations. *)
Definition a_entry (chunk start stop size : Z) : SeriesChunkEntry :=
  {| ce_chunk_id := chunk; ce_series_id := @series_id poly_hash key_a; ce_time_start_ns := start;
     ce_time_end_ns := stop; ce_size_bytes := size |}.
Definition flat_stats (v : Z) : SeriesChunkStats :=
  {| min_value := F64 v; max_value := F64 v; null_count := 0 |}.
Definition first_index : ChunkIndex :=
  (@register poly_hash index_new key_a (a_entry 1 5 20 80) (flat_stats 1)
     {| file_path := "/data/chunks/chunk-0000000000000001.mcs"; file_size := 302 |}).1.

Lemma old_index : old_then_new.2 =
  (@register poly_hash first_index key_a (a_entry 2 10 10 32) (flat_stats 2)
     {| file_path := "/data/chunks/chunk-0000000000000002.mcs"; file_size := 254 |}).1.
Proof. vm_compute. reflexivity. Qed.

Lemma old_index_wf : @idx_wf poly_hash old_then_new.2.
Proof.
  rewrite old_index. apply register_wf; [|repeat constructor|done| |].
  - apply register_wf; [apply index_new_wf|repeat constructor|done|by intros k Hk|].
    intros t e Hin. by apply elem_of_nil in Hin.
  - intros k Hk. unfold first_index, register in Hk. cbn [fst series_registry] in Hk.
    rewrite lookup_insert_eq in Hk. congruence.
  - intros t e Hin Ec. unfold first_index in Hin. rewrite time_map_register, decide_True in Hin by done.
    apply list_elem_of_singleton in Hin. by injection Hin as -> ->.
Qed.

Lemma old_index_chunks id t e : (t, e) ∈ time_map old_then_new.2 id → ce_chunk_id e ≠ 3.
Proof.
  rewrite old_index, time_map_register. unfold first_index. rewrite time_map_register. intros Hin.
  repeat case_decide; cbn in Hin; set_solver.
Qed.

Lemma merged_ids : @ids_distinct poly_hash old_then_new.2 (cw_series_results merged_result).
Proof.
  assert (∀ s, s ∈ cw_series_results merged_result → sr_series_key s = key_a) as Hk.
  { intros s Hs. vm_compute in Hs. apply list_elem_of_singleton in Hs. by subst. }
  split.
  - intros s Hs k. rewrite (Hk s Hs), old_index. unfold register. cbn [fst series_registry].
    rewrite lookup_insert_eq. congruence.
  - intros s s' Hs Hs' _. by rewrite (Hk s Hs), (Hk s' Hs').
Qed.

(** ** Properties *)



(** C16. Merging keeps the last write in merge order: after a successful merge of files
    that read as [parts], a query of the merged chunk returns exactly, for every
    timestamp in the window, the value of the last point among the concatenated parts
    (and nothing that was not in them), and the deletion of the old files does not
    touch the new one. *)
Theorem compaction_merge_last_write `{HX : XxHash, HC : Crc32, HL : Lz4, HB : BloomFilter}
    (LC : Crc32Laws) (LL : Lz4Laws) (LB : BloomLaws) w fs idx g env fs' idx' r parts key lo hi
    (Hm : merge_group w fs idx g env = (fs', idx', Ok r)) (Hr : group_reads fs (chunks g) parts)
    (Hv : values_wf (fold_left merge_point (concat parts) []))
    (Hfit : data_fits (fold_left merge_point (concat parts) []) (env_now env) (env_seed env))
    (Hu : key_unambiguous (fold_left merge_point (concat parts) []) key) :
  ∃ res, read_series fs' (file_path (cw_chunk_meta r)) key lo hi = Ok res ∧
    ∀ p, p ∈ default [] res ↔ point_key p = key ∧
      last_write (concat parts) key (timestamp_ns p) = Some (value p) ∧ lo <= timestamp_ns p <= hi.
Proof. by eapply merge_group_reads. Qed.

Lemma compaction_merge_last_write_witness :
  ∃ res, @read_series ieee_crc32 stored_lz4 sample_merge.1.1 (file_path (cw_chunk_meta merged_result)) key_a 0 10
         = Ok res ∧
    (point_at key_a 10 1 ∈ default [] res ↔ point_key (point_at key_a 10 1) = key_a ∧
       last_write (concat sample_parts) key_a 10 = Some (F64 1) ∧ 0 <= 10 <= 10).
Proof.
  destruct (compaction_merge_last_write (HX := poly_hash) (HC := ieee_crc32) (HL := stored_lz4)
    (HB := cell_bloom) ieee_crc32_laws stored_lz4_laws cell_bloom_laws sample_worker
    old_then_new.1 old_then_new.2 sample_group (sample_env 3) sample_merge.1.1 sample_merge.1.2 merged_result
    sample_parts key_a 0 10 sample_merge_ok sample_group_reads
    merged_values_wf merged_fits merged_unambiguous) as (res & E & Hres).
  exists res. split; [exact E|]. exact (Hres (point_at key_a 10 1)).
Defined.

(** Merging keeps the index consistent: registering the merged chunk and then
    deregistering the entries collected before the merge preserves the index invariant,
    provided the new chunk id is fresh and no two series share an id. *)
Theorem compaction_index_invariant `{HX : XxHash, HC : Crc32, HL : Lz4, HB : BloomFilter}
    w fs idx group env fs' idx' r parts
    (Hm : merge_group w fs idx {| chunks := group; to_deregister := deregister_list idx group |} env
          = (fs', idx', Ok r))
    (Hr : group_reads fs group parts) (Hw : idx_wf idx)
    (Ht : Forall (λ p, bt_wf (tags p)) (concat parts)) (Hids : ids_distinct idx (cw_series_results r))
    (Hfresh : ∀ id t e, (t, e) ∈ time_map idx id → ce_chunk_id e ≠ new_chunk_id (env_now env))
    (Hc : new_chunk_id (env_now env) ∉ map fst group) :
  idx_wf idx'.
Proof. by eapply merge_group_wf. Qed.

Lemma compaction_index_invariant_witness : @idx_wf poly_hash sample_merge.1.2.
Proof.
  refine (compaction_index_invariant (HX := poly_hash) (HC := ieee_crc32) (HL := stored_lz4)
    (HB := cell_bloom) sample_worker old_then_new.1 old_then_new.2 (chunks sample_group) (sample_env 3)
    sample_merge.1.1 sample_merge.1.2 merged_result sample_parts _ sample_group_reads old_index_wf
    _ merged_ids old_index_chunks _).
  - vm_compute. reflexivity.
  - repeat (apply Forall_cons; split; [repeat constructor|]). constructor.
  - vm_compute. intros Hin. repeat (apply elem_of_cons in Hin as [Hin|Hin]; [discriminate Hin|]).
    by apply elem_of_nil in Hin.
Defined.

(** Compaction merges in order of file size, not of age: a value that was overwritten
    by a later, smaller chunk comes back.  The query sees the new value 2 before the
    cycle, and only the old value 1 after it. *)
Theorem compaction_resurrects_old_value :
  values_at old_then_new 10 = [1; 2] ∧
  (∃ r, (compact_sample old_then_new 3).2 = Ok r ∧ chunks_merged r = 2) ∧
  values_at (compact_sample old_then_new 3).1 10 = [1].
Proof.
  split; [vm_compute; reflexivity|]. split; [|vm_compute; reflexivity].
  eexists. split; vm_compute; reflexivity.
Qed.

(** A chunk hidden by another with the same start survives its own compaction as a
    dangling record: its file is deleted, its statistics and file entry stay, and the
    next cycle fails when it tries to read the deleted file. *)
Theorem compaction_dangling_chunk :
  let first := compact_sample same_start 3 in
  is_ok first.2 = true ∧
  (∃ m, chunk_files first.1.2 !! 1 = Some m ∧ first.1.1 !! file_path m = None) ∧
  (compact_sample first.1 4).2 = Err "not found".
Proof.
  split; [vm_compute; reflexivity|]. split; [|vm_compute; reflexivity].
  eexists. split; [vm_compute; reflexivity|vm_compute; reflexivity].
Qed.
