(* ===== verification/Config.v ===== *)
(** * Configuration ([src/storage-engine/src/config.rs])

    The environment is a partial function from names to values.  [str::parse::<f64>]
    is the argument [parse_f64]; nothing depends on what it returns.  Creating the
    directories ([ensure_dirs]) is in [Startup]. *)
From S2P Require Import Prelude BTree F64 Externals Types Memtable Fs ChunkWriter Compaction.

Record StorageConfig := {
  wal_dir : string;
  cfg_chunk_dir : string;
  index_path : string;
  wal_max_segment_bytes : Z;
  wal_channel_capacity : Z;
  wal_max_batch : Z;
  wal_batch_delay_us : Z;
  memtable_flush_threshold_bytes : Z;
  num_shards : Z;
  index_snapshot_interval_secs : Z;
  compaction_interval_secs : Z;
  compaction_min_threshold : Z;
  compaction_size_ratio : f64;
  grpc_addr : string;
  metrics_addr : string
}.

Section Load.
Context (env : string → option string) (parse_f64 : string → option f64).

(** [env_path]: a [PathBuf] is its string. *)
Definition env_path (key dflt : string) : string := default dflt (env key).

(** [env_string]. *)
Definition env_string (key dflt : string) : string := default dflt (env key).

(** [env_u64]; [env_usize] on a 64-bit target. *)
Definition env_u64 (key : string) (dflt : Z) : Z := default dflt (env key ≫= parse_u64).
Definition env_usize (key : string) (dflt : Z) : Z := default dflt (env key ≫= parse_u64).

(** [env_f64]. *)
Definition env_f64 (key : string) (dflt : f64) : f64 := default dflt (env key ≫= parse_f64).

(** [usize::is_power_of_two]. *)
Definition is_power_of_two (n : Z) : bool := (0 <? n) && (n =? 2 ^ Z.log2 n).

(** The default ratio, 1.5. *)
Definition f64_three_halves : f64 := F64 (1023 * 2 ^ 52 + 2 ^ 51).

(** [StorageConfig::load]. *)
Definition load : result StorageConfig :=
  let num_shards := env_usize "MICIUS_NUM_SHARDS" 16 in
  ensure ((1 <=? num_shards) && is_power_of_two num_shards) "MICIUS_NUM_SHARDS must be a power of 2 >= 1" ≫= λ _,
  Ok {| wal_dir := env_path "MICIUS_WAL_DIR" "/var/micius/data/wal";
        cfg_chunk_dir := env_path "MICIUS_CHUNK_DIR" "/var/micius/data/chunks";
        index_path := env_path "MICIUS_INDEX_PATH" "/var/micius/data/index.bin";
        wal_max_segment_bytes := wrap_u64 (env_u64 "MICIUS_WAL_MAX_SEGMENT_MB" 64 * 1024 * 1024);
        wal_channel_capacity := env_usize "MICIUS_WAL_CHANNEL_CAPACITY" 1024;
        wal_max_batch := env_usize "MICIUS_WAL_MAX_BATCH" 256;
        wal_batch_delay_us := env_u64 "MICIUS_WAL_BATCH_DELAY_US" 0;
        memtable_flush_threshold_bytes := wrap_u64 (env_usize "MICIUS_MEMTABLE_FLUSH_MB" 32 * 1024 * 1024);
        num_shards := num_shards;
        index_snapshot_interval_secs := env_u64 "MICIUS_INDEX_SNAPSHOT_INTERVAL_SECS" 60;
        compaction_interval_secs := env_u64 "MICIUS_COMPACTION_INTERVAL_SECS" 300;
        compaction_min_threshold := env_usize "MICIUS_COMPACTION_MIN_THRESHOLD" 4;
        compaction_size_ratio := env_f64 "MICIUS_COMPACTION_SIZE_RATIO" f64_three_halves;
        grpc_addr := env_string "MICIUS_GRPC_ADDR" "0.0.0.0:50051";
        metrics_addr := env_string "MICIUS_METRICS_ADDR" "0.0.0.0:9091" |}.

End Load.

(** ** Parsing stays within the width *)

Lemma parse_digits_range s acc z : 0 <= acc <= u64_max → parse_digits s acc = Some z → in_u64 z.
Proof.
  revert acc. induction s as [|c s IH]; intros acc Ha E; cbn in E.
  - injection E as <-. width.
  - unfold char_digit in E. destruct (_ && _) eqn:D; [|done]. zbool.
    destruct (_ <=? u64_max) eqn:L; [|done]. zbool. apply IH in E; [done|lia].
Qed.

Lemma parse_u64_range s z : parse_u64 s = Some z → in_u64 z.
Proof.
  unfold parse_u64. destruct s as [|c s]; [done|].
  assert (0 <= 0 <= u64_max) by (unfold u64_max; lia).
  case_bool_decide; [destruct s; [done|]|]; intros E; by eapply parse_digits_range.
Qed.

Lemma env_u64_range env key dflt : in_u64 dflt → in_u64 (env_u64 env key dflt).
Proof.
  intros Hd. unfold env_u64. destruct (env key) as [v|]; cbn; [|done].
  destruct (parse_u64 v) as [z|] eqn:E; cbn; [by eapply parse_u64_range|done].
Qed.

Lemma load_Ok_inv env pf c :
  load env pf = Ok c → num_shards c = env_usize env "MICIUS_NUM_SHARDS" 16 ∧ is_power_of_two (num_shards c) = true.
Proof.
  unfold load. destruct (_ && _) eqn:E; cbn; [|done]. intros [= <-]. cbn. split; [done|].
  by apply andb_true_iff in E as [_ E].
Qed.

(** The number of shards of a loaded configuration. *)
Lemma load_shards env pf c :
  load env pf = Ok c → (∃ k, 0 <= k < 64 ∧ num_shards c = 2 ^ k) ∧ in_u64 (num_shards c).
Proof.
  intros [E Hp]%load_Ok_inv. assert (in_u64 (num_shards c)) as H64 by (rewrite E; by apply env_u64_range).
  split; [|done]. unfold is_power_of_two in Hp. apply andb_true_iff in Hp as [Hpos Hpow]. zbool.
  exists (Z.log2 (num_shards c)). split; [|done]. split; [apply Z.log2_nonneg|]. apply Z.log2_lt_pow2; [done|]. by destruct H64.
Qed.

Definition sample_chunk_writer : ChunkWriter := chunk_writer_new "/var/micius/data/chunks".

(** ** Properties *)

(** A loaded configuration has a shard count that is a power of two of at most 2^63,
    so shard routing by bitmask is the series id modulo the shard count and every point
    has a shard. *)
Theorem config_shards_route `{HX : XxHash} (LX : XxHashLaws) env pf c p (Hc : load env pf = Ok c) :
  (∃ k, 0 <= k < 64 ∧ num_shards c = 2 ^ k) ∧ 0 <= shard_index p (num_shards c) < num_shards c.
Proof.
  destruct (load_shards env pf c Hc) as [Hk _]. split; [done|]. destruct Hk as (k & Hk & ->).
  rewrite shard_index_mod by done. apply Z.mod_pos_bound, Z.pow_pos_nonneg; lia.
Qed.

Lemma config_shards_route_witness :
  ∃ c, load (λ k, if decide (k = "MICIUS_NUM_SHARDS") then Some "8" else None) (λ _, None) = Ok c ∧
    num_shards c = 8 ∧ 0 <= @shard_index poly_hash (point_at key_a 1 1) (num_shards c) < num_shards c.
Proof.
  eexists. split; [reflexivity|]. split; [reflexivity|].
  refine (proj2 (config_shards_route (HX := poly_hash) poly_hash_laws
    (λ k, if decide (k = "MICIUS_NUM_SHARDS") then Some "8" else None) (λ _, None) _ (point_at key_a 1 1) _)).
  reflexivity.
Defined.

(** Loading does not check the compaction ratio: a ratio below 1 is accepted, and the
    worker's constructor then panics on its assertion when the server opens. *)
Theorem config_ratio_unchecked :
  ∃ env pf c, load env pf = Ok c ∧
    compaction_new sample_chunk_writer (compaction_min_threshold c) (compaction_size_ratio c) = None.
Proof.
  exists (λ k, if decide (k = "MICIUS_COMPACTION_SIZE_RATIO") then Some "0" else None), (λ _, Some f64_zero).
  eexists. split; reflexivity.
Qed.
