(* ===== verification/Server.v ===== *)
(** * The storage server ([src/storage-engine/src/server/mod.rs])

    The server owns one WAL task and one memtable per shard, the chunk index, the
    chunk writer and the watermarks.  The RPC handlers and the bodies of the
    background tasks are functions on its state; a crash keeps the files and the
    WAL directories and drops everything else; [open] starts from those.  The sweep
    of a shard is split where it releases the memtable's lock, so that other
    handlers can run between draining and flushing.  What the environment decides
    (clock, bloom seeds, outcomes of I/O) is an argument.

    Log messages are left out; the metrics are in [Metrics]. *)
From S2P Require Import Prelude BTree F64 Externals Types Memtable Fs ChunkFormat ChunkWriter ChunkReader ChunkFile WalWriter Recovery GroupCommit ChunkIndex Persistence Compaction Config.

(** [slice::sort_unstable_by_key] on (shard, position) pairs: the standard library
    promises a sorted permutation and leaves the order of equal keys open. *)
Class UnstableSort := sort_unstable_by_shard : list (Z * nat) → list (Z * nat).
Class UnstableSortLaws `{UnstableSort} : Prop := sort_unstable_spec :
  ∀ l, Permutation (sort_unstable_by_shard l) l ∧
       StronglySorted (λ a b : Z * nat, a.1 <= b.1) (sort_unstable_by_shard l).

Record StorageServer := {
  wals : list WalTask;
  memtables : list Memtable;
  index : ChunkIndex;
  chunk_writer : ChunkWriter;
  compaction_worker : CompactionWorker;
  snapshot_path : string;
  live_watermarks : list Z;
  persisted_watermarks : list Z;
  append_seq : Z;
  files : Fs
}.

(** A point of an [AppendRequest]; the tags are a hash map in iteration order. *)
Record RequestPoint := {
  rq_metric_name : string;
  rq_tags : list (string * string);
  rq_timestamp_ns : Z;
  rq_value : f64
}.

Record QueryResponse := {
  qr_series_id : Z;
  qr_timestamp_ns : Z;
  qr_value : f64
}.

(** Step 1 of [append]: tags into a sorted map. *)
Definition decode_point (pt : RequestPoint) : DataPoint :=
  {| metric_name := rq_metric_name pt; tags := bt_collect (rq_tags pt);
     timestamp_ns := rq_timestamp_ns pt; value := rq_value pt |}.

(** The leading pairs with the same shard ([partition_point] on the sorted rest). *)
Fixpoint leading_run (shard : Z) (l : list (Z * nat)) : list (Z * nat) :=
  match l with
  | [] => []
  | e :: l' => if e.1 =? shard then e :: leading_run shard l' else []
  end.

(** Step 2: the loop that cuts the sorted pairs into one group per shard.  Every
    round consumes at least one pair, so the length is enough [fuel]. *)
Fixpoint shard_groups (fuel : nat) (pts : list DataPoint) (indexed : list (Z * nat))
    : list (Z * list DataPoint) :=
  match fuel, indexed with
  | S fuel', (shard, _) :: _ =>
      let run := leading_run shard indexed in
      (shard, omap (λ e, pts !! e.2) run) :: shard_groups fuel' pts (drop (length run) indexed)
  | _, _ => []
  end.

Section Server.
Context `{XxHash, Crc32, Lz4, BloomFilter, Codec WalEntry, Codec IndexSnapshot, UnstableSort}.

(** Steps 1 and 2 of [append]. *)
Definition route (shards : Z) (pts : list DataPoint) : list (Z * list DataPoint) :=
  let indexed := sort_unstable_by_shard (imap (λ i p, (shard_index p shards, i)) pts) in
  shard_groups (length indexed) pts indexed.

(** [WalSender::append], [rotate_and_drain] and [drain_completed_before]: a message that is
    alone in its batch, and its reply.  The task lives as long as the server, so the channel
    is never closed. *)
Definition sender_append (t : WalTask) (points : list DataPoint) (io : io_outcome) (rot : bool) : WalTask * result Z :=
  let r := process_batch t [Append points 0] io rot true in
  (r.1, match append_acks r.2 with (_, x) :: _ => x | [] => Err "WAL task dropped reply" end).
Definition paths_reply (replies : list (nat * Reply)) : result (list string) :=
  match replies with (_, ReplyPaths x) :: _ => x | _ => Err "WAL task dropped reply" end.
Definition sender_rotate_and_drain (t : WalTask) (rot rot2 : bool) : WalTask * result (list string) :=
  let r := process_batch t [Rotate 0] IoOk rot rot2 in (r.1, paths_reply r.2).
Definition sender_drain_completed_before (t : WalTask) (seq : Z) (rot : bool) : WalTask * result (list string) :=
  let r := process_batch t [DrainBefore seq 0] IoOk rot true in (r.1, paths_reply r.2).

(** Step 3 for one group: the shard's WAL task commits it and replies.  An index outside
    [wals] panics in the source; it is an error here and does not occur when there are as
    many tasks as memtables. *)
Definition wal_append_one (ws : list WalTask) (g : Z * list DataPoint) (io : Z → io_outcome) (rot : Z → bool)
    : list WalTask * result Z :=
  match ws !! Z.to_nat g.1 with
  | None => (ws, Err "WAL task panicked")
  | Some t =>
      let r := sender_append t g.2 (io g.1) (rot g.1) in
      (<[Z.to_nat g.1 := r.1]> ws, r.2)
  end.

(** Step 3: all groups are sent, then the replies are awaited in order. *)
Fixpoint wal_append_all (ws : list WalTask) (gs : list (Z * list DataPoint)) (io : Z → io_outcome)
    (rot : Z → bool) : list WalTask * list (result Z) :=
  match gs with
  | [] => (ws, [])
  | g :: gs' =>
      let r := wal_append_one ws g io rot in
      let rs := wal_append_all r.1 gs' io rot in
      (rs.1, r.2 :: rs.2)
  end.

(** Step 4: the memtable inserts, shard by shard. *)
Definition insert_groups (ms : list Memtable) (gs : list (Z * list DataPoint)) : list Memtable :=
  fold_left (λ ms g, alter (λ m, insert_all m g.2) (Z.to_nat g.1) ms) gs ms.

Definition with_wals (sv : StorageServer) (ws : list WalTask) : StorageServer :=
  {| wals := ws; memtables := memtables sv; index := index sv; chunk_writer := chunk_writer sv;
     compaction_worker := compaction_worker sv; snapshot_path := snapshot_path sv;
     live_watermarks := live_watermarks sv; persisted_watermarks := persisted_watermarks sv;
     append_seq := append_seq sv; files := files sv |}.
Definition with_memtables (sv : StorageServer) (ms : list Memtable) : StorageServer :=
  {| wals := wals sv; memtables := ms; index := index sv; chunk_writer := chunk_writer sv;
     compaction_worker := compaction_worker sv; snapshot_path := snapshot_path sv;
     live_watermarks := live_watermarks sv; persisted_watermarks := persisted_watermarks sv;
     append_seq := append_seq sv; files := files sv |}.

(** The [append] handler. *)
Definition append_rpc (sv : StorageServer) (request : list RequestPoint) (io : Z → io_outcome) (rot : Z → bool)
    : StorageServer * result Z :=
  let pts := map decode_point request in
  let groups := route (len (memtables sv)) pts in
  let '(ws, results) := wal_append_all (wals sv) groups io rot in
  match collect results with
  | Err e => (with_wals sv ws, Err e)
  | Ok _ =>
      let seq := wrap_u64 (append_seq sv + 1) in
      ({| wals := ws; memtables := insert_groups (memtables sv) groups; index := index sv;
          chunk_writer := chunk_writer sv; compaction_worker := compaction_worker sv;
          snapshot_path := snapshot_path sv; live_watermarks := live_watermarks sv;
          persisted_watermarks := persisted_watermarks sv; append_seq := seq; files := files sv |},
       Ok seq)
  end.

(** The parts of [append] between which other tasks run: a batch of groups goes to the log
    of a shard, a group is inserted under the memtable's lock, the request is counted and
    answered. *)
Definition insert_group (sv : StorageServer) (shard : nat) (pts : list DataPoint) : StorageServer :=
  with_memtables sv (alter (λ m, insert_all m pts) shard (memtables sv)).
Definition append_ack (sv : StorageServer) : StorageServer * Z :=
  let seq := wrap_u64 (append_seq sv + 1) in
  ({| wals := wals sv; memtables := memtables sv; index := index sv; chunk_writer := chunk_writer sv;
      compaction_worker := compaction_worker sv; snapshot_path := snapshot_path sv;
      live_watermarks := live_watermarks sv; persisted_watermarks := persisted_watermarks sv;
      append_seq := seq; files := files sv |}, seq).

(** Stage 1 of [query]: the memtables. *)
Definition query_memtables (ms : list Memtable) (metric : string) (filters : list (string * string)) (lo hi : Z)
    : list QueryResponse :=
  flat_map
    (λ m,
       flat_map
         (λ key,
            map (λ p, {| qr_series_id := series_id key; qr_timestamp_ns := timestamp_ns p; qr_value := value p |})
              (Memtable.read_series m key lo hi None))
         (resolve_series m metric filters))
    ms.

(** Stage 3 for one chunk entry; a missing path or key and a read error are skipped. *)
Definition query_chunk (fs : Fs) (idx : ChunkIndex) (lo hi : Z) (c : SeriesChunkEntry) : list QueryResponse :=
  match chunk_files idx !! ce_chunk_id c, series_registry idx !! ce_series_id c with
  | Some meta, Some key =>
      match ChunkReader.read_series fs (file_path meta) key lo hi with
      | Ok (Some points) =>
          map (λ p, {| qr_series_id := ce_series_id c; qr_timestamp_ns := timestamp_ns p; qr_value := value p |})
            points
      | _ => []
      end
  | _, _ => []
  end.

(** Stages 2 and 3 of [query]. *)
Definition query_chunks (fs : Fs) (idx : ChunkIndex) (metric : string) (filters : list (string * string))
    (lo hi : Z) : list QueryResponse :=
  flat_map (query_chunk fs idx lo hi)
    (flat_map (λ id, prune_chunks idx id lo hi None) (index_resolve_series idx metric filters)).

(** The [query] handler: everything the stream delivers. *)
Definition query_rpc (sv : StorageServer) (metric : string) (filters : list (string * string))
    (time_start time_end : option Z) : list QueryResponse :=
  let lo := default i64_min time_start in
  let hi := default i64_max time_end in
  query_memtables (memtables sv) metric filters lo hi ++
  query_chunks (files sv) (index sv) metric filters lo hi.

(** The [compact] handler and the compaction task. *)
Definition compact_rpc (sv : StorageServer) (env : nat → MergeEnv) : StorageServer * result CompactionResult :=
  let '(fs, idx, r) := compact_once (compaction_worker sv) (files sv) (index sv) env in
  ({| wals := wals sv; memtables := memtables sv; index := idx; chunk_writer := chunk_writer sv;
      compaction_worker := compaction_worker sv; snapshot_path := snapshot_path sv;
      live_watermarks := live_watermarks sv; persisted_watermarks := persisted_watermarks sv;
      append_seq := append_seq sv; files := fs |}, r).

(** The second half of the [snapshot] handler and of the snapshot task: the index is saved
    with the watermarks read before, and they become the persisted ones. *)
Definition snapshot_save (sv : StorageServer) (watermarks : list Z) (io : io_outcome) (renamed : bool)
    : StorageServer * result string :=
  match save_index (files sv) (index sv) (snapshot_path sv) watermarks io renamed with
  | (fs, r) =>
      ({| wals := wals sv; memtables := memtables sv; index := index sv; chunk_writer := chunk_writer sv;
          compaction_worker := compaction_worker sv; snapshot_path := snapshot_path sv;
          live_watermarks := live_watermarks sv;
          persisted_watermarks :=
            match r with
            | Ok _ => zip_with (λ _ w, w) (persisted_watermarks sv) watermarks
                      ++ drop (length watermarks) (persisted_watermarks sv)
            | Err _ => persisted_watermarks sv
            end;
          append_seq := append_seq sv; files := fs |},
       match r with Ok _ => Ok (snapshot_path sv) | Err e => Err e end)
  end.

(** The [snapshot] handler and the snapshot task. *)
Definition snapshot_rpc (sv : StorageServer) (io : io_outcome) (renamed : bool) : StorageServer * result string :=
  let watermarks := live_watermarks sv in
  snapshot_save sv watermarks io renamed.


(** One tick of the compaction task: the cycle of the handler, an error only logged. *)
Definition compaction_tick (sv : StorageServer) (env : nat → MergeEnv) : StorageServer :=
  match compact_once (compaction_worker sv) (files sv) (index sv) env with
  | (fs, idx, _) =>
      {| wals := wals sv; memtables := memtables sv; index := idx; chunk_writer := chunk_writer sv;
         compaction_worker := compaction_worker sv; snapshot_path := snapshot_path sv;
         live_watermarks := live_watermarks sv; persisted_watermarks := persisted_watermarks sv;
         append_seq := append_seq sv; files := fs |}
  end.

(** One tick of the snapshot task. *)
Definition snapshot_tick (sv : StorageServer) (io : io_outcome) (renamed : bool) : StorageServer :=
  let current_watermarks := live_watermarks sv in
  match save_index (files sv) (index sv) (snapshot_path sv) current_watermarks io renamed with
  | (fs, r) =>
      {| wals := wals sv; memtables := memtables sv; index := index sv; chunk_writer := chunk_writer sv;
         compaction_worker := compaction_worker sv; snapshot_path := snapshot_path sv;
         live_watermarks := live_watermarks sv;
         persisted_watermarks :=
           match r with
           | Err _ => persisted_watermarks sv
           | Ok _ => zip_with (λ _ w, w) (persisted_watermarks sv) current_watermarks
                     ++ drop (length current_watermarks) (persisted_watermarks sv)
           end;
         append_seq := append_seq sv; files := fs |}
  end.

(** The sweep of shard [i], up to releasing the memtable's lock. *)
Definition sweep_begin (sv : StorageServer) (i : nat) : StorageServer * option SeriesData :=
  match memtables sv !! i with
  | None => (sv, None)
  | Some m =>
      if should_flush m
      then let r := drain m in (with_memtables sv (<[i := r.2]> (memtables sv)), Some r.1)
      else (sv, None)
  end.

(** What the environment decides during a flush. *)
Record FlushEnv := {
  fe_now : Z;
  fe_seed : Z;
  fe_io : io_outcome;
  fe_rotated : bool;
  fe_removed : string → bool
}.

(** WAL garbage collection of a task: drain at [gc_seq] and delete the files.  The task
    may rotate a full segment while it serves the message; [rot] tells whether that works. *)
Definition wal_gc (t : WalTask) (gc_seq : Z) (rot : bool) (removed : string → bool) : WalTask :=
  match sender_drain_completed_before t gc_seq rot with
  | (t', Ok paths) => with_dir t' (fold_left (λ d p, if removed p then delete p d else d) paths (dir t'))
  | (t', Err _) => t'
  end.

(** The rest of the sweep: write the chunk, register it, advance the watermark to
    the WAL's current sequence, collect segments below the persisted watermark. *)
Definition sweep_finish (sv : StorageServer) (i : nat) (drained : SeriesData) (env : FlushEnv) : StorageServer :=
  match write (chunk_writer sv) (files sv) drained (fe_now env) (fe_seed env) (fe_io env) with
  | (fs, Err _) =>
      {| wals := wals sv; memtables := memtables sv; index := index sv; chunk_writer := chunk_writer sv;
         compaction_worker := compaction_worker sv; snapshot_path := snapshot_path sv;
         live_watermarks := live_watermarks sv; persisted_watermarks := persisted_watermarks sv;
         append_seq := append_seq sv; files := fs |}
  | (fs, Ok r) =>
      let seq := match wals sv !! i with Some t => sender_current_sequence t | None => 0 end in
      let gc_seq := default 0 (persisted_watermarks sv !! i) in
      {| wals := alter (λ t, wal_gc t gc_seq (fe_rotated env) (fe_removed env)) i (wals sv);
         memtables := memtables sv; index := register_all (index sv) r; chunk_writer := chunk_writer sv;
         compaction_worker := compaction_worker sv; snapshot_path := snapshot_path sv;
         live_watermarks := <[i := seq]> (live_watermarks sv);
         persisted_watermarks := persisted_watermarks sv;
         append_seq := append_seq sv; files := fs |}
  end.

(** One shard of the sweep without interruption. *)
Definition sweep_shard (sv : StorageServer) (i : nat) (env : FlushEnv) : StorageServer :=
  match sweep_begin sv i with
  | (sv1, Some drained) => sweep_finish sv1 i drained env
  | (sv1, None) => sv1
  end.

(** ** Starting *)

(** The recovery chunk of a shard: only when there are points to recover. *)
Definition recovery_chunk (cfg : StorageConfig) (fs : Fs) (idx : ChunkIndex) (points : list DataPoint) (env : FlushEnv)
    : Fs * ChunkIndex * result () :=
  match points with
  | [] => (fs, idx, Ok ())
  | _ =>
      let memtable := insert_all (new (memtable_flush_threshold_bytes cfg)) points in
      match write (chunk_writer_new (cfg_chunk_dir cfg)) fs (drain memtable).1 (fe_now env) (fe_seed env) (fe_io env) with
      | (fs1, Err e) => (fs1, idx, Err e)
      | (fs1, Ok r) => (fs1, register_all idx r, Ok ())
      end
  end.

(** One round of the shard loop of [open]; [rot] tells whether the rotation
    succeeds.  A channel that cannot be created is a panic. *)
Definition open_shard (cfg : StorageConfig) (i : nat) (fs : Fs) (idx : ChunkIndex) (d : Dir) (env : FlushEnv) (rot : bool)
    : Fs * ChunkIndex * result WalTask :=
  let shard_watermark := default 0 (shard_watermarks idx !! i) in
  match recover d shard_watermark with
  | Err e => (fs, idx, Err e)
  | Ok recovery =>
      match recovery_chunk cfg fs idx (rr_points recovery) env with
      | (fs1, idx1, Err e) => (fs1, idx1, Err e)
      | (fs1, idx1, Ok _) =>
          let '(d1, w1) := open d (wal_max_segment_bytes cfg) (last_sequence recovery) in
          let '(d2, w2, rotated) :=
            if 0 <? segments_replayed recovery then rotate d1 w1 rot else (d1, w1, Ok ()) in
          match rotated with
          | Err e => (fs1, idx1, Err e)
          | Ok _ =>
              let drain_threshold :=
                match rr_points recovery with [] => shard_watermark | _ => last_sequence recovery end in
              let '(to_delete, w3) := drain_completed_before w2 drain_threshold in
              let d3 := fold_left (λ d p, if fe_removed env p then delete p d else d) to_delete d2 in
              (fs1, idx1,
               if channel_ok (wal_channel_capacity cfg) then Ok (spawn d3 w3)
               else Err "mpsc bounded channel requires buffer > 0")
          end
      end
  end.

Fixpoint open_shards (cfg : StorageConfig) (i : nat) (fs : Fs) (idx : ChunkIndex) (ds : list Dir)
    (env : nat → FlushEnv) (rot : nat → bool) : Fs * ChunkIndex * result (list WalTask) :=
  match ds with
  | [] => (fs, idx, Ok [])
  | d :: ds' =>
      match open_shard cfg i fs idx d (env i) (rot i) with
      | (fs1, idx1, Err e) => (fs1, idx1, Err e)
      | (fs1, idx1, Ok t) =>
          match open_shards cfg (S i) fs1 idx1 ds' env rot with
          | (fs2, idx2, Err e) => (fs2, idx2, Err e)
          | (fs2, idx2, Ok ts) => (fs2, idx2, Ok (t :: ts))
          end
      end
  end.

(** [StorageServer::open] over the files and the WAL directories of the shards, a
    missing one being empty ([ensure_dirs] creates it); [None] for the worker is the
    constructor's failed assertion. *)
Definition open_server (cfg : StorageConfig) (fs : Fs) (ds : list Dir) (env : nat → FlushEnv) (rot : nat → bool)
    : result StorageServer :=
  loaded ← load_index fs (index_path cfg);
  let idx0 := default index_new loaded in
  let n := Z.to_nat (num_shards cfg) in
  match open_shards cfg 0 fs idx0 (map (λ i, default ∅ (ds !! i)) (seq 0 n)) env rot with
  | (_, _, Err e) => Err e
  | (fs1, idx1, Ok ts) =>
      let writer := chunk_writer_new (cfg_chunk_dir cfg) in
      worker ← ok_or "size_ratio must be >= 1.0"
        (compaction_new writer (compaction_min_threshold cfg) (compaction_size_ratio cfg));
      Ok {| wals := ts;
            memtables := replicate n (new (memtable_flush_threshold_bytes cfg / num_shards cfg));
            index := idx1;
            chunk_writer := writer;
            compaction_worker := worker;
            snapshot_path := index_path cfg;
            live_watermarks := replicate n 0;
            persisted_watermarks := map (λ i, default 0 (shard_watermarks idx1 !! i)) (seq 0 n);
            append_seq := 0;
            files := fs1 |}
  end.

(** What survives a crash, and a restart from it. *)
Definition disk (sv : StorageServer) : Fs * list Dir := (files sv, map dir (wals sv)).
Definition restart (cfg : StorageConfig) (sv : StorageServer) (env : nat → FlushEnv) (rot : nat → bool)
    : result StorageServer :=
  open_server cfg (disk sv).1 (disk sv).2 env rot.

End Server.

(** The background tasks take the steps of the handlers. *)
Lemma ticks_are_rpcs `{XxHash, Crc32, Lz4, BloomFilter, Codec IndexSnapshot} sv env io renamed :
  compaction_tick sv env = (compact_rpc sv env).1 ∧ snapshot_tick sv io renamed = (snapshot_rpc sv io renamed).1.
Proof.
  unfold compaction_tick, compact_rpc, snapshot_tick, snapshot_rpc, snapshot_save. cbv zeta.
  destruct (compact_once _ _ _ _) as [[fs idx] r], (save_index _ _ _ _ _ _) as [fs' [[]|e]]; done.
Qed.

(** ** Visibility of flushed data *)

Section Visibility.
Context `{XxHash, Crc32, Lz4, BloomFilter}.

(** What a flush needs: data of the Rust types that fits the file format, series
    keys that are unambiguous, a fresh chunk id, and no two series with one id. *)
Record flushable (idx : ChunkIndex) (data : SeriesData) (now seed : Z) : Prop := {
  fl_idx : idx_wf idx;
  fl_data : data_wf data;
  fl_values : values_wf data;
  fl_tags : Forall (λ e, bt_wf (sk_tags e.1)) data;
  fl_fits : data_fits data now seed;
  fl_keys : ∀ k pts, (k, pts) ∈ data → key_unambiguous data k;
  fl_fresh : ∀ id t e, (t, e) ∈ time_map idx id → ce_chunk_id e ≠ new_chunk_id now;
  fl_nocoll : ∀ k pts, (k, pts) ∈ data → no_collision idx k;
  fl_ids : ∀ k pts k' pts', (k, pts) ∈ data → (k', pts') ∈ data → series_id k = series_id k' → k = k'
}.

Lemma flushable_chunk_wf idx data now seed : flushable idx data now seed → chunk_data_wf data.
Proof.
  intros F. destruct (fl_data _ _ _ _ F) as [Hb Hall]. split; [done|]. split; [|apply F].
  eapply Forall_impl; [exact Hall|]. by intros e [].
Qed.

Lemma flushable_results w fs idx data now seed io fs' r :
  flushable idx data now seed → write w fs data now seed io = (fs', Ok r) →
  results_ok (new_chunk_id now) (cw_series_results r) ∧ ids_distinct idx (cw_series_results r).
Proof.
  intros F Hw. destruct (write_results_ok _ _ _ _ _ _ _ _ Hw (proj1 (fl_data _ _ _ _ F)) (fl_tags _ _ _ _ F)) as [Hok Ek].
  split; [done|].
  assert (∀ s, s ∈ cw_series_results r → ∃ pts, (sr_series_key s, pts) ∈ data) as Hkey.
  { intros s Hs. assert (sr_series_key s ∈ map fst (non_empty data)) as Hin
      by (rewrite <-Ek; apply elem_of_map; eauto).
    apply elem_of_map in Hin as ([k pts] & -> & [Hin _]%elem_of_filterb). by exists pts. }
  split.
  - intros s Hs. destruct (Hkey s Hs) as (pts & Hin). by eapply (fl_nocoll _ _ _ _ F).
  - intros s s' Hs Hs'. destruct (Hkey s Hs) as (pts & Hin), (Hkey s' Hs') as (pts' & Hin').
    by eapply (fl_ids _ _ _ _ F).
Qed.

(** The record of a stored series. *)
Lemma written_record w fs data now seed io fs' r k pts :
  write w fs data now seed io = (fs', Ok r) → (k, pts) ∈ data → pts ≠ [] →
  ∃ s, s ∈ cw_series_results r ∧ describes (new_chunk_id now) (k, pts) s.
Proof.
  intros Hw Hin Hne. apply write_Ok_inv in Hw as (p & Hp & _ & _ & _ & _ & _ & Er).
  destruct (chunk_of_spec _ _ _ Hp) as (Hf & _).
  pose proof (pass2_describes (new_chunk_id now) (col_base p) _ _ Hf) as Hd. rewrite <-Er in Hd.
  assert ((k, pts) ∈ non_empty data) as Hin' by (apply elem_of_non_empty; done).
  apply list_elem_of_lookup in Hin' as (i & Hi).
  destruct (Forall2_lookup_l _ _ _ _ _ Hd Hi) as (s & Hs & Hds). exists s. split; [|done].
  by eapply list_elem_of_lookup_2.
Qed.

(** The index after a flush satisfies its invariant. *)
Lemma flush_index_wf w fs idx data now seed io fs' r :
  flushable idx data now seed → write w fs data now seed io = (fs', Ok r) → idx_wf (register_all idx r).
Proof.
  intros F Hw. destruct (flushable_results _ _ _ _ _ _ _ _ _ F Hw) as [Hok Hids].
  eapply (register_list_wf idx (cw_chunk_meta r)); [apply F|done|done|].
  intros s t e _. apply (fl_fresh _ _ _ _ F).
Qed.

Context `{!Crc32Laws, !Lz4Laws, !BloomLaws}.

(** Every point of the flushed data is found through the index and the chunk file. *)
Lemma flush_visible w fs idx data now seed io fs' r k pts ts v metric filters lo hi :
  flushable idx data now seed → write w fs data now seed io = (fs', Ok r) →
  (k, pts) ∈ data → (ts, v) ∈ pts → lo <= ts <= hi →
  sk_metric_name k = metric → Forall (λ f, bt_get (sk_tags k) f.1 = Some f.2) filters →
  {| qr_series_id := series_id k; qr_timestamp_ns := ts; qr_value := v |}
    ∈ query_chunks fs' (register_all idx r) metric filters lo hi.
Proof.
  intros F Hw Hin Hp Hr Hm Hf. pose proof (flushable_chunk_wf _ _ _ _ F) as Hcw.
  destruct (flushable_results _ _ _ _ _ _ _ _ _ F Hw) as [Hok Hids].
  assert (pts ≠ []) as Hne by (intros ->; by apply elem_of_nil in Hp).
  destruct (written_record _ _ _ _ _ _ _ _ _ _ Hw Hin Hne) as (s & Hs & Ek & Ec & Eid & Est & Een & Estats).
  cbn [fst snd] in Ek, Eid, Est, Een.
  destruct (register_list_entry idx (cw_chunk_meta r) _ _ s (fl_idx _ _ _ _ F) Hok Hids Hs) as [Hreg Htm].
  { intros s' t e _. apply (fl_fresh _ _ _ _ F). }
  assert (chunk_files (register_all idx r) !! ce_chunk_id (sr_entry s) = Some (cw_chunk_meta r)) as Hfile.
  { apply register_list_file; [done|]. eapply Forall_impl; [apply Hok|]. cbn. intros s' (_ & _ & ->). done. }
  rewrite Ek in Hreg, Htm. unfold query_chunks. apply elem_of_flat_map. exists (sr_entry s). split.
  - apply elem_of_flat_map. exists (series_id k). split.
    + apply elem_of_index_resolve; [by eapply flush_index_wf|]. exists k. split; [exact Hreg|done].
    + apply elem_of_prune. exists (ce_time_start_ns (sr_entry s)). split; [exact Htm|].
      destruct (chunk_data_entry _ _ _ Hcw Hin) as (Hsort & _).
      destruct (sorted_hd_last pts (ts, v) Hsort Hp) as [Hlo Hhi]. cbn in Hlo, Hhi. rewrite Est, Een.
      split; [lia|]. split; [lia|done].
  - unfold query_chunk. rewrite Eid. fold (register_all idx r) in Hreg. rewrite Hfile.
    change (register_list idx (cw_chunk_meta r) (cw_series_results r)) with (register_all idx r) in Hreg.
    rewrite Hreg.
    destruct (write_then_read_series _ _ _ _ _ _ _ _ k lo hi Hw Hcw (fl_fits _ _ _ _ F)
      (fl_keys _ _ _ _ F _ _ Hin)) as (res & -> & Eres).
    assert (series_vec data k = pts) as Ev.
    { unfold series_vec. by rewrite (bt_In_get data k pts) by (done || apply F). }
    assert (to_point k (ts, v) ∈ default [] res) as Hres.
    { rewrite Eres, Ev. apply elem_of_map. exists (ts, v). split; [done|]. apply elem_of_filterb.
      split; [done|]. unfold in_time_range. cbn. lia. }
    destruct res as [points|]; cbn in Hres; [|by apply elem_of_nil in Hres].
    apply elem_of_map. exists (to_point k (ts, v)). done.
Qed.

End Visibility.

(** ** Routing *)

Section Routing.
Context `{XxHash, UnstableSort}.

Definition sorted_pairs (l : list (Z * nat)) : Prop := StronglySorted (λ a b : Z * nat, a.1 <= b.1) l.

(** On sorted pairs that start at [shard], the run is everything of that shard. *)
Lemma leading_run_spec shard l :
  sorted_pairs l → Forall (λ e, shard <= e.1) l →
  leading_run shard l = List.filter (λ e, e.1 =? shard) l ∧
  drop (length (leading_run shard l)) l = List.filter (λ e, negb (e.1 =? shard)) l.
Proof.
  induction 1 as [|e l Hs IH Hall]; intros Hge; [done|]. apply Forall_cons in Hge as [He Hge]. cbn.
  destruct (e.1 =? shard) eqn:E; zbool; cbn [negb].
  - destruct (IH Hge) as [<- <-]. done.
  - assert (Forall (λ x : Z * nat, x.1 =? shard = false) l) as Hn.
    { eapply Forall_impl; [exact Hall|]. cbn. lia. }
    clear -Hn. cbn. assert (List.filter (λ e, e.1 =? shard) l = [] ∧ List.filter (λ e, negb (e.1 =? shard)) l = l) as [-> ->].
    { induction Hn as [|x l Hx Hl [IH1 IH2]]; [done|]. cbn. rewrite Hx. cbn. by rewrite IH1, IH2. }
    done.
Qed.

Definition pick (pts : list DataPoint) (l : list (Z * nat)) : list DataPoint := omap (λ e, pts !! e.2) l.

(** The groups: one per shard that occurs, with the pairs of that shard in order. *)
Lemma shard_groups_spec fuel pts l :
  (length l ≤ fuel)%nat → sorted_pairs l →
  (∀ g, g ∈ shard_groups fuel pts l →
     g.2 = pick pts (List.filter (λ e, e.1 =? g.1) l) ∧ ∃ e, e ∈ l ∧ e.1 = g.1) ∧
  (∀ e, e ∈ l → e.1 ∈ map fst (shard_groups fuel pts l)) ∧
  NoDup (map fst (shard_groups fuel pts l)).
Proof.
  revert l. induction fuel as [|fuel IH]; intros l Hl Hs.
  - destruct l; [|simpl in Hl; lia]. cbn. split_and!; [by intros g ?%elem_of_nil|by intros e ?%elem_of_nil|constructor].
  - destruct l as [|[shard i] l].
    { cbn. split_and!; [by intros g ?%elem_of_nil|by intros e ?%elem_of_nil|constructor]. }
    set (l0 := (shard, i) :: l) in *. cbn [shard_groups].
    assert (Forall (λ e : Z * nat, shard <= e.1) l0) as Hge.
    { inversion Hs as [|? ? _ Hall]; subst. constructor; [done|]. exact Hall. }
    destruct (leading_run_spec shard l0 Hs Hge) as [Erun Erest].
    set (rest := List.filter (λ e, negb (e.1 =? shard)) l0) in *.
    assert (length rest ≤ fuel)%nat as Hlen.
    { rewrite <-Erest, length_drop. unfold l0 in *. cbn in *. rewrite Z.eqb_refl. cbn. lia. }
    destruct (IH rest Hlen (StronglySorted_filterb _ _ _ Hs)) as (Hg & He & Hnd).
    change (match l0 with [] => [] | _ => _ end) with
      ((shard, pick pts (leading_run shard l0)) :: shard_groups fuel pts (drop (length (leading_run shard l0)) l0)).
    rewrite Erest, Erun. split_and!.
    + intros g [->|Hin]%elem_of_cons.
      * split; [done|]. exists (shard, i). split; [left|done].
      * destruct (Hg g Hin) as [Eg (e & Hein & Ee)]. apply elem_of_filterb in Hein as [Hein Hne].
        split; [|by exists e]. rewrite Eg. f_equal. unfold rest.
        assert (g.1 ≠ shard) as Hgs by (apply negb_true_iff, Z.eqb_neq in Hne; lia).
        clear -Hgs. induction l0 as [|x l0 IHl]; [done|]. cbn. destruct (x.1 =? shard) eqn:E; cbn [negb].
        -- zbool. replace (x.1 =? g.1) with false by lia. done.
        -- cbn. destruct (x.1 =? g.1); by rewrite IHl.
    + intros e Hin. cbn [map fst]. apply elem_of_cons. destruct (decide (e.1 = shard)) as [->|Hne]; [by left|right].
      apply He, elem_of_filterb. split; [done|]. apply negb_true_iff, Z.eqb_neq. done.
    + cbn [map fst]. constructor; [|done]. intros (g & Eg & Hin)%elem_of_map.
      destruct (Hg g Hin) as [_ (e & [_ Hne]%elem_of_filterb & Ee)]. apply negb_true_iff, Z.eqb_neq in Hne. lia.
Qed.

(** The pairs of a shard pick the points of the shard. *)
Lemma pick_imap (f : DataPoint → Z) (pts suf : list DataPoint) s k :
  (∀ i, pts !! (k + i)%nat = suf !! i) →
  pick pts (List.filter (λ e, e.1 =? s) (imap (λ i p, (f p, (k + i)%nat)) suf)) =
  List.filter (λ p, f p =? s) suf.
Proof.
  revert k. induction suf as [|p suf IH]; intros k Hk; [done|].
  assert (pick pts (List.filter (λ e, e.1 =? s) (imap (λ i p0, (f p0, (S k + i)%nat)) suf)) =
    List.filter (λ p0, f p0 =? s) suf) as E.
  { apply IH. intros i. replace (S k + i)%nat with (k + S i)%nat by lia. exact (Hk (S i)). }
  rewrite imap_cons. cbn [List.filter fst].
  assert (imap ((λ i p0, (f p0, (k + i)%nat)) ∘ S) suf = imap (λ i p0, (f p0, (S k + i)%nat)) suf) as ->.
  { apply imap_ext. intros i x _. cbn. f_equal. lia. }
  destruct (f p =? s); [|exact E]. rewrite <-E. unfold pick. cbn [omap list_omap snd].
  by rewrite (Hk O).
Qed.

Lemma filterb_perm {A} (f : A → bool) l k : Permutation l k → Permutation (List.filter f l) (List.filter f k).
Proof.
  induction 1 as [|x l k Hp IH|x y l|l k m _ IH1 _ IH2]; cbn; [done| | |by etrans].
  - destruct (f x); [by constructor|done].
  - destruct (f x), (f y); try done. constructor.
Qed.

Context `{!UnstableSortLaws}.

(** Routing sends every point to the group of its shard, and nothing else. *)
Lemma route_spec shards pts :
  (∀ g, g ∈ route shards pts →
     Permutation g.2 (List.filter (λ p, shard_index p shards =? g.1) pts) ∧ g.2 ≠ []) ∧
  (∀ p, p ∈ pts → shard_index p shards ∈ map fst (route shards pts)) ∧
  NoDup (map fst (route shards pts)).
Proof.
  unfold route. set (raw := imap _ pts). destruct (sort_unstable_spec raw) as [Hp Hs].
  destruct (shard_groups_spec (length (sort_unstable_by_shard raw)) pts (sort_unstable_by_shard raw) ltac:(done) Hs)
    as (Hg & He & Hnd). split_and!; [|..|done].
  - intros g Hin. destruct (Hg g Hin) as [-> (e & Hein & Ee)].
    assert (Permutation (pick pts (List.filter (λ e, e.1 =? g.1) (sort_unstable_by_shard raw)))
      (List.filter (λ p, shard_index p shards =? g.1) pts)) as Hperm.
    { rewrite <-(pick_imap (λ p, shard_index p shards) pts pts g.1 0) by done.
      unfold pick. apply omap_Permutation, filterb_perm. exact Hp. }
    split; [done|]. intros E. rewrite E in Hperm. apply Permutation_nil_l in Hperm.
    rewrite Hp in Hein. apply elem_of_lookup_imap_1 in Hein as (i & p & -> & Hi). cbn in Ee.
    assert (p ∈ List.filter (λ p, shard_index p shards =? g.1) pts) as Hpin.
    { apply elem_of_filterb. split; [by eapply list_elem_of_lookup_2|lia]. }
    rewrite <-Hperm in Hpin. by apply elem_of_nil in Hpin.
  - intros p Hin. apply list_elem_of_lookup in Hin as (i & Hi).
    apply (He (shard_index p shards, i)). rewrite Hp. by apply (elem_of_lookup_imap_2 (λ i p, (shard_index p shards, i))).
Qed.

End Routing.

(** ** Appending *)

Section Appending.
Context `{XxHash, Crc32, Lz4, BloomFilter, Codec WalEntry, Codec IndexSnapshot, UnstableSort}.

(** The points the groups hold for a shard. *)
Definition group_points (gs : list (Z * list DataPoint)) (j : nat) : list DataPoint :=
  flat_map (λ g, if decide (Z.to_nat g.1 = j) then g.2 else []) gs.

Lemma insert_groups_lookup ms gs j :
  insert_groups ms gs !! j = (λ m, insert_all m (group_points gs j)) <$> ms !! j.
Proof.
  revert ms. induction gs as [|g gs IH]; intros ms; cbn [insert_groups fold_left group_points flat_map].
  - destruct (ms !! j); done.
  - unfold insert_groups in *. cbn [fold_left]. rewrite IH. fold (group_points gs j).
    destruct (decide (Z.to_nat g.1 = j)) as [<-|Hne].
    + rewrite list_lookup_alter_eq. destruct (ms !! Z.to_nat g.1); cbn; [|done].
      unfold insert_all. by rewrite fold_left_app.
    + by rewrite list_lookup_alter_ne.
Qed.

(** The task of a shard after its group, if it has one. *)
Definition appended_task (t : WalTask) (pts : list DataPoint) (io : io_outcome) (rot : bool) : WalTask :=
  match pts with [] => t | _ => (process_batch t [Append pts 0] io rot true).1 end.

Lemma group_points_none gs j :
  Forall (λ g, 0 <= g.1) gs → Z.of_nat j ∉ map fst gs → group_points gs j = [].
Proof.
  induction 1 as [|g gs Hg Hgs IH]; intros Hn; [done|]. cbn in *. apply not_elem_of_cons in Hn as [Hne Hn].
  rewrite decide_False by lia. by apply IH.
Qed.

Definition seq_room (t : WalTask) : Prop :=
  in_u64 (current_seq (writer t)) ∧ current_seq (writer t) + 1 < u64_mod.

(** A group's reply is [Ok] exactly when its write succeeded. *)
Lemma append_one_ack t pts io rot :
  seq_room t →
  (match append_acks (process_batch t [Append pts 0] io rot true).2 with
   | (_, x) :: _ => x | [] => Err "WAL task dropped reply" end) =
  match io with IoOk => Ok (current_seq (writer t) + 1) | IoErr _ => Err "write failed" end.
Proof.
  intros [H64 Hb]. rewrite process_batch_acks; [|done|exact Hb]. cbn [appends map snd]. by destruct io.
Qed.

Lemma wal_append_all_spec ws gs io rot :
  NoDup (map fst gs) → Forall (λ g, 0 <= g.1 < Z.of_nat (length ws)) gs → Forall (λ g, g.2 ≠ []) gs →
  (∀ g t, g ∈ gs → ws !! Z.to_nat g.1 = Some t → seq_room t) →
  let r := wal_append_all ws gs io rot in
  length r.1 = length ws ∧
  (∀ j t, ws !! j = Some t →
     r.1 !! j = Some (appended_task t (group_points gs j) (io (Z.of_nat j)) (rot (Z.of_nat j)))) ∧
  (is_ok (collect r.2) = true → Forall (λ g, io g.1 = IoOk) gs).
Proof.
  intros Hnd Hr Hne Hroom. cbn. revert ws Hr Hroom. induction gs as [|g gs IH]; intros ws Hr Hroom.
  - cbn. split; [done|]. split; [done|constructor].
  - cbn [wal_append_all]. cbn in Hnd. apply NoDup_cons in Hnd as [Hn Hnd]. apply Forall_cons in Hr as [Hg Hr].
    apply Forall_cons in Hne as [Hgne Hne].
    destruct (lookup_lt_is_Some_2 ws (Z.to_nat g.1)) as [t Ht]; [lia|].
    unfold wal_append_one, sender_append. rewrite Ht. cbn [fst snd]. rewrite append_one_ack by (eapply Hroom; [left|done]).
    set (t' := (process_batch t [Append g.2 0] (io g.1) (rot g.1) true).1).
    destruct (IH Hnd Hne (<[Z.to_nat g.1 := t']> ws)) as (Hl & Hj & Hok).
    + by rewrite length_insert.
    + intros g' t0 Hg' Hl. apply (Hroom g'); [by right|]. rewrite list_lookup_insert_ne in Hl; [done|].
      rewrite Forall_forall in Hr. specialize (Hr g' Hg').
      intros E. apply Hn, elem_of_map. exists g'. split; [lia|done].
    + rewrite Hl, length_insert. split; [done|]. split.
      * intros j t0 Hj0. destruct (decide (Z.to_nat g.1 = j)) as [<-|Hne'].
        -- rewrite Ht in Hj0. injection Hj0 as <-.
           rewrite (Hj (Z.to_nat g.1) t') by (apply list_lookup_insert_eq; lia).
           assert (group_points gs (Z.to_nat g.1) = []) as Eg.
           { apply group_points_none; [eapply Forall_impl; [exact Hr|]; cbn; lia|]. rewrite Z2Nat.id by lia. done. }
           cbn [group_points flat_map]. rewrite decide_True by done. fold (group_points gs (Z.to_nat g.1)).
           rewrite Eg, app_nil_r, Z2Nat.id by lia. cbn [appended_task]. unfold appended_task. by destruct g.2.
        -- rewrite (Hj j t0) by (by rewrite list_lookup_insert_ne). cbn [group_points flat_map].
           by rewrite decide_False.
      * cbn [collect]. destruct (io g.1) eqn:E; [|done].
        destruct (collect _) eqn:Ec; [|done]. intros _. constructor; [done|by apply Hok].
Qed.

(** A request is routed to existing shards. *)
Definition server_wf (sv : StorageServer) : Prop :=
  (∃ k, 0 <= k < 64 ∧ len (memtables sv) = 2 ^ k) ∧ length (wals sv) = length (memtables sv) ∧
  Forall mt_wf (memtables sv) ∧ Forall seq_room (wals sv).

Definition points_of_shard (sv : StorageServer) (request : list RequestPoint) (j : nat) : list DataPoint :=
  List.filter (λ p, shard_index p (len (memtables sv)) =? Z.of_nat j) (map decode_point request).

Context `{!XxHashLaws, !UnstableSortLaws}.

Lemma route_shards sv pts :
  server_wf sv →
  let gs := route (len (memtables sv)) pts in
  NoDup (map fst gs) ∧ Forall (λ g, 0 <= g.1 < Z.of_nat (length (wals sv))) gs ∧ Forall (λ g, g.2 ≠ []) gs ∧
  ∀ j, Permutation (group_points gs j)
         (List.filter (λ p, shard_index p (len (memtables sv)) =? Z.of_nat j) pts).
Proof.
  intros ((k & Hk & En) & El & _) gs. destruct (route_spec (len (memtables sv)) pts) as (Hg & Hp & Hnd).
  fold gs in Hg, Hp, Hnd.
  assert (∀ g, g ∈ gs → 0 <= g.1 < Z.of_nat (length (wals sv))) as Hrange.
  { intros g Hin. destruct (Hg g Hin) as [Hperm Hne]. rewrite El. fold (len (memtables sv)).
    destruct g.2 as [|p ps] eqn:E; [done|].
    assert (p ∈ List.filter (λ p, shard_index p (len (memtables sv)) =? g.1) pts) as Hpin
      by (rewrite <-Hperm; left).
    apply elem_of_filterb in Hpin as [_ Hi]. zbool. rewrite <-Hi, En, shard_index_mod by done.
    apply Z.mod_pos_bound, Z.pow_pos_nonneg; lia. }
  split; [done|]. split; [by apply Forall_forall|]. split; [apply Forall_forall; intros g Hin; by apply Hg|].
  intros j. destruct (decide (Z.of_nat j ∈ map fst gs)) as [Hin|Hn].
  - apply elem_of_map in Hin as (g & Ej & Hin). rewrite Ej. destruct (Hg g Hin) as [<- _].
    assert (group_points gs j = g.2) as ->; [|done].
    clear -Hnd Hin Ej Hrange. induction gs as [|g' gs IH]; [by apply elem_of_nil in Hin|]. cbn in Hnd.
    apply NoDup_cons in Hnd as [Hn Hnd].
    assert (0 <= g'.1) by (destruct (Hrange g' ltac:(left)); lia).
    assert (Forall (λ g, 0 <= g.1) gs) as Hpos.
    { apply Forall_forall. intros x Hx. destruct (Hrange x ltac:(by right)). lia. }
    cbn [group_points flat_map]. apply elem_of_cons in Hin as [->|Hin].
    + rewrite decide_True by lia. fold (group_points gs j).
      rewrite group_points_none, app_nil_r; [done|done|]. by rewrite Ej.
    + rewrite decide_False; [apply IH; try done; intros x Hx; apply Hrange; by right|].
      intros E. apply Hn, elem_of_map. exists g. split; [lia|done].
  - rewrite group_points_none; [|apply Forall_forall; intros g Hg'; destruct (Hrange g Hg'); lia|done].
    assert (List.filter (λ p, shard_index p (len (memtables sv)) =? Z.of_nat j) pts = []) as ->; [|done].
    destruct (List.filter _ pts) as [|p ps] eqn:E; [done|]. exfalso. apply Hn.
    assert (p ∈ List.filter (λ p, shard_index p (len (memtables sv)) =? Z.of_nat j) pts) as Hpin
      by (rewrite E; left).
    apply elem_of_filterb in Hpin as [Hpin Hi]. zbool. rewrite <-Hi. by apply Hp.
Qed.

Lemma group_points_In gs j p : p ∈ group_points gs j → ∃ g, g ∈ gs ∧ Z.to_nat g.1 = j.
Proof.
  intros (g & Hg & Hp)%elem_of_flat_map. exists g. split; [done|]. by case_decide; [|apply elem_of_nil in Hp].
Qed.

(** What a handler call does to every shard. *)
Lemma append_rpc_spec sv request io rot sv' res :
  server_wf sv → append_rpc sv request io rot = (sv', res) →
  match res with
  | Ok seq => seq = wrap_u64 (append_seq sv + 1)
  | Err _ => memtables sv' = memtables sv
  end ∧
  ∀ j m t, memtables sv !! j = Some m → wals sv !! j = Some t →
    ∃ batch, Permutation batch (points_of_shard sv request j) ∧
      match res with
      | Ok _ => memtables sv' !! j = Some (insert_all m batch) ∧
                wals sv' !! j = Some (appended_task t batch IoOk (rot (Z.of_nat j)))
      | Err _ => wals sv' !! j = Some (appended_task t batch (io (Z.of_nat j)) (rot (Z.of_nat j)))
      end.
Proof.
  intros Hwf Ha. unfold append_rpc in Ha. set (gs := route _ _) in Ha.
  destruct (route_shards sv (map decode_point request) Hwf) as (Hnd & Hr & Hne & Hperm). fold gs in Hnd, Hr, Hne, Hperm.
  destruct Hwf as (_ & _ & _ & Hroom). rewrite Forall_lookup in Hroom.
  destruct (wal_append_all_spec (wals sv) gs io rot Hnd Hr Hne) as (_ & Hj & Hok).
  { intros g t _. apply Hroom. }
  destruct (wal_append_all (wals sv) gs io rot) as [ws results]. cbn [fst snd] in *.
  destruct (collect results) as [seqs|e]; injection Ha as <- <-; cbn; (split; [done|]);
    intros j m t Hm Ht; exists (group_points gs j); (split; [apply Hperm|]).
  - rewrite insert_groups_lookup, Hm. split; [done|]. rewrite (Hj j t Ht). f_equal.
    destruct (group_points gs j) as [|p ps] eqn:E; [done|].
    destruct (group_points_In gs j p) as (g & Hg & Eg); [rewrite E; left|].
    specialize (Hok eq_refl). rewrite Forall_forall in Hok, Hr. rewrite <-(Hok g Hg).
    destruct (Hr g Hg). by replace (Z.of_nat j) with g.1 by lia.
  - by apply Hj.
Qed.

(** A stored cell is answered by the memtable stage. *)
Lemma memtable_visible ms j m key ts v metric filters lo hi :
  ms !! j = Some m → mt_wf m → mt_lookup m key ts = Some v → lo <= ts <= hi →
  sk_metric_name key = metric → Forall (λ f, bt_get (sk_tags key) f.1 = Some f.2) filters →
  {| qr_series_id := series_id key; qr_timestamp_ns := ts; qr_value := v |}
    ∈ query_memtables ms metric filters lo hi.
Proof.
  intros Hm (Hd & _) Hl Hr Hmet Hf. unfold query_memtables. apply elem_of_flat_map. exists m.
  split; [by eapply list_elem_of_lookup_2|]. apply elem_of_flat_map. exists key. split.
  - apply elem_of_resolve_series; [apply Hd|]. split; [|done]. unfold contains_key.
    unfold mt_lookup, data_lookup in Hl. by destruct (bt_get (entries m) key).
  - apply elem_of_map. exists (to_point key (ts, v)). split; [done|].
    apply elem_of_read_series; [done|]. cbn. by destruct key.
Qed.

Lemma last_write_In ps p : p ∈ ps → is_Some (last_write ps (point_key p) (timestamp_ns p)).
Proof.
  induction ps as [|q ps IH]; [by intros ?%elem_of_nil|]. rewrite last_write_cons.
  intros [->|Hin]%elem_of_cons.
  - destruct (last_write ps _ _); [done|]. rewrite decide_True by done. done.
  - destruct (IH Hin) as [v ->]. done.
Qed.

(** An acknowledged point is visible, unless the request itself overwrites it. *)
Lemma append_visible sv request io rot sv' seq p filters lo hi :
  server_wf sv → append_rpc sv request io rot = (sv', Ok seq) → p ∈ map decode_point request →
  (∀ q, q ∈ map decode_point request → point_key q = point_key p → timestamp_ns q = timestamp_ns p →
        value q = value p) →
  Forall (λ f, bt_get (tags p) f.1 = Some f.2) filters →
  default i64_min lo <= timestamp_ns p <= default i64_max hi →
  {| qr_series_id := series_id (point_key p); qr_timestamp_ns := timestamp_ns p; qr_value := value p |}
    ∈ query_rpc sv' (metric_name p) filters lo hi.
Proof.
  intros Hwf Ha Hp Huniq Hf Hr. destruct (append_rpc_spec _ _ _ _ _ _ Hwf Ha) as [_ Hj].
  pose proof Hwf as ((k & Hk & En) & El & Hmts & _).
  assert (0 <= shard_index p (len (memtables sv)) < len (memtables sv)) as Hs.
  { rewrite En, shard_index_mod by done. apply Z.mod_pos_bound, Z.pow_pos_nonneg; lia. }
  set (j := Z.to_nat (shard_index p (len (memtables sv)))).
  destruct (lookup_lt_is_Some_2 (memtables sv) j) as [m Hm]; [unfold j, len in *; lia|].
  destruct (lookup_lt_is_Some_2 (wals sv) j) as [t Ht]; [unfold j, len in *; lia|].
  destruct (Hj j m t Hm Ht) as (batch & Hperm & Hm' & _).
  rewrite Forall_lookup in Hmts. pose proof (Hmts j m Hm) as Hmwf.
  unfold query_rpc. apply elem_of_app. left.
  apply (memtable_visible _ j (insert_all m batch)); try done; [by apply insert_all_wf|].
  rewrite mt_lookup_insert_all by done.
  assert (p ∈ batch) as Hpb.
  { rewrite Hperm. apply elem_of_filterb. split; [done|]. apply Z.eqb_eq. unfold j. rewrite Z2Nat.id by apply Hs. done. }
  destruct (last_write_In batch p Hpb) as [v Hv]. rewrite Hv. f_equal.
  apply last_write_Some_In in Hv as (q & Hq & Ek & Et & <-). apply Huniq; [|done..].
  rewrite Hperm in Hq. by apply elem_of_filterb in Hq as [? _].
Qed.

(** What an acknowledged group adds to the log of its shard. *)
Lemma points_of_group wm seq batch :
  wm <= seq → seq + 1 < u64_mod → 0 <= seq → points_of (above wm (number seq [(batch, O)])) = batch.
Proof.
  intros Hwm Hb Hpos. cbn [number]. rewrite wrap_u64_id by (split; lia). unfold above. cbn [List.filter wal_entry sequence].
  replace (wm <? seq + 1) with true by lia. unfold points_of. cbn. rewrite app_nil_r, map_map.
  rewrite <-(map_id batch) at 2. apply map_ext. intros p. by destruct p.
Qed.

Lemma appended_task_recovers `{!Crc32Laws, !CodecLaws WalEntry entry_wf} sys batch wm :
  sys_inv sys → batch_ok (writer (task sys)) [Append batch 0] → 0 <= wm → gc_seq sys <= wm <= current_seq (writer (task sys)) →
  seq_room (task sys) →
  ∃ r, recover (dir (appended_task (task sys) batch IoOk true)) wm = Ok r ∧
       rr_points r = points_of (above wm (acked sys)) ++ batch.
Proof.
  intros Hinv Hb Hw0 Hwm [H64 Hroom]. destruct batch as [|p ps] eqn:E.
  - destruct Hinv as (older & cur & Hl & _ & Ha & _). eexists. split; [apply recover_ok, Hl|].
    cbn [rr_points recovered]. by rewrite app_nil_r, (above_mono _ wm _ _ (proj1 Hwm) Ha).
  - rewrite <-E in *. assert (appended_task (task sys) batch IoOk true = task (after_batch sys [Append batch 0])) as ->
      by (subst batch; done).
    destruct (sys_inv_batch _ _ Hinv Hb) as (older & cur & Hl & _ & Ha & _).
    eexists. split; [apply recover_ok, Hl|]. cbn [rr_points recovered].
    assert (gc_seq (after_batch sys [Append batch 0]) <= wm) as Hg.
    { cbn [gc_seq after_batch]. change (batch_gc [Append batch 0]) with 0.  lia. }
    rewrite (above_mono _ wm _ _ Hg Ha). cbn [acked after_batch]. rewrite above_app, points_of_app. f_equal.
    apply points_of_group; [lia|done|apply H64].
Qed.

End Appending.

(** ** Flushing and restarting *)

Section Flushing.
Context `{XxHash, Crc32, Lz4, BloomFilter, Codec WalEntry, Codec IndexSnapshot, UnstableSort}.
Context `{!Crc32Laws, !Lz4Laws, !BloomLaws}.

(** A write to a fresh path with working I/O succeeds. *)
Lemma write_succeeds w fs data now seed :
  data ≠ [] → fs !! chunk_path w (new_chunk_id now) = None →
  ∃ fs' r, write w fs data now seed IoOk = (fs', Ok r).
Proof.
  intros Hne Hf. destruct (write_cases w fs data now seed IoOk Hne) as (p & _ & ->). cbv zeta.
  rewrite Hf. by eexists _, _.
Qed.

Lemma mt_lookup_In m key ts v :
  mt_lookup m key ts = Some v → ∃ pts, (key, pts) ∈ entries m ∧ (ts, v) ∈ pts.
Proof.
  unfold mt_lookup, data_lookup. destruct (bt_get (entries m) key) as [pts|] eqn:E; [|done]. cbn. intros Hv.
  exists pts. split; by apply bt_get_Some_In.
Qed.

(** A memtable that is written as a chunk can be read back cell by cell. *)
Lemma flush_memtable w fs idx m now seed :
  flushable idx (entries m) now seed → entries m ≠ [] → fs !! chunk_path w (new_chunk_id now) = None →
  ∃ fs' r, write w fs (entries m) now seed IoOk = (fs', Ok r) ∧ idx_wf (register_all idx r) ∧
    ∀ key ts v filters lo hi,
      mt_lookup m key ts = Some v → lo <= ts <= hi → Forall (λ f, bt_get (sk_tags key) f.1 = Some f.2) filters →
      {| qr_series_id := series_id key; qr_timestamp_ns := ts; qr_value := v |}
        ∈ query_chunks fs' (register_all idx r) (sk_metric_name key) filters lo hi.
Proof.
  intros F Hne Hf. destruct (write_succeeds w fs (entries m) now seed Hne Hf) as (fs' & r & Hw).
  exists fs', r. split; [done|]. split; [by eapply flush_index_wf|].
  intros key ts v filters lo hi Hl Hr Hfl. apply mt_lookup_In in Hl as (pts & Hin & Hp).
  by eapply flush_visible.
Qed.

(** The sweep of a full shard moves its cells into a chunk that queries see. *)
Lemma sweep_visible sv i m env :
  memtables sv !! i = Some m → should_flush m = true → entries m ≠ [] →
  flushable (index sv) (entries m) (fe_now env) (fe_seed env) →
  files sv !! chunk_path (chunk_writer sv) (new_chunk_id (fe_now env)) = None → fe_io env = IoOk →
  let sv' := sweep_shard sv i env in
  (∃ m', memtables sv' = <[i := m']> (memtables sv) ∧ entries m' = [] ∧ mt_size_bytes m' = 0 ∧ mt_entry_count m' = 0 ∧
     flush_threshold m' = flush_threshold m) ∧ idx_wf (index sv') ∧
  live_watermarks sv' =
    <[i := match wals sv !! i with Some t => sender_current_sequence t | None => 0 end]> (live_watermarks sv) ∧
  ∀ key ts v filters lo hi,
    mt_lookup m key ts = Some v → default i64_min lo <= ts <= default i64_max hi →
    Forall (λ f, bt_get (sk_tags key) f.1 = Some f.2) filters →
    let answer := {| qr_series_id := series_id key; qr_timestamp_ns := ts; qr_value := v |} in
    answer ∈ query_chunks (files sv') (index sv') (sk_metric_name key) filters (default i64_min lo) (default i64_max hi) ∧
    answer ∈ query_rpc sv' (sk_metric_name key) filters lo hi.
Proof.
  intros Hm Hs Hne F Hf Hio. cbv zeta. unfold sweep_shard, sweep_begin. rewrite Hm, Hs. cbv zeta.
  unfold sweep_finish. cbn [drain fst snd with_memtables chunk_writer files index wals live_watermarks].
  destruct (flush_memtable (chunk_writer sv) (files sv) (index sv) m (fe_now env) (fe_seed env) F Hne Hf)
    as (fs' & r & Hw & Hidx & Hvis).
  rewrite Hio, Hw. cbn [memtables index live_watermarks]. split_and!; [by eexists|done..|].
  intros key ts v filters lo hi Hl Hr Hfl. cbv zeta. specialize (Hvis key ts v filters _ _ Hl Hr Hfl).
  split; [exact Hvis|]. unfold query_rpc. apply elem_of_app. by right.
Qed.

Context `{!CodecLaws WalEntry entry_wf}.

Lemma insert_all_ne t ps : ps ≠ [] → entries (insert_all (new t) ps) ≠ [].
Proof.
  destruct ps as [|p ps]; [done|]. intros _ E.
  destruct (last_write_In (p :: ps) p ltac:(left)) as [v Hv].
  pose proof (mt_lookup_insert_all (new t) (p :: ps) (point_key p) (timestamp_ns p) (new_wf t)) as El.
  rewrite Hv in El. unfold mt_lookup in El. by rewrite E in El.
Qed.

(** Opening a shard replays its log into a chunk that queries see. *)
Lemma open_shard_visible cfg i fs idx d segs env :
  let wm := default 0 (shard_watermarks idx !! i) in
  let points := points_of (above wm (log_of segs)) in
  let m := insert_all (new (memtable_flush_threshold_bytes cfg)) points in
  dir_holds d segs → points ≠ [] → channel_ok (wal_channel_capacity cfg) = true →
  flushable idx (entries m) (fe_now env) (fe_seed env) →
  fs !! chunk_path (chunk_writer_new (cfg_chunk_dir cfg)) (new_chunk_id (fe_now env)) = None → fe_io env = IoOk →
  ∃ fs' idx' t, open_shard cfg i fs idx d env true = (fs', idx', Ok t) ∧ idx_wf idx' ∧
    sender_current_sequence t = last_sequence (recovered segs wm) ∧
    ∀ key ts v filters lo hi,
      last_write points key ts = Some v → lo <= ts <= hi →
      Forall (λ f, bt_get (sk_tags key) f.1 = Some f.2) filters →
      {| qr_series_id := series_id key; qr_timestamp_ns := ts; qr_value := v |}
        ∈ query_chunks fs' idx' (sk_metric_name key) filters lo hi.
Proof.
  intros wm points m Hd Hne Hch F Hf Hio. unfold open_shard. fold wm. rewrite (recover_ok _ _ wm Hd).
  destruct (flush_memtable (chunk_writer_new (cfg_chunk_dir cfg)) fs idx m (fe_now env) (fe_seed env) F
    (insert_all_ne _ _ Hne) Hf) as (fs' & r & Hw & Hidx & Hvis).
  assert (recovery_chunk cfg fs idx (rr_points (recovered segs wm)) env = (fs', register_all idx r, Ok ())) as ->.
  { change (rr_points (recovered segs wm)) with points. unfold recovery_chunk.
    destruct points as [|p ps] eqn:E; [done|]. cbv zeta. fold m. cbn [drain fst]. by rewrite Hio, Hw. }
  cbv beta iota zeta. destruct (open d _ _) as [d1 w1] eqn:Eo. injection Eo as _ Ew.
  eassert (∃ d2 w2, (if 0 <? segments_replayed (recovered segs wm) then rotate d1 w1 true else (d1, w1, Ok ())) =
    (d2, w2, Ok ()) ∧ current_seq w2 = last_sequence (recovered segs wm)) as (d2 & w2 & -> & Es).
  { destruct (0 <? _); cbn [rotate]; eexists _, _; (split; [reflexivity|]); rewrite <-Ew; reflexivity. }
  unfold drain_completed_before at 1. cbv beta iota. rewrite Hch.
  eexists _, _, _. split; [reflexivity|]. split; [done|]. split; [exact Es|].
  intros key ts v filters lo hi Hl Hr Hfl. apply Hvis; [|done..].
  unfold m. rewrite mt_lookup_insert_all by apply new_wf. by rewrite Hl.
Qed.

End Flushing.

(** ** Sample runs of a server with one shard *)

Fixpoint insert_by_shard (x : Z * nat) (l : list (Z * nat)) : list (Z * nat) :=
  match l with
  | [] => [x]
  | y :: l' => if x.1 <=? y.1 then x :: l else y :: insert_by_shard x l'
  end.
Definition insertion_sort : UnstableSort := λ l, foldr insert_by_shard [] l.

Module Sample.
#[local] Existing Instances poly_hash ieee_crc32 stored_lz4 cell_bloom wal_codec snapshot_codec insertion_sort.

Definition config : StorageConfig :=
  {| wal_dir := "/w"; cfg_chunk_dir := "/c"; index_path := "/index.bin"; wal_max_segment_bytes := 1000000;
     wal_channel_capacity := 16; wal_max_batch := 16; wal_batch_delay_us := 0;
     memtable_flush_threshold_bytes := 1; num_shards := 1; index_snapshot_interval_secs := 60;
     compaction_interval_secs := 300; compaction_min_threshold := 4;
     compaction_size_ratio := f64_three_halves; grpc_addr := ""; metrics_addr := "" |}.

Definition env_at (now : Z) (io : io_outcome) : FlushEnv :=
  {| fe_now := now; fe_seed := 0; fe_io := io; fe_rotated := true; fe_removed := λ _, true |}.
Definition empty_server : StorageServer :=
  {| wals := []; memtables := []; index := index_new; chunk_writer := chunk_writer_new "";
     compaction_worker := sample_worker; snapshot_path := ""; live_watermarks := [];
     persisted_watermarks := []; append_seq := 0; files := ∅ |}.
Definition get (r : result StorageServer) : StorageServer :=
  match r with Ok sv => sv | Err _ => empty_server end.

Definition start : StorageServer := get (open_server config ∅ [∅] (λ _, env_at 1 IoOk) (λ _, true)).
Definition point (n : Z) : RequestPoint :=
  {| rq_metric_name := "m"; rq_tags := []; rq_timestamp_ns := n; rq_value := F64 n |}.
Definition append (sv : StorageServer) (n : Z) : StorageServer * result Z :=
  append_rpc sv [point n] (λ _, IoOk) (λ _, true).
Definition sweep (sv : StorageServer) (now : Z) (io : io_outcome) : StorageServer :=
  sweep_shard sv 0 (env_at now io).
Definition snapshot (sv : StorageServer) : StorageServer := (snapshot_rpc sv IoOk true).1.
Definition crash_restart (sv : StorageServer) (now : Z) : StorageServer :=
  get (restart config sv (λ _, env_at now IoOk) (λ _, true)).
Definition values (sv : StorageServer) : list Z :=
  map (λ r, f64_bits (qr_value r)) (query_rpc sv "m" [] None None).

(** Append, crash and restart; then crash again before any snapshot. *)
Definition appended : StorageServer := (append start 1).1.
Definition restarted : StorageServer := crash_restart appended 2.
Definition restarted_twice : StorageServer := crash_restart restarted 3.

(** Append, flush, snapshot; restart; append; restart. *)
Definition snapshotted : StorageServer := snapshot (sweep appended 2 IoOk).
Definition resumed : StorageServer := crash_restart snapshotted 3.
Definition second_append : StorageServer * result Z := append resumed 2.
Definition after_reset : StorageServer := crash_restart second_append.1 4.

(** An append between draining and flushing, a snapshot, a crash. *)
Definition draining : StorageServer * option SeriesData := sweep_begin appended 0.
Definition raced_append : StorageServer * result Z := append draining.1 2.
Definition raced : StorageServer :=
  snapshot (sweep_finish raced_append.1 0 (default [] draining.2) (env_at 2 IoOk)).
Definition after_race : StorageServer := crash_restart raced 3.

(** A flush that fails, a later append and a flush that succeeds, a snapshot. *)
Definition failed_flush : StorageServer := sweep appended 2 (IoErr 0).
Definition flushed_later : StorageServer :=
  snapshot (sweep (append failed_flush 2).1 3 IoOk).
Definition after_failed_flush : StorageServer := crash_restart flushed_later 4.
End Sample.

(** ** Facts about the samples *)

Lemma insert_by_shard_perm x l : Permutation (insert_by_shard x l) (x :: l).
Proof.
  induction l as [|y l IH]; [done|]. cbn. destruct (x.1 <=? y.1); [done|]. rewrite IH. constructor.
Qed.

Lemma insert_by_shard_sorted x l : sorted_pairs l → sorted_pairs (insert_by_shard x l).
Proof.
  induction 1 as [|y l Hs IH Hall]; cbn; [repeat constructor|].
  destruct (x.1 <=? y.1) eqn:E; zbool.
  - constructor; [by constructor|]. constructor; [done|]. eapply Forall_impl; [exact Hall|]. cbn. lia.
  - constructor; [done|]. rewrite insert_by_shard_perm. constructor; [lia|done].
Qed.

Lemma insertion_sort_laws : @UnstableSortLaws insertion_sort.
Proof.
  intros l. unfold sort_unstable_by_shard, insertion_sort. induction l as [|x l [Hp Hs]]; cbn.
  - split; [done|constructor].
  - split; [by rewrite insert_by_shard_perm, Hp|by apply insert_by_shard_sorted].
Qed.

(** The first flush of a single series into an empty index. *)
Lemma flushable_first `{XxHash, Crc32, Lz4, BloomFilter} k pts now seed :
  data_wf [(k, pts)] → values_wf [(k, pts)] → bt_wf (sk_tags k) → data_fits [(k, pts)] now seed →
  flushable index_new [(k, pts)] now seed.
Proof.
  intros Hd Hv Ht Hf. constructor; try done.
  - apply index_new_wf.
  - by repeat constructor.
  - intros k' pts' E k0 pts0 E0 _. apply list_elem_of_singleton in E, E0. congruence.
  - intros id t e Hin. by apply elem_of_nil in Hin.
  - intros k' pts' k0 pts0 E E0 _. apply list_elem_of_singleton in E, E0. congruence.
Qed.

Lemma start_wf : server_wf Sample.start.
Proof.
  split; [exists 0; split; [lia|vm_compute; reflexivity]|]. split; [vm_compute; reflexivity|].
  split; [repeat constructor|]. repeat constructor; vm_compute; congruence.
Qed.

(** The memtable of the sample server after one append. *)
Definition one_memtable : Memtable := insert_all (new 1) [decode_point (Sample.point 1)].

Lemma one_memtable_flushable :
  @flushable poly_hash ieee_crc32 stored_lz4 cell_bloom index_new (entries one_memtable) 2 0.
Proof.
  apply flushable_first.
  - exact (proj1 (insert_all_wf _ [decode_point (Sample.point 1)] (new_wf 1))).
  - repeat constructor; vm_compute; congruence.
  - constructor.
  - apply data_fitsb. vm_compute. reflexivity.
Qed.

(** ** Properties *)

(** Restart deletes the WAL before the recovered data is in a durable snapshot: an
    acknowledged point survives a first crash and is queryable after the restart, but a
    second crash before the next snapshot loses it, although every write succeeded. *)
Theorem server_double_crash_loses_data :
  (Sample.append Sample.start 1).2 = Ok 1 ∧ Sample.values Sample.appended = [1] ∧
  Sample.values Sample.restarted = [1] ∧ Sample.values Sample.restarted_twice = [].
Proof. repeat (split; [vm_compute; reflexivity|]). vm_compute. reflexivity. Qed.

(** Sequence numbers restart below the snapshot's watermark: when everything in the
    WAL is covered by the snapshot, recovery reports sequence 0, the next append is
    numbered 1 again, and the following recovery skips it as already flushed; the
    acknowledged point is lost. *)
Theorem server_sequence_reset_loses_data :
  Sample.values Sample.resumed = [1] ∧ Sample.second_append.2 = Ok 1 ∧
  Sample.values Sample.second_append.1 = [2; 1] ∧ Sample.values Sample.after_reset = [1].
Proof. repeat (split; [vm_compute; reflexivity|]). vm_compute. reflexivity. Qed.

(** The sweep reads the watermark after the flush: an append that is acknowledged
    while the drained data is being written raises the WAL's sequence, the watermark
    covers it although it is only in the memtable, and a snapshot and a crash lose it. *)
Theorem server_sweep_race_loses_data :
  Sample.raced_append.2 = Ok 2 ∧ Sample.values Sample.raced = [2; 1] ∧
  Sample.values Sample.after_race = [1].
Proof. repeat (split; [vm_compute; reflexivity|]). vm_compute. reflexivity. Qed.

(** A failed flush drops the drained points: they are no longer queryable, the next
    successful flush advances the watermark past them, and after a snapshot and a crash
    they are not recovered although their WAL entries were acknowledged. *)
Theorem server_failed_flush_loses_data :
  Sample.values Sample.appended = [1] ∧ Sample.values Sample.failed_flush = [] ∧
  Sample.values Sample.flushed_later = [2] ∧ Sample.values Sample.after_failed_flush = [2].
Proof. repeat (split; [vm_compute; reflexivity|]). vm_compute. reflexivity. Qed.

(** The [append] handler, on every branch: it answers [Ok] with the next counter only
    when every shard's WAL task has written and synced its group, and then each shard's
    memtable holds exactly what its WAL was given, a permutation of the request's points
    of that shard; when any write fails it answers an error and no memtable changes. *)
Theorem server_append_logs_first `{HX : XxHash, HC : Crc32, HD : Codec WalEntry, HU : UnstableSort}
    (LX : XxHashLaws) (LU : UnstableSortLaws) sv request io rot sv' res
    (Hwf : server_wf sv) (Ha : append_rpc sv request io rot = (sv', res)) :
  match res with
  | Ok seq => seq = wrap_u64 (append_seq sv + 1)
  | Err _ => memtables sv' = memtables sv
  end ∧
  ∀ j m t, memtables sv !! j = Some m → wals sv !! j = Some t →
    ∃ batch, Permutation batch (points_of_shard sv request j) ∧
      match res with
      | Ok _ => memtables sv' !! j = Some (insert_all m batch) ∧
                wals sv' !! j = Some (appended_task t batch IoOk (rot (Z.of_nat j)))
      | Err _ => wals sv' !! j = Some (appended_task t batch (io (Z.of_nat j)) (rot (Z.of_nat j)))
      end.
Proof. by eapply append_rpc_spec. Qed.

(** One point into the started sample server. *)
Lemma server_append_logs_first_witness :
  server_wf Sample.start ∧
  ∃ batch, Permutation batch (@points_of_shard poly_hash Sample.start [Sample.point 1] 0) ∧
    memtables (Sample.append Sample.start 1).1 !! 0%nat = Some (insert_all (new 1) batch).
Proof.
  split; [exact start_wf|].
  destruct (server_append_logs_first (HC := ieee_crc32) (HD := wal_codec) poly_hash_laws insertion_sort_laws
    Sample.start [Sample.point 1] (λ _, IoOk) (λ _, true) (Sample.append Sample.start 1).1 (Ok 1) start_wf)
    as [_ Hj]; [vm_compute; reflexivity|].
  destruct (Hj O (new 1) (default (fresh_task 0) (wals Sample.start !! O))) as (batch & Hp & Hm & _);
    [vm_compute; reflexivity..|].
  exists batch. split; [exact Hp|exact Hm].
Defined.

(** Read your writes: after an acknowledged append, the query stream over the point's
    metric, any tag filters it satisfies and any time range that contains it delivers the
    point, unless the request itself overwrites it. *)
Theorem server_append_visible `{HX : XxHash, HC : Crc32, HL : Lz4, HD : Codec WalEntry, HU : UnstableSort}
    (LX : XxHashLaws) (LU : UnstableSortLaws) sv request io rot sv' seq p filters lo hi
    (Hwf : server_wf sv) (Ha : append_rpc sv request io rot = (sv', Ok seq)) (Hp : p ∈ map decode_point request)
    (Huniq : ∀ q, q ∈ map decode_point request → point_key q = point_key p →
             timestamp_ns q = timestamp_ns p → value q = value p)
    (Hf : Forall (λ f, bt_get (tags p) f.1 = Some f.2) filters)
    (Hr : default i64_min lo <= timestamp_ns p <= default i64_max hi) :
  {| qr_series_id := series_id (point_key p); qr_timestamp_ns := timestamp_ns p; qr_value := value p |}
    ∈ query_rpc sv' (metric_name p) filters lo hi.
Proof. by eapply append_visible. Qed.

Lemma server_append_visible_witness :
  {| qr_series_id := @series_id poly_hash tiny_key; qr_timestamp_ns := 1; qr_value := F64 1 |}
    ∈ @query_rpc poly_hash ieee_crc32 stored_lz4 (Sample.append Sample.start 1).1 "m" [] None (Some 1).
Proof.
  apply (server_append_visible (HC := ieee_crc32) (HD := wal_codec) poly_hash_laws insertion_sort_laws
    Sample.start [Sample.point 1] (λ _, IoOk) (λ _, true) (Sample.append Sample.start 1).1 1
    (decode_point (Sample.point 1)) [] None (Some 1) start_wf).
  - vm_compute. reflexivity.
  - left.
  - intros q ->%list_elem_of_singleton. done.
  - constructor.
  - vm_compute. split; congruence.
Defined.

(** C10. An acknowledged append is durable: if a shard's WAL satisfies its invariant (in
    particular no earlier write to it has failed), rotations succeed and the shard's batch
    fits its widths, then after the handler answers [Ok] the shard's memtable holds the request's points of the
    shard, and recovering the shard's WAL directory above any watermark between what was
    collected and the sequence before the request returns everything acknowledged earlier
    above the watermark followed by exactly those points. *)
Theorem server_append_durable `{HX : XxHash, HC : Crc32, HD : Codec WalEntry, HU : UnstableSort}
    (LX : XxHashLaws) (LC : Crc32Laws) (LD : CodecLaws WalEntry entry_wf) (LU : UnstableSortLaws)
    sv request io sv' seq j m sys wm
    (Hwf : server_wf sv) (Ha : append_rpc sv request io (λ _, true) = (sv', Ok seq))
    (Hm : memtables sv !! j = Some m) (Ht : wals sv !! j = Some (task sys)) (Hinv : sys_inv sys)
    (Hb : ∀ batch, Permutation batch (points_of_shard sv request j) →
          batch_ok (writer (task sys)) [Append batch 0])
    (Hw0 : 0 <= wm) (Hwm : gc_seq sys <= wm <= current_seq (writer (task sys))) :
  ∃ batch t r, Permutation batch (points_of_shard sv request j) ∧
    memtables sv' !! j = Some (insert_all m batch) ∧ wals sv' !! j = Some t ∧
    recover (dir t) wm = Ok r ∧ rr_points r = points_of (above wm (acked sys)) ++ batch.
Proof.
  destruct (append_rpc_spec _ _ _ _ _ _ Hwf Ha) as [_ Hj].
  destruct (Hj j m (task sys) Hm Ht) as (batch & Hp & Hm' & Ht').
  destruct Hwf as (_ & _ & _ & Hroom). rewrite Forall_lookup in Hroom.
  destruct (appended_task_recovers sys batch wm Hinv (Hb batch Hp) Hw0 Hwm (Hroom _ _ Ht)) as (r & Hr & Er).
  by exists batch, (appended_task (task sys) batch IoOk true), r.
Qed.

Lemma server_append_durable_witness :
  ∃ batch t r, Permutation batch (@points_of_shard poly_hash Sample.start [Sample.point 1] 0) ∧
    wals (Sample.append Sample.start 1).1 !! 0%nat = Some t ∧
    @recover ieee_crc32 wal_codec (dir t) 0 = Ok r ∧ rr_points r = batch.
Proof.
  assert (@sys_inv ieee_crc32 wal_codec (system (fresh_task 1000000) [])) as Hinv by apply fresh_sys_inv.
  destruct (server_append_durable (HC := ieee_crc32) (HD := wal_codec) poly_hash_laws ieee_crc32_laws wal_codec_laws
    insertion_sort_laws Sample.start [Sample.point 1] (λ _, IoOk) (Sample.append Sample.start 1).1 1 O (new 1)
    (system (fresh_task 1000000) []) 0 start_wf) as (batch & t & r & Hp & _ & Ht & Hr & Er).
  - vm_compute. reflexivity.
  - vm_compute. reflexivity.
  - vm_compute. reflexivity.
  - exact Hinv.
  - intros batch Hp. change (@points_of_shard poly_hash Sample.start [Sample.point 1] 0)
      with [decode_point (Sample.point 1)] in Hp. symmetry in Hp. apply Permutation_length_1_inv in Hp as ->.
    by apply tiny_batch_ok; vm_compute.
  - lia.
  - vm_compute. split; congruence.
  - exists batch, t, r. done.
Defined.

(** C20. The sweep of a shard that reached its threshold loses nothing when the chunk is
    written: given that the data can be registered (its size fits the format, its keys have
    different bytes and ids, no known series has one of the ids, the chunk id and the path are
    new), afterwards the shard's memtable has no entries and its counters are zero, the other
    memtables are as they were, the index keeps its invariant, the shard's watermark becomes
    the sequence of its WAL, and every value the memtable held is found in the chunk files
    and delivered by the query stream. *)
Theorem server_sweep_keeps_visible `{HX : XxHash, HC : Crc32, HL : Lz4, HB : BloomFilter, HD : Codec WalEntry}
    (LC : Crc32Laws) (LL : Lz4Laws) (LB : BloomLaws) sv i m env
    (Hm : memtables sv !! i = Some m) (Hs : should_flush m = true) (Hne : entries m ≠ [])
    (F : flushable (index sv) (entries m) (fe_now env) (fe_seed env))
    (Hf : files sv !! chunk_path (chunk_writer sv) (new_chunk_id (fe_now env)) = None) (Hio : fe_io env = IoOk) :
  let sv' := sweep_shard sv i env in
  (∃ m', memtables sv' = <[i := m']> (memtables sv) ∧ entries m' = [] ∧ mt_size_bytes m' = 0 ∧ mt_entry_count m' = 0 ∧
     flush_threshold m' = flush_threshold m) ∧ idx_wf (index sv') ∧
  live_watermarks sv' =
    <[i := match wals sv !! i with Some t => sender_current_sequence t | None => 0 end]> (live_watermarks sv) ∧
  ∀ key ts v filters lo hi,
    mt_lookup m key ts = Some v → default i64_min lo <= ts <= default i64_max hi →
    Forall (λ f, bt_get (sk_tags key) f.1 = Some f.2) filters →
    let answer := {| qr_series_id := series_id key; qr_timestamp_ns := ts; qr_value := v |} in
    answer ∈ query_chunks (files sv') (index sv') (sk_metric_name key) filters (default i64_min lo) (default i64_max hi) ∧
    answer ∈ query_rpc sv' (sk_metric_name key) filters lo hi.
Proof. by apply sweep_visible. Qed.

Lemma server_sweep_keeps_visible_witness :
  {| qr_series_id := @series_id poly_hash tiny_key; qr_timestamp_ns := 1; qr_value := F64 1 |}
    ∈ @query_rpc poly_hash ieee_crc32 stored_lz4 (Sample.sweep Sample.appended 2 IoOk) "m" [] None None.
Proof.
  destruct (server_sweep_keeps_visible (HX := poly_hash) (HD := wal_codec) ieee_crc32_laws stored_lz4_laws cell_bloom_laws
    Sample.appended 0 one_memtable (Sample.env_at 2 IoOk)) as (_ & _ & _ & Hvis).
  - vm_compute. reflexivity.
  - vm_compute. reflexivity.
  - vm_compute. discriminate.
  - exact one_memtable_flushable.
  - vm_compute. reflexivity.
  - reflexivity.
  - apply (Hvis tiny_key 1 (F64 1) [] None None); [vm_compute; reflexivity|vm_compute; split; congruence|constructor].
Defined.

(** C21. Opening a shard recovers it: when its WAL directory holds segments with points above
    the snapshot's watermark, the recovery chunk can be written and the channel of the WAL
    task can be created, [open] of the shard
    succeeds, the index keeps its invariant, the WAL resumes at the highest recovered
    sequence, and the last written value of every recovered cell is served from the
    recovery chunk. *)
Theorem server_open_recovers_shard `{HX : XxHash, HC : Crc32, HL : Lz4, HB : BloomFilter, HD : Codec WalEntry}
    (LC : Crc32Laws) (LL : Lz4Laws) (LB : BloomLaws) (LD : CodecLaws WalEntry entry_wf) cfg i fs idx d segs env
    wm points (Ewm : wm = default 0 (shard_watermarks idx !! i)) (Ep : points = points_of (above wm (log_of segs)))
    (Hd : dir_holds d segs) (Hne : points ≠ []) (Hch : channel_ok (wal_channel_capacity cfg) = true)
    (F : flushable idx (entries (insert_all (new (memtable_flush_threshold_bytes cfg)) points)) (fe_now env) (fe_seed env))
    (Hf : fs !! chunk_path (chunk_writer_new (cfg_chunk_dir cfg)) (new_chunk_id (fe_now env)) = None)
    (Hio : fe_io env = IoOk) :
  ∃ fs' idx' t, open_shard cfg i fs idx d env true = (fs', idx', Ok t) ∧ idx_wf idx' ∧
    sender_current_sequence t = last_sequence (recovered segs wm) ∧
    ∀ key ts v filters lo hi,
      last_write points key ts = Some v → lo <= ts <= hi →
      Forall (λ f, bt_get (sk_tags key) f.1 = Some f.2) filters →
      {| qr_series_id := series_id key; qr_timestamp_ns := ts; qr_value := v |}
        ∈ query_chunks fs' idx' (sk_metric_name key) filters lo hi.
Proof. subst. by apply open_shard_visible. Qed.

(** The two-segment sample directory, above watermark 0. *)
Lemma server_open_recovers_shard_witness :
  ∃ fs' idx' t, @open_shard poly_hash ieee_crc32 stored_lz4 cell_bloom wal_codec Sample.config 0 ∅ index_new
      sample_dir (Sample.env_at 2 IoOk) true = (fs', idx', Ok t) ∧ sender_current_sequence t = 3 ∧
    {| qr_series_id := @series_id poly_hash tiny_key; qr_timestamp_ns := 3; qr_value := F64 3 |}
      ∈ @query_chunks ieee_crc32 stored_lz4 fs' idx' "m" [] 0 10.
Proof.
  destruct (server_open_recovers_shard (HX := poly_hash) (HD := wal_codec) ieee_crc32_laws stored_lz4_laws cell_bloom_laws
    wal_codec_laws Sample.config 0 ∅ index_new sample_dir sample_segments (Sample.env_at 2 IoOk) 0
    (map (λ n, point_at tiny_key n n) [1; 2; 3])) as (fs' & idx' & t & Ho & _ & Hs & Hvis).
  - reflexivity.
  - vm_compute. reflexivity.
  - exact sample_dir_holds.
  - discriminate.
  - reflexivity.
  - apply flushable_first.
    + exact (proj1 (insert_all_wf _ (map (λ n, point_at tiny_key n n) [1; 2; 3]) (new_wf 1))).
    + repeat constructor; vm_compute; congruence.
    + constructor.
    + apply data_fitsb. vm_compute. reflexivity.
  - apply lookup_empty.
  - reflexivity.
  - exists fs', idx', t. split; [exact Ho|]. split; [exact Hs|].
    apply (Hvis tiny_key 3 (F64 3) [] 0 10); [vm_compute; reflexivity|lia|constructor].
Defined.
