(* ===== verification/QuerySource.v ===== *)
(** * Sources of query answers

    [QuerySource] is the interface the query handler relies on: a state whose answers
    are exactly the cells it holds.  The memtables implement it here, the chunk store in
    [Store]; [sources_exact] is the client's side, the query of two sources one after the
    other. *)
From S2P Require Import Prelude BTree F64 Externals Types Memtable Fs ChunkFormat ChunkWriter ChunkReader ChunkFile WalWriter Recovery GroupCommit ChunkIndex Persistence Compaction Config Server.

Section Source.
Context `{XxHash}.

(** The response that carries a cell. *)
Definition response (key : SeriesKey) (ts : Z) (v : f64) : QueryResponse :=
  {| qr_series_id := series_id key; qr_timestamp_ns := ts; qr_value := v |}.

(** What a query asks of a cell. *)
Definition asked (metric : string) (filters : list (string * string)) (lo hi : Z) (key : SeriesKey) (ts : Z) : Prop :=
  sk_metric_name key = metric ∧ Forall (λ f, bt_get (sk_tags key) f.1 = Some f.2) filters ∧ lo <= ts <= hi.

(** A state that answers queries with exactly the cells it holds. *)
Class QuerySource (S : Type) := {
  source_ok : S → Prop;
  source_cell : S → SeriesKey → Z → f64 → Prop;
  source_answer : S → string → list (string * string) → Z → Z → list QueryResponse;
  source_exact s metric filters lo hi r :
    source_ok s →
    r ∈ source_answer s metric filters lo hi ↔
    ∃ key ts v, source_cell s key ts v ∧ asked metric filters lo hi key ts ∧ r = response key ts v
}.

(** The memtables. *)
Definition memtables_hold (ms : list Memtable) (key : SeriesKey) (ts : Z) (v : f64) : Prop :=
  ∃ m, m ∈ ms ∧ mt_lookup m key ts = Some v.

Lemma query_memtables_exact ms metric filters lo hi r :
  Forall mt_wf ms →
  r ∈ query_memtables ms metric filters lo hi ↔
  ∃ key ts v, memtables_hold ms key ts v ∧ asked metric filters lo hi key ts ∧ r = response key ts v.
Proof.
  intros Hms. rewrite Forall_forall in Hms. unfold query_memtables, memtables_hold, asked. split.
  - intros (m & Hm & (key & Hk & (p & -> & Hp)%elem_of_map)%elem_of_flat_map)%elem_of_flat_map.
    specialize (Hms m Hm). apply elem_of_resolve_series in Hk as (_ & Hmet & Hf); [|apply Hms].
    apply elem_of_read_series in Hp as (_ & Hl & Hr & _); [|apply Hms].
    exists key, (timestamp_ns p), (value p). split; [by exists m|]. done.
  - intros (key & ts & v & (m & Hm & Hl) & (Hmet & Hf & Hr) & ->).
    apply list_elem_of_lookup in Hm as (j & Hj).
    apply (memtable_visible ms j m); try done. eapply Hms, list_elem_of_lookup_2, Hj.
Qed.

#[export] Instance memtables_source : QuerySource (list Memtable) := {|
  source_ok := Forall mt_wf;
  source_cell := memtables_hold;
  source_answer := query_memtables;
  source_exact := query_memtables_exact
|}.

(** Two sources asked one after the other, as the query handler does. *)
Lemma sources_exact `{QuerySource A, QuerySource B} (a : A) (b : B) metric filters lo hi r :
  source_ok a → source_ok b →
  r ∈ source_answer a metric filters lo hi ++ source_answer b metric filters lo hi ↔
  ∃ key ts v, (source_cell a key ts v ∨ source_cell b key ts v) ∧ asked metric filters lo hi key ts ∧
    r = response key ts v.
Proof. intros Ha Hb. rewrite elem_of_app, !source_exact by done. naive_solver. Qed.

End Source.
