(* ===== verification/Store.v ===== *)
(** * The chunk store: index and files together

    What the server keeps on disk, seen as one component: the chunk files, and the
    index that finds them.  Its abstract state is a [Content], the data of every chunk;
    [store_inv] ties it to the index and to the bytes of the files.  A query answers
    exactly the cells of the content; a flush adds a chunk, and [store_replace] replaces
    some chunks by one. *)
From S2P Require Import Prelude BTree F64 Externals Types Memtable Fs ChunkFormat ChunkWriter ChunkReader ChunkFile WalWriter Recovery GroupCommit ChunkIndex Persistence Compaction Config Server QuerySource.

(** ** The index after a registration of many and a deregistration of many *)

Section IndexLists.
Context `{XxHash}.

Lemma register_list_snoc idx meta l s :
  register_list idx meta (l ++ [s]) =
  (register (register_list idx meta l) (sr_series_key s) (sr_entry s) (sr_stats s) meta).1.
Proof. unfold register_list. by rewrite fold_left_app. Qed.

Lemma register_list_sorted idx meta l id :
  (∀ id, bt_wf (time_map idx id)) → bt_wf (time_map (register_list idx meta l) id).
Proof.
  intros Hb. revert id. induction l as [|s l IH] using rev_ind; intros id; [done|].
  rewrite register_list_snoc, time_map_register. case_decide; [by apply bt_wf_insert|done].
Qed.

Definition record_id (s : SeriesWriteResult) : Z := series_id (sr_series_key s).
Definition record_start (s : SeriesWriteResult) : Z := ce_time_start_ns (sr_entry s).

(** The time maps after registering records of different series. *)
Lemma elem_of_time_map_register_list idx meta l id t e :
  (∀ id, bt_wf (time_map idx id)) → NoDup (map record_id l) →
  (t, e) ∈ time_map (register_list idx meta l) id ↔
  (∃ s, s ∈ l ∧ id = record_id s ∧ t = record_start s ∧ e = sr_entry s) ∨
  ((t, e) ∈ time_map idx id ∧ ∀ s, s ∈ l → id = record_id s → t ≠ record_start s).
Proof.
  intros Hb. induction l as [|s l IH] using rev_ind; intros Hnd.
  - split; [intros ?; right; split; [done|by intros s ?%elem_of_nil]|].
    intros [(s & ?%elem_of_nil & _)|[? _]]; done.
  - rewrite map_app in Hnd. apply NoDup_app in Hnd as (Hnd & Hdis & _). specialize (IH Hnd).
    rewrite register_list_snoc, elem_of_time_map_register by (by apply register_list_sorted). rewrite IH.
    setoid_rewrite elem_of_app. setoid_rewrite list_elem_of_singleton.
    change (series_id (sr_series_key s)) with (record_id s). change (ce_time_start_ns (sr_entry s)) with (record_start s).
    split.
    + intros [(-> & -> & ->)|[[(s' & Hs' & -> & -> & ->)|[Hin Hne]] Hs]]; [left; exists s; auto|left; exists s'; auto|].
      right. split; [done|]. intros s' [Hs'| ->]; [by apply Hne|done].
    + intros [(s' & [Hs'| ->] & -> & -> & ->)|[Hin Hne]]; [right|by left|right].
      * split; [left; by exists s'|]. intros E. exfalso. apply (Hdis (record_id s')).
        -- apply elem_of_map. by exists s'.
        -- rewrite E. left.
      * split; [right; split; [done|]; intros s' ?; apply Hne; by left|]. intros E. apply Hne; [by right|done].
Qed.

Lemma registry_register_list idx meta l id :
  NoDup (map record_id l) →
  (∀ s, s ∈ l → id = record_id s → series_registry (register_list idx meta l) !! id = Some (sr_series_key s)) ∧
  ((∀ s, s ∈ l → id ≠ record_id s) → series_registry (register_list idx meta l) !! id = series_registry idx !! id).
Proof.
  induction l as [|s l IH] using rev_ind; intros Hnd; [split; [by intros s ?%elem_of_nil|done]|].
  rewrite map_app in Hnd. apply NoDup_app in Hnd as (Hnd & Hdis & _). specialize (IH Hnd) as [IH1 IH2].
  rewrite register_list_snoc. unfold register. cbn [fst series_registry]. split.
  - intros s' [Hs'| ->%list_elem_of_singleton]%elem_of_app E; [|subst; apply lookup_insert_eq].
    rewrite lookup_insert_ne; [by apply IH1|]. intros E'. apply (Hdis id).
    + rewrite E. apply elem_of_map. by exists s'.
    + rewrite <-E'. left.
  - intros Hne. rewrite lookup_insert_ne.
    + apply IH2. intros s' Hs'. apply Hne, elem_of_app. by left.
    + intros E. apply (Hne s); [apply elem_of_app; right; left|done].
Qed.

Lemma stats_register_list idx meta l c id :
  is_Some (chunk_stats (register_list idx meta l) !! (c, id)) ↔
  is_Some (chunk_stats idx !! (c, id)) ∨ ∃ s, s ∈ l ∧ c = ce_chunk_id (sr_entry s) ∧ id = record_id s.
Proof.
  induction l as [|s l IH] using rev_ind.
  - split; [by left|]. by intros [?|(s & ?%elem_of_nil & _)].
  - rewrite register_list_snoc. unfold register. cbn [fst chunk_stats]. rewrite lookup_insert_is_Some', IH.
    setoid_rewrite elem_of_app. setoid_rewrite list_elem_of_singleton. unfold record_id. split.
    + intros [[= <- <-]|[?|(s' & ? & -> & ->)]]; eauto 6.
    + intros [?|(s' & [?| ->] & -> & ->)]; eauto 6.
Qed.

Lemma files_register_list idx meta l c m :
  chunk_files (register_list idx meta l) !! c = Some m →
  (m = meta ∧ ∃ s, s ∈ l ∧ ce_chunk_id (sr_entry s) = c) ∨
  (chunk_files idx !! c = Some m ∧ ∀ s, s ∈ l → ce_chunk_id (sr_entry s) ≠ c).
Proof.
  induction l as [|s l IH] using rev_ind; [right; split; [done|by intros s ?%elem_of_nil]|].
  rewrite register_list_snoc. unfold register. cbn [fst chunk_files].
  destruct (decide (ce_chunk_id (sr_entry s) = c)) as [E|Hne].
  - rewrite E, lookup_insert_eq. intros [= <-]. left. split; [done|]. exists s. split; [apply elem_of_app; right; left|done].
  - rewrite lookup_insert_ne by done. intros [[-> (s' & Hs' & E)]|[Hf Hn]]%IH.
    + left. split; [done|]. exists s'. split; [apply elem_of_app; by left|done].
    + right. split; [done|]. intros s' [Hs'| ->%list_elem_of_singleton]%elem_of_app; [by apply Hn|done].
Qed.

(** Deregistering keeps the registry, removes entries and statistics, and may only
    remove files. *)
Lemma deregister_all_maps idx l :
  series_registry (deregister_all idx l) = series_registry idx ∧
  shard_watermarks (deregister_all idx l) = shard_watermarks idx ∧
  (∀ c id, is_Some (chunk_stats (deregister_all idx l) !! (c, id)) ↔
     is_Some (chunk_stats idx !! (c, id)) ∧ ∀ d, d ∈ l → ¬ (d.1.2 = c ∧ d.1.1 = id)) ∧
  (∀ c m, chunk_files (deregister_all idx l) !! c = Some m → chunk_files idx !! c = Some m).
Proof.
  induction l as [|d l (IHr & IHw & IHs & IHf)] using rev_ind.
  - split_and!; try done. intros c id. split; [intros ?; split; [done|by intros d ?%elem_of_nil]|by intros []].
  - unfold deregister_all in *. rewrite !fold_left_app. cbn [fold_left]. set (idx1 := fold_left _ l idx) in *.
    split_and!; [exact IHr|exact IHw| |].
    + intros c id. unfold deregister. cbn [chunk_stats]. rewrite lookup_delete_is_Some, IHs.
      setoid_rewrite elem_of_app. setoid_rewrite list_elem_of_singleton. split.
      * intros (Hne & Hs & Hn). split; [done|]. intros d' [Hd'| ->]; [by apply Hn|]. intros [<- <-]. by apply Hne.
      * intros (Hs & Hn). split_and!; [|done|intros d' ?; apply Hn; by left].
        intros [= <- <-]. by apply (Hn d); [right|].
    + intros c m. unfold deregister. cbn [chunk_files]. destruct (chunk_referenced _ _); [apply IHf|].
      intros Hd. apply lookup_delete_Some in Hd as [_ Hd]. by apply IHf.
Qed.

Lemma elem_of_time_map_deregister_all idx l id t e :
  idx_wf idx →
  (∀ d t e, d ∈ l → (t, e) ∈ time_map idx d.1.1 → ce_chunk_id e = d.1.2 → t = d.2) →
  (t, e) ∈ time_map (deregister_all idx l) id ↔
  (t, e) ∈ time_map idx id ∧ ∀ d, d ∈ l → ¬ (id = d.1.1 ∧ ce_chunk_id e = d.1.2).
Proof.
  intros Hw. revert id t e. induction l as [|d l IH] using rev_ind; intros id t e Hone.
  - split; [intros ?; split; [done|by intros d ?%elem_of_nil]|by intros []].
  - assert (∀ d t e, d ∈ l → (t, e) ∈ time_map idx d.1.1 → ce_chunk_id e = d.1.2 → t = d.2) as Hl.
    { intros d' t' e' Hd'. apply Hone, elem_of_app. by left. }
    unfold deregister_all in *. rewrite fold_left_app. cbn [fold_left].
    pose proof (deregister_all_wf idx l Hw Hl) as Hw1. unfold deregister_all in Hw1.
    rewrite elem_of_time_map_deregister; [|apply Hw1|].
    + rewrite IH by done. setoid_rewrite elem_of_app. setoid_rewrite list_elem_of_singleton. split.
      * intros [[Hin Hn] Hd]. split; [done|]. intros d' [?| ->]; [by apply Hn|done].
      * intros [Hin Hn]. split; [split; [done|]; intros d' ?; apply Hn; by left|]. apply Hn. by right.
    + intros t' e' Hin. apply Hone; [apply elem_of_app; right; left|]. by apply IH in Hin as [? _].
Qed.

End IndexLists.

(** ** The chunk store *)

(** The data of every chunk, by chunk id. *)
Abbreviation Content := (gmap Z SeriesData).

Definition content_cell (content : Content) (key : SeriesKey) (ts : Z) (v : f64) : Prop :=
  ∃ c data, content !! c = Some data ∧ data_lookup data key ts = Some v.

Definition vec_start (pts : list (Z * f64)) : Z := hd 0 (map fst pts).
Definition vec_end (pts : list (Z * f64)) : Z := List.last (map fst pts) 0.

Lemma data_lookup_In data key ts v :
  data_wf data → data_lookup data key ts = Some v ↔ ∃ pts, (key, pts) ∈ data ∧ (ts, v) ∈ pts.
Proof.
  intros [Hb Hall]. unfold data_lookup. rewrite Forall_forall in Hall. split.
  - destruct (bt_get data key) as [pts|] eqn:E; [|done]. cbn. intros Hv.
    exists pts. split; by apply bt_get_Some_In.
  - intros (pts & Hin & Hv). rewrite (bt_In_get _ _ _ Hb Hin). cbn. apply bt_In_get; [|done].
    by destruct (Hall _ Hin).
Qed.

Section Store.
Context `{XxHash, Crc32, Lz4, BloomFilter}.

(** The file at [path] is the chunk [cid] with the data. *)
Definition file_holds (fs : Fs) (path : string) (cid : Z) (data : SeriesData) : Prop :=
  data_wf data ∧ values_wf data ∧ keys_clean data ∧
  ∃ seed p, chunk_of data seed p ∧ chunk_fits cid p ∧ fs !! path = Some (chunk_bytes cid p).

Record store_inv (w : ChunkWriter) (fs : Fs) (idx : ChunkIndex) (content : Content) : Prop := {
  si_idx : idx_wf idx;
  (** every listed file is a chunk of the content, under its own path *)
  si_path : ∀ c m, chunk_files idx !! c = Some m → file_path m = chunk_path w c;
  si_listed : ∀ c, is_Some (chunk_files idx !! c) ↔ is_Some (content !! c);
  si_file : ∀ c data, content !! c = Some data → file_holds fs (chunk_path w c) c data;
  (** the entries of the time index are the series of the chunks *)
  si_sound : ∀ id t e, (t, e) ∈ time_map idx id →
    ∃ data key pts, content !! ce_chunk_id e = Some data ∧ (key, pts) ∈ data ∧ series_id key = id ∧
      series_registry idx !! id = Some key ∧ t = vec_start pts ∧ ce_time_end_ns e = vec_end pts;
  si_complete : ∀ c data key pts, content !! c = Some data → (key, pts) ∈ data →
    series_registry idx !! series_id key = Some key ∧
    ∃ e, (vec_start pts, e) ∈ time_map idx (series_id key) ∧ ce_chunk_id e = c;
  (** and so are the statistics *)
  si_stats : ∀ c id, is_Some (chunk_stats idx !! (c, id)) →
    ∃ t e, (t, e) ∈ time_map idx id ∧ ce_chunk_id e = c
}.

Lemma data_chunk_wf data : data_wf data → values_wf data → chunk_data_wf data.
Proof.
  intros [Hb Hall] Hv. split; [done|]. split; [|done]. eapply Forall_impl; [exact Hall|]. by intros e [].
Qed.

Lemma keys_clean_unambiguous data key pts : keys_clean data → (key, pts) ∈ data → key_unambiguous data key.
Proof.
  unfold keys_clean. rewrite Forall_forall. intros Hc Hin k pts' Hin' E.
  destruct (Hc _ Hin) as [Hk1 Hk2], (Hc _ Hin') as [Hk1' Hk2']. by apply to_bytes_inj.
Qed.

Lemma empty_store w fs : store_inv w fs index_new ∅.
Proof.
  split.
  - apply index_new_wf.
  - intros c m Hf. unfold index_new in Hf. cbn [chunk_files] in Hf. by rewrite lookup_empty in Hf.
  - intros c. unfold index_new. cbn [chunk_files]. by rewrite !lookup_empty.
  - intros c data Hc. by rewrite lookup_empty in Hc.
  - intros id t e Hin. unfold time_map, index_new in Hin. cbn [time_index] in Hin. rewrite lookup_empty in Hin.
    by apply elem_of_nil in Hin.
  - intros c data key pts Hc. by rewrite lookup_empty in Hc.
  - intros c id [st Hs]. unfold index_new in Hs. cbn [chunk_stats] in Hs. by rewrite lookup_empty in Hs.
Qed.

Context `{!Crc32Laws, !Lz4Laws, !BloomLaws}.

(** Reading from a chunk the store knows. *)
Lemma store_read_series fs path cid data key pts lo hi :
  file_holds fs path cid data → (key, pts) ∈ data →
  ∃ res, ChunkReader.read_series fs path key lo hi = Ok res ∧
    default [] res = map (to_point key) (List.filter (in_time_range lo hi) pts).
Proof.
  intros (Hd & Hv & Hc & seed & p & Hp & Hfit & Hfs) Hin.
  unfold ChunkReader.read_series, fs_read. rewrite Hfs. cbn [ok_or mbind result_bind].
  destruct (read_series_written data seed cid p key lo hi Hp (data_chunk_wf _ Hd Hv) Hfit
    (keys_clean_unambiguous _ _ _ Hc Hin)) as (res & Hr & E).
  exists res. split; [done|]. rewrite E. unfold series_vec. by rewrite (bt_In_get _ _ _ (proj1 Hd) Hin).
Qed.

Lemma store_read_chunk fs path cid data : file_holds fs path cid data → read_chunk fs path = Ok (all_points data).
Proof.
  intros (Hd & Hv & Hc & seed & p & Hp & Hfit & Hfs). unfold read_chunk, fs_read. rewrite Hfs.
  cbn [ok_or mbind result_bind]. by eapply read_chunk_written; eauto using data_chunk_wf.
Qed.

(** What the store knows of an entry of the time index. *)
Lemma store_entry w fs idx content id t e :
  store_inv w fs idx content → (t, e) ∈ time_map idx id →
  ∃ data key pts, content !! ce_chunk_id e = Some data ∧ (key, pts) ∈ data ∧ series_id key = id ∧
    series_registry idx !! id = Some key ∧ t = vec_start pts ∧ ce_time_end_ns e = vec_end pts ∧
    ∀ lo hi r, r ∈ query_chunk fs idx lo hi e ↔
      ∃ ts v, (ts, v) ∈ pts ∧ lo <= ts <= hi ∧ r = response key ts v.
Proof.
  intros S Htm. destruct (si_sound _ _ _ _ S _ _ _ Htm) as (data & key & pts & Hc & Hin & Eid & Hreg & Est & Een).
  exists data, key, pts. do 6 (split; [done|]). intros lo hi r.
  pose proof (wf_entries _ (si_idx _ _ _ _ S) _ _ _ Htm) as [_ Esid].
  destruct (proj2 (si_listed _ _ _ _ S _) (ex_intro _ data Hc)) as [m Hm].
  destruct (store_read_series _ _ _ _ _ _ lo hi (si_file _ _ _ _ S _ _ Hc) Hin) as (res & Er & Eres).
  unfold query_chunk. rewrite Hm, Esid, Hreg, (si_path _ _ _ _ S _ _ Hm), Er.
  transitivity (∃ p, p ∈ default [] res ∧
    r = {| qr_series_id := id; qr_timestamp_ns := timestamp_ns p; qr_value := value p |}).
  { destruct res as [points|]; cbn [default]; [rewrite elem_of_map; naive_solver|].
    setoid_rewrite elem_of_nil. naive_solver. }
  rewrite Eres. setoid_rewrite elem_of_map. setoid_rewrite elem_of_filterb. unfold in_time_range, response. split.
  - intros (p & ([ts v] & -> & Hp & Hr) & ->). cbn in Hr. exists ts, v. rewrite Eid. split_and!; [done|lia..|done].
  - intros (ts & v & Hp & Hr & ->). exists (to_point key (ts, v)). rewrite Eid.
    split; [|done]. exists (ts, v). cbn. split_and!; [done..|lia].
Qed.

Lemma store_series w fs idx content c data key pts :
  store_inv w fs idx content → content !! c = Some data → (key, pts) ∈ data →
  series_registry idx !! series_id key = Some key ∧
  ∃ e, (vec_start pts, e) ∈ time_map idx (series_id key) ∧ ce_chunk_id e = c ∧ ce_time_end_ns e = vec_end pts.
Proof.
  intros S Hc Hin. destruct (si_complete _ _ _ _ S _ _ _ _ Hc Hin) as (Hreg & e & Htm & Ec).
  split; [done|]. exists e. split; [done|]. split; [done|].
  destruct (si_sound _ _ _ _ S _ _ _ Htm) as (data' & key' & pts' & Hc' & Hin' & _ & Hreg' & _ & ->).
  rewrite Ec, Hc in Hc'. injection Hc' as <-. rewrite Hreg in Hreg'. injection Hreg' as <-.
  pose proof (si_file _ _ _ _ S _ _ Hc) as (Hd & _). apply bt_In_get in Hin, Hin'; [|apply Hd..]. congruence.
Qed.

(** A query of the store answers exactly the cells of its content. *)
Lemma query_chunks_exact w fs idx content metric filters lo hi r :
  store_inv w fs idx content →
  r ∈ query_chunks fs idx metric filters lo hi ↔
  ∃ key ts v, content_cell content key ts v ∧ asked metric filters lo hi key ts ∧ r = response key ts v.
Proof.
  intros S. pose proof (si_idx _ _ _ _ S) as Hw. unfold query_chunks. rewrite elem_of_flat_map. split.
  - intros (e & (id & Hid & (t & Htm & _)%elem_of_prune)%elem_of_flat_map & Hr).
    destruct (store_entry _ _ _ _ _ _ _ S Htm) as (data & key & pts & Hc & Hin & Eid & Hreg & _ & _ & Hq).
    apply Hq in Hr as (ts & v & Hp & Hr & ->).
    apply elem_of_index_resolve in Hid as (key' & Hreg' & Hmet & Hfl); [|done].
    rewrite Hreg in Hreg'. injection Hreg' as <-. exists key, ts, v. split; [|done].
    exists (ce_chunk_id e), data. split; [done|]. apply data_lookup_In; [by apply (si_file _ _ _ _ S _ _ Hc)|].
    by exists pts.
  - intros (key & ts & v & (c & data & Hc & Hl) & (Hmet & Hfl & Hr) & ->).
    pose proof (si_file _ _ _ _ S _ _ Hc) as (Hd & Hv & _).
    apply data_lookup_In in Hl as (pts & Hin & Hp); [|done].
    destruct (store_series _ _ _ _ _ _ _ _ S Hc Hin) as (Hreg & e & Htm & Ec & Een).
    exists e. split.
    + apply elem_of_flat_map. exists (series_id key). split.
      * apply elem_of_index_resolve; [done|]. by exists key.
      * apply elem_of_prune. exists (vec_start pts). split; [done|].
        destruct (chunk_data_entry data key pts (data_chunk_wf _ Hd Hv) Hin) as (Hsort & _).
        destruct (sorted_hd_last pts (ts, v) Hsort Hp) as [Hlo Hhi]. cbn in Hlo, Hhi.
        rewrite Een. unfold vec_start, vec_end. split; [lia|]. split; [lia|done].
    + destruct (store_entry _ _ _ _ _ _ _ S Htm) as (data' & key' & pts' & Hc' & Hin' & _ & Hreg' & _ & _ & Hq).
      rewrite Ec, Hc in Hc'. injection Hc' as <-. rewrite Hreg in Hreg'. injection Hreg' as <-.
      apply Hq. exists ts, v. split; [|done].
      apply bt_In_get in Hin, Hin'; [|apply Hd..]. congruence.
Qed.

(** The store as a source of answers. *)
#[export, refine] Instance store_source : QuerySource (ChunkWriter * Fs * ChunkIndex * Content) := {|
  source_ok := λ s, store_inv s.1.1.1 s.1.1.2 s.1.2 s.2;
  source_cell := λ s, content_cell s.2;
  source_answer := λ s, query_chunks s.1.1.2 s.1.2
|}.
Proof. intros s metric filters lo hi r S. by eapply query_chunks_exact. Defined.

(** The query handler asks the memtables and then the store. *)
Lemma query_rpc_exact w sv content metric filters lo hi r :
  Forall mt_wf (memtables sv) → store_inv w (files sv) (index sv) content →
  r ∈ query_rpc sv metric filters lo hi ↔
  ∃ key ts v, (memtables_hold (memtables sv) key ts v ∨ content_cell content key ts v) ∧
    asked metric filters (default i64_min lo) (default i64_max hi) key ts ∧ r = response key ts v.
Proof.
  intros Hm S.
  exact (sources_exact (memtables sv) (w, files sv, index sv, content) metric filters
    (default i64_min lo) (default i64_max hi) r Hm S).
Qed.

(** ** Replacing chunks *)

(** The triples [L] are the entries of the chunks in [G]. *)
Definition dereg_ok (idx : ChunkIndex) (G : list Z) (L : list (Z * Z * Z)) : Prop :=
  (∀ d, d ∈ L → d.1.2 ∈ G ∧ ∃ e, (d.2, e) ∈ time_map idx d.1.1 ∧ ce_chunk_id e = d.1.2) ∧
  (∀ id t e, (t, e) ∈ time_map idx id → ce_chunk_id e ∈ G → (id, ce_chunk_id e, t) ∈ L).

(** The new data can be registered: no hash collision, among the new series or with the
    known ones, and no new series starts where a chunk outside [G] starts. *)
Record fresh_data (idx : ChunkIndex) (G : list Z) (data : SeriesData) : Prop := {
  fd_tags : ∀ key pts, (key, pts) ∈ data → bt_wf (sk_tags key);
  fd_known : ∀ key pts, (key, pts) ∈ data → no_collision idx key;
  fd_ids : ∀ key pts key' pts', (key, pts) ∈ data → (key', pts') ∈ data → series_id key = series_id key' → key = key';
  fd_start : ∀ key pts e, (key, pts) ∈ data → (vec_start pts, e) ∈ time_map idx (series_id key) → ce_chunk_id e ∈ G
}.

Definition replace_chunks (content : Content) (G : list Z) (cid : Z) (data : SeriesData) : Content :=
  <[cid := data]> (filter (λ c, c.1 ∉ G) content).

Lemma replace_lookup content G cid data c d :
  replace_chunks content G cid data !! c = Some d ↔ (c = cid ∧ d = data) ∨ (c ≠ cid ∧ c ∉ G ∧ content !! c = Some d).
Proof.
  unfold replace_chunks. rewrite lookup_insert_Some, map_lookup_filter_Some. naive_solver.
Qed.

(** The records a write returns for the data. *)
Lemma described_records cid data results :
  Forall2 (describes cid) data results →
  (∀ s, s ∈ results → ∃ key pts, (key, pts) ∈ data ∧ sr_series_key s = key ∧ record_id s = series_id key ∧
     record_start s = vec_start pts ∧ ce_time_end_ns (sr_entry s) = vec_end pts ∧ ce_chunk_id (sr_entry s) = cid ∧
     ce_series_id (sr_entry s) = series_id key) ∧
  (∀ key pts, (key, pts) ∈ data → ∃ s, s ∈ results ∧ sr_series_key s = key ∧ record_start s = vec_start pts).
Proof.
  intros Hd. split.
  - intros s (i & Hi)%list_elem_of_lookup. destruct (Forall2_lookup_r _ _ _ _ _ Hd Hi) as ([key pts] & Hk & (E1 & E2 & E3 & E4 & E5 & _)).
    exists key, pts. cbn in *. split; [by eapply list_elem_of_lookup_2|]. unfold record_id, record_start, vec_start, vec_end.
    by rewrite E1.
  - intros key pts (i & Hi)%list_elem_of_lookup. destruct (Forall2_lookup_l _ _ _ _ _ Hd Hi) as (s & Hs & (E1 & _ & _ & E4 & _)).
    exists s. split; [by eapply list_elem_of_lookup_2|]. done.
Qed.

Lemma described_keys cid data results : Forall2 (describes cid) data results → map sr_series_key results = map fst data.
Proof. induction 1 as [|e s data results (E & _) _ IH]; cbn; [done|]. by rewrite E, IH. Qed.

Lemma described_NoDup idx G cid data results :
  Forall2 (describes cid) data results → data_wf data → fresh_data idx G data → NoDup (map record_id results).
Proof.
  intros Hd [Hb _] F. pose proof (described_keys _ _ _ Hd) as Ek.
  assert (map record_id results = map series_id (map sr_series_key results)) as -> by (by rewrite map_map).
  rewrite Ek. apply NoDup_fmap_2_strong; [|by apply bt_wf_NoDup_keys].
  intros k k' ([? pts] & -> & Hk)%elem_of_map ([? pts'] & -> & Hk')%elem_of_map E. by eapply (fd_ids _ _ _ F).
Qed.

Lemma described_ok idx G cid data results :
  Forall2 (describes cid) data results → data_wf data → fresh_data idx G data →
  results_ok cid results ∧ ids_distinct idx results.
Proof.
  intros Hd Hwf F. destruct (described_records _ _ _ Hd) as [Hr _]. split; split.
  - apply Forall_forall. intros s Hs. destruct (Hr s Hs) as (key & pts & Hin & -> & _ & _ & _ & -> & ->).
    split; [by eapply (fd_tags _ _ _ F)|done].
  - rewrite (described_keys _ _ _ Hd). by apply bt_wf_NoDup_keys, Hwf.
  - intros s Hs. destruct (Hr s Hs) as (key & pts & Hin & -> & _). by eapply (fd_known _ _ _ F).
  - intros s s' Hs Hs'. destruct (Hr s Hs) as (key & pts & Hin & -> & _), (Hr s' Hs') as (key' & pts' & Hin' & -> & _).
    by eapply (fd_ids _ _ _ F).
Qed.

Section Replace.
Context (w : ChunkWriter) (fs fs' : Fs) (idx : ChunkIndex) (content : Content) (G : list Z) (L : list (Z * Z * Z))
  (cid : Z) (data : SeriesData) (results : list SeriesWriteResult) (meta : ChunkMeta).
Context (S : store_inv w fs idx content) (HL : dereg_ok idx G L) (F : fresh_data idx G data)
  (Hd : Forall2 (describes cid) data results) (Hne : data ≠ []) (Hcid : content !! cid = None) (HG : cid ∉ G)
  (Hpath : file_path meta = chunk_path w cid) (Hnew : file_holds fs' (chunk_path w cid) cid data)
  (Hold : ∀ c, c ∉ G → is_Some (content !! c) → fs' !! chunk_path w c = fs !! chunk_path w c).

Let idx1 := register_list idx meta results.
Let idx' := deregister_all idx1 L.

Lemma replace_fresh id t e : (t, e) ∈ time_map idx id → ce_chunk_id e ≠ cid.
Proof.
  intros Hin E. destruct (si_sound _ _ _ _ S _ _ _ Hin) as (d & _ & _ & Hc & _). rewrite E in Hc. congruence.
Qed.

Lemma replace_NoDup : NoDup (map record_id results).
Proof. eapply described_NoDup; [exact Hd|apply Hnew|exact F]. Qed.

Lemma replace_entries1 id t e :
  (t, e) ∈ time_map idx1 id ↔
  (∃ s, s ∈ results ∧ id = record_id s ∧ t = record_start s ∧ e = sr_entry s) ∨
  ((t, e) ∈ time_map idx id ∧ ∀ s, s ∈ results → id = record_id s → t ≠ record_start s).
Proof. apply elem_of_time_map_register_list; [apply (si_idx _ _ _ _ S)|apply replace_NoDup]. Qed.

Lemma replace_wf1 : idx_wf idx1.
Proof.
  destruct (described_ok idx G cid data results Hd (proj1 Hnew) F) as [Hok Hids].
  eapply (register_list_wf idx meta cid); [apply S|done|done|]. intros s t e _. apply replace_fresh.
Qed.

Lemma replace_one d t e : d ∈ L → (t, e) ∈ time_map idx1 d.1.1 → ce_chunk_id e = d.1.2 → t = d.2.
Proof.
  intros Hin Htm Ec. destruct (proj1 HL d Hin) as (Hg & e0 & Htm0 & Ec0).
  apply replace_entries1 in Htm as [(s & Hs & _ & _ & ->)|[Htm _]].
  - destruct (described_records _ _ _ Hd) as [Hr _]. destruct (Hr s Hs) as (? & ? & _ & _ & _ & _ & _ & Ecid & _).
    exfalso. apply HG. by rewrite <-Ecid, Ec.
  - eapply (wf_once _ (si_idx _ _ _ _ S)); [exact Htm|exact Htm0|congruence].
Qed.

(** The entries after the replacement: the new ones, and the old ones outside [G]. *)
Lemma replace_entries id t e :
  (t, e) ∈ time_map idx' id ↔
  (∃ s, s ∈ results ∧ id = record_id s ∧ t = record_start s ∧ e = sr_entry s) ∨
  ((t, e) ∈ time_map idx id ∧ ce_chunk_id e ∉ G).
Proof.
  unfold idx'. rewrite elem_of_time_map_deregister_all by (apply replace_wf1 || exact replace_one).
  rewrite replace_entries1. destruct (described_records _ _ _ Hd) as [Hr _]. split.
  - intros [[Hs|[Htm _]] Hn]; [by left|right]. split; [done|]. intros Hg.
    apply (Hn (id, ce_chunk_id e, t)); [by apply (proj2 HL)|done].
  - intros [(s & Hs & -> & -> & ->)|[Htm Hg]].
    + split; [left; by exists s|]. intros d Hin [_ E]. apply HG.
      destruct (Hr s Hs) as (? & ? & _ & _ & _ & _ & _ & <- & _). rewrite E. by apply (proj1 HL).
    + split; [right; split; [done|]|].
      * intros s Hs -> ->. destruct (Hr s Hs) as (key & pts & Hin & Ek & Eid & Est & _).
        rewrite Eid, Est in Htm. by apply Hg, (fd_start _ _ _ F key pts).
      * intros d Hin [_ E]. apply Hg. rewrite E. by apply (proj1 HL).
Qed.

Lemma replace_wf : idx_wf idx'.
Proof. apply deregister_all_wf; [apply replace_wf1|exact replace_one]. Qed.

Lemma replace_registry id :
  (∀ s, s ∈ results → id = record_id s → series_registry idx' !! id = Some (sr_series_key s)) ∧
  (∀ key, series_registry idx !! id = Some key → series_registry idx' !! id = Some key).
Proof.
  unfold idx'. destruct (deregister_all_maps idx1 L) as (-> & _).
  destruct (registry_register_list idx meta results id replace_NoDup) as [H1' H2']. split; [exact H1'|].
  intros key Hk. destruct (described_records _ _ _ Hd) as [Hr _].
  destruct (decide (Exists (λ s, id = record_id s) results)) as [(s & Hs & E)%Exists_exists|Hn].
  - unfold idx1. rewrite (H1' s Hs E). f_equal. destruct (Hr s Hs) as (k & pts & Hin & -> & Eid & _).
    symmetry. apply (fd_known _ _ _ F k pts Hin). by rewrite <-Eid, <-E.
  - unfold idx1. rewrite H2'; [done|]. intros s Hs E. apply Hn, Exists_exists. by exists s.
Qed.

Lemma replace_stats c id :
  is_Some (chunk_stats idx' !! (c, id)) → ∃ t e, (t, e) ∈ time_map idx' id ∧ ce_chunk_id e = c.
Proof.
  unfold idx' at 1. destruct (deregister_all_maps idx1 L) as (_ & _ & Hst & _). rewrite Hst. unfold idx1 at 1.
  rewrite stats_register_list. intros [[Hold'|(s & Hs & -> & ->)] Hn].
  - destruct (si_stats _ _ _ _ S _ _ Hold') as (t & e & Htm & Ec). exists t, e. split; [|done].
    apply replace_entries. right. split; [done|]. intros Hg.
    apply (Hn (id, ce_chunk_id e, t)); [by apply (proj2 HL)|]. by rewrite Ec.
  - exists (record_start s), (sr_entry s). split; [|done]. apply replace_entries. left. by exists s.
Qed.

Lemma replace_listed c : is_Some (chunk_files idx' !! c) ↔ is_Some (replace_chunks content G cid data !! c).
Proof.
  destruct (described_records _ _ _ Hd) as [Hr Hr']. rewrite (wf_files _ replace_wf). split.
  - intros (id & (t & e & Htm & Ec)%replace_stats). apply replace_entries in Htm as [(s & Hs & _ & _ & ->)|[Htm Hg]].
    + destruct (Hr s Hs) as (? & ? & _ & _ & _ & _ & _ & E & _). exists data. apply replace_lookup. left. by rewrite <-Ec, E.
    + destruct (si_sound _ _ _ _ S _ _ _ Htm) as (d & _ & _ & Hc & _). exists d. apply replace_lookup. right.
      rewrite Ec in *. split; [intros ->; congruence|done].
  - intros (d & [[-> ->]|(Hne' & Hg & Hc)]%replace_lookup).
    + assert (∃ e, e ∈ data) as ([key pts] & Hin) by (destruct data as [|e ?]; [done|exists e; left]).
      destruct (Hr' key pts Hin) as (s & Hs & _). exists (record_id s).
      destruct (Hr s Hs) as (? & ? & _ & _ & _ & _ & _ & E & _). rewrite <-E at 1.
      apply (wf_stats _ replace_wf (record_id s) (record_start s)), replace_entries. left. by exists s.
    + destruct (proj1 (wf_files _ (si_idx _ _ _ _ S) c)) as (id & Hst); [apply (si_listed _ _ _ _ S); by exists d|].
      destruct (si_stats _ _ _ _ S _ _ Hst) as (t & e & Htm & Ec). exists id. rewrite <-Ec.
      apply (wf_stats _ replace_wf id t), replace_entries. right. by rewrite Ec.
Qed.

(** The store after the replacement. *)
Lemma store_replace : store_inv w fs' idx' (replace_chunks content G cid data).
Proof.
  destruct (described_records _ _ _ Hd) as [Hr Hr']. split.
  - exact replace_wf.
  - intros c m Hm. destruct (deregister_all_maps idx1 L) as (_ & _ & _ & Hfl).
    apply Hfl, files_register_list in Hm as [[-> (s & Hs & <-)]|[Hm _]]; [|by apply (si_path _ _ _ _ S)].
    destruct (Hr s Hs) as (? & ? & _ & _ & _ & _ & _ & -> & _). done.
  - exact replace_listed.
  - intros c d [[-> ->]|(_ & Hg & Hc)]%replace_lookup; [done|].
    destruct (si_file _ _ _ _ S _ _ Hc) as (? & ? & ? & seed & p & ? & ? & Hfs). split_and!; [done..|].
    exists seed, p. split_and!; [done..|]. by rewrite Hold.
  - intros id t e [(s & Hs & -> & -> & ->)|[Htm Hg]]%replace_entries.
    + destruct (Hr s Hs) as (key & pts & Hin & Ek & Eid & Est & Een & Ec & _). exists data, key, pts.
      split; [apply replace_lookup; by left|]. split; [done|]. split; [done|].
      split; [rewrite <-Ek; by apply (proj1 (replace_registry _))|done].
    + destruct (si_sound _ _ _ _ S _ _ _ Htm) as (d & key & pts & Hc & Hin & Eid & Hreg & E).
      exists d, key, pts. split; [apply replace_lookup; right; split; [by apply (replace_fresh id t)|done]|].
      do 2 (split; [done|]). split; [by apply (proj2 (replace_registry _))|done].
  - intros c d key pts [[-> ->]|(Hne' & Hg & Hc)]%replace_lookup Hin.
    + destruct (Hr' key pts Hin) as (s & Hs & Ek & Est).
      destruct (Hr s Hs) as (key' & ? & _ & Ek' & Eid & _ & _ & Ec & _). rewrite Ek in Ek'. subst key'.
      split; [rewrite <-Ek; by apply (proj1 (replace_registry _))|].
      exists (sr_entry s). split; [|done]. apply replace_entries. left. by exists s.
    + destruct (si_complete _ _ _ _ S _ _ _ _ Hc Hin) as (Hreg & e & Htm & Ec).
      split; [by apply (proj2 (replace_registry _))|]. exists e. split; [|done]. apply replace_entries. right. by rewrite Ec.
  - exact replace_stats.
Qed.

End Replace.

(** ** Flushing *)

Lemma store_inv_fs w fs fs' idx content :
  store_inv w fs idx content → (∀ c, is_Some (content !! c) → fs' !! chunk_path w c = fs !! chunk_path w c) →
  store_inv w fs' idx content.
Proof.
  intros [? ? ? Hf ? ? ?] Hfs. split; try done. intros c data Hc.
  destruct (Hf c data Hc) as (? & ? & ? & seed & p & ? & ? & E). split_and!; [done..|].
  exists seed, p. split_and!; [done..|]. rewrite Hfs; [done|by exists data].
Qed.

(** Chunk files of different chunks have different paths: the header names the chunk. *)
Lemma file_holds_id fs path c c' data data' :
  file_holds fs path c data → file_holds fs path c' data' → c = c'.
Proof.
  intros (Hd & Hv & _ & seed & p & Hp & Hfit & E) (Hd' & Hv' & _ & seed' & p' & Hp' & Hfit' & E').
  assert (chunk_bytes c p = chunk_bytes c' p') as Eb by congruence.
  pose proof (chunk_parse_header _ _ _ _ Hp (data_chunk_wf _ Hd Hv) Hfit) as Hh.
  pose proof (chunk_parse_header _ _ _ _ Hp' (data_chunk_wf _ Hd' Hv') Hfit') as Hh'.
  rewrite Eb, Hh' in Hh. assert (chunk_header c' p' = chunk_header c p) as Ehdr by congruence.
  by apply (f_equal chunk_id) in Ehdr.
Qed.

(** The data a write encodes, when all of it fits. *)
Record writable (data : SeriesData) (now seed : Z) : Prop := {
  wr_data : data_wf data;
  wr_values : values_wf data;
  wr_keys : keys_clean data;
  wr_fits : data_fits data now seed
}.

Lemma non_empty_all data : data_wf data → non_empty data = data.
Proof.
  intros [_ Hall]. unfold non_empty. clear -Hall. induction Hall as [|[k [|q pts]] data [_ Hne] Hall IH]; cbn; [done..|].
  by rewrite IH.
Qed.

Lemma write_holds w fs data now seed io fs' r :
  write w fs data now seed io = (fs', Ok r) → writable data now seed →
  fs !! chunk_path w (new_chunk_id now) = None ∧
  (∀ path, path ≠ chunk_path w (new_chunk_id now) → fs' !! path = fs !! path) ∧
  file_path (cw_chunk_meta r) = chunk_path w (new_chunk_id now) ∧
  file_holds fs' (chunk_path w (new_chunk_id now)) (new_chunk_id now) data ∧
  Forall2 (describes (new_chunk_id now)) data (cw_series_results r) ∧ data ≠ [].
Proof.
  intros Hw [Hd Hv Hk Hf]. assert (data ≠ []) as Hne by (by intros ->).
  apply write_Ok_inv in Hw as (p & Hp & Hnone & _ & Epath & -> & _ & Er). rewrite Epath in *.
  split_and!; [done| |done| | |done].
  - intros path Hpath. by rewrite lookup_insert_ne.
  - split_and!; [done..|]. exists seed, p. split; [done|]. split; [by apply Hf|]. apply lookup_insert_eq.
  - rewrite Er, <-(non_empty_all data Hd) at 1. apply pass2_describes. by destruct (chunk_of_spec _ _ _ Hp).
Qed.

Lemma write_Err_fs w fs data now seed io fs' e path :
  write w fs data now seed io = (fs', Err e) → is_Some (fs !! path) → fs' !! path = fs !! path.
Proof.
  intros Hw [b Hb]. destruct (decide (data = [])) as [->|Hne]; [by injection Hw as <- _|].
  destruct (write_cases w fs data now seed io Hne) as (p & _ & E). rewrite Hw in E. cbv zeta in E.
  destruct (fs !! chunk_path w (new_chunk_id now)) eqn:Ef; [by injection E as -> _|].
  destruct io as [|n]; [done|]. injection E as -> _. rewrite lookup_insert_ne; [done|]. congruence.
Qed.

Lemma dereg_none idx : dereg_ok idx [] [].
Proof. split; [by intros d ?%elem_of_nil|]. by intros id t e _ ?%elem_of_nil. Qed.

Lemma store_flush w fs idx content data now seed io fs' r :
  store_inv w fs idx content → write w fs data now seed io = (fs', Ok r) → writable data now seed →
  content !! new_chunk_id now = None → fresh_data idx [] data →
  store_inv w fs' (register_all idx r) (<[new_chunk_id now := data]> content).
Proof.
  intros S Hw Wr Hc F. destruct (write_holds _ _ _ _ _ _ _ _ Hw Wr) as (Hnone & Hoth & Ep & Hh & Hd & Hne).
  pose proof (store_replace w fs fs' idx content [] [] (new_chunk_id now) data (cw_series_results r) (cw_chunk_meta r)
    S (dereg_none idx) F Hd Hne Hc (not_elem_of_nil _) Ep Hh) as Hs.
  assert (filter (λ c : Z * SeriesData, c.1 ∉ []) content = content) as E.
  { apply map_filter_id. intros c d _. cbn. apply not_elem_of_nil. }
  unfold replace_chunks in Hs. rewrite E in Hs. apply Hs. intros c _ (d & Hcd). apply Hoth.
  intros Epath. destruct (si_file _ _ _ _ S _ _ Hcd) as (_ & _ & _ & ? & ? & _ & _ & Hfs).
  rewrite Epath, Hnone in Hfs. done.
Qed.

End Store.
