(* ===== verification/StoreMerge.v ===== *)
(** * Compaction of the chunk store

    A merge replaces the chunks of a group by one chunk with the last value of every cell in
    the order of the group.  The store holds nothing new afterwards, it has a value for every
    cell it had one for, and the cells on which the chunks of the group do not clash keep
    their values, whatever fails in the cycle.  The conditions of flushes and merges are
    decidable propositions over the files and the index. *)
From S2P Require Import Prelude BTree F64 Externals Types Memtable Fs ChunkFormat ChunkWriter ChunkReader ChunkFile WalWriter Recovery GroupCommit ChunkIndex Persistence Compaction Config Server QuerySource Store.

Section Merging.
Context `{XxHash, Crc32, Lz4, BloomFilter, !Crc32Laws, !Lz4Laws, !BloomLaws}.

(** ** Merging *)

(** The group names chunks of the content, by their paths. *)
Definition group_known (w : ChunkWriter) (content : Content) (group : list (Z * string)) (datas : list SeriesData) : Prop :=
  Forall2 (λ c d, content !! c.1 = Some d ∧ c.2 = chunk_path w c.1) group datas.

Definition merged (datas : list SeriesData) : SeriesData := fold_left merge_point (concat (map all_points datas)) [].

Lemma elem_of_all_points data p :
  data_wf data → p ∈ all_points data ↔ data_lookup data (point_key p) (timestamp_ns p) = Some (value p).
Proof.
  intros Hd. rewrite data_lookup_In by done. unfold all_points. rewrite elem_of_flat_map.
  setoid_rewrite elem_of_map. split.
  - intros ([k pts] & Hk & ([ts v] & -> & Hq)). exists pts. by destruct k.
  - intros (pts & Hk & Hq). exists (point_key p, pts). split; [done|]. exists (timestamp_ns p, value p).
    split; [by destruct p|done].
Qed.

Lemma group_known_reads w fs idx content group datas :
  store_inv w fs idx content → group_known w content group datas → group_reads fs group (map all_points datas).
Proof.
  intros S Hg. unfold group_reads. induction Hg as [|c d group datas [Hc Ep] Hg IH]; cbn; constructor; [|done].
  rewrite Ep. by eapply store_read_chunk, (si_file _ _ _ _ S).
Qed.

Lemma group_known_In w content group datas c :
  group_known w content group datas → c ∈ map fst group → ∃ d, content !! c = Some d ∧ d ∈ datas.
Proof.
  intros Hg (g & -> & (i & Hi)%list_elem_of_lookup)%elem_of_map.
  destruct (Forall2_lookup_l _ _ _ _ _ Hg Hi) as (d & Hd & Hc & _). exists d. split; [done|].
  by eapply list_elem_of_lookup_2.
Qed.

Lemma group_known_data w content group datas d :
  group_known w content group datas → d ∈ datas → ∃ c, c ∈ map fst group ∧ content !! c = Some d.
Proof.
  intros Hg (i & Hi)%list_elem_of_lookup. destruct (Forall2_lookup_r _ _ _ _ _ Hg Hi) as (c & Hci & Hc & _).
  exists c.1. split; [|done]. apply elem_of_map. exists c. split; [done|]. by eapply list_elem_of_lookup_2.
Qed.

Lemma elem_of_parts datas p :
  Forall data_wf datas →
  p ∈ concat (map all_points datas) ↔ ∃ d, d ∈ datas ∧ data_lookup d (point_key p) (timestamp_ns p) = Some (value p).
Proof.
  intros Hall. rewrite Forall_forall in Hall. rewrite <-flat_map_concat_map, elem_of_flat_map. split.
  - intros (d & Hd & Hp). exists d. split; [done|]. apply elem_of_all_points; auto.
  - intros (d & Hd & Hp). exists d. split; [done|]. apply elem_of_all_points; auto.
Qed.

(** The merged data: the last value of every cell of the parts. *)
Lemma merged_lookup datas k ts :
  data_wf (merged datas) ∧ data_lookup (merged datas) k ts = last_write (concat (map all_points datas)) k ts.
Proof.
  destruct (merge_points_spec (concat (map all_points datas)) []) as [Hw Hl]; [split; constructor|].
  split; [exact Hw|]. unfold merged. rewrite Hl. by destruct (last_write _ k ts).
Qed.

Lemma merged_sound datas k ts v :
  Forall data_wf datas → data_lookup (merged datas) k ts = Some v → ∃ d, d ∈ datas ∧ data_lookup d k ts = Some v.
Proof.
  intros Hall. destruct (merged_lookup datas k ts) as [_ ->]. intros (p & Hp & <- & <- & <-)%last_write_Some_In.
  by apply elem_of_parts in Hp.
Qed.

Lemma merged_complete datas d k ts v :
  Forall data_wf datas → d ∈ datas → data_lookup d k ts = Some v →
  is_Some (data_lookup (merged datas) k ts).
Proof.
  intros Hall Hd Hl. destruct (merged_lookup datas k ts) as [_ ->].
  assert (∃ p, point_key p = k ∧ timestamp_ns p = ts ∧ value p = v) as (p & <- & <- & <-).
  { exists (to_point k (ts, v)). by destruct k. }
  apply last_write_In, elem_of_parts; [done|]. by exists d.
Qed.

(** Every merged series is a series of a part that starts where the merged one starts. *)
Lemma merged_series datas key pts :
  Forall data_wf datas → (key, pts) ∈ merged datas →
  ∃ d pts', d ∈ datas ∧ (key, pts') ∈ d ∧ vec_start pts' = vec_start pts.
Proof.
  intros Hall Hin. destruct (merged_lookup datas key 0) as [Hm _]. pose proof Hm as [Hb Hvs].
  rewrite Forall_forall in Hvs. destruct (Hvs _ Hin) as [Hsort Hne]. cbn in Hsort, Hne.
  destruct (hd_last_In pts Hne) as [([ts v] & Hq & Ets) _]. cbn in Ets.
  assert (data_lookup (merged datas) key ts = Some v) as Hl by (apply data_lookup_In; [done|by exists pts]).
  destruct (merged_sound datas key ts v Hall Hl) as (d & Hd & Hld).
  rewrite Forall_forall in Hall. pose proof (Hall d Hd) as Hdw.
  apply data_lookup_In in Hld as (pts' & Hin' & Hq'); [|done]. exists d, pts'. do 2 (split; [done|]).
  pose proof Hdw as [Hb' Hvs']. rewrite Forall_forall in Hvs'. destruct (Hvs' _ Hin') as [Hsort' Hne']. cbn in Hsort', Hne'.
  destruct (sorted_hd_last pts' (ts, v) Hsort' Hq') as [Hle _]. cbn in Hle.
  destruct (hd_last_In pts' Hne') as [([ts0 v0] & Hq0 & Ets0) _]. cbn in Ets0.
  destruct (merged_complete datas d key ts0 v0) as [v1 Hl1]; [by apply Forall_forall|done|apply data_lookup_In; [done|by exists pts']|].
  apply data_lookup_In in Hl1 as (pts1 & Hin1 & Hq1); [|done].
  assert (pts1 = pts) as -> by (apply bt_In_get in Hin, Hin1; [congruence|done..]).
  destruct (sorted_hd_last pts (ts0, v1) Hsort Hq1) as [Hle1 _]. cbn in Hle1.
  unfold vec_start. lia.
Qed.

Lemma group_data_wf w fs idx content group datas :
  store_inv w fs idx content → group_known w content group datas → Forall data_wf datas.
Proof.
  intros S Hg. apply Forall_forall. intros d Hd. destruct (group_known_data _ _ _ _ _ Hg Hd) as (c & _ & Hc).
  by apply (si_file _ _ _ _ S _ _ Hc).
Qed.

(** The series of a group can be registered again. *)
Lemma merged_fresh w fs idx content group datas :
  store_inv w fs idx content → group_known w content group datas →
  fresh_data idx (map fst group) (merged datas) ∧ keys_clean (merged datas).
Proof.
  intros S Hg. pose proof (group_data_wf _ _ _ _ _ _ S Hg) as Hall.
  assert (∀ key pts, (key, pts) ∈ merged datas → ∃ c d pts', c ∈ map fst group ∧ content !! c = Some d ∧
    (key, pts') ∈ d ∧ vec_start pts' = vec_start pts) as Hser.
  { intros key pts Hin. destruct (merged_series _ _ _ Hall Hin) as (d & pts' & Hd & Hin' & E).
    destruct (group_known_data _ _ _ _ _ Hg Hd) as (c & Hc & Hcd). by exists c, d, pts'. }
  assert (∀ key pts, (key, pts) ∈ merged datas → series_registry idx !! series_id key = Some key) as Hreg.
  { intros key pts Hin. destruct (Hser _ _ Hin) as (c & d & pts' & _ & Hc & Hin' & _).
    by apply (si_complete _ _ _ _ S _ _ _ _ Hc) in Hin' as [? _]. }
  split; [split|].
  - intros key pts Hin. by apply (wf_ids _ (si_idx _ _ _ _ S) _ _ (Hreg _ _ Hin)).
  - intros key pts Hin k Hk. rewrite (Hreg _ _ Hin) in Hk. congruence.
  - intros key pts key' pts' Hin Hin' E. pose proof (Hreg _ _ Hin) as Hr. pose proof (Hreg _ _ Hin') as Hr'.
    rewrite E in Hr. congruence.
  - intros key pts e Hin Htm. destruct (Hser _ _ Hin) as (c & d & pts' & Hcg & Hc & Hin' & E).
    destruct (si_complete _ _ _ _ S _ _ _ _ Hc Hin') as (_ & e' & Htm' & Ec). rewrite E in Htm'.
    pose proof (wf_sorted _ (si_idx _ _ _ _ S) (series_id key)) as Hb.
    apply bt_get_In in Htm, Htm'; [|done..]. rewrite Htm in Htm'. injection Htm' as <-. by rewrite Ec.
  - unfold keys_clean. apply Forall_forall. intros [key pts] Hin.
    destruct (Hser _ _ Hin) as (c & d & pts' & _ & Hc & Hin' & _).
    destruct (si_file _ _ _ _ S _ _ Hc) as (_ & _ & Hk & _). unfold keys_clean in Hk. rewrite Forall_forall in Hk.
    by apply (Hk _ Hin').
Qed.

(** The chunks of the group have one value for the cell, or none. *)
Definition agree_on (datas : list SeriesData) (k : SeriesKey) (ts : Z) : Prop :=
  ∀ d d' v v', d ∈ datas → d' ∈ datas → data_lookup d k ts = Some v → data_lookup d' k ts = Some v' → v = v'.

(** The cells on which two points of the list differ. *)
Definition clashes (ps : list DataPoint) : list (SeriesKey * Z) :=
  map (λ p, (point_key p, timestamp_ns p))
    (List.filter (λ p, existsb (λ q, bool_decide (point_key q = point_key p ∧ timestamp_ns q = timestamp_ns p ∧ value q ≠ value p)) ps) ps).
Definition group_clashes (fs : Fs) (g : MergeGroup) : list (SeriesKey * Z) :=
  match collect (map (λ c, read_chunk fs c.2) (chunks g)) with Ok parts => clashes (concat parts) | Err _ => [] end.

(** What becomes of the cells of a store when chunks are merged: nothing is new, and every
    cell has a value afterwards, the same one unless the chunks clash on it. *)
Record cells_merged (clashed : list (SeriesKey * Z)) (content content' : Content) : Prop := {
  cm_sound : ∀ k ts v, content_cell content' k ts v → content_cell content k ts v;
  cm_keeps : ∀ k ts v, content_cell content k ts v → ∃ v', (v' = v ∨ (k, ts) ∈ clashed) ∧ content_cell content' k ts v'
}.

Lemma cells_merged_refl content : cells_merged [] content content.
Proof. split; eauto. Qed.

Lemma cells_merged_trans l l' c1 c2 c3 : cells_merged l c1 c2 → cells_merged l' c2 c3 → cells_merged (l ++ l') c1 c3.
Proof.
  intros [S1 K1] [S2 K2]. split; [by auto|]. intros k ts v (v1 & E1 & Hv1)%K1. destruct (K2 k ts v1 Hv1) as (v2 & E2 & Hv2).
  exists v2. split; [|done]. rewrite elem_of_app. destruct E1 as [->|?], E2 as [->|?]; auto.
Qed.

Lemma clashes_agree datas k ts :
  Forall data_wf datas → (k, ts) ∉ clashes (concat (map all_points datas)) → agree_on datas k ts.
Proof.
  intros Hall Hn d d' v v' Hd Hd' Hl Hl'. destruct (decide (v = v')) as [|Hne]; [done|]. exfalso. apply Hn.
  assert (∀ d v, d ∈ datas → data_lookup d k ts = Some v → to_point k (ts, v) ∈ concat (map all_points datas)) as Hin.
  { intros d0 v0 H0' Hl0. apply elem_of_parts; [done|]. exists d0. by destruct k. }
  apply elem_of_map. exists (to_point k (ts, v)). split; [by destruct k|]. apply elem_of_filterb. split; [exact (Hin d v Hd Hl)|].
  apply existsb_exists. exists (to_point k (ts, v')). split; [apply list_elem_of_In; exact (Hin d' v' Hd' Hl')|].
  apply bool_decide_eq_true. destruct k. split_and!; [done..|]. cbn. congruence.
Qed.

(** What a merge does to the cells of the store. *)
Lemma merge_cells w fs idx content group datas cid :
  store_inv w fs idx content → group_known w content group datas → content !! cid = None →
  cells_merged (clashes (concat (map all_points datas))) content
    (replace_chunks content (map fst group) cid (merged datas)).
Proof.
  intros S Hg Hcid. pose proof (group_data_wf _ _ _ _ _ _ S Hg) as Hall.
  assert (∀ k ts v, content_cell content k ts v →
    content_cell (replace_chunks content (map fst group) cid (merged datas)) k ts v ∨
    ∃ d v', d ∈ datas ∧ data_lookup d k ts = Some v ∧ data_lookup (merged datas) k ts = Some v') as Hcase.
  { intros k ts v (c & d & Hc & Hl). destruct (decide (c ∈ map fst group)) as [Hin|Hn].
    - right. destruct (group_known_In _ _ _ _ _ Hg Hin) as (d' & Hc' & Hd). rewrite Hc in Hc'. injection Hc' as <-.
      destruct (merged_complete _ _ _ _ _ Hall Hd Hl) as [v' Hv']. by exists d, v'.
    - left. exists c, d. split; [|done]. apply replace_lookup. right. split_and!; [congruence|done..]. }
  assert (∀ k ts v, data_lookup (merged datas) k ts = Some v →
    content_cell (replace_chunks content (map fst group) cid (merged datas)) k ts v) as Hnew.
  { intros k ts v Hl. exists cid, (merged datas). split; [|done]. apply replace_lookup. by left. }
  split.
  - intros k ts v (c & d & [[-> ->]|(_ & _ & Hc)]%replace_lookup & Hl); [|by exists c, d].
    destruct (merged_sound _ _ _ _ Hall Hl) as (d & Hd & Hld).
    destruct (group_known_data _ _ _ _ _ Hg Hd) as (c & _ & Hc). by exists c, d.
  - intros k ts v Hc. destruct (Hcase k ts v Hc) as [?|(d & v' & Hd & Hl & Hl')]; [exists v; by auto|].
    exists v'. split; [|by auto]. destruct (decide ((k, ts) ∈ clashes (concat (map all_points datas)))) as [|Hn]; [by right|left].
    destruct (merged_sound _ _ _ _ Hall Hl') as (d' & Hd' & Hld').
    exact (clashes_agree datas k ts Hall Hn d' d v' v Hd' Hd Hld' Hl).
Qed.

Lemma known_path w fs idx content c c' d d' :
  store_inv w fs idx content → content !! c = Some d → content !! c' = Some d' →
  chunk_path w c = chunk_path w c' → c = c'.
Proof.
  intros S Hc Hc' E. eapply file_holds_id; [by eapply (si_file _ _ _ _ S)|]. rewrite E. by eapply (si_file _ _ _ _ S).
Qed.

Lemma group_paths w fs idx content group datas c :
  store_inv w fs idx content → group_known w content group datas →
  c ∉ map fst group → is_Some (content !! c) → Forall (λ g, g.2 ≠ chunk_path w c) group.
Proof.
  intros S Hg Hn [d Hc]. apply Forall_forall. intros g (i & Hi)%list_elem_of_lookup E.
  destruct (Forall2_lookup_l _ _ _ _ _ Hg Hi) as (d' & _ & Hc' & Ep). rewrite E in Ep.
  apply Hn, elem_of_map. exists g. split; [|by eapply list_elem_of_lookup_2].
  by eapply known_path.
Qed.

(** One merge keeps the invariant, also when it fails. *)
Lemma store_merge wk fs idx content g datas env :
  store_inv (cw_writer wk) fs idx content → group_known (cw_writer wk) content (chunks g) datas →
  dereg_ok idx (map fst (chunks g)) (to_deregister g) → values_wf (merged datas) →
  data_fits (merged datas) (env_now env) (env_seed env) → content !! new_chunk_id (env_now env) = None →
  match merge_group wk fs idx g env with
  | (fs', idx', Ok r) =>
      store_inv (cw_writer wk) fs' idx'
        (replace_chunks content (map fst (chunks g)) (new_chunk_id (env_now env)) (merged datas)) ∧
      (∀ id t e, (t, e) ∈ time_map idx' id →
         ce_chunk_id e = new_chunk_id (env_now env) ∨ ((t, e) ∈ time_map idx id ∧ ce_chunk_id e ∉ map fst (chunks g))) ∧
      (∀ id t e, (t, e) ∈ time_map idx id → ce_chunk_id e ∉ map fst (chunks g) → (t, e) ∈ time_map idx' id)
  | (fs', idx', Err _) => idx' = idx ∧ store_inv (cw_writer wk) fs' idx content
  end.
Proof.
  intros S Hg HL Hv Hfit Hcid. set (w := cw_writer wk) in *. pose proof (group_known_reads _ _ _ _ _ _ S Hg) as Hr.
  unfold merge_group. rewrite (merge_chunks_spec _ _ _ _ Hr). fold (merged datas). fold w.
  destruct (merged_fresh _ _ _ _ _ _ S Hg) as [F Hk].
  destruct (write w fs (merged datas) (env_now env) (env_seed env) (env_io env)) as [fs1 [r|e]] eqn:Hw.
  - assert (writable (merged datas) (env_now env) (env_seed env)) as Wr.
    { split; [|done..]. by destruct (merged_lookup datas tiny_key 0). }
    destruct (write_holds _ _ _ _ _ _ _ _ Hw Wr) as (Hnone & Hoth & Ep & Hh & Hd & Hne).
    set (cid := new_chunk_id (env_now env)) in *.
    assert (cid ∉ map fst (chunks g)) as HG.
    { intros Hin. destruct (group_known_In _ _ _ _ _ Hg Hin) as (d & Hc & _). congruence. }
    assert (fs1 !! chunk_path w cid = remove_files fs1 (chunks g) (env_removed env) !! chunk_path w cid) as Enew.
    { symmetry. apply remove_files_other. by eapply group_reads_paths. }
    assert (file_holds (remove_files fs1 (chunks g) (env_removed env)) (chunk_path w cid) cid (merged datas)) as Hh'.
    { destruct Hh as (? & ? & ? & seed & p & ? & ? & Hfs). split_and!; [done..|]. exists seed, p.
      split_and!; [done..|]. by rewrite <-Enew. }
    split; [|split].
    + apply (store_replace w fs _ idx content _ _ cid (merged datas) (cw_series_results r) (cw_chunk_meta r)); try done.
      intros c Hn Hc. rewrite remove_files_other by (by eapply group_paths). apply Hoth.
      intros E. destruct Hc as [d Hc]. destruct (si_file _ _ _ _ S _ _ Hc) as (_ & _ & _ & ? & ? & _ & _ & Hfs).
      rewrite E, Hnone in Hfs. done.
    + intros id t e Htm. destruct (described_records _ _ _ Hd) as [Hrec _].
      apply (replace_entries w fs (remove_files fs1 (chunks g) (env_removed env)) idx content _ _ cid _ _ _ S HL F Hd Hcid HG Ep Hh')
        in Htm as [(s & Hs & _ & _ & ->)|?]; [left|by right].
      by destruct (Hrec s Hs) as (? & ? & _ & _ & _ & _ & _ & ? & _).
    + intros id t e Htm Hn.
      apply (replace_entries w fs (remove_files fs1 (chunks g) (env_removed env)) idx content _ _ cid _ _ _ S HL F Hd Hcid HG Ep Hh').
      by right.
  - split; [done|]. eapply store_inv_fs; [exact S|]. intros c [d Hc]. eapply write_Err_fs; [exact Hw|].
    destruct (si_file _ _ _ _ S _ _ Hc) as (_ & _ & _ & ? & ? & _ & _ & Hfs). by eexists.
Qed.

(** ** Conditions that can be checked *)

(** The data fits the file format. *)
Definition fits_ok (data : SeriesData) (now seed : Z) : Prop :=
  match pass1 data (pass1_init data seed) with Ok p => chunk_fitsb (new_chunk_id now) p = true | Err _ => False end.

(** No other key has the id of [key]. *)
Definition id_free (idx : ChunkIndex) (key : SeriesKey) : Prop :=
  match series_registry idx !! series_id key with Some k => k = key | None => True end.

(** A flush of [data] can be registered: everything fits, the chunk id is new, no hash
    collision, and no series starts at the start of an indexed chunk of the series. *)
Definition flush_ok (idx : ChunkIndex) (data : SeriesData) (now seed : Z) : Prop :=
  values_wf data ∧ keys_clean data ∧ fits_ok data now seed ∧
  chunk_files idx !! new_chunk_id now = None ∧
  Forall (λ e, id_free idx e.1 ∧ bt_get (time_map idx (series_id e.1)) (vec_start e.2) = None) data ∧
  NoDup (map (λ e, series_id e.1) data).

(** A merge of the group can be written: the merged data fits and the chunk id is new. *)
Definition merge_ok (fs : Fs) (idx : ChunkIndex) (g : MergeGroup) (env : MergeEnv) : Prop :=
  match collect (map (λ c, read_chunk fs c.2) (chunks g)) with
  | Ok parts =>
      let data := fold_left merge_point (concat parts) [] in
      values_wf data ∧ fits_ok data (env_now env) (env_seed env) ∧
      chunk_files idx !! new_chunk_id (env_now env) = None
  | Err _ => True
  end.

(** The same along the loop of [compact_once]. *)
Fixpoint merges_ok (wk : CompactionWorker) (fs : Fs) (idx : ChunkIndex) (groups : list MergeGroup)
    (env : nat → MergeEnv) (i : nat) : Prop :=
  match groups with
  | [] => True
  | g :: groups' =>
      merge_ok fs idx g (env i) ∧
      match merge_group wk fs idx g (env i) with
      | (fs1, idx1, Ok _) => merges_ok wk fs1 idx1 groups' env (S i)
      | (_, _, Err _) => True
      end
  end.

Definition compact_ok (wk : CompactionWorker) (fs : Fs) (idx : ChunkIndex) (env : nat → MergeEnv) : Prop :=
  merges_ok wk fs idx (find_candidates wk idx) env 0.

#[export] Instance values_wf_dec data : Decision (values_wf data).
Proof. unfold values_wf, in_i64, f64_wf, in_u64. apply _. Defined.
#[export] Instance keys_clean_dec data : Decision (keys_clean data).
Proof. unfold keys_clean, key_wf, key_clean, utf8_string, bt_wf, key_lt. apply _. Defined.
#[export] Instance fits_ok_dec data now seed : Decision (fits_ok data now seed).
Proof. unfold fits_ok. destruct (pass1 _ _); apply _. Defined.
#[export] Instance id_free_dec idx key : Decision (id_free idx key).
Proof. unfold id_free. destruct (series_registry _ !! _); apply _. Defined.
#[export] Instance flush_ok_dec idx data now seed : Decision (flush_ok idx data now seed).
Proof. unfold flush_ok. apply _. Defined.
#[export] Instance merge_ok_dec fs idx g env : Decision (merge_ok fs idx g env).
Proof. unfold merge_ok. destruct (collect _); apply _. Defined.
#[export] Instance merges_ok_dec wk fs idx groups env i : Decision (merges_ok wk fs idx groups env i).
Proof.
  revert fs idx i. induction groups as [|g groups IH]; intros fs idx i; cbn [merges_ok]; [apply _|].
  apply and_dec; [apply _|]. destruct (merge_group _ _ _ _ _) as [[fs1 idx1] [r|e]]; [apply IH|apply _].
Defined.
#[export] Instance compact_ok_dec wk fs idx env : Decision (compact_ok wk fs idx env).
Proof. unfold compact_ok. apply _. Defined.
#[global] Typeclasses Opaque fits_ok id_free flush_ok merge_ok merges_ok compact_ok.

Lemma fits_ok_spec data now seed : fits_ok data now seed → data_fits data now seed.
Proof.
  unfold fits_ok. intros Hf. apply data_fitsb. by destruct (pass1 _ _).
Qed.

Lemma flush_ok_spec w fs idx content data now seed :
  store_inv w fs idx content → data_wf data → flush_ok idx data now seed →
  writable data now seed ∧ content !! new_chunk_id now = None ∧ fresh_data idx [] data.
Proof.
  intros S Hd (Hv & Hk & Hf & Hc & Hall & Hnd). rewrite Forall_forall in Hall.
  split; [split; auto using fits_ok_spec|]. split.
  { destruct (content !! new_chunk_id now) eqn:E; [|done].
    destruct (proj2 (si_listed _ _ _ _ S (new_chunk_id now))) as [m Hm]; [by eexists|congruence]. }
  split.
  - intros key pts Hin. unfold keys_clean in Hk. rewrite Forall_forall in Hk. by destruct (Hk _ Hin) as [(_ & _ & ?) _].
  - intros key pts Hin k Ek. destruct (Hall _ Hin) as [Hfree _]. unfold id_free in Hfree. cbn in Hfree. by rewrite Ek in Hfree.
  - intros key pts key' pts' (i & Hi)%list_elem_of_lookup (j & Hj)%list_elem_of_lookup E.
    assert (i = j) as <-; [|congruence].
    apply (NoDup_lookup _ i j (series_id key) Hnd); rewrite list_lookup_fmap; [by rewrite Hi|rewrite Hj; cbn; congruence].
  - intros key pts e Hin Htm. destruct (Hall _ Hin) as [_ Hn]. cbn in Hn.
    apply bt_get_In in Htm; [|apply (si_idx _ _ _ _ S)]. congruence.
Qed.

(** ** A compaction cycle *)

(** The groups of a cycle: known chunks, in one group each, with their triples. *)
Definition groups_known (w : ChunkWriter) (idx : ChunkIndex) (content : Content) (groups : list MergeGroup) : Prop :=
  Forall (λ g, (∃ datas, group_known w content (chunks g) datas) ∧ dereg_ok idx (map fst (chunks g)) (to_deregister g)) groups ∧
  NoDup (concat (map (λ g, map fst (chunks g)) groups)).

Lemma group_known_collect w fs idx content g datas :
  store_inv w fs idx content → group_known w content (chunks g) datas →
  collect (map (λ c : Z * string, read_chunk fs c.2) (chunks g)) = Ok (map all_points datas).
Proof.
  intros S Hg. pose proof (group_known_reads _ _ _ _ _ _ S Hg) as Hr. clear -Hr. unfold group_reads in Hr.
  induction Hr as [|c ps group parts Hp _ IH]; cbn; [done|]. by rewrite Hp, IH.
Qed.

Lemma merge_ok_spec w fs idx content g datas env :
  store_inv w fs idx content → group_known w content (chunks g) datas → merge_ok fs idx g env →
  values_wf (merged datas) ∧ data_fits (merged datas) (env_now env) (env_seed env) ∧
  content !! new_chunk_id (env_now env) = None.
Proof.
  intros S Hg Hok. unfold merge_ok in Hok. rewrite (group_known_collect _ _ _ _ _ _ S Hg) in Hok.
  destruct Hok as (Hv & Hf & Hc). split; [done|]. split; [by apply fits_ok_spec|].
  destruct (content !! _) eqn:Ec; [|done].
  destruct (proj2 (si_listed _ _ _ _ S (new_chunk_id (env_now env)))) as [m Hm]; [by eexists|congruence].
Qed.

(** The other groups are not affected by a merge. *)
Lemma groups_known_step w idx idx' content g datas groups cid :
  groups_known w idx content (g :: groups) → content !! cid = None →
  (∀ id t e, (t, e) ∈ time_map idx' id →
     ce_chunk_id e = cid ∨ ((t, e) ∈ time_map idx id ∧ ce_chunk_id e ∉ map fst (chunks g))) →
  (∀ id t e, (t, e) ∈ time_map idx id → ce_chunk_id e ∉ map fst (chunks g) → (t, e) ∈ time_map idx' id) →
  groups_known w idx' (replace_chunks content (map fst (chunks g)) cid datas) groups.
Proof.
  intros [Hall Hnd] Hcid Hfrom Hto. apply Forall_cons in Hall as [_ Hall]. cbn in Hnd.
  apply NoDup_app in Hnd as (_ & Hdis & Hnd). split; [|done].
  rewrite Forall_forall in *. intros g' Hg'. destruct (Hall g' Hg') as [(ds & Hk) [HL1 HL2]].
  assert (∀ c, c ∈ map fst (chunks g') → c ∉ map fst (chunks g) ∧ c ≠ cid) as Hout.
  { intros c Hc. split.
    - intros Hc'. apply (Hdis c Hc'), elem_of_concat. exists (map fst (chunks g')).
      split; [apply elem_of_map; by exists g'|done].
    - intros ->. destruct (group_known_In _ _ _ _ _ Hk Hc) as (d & Hd & _). congruence. }
  split; [|split].
  - exists ds. unfold group_known in *. rewrite Forall2_lookup in *. intros i. specialize (Hk i).
    destruct (chunks g' !! i) as [c|] eqn:Ei; [|by inversion Hk; constructor].
    inversion Hk as [? d [Hc Ep]|]; subst. constructor. split; [|done]. apply replace_lookup. right.
    destruct (Hout c.1); [|done]. apply elem_of_map. exists c. split; [done|]. by eapply list_elem_of_lookup_2.
  - intros d Hd. destruct (HL1 d Hd) as (Hin & e & Htm & Ec). split; [done|]. exists e. split; [|done].
    apply Hto; [done|]. rewrite Ec. by apply Hout.
  - intros id t e Htm Hin. destruct (Hout _ Hin). destruct (Hfrom _ _ _ Htm) as [?|[Htm' _]]; [done|]. by apply HL2.
Qed.

(** The loop over the groups keeps the store and merges its cells. *)
Lemma merge_groups_store wk fs idx content groups env i nb mg :
  store_inv (cw_writer wk) fs idx content → groups_known (cw_writer wk) idx content groups →
  merges_ok wk fs idx groups env i →
  ∃ content' clashed, store_inv (cw_writer wk) (merge_groups wk fs idx groups env i nb mg).1.1
      (merge_groups wk fs idx groups env i nb mg).1.2 content' ∧ cells_merged clashed content content'.
Proof.
  revert fs idx content i nb mg. induction groups as [|g groups IH]; intros fs idx content i nb mg S Hg Hok.
  { exists content, []. split; [done|apply cells_merged_refl]. }
  cbn [merges_ok merge_groups] in *. destruct Hok as [Hm Hrest].
  pose proof Hg as [[[(datas & Hk) HL] _]%Forall_cons _].
  destruct (merge_ok_spec _ _ _ _ _ _ _ S Hk Hm) as (Hv & Hfit & Hcid).
  pose proof (store_merge wk fs idx content g datas (env i) S Hk HL Hv Hfit Hcid) as Hs.
  destruct (merge_group wk fs idx g (env i)) as [[fs1 idx1] [r|e]].
  - destruct Hs as (S1 & Hfrom & Hto).
    destruct (IH fs1 idx1 _ (Datatypes.S i) (wrap_u64 (nb + file_size (cw_chunk_meta r)))
      (wrap_u64 (mg + len (chunks g))) S1) as (content' & clashed & S' & Hcells); [by eapply groups_known_step|done|].
    eexists content', _. split; [done|]. eapply cells_merged_trans; [|exact Hcells]. by eapply merge_cells.
  - destruct Hs as [-> S1]. exists content, []. split; [done|apply cells_merged_refl].
Qed.

Lemma candidates_sublist wk idx :
  sublist (concat (map chunks (find_candidates wk idx))) (map fst (candidate_files idx)).
Proof.
  assert (map chunks (find_candidates wk idx) = group_files wk (candidate_files idx)) as ->.
  { unfold find_candidates. rewrite map_map. apply map_id. }
  destruct (candidate_files idx) as [|f files].
  { unfold group_files, close_group. cbn. destruct (min_threshold wk <=? _); cbn; constructor. }
  destruct (group_files_tiers wk (f :: files)) as (bs & Ht & ->); [by left|].
  rewrite <-concat_map, <-(tiers_concat _ _ _ Ht). apply sublist_map, concat_filter_sublist.
Qed.

Lemma deregister_list_complete idx group id t e :
  (t, e) ∈ time_map idx id → ce_chunk_id e ∈ map fst group → (id, ce_chunk_id e, t) ∈ deregister_list idx group.
Proof.
  intros Htm Hg. unfold time_map in Htm. destruct (time_index idx !! id) as [tm|] eqn:E; [|by apply elem_of_nil in Htm].
  cbn in Htm. unfold deregister_list. apply elem_of_flat_map. exists (id, tm).
  split; [by apply elem_of_map_to_list|]. apply elem_of_map. exists (t, e). split; [done|].
  apply elem_of_filterb. split; [done|]. by apply bool_decide_eq_true.
Qed.

Lemma candidates_known w fs wk idx content :
  store_inv w fs idx content → groups_known w idx content (find_candidates wk idx).
Proof.
  intros S. pose proof (candidates_sublist wk idx) as Hsub. split.
  - apply Forall_forall. intros g Hg.
    assert (∀ c, c ∈ chunks g → ∃ d, content !! c.1 = Some d ∧ c.2 = chunk_path w c.1) as Hc.
    { intros c Hc. assert (c ∈ map fst (candidate_files idx)) as Hin.
      { eapply elem_of_sublist; [|exact Hsub]. apply elem_of_concat. exists (chunks g).
        split; [apply elem_of_map; by exists g|done]. }
      apply elem_of_map in Hin as (f & -> & Hf). unfold candidate_files in Hf. rewrite sort_by_size_perm in Hf.
      apply elem_of_map in Hf as ([c0 m] & -> & [Hin _]%elem_of_filterb). apply elem_of_map_to_list in Hin. cbn in *.
      destruct (proj1 (si_listed _ _ _ _ S c0)) as [d Hd]; [by eexists|]. exists d.
      split; [done|]. by apply (si_path _ _ _ _ S). }
    split.
    + clear -Hc. unfold group_known. induction (chunks g) as [|c l IH]; [by exists []|].
      destruct (Hc c ltac:(left)) as (d & Hd). destruct IH as (ds & Hds); [intros; apply Hc; by right|].
      exists (d :: ds). by constructor.
    + unfold find_candidates in Hg. apply elem_of_map in Hg as (group & -> & _). cbn. split.
      * intros d Hd. destruct (elem_of_deregister_list _ _ _ Hd) as (e & Htm & Ec & Hin). split; [done|]. by exists e.
      * intros id t e. apply deregister_list_complete.
  - assert (concat (map (λ g, map fst (chunks g)) (find_candidates wk idx)) =
      map fst (concat (map chunks (find_candidates wk idx)))) as ->.
    { rewrite concat_map, map_map. done. }
    eapply sublist_NoDup; [apply (candidate_files_ids idx)|].
    rewrite <-(map_map fst fst). by apply sublist_map.
Qed.

(** A compaction cycle keeps the store and merges its cells. *)
Lemma compact_store wk fs idx content env :
  store_inv (cw_writer wk) fs idx content → compact_ok wk fs idx env →
  ∃ content' clashed, store_inv (cw_writer wk) (compact_once wk fs idx env).1.1 (compact_once wk fs idx env).1.2 content' ∧
    cells_merged clashed content content'.
Proof.
  intros S Hok. pose proof (candidates_known _ _ wk _ _ S) as Hg.
  destruct (merge_groups_store wk fs idx content _ env 0 0 0 S Hg Hok) as (content' & clashed & S' & Hc).
  exists content', clashed. split; [|done]. unfold compact_once. cbv zeta.
  destruct (find_candidates wk idx) as [|g gs]; [exact S'|].
  by destruct (merge_groups _ _ _ _ _ _ _ _) as [[fs1 idx1] [[nb mg]|e]].
Qed.

End Merging.
