(* ===== verification/CompactTask.v ===== *)
(** * A compaction cycle, step by step

    [compact_once] gives up the index lock between its parts: it picks the groups under the
    read lock, reads and writes chunk files without a lock, registers the merged chunk and
    drops the old entries under the write lock, and removes the old files afterwards.  Here
    the cycle is a sequence of small steps over the files and the index as they are at that
    moment.  The invariant of the cycle survives the flushes that other tasks do in between,
    every step keeps the store, and only the update of the index changes its cells, where the
    merged chunks clash.  Alone, the steps do what [compact_once]
    does ([cycle_alone]). *)
From S2P Require Import Prelude BTree F64 Externals Types Memtable Fs ChunkFormat ChunkWriter ChunkReader ChunkFile WalWriter Recovery GroupCommit ChunkIndex Persistence Compaction Config Server QuerySource Store StoreMerge.

(** Where the cycle is: between cycles, before the next group, before the index is updated
    for a chunk that is written, and with old files to remove. *)
Inductive CompactStage :=
| Idle
| Merge (groups : list MergeGroup)
| RegisterMerged (g : MergeGroup) (r : ChunkWriteResult) (groups : list MergeGroup)
| RemoveOld (old : list (Z * string)) (groups : list MergeGroup).

Section CompactTask.
Context `{XxHash, Crc32, Lz4, BloomFilter}.

(** Picking the groups, under the read lock. *)
Definition start_compact (wk : CompactionWorker) (idx : ChunkIndex) : CompactStage := Merge (find_candidates wk idx).

(** Reading the chunks of a group and writing the merged one. *)
Definition merge_write (wk : CompactionWorker) (fs : Fs) (g : MergeGroup) (env : MergeEnv) : Fs * result ChunkWriteResult :=
  match merge_chunks fs (chunks g) [] with
  | Err e => (fs, Err e)
  | Ok entries => write (cw_writer wk) fs entries (env_now env) (env_seed env) (env_io env)
  end.

(** Updating the index, under the write lock. *)
Definition merge_register (idx : ChunkIndex) (g : MergeGroup) (r : ChunkWriteResult) : ChunkIndex :=
  deregister_all (register_all idx r) (to_deregister g).

(** One step; the cycle ends at the first error. *)
Definition compact_step (wk : CompactionWorker) (fs : Fs) (idx : ChunkIndex) (st : CompactStage) (env : MergeEnv)
    : Fs * ChunkIndex * CompactStage :=
  match st with
  | Idle => (fs, idx, Idle)
  | Merge [] => (fs, idx, Idle)
  | Merge (g :: gs) =>
      match merge_write wk fs g env with
      | (fs1, Err _) => (fs1, idx, Idle)
      | (fs1, Ok r) => (fs1, idx, RegisterMerged g r gs)
      end
  | RegisterMerged g r gs => (fs, merge_register idx g r, RemoveOld (chunks g) gs)
  | RemoveOld [] gs => (fs, idx, Merge gs)
  | RemoveOld (c :: cs) gs => (if env_removed env c.2 then fs_remove fs c.2 else fs, idx, RemoveOld cs gs)
  end.

(** The cells on which the chunks clash that the next step replaces. *)
Definition step_clashes (fs : Fs) (st : CompactStage) : list (SeriesKey * Z) :=
  match st with RegisterMerged g r gs => group_clashes fs g | _ => [] end.

(** The next step can be taken: what it writes fits, and the chunk id is new. *)
Definition compact_step_ok (fs : Fs) (idx : ChunkIndex) (st : CompactStage) (env : MergeEnv) : Prop :=
  match st with Merge (g :: gs) => merge_ok fs idx g env | _ => True end.

#[export] Instance compact_step_ok_dec fs idx st env : Decision (compact_step_ok fs idx st env).
Proof. unfold compact_step_ok. destruct st as [|[|g gs]|g r gs|old gs]; apply _. Defined.

(** ** The invariant of a cycle *)

(** A merged chunk that is on disk and not in the index. *)
Definition merged_chunk (w : ChunkWriter) (fs : Fs) (content : Content) (g : MergeGroup) (r : ChunkWriteResult) : Prop :=
  ∃ datas cid, group_known w content (chunks g) datas ∧ content !! cid = None ∧ merged datas ≠ [] ∧
    file_holds fs (chunk_path w cid) cid (merged datas) ∧
    Forall2 (describes cid) (merged datas) (cw_series_results r) ∧ file_path (cw_chunk_meta r) = chunk_path w cid.

(** Files that are no longer in the index. *)
Definition old_files (w : ChunkWriter) (fs : Fs) (content : Content) (old : list (Z * string)) : Prop :=
  NoDup (map fst old) ∧
  Forall (λ c, content !! c.1 = None ∧ c.2 = chunk_path w c.1 ∧ ∃ data, file_holds fs c.2 c.1 data) old.

Definition compact_inv (w : ChunkWriter) (fs : Fs) (idx : ChunkIndex) (content : Content) (st : CompactStage) : Prop :=
  match st with
  | Idle => True
  | Merge gs => groups_known w idx content gs
  | RegisterMerged g r gs => groups_known w idx content (g :: gs) ∧ merged_chunk w fs content g r
  | RemoveOld old gs => groups_known w idx content gs ∧ old_files w fs content old
  end.

Context `{!Crc32Laws, !Lz4Laws, !BloomLaws}.

(** ** What others do in between *)

Lemma file_holds_fs fs fs' path cid data : file_holds fs path cid data → fs' !! path = fs !! path → file_holds fs' path cid data.
Proof.
  intros (? & ? & ? & seed & p & ? & ? & Hfs) E. split_and!; [done..|]. exists seed, p. split_and!; [done..|]. by rewrite E.
Qed.

Lemma file_holds_Some fs path cid data : file_holds fs path cid data → is_Some (fs !! path).
Proof. intros (_ & _ & _ & ? & ? & _ & _ & Hfs). by eexists. Qed.

(** New files do not disturb a cycle. *)
Lemma compact_inv_fs w fs fs' idx content st :
  compact_inv w fs idx content st →
  (∀ c, is_Some (fs !! chunk_path w c) → fs' !! chunk_path w c = fs !! chunk_path w c) →
  compact_inv w fs' idx content st.
Proof.
  intros I Hfs. destruct st as [|gs|g r gs|old gs]; [done|done|..]; cbn in *.
  - destruct I as [Hg (datas & cid & ? & ? & ? & Hh & ? & ?)]. split; [done|]. exists datas, cid.
    split_and!; try done. eapply file_holds_fs; [exact Hh|]. by eapply Hfs, file_holds_Some.
  - destruct I as (Hg & Hnd & HF). split; [done|]. split; [done|]. eapply Forall_impl; [exact HF|].
    intros c (Hc & Ep & data & Hh). split_and!; [done..|]. exists data. rewrite Ep in *.
    eapply file_holds_fs; [exact Hh|]. by eapply Hfs, file_holds_Some.
Qed.

(** A group with nothing in it: what a flush replaces. *)
Definition no_group : MergeGroup := {| chunks := []; to_deregister := [] |}.

Lemma replace_nothing content cid data : replace_chunks content [] cid data = <[cid := data]> content.
Proof. unfold replace_chunks. f_equal. apply map_filter_id. intros c d _. cbn. apply not_elem_of_nil. Qed.

Lemma group_known_insert w content group datas cid data :
  group_known w content group datas → content !! cid = None → group_known w (<[cid := data]> content) group datas.
Proof.
  intros Hg Hn. eapply Forall2_impl; [exact Hg|]. intros c d [Hc Ep]. split; [|done]. rewrite lookup_insert_ne; [done|]. congruence.
Qed.

Lemma groups_known_flush w fs fs' idx content gs data now seed io r :
  store_inv w fs idx content → write w fs data now seed io = (fs', Ok r) → writable data now seed →
  content !! new_chunk_id now = None → fresh_data idx [] data → groups_known w idx content gs →
  groups_known w (register_all idx r) (<[new_chunk_id now := data]> content) gs.
Proof.
  intros S Hw Wr Hc F [HF Hnd]. destruct (write_holds _ _ _ _ _ _ _ _ Hw Wr) as (_ & _ & Ep & Hh & Hd & Hne).
  assert (∀ id t e, (t, e) ∈ time_map (register_all idx r) id ↔
    (∃ s, s ∈ cw_series_results r ∧ id = record_id s ∧ t = record_start s ∧ e = sr_entry s) ∨
    ((t, e) ∈ time_map idx id ∧ ce_chunk_id e ∉ [])) as He.
  { exact (replace_entries w fs fs' idx content [] [] (new_chunk_id now) data (cw_series_results r) (cw_chunk_meta r)
      S (dereg_none idx) F Hd Hc (not_elem_of_nil _) Ep Hh). }
  rewrite <-replace_nothing. apply (groups_known_step w idx _ content no_group data gs (new_chunk_id now)); [|done|..].
  - split; [|done]. constructor; [|done]. split; [by exists []; constructor|apply dereg_none].
  - intros id t e [(s & Hs & _ & _ & ->)|[Htm Hn]]%He; [left|by right].
    destruct (described_records _ _ _ Hd) as [Hr _]. by destruct (Hr s Hs) as (? & ? & _ & _ & _ & _ & _ & ? & _).
  - intros id t e Htm Hn. apply He. by right.
Qed.

(** A flush does not disturb a cycle. *)
Lemma compact_inv_flush w fs fs' idx content st data now seed io r :
  store_inv w fs idx content → compact_inv w fs idx content st → write w fs data now seed io = (fs', Ok r) →
  writable data now seed → content !! new_chunk_id now = None → fresh_data idx [] data →
  compact_inv w fs' (register_all idx r) (<[new_chunk_id now := data]> content) st.
Proof.
  intros S I Hw Wr Hc F. destruct (write_holds _ _ _ _ _ _ _ _ Hw Wr) as (Hnone & Hoth & _).
  assert (∀ c path d, path = chunk_path w c → file_holds fs path c d →
    c ≠ new_chunk_id now ∧ file_holds fs' path c d) as Hkeep.
  { intros c path d -> Hh. destruct (file_holds_Some _ _ _ _ Hh) as [b Hb]. split; [congruence|].
    eapply file_holds_fs; [exact Hh|]. apply Hoth. congruence. }
  destruct st as [|gs|g r' gs|old gs]; [done|..]; cbn in *.
  - by eapply groups_known_flush.
  - destruct I as [Hg (datas & cid & Hk & Hn & Hm & Hh & Hd & Ep)]. split; [by eapply groups_known_flush|].
    destruct (Hkeep cid _ _ eq_refl Hh) as [Hne Hh']. exists datas, cid. split_and!; try done; [by apply group_known_insert|].
    by rewrite lookup_insert_ne.
  - destruct I as (Hg & Hnd & HF). split; [by eapply groups_known_flush|]. split; [done|]. eapply Forall_impl; [exact HF|].
    intros c (Hn & Ep & d & Hh). destruct (Hkeep c.1 c.2 d Ep Hh) as [Hne Hh']. rewrite lookup_insert_ne by done.
    split_and!; [done..|by exists d].
Qed.

(** ** The steps *)

Lemma start_compact_inv wk fs idx content :
  store_inv (cw_writer wk) fs idx content → compact_inv (cw_writer wk) fs idx content (start_compact wk idx).
Proof. intros S. by eapply candidates_known. Qed.

(** Reading and writing: the merged chunk is on disk, or nothing has changed. *)
Lemma merge_write_spec wk fs idx content g gs env :
  store_inv (cw_writer wk) fs idx content → groups_known (cw_writer wk) idx content (g :: gs) → merge_ok fs idx g env →
  let '(fs', res) := merge_write wk fs g env in
  (∀ c, is_Some (fs !! chunk_path (cw_writer wk) c) → fs' !! chunk_path (cw_writer wk) c = fs !! chunk_path (cw_writer wk) c) ∧
  match res with Ok r => merged_chunk (cw_writer wk) fs' content g r | Err _ => True end.
Proof.
  intros S [[[(datas & Hk) _] _]%Forall_cons _] Hok.
  destruct (merge_ok_spec _ _ _ _ _ _ _ S Hk Hok) as (Hv & Hfit & Hcid).
  destruct (merged_fresh _ _ _ _ _ _ S Hk) as [_ Hkeys].
  unfold merge_write. rewrite (merge_chunks_spec _ _ _ _ (group_known_reads _ _ _ _ _ _ S Hk)). fold (merged datas).
  destruct (write _ fs (merged datas) _ _ _) as [fs' [r|e]] eqn:Hw.
  - assert (writable (merged datas) (env_now env) (env_seed env)) as Wr.
    { split; [|done..]. by destruct (merged_lookup datas tiny_key 0). }
    destruct (write_holds _ _ _ _ _ _ _ _ Hw Wr) as (Hnone & Hoth & Ep & Hh & Hd & Hne). split.
    + intros c [b Hb]. apply Hoth. congruence.
    + by exists datas, (new_chunk_id (env_now env)).
  - split; [|done]. intros c Hc. by eapply write_Err_fs.
Qed.

(** The files of a group are different. *)
Lemma groups_known_NoDup w idx content g gs : groups_known w idx content (g :: gs) → NoDup (map fst (chunks g)).
Proof. intros [_ Hnd]. cbn in Hnd. by apply NoDup_app in Hnd as (? & _). Qed.

(** Updating the index: the store has the merged chunk in place of the old ones. *)
Lemma merge_register_spec w fs idx content g r gs :
  store_inv w fs idx content → groups_known w idx content (g :: gs) → merged_chunk w fs content g r →
  ∃ content', store_inv w fs (merge_register idx g r) content' ∧
    compact_inv w fs (merge_register idx g r) content' (RemoveOld (chunks g) gs) ∧
    cells_merged (group_clashes fs g) content content'.
Proof.
  intros S Hgs (datas & cid & Hk & Hcid & Hne & Hh & Hd & Ep).
  pose proof Hgs as [[[_ HL] _]%Forall_cons _]. destruct (merged_fresh _ _ _ _ _ _ S Hk) as [F _].
  assert (cid ∉ map fst (chunks g)) as HG.
  { intros Hin. destruct (group_known_In _ _ _ _ _ Hk Hin) as (d & Hc & _). congruence. }
  pose proof (replace_entries w fs fs idx content _ _ cid _ _ _ S HL F Hd Hcid HG Ep Hh) as He.
  exists (replace_chunks content (map fst (chunks g)) cid (merged datas)). split; [|split; [split; [|split]|]].
  - by apply (store_replace w fs fs idx content _ _ cid (merged datas) (cw_series_results r) (cw_chunk_meta r)).
  - eapply groups_known_step; [exact Hgs|done|..].
    + intros id t e [(s & Hs & _ & _ & ->)|?]%He; [left|by right].
      destruct (described_records _ _ _ Hd) as [Hr _]. by destruct (Hr s Hs) as (? & ? & _ & _ & _ & _ & _ & ? & _).
    + intros id t e Htm Hn. apply He. by right.
  - by eapply groups_known_NoDup.
  - apply Forall_forall. intros c Hin. pose proof Hin as (i & Hi)%list_elem_of_lookup.
    destruct (Forall2_lookup_l _ _ _ _ _ Hk Hi) as (d & _ & Hc & Epath).
    assert (c.1 ∈ map fst (chunks g)) as Hg by (apply elem_of_map; by exists c).
    split; [|split; [done|exists d; rewrite Epath; by apply (si_file _ _ _ _ S)]].
    destruct (replace_chunks _ _ _ _ !! c.1) as [d'|] eqn:E; [|done].
    apply replace_lookup in E as [[E _]|(_ & Hn & _)]; [by rewrite E in Hg|done].
  - unfold group_clashes. rewrite (group_known_collect _ _ _ _ _ _ S Hk). by eapply merge_cells.
Qed.

(** A file that is no longer in a store can be removed from it. *)
Lemma store_remove w fs idx content c data :
  store_inv w fs idx content → file_holds fs (chunk_path w c) c data → content !! c = None →
  store_inv w (fs_remove fs (chunk_path w c)) idx content.
Proof.
  intros S Hh Hn. eapply store_inv_fs; [exact S|]. intros c' [d Hc]. apply lookup_delete_ne. intros E.
  pose proof (si_file _ _ _ _ S _ _ Hc) as Hh'. rewrite <-E in Hh'. rewrite (file_holds_id _ _ _ _ _ _ Hh Hh') in Hn. congruence.
Qed.

Lemma old_files_remove w fs content c cs :
  old_files w fs content (c :: cs) → old_files w (fs_remove fs c.2) content cs.
Proof.
  intros [Hnd HF]. cbn in Hnd. apply NoDup_cons in Hnd as [Hn Hnd]. apply Forall_cons in HF as [(_ & Ep & d & Hh) HF].
  split; [done|]. rewrite Forall_forall in *. intros c' Hc'. destruct (HF c' Hc') as (Hnone & Ep' & d' & Hh'). split_and!; [done..|].
  exists d'. eapply file_holds_fs; [exact Hh'|]. apply lookup_delete_ne. intros E. apply Hn, elem_of_map. exists c'. split; [|done].
  rewrite E in Hh. by eapply file_holds_id.
Qed.

Lemma compact_step_inv wk fs idx content st env :
  store_inv (cw_writer wk) fs idx content → compact_inv (cw_writer wk) fs idx content st → compact_step_ok fs idx st env →
  let '(fs', idx', st') := compact_step wk fs idx st env in
  ∃ content', store_inv (cw_writer wk) fs' idx' content' ∧ compact_inv (cw_writer wk) fs' idx' content' st' ∧
    cells_merged (step_clashes fs st) content content'.
Proof.
  intros S I Hok. pose proof (cells_merged_refl content) as Hrefl.
  destruct st as [|[|g gs]|g r gs|[|c cs] gs]; cbn [compact_step compact_step_ok step_clashes] in *.
  - by exists content.
  - by exists content.
  - pose proof (merge_write_spec wk fs idx content g gs env S I Hok) as Hw.
    destruct (merge_write wk fs g env) as [fs' [r|e]]; destruct Hw as [Hfs Hr]; exists content;
      (split; [|done]); eapply store_inv_fs; try exact S; intros c [d Hc];
      by eapply Hfs, file_holds_Some, (si_file _ _ _ _ S).
  - destruct I as [Hgs Hm]. by apply merge_register_spec.
  - destruct I as [Hgs _]. by exists content.
  - destruct I as [Hgs Hold]. exists content. pose proof Hold as [_ [(Hn & Ep & d & Hh) HF]%Forall_cons].
    destruct (env_removed env c.2).
    + split; [|split; [split; [done|by apply old_files_remove]|done]]. rewrite Ep in *. by eapply store_remove.
    + split; [done|]. split; [|done]. split; [done|]. destruct Hold as [Hnd _]. cbn in Hnd. apply NoDup_cons in Hnd as [_ Hnd].
      by split.
Qed.

(** What a step of the cycle does to another index over the same files, such as the one a
    snapshot has saved: it is still good, unless a file it names is removed. *)
Definition removes (st : CompactStage) (env : MergeEnv) (idx : ChunkIndex) : bool :=
  match st with
  | RemoveOld (c :: cs) gs => env_removed env c.2 && bool_decide (is_Some (chunk_files idx !! c.1))
  | _ => false
  end.

Lemma compact_step_keeps wk fs idx content st env idx_s content_s :
  store_inv (cw_writer wk) fs idx content → compact_inv (cw_writer wk) fs idx content st → compact_step_ok fs idx st env →
  store_inv (cw_writer wk) fs idx_s content_s → removes st env idx_s = false →
  store_inv (cw_writer wk) (compact_step wk fs idx st env).1.1 idx_s content_s.
Proof.
  intros S I Hok Ss Hr. destruct st as [|[|g gs]|g r gs|[|c cs] gs]; try done; cbn [compact_step compact_step_ok removes] in *.
  - pose proof (merge_write_spec wk fs idx content g gs env S I Hok) as Hw.
    destruct (merge_write wk fs g env) as [fs' [r|e]]; destruct Hw as [Hfs _]; cbn [fst];
      eapply store_inv_fs; try exact Ss; intros c [d Hc]; by eapply Hfs, file_holds_Some, (si_file _ _ _ _ Ss).
  - destruct I as (_ & _ & [(_ & Ep & d & Hh) _]%Forall_cons). destruct (env_removed env c.2); [|done].
    cbn [fst]. apply bool_decide_eq_false in Hr. rewrite Ep in *. eapply store_remove; [done|exact Hh|].
    destruct (content_s !! c.1) eqn:E; [|done]. exfalso. apply Hr, (si_listed _ _ _ _ Ss). by eexists.
Qed.

(** ** The cycle alone *)

(** Steps of a cycle; strict ones write only what fits, under a new id. *)
Inductive cycle_step (wk : CompactionWorker) (strict : bool)
    : Fs * ChunkIndex * CompactStage → Fs * ChunkIndex * CompactStage → Prop :=
| do_cycle_step fs idx st env :
    (strict = true → compact_step_ok fs idx st env) → cycle_step wk strict (fs, idx, st) (compact_step wk fs idx st env).

Lemma remove_run wk strict fs idx old gs env :
  rtc (cycle_step wk strict) (fs, idx, RemoveOld old gs) (remove_files fs old (env_removed env), idx, Merge gs).
Proof.
  revert fs. induction old as [|c cs IH]; intros fs.
  - by apply rtc_once, (do_cycle_step wk strict fs idx (RemoveOld [] gs) env).
  - eapply rtc_l; [by apply (do_cycle_step wk strict fs idx (RemoveOld (c :: cs) gs) env)|apply IH].
Qed.

Lemma group_run wk strict fs idx g gs env :
  (strict = true → merge_ok fs idx g env) →
  match merge_group wk fs idx g env with
  | (fs1, idx1, Ok _) => rtc (cycle_step wk strict) (fs, idx, Merge (g :: gs)) (fs1, idx1, Merge gs)
  | (fs1, idx1, Err _) => rtc (cycle_step wk strict) (fs, idx, Merge (g :: gs)) (fs1, idx1, Idle)
  end.
Proof.
  intros Hok. pose proof (do_cycle_step wk strict fs idx (Merge (g :: gs)) env Hok) as Hs. cbn [compact_step] in Hs.
  unfold merge_group. unfold merge_write in Hs. destruct (merge_chunks fs (chunks g) []) as [entries|e]; [|by apply rtc_once].
  destruct (write _ _ _ _ _ _) as [fs1 [r|e]]; [|by apply rtc_once]. eapply rtc_l; [exact Hs|].
  eapply rtc_l; [by apply (do_cycle_step wk strict fs1 idx (RegisterMerged g r gs) env)|]. apply remove_run.
Qed.

Lemma groups_run wk strict fs idx gs env i nb mg :
  (strict = true → merges_ok wk fs idx gs env i) →
  rtc (cycle_step wk strict) (fs, idx, Merge gs)
    ((merge_groups wk fs idx gs env i nb mg).1.1, (merge_groups wk fs idx gs env i nb mg).1.2, Idle).
Proof.
  revert fs idx i nb mg. induction gs as [|g gs IH]; intros fs idx i nb mg Hok.
  { apply rtc_once. by apply (do_cycle_step wk strict fs idx (Merge []) (env i)). }
  cbn [merge_groups merges_ok] in *. pose proof (group_run wk strict fs idx g gs (env i) (λ E, proj1 (Hok E))) as Hr.
  destruct (merge_group wk fs idx g (env i)) as [[fs1 idx1] [r|e]]; [|done]. etrans; [exact Hr|].
  apply IH. intros E. apply (Hok E).
Qed.

(** The steps of a cycle nobody interferes with do what [compact_once] does, on every path
    through it. *)
Lemma cycle_alone wk strict fs idx env :
  (strict = true → compact_ok wk fs idx env) →
  rtc (cycle_step wk strict) (fs, idx, start_compact wk idx)
    ((compact_once wk fs idx env).1.1, (compact_once wk fs idx env).1.2, Idle).
Proof.
  intros Hok. pose proof (groups_run wk strict fs idx (find_candidates wk idx) env 0 0 0 Hok) as Hr.
  unfold start_compact, compact_once. cbv zeta. destruct (find_candidates wk idx) as [|g gs]; [exact Hr|].
  by destruct (merge_groups _ _ _ _ _ _ _ _) as [[fs1 idx1] [[nb mg]|e]].
Qed.

End CompactTask.
