(* ===== verification/ShardLog.v ===== *)
(** * One shard's log under the server's handlers

    The server drives the WAL task of a shard in three ways: [append] commits a group,
    the sweep collects segments, and [open] recovers, rotates and collects.  The lemmas
    here say what each does to the [WalSystem] of the shard: the invariant is kept, and
    which points recovery would return above a watermark.  A crash in the middle of an
    append leaves a directory that no running task has, with a prefix of the group's
    frames behind the log: [torn_append] says what can be read back from it. *)
From S2P Require Import Prelude BTree F64 Externals Types Memtable Fs WalWriter Recovery GroupCommit ChunkWriter ChunkIndex Persistence Compaction Config Server.

Section ShardLog.
Context `{Crc32, Codec WalEntry}.

(** What recovery would return above a watermark. *)
Definition pending_points (sys : WalSystem) (wm : Z) : list DataPoint := points_of (above wm (acked sys)).

Lemma sys_inv_seq sys : sys_inv sys → in_u64 (current_seq (writer (task sys))).
Proof. intros (older & cur & Hinv & _). apply Hinv. Qed.

Lemma sys_inv_last sys : sys_inv sys → last_seq (task sys) = current_seq (writer (task sys)).
Proof. by intros (older & cur & _ & ? & _). Qed.

(** A directory that recovery can read: segments whose sequences increase, and the
    entries that are in it above [dl_gc]. *)
Record DiskLog := { dl_dir : Dir; dl_gc : Z; dl_entries : list WalEntry }.

Definition disk_ok (l : DiskLog) : Prop :=
  ∃ segs s, dir_holds (dl_dir l) (segs ++ [s]) ∧ StronglySorted Z.lt (map sequence (log_of (segs ++ [s]))) ∧
    above (dl_gc l) (log_of (segs ++ [s])) = above (dl_gc l) (dl_entries l).

Definition disk_points (l : DiskLog) (wm : Z) : list DataPoint := points_of (above wm (dl_entries l)).
Definition disk_of (sys : WalSystem) : DiskLog :=
  {| dl_dir := dir (task sys); dl_gc := gc_seq sys; dl_entries := acked sys |}.

Lemma sys_inv_disk sys : sys_inv sys → disk_ok (disk_of sys).
Proof. intros (older & cur & [] & _ & Ha & _). by exists older, cur. Qed.

(** Every point a log can give back. *)
Definition log_points (d : Dir) : list DataPoint :=
  match recover d 0 with Ok r => rr_points r | Err _ => [] end.

Context `{!Crc32Laws, !CodecLaws WalEntry entry_wf}.

Lemma log_points_ok d segs : dir_holds d segs → log_points d = points_of (above 0 (log_of segs)).
Proof. intros Hd. unfold log_points. by rewrite (recover_ok _ _ _ Hd). Qed.

Lemma points_of_sublist es es' : sublist es es' → points_of es ⊆ points_of es'.
Proof.
  intros Hs p (e & He & Hp)%elem_of_flat_map. apply elem_of_flat_map. exists e. split; [|done].
  by eapply elem_of_submseteq, sublist_submseteq.
Qed.

Lemma above_sublist g es : sublist (above g es) es.
Proof.
  unfold above. induction es as [|e es IH]; cbn; [constructor|]. destruct (g <? sequence e); by constructor.
Qed.

Lemma sublist_above g es es' : sublist es es' → sublist (above g es) (above g es').
Proof.
  unfold above. induction 1 as [|e es es' _ IH|e es es' _ IH]; cbn; [apply sublist_nil|..].
  - destruct (g <? sequence e); [by apply sublist_skip|done].
  - destruct (g <? sequence e); [by apply sublist_cons|done].
Qed.

Lemma above_above g g' es : g <= g' → above g' (above g es) = above g' es.
Proof.
  intros Hle. unfold above. induction es as [|e es IH]; cbn; [done|]. destruct (g <? sequence e) eqn:E; cbn.
  - by rewrite IH.
  - by replace (g' <? sequence e) with false by lia.
Qed.

(** In a sorted log, what is above a higher watermark comes last. *)
Lemma above_suffix g wm es :
  wm <= g → StronglySorted Z.lt (map sequence es) → ∃ older, above wm es = older ++ above g es.
Proof.
  intros Hle. induction es as [|e es IH]; intros Hs; [by exists []|]. cbn [map] in Hs. apply StronglySorted_inv in Hs as [Hs Hlt].
  unfold above. cbn [List.filter]. destruct (g <? sequence e) eqn:Eg.
  - replace (wm <? sequence e) with true by lia. exists []. cbn [app]. f_equal. fold (above wm es) (above g es).
    unfold above. apply filter_ext_in. intros e' He'. apply list_elem_of_In in He'.
    rewrite Forall_forall in Hlt. assert (sequence e < sequence e') by (apply Hlt, elem_of_map; by exists e'). lia.
  - destruct (IH Hs) as [older E]. fold (above wm es) (above g es). rewrite E.
    destruct (wm <? sequence e); [by exists (e :: older)|by exists older].
Qed.

(** What is pending above a lower watermark ends with what is pending above a higher one. *)
Lemma pending_suffix sys g l :
  sys_inv sys → gc_seq sys <= g <= l → ∃ older, pending_points sys g = older ++ pending_points sys l.
Proof.
  intros (older & cur & Hl & _ & Ha & _) [Hg Hgl]. destruct (above_suffix l g _ Hgl (inv_sorted _ _ _ _ Hl)) as [before E].
  exists (points_of before). unfold pending_points. assert (gc_seq sys <= l) as Hgl' by lia.
  rewrite <-(above_mono _ g _ _ Hg Ha), <-(above_mono _ l _ _ Hgl' Ha), E. apply points_of_app.
Qed.

(** What is replayed above a watermark is in the log, and ends with everything known to be
    there above it. *)
Lemma disk_replay l segs wm :
  dir_holds (dl_dir l) segs → StronglySorted Z.lt (map sequence (log_of segs)) →
  above (dl_gc l) (log_of segs) = above (dl_gc l) (dl_entries l) → 0 <= wm →
  points_of (above wm (log_of segs)) ⊆ log_points (dl_dir l) ∧
  ∃ older, points_of (above wm (log_of segs)) = older ++ disk_points l (Z.max wm (dl_gc l)).
Proof.
  intros Hd Hs Ha Hwm. split.
  - rewrite (log_points_ok _ _ Hd), <-(above_above 0 wm) by done. apply points_of_sublist, above_sublist.
  - destruct (above_suffix (Z.max wm (dl_gc l)) wm _ ltac:(lia) Hs) as [older E]. exists (points_of older).
    rewrite E, points_of_app. unfold disk_points. f_equal. f_equal. eapply above_mono; [|exact Ha]. lia.
Qed.

Lemma log_points_delete d segs n :
  dir_holds d segs → in_u64 n → log_points (delete (segment_path n) d) ⊆ log_points d.
Proof.
  intros Hd Hn. rewrite (log_points_ok _ _ Hd), (log_points_ok _ _ (dir_holds_delete _ _ _ Hd Hn)).
  apply points_of_sublist, sublist_above, log_without_sublist.
Qed.

(** ** Writing a batch *)

(** The appends of several requests as one batch of the group commit. *)
Fixpoint messages_from (id : nat) (batch : list (list DataPoint)) : list WalMessage :=
  match batch with [] => [] | pts :: batch' => Append pts id :: messages_from (S id) batch' end.
Definition messages (batch : list (list DataPoint)) : list WalMessage := messages_from 0 batch.

Lemma messages_parts id batch :
  map fst (appends (messages_from id batch)) = batch ∧ drains (messages_from id batch) = [] ∧
  rotates (messages_from id batch) = [].
Proof.
  revert id. induction batch as [|pts batch IH]; intros id; [done|]. cbn. destruct (IH (S id)) as (E & ? & ?). by rewrite E.
Qed.

Lemma messages_gc batch : batch_gc (messages batch) = 0.
Proof. unfold batch_gc, messages. by destruct (messages_parts 0 batch) as (_ & -> & ->). Qed.

(** The points of numbered entries above a watermark. *)
Lemma points_of_numbered wm seq aps :
  wm <= seq → 0 <= seq → seq + len aps < u64_mod → points_of (above wm (number seq aps)) = concat (map fst aps).
Proof.
  revert seq. induction aps as [|[pts id] aps IH]; intros seq Hwm Hpos Hb; [done|].
  rewrite len_cons in Hb. pose proof (len_nonneg aps). cbn [map concat fst].
  rewrite <-(IH (seq + 1)) by lia. change (number seq ((pts, id) :: aps))
    with (number seq [(pts, O)] ++ number (wrap_u64 (seq + 1)) aps).
  rewrite above_app, points_of_app, wrap_u64_id by (split; lia). f_equal. apply points_of_group; lia.
Qed.

Lemma take_number seq aps j : take j (number seq aps) = number seq (take j aps).
Proof. revert seq j. induction aps as [|[pts id] aps IH]; intros seq [|j]; cbn; f_equal; auto. Qed.

(** Any prefix of a batch, as points. *)
Lemma points_of_prefix w batch wm j :
  in_u64 (current_seq w) → current_seq w + len (appends (messages batch)) < u64_mod → wm <= current_seq w →
  points_of (above wm (take j (new_entries w (messages batch)))) = concat (take j batch).
Proof.
  intros [H0' _] Hb Hwm. unfold new_entries. rewrite take_number, points_of_numbered; [|done..|].
  - f_equal. rewrite <-(proj1 (messages_parts 0 batch)) at 2. symmetry. apply firstn_map.
  - unfold len in *. rewrite length_take. lia.
Qed.

Lemma points_of_batch w batch wm :
  in_u64 (current_seq w) → current_seq w + len (appends (messages batch)) < u64_mod → wm <= current_seq w →
  points_of (above wm (new_entries w (messages batch))) = concat batch.
Proof.
  intros H64 Hb Hwm. pose proof (points_of_prefix w batch wm (length (new_entries w (messages batch)) + length batch) H64 Hb Hwm) as E.
  by rewrite !take_ge in E by lia.
Qed.

Lemma task_log sys batch :
  sys_inv sys → 0 <= gc_seq sys → batch_ok (writer (task sys)) (messages batch) →
  ∃ sys', task sys' = (process_batch (task sys) (messages batch) IoOk true true).1 ∧ sys_inv sys' ∧
    gc_seq sys' = gc_seq sys ∧ current_seq (writer (task sys)) <= current_seq (writer (task sys')) ∧
    (∀ wm, wm <= current_seq (writer (task sys)) → pending_points sys' wm = pending_points sys wm ++ concat batch) ∧
    log_points (dir (task sys')) = log_points (dir (task sys)) ++ concat batch.
Proof.
  intros Hinv Hgc Hb. pose proof (sys_inv_seq _ Hinv) as H64. pose proof Hb as (_ & Hseq & _).
  exists (after_batch sys (messages batch)). split; [done|]. split; [by apply sys_inv_batch|].
  split; [cbn [after_batch gc_seq]; rewrite messages_gc; lia|].
  destruct Hinv as (older & cur & Hl & El & _).
  destruct (process_batch_inv _ _ _ _ Hl El Hb) as (older' & cur' & Hl' & Elog & _ & Eseq & _).
  cbn [after_batch task]. split; [rewrite Eseq; pose proof (len_nonneg (appends (messages batch))); lia|]. split.
  - intros wm Hwm. unfold pending_points. cbn [after_batch acked]. by rewrite above_app, points_of_app, points_of_batch.
  - rewrite (log_points_ok _ _ (inv_dir _ _ _ _ Hl)), (log_points_ok _ _ (inv_dir _ _ _ _ Hl')), Elog, above_app, points_of_app.
    destruct H64. by rewrite points_of_batch.
Qed.

(** ** A crash while a batch is being written *)

(** How many frames fit into the first [k] bytes. *)
Fixpoint fitting (es : list WalEntry) (k : nat) : nat :=
  match es with
  | [] => 0
  | e :: es' => if decide (length (entry_frame e) ≤ k)%nat then S (fitting es' (k - length (entry_frame e))) else 0
  end.

Lemma fitting_complete es k j : complete_frames es k j → (j ≤ length es)%nat → j = fitting es k.
Proof.
  unfold complete_frames. revert k j. induction es as [|e es IH]; intros k j [Hk Hj] Hle; cbn in Hle; [cbn; lia|].
  cbn [fitting]. destruct j as [|j].
  - destruct Hj as [?|Hj]; [done|]. cbn [take] in Hj. rewrite length_frames_cons in Hj. rewrite take_0 in Hj. change (length (frames [])) with 0%nat in Hj.
    by rewrite decide_False by lia.
  - cbn [take] in Hk, Hj. rewrite !length_frames_cons in *. rewrite decide_True by lia. f_equal. apply IH; [|lia]. cbn in Hj. lia.
Qed.

(** What is left of a batch when the write ended as [io] says: its first groups. *)
Definition survived (t : WalTask) (batch : list (list DataPoint)) (io : io_outcome) : list (list DataPoint) :=
  match io with
  | IoOk => batch
  | IoErr k => take (fitting (new_entries (writer t) (messages batch)) k) batch
  end.

(** The task at the moment of the crash, if it was writing at all. *)
Definition torn_task (t : WalTask) (batch : list (list DataPoint)) (io : io_outcome) : WalTask :=
  match batch with [] => t | _ => (process_batch t (messages batch) io true true).1 end.

(** The log on disk after such a write. *)
Lemma torn_log t older cur batch io :
  log_inv (dir t) (writer t) older cur → last_seq t = current_seq (writer t) → batch ≠ [] →
  batch_ok (writer t) (messages batch) →
  ∃ segs s es, dir_holds (dir (torn_task t batch io)) (segs ++ [s]) ∧
    log_of (segs ++ [s]) = log_of (older ++ [cur]) ++ es ∧
    StronglySorted Z.lt (map sequence (log_of (segs ++ [s]))) ∧
    ∀ wm, wm <= current_seq (writer t) → points_of (above wm es) = concat (survived t batch io).
Proof.
  intros Hinv Hlast Hne Hb. destruct (process_batch_inv _ _ _ _ Hinv Hlast Hb) as (older' & cur' & Hinv' & Elog & _).
  pose proof (inv_seq64 _ _ _ _ Hinv) as H64. pose proof Hb as (Hes & Hseq & _). set (es := new_entries (writer t) (messages batch)) in *.
  assert (torn_task t batch io = (process_batch t (messages batch) io true true).1) as -> by (by destruct batch).
  destruct io as [|k].
  { exists older', cur', es. split_and!; [apply Hinv'|done|apply Hinv'|]. intros wm Hwm. by apply points_of_batch. }
  assert (seg_bytes cur = default [] (dir t !! file (writer t))) as Efile.
  { rewrite (inv_file _ _ _ _ Hinv), <-(inv_no _ _ _ _ Hinv).
    by rewrite (dir_holds_lookup _ _ cur (inv_dir _ _ _ _ Hinv)) by set_solver. }
  destruct (dir_holds_crash _ older cur es k (inv_dir _ _ _ _ Hinv) (inv_tail _ _ _ _ Hinv) Hes) as (j & s & Hj & _ & Es & Hd).
  rewrite failed_write_dir by (by destruct batch). rewrite (inv_no _ _ _ _ Hinv), <-(inv_file _ _ _ _ Hinv), Efile in Hd.
  assert (take j es = take (fitting es k) es) as Ej.
  { destruct (decide (j ≤ length es)%nat) as [Hle|Hgt]; [by rewrite <-(fitting_complete es k j Hj Hle)|].
    destruct Hj as [Hk [?|Hj]]; [lia|]. rewrite !take_ge in Hk by lia. rewrite !take_ge in Hj by lia. lia. }
  assert (log_of (older ++ [s]) = log_of (older ++ [cur]) ++ take j es) as El by (by rewrite !log_of_snoc, Es, app_assoc).
  exists older, s, (take j es). split_and!; [done|done|..].
  - pose proof (inv_sorted _ _ _ _ Hinv') as Hs. rewrite Elog in Hs. rewrite El. eapply StronglySorted_sublist; [|exact Hs].
    apply sublist_map, sublist_app; [done|apply sublist_take].
  - intros wm Hwm. rewrite Ej. cbn [survived]. by apply points_of_prefix.
Qed.

(** A crash in the middle of a batch: the log on disk holds what it held, and the first
    groups of the batch. *)
Lemma torn_append sys batch io :
  sys_inv sys → (batch ≠ [] → batch_ok (writer (task sys)) (messages batch)) →
  ∃ l, dl_dir l = dir (torn_task (task sys) batch io) ∧ dl_gc l = gc_seq sys ∧ disk_ok l ∧
    log_points (dl_dir l) = log_points (dir (task sys)) ++ concat (survived (task sys) batch io) ∧
    ∀ wm, wm <= current_seq (writer (task sys)) →
      disk_points l wm = pending_points sys wm ++ concat (survived (task sys) batch io).
Proof.
  intros Hinv Hb. destruct (decide (batch = [])) as [->|Hne].
  { exists (disk_of sys). split; [done|]. split; [done|].
    assert (survived (task sys) [] io = []) as -> by (destruct io; [done|apply take_nil]).
    split; [by apply sys_inv_disk|]. split; [by rewrite app_nil_r|]. intros wm _. by rewrite app_nil_r. }
  pose proof (sys_inv_seq _ Hinv) as [Hpos _]. destruct Hinv as (older & cur & Hl & Elast & Ha & _).
  destruct (torn_log _ _ _ batch io Hl Elast Hne (Hb Hne)) as (segs & s & es & Hd & El & Hs & Hpts).
  exists {| dl_dir := dir (torn_task (task sys) batch io); dl_gc := gc_seq sys; dl_entries := acked sys ++ es |}.
  cbn [dl_dir dl_gc]. split; [done|]. split; [done|]. split_and!.
  - exists segs, s. split; [done|]. split; [done|]. cbn [dl_gc dl_entries]. by rewrite El, !above_app, Ha.
  - rewrite (log_points_ok _ _ Hd), (log_points_ok _ _ (inv_dir _ _ _ _ Hl)), El, above_app, points_of_app. by rewrite Hpts.
  - intros wm Hwm. unfold disk_points, pending_points. cbn [dl_entries]. by rewrite above_app, points_of_app, Hpts.
Qed.

(** ** Collecting segments *)

(** Deleting any of the paths that are due. *)
Definition delete_paths (removed : string → bool) (d : Dir) (ps : list string) : Dir :=
  fold_left (λ d p, if removed p then delete p d else d) ps d.

Lemma sys_delete_paths sys removed ps :
  sys_inv sys → Forall (λ p, p ∈ pending sys) ps →
  ∃ sys', task sys' = with_dir (task sys) (delete_paths removed (dir (task sys)) ps) ∧ sys_inv sys' ∧
    acked sys' = acked sys ∧ gc_seq sys' = gc_seq sys ∧ pending sys' = pending sys ∧
    log_points (dir (task sys')) ⊆ log_points (dir (task sys)).
Proof.
  intros Hinv Hps. revert sys Hinv Hps. induction ps as [|p ps IH]; intros sys Hinv Hps.
  - exists sys. split; [by destruct sys as [[? ? ?] ? ? ?]|done].
  - apply Forall_cons in Hps as [Hp Hps]. unfold delete_paths. cbn [fold_left]. destruct (removed p).
    + destruct (IH (after_delete sys p) (sys_inv_delete _ _ Hinv Hp) Hps) as (sys' & Et & Hi & Ha & Hg & Hpe & Hsub).
      exists sys'. split_and!; try done. etrans; [exact Hsub|]. cbn [after_delete task with_dir dir].
      destruct Hinv as (older & cur & [Hd _ _ _ _ _ _ _] & _ & _ & Hc). rewrite Forall_forall in Hc.
      destruct (Hc p Hp) as (n & -> & _ & Hn & _). by eapply log_points_delete.
    + by apply IH.
Qed.

(** Garbage collection is a drain and the deletion of the paths it returns. *)
Lemma wal_gc_paths t g removed :
  let r := process_batch t [DrainBefore g 0] IoOk true true in
  wal_gc t g true removed = with_dir r.1 (delete_paths removed (dir r.1) (returned_paths r.2)).
Proof.
  cbv zeta. unfold wal_gc, sender_drain_completed_before.
  assert (∃ ps, (process_batch t [DrainBefore g 0] IoOk true true).2 = [(0%nat, ReplyPaths (Ok ps))]) as [ps E].
  { rewrite process_batch_ok. cbv zeta. cbn [snd]. eexists. reflexivity. }
  destruct (process_batch t [DrainBefore g 0] IoOk true true) as [t' replies]. cbn [fst snd] in *. rewrite E.
  cbn [paths_reply returned_paths flat_map snd]. by rewrite app_nil_r.
Qed.

(** Collecting segments up to [g]. *)
Lemma task_gc sys g removed :
  sys_inv sys → current_segment (writer (task sys)) + 2 < u64_mod →
  ∃ sys', task sys' = wal_gc (task sys) g true removed ∧ sys_inv sys' ∧ acked sys' = acked sys ∧
    gc_seq sys' = Z.max (gc_seq sys) (Z.max 0 g) ∧
    current_seq (writer (task sys')) = current_seq (writer (task sys)) ∧
    log_points (dir (task sys')) ⊆ log_points (dir (task sys)).
Proof.
  intros Hinv Hseg. pose proof (sys_inv_seq _ Hinv) as [H64 Hmax].
  assert (batch_ok (writer (task sys)) [DrainBefore g 0]) as Hb.
  { split; [constructor|]. split; [|done]. change (len (appends [DrainBefore g 0])) with 0. lia. }
  pose proof (sys_inv_batch _ _ Hinv Hb) as Hinv1.
  destruct (sys_delete_paths (after_batch sys [DrainBefore g 0]) removed
    (returned_paths (process_batch (task sys) [DrainBefore g 0] IoOk true true).2) Hinv1) as (sys' & Et & Hi & Ha & Hg & _ & Hsub).
  { apply Forall_forall. intros p Hp. cbn [after_batch pending]. apply elem_of_app. by right. }
  exists sys'. split; [rewrite wal_gc_paths, Et; done|]. split; [done|]. split; [rewrite Ha; cbn [after_batch acked]; by rewrite app_nil_r|].
  split; [rewrite Hg; cbn [after_batch gc_seq]; f_equal; unfold batch_gc, drain_seq; cbn; lia|].
  destruct Hinv as (older & cur & Hl & El & _).
  destruct (process_batch_inv _ _ _ _ Hl El Hb) as (older' & cur' & Hl' & Elog & _ & Eseq & _). split.
  - rewrite Et. cbn [with_dir writer after_batch task].
    rewrite Eseq. change (len (appends [DrainBefore g 0])) with 0. lia.
  - etrans; [exact Hsub|]. cbn [after_batch task].
    rewrite (log_points_ok _ _ (inv_dir _ _ _ _ Hl)), (log_points_ok _ _ (inv_dir _ _ _ _ Hl')), Elog.
    change (new_entries (writer (task sys)) [DrainBefore g 0]) with (@nil WalEntry). by rewrite app_nil_r.
Qed.

(** Deleting collected segments keeps the log's invariant. *)
Lemma log_inv_deletes d w older cur g removed ps :
  log_inv d w older cur → Forall (collectable g w older) ps →
  ∃ older', log_inv (delete_paths removed d ps) w older' cur ∧ log_points (delete_paths removed d ps) ⊆ log_points d.
Proof.
  intros Hinv Hps.
  assert (Forall (λ p, ∃ n, p = segment_path n ∧ 0 <= n < current_segment w ∧ in_u64 n) ps) as Hn.
  { eapply Forall_impl; [exact Hps|]. intros p (n & ? & ? & ? & _). by exists n. }
  clear Hps. revert d older Hinv. induction Hn as [|p ps (n & -> & Hlt & H64) Hn IH]; intros d older Hinv.
  - by exists older.
  - unfold delete_paths. cbn [fold_left]. destruct (removed (segment_path n)).
    + destruct (IH (delete (segment_path n) d) (without n older)) as (older' & Hl & Hsub); [by apply log_inv_delete|].
      exists older'. split; [done|]. etrans; [exact Hsub|]. eapply log_points_delete; [apply Hinv|done].
    + by eapply IH.
Qed.

(** Reopening a directory, rotating and collecting, as [open] does. *)
Definition reopened (d : Dir) (mb resume threshold : Z) (removed : string → bool) : WalTask :=
  let r := open d mb resume in
  let r1 := rotate r.1 r.2 true in
  let r2 := drain_completed_before r1.1.2 threshold in
  spawn (delete_paths removed r1.1.1 r2.1) r2.2.

Lemma task_reopen d segs s mb resume threshold removed :
  dir_holds d (segs ++ [s]) → seg_no s + 1 < u64_mod →
  StronglySorted Z.lt (map sequence (log_of (segs ++ [s]))) →
  seqs_below resume (log_of (segs ++ [s])) → in_u64 resume →
  ∃ sys, task sys = reopened d mb resume threshold removed ∧ sys_inv sys ∧ gc_seq sys = 0 ∧
    current_seq (writer (task sys)) = resume ∧ log_points (dir (task sys)) ⊆ log_points d.
Proof.
  intros Hd Hn Hs Hq H64. destruct (restart_log_inv d mb resume segs s Hd Hn Hs Hq H64) as [Hinv _].
  unfold restarted_task in Hinv. cbn [spawn dir writer] in Hinv. unfold reopened.
  set (r1 := rotate (open d mb resume).1 (open d mb resume).2 true) in *.
  assert (current_seq r1.1.2 = resume) as Eseq by done.
  destruct (log_inv_drain _ _ _ _ threshold Hinv) as (Hinv2 & Hc & Eq & Eg).
  set (r2 := drain_completed_before r1.1.2 threshold) in *.
  assert (Forall (collectable threshold r2.2 (segs ++ [s])) r2.1) as Hc'.
  { eapply Forall_impl; [exact Hc|]. intros p (n & ? & ? & ?). exists n. by rewrite Eg. }
  destruct (log_inv_deletes _ _ _ _ _ removed _ Hinv2 Hc') as (older & Hinv3 & Hsub).
  exists (system (spawn (delete_paths removed r1.1.1 r2.1) r2.2) (log_of (older ++ [fresh_segment (seg_no s + 1)]))).
  split; [done|]. split; [|split_and!; [done|exact (eq_trans Eq Eseq)|]].
  - exists older, (fresh_segment (seg_no s + 1)). split; [exact Hinv3|]. split; [done|]. split; [done|constructor].
  - cbn [system task spawn dir]. etrans; [exact Hsub|].
    rewrite (log_points_ok _ _ Hd), (log_points_ok _ _ (inv_dir _ _ _ _ Hinv)), (log_of_snoc (segs ++ [s])).
    cbn [fresh_segment seg_entries]. by rewrite app_nil_r.
Qed.

End ShardLog.
