(* ===== verification/Restart.v ===== *)
(** * Restarting a server

    [open] loads the snapshot and brings every shard up: the log is replayed above the
    snapshot's watermark into a chunk, the WAL resumes behind a rotation, and replayed
    segments are collected.  When the recovery chunk can be registered and written
    ([shard_clean], [shard_writes]), the shard comes up, and the store afterwards holds
    everything it held and the last write of every recovered cell; when moreover the
    sequence numbers go on ([seq_resumes]), the log satisfies its invariant again. *)
From S2P Require Import Prelude BTree F64 Externals Types Memtable Fs ChunkFormat ChunkWriter ChunkReader ChunkFile WalWriter Recovery GroupCommit ChunkIndex Persistence Compaction Config Server QuerySource Store StoreMerge ShardLog.

Section Restart.
Context `{XxHash, Crc32, Lz4, BloomFilter, Codec WalEntry, Codec IndexSnapshot, UnstableSort}.

Definition writer_of (cfg : StorageConfig) : ChunkWriter := chunk_writer_new (cfg_chunk_dir cfg).

(** A flush succeeds: it is registrable, the path is new and the write works. *)
Definition flushes (w : ChunkWriter) (fs : Fs) (idx : ChunkIndex) (data : SeriesData) (env : FlushEnv) : Prop :=
  flush_ok idx data (fe_now env) (fe_seed env) ∧ fs !! chunk_path w (new_chunk_id (fe_now env)) = None ∧ fe_io env = IoOk.

(** The data of a shard's recovery chunk. *)
Definition recovery_data (cfg : StorageConfig) (points : list DataPoint) : SeriesData :=
  entries (insert_all (new (memtable_flush_threshold_bytes cfg)) points).

(** The recovery of a shard stays within the widths, and what it writes can be registered. *)
Definition shard_clean (cfg : StorageConfig) (i : nat) (idx : ChunkIndex) (d : Dir) (env : FlushEnv) : Prop :=
  match recover d (default 0 (shard_watermarks idx !! i)), highest_segment_number d with
  | Ok r, Some n =>
      (0 < segments_replayed r ∧ n + 1 < u64_mod) ∧
      (rr_points r ≠ [] → flush_ok idx (recovery_data cfg (rr_points r)) (fe_now env) (fe_seed env))
  | _, _ => True
  end.

(** The recovery chunk, if there is one, can be written. *)
Definition shard_writes (cfg : StorageConfig) (i : nat) (fs : Fs) (idx : ChunkIndex) (d : Dir) (env : FlushEnv) : Prop :=
  match recover d (default 0 (shard_watermarks idx !! i)) with
  | Ok r => rr_points r ≠ [] → fs !! chunk_path (writer_of cfg) (new_chunk_id (fe_now env)) = None ∧ fe_io env = IoOk
  | Err _ => True
  end.

(** Both, for the shards in order. *)
Fixpoint shards_open (cfg : StorageConfig) (i : nat) (fs : Fs) (idx : ChunkIndex) (ds : list Dir) (env : nat → FlushEnv) : Prop :=
  match ds with
  | [] => True
  | d :: ds' =>
      (shard_clean cfg i idx d (env i) ∧ shard_writes cfg i fs idx d (env i)) ∧
      match open_shard cfg i fs idx d (env i) true with
      | (fs1, idx1, Ok _) => shards_open cfg (S i) fs1 idx1 ds' env
      | (_, _, Err _) => True
      end
  end.

(** The sequence numbers go on after a recovery above the watermark: the highest recovered
    sequence is below neither the watermark nor any entry of the log. *)
Definition seq_resumes (d : Dir) (wm : Z) : bool :=
  match recover d wm, recover d 0 with
  | Ok r, Ok r0 => (wm <=? last_sequence r) && (last_sequence r0 =? last_sequence r)
  | _, _ => false
  end.

#[export] Instance shard_clean_dec cfg i idx d env : Decision (shard_clean cfg i idx d env).
Proof. unfold shard_clean. destruct (recover d _); [|apply _]. destruct (highest_segment_number d); apply _. Defined.
#[export] Instance io_ok_dec (io : io_outcome) : Decision (io = IoOk).
Proof. destruct io; [left; done|right; done]. Defined.
#[export] Instance shard_writes_dec cfg i fs idx d env : Decision (shard_writes cfg i fs idx d env).
Proof. unfold shard_writes. destruct (recover d _); apply _. Defined.
#[export] Instance shards_open_dec cfg i fs idx ds env : Decision (shards_open cfg i fs idx ds env).
Proof.
  revert i fs idx. induction ds as [|d ds IH]; intros i fs idx; cbn [shards_open]; [apply _|].
  apply and_dec; [apply _|]. destruct (open_shard _ _ _ _ _ _ _) as [[fs1 idx1] [t|e]]; [apply IH|apply _].
Defined.

#[global] Typeclasses Opaque shard_clean shard_writes shards_open.

Lemma register_all_watermarks idx r : shard_watermarks (register_all idx r) = shard_watermarks idx.
Proof.
  unfold register_all. generalize (cw_chunk_meta r). intros meta. revert idx.
  induction (cw_series_results r) as [|s l IH]; intros idx; [done|]. cbn [fold_left]. by rewrite IH.
Qed.

Lemma max_sequence es a :
  Forall (λ e, in_u64 (sequence e)) es → in_u64 a →
  in_u64 (fold_left (λ m e, Z.max m (sequence e)) es a) ∧
  a <= fold_left (λ m e, Z.max m (sequence e)) es a ∧
  Forall (λ e, sequence e <= fold_left (λ m e, Z.max m (sequence e)) es a) es.
Proof.
  intros Hes. revert a. induction Hes as [|e es He Hes IH]; intros a Ha; cbn [fold_left].
  - split; [done|]. split; [lia|constructor].
  - destruct (IH (Z.max a (sequence e))) as (H64 & Hle & Hall); [unfold in_u64 in *; lia|].
    split; [done|]. split; [lia|]. constructor; [lia|done].
Qed.

(** Everything in the log is at most the highest sequence recovery reports from 0. *)
Lemma recovered_seqs segs :
  Forall segment_ok segs →
  in_u64 (last_sequence (recovered segs 0)) ∧ seqs_below (last_sequence (recovered segs 0)) (log_of segs).
Proof.
  intros Hok. assert (Forall (λ e, in_u64 (sequence e)) (log_of segs)) as Hall.
  { apply Forall_forall. intros e (s & Hs & He)%elem_of_flat_map. rewrite Forall_forall in Hok.
    destruct (Hok s Hs) as (_ & Hes & _). rewrite Forall_forall in Hes. by destruct (Hes e He) as [[? _] _]. }
  cbn [last_sequence recovered].
  destruct (max_sequence (above 0 (log_of segs)) 0) as (H64 & Hle & Hmax).
  { unfold above. rewrite Forall_forall in *. intros e [He _]%elem_of_filterb. by apply Hall. }
  { unfold in_u64. width. }
  split; [done|]. unfold seqs_below. rewrite Forall_forall in *. intros e He.
  destruct (decide (0 < sequence e)) as [Hp|Hn]; [|lia]. apply Hmax, elem_of_filterb. split; [done|lia].
Qed.

Context `{!Crc32Laws, !Lz4Laws, !BloomLaws, !CodecLaws WalEntry entry_wf}.

(** A successful flush of a memtable's data adds its cells to the store. *)
Lemma flush_adds w fs idx content data env :
  store_inv w fs idx content → data_wf data → data ≠ [] → flushes w fs idx data env →
  ∃ fs' r, write w fs data (fe_now env) (fe_seed env) (fe_io env) = (fs', Ok r) ∧
    store_inv w fs' (register_all idx r) (<[new_chunk_id (fe_now env) := data]> content) ∧
    (∀ k ts v, content_cell (<[new_chunk_id (fe_now env) := data]> content) k ts v ↔
       data_lookup data k ts = Some v ∨ content_cell content k ts v) ∧
    ∀ path, path ≠ chunk_path w (new_chunk_id (fe_now env)) → fs' !! path = fs !! path.
Proof.
  intros S Hd Hne (Hok & Hfs & Hio). rewrite Hio.
  destruct (write_succeeds w fs data (fe_now env) (fe_seed env) Hne Hfs) as (fs' & r & Hw). exists fs', r.
  destruct (flush_ok_spec _ _ _ _ _ _ _ S Hd Hok) as (Wr & Hc & F).
  split; [done|]. split; [by eapply store_flush|]. split.
  - intros k ts v. unfold content_cell. setoid_rewrite lookup_insert_Some. split.
    + intros (c & d & [[_ <-]|[_ Hd']] & Hl); [by left|right; by exists c, d].
    + intros [Hl|(c & d & Hd' & Hl)]; [exists (new_chunk_id (fe_now env)), data; auto|].
      exists c, d. split; [right; split; congruence|done].
  - by destruct (write_holds _ _ _ _ _ _ _ _ Hw Wr) as (_ & ? & _).
Qed.

Lemma recovery_chunk_ne cfg fs idx pts env :
  pts ≠ [] →
  recovery_chunk cfg fs idx pts env =
  match write (writer_of cfg) fs (entries (insert_all (new (memtable_flush_threshold_bytes cfg)) pts))
          (fe_now env) (fe_seed env) (fe_io env) with
  | (fs1, Err e) => (fs1, idx, Err e)
  | (fs1, Ok r) => (fs1, register_all idx r, Ok ())
  end.
Proof. by destruct pts. Qed.

(** What replayed points add to the store. *)
Definition replayed (content content' : Content) (pts : list DataPoint) : Prop :=
  (∀ k ts v, content_cell content k ts v → content_cell content' k ts v) ∧
  (∀ k ts v, last_write pts k ts = Some v → content_cell content' k ts v) ∧
  (∀ k ts v, content_cell content' k ts v → content_cell content k ts v ∨ to_point k (ts, v) ∈ pts).

Lemma recovery_chunk_adds cfg fs idx content pts env :
  store_inv (writer_of cfg) fs idx content →
  (pts ≠ [] → flushes (writer_of cfg) fs idx (recovery_data cfg pts) env) →
  ∃ fs' idx' content', recovery_chunk cfg fs idx pts env = (fs', idx', Ok ()) ∧
    store_inv (writer_of cfg) fs' idx' content' ∧ shard_watermarks idx' = shard_watermarks idx ∧
    replayed content content' pts.
Proof.
  intros S Hflush. destruct (decide (pts = [])) as [->|Hne].
  { exists fs, idx, content. do 3 (split; [done|]). split_and!; auto. intros k ts v Hlw. discriminate Hlw. }
  specialize (Hflush Hne). unfold recovery_data in Hflush. set (m := insert_all (new (memtable_flush_threshold_bytes cfg)) pts) in *.
  assert (mt_wf m) as Hm by apply insert_all_wf, new_wf.
  assert (∀ k ts, data_lookup (entries m) k ts = last_write pts k ts) as Hlook.
  { intros k ts. change (mt_lookup m k ts = last_write pts k ts). unfold m.
    rewrite mt_lookup_insert_all by apply new_wf. by destruct (last_write pts k ts). }
  destruct (flush_adds _ _ _ _ _ _ S (proj1 Hm) (insert_all_ne _ _ Hne) Hflush)
    as (fs' & r & Hw & S' & Hcells & _).
  exists fs', (register_all idx r), (<[new_chunk_id (fe_now env) := entries m]> content).
  split; [rewrite recovery_chunk_ne by done; fold m; by rewrite Hw|].
  split; [done|]. split; [apply register_all_watermarks|]. split_and!; intros k ts v; rewrite Hcells, ?Hlook; [auto..|].
  intros [(p & Hp & <- & <- & <-)%last_write_Some_In|?]; [right|by left]. by destruct p.
Qed.

(** A shard that came up has written its recovery chunk. *)
Lemma open_shard_writes cfg i fs idx d env rot fs' idx' t :
  open_shard cfg i fs idx d env rot = (fs', idx', Ok t) → shard_writes cfg i fs idx d env.
Proof.
  unfold open_shard, shard_writes. destruct (recover d _) as [r|e]; [|done]. intros E Hne.
  rewrite recovery_chunk_ne in E by done.
  pose proof (insert_all_ne (memtable_flush_threshold_bytes cfg) _ Hne) as Hd.
  destruct (write_cases (writer_of cfg) fs _ (fe_now env) (fe_seed env) (fe_io env) Hd) as (p & _ & Ew).
  cbv zeta in Ew. rewrite Ew in E. destruct (fs !! _); [done|]. by destruct (fe_io env).
Qed.

(** Bringing one shard up; when the sequences go on, its log is in order. *)
Lemma open_shard_spec cfg i fs idx content l env :
  let wm := default 0 (shard_watermarks idx !! i) in
  store_inv (writer_of cfg) fs idx content → disk_ok l → 0 <= wm →
  channel_ok (wal_channel_capacity cfg) = true →
  shard_clean cfg i idx (dl_dir l) env → shard_writes cfg i fs idx (dl_dir l) env →
  ∃ fs' idx' t content', open_shard cfg i fs idx (dl_dir l) env true = (fs', idx', Ok t) ∧
    store_inv (writer_of cfg) fs' idx' content' ∧ shard_watermarks idx' = shard_watermarks idx ∧
    (seq_resumes (dl_dir l) wm = true →
     ∃ sys', t = task sys' ∧ sys_inv sys' ∧ gc_seq sys' = 0 ∧ wm <= current_seq (writer (task sys')) ∧
       log_points (dir (task sys')) ⊆ log_points (dl_dir l)) ∧
    ∃ pts older, pts ⊆ log_points (dl_dir l) ∧ pts = older ++ disk_points l (Z.max wm (dl_gc l)) ∧
      replayed content content' pts.
Proof.
  intros wm S (older & cur & Hd & Hsort & Ha) Hwm0 Hch Hclean Hwr. set (segs := older ++ [cur]) in *.
  unfold shard_clean in Hclean. unfold shard_writes in Hwr. unfold seq_resumes. fold wm in Hclean, Hwr.
  rewrite (recover_ok _ _ wm Hd) in Hclean, Hwr |- *. rewrite (recover_ok _ _ 0 Hd).
  rewrite (highest_segment_number_ok _ _ _ Hd) in Hclean. destruct Hclean as ((Hsegs & Hn) & Hflush).
  destruct (disk_replay l segs wm Hd Hsort Ha Hwm0) as [Hpts [before Ebefore]].
  set (resume := last_sequence (recovered segs wm)) in *.
  set (threshold := match rr_points (recovered segs wm) with [] => wm | _ => resume end).
  destruct (recovery_chunk_adds cfg fs idx content (rr_points (recovered segs wm)) env S)
    as (fs' & idx' & content' & Erc & S' & Ewm & Hrep).
  { intros Hne. split; [by apply Hflush|]. by apply Hwr. }
  exists fs', idx', (reopened (dl_dir l) (wal_max_segment_bytes cfg) resume threshold (fe_removed env)), content'. split.
  { unfold open_shard. fold wm. rewrite (recover_ok _ _ wm Hd), Erc. fold resume. unfold reopened.
    destruct (open _ _ resume) as [d1 w1]. cbn [fst snd].
    replace (0 <? segments_replayed (recovered segs wm)) with true by lia.
    destruct (rotate d1 w1 true) as [[d2 w2] rotated] eqn:Er. cbn [fst snd].
    assert (rotated = Ok ()) as -> by (by injection Er as _ _ <-). fold threshold.
    rewrite Hch. by destruct (drain_completed_before w2 threshold). }
  split_and!; try done; [|by exists (rr_points (recovered segs wm)), before].
  intros [Hwm Elast]%andb_true_iff. zbool.
  destruct (recovered_seqs segs) as [H64 Hbelow]; [apply Hd|]. rewrite Elast in H64, Hbelow.
  destruct (task_reopen _ _ _ (wal_max_segment_bytes cfg) resume threshold (fe_removed env) Hd Hn Hsort Hbelow H64)
    as (sys' & Et & Hinv' & Hgc' & Eseq & Hsub).
  exists sys'. split_and!; [done..|by rewrite Eseq|done].
Qed.

Lemma open_shards_spec cfg i fs idx content ls env :
  let wm j := default 0 (shard_watermarks idx !! (i + j)%nat) in
  store_inv (writer_of cfg) fs idx content → Forall disk_ok ls →
  (∀ j l, ls !! j = Some l → 0 <= wm j) → channel_ok (wal_channel_capacity cfg) = true →
  shards_open cfg i fs idx (map dl_dir ls) env →
  ∃ fs' idx' ts content',
    open_shards cfg i fs idx (map dl_dir ls) env (λ _, true) = (fs', idx', Ok ts) ∧
    store_inv (writer_of cfg) fs' idx' content' ∧ shard_watermarks idx' = shard_watermarks idx ∧
    length ts = length ls ∧
    (∀ j l t, ls !! j = Some l → ts !! j = Some t → seq_resumes (dl_dir l) (wm j) = true →
       ∃ sys', t = task sys' ∧ sys_inv sys' ∧ gc_seq sys' = 0 ∧ wm j <= current_seq (writer (task sys')) ∧
         log_points (dir (task sys')) ⊆ log_points (dl_dir l)) ∧
    (∀ k ts v, content_cell content k ts v → content_cell content' k ts v) ∧
    (∀ j l k ts v, ls !! j = Some l → last_write (disk_points l (Z.max (wm j) (dl_gc l))) k ts = Some v → content_cell content' k ts v) ∧
    (∀ k ts v, content_cell content' k ts v →
       content_cell content k ts v ∨ ∃ j l, ls !! j = Some l ∧ to_point k (ts, v) ∈ log_points (dl_dir l)).
Proof.
  cbv zeta. revert i fs idx content. induction ls as [|l ls IH]; intros i fs idx content S Hinv Hgc Hch Hopen.
  - exists fs, idx, [], content. split_and!; auto; intros j l *; intros Hj; discriminate Hj.
  - apply Forall_cons in Hinv as [Hi Hinv]. cbn [shards_open map] in Hopen. destruct Hopen as [[Hc Hw] Hrest].
    pose proof (Hgc 0%nat l eq_refl) as Hg0. rewrite Nat.add_0_r in Hg0.
    destruct (open_shard_spec cfg i fs idx content l (env i) S Hi Hg0 Hch Hc Hw)
      as (fs1 & idx1 & t1 & content1 & E1 & S1 & Ew1 & Hi1 & pts & before & Hpts & Epts & Hold1 & Hnew1 & Hfrom1).
    rewrite E1 in Hrest.
    destruct (IH (Datatypes.S i) fs1 idx1 content1 S1 Hinv)
      as (fs2 & idx2 & ts2 & content2 & E2 & S2 & Ew2 & El & Hall & Hold2 & Hnew2 & Hfrom2).
    { intros j l' Hj. rewrite Ew1. specialize (Hgc (Datatypes.S j) l' Hj). by rewrite Nat.add_succ_r in Hgc. }
    { exact Hch. } { exact Hrest. }
    exists fs2, idx2, (t1 :: ts2), content2. cbn [open_shards map]. rewrite E1, E2. split; [done|].
    split; [done|]. split; [congruence|]. split; [cbn; lia|]. split_and!; [|by auto|..].
    + intros [|j] l' t' Hj Hj'; cbn in Hj, Hj'.
      * injection Hj as <-. injection Hj' as <-. rewrite Nat.add_0_r. exact Hi1.
      * specialize (Hall j l' t' Hj Hj'). rewrite Ew1 in Hall. by rewrite Nat.add_succ_r.
    + intros [|j] l' k ts v Hj Hlw; cbn in Hj.
      * injection Hj as <-. rewrite Nat.add_0_r in Hlw. apply Hold2, Hnew1. by rewrite Epts, last_write_app, Hlw.
      * apply (Hnew2 j l' k ts v Hj). rewrite Ew1. by rewrite Nat.add_succ_r in Hlw.
    + intros k ts v [Hcell|(j & l' & Hj & Hp)]%Hfrom2.
      * destruct (Hfrom1 k ts v Hcell) as [?|?]; [by left|]. right. exists 0%nat, l. auto.
      * right. by exists (Datatypes.S j), l'.
Qed.

(** What came up has one task for every directory. *)
Lemma open_shards_length cfg i fs idx ds env rot fs' idx' ts :
  open_shards cfg i fs idx ds env rot = (fs', idx', Ok ts) → length ts = length ds.
Proof.
  revert i fs idx fs' idx' ts. induction ds as [|d ds IH]; intros i fs idx fs' idx' ts E; cbn [open_shards] in E; [by injection E as _ _ <-|].
  destruct (open_shard _ _ _ _ _ _ _) as [[fs1 idx1] [t|e]]; [|done].
  destruct (open_shards _ _ _ _ _ _ _) as [[fs2 idx2] [ts2|e]] eqn:E2; [|done]. injection E as <- <- <-. cbn. f_equal. by eapply IH.
Qed.

End Restart.
