(* ===== verification/System.v ===== *)
(** * The whole system

    The server as a state machine in which the parts of the handlers and of the background
    tasks take turns: a batch of groups is written to the log of a shard, or that fails; a
    group that is in the log is inserted into its memtable, in whatever order the requests
    get there, or is given up (its request was dropped, or failed at another shard); a
    request is answered; a sweep drains a memtable and, later, writes the chunk; a snapshot
    reads the watermarks and, later, saves the index; a compaction picks groups, writes a
    merged chunk, updates the index and removes the old files one by one; the server
    crashes while every shard may be in the middle of writing a batch, and restarts.  The
    state keeps, besides the server, what is between two parts (the drained data, the
    watermarks read, the groups that are logged and not inserted), the points that were
    inserted and the points that were logged, shard by shard and each in its own order, and
    what has gone wrong so far: whether the logs are still in order, which shards'
    watermarks have run ahead of their memtables, which shards have dropped the data of a
    failed flush, and whether the snapshot on disk together with the logs accounts for
    everything, and on which cells chunks have been merged that clash.  The steps have no
    other conditions than that there is something to do.  What a step does outside the
    assumptions the code makes (numbers and sizes that fit, keys that can be told apart, a
    clock that does not repeat, chunks of a series that start at different times, a crash in
    a covered state) is the label of the step, a list of accidents; a run collects them. *)
From S2P Require Import Prelude BTree F64 Externals Types Memtable Fs ChunkFormat ChunkWriter ChunkReader ChunkFile WalWriter Recovery GroupCommit ChunkIndex Persistence Compaction Config Server QuerySource Store StoreMerge CompactTask ShardLog Restart.

Record System := {
  server : StorageServer;
  flushing : option (nat * SeriesData);
  snapping : list (list Z);
  compacting : CompactStage;
  history : list (list DataPoint);
  queued : list (list (list DataPoint));
  written : list (list DataPoint);
  logged : bool;
  ahead : gset nat;
  gone : gset nat;
  covered : bool;
  clashed : list (SeriesKey * Z)
}.

(** What a step can do that the code does not provide for: a number, a frame or a chunk does
    not fit its width; keys contain separators, or two of them have one id; the clock returns
    a reading again that names a chunk of the index or of the disk; a series of a new chunk starts where a
    chunk of the series starts; the server crashes although the snapshot and the logs do not
    account for everything. *)
Inductive Accident := TooLarge | AmbiguousKey | ClockRepeats | StartTaken | NotCovered.

Definition unless (P : Prop) `{Decision P} (a : Accident) : list Accident := if decide P then [] else [a].

Lemma unless_nil P `{Decision P} a : unless P a = [] ↔ P.
Proof. unfold unless. by destruct (decide P). Qed.

(** The data drained from shard [i] and not written yet. *)
Definition in_flight (fl : option (nat * SeriesData)) (i : nat) : SeriesData :=
  match fl with Some (j, data) => if decide (j = i) then data else [] | None => [] end.

(** The insertions [h] have left every cell of [w] with its last value. *)
Definition settled (h w : list DataPoint) : Prop :=
  Forall (λ p, last_write w (point_key p) (timestamp_ns p) = last_write h (point_key p) (timestamp_ns p)) w.

#[export] Instance batch_ok_dec `{Codec WalEntry} w batch : Decision (batch_ok w batch).
Proof.
  unfold batch_ok, entry_ok, entry_wf, wal_point_wf, entry_fits, point_wf, key_wf, utf8_string,
    bt_wf, key_lt, in_i64, f64_wf, in_u64. apply _.
Defined.
#[global] Typeclasses Opaque batch_ok.

Section System.
Context `{XxHash, Crc32, Lz4, BloomFilter, Codec WalEntry, Codec IndexSnapshot}.
Context (cfg : StorageConfig) (valid : IndexSnapshot → Prop).

(** ** Parts of the steps *)

(** The server after a batch of groups went to the log of shard [j]. *)
Definition write_log (sv : StorageServer) (j : nat) (t : WalTask) (batch : list (list DataPoint)) (io : io_outcome)
    (rot : bool) : StorageServer :=
  with_wals sv (<[j := (process_batch t (messages batch) io rot true).1]> (wals sv)).

(** The server after a step of the compaction. *)
Definition with_store (sv : StorageServer) (fs : Fs) (idx : ChunkIndex) : StorageServer :=
  {| wals := wals sv; memtables := memtables sv; index := idx; chunk_writer := chunk_writer sv;
     compaction_worker := compaction_worker sv; snapshot_path := snapshot_path sv;
     live_watermarks := live_watermarks sv; persisted_watermarks := persisted_watermarks sv;
     append_seq := append_seq sv; files := fs |}.

(** How the write of a sweep ends. *)
Definition flush_result (sv : StorageServer) (data : SeriesData) (env : FlushEnv) : result ChunkWriteResult :=
  (write (chunk_writer sv) (files sv) data (fe_now env) (fe_seed env) (fe_io env)).2.

(** ** Accidents *)

(** Of a chunk that is written and registered. *)
Definition flush_accidents (idx : ChunkIndex) (data : SeriesData) (now seed : Z) : list Accident :=
  unless (values_wf data ∧ fits_ok data now seed) TooLarge ++
  unless (keys_clean data ∧ Forall (λ e, id_free idx e.1) data ∧ NoDup (map (λ e, series_id e.1) data)) AmbiguousKey ++
  unless (chunk_files idx !! new_chunk_id now = None) ClockRepeats ++
  unless (Forall (λ e, bt_get (time_map idx (series_id e.1)) (vec_start e.2) = None) data) StartTaken.

(** Of a batch that goes to the log. *)
Definition log_accidents (t : WalTask) (batch : list (list DataPoint)) : list Accident :=
  unless (batch_ok (writer t) (messages batch)) TooLarge.

(** Of a sweep that ends. *)
Definition segment_room (sv : StorageServer) (i : nat) : Prop :=
  match wals sv !! i with Some t => current_segment (writer t) + 2 < u64_mod | None => True end.
#[export] Instance segment_room_dec sv i : Decision (segment_room sv i).
Proof. unfold segment_room. destruct (wals sv !! i); apply _. Defined.
Definition finish_accidents (sv : StorageServer) (i : nat) (data : SeriesData) (env : FlushEnv) : list Accident :=
  unless (segment_room sv i) TooLarge ++
  match flush_result sv data env with
  | Ok _ => flush_accidents (index sv) data (fe_now env) (fe_seed env)
  | Err _ => []
  end.

(** Of a step of a compaction cycle. *)
Definition compact_accidents (fs : Fs) (idx : ChunkIndex) (st : CompactStage) (env : MergeEnv) : list Accident :=
  match st with
  | Merge (g :: gs) =>
      match collect (map (λ c, read_chunk fs c.2) (chunks g)) with
      | Ok parts =>
          let data := fold_left merge_point (concat parts) [] in
          unless (values_wf data ∧ fits_ok data (env_now env) (env_seed env)) TooLarge ++
          unless (chunk_files idx !! new_chunk_id (env_now env) = None) ClockRepeats
      | Err _ => []
      end
  | _ => []
  end.

(** Of a restart: the recovery of the shards in order. *)
Definition shard_accidents (i : nat) (fs : Fs) (idx : ChunkIndex) (d : Dir) (env : FlushEnv) : list Accident :=
  match recover d (default 0 (shard_watermarks idx !! i)), highest_segment_number d with
  | Ok r, Some n =>
      unless (0 < segments_replayed r ∧ n + 1 < u64_mod) TooLarge ++
      if decide (rr_points r = []) then []
      else flush_accidents idx (recovery_data cfg (rr_points r)) (fe_now env) (fe_seed env) ++
           unless (fs !! chunk_path (writer_of cfg) (new_chunk_id (fe_now env)) = None) ClockRepeats
  | _, _ => []
  end.
Fixpoint open_accidents (i : nat) (fs : Fs) (idx : ChunkIndex) (ds : list Dir) (env : nat → FlushEnv) : list Accident :=
  match ds with
  | [] => []
  | d :: ds' =>
      shard_accidents i fs idx d (env i) ++
      match open_shard cfg i fs idx d (env i) true with
      | (fs1, idx1, Ok _) => open_accidents (S i) fs1 idx1 ds' env
      | (_, _, Err _) => []
      end
  end.

(** ** More parts of the steps *)

(** Nothing the log of the shard says is outside its chunks. *)
Definition quiet (s : System) (i : nat) : bool :=
  match memtables (server s) !! i, history s !! i, written s !! i with
  | Some m, Some h, Some w => bool_decide (entries m = [] ∧ settled h w ∧ i ∉ gone s)
  | _, _, _ => false
  end.

(** The index a restart starts from. *)
Definition loaded_from (path : string) (fs : Fs) : ChunkIndex :=
  match load_index fs path with Ok (Some idx) => idx | _ => index_new end.
Definition loaded_index (fs : Fs) : ChunkIndex := loaded_from (index_path cfg) fs.

(** The files after a crash: what existed is there, and next to it whatever an
    interrupted write of a chunk or of the temporary snapshot has left. *)
Definition left_over (fs fs' : Fs) : Prop :=
  ∀ path, path ≠ with_extension (index_path cfg) "tmp" → is_Some (fs !! path) ∨ path = index_path cfg →
    fs' !! path = fs !! path.

(** The batches that are being written when the server crashes, the WAL directories it
    leaves, and what is left of the batches in them. *)
Definition torn_ok (sv : StorageServer) (torn : nat → list (list DataPoint)) : Prop :=
  Forall (λ e, torn e.1 ≠ [] → batch_ok (writer e.2) (messages (torn e.1))) (imap pair (wals sv)).
#[export] Instance torn_ok_dec sv torn : Decision (torn_ok sv torn).
Proof. unfold torn_ok. apply _. Defined.
Definition crash_dirs (sv : StorageServer) (torn : nat → list (list DataPoint)) (io : nat → io_outcome) : list Dir :=
  imap (λ j t, dir (torn_task t (torn j) (io j))) (wals sv).
Definition survivors (sv : StorageServer) (torn : nat → list (list DataPoint)) (io : nat → io_outcome) (j : nat)
    : list (list DataPoint) :=
  match wals sv !! j with Some t => survived t (torn j) (io j) | None => [] end.

(** ** The steps *)

Definition after_log (s : System) (j : nat) (t : WalTask) (batch : list (list DataPoint)) (rot : bool) : System :=
  {| server := write_log (server s) j t batch IoOk rot; flushing := flushing s; snapping := snapping s; compacting := compacting s;
     history := history s; queued := alter (λ q, q ++ batch) j (queued s);
     written := alter (λ w, w ++ concat batch) j (written s); logged := logged s && rot;
     ahead := ahead s; gone := gone s; covered := covered s && rot; clashed := clashed s |}.

Definition after_failure (s : System) (j : nat) (t : WalTask) (batch : list (list DataPoint)) (k : nat) (rot : bool) : System :=
  {| server := write_log (server s) j t batch (IoErr k) rot; flushing := flushing s; snapping := snapping s; compacting := compacting s;
     history := history s; queued := queued s; written := written s; logged := false; ahead := ahead s; gone := gone s; covered := false; clashed := clashed s |}.

Definition after_insert (s : System) (j : nat) (q1 : list (list DataPoint)) (b : list DataPoint)
    (q2 : list (list DataPoint)) : System :=
  {| server := insert_group (server s) j b; flushing := flushing s; snapping := snapping s; compacting := compacting s;
     history := alter (λ h, h ++ b) j (history s); queued := <[j := q1 ++ q2]> (queued s);
     written := written s; logged := logged s;
     ahead := ahead s; gone := gone s; covered := covered s; clashed := clashed s |}.

(** A request that is given up while its group waits for the memtable. *)
Definition after_cancel (s : System) (j : nat) (q1 q2 : list (list DataPoint)) : System :=
  {| server := server s; flushing := flushing s; snapping := snapping s; compacting := compacting s;
     history := history s; queued := <[j := q1 ++ q2]> (queued s); written := written s; logged := logged s;
     ahead := ahead s; gone := gone s; covered := covered s; clashed := clashed s |}.

Definition after_ack (s : System) : System :=
  {| server := (append_ack (server s)).1; flushing := flushing s; snapping := snapping s; compacting := compacting s; history := history s;
     queued := queued s; written := written s; logged := logged s; ahead := ahead s; gone := gone s; covered := covered s; clashed := clashed s |}.

Definition after_drain (s : System) (i : nat) (sv' : StorageServer) (data : SeriesData) : System :=
  {| server := sv'; flushing := Some (i, data); snapping := snapping s; compacting := compacting s; history := history s; queued := queued s; written := written s;
     logged := logged s; ahead := ahead s; gone := gone s; covered := covered s; clashed := clashed s |}.

Definition after_flush (s : System) (i : nat) (data : SeriesData) (env : FlushEnv) : System :=
  let flushed := is_ok (flush_result (server s) data env) in
  let ok := fe_rotated env || negb flushed in
  {| server := sweep_finish (server s) i data env; flushing := None; snapping := snapping s; compacting := compacting s; history := history s;
     queued := queued s; written := written s; logged := logged s && ok;
     ahead := if flushed then if quiet s i then ahead s ∖ {[i]} else ahead s ∪ {[i]} else ahead s;
     gone := if flushed || bool_decide (data = []) then gone s else gone s ∪ {[i]};
     covered := covered s && ok; clashed := clashed s |}.

Definition after_capture (s : System) : System :=
  {| server := server s; flushing := flushing s; snapping := snapping s ++ [live_watermarks (server s)];
     compacting := compacting s; history := history s;
     queued := queued s; written := written s; logged := logged s; ahead := ahead s; gone := gone s; covered := covered s; clashed := clashed s |}.

Definition after_save (s : System) (n : nat) (wms : list Z) (io : io_outcome) (renamed : bool) : System :=
  let r := snapshot_save (server s) wms io renamed in
  {| server := r.1; flushing := flushing s; snapping := delete n (snapping s); compacting := compacting s; history := history s; queued := queued s; written := written s;
     logged := logged s; ahead := ahead s; gone := gone s;
     covered := if is_ok r.2 then logged s && bool_decide (ahead s = ∅) else covered s; clashed := clashed s |}.

Definition after_pick (s : System) : System :=
  {| server := server s; flushing := flushing s; snapping := snapping s;
     compacting := start_compact (compaction_worker (server s)) (index (server s)); history := history s;
     queued := queued s; written := written s; logged := logged s; ahead := ahead s; gone := gone s; covered := covered s; clashed := clashed s |}.

Definition after_compact (s : System) (env : MergeEnv) : System :=
  let '(fs', idx', st') := compact_step (compaction_worker (server s)) (files (server s)) (index (server s)) (compacting s) env in
  {| server := with_store (server s) fs' idx'; flushing := flushing s; snapping := snapping s; compacting := st';
     history := history s; queued := queued s; written := written s; logged := logged s; ahead := ahead s; gone := gone s;
     covered := covered s && negb (removes (compacting s) env (loaded_from (snapshot_path (server s)) (files (server s))));
     clashed := clashed s ++ step_clashes (files (server s)) (compacting s) |}.

(** Whether the logs go on where they were. *)
Definition logs_resume (fs : Fs) (ds : list Dir) : bool :=
  forallb (λ e, seq_resumes e.2 (default 0 (shard_watermarks (loaded_index fs) !! e.1))) (imap pair ds).

Definition after_crash (s : System) (torn : nat → list (list DataPoint)) (io : nat → io_outcome) (fs : Fs)
    (sv' : StorageServer) : System :=
  {| server := sv'; flushing := None; snapping := []; compacting := Idle;
     history := imap (λ j h, h ++ concat (survivors (server s) torn io j)) (written s);
     queued := map (λ _, []) (queued s);
     written := imap (λ j h, h ++ concat (survivors (server s) torn io j)) (written s);
     logged := logs_resume fs (crash_dirs (server s) torn io); ahead := ∅; gone := ∅; covered := false;
     clashed := clashed s |}.

Definition crash_accidents (s : System) (torn : nat → list (list DataPoint)) (io : nat → io_outcome) (fs : Fs)
    (env : nat → FlushEnv) : list Accident :=
  unless (covered s = true) NotCovered ++ unless (torn_ok (server s) torn) TooLarge ++
  open_accidents 0 fs (loaded_index fs) (crash_dirs (server s) torn io) env.

(** A running server. *)
Inductive live_step : System → list Accident → System → Prop :=
| do_log s j t batch rot :
    wals (server s) !! j = Some t → live_step s (log_accidents t batch) (after_log s j t batch rot)
| do_log_failed s j t batch k rot :
    wals (server s) !! j = Some t → live_step s [] (after_failure s j t batch k rot)
| do_insert s j q1 b q2 :
    queued s !! j = Some (q1 ++ b :: q2) → live_step s [] (after_insert s j q1 b q2)
| do_cancel s j q1 b q2 :
    queued s !! j = Some (q1 ++ b :: q2) → live_step s [] (after_cancel s j q1 q2)
| do_ack s : live_step s [] (after_ack s)
| do_sweep_begin s i sv' data :
    flushing s = None → sweep_begin (server s) i = (sv', Some data) → live_step s [] (after_drain s i sv' data)
| do_sweep_finish s i data env :
    flushing s = Some (i, data) → live_step s (finish_accidents (server s) i data env) (after_flush s i data env)
| do_snapshot_begin s : live_step s [] (after_capture s)
| do_snapshot_finish s n wms io renamed :
    snapping s !! n = Some wms → valid (snapshot_of (index (server s)) wms) → live_step s [] (after_save s n wms io renamed)
| do_compact_begin s : compacting s = Idle → live_step s [] (after_pick s)
| do_compact s env :
    live_step s (compact_accidents (files (server s)) (index (server s)) (compacting s) env) (after_compact s env).

(** A crash, while any of the shards is writing a batch, and a restart that succeeds. *)
Inductive crash_step : System → list Accident → System → Prop :=
| do_crash s torn io fs env sv' :
    left_over (files (server s)) fs → open_server cfg fs (crash_dirs (server s) torn io) env (λ _, true) = Ok sv' →
    crash_step s (crash_accidents s torn io fs env) (after_crash s torn io fs sv').

Definition code_step (s : System) (accidents : list Accident) (s' : System) : Prop :=
  live_step s accidents s' ∨ crash_step s accidents s'.

(** A run, and the accidents that happen in it. *)
Inductive run : System → list Accident → System → Prop :=
| run_refl s : run s [] s
| run_step s a s1 b s2 : code_step s a s1 → run s1 b s2 → run s (a ++ b) s2.

Lemma run_app s a s1 b s2 : run s a s1 → run s1 b s2 → run s (a ++ b) s2.
Proof.
  intros Hr. revert b s2. induction Hr as [|s a s1 a' s1' Hs _ IH]; intros b s2 Hr'; [done|].
  rewrite <-app_assoc. eapply run_step; [exact Hs|by apply IH].
Qed.

(** A step without an accident. *)
Definition sys_step (s s' : System) : Prop := code_step s [] s'.

Lemma run_regular s s' : run s [] s' ↔ rtc sys_step s s'.
Proof.
  split.
  - remember [] as l eqn:E. intros Hr. induction Hr as [|s a s1 b s2 Hs _ IH]; [apply rtc_refl|].
    apply app_eq_nil in E as [-> ->]. eapply rtc_l; [exact Hs|by apply IH].
  - induction 1 as [|s s1 s2 Hs _ IH]; [constructor|]. exact (run_step s [] s1 [] s2 Hs IH).
Qed.

(** The first start, with no snapshot and empty WAL directories. *)
Definition started (sv : StorageServer) : System :=
  {| server := sv; flushing := None; snapping := []; compacting := Idle; history := replicate (Z.to_nat (num_shards cfg)) [];
     queued := replicate (Z.to_nat (num_shards cfg)) [];
     written := replicate (Z.to_nat (num_shards cfg)) []; logged := true; ahead := ∅; gone := ∅; covered := true; clashed := [] |}.

Inductive sys_start : System → Prop :=
| first_start fs env rot sv :
    fs !! index_path cfg = None → open_server cfg fs [] env rot = Ok sv → sys_start (started sv).

(** ** The invariant *)

(** The value a cell has in one of the places [P]: the last one [v], or any when chunks have
    been merged that clash on the cell. *)
Definition holds_value (clash : SeriesKey → Z → Prop) (k : SeriesKey) (ts : Z) (v : f64) (P : f64 → Prop) : Prop :=
  ∃ v', (v' = v ∨ clash k ts) ∧ P v'.

(** The memory of a shard: unless a flush has failed, every cell has a value in a chunk, in
    flight or in the memtable, the last one unless chunks clashed; and nothing is there that
    was not written. *)
Record shard_mem (content : Content) (drained : SeriesData) (m : Memtable) (h : list DataPoint) (lost : Prop)
    (clash : SeriesKey → Z → Prop) : Prop := {
  sm_wf : mt_wf m;
  sm_last : ¬ lost → ∀ k ts v, last_write h k ts = Some v → holds_value clash k ts v (λ v',
    content_cell content k ts v' ∨ data_lookup drained k ts = Some v' ∨ mt_lookup m k ts = Some v');
  sm_known : ∀ k ts v, data_lookup drained k ts = Some v ∨ mt_lookup m k ts = Some v → to_point k (ts, v) ∈ h
}.

(** The log of a shard: it keeps its invariant and holds nothing that was not written, and
    unless the watermark has run ahead, every cell has a value in a chunk or in the log above
    the watermark. *)
Record shard_log (content : Content) (sys : WalSystem) (h : list DataPoint) (live persisted : Z) (ran : Prop)
    (clash : SeriesKey → Z → Prop) : Prop := {
  sl_sys : sys_inv sys;
  sl_gc : 0 <= gc_seq sys <= live;
  sl_live : live <= current_seq (writer (task sys));
  sl_persisted : persisted <= current_seq (writer (task sys));
  sl_known : log_points (dir (task sys)) ⊆ h;
  sl_last : ¬ ran → ∀ k ts v, last_write h k ts = Some v → holds_value clash k ts v (λ v',
    content_cell content k ts v' ∨ last_write (pending_points sys live) k ts = Some v')
}.

(** What a restart would find for a shard whose snapshot watermark is [wm]. *)
Record shard_saved (content : Content) (sys : WalSystem) (h : list DataPoint) (persisted wm : Z)
    (clash : SeriesKey → Z → Prop) : Prop := {
  sd_persisted : persisted <= wm;
  sd_wm : 0 <= wm <= current_seq (writer (task sys));
  sd_last : ∀ k ts v, last_write h k ts = Some v → holds_value clash k ts v (λ v',
    content_cell content k ts v' ∨ last_write (pending_points sys (Z.max wm (gc_seq sys))) k ts = Some v')
}.

(** Chunks that clash on the cell have been merged. *)
Definition clash_on (cells : list (SeriesKey * Z)) (k : SeriesKey) (ts : Z) : Prop := (k, ts) ∈ cells.

(** Everything in the content was written. *)
Definition known (hist : list (list DataPoint)) (k : SeriesKey) (ts : Z) (v : f64) : Prop :=
  ∃ i h, hist !! i = Some h ∧ to_point k (ts, v) ∈ h.
Definition content_known (content : Content) (hist : list (list DataPoint)) : Prop :=
  ∀ k ts v, content_cell content k ts v → known hist k ts v.

Definition saved_inv (sv : StorageServer) (syss : list WalSystem) (hist : list (list DataPoint))
    (cells : list (SeriesKey * Z)) : Prop :=
  ∃ content, store_inv (writer_of cfg) (files sv) (loaded_index (files sv)) content ∧ content_known content hist ∧
    ∀ i sys h p, syss !! i = Some sys → hist !! i = Some h → persisted_watermarks sv !! i = Some p →
      shard_saved content sys h p (default 0 (shard_watermarks (loaded_index (files sv)) !! i)) (clash_on cells).

Record logs_inv (s : System) (content : Content) (syss : list WalSystem) : Prop := {
  li_tasks : wals (server s) = map task syss;
  li_shards : ∀ i sys h l p,
    syss !! i = Some sys → written s !! i = Some h → live_watermarks (server s) !! i = Some l →
    persisted_watermarks (server s) !! i = Some p → shard_log content sys h l p (i ∈ ahead s) (clash_on (clashed s));
  li_snapping : ∀ wms, wms ∈ snapping s → Forall2 (λ w l, 0 <= w <= l) wms (live_watermarks (server s));
  li_saved : covered s = true → saved_inv (server s) syss (written s) (clashed s)
}.

(** The parts of the server that never change. *)
Record server_shape (sv : StorageServer) (n : nat) : Prop := {
  sp_wals : length (wals sv) = n;
  sp_memtables : length (memtables sv) = n;
  sp_live : length (live_watermarks sv) = n;
  sp_persisted : length (persisted_watermarks sv) = n;
  sp_writer : chunk_writer sv = writer_of cfg;
  sp_worker : cw_writer (compaction_worker sv) = writer_of cfg;
  sp_path : snapshot_path sv = index_path cfg
}.

Record state_inv (s : System) (content : Content) : Prop := {
  st_shape : server_shape (server s) (Z.to_nat (num_shards cfg));
  st_history : length (history s) = Z.to_nat (num_shards cfg);
  st_queued : length (queued s) = Z.to_nat (num_shards cfg);
  st_written : length (written s) = Z.to_nat (num_shards cfg);
  st_trail : ∀ i h q w, history s !! i = Some h → queued s !! i = Some q → written s !! i = Some w →
    h ⊆ w ∧ concat q ⊆ w;
  st_snapping : ∀ wms, wms ∈ snapping s → length wms = Z.to_nat (num_shards cfg);
  st_flushing : ∀ i data, flushing s = Some (i, data) → (i < Z.to_nat (num_shards cfg))%nat ∧ data_wf data;
  st_store : store_inv (writer_of cfg) (files (server s)) (index (server s)) content;
  st_compact : compact_inv (writer_of cfg) (files (server s)) (index (server s)) content (compacting s);
  st_known : content_known content (history s);
  st_mem : ∀ i m h, memtables (server s) !! i = Some m → history s !! i = Some h →
    shard_mem content (in_flight (flushing s) i) m h (i ∈ gone s) (clash_on (clashed s));
  st_logs : logged s = true → ∃ syss, logs_inv s content syss;
  st_covered : covered s = true → logged s = true
}.

Definition system_inv (s : System) : Prop := ∃ content, state_inv s content.

(** What a running server does not lose: histories only grow, a cell of the chunks keeps a
    value, the same one unless chunks clash, and what is in flight stays or gets into a chunk,
    unless its flush fails. *)
Record kept (s : System) (content : Content) (s' : System) (content' : Content) : Prop := {
  kp_history : ∀ i h, history s !! i = Some h → ∃ new, history s' !! i = Some (h ++ new);
  kp_gone : gone s ⊆ gone s';
  kp_clashed : clashed s ⊆ clashed s';
  kp_content : ∀ k ts v, content_cell content k ts v →
    holds_value (clash_on (clashed s')) k ts v (content_cell content' k ts);
  kp_flight : ∀ i k ts v, data_lookup (in_flight (flushing s) i) k ts = Some v → i ∉ gone s' →
    content_cell content' k ts v ∨ data_lookup (in_flight (flushing s') i) k ts = Some v
}.

Definition moves (s : System) (content : Content) (s' : System) : Prop :=
  ∃ content', state_inv s' content' ∧ kept s content s' content'.

(** The configuration: a power of two of shards, and a snapshot that is no chunk file. *)
Record cfg_ok : Prop := {
  co_shards : ∃ k, 0 <= k < 64 ∧ num_shards cfg = 2 ^ k;
  co_index : ∀ c, chunk_path (writer_of cfg) c ≠ index_path cfg;
  co_tmp : ∀ c, chunk_path (writer_of cfg) c ≠ with_extension (index_path cfg) "tmp";
  co_new : with_extension (index_path cfg) "tmp" ≠ index_path cfg
}.


End System.

#[global] Typeclasses Opaque torn_ok segment_room.
