(* ===== verification/SystemInv.v ===== *)
(** * Every step keeps the invariant

    One lemma per step of [System], from the shard-level lemmas of [ShardLog], [Restart]
    and [Store]. *)
From S2P Require Import Prelude BTree F64 Externals Types Memtable Fs ChunkFormat ChunkWriter ChunkReader ChunkFile WalWriter Recovery GroupCommit ChunkIndex Persistence Compaction Config Server QuerySource Store StoreMerge CompactTask ShardLog Restart System.

Section SystemInv.
Context `{XxHash, Crc32, Lz4, BloomFilter, Codec WalEntry, Codec IndexSnapshot}.
Context (cfg : StorageConfig) (valid : IndexSnapshot → Prop).
Context `{!XxHashLaws, !Crc32Laws, !Lz4Laws, !BloomLaws, !CodecLaws WalEntry entry_wf}.
Context `{!CodecLaws IndexSnapshot valid} (Hcfg : cfg_ok cfg).

#[local] Abbreviation state_inv := (state_inv cfg).
#[local] Abbreviation logs_inv := (logs_inv cfg).
#[local] Abbreviation moves := (moves cfg).
#[local] Abbreviation system_inv := (system_inv cfg).
#[local] Abbreviation loaded_index := (loaded_index cfg).

(** ** The parts of a state *)

Lemma state_shard s content j :
  state_inv s content → (j < Z.to_nat (num_shards cfg))%nat →
  ∃ t m h q l p, wals (server s) !! j = Some t ∧ memtables (server s) !! j = Some m ∧ history s !! j = Some h ∧
    queued s !! j = Some q ∧ live_watermarks (server s) !! j = Some l ∧ persisted_watermarks (server s) !! j = Some p ∧
    shard_mem content (in_flight (flushing s) j) m h (j ∈ gone s) (clash_on (clashed s)).
Proof.
  intros I Hj. destruct (st_shape _ _ _ I) as [Ew Em El Ep _ _ _].
  pose proof (st_history _ _ _ I) as Eh. pose proof (st_queued _ _ _ I) as Eq.
  destruct (lookup_lt_is_Some_2 (wals (server s)) j) as [t Ht]; [lia|].
  destruct (lookup_lt_is_Some_2 (memtables (server s)) j) as [m Hm]; [lia|].
  destruct (lookup_lt_is_Some_2 (history s) j) as [h Hh]; [lia|].
  destruct (lookup_lt_is_Some_2 (queued s) j) as [q Hq]; [lia|].
  destruct (lookup_lt_is_Some_2 (live_watermarks (server s)) j) as [l Hl]; [lia|].
  destruct (lookup_lt_is_Some_2 (persisted_watermarks (server s)) j) as [p Hp]; [lia|].
  exists t, m, h, q, l, p. split_and!; try done. by apply (st_mem _ _ _ I).
Qed.

Lemma logs_length s content syss : state_inv s content → logs_inv s content syss → length syss = Z.to_nat (num_shards cfg).
Proof. intros I L. by rewrite <-(sp_wals _ _ _ (st_shape _ _ _ I)), (li_tasks _ _ _ _ L), length_map. Qed.

Lemma state_written s content j :
  state_inv s content → (j < Z.to_nat (num_shards cfg))%nat → ∃ w, written s !! j = Some w.
Proof. intros I Hj. apply lookup_lt_is_Some_2. by rewrite (st_written _ _ _ I). Qed.

Lemma logs_shard s content syss j sys :
  state_inv s content → logs_inv s content syss → syss !! j = Some sys →
  ∃ m h w l p, wals (server s) !! j = Some (task sys) ∧ memtables (server s) !! j = Some m ∧ history s !! j = Some h ∧
    written s !! j = Some w ∧ live_watermarks (server s) !! j = Some l ∧ persisted_watermarks (server s) !! j = Some p ∧
    shard_mem content (in_flight (flushing s) j) m h (j ∈ gone s) (clash_on (clashed s)) ∧
    shard_log content sys w l p (j ∈ ahead s) (clash_on (clashed s)).
Proof.
  intros I L Hs. pose proof (lookup_lt_Some _ _ _ Hs) as Hlt. rewrite (logs_length _ _ _ I L) in Hlt.
  destruct (state_shard _ _ _ I Hlt) as (t & m & h & q & l & p & Ht & Hm & Hh & Hq & Hl & Hp & Sm).
  destruct (state_written _ _ _ I Hlt) as [w Hw].
  exists m, h, w, l, p. split_and!; try done; [by rewrite (li_tasks _ _ _ _ L), list_lookup_fmap, Hs|].
  by apply (li_shards _ _ _ _ L).
Qed.

Lemma state_memtables s content : state_inv s content → Forall mt_wf (memtables (server s)).
Proof.
  intros I. apply Forall_lookup. intros j m Hm. pose proof (lookup_lt_Some _ _ _ Hm) as Hlt.
  rewrite (sp_memtables _ _ _ (st_shape _ _ _ I)) in Hlt.
  destruct (state_shard _ _ _ I Hlt) as (t & m' & h & q & l & p & _ & Hm' & _ & _ & _ & _ & Sm).
  rewrite Hm in Hm'. injection Hm' as <-. apply Sm.
Qed.

(** ** Monotonicity *)

(** Histories that only grow, shard by shard. *)
Definition grows (hist hist' : list (list DataPoint)) : Prop :=
  ∀ i h, hist !! i = Some h → ∃ h', hist' !! i = Some h' ∧ h ⊆ h'.

#[local] Instance grows_refl : Reflexive grows.
Proof. intros hist i h Hh. by exists h. Qed.

Lemma known_grows hist hist' k ts v : grows hist hist' → known hist k ts v → known hist' k ts v.
Proof. intros Hg (i & h & Hh & Hp). destruct (Hg i h Hh) as (h' & Hh' & Hsub). exists i, h'. auto. Qed.

Lemma content_known_grows content hist hist' :
  grows hist hist' → content_known content hist → content_known content hist'.
Proof. intros Hg Hk k ts v Hc. by eapply known_grows, Hk. Qed.

Lemma grows_alter hist j b : grows hist (alter (λ h, h ++ b) j hist).
Proof.
  intros i h Hh. destruct (decide (j = i)) as [->|Hne].
  - exists (h ++ b). rewrite list_lookup_alter_eq, Hh. split; [done|]. intros p Hp. apply elem_of_app. by left.
  - exists h. by rewrite list_lookup_alter_ne.
Qed.

Lemma grows_written s content : state_inv s content → grows (history s) (written s).
Proof.
  intros I i h Hh. pose proof (lookup_lt_Some _ _ _ Hh) as Hlt. rewrite (st_history _ _ _ I) in Hlt.
  destruct (state_shard _ _ _ I Hlt) as (t & m & h' & q & l & p & _ & _ & Hh' & Hq & _).
  rewrite Hh in Hh'. injection Hh' as <-. destruct (state_written _ _ _ I Hlt) as [w Hw]. exists w. split; [done|].
  exact (proj1 (st_trail _ _ _ I _ _ _ _ Hh Hq Hw)).
Qed.

(** Values a cell has. *)
Lemma holds_value_ret clash k ts v (P : f64 → Prop) : P v → holds_value clash k ts v P.
Proof. intros Hv. exists v. auto. Qed.

Lemma holds_value_bind (clash clash' : SeriesKey → Z → Prop) k ts v (P Q : f64 → Prop) :
  holds_value clash k ts v P → (clash k ts → clash' k ts) → (∀ v', P v' → holds_value clash' k ts v' Q) →
  holds_value clash' k ts v Q.
Proof.
  intros (v' & E & Hv') Hc HP. destruct (HP v' Hv') as (v'' & E' & Hv''). exists v''. split; [|done].
  destruct E as [->|?]; [done|auto].
Qed.

Lemma holds_value_mono clash k ts v (P Q : f64 → Prop) :
  holds_value clash k ts v P → (∀ v', P v' → Q v') → holds_value clash k ts v Q.
Proof. intros Hv HP. eapply holds_value_bind; [exact Hv|done|]. auto using holds_value_ret. Qed.

(** The cells of one store as those of another. *)
Definition cells_kept (clash : SeriesKey → Z → Prop) (content content' : Content) : Prop :=
  ∀ k ts v, content_cell content k ts v → holds_value clash k ts v (content_cell content' k ts).

Lemma cells_kept_more clash content content' :
  (∀ k ts v, content_cell content k ts v → content_cell content' k ts v) → cells_kept clash content content'.
Proof. intros Hc k ts v Hv. by apply holds_value_ret, Hc. Qed.

Lemma shard_mem_mono content content' drained m h lost (clash clash' : SeriesKey → Z → Prop) :
  cells_kept clash' content content' → (∀ k ts, clash k ts → clash' k ts) →
  shard_mem content drained m h lost clash → shard_mem content' drained m h lost clash'.
Proof.
  intros Hc Hcl [? Hl ?]. split; try done. intros Hn k ts v Hw. eapply holds_value_bind; [by apply (Hl Hn)|auto|].
  intros v' [Hv'|Hv']; [|by apply holds_value_ret; right]. eapply holds_value_mono; [by apply Hc|auto].
Qed.

Lemma shard_log_mono content content' sys h l p ran (clash clash' : SeriesKey → Z → Prop) :
  cells_kept clash' content content' → (∀ k ts, clash k ts → clash' k ts) →
  shard_log content sys h l p ran clash → shard_log content' sys h l p ran clash'.
Proof.
  intros Hc Hcl [? ? ? ? ? Hl]. split; try done. intros Hn k ts v Hw. eapply holds_value_bind; [by apply (Hl Hn)|auto|].
  intros v' [Hv'|Hv']; [|by apply holds_value_ret; right]. eapply holds_value_mono; [by apply Hc|auto].
Qed.

Lemma shard_saved_clash content sys h p wm (clash clash' : SeriesKey → Z → Prop) :
  (∀ k ts, clash k ts → clash' k ts) → shard_saved content sys h p wm clash → shard_saved content sys h p wm clash'.
Proof.
  intros Hcl [? ? Hl]. split; try done. intros k ts v Hw. eapply holds_value_bind; [by apply Hl|auto|]. auto using holds_value_ret.
Qed.

Lemma same_history (hist : list (list DataPoint)) i h : hist !! i = Some h → ∃ new, hist !! i = Some (h ++ new).
Proof. intros Hh. exists []. by rewrite app_nil_r. Qed.

Lemma kept_same s s' content :
  history s' = history s → gone s' = gone s → flushing s' = flushing s → clashed s' = clashed s → kept s content s' content.
Proof. intros Eh Eg Ef Ec. split; rewrite ?Eh, ?Eg, ?Ef, ?Ec; auto using same_history, holds_value_ret. Qed.

(** New files do not disturb a store, nor the snapshot. *)
Lemma store_inv_extend w fs fs' idx content :
  store_inv w fs idx content → (∀ c, is_Some (fs !! chunk_path w c) → fs' !! chunk_path w c = fs !! chunk_path w c) →
  store_inv w fs' idx content.
Proof.
  intros S Hfs. eapply store_inv_fs; [exact S|]. intros c [data Hc]. apply Hfs.
  destruct (si_file _ _ _ _ S _ _ Hc) as (_ & _ & _ & ? & ? & _ & _ & E). by eexists.
Qed.

Lemma loaded_index_fs fs fs' : fs' !! index_path cfg = fs !! index_path cfg → loaded_index fs' = loaded_index fs.
Proof. intros E. unfold System.loaded_index, loaded_from, load_index. by rewrite E. Qed.

(** ** Logging a batch *)

(** What a request was given stays in the log. *)
Lemma trail_grows (hist hist' : list (list DataPoint)) (qs qs' : list (list (list DataPoint))) (ws : list (list DataPoint)) :
  (∀ i h q w, hist !! i = Some h → qs !! i = Some q → ws !! i = Some w → h ⊆ w ∧ concat q ⊆ w) →
  (∀ i h' q', hist' !! i = Some h' → qs' !! i = Some q' →
     ∃ h q, hist !! i = Some h ∧ qs !! i = Some q ∧ ∀ p, p ∈ h' ∨ p ∈ concat q' → p ∈ h ∨ p ∈ concat q) →
  ∀ i h q w, hist' !! i = Some h → qs' !! i = Some q → ws !! i = Some w → h ⊆ w ∧ concat q ⊆ w.
Proof.
  intros Ht Hs i h' q' w Hh' Hq' Hw. destruct (Hs i h' q' Hh' Hq') as (h & q & Hh & Hq & Hsub).
  destruct (Ht i h q w Hh Hq Hw) as [Hhw Hqw]. split; intros p Hp; destruct (Hsub p ltac:(auto)); auto.
Qed.

Lemma trail_taken (hist : list (list DataPoint)) (qs : list (list (list DataPoint))) j (q1 : list (list DataPoint)) b q2 (new : list DataPoint) :
  qs !! j = Some (q1 ++ b :: q2) → new ⊆ b →
  ∀ i h' q', alter (λ h, h ++ new) j hist !! i = Some h' → <[j := q1 ++ q2]> qs !! i = Some q' →
    ∃ h q, hist !! i = Some h ∧ qs !! i = Some q ∧ ∀ p, p ∈ h' ∨ p ∈ concat q' → p ∈ h ∨ p ∈ concat q.
Proof.
  intros Hj Hnew i h' q' Hh' Hq'. destruct (decide (j = i)) as [<-|Hne].
  - rewrite list_lookup_alter_eq in Hh'. apply fmap_Some in Hh' as (h & Hh & ->).
    rewrite list_lookup_insert_eq in Hq' by (by eapply lookup_lt_Some). injection Hq' as <-.
    exists h, (q1 ++ b :: q2). split_and!; [done..|]. intros p. rewrite !concat_app. cbn [concat]. rewrite !elem_of_app.
    specialize (Hnew p). tauto.
  - rewrite list_lookup_alter_ne in Hh' by done. rewrite list_lookup_insert_ne in Hq' by done. by exists h', q'.
Qed.

(** The log after a batch. *)
Lemma shard_log_batch content sys h live persisted ran clash batch :
  shard_log content sys h live persisted ran clash → batch_ok (writer (task sys)) (messages batch) →
  ∃ sys', task sys' = (process_batch (task sys) (messages batch) IoOk true true).1 ∧
    shard_log content sys' (h ++ concat batch) live persisted ran clash ∧
    ∀ content' wm, shard_saved content' sys h persisted wm clash → shard_saved content' sys' (h ++ concat batch) persisted wm clash.
Proof.
  intros [Hs Hgc Hl Hp Hk Hlog] Hb. destruct (task_log sys batch Hs (proj1 Hgc) Hb) as (sys' & Et & Hs' & Eg & Hseq & Hpend & Hpts).
  exists sys'. split; [done|]. split.
  - split; [done|by rewrite Eg|lia|lia| |].
    + rewrite Hpts. intros p. rewrite !elem_of_app. intros [?|?]; [left; by apply Hk|by right].
    + intros Hn k ts v. rewrite Hpend, !last_write_app by lia.
      destruct (last_write (concat batch) k ts); [|by apply Hlog]. intros [= ->]. apply holds_value_ret. by right.
  - intros content' wm [Sp Sw Sl]. split; [done|lia|].
    intros k ts v. rewrite Eg, Hpend, !last_write_app by lia.
    destruct (last_write (concat batch) k ts); [|apply Sl]. intros [= ->]. apply holds_value_ret. by right.
Qed.

(** The task of a shard changes. *)
Lemma insert_task i sys sys' syss :
  syss !! i = Some sys → <[i := task sys']> (map task syss) = map task (<[i := sys']> syss).
Proof. intros _. by rewrite list_fmap_insert. Qed.

Lemma inv_log s content j t batch rot :
  state_inv s content → wals (server s) !! j = Some t → batch_ok (writer t) (messages batch) →
  moves s content (after_log s j t batch rot).
Proof.
  unfold after_log. intros I Ht Hb. pose proof I as [[Nw Nm Nl Np Hcw Hwk Hpath] Eh Eq Ewr Htr Esn Hf Hst Hcp Hk Hmem Hlogs Hcov].
  exists content. split; [|by apply kept_same].
  split; cbn [server flushing snapping compacting history queued written logged ahead gone covered clashed]; try done.
  - split; cbn; try done. by rewrite length_insert.
  - by rewrite length_alter.
  - by rewrite length_alter.
  - intros i h q' w' Hh Hq' Hw'. destruct (decide (j = i)) as [<-|Hne].
    + rewrite list_lookup_alter_eq in Hq'. rewrite list_lookup_alter_eq in Hw'.
      apply fmap_Some in Hq' as (q & Hq & ->), Hw' as (w & Hw & ->). destruct (Htr j h q w Hh Hq Hw) as [Hhw Hqw].
      split; intros p; rewrite ?concat_app, !elem_of_app; [auto|]. intros [?|?]; auto.
    + rewrite list_lookup_alter_ne in Hq' by done. rewrite list_lookup_alter_ne in Hw' by done. by eapply Htr.
  - intros [Hlg ->]%andb_true_iff. destruct (Hlogs Hlg) as (syss & L). rewrite (li_tasks _ _ _ _ L), list_lookup_fmap in Ht.
    apply fmap_Some in Ht as (sys & Hs & ->).
    destruct (logs_shard _ _ _ _ _ I L Hs) as (m & h & w & l & p & _ & _ & _ & Hw & Hl & Hp & _ & Sl).
    destruct (shard_log_batch _ _ _ _ _ _ _ _ Sl Hb) as (sys' & Et & Sl' & Hsv). exists (<[j := sys']> syss).
    assert (∀ i w', alter (λ h, h ++ concat batch) j (written s) !! i = Some w' →
      (i = j ∧ w' = w ++ concat batch) ∨ (i ≠ j ∧ written s !! i = Some w')) as Hcase.
    { intros i w' Hi. destruct (decide (j = i)) as [<-|Hne]; [left|right; by rewrite list_lookup_alter_ne in Hi].
      rewrite list_lookup_alter_eq, Hw in Hi. by injection Hi as <-. }
    split; cbn [server snapping history queued ahead covered written write_log with_wals wals live_watermarks persisted_watermarks].
    + rewrite (li_tasks _ _ _ _ L), <-Et. by apply insert_task with sys.
    + intros i sys0 w' l0 p0 Hs0 [[-> ->]|[Hne Hw']]%Hcase Hl0 Hp0.
      * rewrite list_lookup_insert_eq in Hs0 by (by eapply lookup_lt_Some). simplify_eq. done.
      * rewrite list_lookup_insert_ne in Hs0 by done. by apply (li_shards _ _ _ _ L).
    + apply L.
    + rewrite andb_true_r. intros Hc. destruct (li_saved _ _ _ _ L Hc) as (content_s & Hss & Hks & Hsd). exists content_s.
      split; [done|]. split; [by eapply content_known_grows, Hks; apply grows_alter|].
      cbn [write_log with_wals persisted_watermarks files].
      intros i sys0 w' p0 Hs0 [[-> ->]|[Hne Hw']]%Hcase Hp0.
      * rewrite list_lookup_insert_eq in Hs0 by (by eapply lookup_lt_Some). simplify_eq. apply Hsv. by eapply Hsd.
      * rewrite list_lookup_insert_ne in Hs0 by done. by eapply Hsd.
  - intros [Hc ->]%andb_true_iff. by rewrite Hcov.
Qed.

Lemma inv_log_failed s content j t batch k rot :
  state_inv s content → moves s content (after_failure s j t batch k rot).
Proof.
  unfold after_failure. intros I. destruct I as [[Nw Nm Nl Np Hcw Hwk Hpath] Eh Eq Ewr Htr Esn Hf Hst Hcp Hk Hmem _ _].
  exists content. split; [|by apply kept_same].
  split; cbn [server flushing snapping compacting history queued written logged ahead gone covered clashed]; try done.
  split; cbn; try done. by rewrite length_insert.
Qed.

(** ** Inserting and answering *)

Lemma shard_mem_append content drained m h lost clash batch :
  shard_mem content drained m h lost clash → shard_mem content drained (insert_all m batch) (h ++ batch) lost clash.
Proof.
  intros [Hm Hl Hk]. split; [by apply insert_all_wf|..].
  - intros Hn k ts v. rewrite last_write_app, mt_lookup_insert_all by done.
    destruct (last_write batch k ts); [|by apply Hl]. intros [= ->]. apply holds_value_ret. by right; right.
  - intros k ts v. rewrite mt_lookup_insert_all, elem_of_app by done. intros [Hd|Hd]; [left; apply Hk; by left|].
    destruct (last_write batch k ts) as [x|] eqn:E; [|left; apply Hk; by right]. injection Hd as ->.
    apply last_write_Some_In in E as (p & Hp & <- & <- & <-). right. by destruct p.
Qed.

Lemma inv_insert s content j q1 b q2 :
  state_inv s content → queued s !! j = Some (q1 ++ b :: q2) → moves s content (after_insert s j q1 b q2).
Proof.
  intros I Hq. pose proof I as [[Nw Nm Nl Np Hcw Hwk Hpath] Eh Eq Ewr Htr Esn Hf Hst Hcp Hk Hmem Hlogs Hcov].
  exists content. split.
  2: { split; cbn [after_insert history gone flushing clashed]; auto using holds_value_ret. intros i h Hh. destruct (decide (j = i)) as [<-|Hne].
       - exists b. by rewrite list_lookup_alter_eq, Hh.
       - rewrite list_lookup_alter_ne by done. by apply same_history. }
  split; cbn [after_insert server flushing snapping compacting history queued written logged ahead gone covered clashed]; try done.
  - split; cbn; try done. by rewrite length_alter.
  - by rewrite length_alter.
  - by rewrite length_insert.
  - eapply trail_grows; [exact Htr|]. by eapply trail_taken.
  - by eapply content_known_grows, Hk; apply grows_alter.
  - cbn [insert_group with_memtables memtables]. intros i m' h' Hm' Hh'. destruct (decide (j = i)) as [<-|Hne].
    + rewrite list_lookup_alter_eq in Hm'. rewrite list_lookup_alter_eq in Hh'. apply fmap_Some in Hm' as (m & Hm & ->), Hh' as (h & Hh & ->).
      by apply shard_mem_append, Hmem.
    + rewrite list_lookup_alter_ne in Hm' by done. rewrite list_lookup_alter_ne in Hh' by done. by apply Hmem.
  - intros Hlg. destruct (Hlogs Hlg) as (syss & [Lt Ls Lsn Lsv]). exists syss. by split.
Qed.

Lemma inv_cancel s content j q1 b q2 :
  state_inv s content → queued s !! j = Some (q1 ++ b :: q2) → moves s content (after_cancel s j q1 q2).
Proof.
  intros I Hq. pose proof I as [[Nw Nm Nl Np Hcw Hwk Hpath] Eh Eq Ewr Htr Esn Hf Hst Hcp Hk Hmem Hlogs Hcov].
  exists content. split; [|by apply kept_same].
  split; cbn [after_cancel server flushing snapping compacting history queued written logged ahead gone covered clashed]; try done.
  - by rewrite length_insert.
  - eapply trail_grows; [exact Htr|]. intros i h' q' Hh' Hq'. destruct (decide (j = i)) as [<-|Hne].
    + rewrite list_lookup_insert_eq in Hq' by (by eapply lookup_lt_Some). injection Hq' as <-.
      exists h', (q1 ++ b :: q2). split_and!; [done..|]. intros p. rewrite !concat_app. cbn [concat]. rewrite !elem_of_app. tauto.
    + rewrite list_lookup_insert_ne in Hq' by done. by exists h', q'.
  - intros Hlg. destruct (Hlogs Hlg) as (syss & [Lt Ls Lsn Lsv]). exists syss. by split.
Qed.

Lemma inv_ack s content : state_inv s content → moves s content (after_ack s).
Proof.
  intros I. destruct I as [[Nw Nm Nl Np Hcw Hwk Hpath] Eh Eq Ewr Htr Esn Hf Hst Hcp Hk Hmem Hlogs Hcov].
  exists content. split; [|by apply kept_same]. split; try done.
  intros Hlg. destruct (Hlogs Hlg) as (syss & [Lt Ls Lsn Lsv]). exists syss. by split.
Qed.

(** ** Without accidents *)

Lemma flush_accidents_nil idx data now seed : flush_accidents idx data now seed = [] → flush_ok idx data now seed.
Proof.
  unfold flush_accidents. intros [[Hv Hf]%unless_nil [(Hk & Hid & Hnd)%unless_nil [Hc%unless_nil Hs%unless_nil]%app_eq_nil]%app_eq_nil]%app_eq_nil.
  split_and!; try done. rewrite Forall_forall in *. auto.
Qed.

Lemma compact_accidents_nil fs idx st env : compact_accidents fs idx st env = [] ↔ compact_step_ok fs idx st env.
Proof.
  unfold compact_accidents, compact_step_ok, merge_ok. destruct st as [|[|g gs]|g r gs|old gs]; try done.
  destruct (collect _); [|done]. cbv zeta. split.
  - intros [[Hv Hf]%unless_nil Hc%unless_nil]%app_eq_nil. by split_and!.
  - intros (Hv & Hf & Hc). by rewrite !(proj2 (unless_nil _ _)).
Qed.

Lemma shard_accidents_nil i fs idx d env : shard_accidents cfg i fs idx d env = [] → shard_clean cfg i idx d env.
Proof.
  unfold shard_accidents, shard_clean. destruct (recover d _) as [r|]; [|done]. destruct (highest_segment_number d); [|done].
  intros [Hw%unless_nil Hf]%app_eq_nil. split; [done|]. intros Hne. rewrite decide_False in Hf by done.
  apply app_eq_nil in Hf as [Hf _]. by apply flush_accidents_nil.
Qed.

(** With a log that has segments. *)
Lemma shard_accidents_writes i fs idx d env n :
  shard_accidents cfg i fs idx d env = [] → highest_segment_number d = Some n → fe_io env = IoOk →
  shard_writes cfg i fs idx d env.
Proof.
  unfold shard_accidents, shard_writes. intros Ha Hn Hio. rewrite Hn in Ha. destruct (recover d _) as [r|]; [|done].
  apply app_eq_nil in Ha as [_ Hf]. intros Hne. rewrite decide_False in Hf by done. by apply app_eq_nil in Hf as [_ Hf%unless_nil].
Qed.

Lemma open_accidents_open i fs idx ds env :
  open_accidents cfg i fs idx ds env = [] → Forall (λ d, is_Some (highest_segment_number d)) ds →
  (∀ j, fe_io (env j) = IoOk) → shards_open cfg i fs idx ds env.
Proof.
  intros Ha Hs Hio. revert i fs idx Ha. induction Hs as [|d ds [n Hn] _ IH]; intros i fs idx; cbn [open_accidents shards_open]; [done|].
  intros [Ha Hr]%app_eq_nil. split; [split; [by eapply shard_accidents_nil|by eapply shard_accidents_writes]|].
  destruct (open_shard _ _ _ _ _ _ _) as [[fs1 idx1] [t|e]]; auto.
Qed.

(** Shards that came up without an accident, and shards that will. *)
Lemma open_accidents_up i fs idx ds env fs' idx' ts :
  open_accidents cfg i fs idx ds env = [] → open_shards cfg i fs idx ds env (λ _, true) = (fs', idx', Ok ts) →
  shards_open cfg i fs idx ds env.
Proof.
  revert i fs idx ts. induction ds as [|d ds IH]; intros i fs idx ts; cbn [open_accidents open_shards shards_open]; [done|].
  intros [Ha%shard_accidents_nil Hr]%app_eq_nil Ho.
  destruct (open_shard cfg i fs idx d (env i) true) as [[fs1 idx1] [t|e]] eqn:E1; [|done].
  split; [split; [done|by eapply open_shard_writes]|].
  destruct (open_shards cfg (S i) fs1 idx1 ds env (λ _, true)) as [[fs2 idx2] [ts2|e]] eqn:E2; [|done].
  injection Ho as <- <- _. by eapply IH.
Qed.

(** ** Sweeping *)

Lemma inv_sweep_begin s content i sv' data :
  state_inv s content → flushing s = None → sweep_begin (server s) i = (sv', Some data) →
  moves s content (after_drain s i sv' data).
Proof.
  unfold after_drain.
  intros I Hfl Hb. unfold sweep_begin in Hb. destruct (memtables (server s) !! i) as [m|] eqn:Hm; [|done].
  destruct (should_flush m); [|done]. cbv zeta in Hb. injection Hb as <- <-.
  pose proof (state_memtables _ _ I) as Hmts. rewrite Forall_lookup in Hmts. pose proof (Hmts i m Hm) as Hmw.
  destruct I as [[Nw Nm Nl Np Hcw Hwk Hpath] Eh Eq Ewr Htr Esn Hf Hst Hcp Hk Hmem Hlogs Hcov]. rewrite Hfl in Hmem.
  exists content. split.
  2: { split; cbn [history gone flushing clashed]; auto using holds_value_ret; [apply same_history|].
       intros j k ts v Hd. by rewrite Hfl in Hd. }
  split; cbn [server flushing snapping compacting history queued written logged ahead gone covered clashed]; try done.
  - split; cbn; try done. by rewrite length_insert.
  - intros j d [= <- <-]. cbn [drain fst]. split; [by rewrite <-Nm; eapply lookup_lt_Some|apply Hmw].
  - cbn [memtables with_memtables]. intros j m' h Hm' Hh.
    apply list_lookup_insert_Some in Hm' as [(<- & <- & _)|[Hne Hm']]; cbn [in_flight].
    + rewrite decide_True by done. destruct (Hmem i m h Hm Hh) as [_ Hl Hkn]. split; [apply drain_wf|..].
      * intros Hn k ts v Hw. eapply holds_value_mono; [by apply (Hl Hn)|]. intros v' [?|[Hd|Hd]]; [by left|done|]. right; left. exact Hd.
      * intros k ts v [Hd|Hd]; [|done]. apply Hkn. right. exact Hd.
    + rewrite decide_False by done. exact (Hmem j m' h Hm' Hh).
  - intros Hlg. destruct (Hlogs Hlg) as (syss & [Lt Ls Lsn Lsv]). exists syss. by split.
Qed.

(** A write touches no path but the chunk's. *)
Lemma write_other w fs data now seed io path :
  path ≠ chunk_path w (new_chunk_id now) → (write w fs data now seed io).1 !! path = fs !! path.
Proof.
  intros Hp. destruct (decide (data = [])) as [->|Hne]; [done|].
  destruct (write_cases w fs data now seed io Hne) as (p & _ & ->). cbv zeta.
  destruct (fs !! chunk_path w (new_chunk_id now)); [done|]. by destruct io; cbn [fst]; rewrite lookup_insert_ne.
Qed.

(** Neither a store nor the snapshot is disturbed by it. *)
Lemma write_keeps fs data now seed io :
  let fs' := (write (writer_of cfg) fs data now seed io).1 in
  (∀ idx c, store_inv (writer_of cfg) fs idx c → store_inv (writer_of cfg) fs' idx c) ∧
  (∀ idx c st, compact_inv (writer_of cfg) fs idx c st → compact_inv (writer_of cfg) fs' idx c st) ∧
  loaded_index fs' = loaded_index fs.
Proof.
  cbv zeta. set (fs' := (write _ _ _ _ _ _).1).
  assert (∀ c', is_Some (fs !! chunk_path (writer_of cfg) c') →
    fs' !! chunk_path (writer_of cfg) c' = fs !! chunk_path (writer_of cfg) c') as Hfs; [|split; [|split]].
  - intros c' Hp. unfold fs'. destruct (decide (chunk_path (writer_of cfg) c' = chunk_path (writer_of cfg) (new_chunk_id now))) as [E|Hne];
      [|by apply write_other].
    destruct (decide (data = [])) as [->|Hne]; [done|].
    destruct (write_cases (writer_of cfg) fs data now seed io Hne) as (p & _ & ->). cbv zeta.
    destruct Hp as [b Hb]. rewrite E in Hb |- *. by rewrite Hb.
  - intros idx c Sc. by eapply store_inv_extend.
  - intros idx c st Hc. by eapply compact_inv_fs.
  - apply loaded_index_fs, write_other. intros E. by apply (co_index _ Hcfg (new_chunk_id now)).
Qed.

(** The shard without the data in flight. *)
Lemma shard_mem_drop content content' drained m h lost lost' clash :
  shard_mem content drained m h lost clash →
  (∀ k ts v, content_cell content k ts v → content_cell content' k ts v) →
  (¬ lost' → ¬ lost ∧ ∀ k ts v, data_lookup drained k ts = Some v → content_cell content' k ts v) →
  shard_mem content' [] m h lost' clash.
Proof.
  intros [Hm Hl Hk] Hc Hd. split; [done|..].
  - intros Hn k ts v Hw. destruct (Hd Hn) as [Hn' Hd']. eapply holds_value_mono; [by apply (Hl Hn')|]. intros v' [?|[?|?]]; auto.
  - intros k ts v [?|?]; [done|]. apply Hk. by right.
Qed.

Lemma inv_sweep_failed s content i data env :
  state_inv s content → flushing s = Some (i, data) → is_ok (flush_result (server s) data env) = false →
  moves s content {| server := sweep_finish (server s) i data env; flushing := None; snapping := snapping s; compacting := compacting s;
    history := history s; queued := queued s; written := written s; logged := logged s; ahead := ahead s;
    gone := if bool_decide (data = []) then gone s else gone s ∪ {[i]}; covered := covered s; clashed := clashed s |}.
Proof.
  intros I Hfl Hr. destruct I as [[Nw Nm Nl Np Hcw Hwk Hpath] Eh Eq Ewr Htr Esn Hf Hst Hcp Hk Hmem Hlogs Hcov].
  unfold flush_result in Hr. unfold sweep_finish. rewrite Hcw in Hr |- *.
  destruct (write_keeps (files (server s)) data (fe_now env) (fe_seed env) (fe_io env)) as (Hkeep & Hkeepc & Eload).
  destruct (write _ _ _ _ _ _) as [fs' [r|e]]; [done|]. cbn [fst snd] in *.
  exists content. split.
  2: { split; cbn [history gone flushing clashed]; auto using holds_value_ret; [apply same_history|case_bool_decide; set_solver|].
       intros j k ts v. rewrite Hfl. cbn [in_flight]. case_decide as E; [|done]. case_bool_decide as Ed; [by rewrite Ed|].
       set_solver. }
  split; cbn [server flushing snapping compacting history queued written logged ahead gone covered clashed files index]; try done.
  - by apply Hkeep.
  - by apply Hkeepc.
  - cbn [memtables in_flight]. intros j m h Hm Hh. pose proof (Hmem j m h Hm Hh) as Sm. rewrite Hfl in Sm. cbn [in_flight] in Sm.
    eapply shard_mem_drop; [exact Sm|done|]. case_bool_decide as E.
    + subst. intros Hn. split; [done|]. intros k ts v. by case_decide.
    + intros Hn. rewrite decide_False by set_solver. split; [set_solver|done].
  - intros Hlg. destruct (Hlogs Hlg) as (syss & [Lt Ls Lsn Lsv]). exists syss. split; cbn [server snapping ahead covered]; [done..|].
    intros Hc. destruct (Lsv Hc) as (content_s & Hss & Hks & Hsd). exists content_s. cbn [files persisted_watermarks].
    rewrite Eload. split; [by apply Hkeep|done].
Qed.

(** The shard whose drained data is now in the content. *)
Lemma settled_last h w k ts v : settled h w → last_write w k ts = Some v → last_write h k ts = Some v.
Proof.
  intros Hs Hw. destruct (last_write_Some_In _ _ _ _ Hw) as (p & Hp & <- & <- & _).
  unfold settled in Hs. rewrite Forall_forall in Hs. by rewrite <-(Hs p Hp).
Qed.

Lemma shard_log_flushed content content' drained sys sys' m h w lost ran ran' clash l p :
  shard_mem content drained m h lost clash → shard_log content sys w l p ran clash → sys_inv sys' → acked sys' = acked sys →
  gc_seq sys' = Z.max (gc_seq sys) (Z.max 0 p) →
  current_seq (writer (task sys')) = current_seq (writer (task sys)) →
  log_points (dir (task sys')) ⊆ log_points (dir (task sys)) →
  (∀ k ts v, content_cell content' k ts v ↔ data_lookup drained k ts = Some v ∨ content_cell content k ts v) →
  (¬ ran' → entries m = [] ∧ settled h w ∧ ¬ lost) →
  shard_log content' sys' w (current_seq (writer (task sys))) p ran' clash.
Proof.
  intros [Hm Hmem _] [Hs Hgc Hl Hp Hk _] Hs' Ea Eg Es Hsub Hc Hq. pose proof (sys_inv_seq _ Hs) as [Hpos _].
  split; try done; try lia; [by etrans|]. intros Hn k ts v. destruct (Hq Hn) as (Em & Hset & Hnl).
  intros Hw%(settled_last _ _ _ _ _ Hset). eapply holds_value_mono; [by apply (Hmem Hnl)|]. intros v' Hv'. left. apply Hc.
  destruct Hv' as [?|[?|Hd]]; [by right|by left|]. unfold mt_lookup in Hd. by rewrite Em in Hd.
Qed.

Lemma shard_saved_gc content sys sys' h p wm clash :
  shard_saved content sys h p wm clash → 0 <= gc_seq sys → acked sys' = acked sys →
  gc_seq sys' = Z.max (gc_seq sys) (Z.max 0 p) →
  current_seq (writer (task sys')) = current_seq (writer (task sys)) → shard_saved content sys' h p wm clash.
Proof.
  intros [Sp Sw Sl] Hpos Ea Eg Es. split; [done|lia|]. unfold pending_points. rewrite Ea.
  replace (Z.max wm (gc_seq sys')) with (Z.max wm (gc_seq sys)) by lia. done.
Qed.

Lemma alter_task f i sys sys' syss :
  syss !! i = Some sys → task sys' = f (task sys) → alter f i (map task syss) = map task (<[i := sys']> syss).
Proof.
  intros Hs Et. rewrite list_fmap_insert, Et. apply list_eq. intros j. destruct (decide (i = j)) as [<-|Hij].
  - rewrite list_lookup_alter_eq, list_lookup_insert_eq by (rewrite length_map; by eapply lookup_lt_Some).
    by rewrite list_lookup_fmap, Hs.
  - by rewrite list_lookup_alter_ne, list_lookup_insert_ne.
Qed.

(** The chunk of a sweep: the store gains it, and neither a store nor the snapshot loses. *)
Lemma finish_store sv i data env content :
  store_inv (writer_of cfg) (files sv) (index sv) content → data_wf data → chunk_writer sv = writer_of cfg →
  is_ok (flush_result sv data env) = true → flush_ok (index sv) data (fe_now env) (fe_seed env) →
  let sv' := sweep_finish sv i data env in
  ∃ content', store_inv (writer_of cfg) (files sv') (index sv') content' ∧
    (∀ k ts v, content_cell content' k ts v ↔ data_lookup data k ts = Some v ∨ content_cell content k ts v) ∧
    (∀ idx c, store_inv (writer_of cfg) (files sv) idx c → store_inv (writer_of cfg) (files sv') idx c) ∧
    (∀ st, compact_inv (writer_of cfg) (files sv) (index sv) content st →
       compact_inv (writer_of cfg) (files sv') (index sv') content' st) ∧
    loaded_index (files sv') = loaded_index (files sv) ∧
    sv' = {| wals := alter (λ t, wal_gc t (default 0 (persisted_watermarks sv !! i)) (fe_rotated env) (fe_removed env)) i (wals sv);
             memtables := memtables sv; index := index sv'; chunk_writer := chunk_writer sv;
             compaction_worker := compaction_worker sv; snapshot_path := snapshot_path sv;
             live_watermarks := <[i := match wals sv !! i with Some t => sender_current_sequence t | None => 0 end]> (live_watermarks sv);
             persisted_watermarks := persisted_watermarks sv; append_seq := append_seq sv; files := files sv' |}.
Proof.
  intros S Hd Hcw Hr Hok. cbv zeta. unfold flush_result in Hr. rewrite Hcw in Hr.
  destruct (write_keeps (files sv) data (fe_now env) (fe_seed env) (fe_io env)) as (Hkeep & Hkeepc & Eload).
  destruct (decide (data = [])) as [->|Hne]; [done|].
  assert (flushes (writer_of cfg) (files sv) (index sv) data env) as Hfl.
  { destruct (write_cases (writer_of cfg) (files sv) data (fe_now env) (fe_seed env) (fe_io env) Hne) as (p & _ & E).
    rewrite E in Hr. cbv zeta in Hr. split; [done|]. destruct (files sv !! _); [done|]. by destruct (fe_io env). }
  destruct (flush_adds _ _ _ _ _ _ S Hd Hne Hfl) as (fs' & r & Hw & S' & Hcells & _).
  unfold sweep_finish. rewrite Hcw, Hw in *. cbn [files index fst] in *.
  exists (<[new_chunk_id (fe_now env) := data]> content). split_and!; try done. intros st Hst.
  destruct (flush_ok_spec _ _ _ _ _ _ _ S Hd Hok) as (Wr & Hc & F). by eapply compact_inv_flush.
Qed.

(** What the sweep leaves behind the log of its shard. *)
Lemma flushed_logs s i data env content content' (ahead' : gset nat) syss :
  state_inv s content → flushing s = Some (i, data) → segment_room (server s) i →
  logs_inv s content syss → fe_rotated env = true →
  (∀ k ts v, content_cell content' k ts v ↔ data_lookup data k ts = Some v ∨ content_cell content k ts v) →
  (∀ j, j ≠ i → j ∈ ahead' ↔ j ∈ ahead s) → (i ∉ ahead' → quiet s i = true) →
  let live' := <[i := match wals (server s) !! i with Some t => sender_current_sequence t | None => 0 end]>
                 (live_watermarks (server s)) in
  ∃ syss',
    alter (λ t, wal_gc t (default 0 (persisted_watermarks (server s) !! i)) (fe_rotated env) (fe_removed env)) i
      (wals (server s)) = map task syss' ∧
    (∀ j sys h l p, syss' !! j = Some sys → written s !! j = Some h → live' !! j = Some l →
       persisted_watermarks (server s) !! j = Some p → shard_log content' sys h l p (j ∈ ahead') (clash_on (clashed s))) ∧
    (∀ wms, wms ∈ snapping s → Forall2 (λ w l, 0 <= w <= l) wms live') ∧
    ∀ c j sys h p wm clash, (∀ sys0, syss !! j = Some sys0 → shard_saved c sys0 h p wm clash) →
      syss' !! j = Some sys → persisted_watermarks (server s) !! j = Some p → shard_saved c sys h p wm clash.
Proof.
  intros I Hfl Hroom L Hrot Hcells Hah Hq live'. pose proof (proj1 (st_flushing _ _ _ I i data Hfl)) as Hi.
  destruct (state_shard _ _ _ I Hi) as (t & m & _ & _ & _ & _ & Ht & Hm & _). unfold segment_room in Hroom. rewrite Ht in Hroom.
  unfold live'. rewrite Ht. clear live'.
  pose proof Ht as Hs. rewrite (li_tasks _ _ _ _ L), list_lookup_fmap in Hs. apply fmap_Some in Hs as (sys & Hs & ->).
  destruct (logs_shard _ _ _ _ _ I L Hs) as (m0 & h & w & l & p & _ & Hm0 & Hh & Hw & Hl & Hp & Sm & Sl).
  rewrite Hm in Hm0. injection Hm0 as <-. rewrite Hfl in Sm. cbn [in_flight] in Sm. rewrite decide_True in Sm by done.
  destruct (task_gc sys p (fe_removed env) (sl_sys _ _ _ _ _ _ _ Sl) Hroom) as (sys' & Et' & Hs' & Ea & Eg & Eseq & Hsub).
  exists (<[i := sys']> syss). rewrite Hp, Hrot. cbn [default id].
  assert (sender_current_sequence (task sys) = current_seq (writer (task sys))) as Ecur
    by (exact (sys_inv_last _ (sl_sys _ _ _ _ _ _ _ Sl))).
  split_and!.
  - rewrite (li_tasks _ _ _ _ L). by apply alter_task with sys.
  - intros j sys0 h0 l0 p0 Hs0 Hh0 Hl0 Hp0.
    apply list_lookup_insert_Some in Hs0 as [(<- & <- & _)|[Hij Hs0]].
    + rewrite list_lookup_insert_eq in Hl0 by (by eapply lookup_lt_Some).
      rewrite Hw in Hh0. simplify_eq. rewrite Ecur.
      eapply shard_log_flushed; [exact Sm|exact Sl|done..|]. intros Hn. specialize (Hq Hn). unfold quiet in Hq.
      rewrite Hm, Hh, Hw in Hq. by apply bool_decide_eq_true in Hq.
    + rewrite list_lookup_insert_ne in Hl0 by done.
      eapply shard_log_mono; [by apply cells_kept_more; intros; apply Hcells; right|done|].
      destruct (li_shards _ _ _ _ L j sys0 h0 l0 p0 Hs0 Hh0 Hl0 Hp0). split; try done. by rewrite Hah by done.
  - intros wms Hsn. pose proof (li_snapping _ _ _ _ L wms Hsn) as HF. 
    apply Forall2_same_length_lookup in HF as [Hlen HF]. apply Forall2_same_length_lookup. rewrite length_insert. split; [done|].
    intros j w0 l0 Hw0 Hl0. apply list_lookup_insert_Some in Hl0 as [(<- & <- & _)|[_ Hl0]]; [|by eapply HF].
    specialize (HF i w0 l Hw0 Hl). pose proof (sl_live _ _ _ _ _ _ _ Sl). lia.
  - intros c j sys0 h0 p0 wm clash Hold Hs0 Hp0. apply list_lookup_insert_Some in Hs0 as [(<- & <- & _)|[Hij Hs0]]; [|auto].
    simplify_eq. eapply shard_saved_gc; [by apply Hold|apply Sl|done..].
Qed.

Lemma inv_sweep_flushed s content i data env :
  state_inv s content → flushing s = Some (i, data) → segment_room (server s) i →
  is_ok (flush_result (server s) data env) = true → flush_ok (index (server s)) data (fe_now env) (fe_seed env) →
  moves s content {| server := sweep_finish (server s) i data env; flushing := None; snapping := snapping s; compacting := compacting s;
    history := history s; queued := queued s; written := written s; logged := logged s && fe_rotated env;
    ahead := if quiet s i then ahead s ∖ {[i]} else ahead s ∪ {[i]}; gone := gone s;
    covered := covered s && fe_rotated env; clashed := clashed s |}.
Proof.
  intros I Hfl Hroom Hr Hok. pose proof I as [[Nw Nm Nl Np Hcw Hwk Hpath] Eh Eq Ewr Htr Esn Hf Hst Hcp Hk Hmem Hlogs Hcov].
  destruct (Hf i data Hfl) as [Hi Hdw].
  destruct (finish_store (server s) i data env content Hst Hdw Hcw Hr Hok)
    as (content' & S' & Hcells & Hkeep & Hkeepc & Eload & Esv). set (sv' := sweep_finish (server s) i data env) in *.
  assert (persisted_watermarks sv' = persisted_watermarks (server s)) as Epw by (by rewrite Esv).
  exists content'. split.
  2: { split; cbn [history gone flushing clashed]; auto; [apply same_history|intros; apply holds_value_ret, Hcells; by right|].
       intros j k ts v. rewrite Hfl. cbn [in_flight]. case_decide as E; [|done]. intros Hd _. left. apply Hcells. by left. }
  split; cbn [server flushing snapping compacting history queued written logged ahead gone covered clashed]; try done.
  - rewrite Esv. split; cbn; try done; [by rewrite length_alter|by rewrite length_insert].
  - by apply Hkeepc.
  - intros k ts v [Hd|?]%Hcells; [|by apply Hk].
    destruct (state_shard _ _ _ I Hi) as (t & m & h & q & l & p & _ & Em & Hh & _).
    exists i, h. split; [done|]. apply (sm_known _ _ _ _ _ _ (Hmem i m h Em Hh)). left. rewrite Hfl. cbn [in_flight].
    by rewrite decide_True.
  - intros j m h Hm Hh. rewrite Esv in Hm. cbn [memtables in_flight] in *.
    eapply shard_mem_drop; [exact (Hmem j m h Hm Hh)|intros; apply Hcells; by right|]. intros Hn. split; [done|].
    intros k ts v. rewrite Hfl. cbn [in_flight]. case_decide; [|done]. intros Hd. apply Hcells. by left.
  - intros [Hlg Hrot]%andb_true_iff. destruct (Hlogs Hlg) as (syss & L).
    set (ahead' := if quiet _ _ then _ else _).
    destruct (flushed_logs s i data env content content' ahead' syss I Hfl Hroom L Hrot Hcells) as (syss' & Et & Hsh & Hsn & Hsv).
    { intros j Hj. unfold ahead'. destruct (quiet _ _); set_solver. }
    { intros Hn. unfold ahead' in Hn. destruct (quiet s i); [done|set_solver]. }
    exists syss'. split; cbn [server snapping ahead covered].
    + rewrite Esv. exact Et.
    + intros j sys h l p Hs Hh Hl Hp. rewrite Esv in Hl, Hp. by eapply Hsh.
    + rewrite Esv. exact Hsn.
    + intros [Hc _]%andb_true_iff. destruct (li_saved _ _ _ _ L Hc) as (content_s & Hss & Hks & Hsd). exists content_s.
      rewrite Eload, Epw. split; [by apply Hkeep|]. split; [done|]. intros j sys h p Hs Hh Hp.
      eapply Hsv; [|exact Hs|exact Hp]. intros sys0 Hs0. by eapply Hsd.
  - intros [Hc Hrot]%andb_true_iff. by rewrite Hcov.
Qed.

Lemma inv_sweep_finish s content i data env :
  state_inv s content → flushing s = Some (i, data) → finish_accidents (server s) i data env = [] →
  moves s content (after_flush s i data env).
Proof.
  unfold after_flush.
  intros I Hfl [Hroom%unless_nil Hok]%app_eq_nil. cbv zeta. destruct (flush_result (server s) data env) as [res|e] eqn:Er; cbn [is_ok negb orb].
  - rewrite orb_false_r. apply inv_sweep_flushed; [done..|by rewrite Er|by apply flush_accidents_nil].
  - rewrite orb_true_r, !andb_true_r. apply inv_sweep_failed; [done..|by rewrite Er].
Qed.

(** ** Snapshots and compaction *)

(** A loaded index serves the store as the saved one does. *)
Lemma store_inv_equiv w fs a b content : index_equiv a b → store_inv w fs a content → store_inv w fs b content.
Proof.
  intros E [S1 S2 S3 S4 S5 S6 S7].
  assert (∀ id, time_map b id = time_map a id) as Et by (intros id; by rewrite E).
  split; try done; intros *.
  - by rewrite <-E.
  - rewrite <-(eq_files _ _ E). apply S2.
  - rewrite <-(eq_files _ _ E). apply S3.
  - rewrite Et, <-(eq_registry _ _ E). apply S5.
  - rewrite Et, <-(eq_registry _ _ E). apply S6.
  - rewrite Et, <-(eq_stats _ _ E). apply S7.
Qed.

Lemma save_other_paths fs idx wm io renamed path :
  path ≠ index_path cfg → path ≠ with_extension (index_path cfg) "tmp" →
  (save_index fs idx (index_path cfg) wm io renamed).1 !! path = fs !! path.
Proof.
  intros Hp Ht. rewrite save_cases. destruct io, renamed; cbn [fst];
    by rewrite ?lookup_insert_ne, ?lookup_delete_ne, ?lookup_insert_ne by done.
Qed.

(** Saving keeps the store; a failed save keeps the old snapshot, a successful one
    installs the index with the watermarks. *)
Lemma save_store fs idx content wm io renamed :
  store_inv (writer_of cfg) fs idx content → valid (snapshot_of idx wm) →
  let r := save_index fs idx (index_path cfg) wm io renamed in
  (∀ idx' content', store_inv (writer_of cfg) fs idx' content' → store_inv (writer_of cfg) r.1 idx' content') ∧
  (∀ idx' content' st, compact_inv (writer_of cfg) fs idx' content' st → compact_inv (writer_of cfg) r.1 idx' content' st) ∧
  match r.2 with
  | Err _ => loaded_index r.1 = loaded_index fs
  | Ok _ => store_inv (writer_of cfg) r.1 (loaded_index r.1) content ∧ shard_watermarks (loaded_index r.1) = wm
  end.
Proof.
  intros S Hv. cbv zeta.
  assert (∀ idx' content', store_inv (writer_of cfg) fs idx' content' →
    store_inv (writer_of cfg) (save_index fs idx (index_path cfg) wm io renamed).1 idx' content') as Hkeep.
  { intros idx' content' S'. eapply store_inv_fs; [exact S'|]. intros c _.
    apply save_other_paths; [apply (co_index _ Hcfg)|apply (co_tmp _ Hcfg)]. }
  split; [exact Hkeep|]. split.
  { intros idx' content' st Hc. eapply compact_inv_fs; [exact Hc|]. intros c _.
    apply save_other_paths; [apply (co_index _ Hcfg)|apply (co_tmp _ Hcfg)]. }
  destruct (save_index _ _ _ _ _ _) as [fs' [[]|e]] eqn:E; cbn [fst snd] in *.
  - destruct (rebuild_snapshot idx wm (si_idx _ _ _ _ S)) as [He Ew].
    assert (loaded_index fs' = rebuild_index (snapshot_of idx wm)) as ->.
    { unfold System.loaded_index, loaded_from. by rewrite (load_saved valid fs' (index_path cfg) idx wm Hv (save_Ok_inv _ _ _ _ _ _ _ E)). }
    split; [|done]. eapply store_inv_equiv; [symmetry; exact He|]. by apply Hkeep.
  - apply loaded_index_fs. rewrite save_cases in E. pose proof (co_new _ Hcfg).
    destruct io, renamed; try done; injection E as <- _; by rewrite lookup_insert_ne.
Qed.

Lemma zip_with_second {A} (l k : list A) : length l = length k → zip_with (λ _ w, w) l k ++ drop (length k) l = k.
Proof.
  intros E. rewrite drop_ge, app_nil_r by lia. revert k E. induction l as [|x l IH]; intros [|y k] E; try done.
  cbn in *. f_equal. apply IH. lia.
Qed.

(** A watermark that was read earlier is as good as the live one. *)
Lemma shard_snapshot content sys h l p ran clash w :
  shard_log content sys h l p ran clash → 0 <= w <= l →
  shard_log content sys h l w ran clash ∧ (¬ ran → shard_saved content sys h w w clash).
Proof.
  intros [Hs Hg Hl Hp Hk Hlast] Hw. split; [split; try done; lia|]. intros Hn. split; [lia|lia|]. intros k ts v Hlw.
  eapply holds_value_mono; [by apply (Hlast Hn)|]. intros v' [?|Hpd]; [by left|right].
  destruct (pending_suffix sys (Z.max w (gc_seq sys)) l Hs ltac:(lia)) as [older ->]. by rewrite last_write_app, Hpd.
Qed.

Lemma inv_capture s content : state_inv s content → moves s content (after_capture s).
Proof.
  intros I. pose proof I as [[Nw Nm Nl Np Hcw Hwk Hpath] Eh Eq Ewr Htr Esn Hf Hst Hcp Hk Hmem Hlogs Hcov].
  exists content. split; [|by apply kept_same].
  split; cbn [after_capture server flushing snapping compacting history queued written logged ahead gone covered clashed]; try done.
  - intros wms [?| ->%list_elem_of_singleton]%elem_of_app; auto.
  - intros Hlg. destruct (Hlogs Hlg) as (syss & L). exists syss. pose proof L as [Lt Ls Lsn Lsv]. split; try done.
    cbn [after_capture server snapping].
    intros wms [?| ->%list_elem_of_singleton]%elem_of_app; [by apply Lsn|]. apply Forall2_same_length_lookup. split; [done|].
    intros j w l Hw Hl. rewrite Hw in Hl. injection Hl as <-.
    destruct (lookup_lt_is_Some_2 syss j) as [sys Hs].
    { rewrite (logs_length _ _ _ I L), <-Nl. by eapply lookup_lt_Some. }
    destruct (logs_shard _ _ _ _ _ I L Hs) as (m & h & q & l & p & _ & _ & _ & _ & Hl & _ & _ & [_ Hg _ _ _ _]).
    rewrite Hw in Hl. injection Hl as <-. lia.
Qed.

Lemma inv_save s content n wms io renamed :
  state_inv s content → snapping s !! n = Some wms → valid (snapshot_of (index (server s)) wms) →
  moves s content (after_save s n wms io renamed).
Proof.
  unfold after_save. intros I Hsnap Hv. cbv zeta. pose proof I as [[Nw Nm Nl Np Hcw Hwk Hpath] Eh Eq Ewr Htr Esn Hf Hst Hcp Hk Hmem Hlogs Hcov].
  apply list_elem_of_lookup_2 in Hsnap. pose proof (Esn wms Hsnap) as Ew. unfold snapshot_save. rewrite Hpath.
  assert (∀ w, w ∈ delete n (snapping s) → w ∈ snapping s) as Hdel.
  { intros w Hw. eapply elem_of_submseteq; [exact Hw|]. apply sublist_submseteq, sublist_delete. }
  destruct (save_store _ _ _ wms io renamed Hst Hv) as (Hkeep & Hkeepc & Hres). cbv zeta in Hkeep, Hkeepc, Hres.
  destruct (save_index _ _ _ _ _ _) as [fs' [[]|e]]; cbn [fst snd is_ok] in *; exists content; (split; [|by apply kept_same]).
  - rewrite zip_with_second by congruence. destruct Hres as [Hss Ewm].
    split; cbn [server flushing snapping compacting history queued written logged ahead gone covered clashed files index]; try done.
    { auto. } { by apply Hkeep. } { by apply Hkeepc. } 2: { by intros [? _]%andb_true_iff. }
    intros Hlg. destruct (Hlogs Hlg) as (syss & [Lt Ls Lsn Lsv]). exists syss.
    assert (∀ j w, wms !! j = Some w → ∃ l p, live_watermarks (server s) !! j = Some l ∧
      persisted_watermarks (server s) !! j = Some p ∧ 0 <= w <= l) as Hpw.
    { intros j w Hw. pose proof (lookup_lt_Some _ _ _ Hw) as Hlt.
      destruct (lookup_lt_is_Some_2 (live_watermarks (server s)) j) as [l Hl]; [lia|].
      destruct (lookup_lt_is_Some_2 (persisted_watermarks (server s)) j) as [p Hp]; [lia|].
      exists l, p. split; [done|]. split; [done|]. specialize (Lsn wms Hsnap). rewrite Forall2_lookup in Lsn.
      specialize (Lsn j). rewrite Hw, Hl in Lsn. by inv Lsn. }
    split; cbn [server snapping ahead covered wals live_watermarks persisted_watermarks]; [done|..|by auto|].
    + intros j sys h l w Hs Hh Hl Hw. destruct (Hpw j w Hw) as (l' & p & Hl' & Hp & Hle). rewrite Hl in Hl'. injection Hl' as <-.
      exact (proj1 (shard_snapshot _ _ _ _ _ _ _ w (Ls j sys h l p Hs Hh Hl Hp) Hle)).
    + intros [_ Ha%bool_decide_eq_true]%andb_true_iff. exists content. cbn [files persisted_watermarks]. split; [done|].
      split; [exact (content_known_grows _ _ _ (grows_written s content I) Hk)|]. rewrite Ewm. intros j sys h w Hs Hh Hw.
      rewrite Hw. cbn [default id]. destruct (Hpw j w Hw) as (l & p & Hl & Hp & Hle).
      apply (proj2 (shard_snapshot _ _ _ _ _ _ _ w (Ls j sys h l p Hs Hh Hl Hp) Hle)). rewrite Ha. set_solver.
  - split; cbn [server flushing snapping compacting history queued written logged ahead gone covered clashed files index]; try done; [by auto|by apply Hkeep|by apply Hkeepc|].
    intros Hlg. destruct (Hlogs Hlg) as (syss & [Lt Ls Lsn Lsv]). exists syss.
    split; cbn [server snapping ahead covered wals live_watermarks persisted_watermarks]; [done..|by auto|].
    intros Hc. destruct (Lsv Hc) as (content_s & Hss & Hks & Hsd). exists content_s. cbn [files persisted_watermarks].
    rewrite Hres. split; [by apply Hkeep|done].
Qed.

Lemma inv_pick s content :
  state_inv s content → compacting s = Idle → moves s content (after_pick s).
Proof.
  intros I _. destruct I as [[Nw Nm Nl Np Hcw Hwk Hpath] Eh Eq Ewr Htr Esn Hf Hst Hcp Hk Hmem Hlogs Hcov].
  exists content. split; [|by apply kept_same]. split; try done.
  - cbn [after_pick compacting server]. rewrite <-Hwk in Hst |- *. by apply start_compact_inv.
  - intros Hlg. destruct (Hlogs Hlg) as (syss & [Lt Ls Lsn Lsv]). exists syss. by split.
Qed.

(** The cycle writes and removes chunk files only. *)
Lemma compact_other wk fs idx content st env path :
  cw_writer wk = writer_of cfg → compact_inv (cw_writer wk) fs idx content st →
  (∀ c, chunk_path (writer_of cfg) c ≠ path) → (compact_step wk fs idx st env).1.1 !! path = fs !! path.
Proof.
  intros Hwk I Hp. rewrite Hwk in I. destruct st as [|[|g gs]|g r gs|[|c cs] gs]; try done; cbn [compact_step].
  - unfold merge_write. rewrite Hwk. destruct (merge_chunks fs (chunks g) []) as [d|e]; [|done].
    pose proof (write_other (writer_of cfg) fs d (env_now env) (env_seed env) (env_io env) path) as Hw.
    destruct (write _ _ _ _ _ _) as [fs1 [r|e]]; cbn [fst] in *; apply Hw; intros E; by apply (Hp (new_chunk_id (env_now env))).
  - destruct I as (_ & _ & [(_ & Ep & _) _]%Forall_cons). destruct (env_removed env c.2); [|done]. cbn [fst].
    apply lookup_delete_ne. rewrite Ep. apply Hp.
Qed.

Lemma inv_compact s content env :
  state_inv s content → compact_accidents (files (server s)) (index (server s)) (compacting s) env = [] →
  moves s content (after_compact s env).
Proof.
  unfold after_compact. intros I Hok%compact_accidents_nil. destruct I as [[Nw Nm Nl Np Hcw Hwk Hpath] Eh Eq Ewr Htr Esn Hf Hst Hcp Hk Hmem Hlogs Hcov].
  rewrite Hpath. fold (loaded_index (files (server s))).
  rewrite <-Hwk in Hst, Hcp. pose proof (compact_step_inv _ _ _ _ _ env Hst Hcp Hok) as Hs.
  pose proof (λ c, compact_step_keeps _ _ _ _ _ env (loaded_index (files (server s))) c Hst Hcp Hok) as Hkeep.
  pose proof (compact_other _ _ _ _ _ env (index_path cfg) Hwk Hcp (co_index _ Hcfg)) as Hidx.
  destruct (compact_step _ _ _ _ _) as [[fs' idx'] st'] eqn:Es. cbn [fst] in *. destruct Hs as (content' & Hst' & Hcp' & [Hsound Hkeeps]).
  set (cells := clashed s ++ _).
  assert (cells_kept (clash_on cells) content content') as Hc.
  { intros k ts v (v' & Ev & Hv')%Hkeeps. exists v'. split; [|done]. destruct Ev as [?|?]; [by left|right]. apply elem_of_app. by right. }
  assert (∀ k ts, clash_on (clashed s) k ts → clash_on cells k ts) as Hcl.
  { intros k ts Hk'. apply elem_of_app. by left. }
  apply loaded_index_fs in Hidx. rewrite Hwk in Hst', Hcp'. exists content'. split.
  2: { split; cbn [history gone flushing clashed]; auto; [apply same_history|]. intros c Hin. apply elem_of_app. by left. }
  split; cbn [server flushing snapping compacting history queued written logged ahead gone covered clashed with_store files index]; try done.
  - intros k ts v Hcc. by apply Hk, Hsound.
  - cbn [memtables]. intros j m h Hm Hh. eapply shard_mem_mono; [exact Hc|exact Hcl|by apply Hmem].
  - intros Hlg. destruct (Hlogs Hlg) as (syss & [Lt Ls Lsn Lsv]). exists syss.
    split; cbn [server snapping ahead covered with_store wals live_watermarks persisted_watermarks]; [done| |done|].
    + intros j sys h l p Hs Hh Hl Hp. eapply shard_log_mono; [exact Hc|exact Hcl|by apply Ls].
    + intros [Hcv Hrem%negb_true_iff]%andb_true_iff. destruct (Lsv Hcv) as (content_s & Hss & Hks & Hsd). exists content_s.
      cbn [with_store files persisted_watermarks]. rewrite Hidx. split; [rewrite <-Hwk in Hss |- *; by apply Hkeep|].
      split; [done|]. intros j sys h p Hs Hh Hp. eapply shard_saved_clash; [exact Hcl|by eapply Hsd].
  - intros [Hcv _]%andb_true_iff. by apply Hcov.
Qed.

(** ** Starting *)

Lemma load_index_Ok fs path : ∃ loaded, load_index fs path = Ok loaded.
Proof.
  unfold load_index. destruct (fs !! path); [|by eexists]. destruct (decode _); [|by eexists].
  destruct (negb _); by eexists.
Qed.

Lemma map_default_seq {A} (d : A) (l : list A) n : length l = n → map (λ i, default d (l !! i)) (seq 0 n) = l.
Proof.
  intros <-. apply list_eq. intros i. rewrite list_lookup_fmap. destruct (decide (i < length l)%nat) as [Hi|Hi].
  - rewrite lookup_seq_lt by done. cbn. by destruct (lookup_lt_is_Some_2 l i Hi) as [x ->].
  - rewrite lookup_seq_ge by lia. cbn. symmetry. apply lookup_ge_None. lia.
Qed.

(** The server [open] builds once the shards are up. *)
Lemma open_server_inv fs ds env rot sv :
  open_server cfg fs ds env rot = Ok sv →
  let n := Z.to_nat (num_shards cfg) in
  ∃ fs1 idx1 ts worker,
    open_shards cfg 0 fs (loaded_index fs) (map (λ i, default ∅ (ds !! i)) (seq 0 n)) env rot = (fs1, idx1, Ok ts) ∧
    cw_writer worker = writer_of cfg ∧
    sv = {| wals := ts; memtables := replicate n (new (memtable_flush_threshold_bytes cfg / num_shards cfg));
            index := idx1; chunk_writer := writer_of cfg; compaction_worker := worker; snapshot_path := index_path cfg;
            live_watermarks := replicate n 0;
            persisted_watermarks := map (λ i, default 0 (shard_watermarks idx1 !! i)) (seq 0 n);
            append_seq := 0; files := fs1 |}.
Proof.
  unfold open_server, System.loaded_index, loaded_from. destruct (load_index_Ok fs (index_path cfg)) as [loaded ->].
  cbn [mbind result_bind]. destruct (open_shards cfg 0 fs _ _ env rot) as [[fs1 idx1] [ts|e]] eqn:E; [|done].
  destruct (compaction_new _ _ _) as [worker|] eqn:Ew; [|done]. cbn [ok_or mbind result_bind]. intros [= <-].
  cbv zeta. exists fs1, idx1, ts, worker. split; [by destruct loaded|]. split; [|done].
  unfold compaction_new in Ew. destruct (f64_ge _ _); [|done]. by injection Ew as <-.
Qed.

Lemma open_server_ok fs ds env rot fs1 idx1 ts :
  f64_ge (compaction_size_ratio cfg) f64_one = true → length ds = Z.to_nat (num_shards cfg) →
  open_shards cfg 0 fs (loaded_index fs) ds env rot = (fs1, idx1, Ok ts) →
  ∃ sv, open_server cfg fs ds env rot = Ok sv.
Proof.
  intros Hr Hlen E. unfold open_server. unfold System.loaded_index, loaded_from in E.
  destruct (load_index_Ok fs (index_path cfg)) as [loaded El]. rewrite El in E |- *. cbn [mbind result_bind].
  rewrite map_default_seq by done.
  assert (default index_new loaded = match loaded with Some idx => idx | None => index_new end) as -> by (by destruct loaded).
  rewrite E. unfold compaction_new. rewrite Hr. by eexists.
Qed.

(** A shard that has just been opened, all of whose history is in the content. *)
Lemma mem_opened content h t lost clash :
  (∀ k ts v, last_write h k ts = Some v → holds_value clash k ts v (content_cell content k ts)) →
  shard_mem content [] (new t) h lost clash.
Proof.
  intros Hall. split; [apply new_wf| |by intros k ts v [?|?]].
  intros _ k ts v Hw. eapply holds_value_mono; [by apply Hall|auto].
Qed.

Lemma log_opened content sys h wm ran clash :
  sys_inv sys → gc_seq sys = 0 → wm <= current_seq (writer (task sys)) → log_points (dir (task sys)) ⊆ h →
  (∀ k ts v, last_write h k ts = Some v → holds_value clash k ts v (content_cell content k ts)) →
  shard_log content sys h 0 wm ran clash.
Proof.
  intros Hs Hgc Hwm Hk Hall. pose proof (sys_inv_seq _ Hs) as [Hpos _].
  split; try done; [lia|]. intros _ k ts v Hw. eapply holds_value_mono; [by apply Hall|auto].
Qed.

(** ** Crashing *)

(** The log of a shard after a crash in the middle of a batch. *)
Definition shard_torn (sv : StorageServer) (torn : nat → list (list DataPoint)) (io : nat → io_outcome) (j : nat)
    (sys : WalSystem) (l : DiskLog) : Prop :=
  dl_dir l = dir (torn_task (task sys) (torn j) (io j)) ∧
  dl_gc l = gc_seq sys ∧ disk_ok l ∧
  log_points (dl_dir l) = log_points (dir (task sys)) ++ concat (survivors sv torn io j) ∧
  ∀ wm, wm <= current_seq (writer (task sys)) → disk_points l wm = pending_points sys wm ++ concat (survivors sv torn io j).

(** Of an interrupted batch a shard has the first groups, each of them whole. *)
Lemma survivors_prefix sv torn io j : ∃ n, survivors sv torn io j = take n (torn j).
Proof.
  unfold survivors, survived. destruct (wals sv !! j); [|by exists 0%nat]. destruct (io j); [|by eexists].
  exists (length (torn j)). by rewrite take_ge.
Qed.

Lemma torn_ok_lookup sv torn j t :
  torn_ok sv torn → wals sv !! j = Some t → torn j ≠ [] → batch_ok (writer t) (messages (torn j)).
Proof.
  unfold torn_ok. intros Hok Ht. rewrite Forall_lookup in Hok. apply (Hok j (j, t)). by rewrite list_lookup_imap, Ht.
Qed.

Lemma crash_logs s content syss torn io :
  state_inv s content → logs_inv s content syss → torn_ok (server s) torn →
  ∃ ls, length ls = length syss ∧ crash_dirs (server s) torn io = map dl_dir ls ∧
    ∀ j sys l, syss !! j = Some sys → ls !! j = Some l → shard_torn (server s) torn io j sys l.
Proof.
  intros I L Hok. destruct (list_choice (shard_torn (server s) torn io) syss) as (ls & Els & Htorn).
  { intros j sys Hs. destruct (logs_shard _ _ _ _ _ I L Hs) as (m & h & q & l & p & Ht & _ & _ & _ & _ & _ & _ & Sl).
    destruct (torn_append sys (torn j) (io j) (sl_sys _ _ _ _ _ _ _ Sl) (torn_ok_lookup _ _ _ _ Hok Ht)) as (dl & Hdl).
    exists dl. unfold shard_torn, survivors. rewrite Ht. exact Hdl. }
  exists ls. split; [done|]. split; [|done]. pose proof (li_tasks _ _ _ _ L) as Et. unfold crash_dirs.
  apply (list_eq_same_length _ _ (length syss)); rewrite ?length_map, ?length_imap; [done|by rewrite Et, length_map|].
  intros j d1 d2 Hj. rewrite list_lookup_imap, list_lookup_fmap. destruct (lookup_lt_is_Some_2 syss j Hj) as [sys Hs].
  destruct (lookup_lt_is_Some_2 ls j) as [l Hl]; [lia|]. rewrite Et, list_lookup_fmap, Hs, Hl. cbn. intros [= <-] [= <-].
  by destruct (Htorn j sys l Hs Hl) as (-> & _).
Qed.

Lemma left_over_store fs fs' :
  left_over cfg fs fs' →
  (∀ idx c, store_inv (writer_of cfg) fs idx c → store_inv (writer_of cfg) fs' idx c) ∧ loaded_index fs' = loaded_index fs.
Proof.
  intros Hl. split.
  - intros idx c Sc. eapply store_inv_extend; [exact Sc|]. intros c' Hp. apply Hl; [apply (co_tmp _ Hcfg)|by left].
  - apply loaded_index_fs, Hl; [intros E; by apply (co_new _ Hcfg)|by right].
Qed.

(** What was written, with what a crash leaves of the batches. *)
Definition crash_history (s : System) (torn : nat → list (list DataPoint)) (io : nat → io_outcome) : list (list DataPoint) :=
  imap (λ j h, h ++ concat (survivors (server s) torn io j)) (written s).

Lemma crash_history_lookup s torn io j w :
  written s !! j = Some w → crash_history s torn io !! j = Some (w ++ concat (survivors (server s) torn io j)).
Proof. intros Hw. unfold crash_history. by rewrite list_lookup_imap, Hw. Qed.

Lemma grows_crash s torn io : grows (written s) (crash_history s torn io).
Proof.
  intros j w Hw. eexists. split; [by apply crash_history_lookup|]. intros p Hp. apply elem_of_app. by left.
Qed.

(** What the shards look like when they are up again. *)
Lemma crash_shards s content torn io fs env :
  state_inv s content → covered s = true → torn_ok (server s) torn → left_over cfg (files (server s)) fs →
  channel_ok (wal_channel_capacity cfg) = true →
  shards_open cfg 0 fs (loaded_index fs) (crash_dirs (server s) torn io) env →
  ∃ fs' idx' ts content',
    open_shards cfg 0 fs (loaded_index fs) (crash_dirs (server s) torn io) env (λ _, true) = (fs', idx', Ok ts) ∧
    store_inv (writer_of cfg) fs' idx' content' ∧ length ts = Z.to_nat (num_shards cfg) ∧
    content_known content' (crash_history s torn io) ∧
    (∀ j h k x v, crash_history s torn io !! j = Some h → last_write h k x = Some v →
       holds_value (clash_on (clashed s)) k x v (content_cell content' k x)) ∧
    (logs_resume cfg fs (crash_dirs (server s) torn io) = true →
     ∃ syss', ts = map task syss' ∧ ∀ j sys' h, syss' !! j = Some sys' → crash_history s torn io !! j = Some h →
       sys_inv sys' ∧ gc_seq sys' = 0 ∧ default 0 (shard_watermarks idx' !! j) <= current_seq (writer (task sys')) ∧
       log_points (dir (task sys')) ⊆ h).
Proof.
  intros I Hc Hok Hleft Hch Hopen. destruct (st_logs _ _ _ I (st_covered _ _ _ I Hc)) as (syss & L).
  pose proof (logs_length _ _ _ I L) as Nsys. destruct (left_over_store _ _ Hleft) as [Hkeep Eload].
  destruct (li_saved _ _ _ _ L Hc) as (content_s & Hss & Hks & Hsd). apply Hkeep in Hss. rewrite <-Eload in Hss, Hsd.
  destruct (crash_logs _ _ _ torn io I L Hok) as (ls & Els & Edirs & Htorn). unfold logs_resume. rewrite Edirs in Hopen |- *.
  set (wm j := default 0 (shard_watermarks (loaded_index fs) !! j)) in *.
  assert (∀ j l, ls !! j = Some l → ∃ sys w p lv, syss !! j = Some sys ∧ written s !! j = Some w ∧
    shard_torn (server s) torn io j sys l ∧ shard_saved content_s sys w p (wm j) (clash_on (clashed s)) ∧
    shard_log content sys w lv p (j ∈ ahead s) (clash_on (clashed s))) as Hsh.
  { intros j l Hl. destruct (lookup_lt_is_Some_2 syss j) as [sys Hs]; [rewrite <-Els; by eapply lookup_lt_Some|].
    destruct (logs_shard _ _ _ _ _ I L Hs) as (m & h & w & lv & p & _ & _ & _ & Hw & _ & Hp & _ & Sl).
    exists sys, w, p, lv. split_and!; auto. by apply Hsd. }
  destruct (open_shards_spec cfg 0 fs (loaded_index fs) content_s ls env Hss)
    as (fs2 & idx2 & ts & content' & E & S' & Ewm & Elen & Hsys' & Hold & Hnew & Hfrom).
  { apply Forall_lookup. intros j l Hl. destruct (Hsh j l Hl) as (sys & w & p & lv & _ & _ & (_ & _ & ? & _) & _). done. }
  { intros j l Hl. destruct (Hsh j l Hl) as (sys & w & p & lv & _ & _ & _ & [_ Hwm _] & _). exact (proj1 Hwm). }
  { exact Hch. } { exact Hopen. }
  exists fs2, idx2, ts, content'. split; [exact E|]. split; [done|]. split; [congruence|]. split; [|split].
  - intros k x v [?|(j & l & Hl & Hp)]%Hfrom; [eapply known_grows; [apply grows_crash|by apply Hks]|].
    destruct (Hsh j l Hl) as (sys & w & p & lv & Hs & Hw & (_ & _ & _ & Elog & _) & _ & [_ _ _ _ Hkn _]).
    exists j, (w ++ concat (survivors (server s) torn io j)). split; [by apply crash_history_lookup|].
    rewrite Elog in Hp. apply elem_of_app in Hp as [?|?]; apply elem_of_app; auto.
  - intros j h k x v Hh. pose proof (lookup_lt_Some _ _ _ Hh) as Hlt. unfold crash_history in Hlt.
    rewrite length_imap, (st_written _ _ _ I) in Hlt. destruct (lookup_lt_is_Some_2 ls j) as [l Hl]; [lia|].
    destruct (Hsh j l Hl) as (sys & w & p & lv & Hs & Hw & (_ & Eg & _ & Elog & Hpts) & [_ Hcur Hlast] & [_ Hg Hlv _ Hkn _]).
    rewrite (crash_history_lookup _ _ _ _ _ Hw) in Hh. injection Hh as <-. rewrite last_write_app. intros Hlw.
    assert (∀ u, match last_write (concat (survivors (server s) torn io j)) k x with
      | Some y => Some y | None => last_write (pending_points sys (Z.max (wm j) (gc_seq sys))) k x end = Some u →
      content_cell content' k x u) as Hnew'.
    { intros u Hu. apply (Hnew j l k x u Hl). cbn [Nat.add]. fold (wm j). rewrite Eg, Hpts, last_write_app by lia. exact Hu. }
    destruct (last_write (concat (survivors _ _ _ _)) k x) as [y|]; [injection Hlw as <-; by apply holds_value_ret, Hnew'|].
    eapply holds_value_mono; [by apply Hlast|]. intros v' [?|?]; [by apply Hold|by apply Hnew'].
  - intros Hres. rewrite forallb_forall in Hres.
    assert (∀ j l t, ls !! j = Some l → ts !! j = Some t → ∃ sys', t = task sys' ∧ sys_inv sys' ∧ gc_seq sys' = 0 ∧
      wm j <= current_seq (writer (task sys')) ∧ log_points (dir (task sys')) ⊆ log_points (dl_dir l)) as Hup.
    { intros j l t Hl Ht. apply (Hsys' j l t Hl Ht). apply (Hres (j, dl_dir l)), list_elem_of_In, list_elem_of_lookup.
      exists j. rewrite list_lookup_imap, list_lookup_fmap, Hl. done. }
    destruct (list_choice (λ j t sys', t = task sys' ∧ ∀ l, ls !! j = Some l → sys_inv sys' ∧ gc_seq sys' = 0 ∧
      wm j <= current_seq (writer (task sys')) ∧ log_points (dir (task sys')) ⊆ log_points (dl_dir l)) ts) as (syss' & Esy & Hsy).
    { intros j t Ht. destruct (lookup_lt_is_Some_2 ls j) as [l Hl]; [apply lookup_lt_Some in Ht; lia|].
      destruct (Hup j l t Hl Ht) as (sys' & Et & Hrest). exists sys'. split; [done|]. intros l' Hl'. rewrite Hl in Hl'. by injection Hl' as <-. }
    exists syss'. split.
    + apply (list_eq_same_length _ _ (length ts)); rewrite ?length_map; [done..|]. intros j t t' _ Ht Ht'.
      rewrite list_lookup_fmap in Ht'. apply fmap_Some in Ht' as (sys' & Hs' & ->). exact (proj1 (Hsy j t sys' Ht Hs')).
    + intros j sys' h Hs' Hh. pose proof (lookup_lt_Some _ _ _ Hs') as Hlt. destruct (lookup_lt_is_Some_2 ls j) as [l Hl]; [lia|].
      destruct (lookup_lt_is_Some_2 ts j) as [t Ht]; [lia|]. destruct (proj2 (Hsy j t sys' Ht Hs') l Hl) as (Hi & Hg' & Hw' & Hsub).
      destruct (Hsh j l Hl) as (sys & w & p & lv & _ & Hw & (_ & _ & _ & Elog & _) & _ & [_ _ _ _ Hkn _]).
      rewrite (crash_history_lookup _ _ _ _ _ Hw) in Hh. injection Hh as <-. split_and!; [done|done|by rewrite Ewm|].
      etrans; [exact Hsub|]. rewrite Elog. intros y. rewrite !elem_of_app. intros [?|?]; [left; by apply Hkn|by right].
Qed.

Lemma length_crash_dirs sv torn io : length (crash_dirs sv torn io) = length (wals sv).
Proof. apply length_imap. Qed.

(** A server that came up has its channels. *)
Lemma open_shard_channel i fs idx d env rot fs' idx' t :
  open_shard cfg i fs idx d env rot = (fs', idx', Ok t) → channel_ok (wal_channel_capacity cfg) = true.
Proof.
  unfold open_shard. destruct (recover d _) as [r|]; [|done]. destruct (recovery_chunk _ _ _ _ _) as [[fs1 idx1] [[]|]]; [|done].
  destruct (open _ _ _) as [d1 w1]. destruct (if _ : bool then _ else _) as [[d2 w2] [[]|]]; [|done].
  destruct (drain_completed_before _ _). by destruct (channel_ok _).
Qed.

Lemma open_server_channel fs ds env rot sv :
  open_server cfg fs ds env rot = Ok sv →
  channel_ok (wal_channel_capacity cfg) = true ∧ f64_ge (compaction_size_ratio cfg) f64_one = true.
Proof.
  intros Ho. split.
  - apply open_server_inv in Ho as (fs1 & idx1 & ts & worker & Ho & _). destruct (co_shards _ Hcfg) as (k & Hk & En).
    pose proof (Z.pow_pos_nonneg 2 k) as Hpos. destruct (Z.to_nat (num_shards cfg)) as [|n] eqn:Ez; [lia|].
    cbn [seq map open_shards] in Ho. destruct (open_shard _ _ _ _ _ _ _) as [[fs2 idx2] [t|]] eqn:E; [|done].
    by eapply open_shard_channel.
  - unfold open_server in Ho. destruct (load_index _ _) as [loaded|]; [|done]. cbn [mbind result_bind] in Ho.
    destruct (open_shards _ _ _ _ _ _ _) as [[fs1 idx1] [ts|]]; [|done]. unfold compaction_new in Ho. by destruct (f64_ge _ _).
Qed.

Lemma inv_crash s torn io fs env sv' :
  system_inv s → crash_accidents cfg s torn io fs env = [] → left_over cfg (files (server s)) fs →
  open_server cfg fs (crash_dirs (server s) torn io) env (λ _, true) = Ok sv' →
  system_inv (after_crash cfg s torn io fs sv').
Proof.
  unfold after_crash. intros (content & I) [Hc%unless_nil [Hok%unless_nil Hopen]%app_eq_nil]%app_eq_nil Hleft Hr.
  fold (crash_history s torn io). destruct (open_server_channel _ _ _ _ _ Hr) as [Hch _].
  apply open_server_inv in Hr as (fs2 & idx2 & ts & worker & Ho & Ewk & ->).
  rewrite map_default_seq in Ho by (rewrite length_crash_dirs; apply (st_shape _ _ _ I)).
  destruct (crash_shards _ _ _ _ _ _ I Hc Hok Hleft Hch (open_accidents_up _ _ _ _ _ _ _ _ Hopen Ho))
    as (fs1 & idx1 & ts1 & content' & E & S' & Nts & Hk & Hval & Hlogs).
  rewrite E in Ho. injection Ho as <- <- <-. pose proof (st_history _ _ _ I) as Eh. pose proof (st_queued _ _ _ I) as Eq.
  assert (length (crash_history s torn io) = Z.to_nat (num_shards cfg)) as Ech.
  { unfold crash_history. rewrite length_imap. apply I. }
  exists content'. split; cbn [server flushing snapping compacting history queued written logged ahead gone covered clashed files index]; try done.
  - split; cbn; rewrite ?length_map, ?length_replicate, ?length_seq; done.
  - by rewrite length_map.
  - intros i h q w Hh Hq Hw. rewrite Hh in Hw. injection Hw as <-. split; [done|].
    rewrite list_lookup_fmap in Hq. apply fmap_Some in Hq as (q0 & _ & ->). intros p Hp%elem_of_nil. destruct Hp.
  - intros wms Hsn%elem_of_nil. destruct Hsn.
  - cbn [memtables in_flight]. intros j m h [-> _]%lookup_replicate Hh. apply mem_opened. intros k x v. by apply Hval with j.
  - intros Hres. destruct (Hlogs Hres) as (syss & -> & Hsh). exists syss.
    split; cbn [server snapping ahead covered clashed wals live_watermarks persisted_watermarks];
      [done| |by intros wms Hsn%elem_of_nil|done].
    intros j sys h l p Hs Hh [-> Hlt]%lookup_replicate Hp. rewrite list_lookup_fmap, lookup_seq_lt in Hp by done. injection Hp as <-.
    destruct (Hsh j sys h Hs Hh) as (? & ? & ? & ?). apply log_opened; try done. intros k x v. by apply Hval with j.
Qed.

(** A crash without an accident can be recovered from. *)
Lemma crash_comes_up s0 s torn io fs env :
  sys_start cfg s0 → system_inv s → crash_accidents cfg s torn io fs env = [] → left_over cfg (files (server s)) fs →
  (∀ i, fe_io (env i) = IoOk) →
  ∃ sv', open_server cfg fs (crash_dirs (server s) torn io) env (λ _, true) = Ok sv'.
Proof.
  intros [fs0 env0 rot0 sv0 _ H0'] (content & I) [Hc%unless_nil [Hok%unless_nil Hopen]%app_eq_nil]%app_eq_nil Hleft Hio.
  destruct (open_server_channel _ _ _ _ _ H0') as [Hch Hr].
  assert (Forall (λ d, is_Some (highest_segment_number d)) (crash_dirs (server s) torn io)) as Hseg.
  { destruct (st_logs _ _ _ I (st_covered _ _ _ I Hc)) as (syss & L). destruct (crash_logs _ _ _ torn io I L Hok) as (ls & Els & -> & Ht).
    apply Forall_lookup. intros j d Hd. rewrite list_lookup_fmap in Hd. apply fmap_Some in Hd as (l & Hl & ->).
    destruct (lookup_lt_is_Some_2 syss j) as [sys Hs]; [rewrite <-Els; by eapply lookup_lt_Some|].
    destruct (Ht j sys l Hs Hl) as (_ & _ & (older & cur & Hd & _) & _). rewrite (highest_segment_number_ok _ _ _ Hd). by eexists. }
  pose proof (open_accidents_open _ _ _ _ _ Hopen Hseg Hio) as Hopen'.
  destruct (crash_shards _ _ _ _ _ _ I Hc Hok Hleft Hch Hopen') as (fs1 & idx1 & ts & content' & E & _).
  eapply open_server_ok; [done| |exact E]. rewrite length_crash_dirs. apply (st_shape _ _ _ I).
Qed.

(** A shard with an empty directory starts at segment 1. *)
Lemma open_shards_fresh fs n i env rot :
  channel_ok (wal_channel_capacity cfg) = true →
  open_shards cfg i fs index_new (replicate n ∅) env rot =
  (fs, index_new, Ok (replicate n (fresh_task (wal_max_segment_bytes cfg)))).
Proof.
  intros Hch. revert i. induction n as [|n IH]; intros i; [done|]. cbn [replicate open_shards].
  assert (open_shard cfg i fs index_new ∅ (env i) (rot i) =
    (fs, index_new, if channel_ok (wal_channel_capacity cfg) then Ok (fresh_task (wal_max_segment_bytes cfg))
                    else Err "mpsc bounded channel requires buffer > 0")) as -> by reflexivity.
  rewrite Hch. by rewrite IH.
Qed.

Lemma fresh_log_points mb : log_points (dir (fresh_task mb)) = [].
Proof. by rewrite (log_points_ok _ _ (inv_dir _ _ _ _ (fresh_log_inv mb))). Qed.

Lemma inv_start s : sys_start cfg s → system_inv s.
Proof.
  intros Hs. destruct Hs as [fs env rot sv Hfs Ho]. set (n := Z.to_nat (num_shards cfg)).
  destruct (open_server_channel _ _ _ _ _ Ho) as [Hch _].
  apply open_server_inv in Ho as (fs1 & idx1 & ts & worker & Ho & Ewk & ->). fold n in Ho |- *.
  assert (loaded_index fs = index_new) as El by (unfold System.loaded_index, loaded_from, load_index; by rewrite Hfs).
  assert (map (λ i, default ∅ (([] : list Dir) !! i)) (seq 0 n) = replicate n ∅) as Ed.
  { rewrite <-(length_seq n 0) at 2. by apply const_fmap. }
  rewrite El, Ed, open_shards_fresh in Ho by done. injection Ho as <- <- <-.
  set (sys := system (fresh_task (wal_max_segment_bytes cfg)) []).
  assert (sys_inv sys) as Hi by apply fresh_sys_inv. pose proof (fresh_log_points (wal_max_segment_bytes cfg)) as Hlp.
  exists ∅. unfold started. fold n. split; cbn [server flushing snapping compacting history queued written logged ahead gone covered clashed files index].
  - split; cbn; by rewrite ?length_map, ?length_replicate, ?length_seq.
  - by rewrite length_replicate.
  - by rewrite length_replicate.
  - by rewrite length_replicate.
  - intros i h q w [-> _]%lookup_replicate [-> _]%lookup_replicate [-> _]%lookup_replicate. split; intros p Hp%elem_of_nil; destruct Hp.
  - intros wms Hsn%elem_of_nil. destruct Hsn.
  - intros i data Hfl. discriminate Hfl.
  - apply empty_store.
  - exact I.
  - by intros k ts v (c & d & Hc & _).
  - cbn [memtables in_flight]. intros j m h Hm Hh. apply lookup_replicate in Hm as [-> _], Hh as [-> _].
    apply mem_opened. intros k ts v Hlw. discriminate Hlw.
  - intros _. exists (replicate n sys).
    split; cbn [server snapping ahead covered wals live_watermarks persisted_watermarks];
      [| |intros wms Hsn%elem_of_nil; destruct Hsn|].
    + symmetry. exact (fmap_replicate task n sys).
    + intros j sys' h l p Hs' Hh Hl Hp. apply lookup_replicate in Hs' as [-> _], Hh as [-> _], Hl as [-> Hlt].
      rewrite list_lookup_fmap, lookup_seq_lt in Hp by done. injection Hp as <-.
      apply log_opened; [done..| |intros k ts v Hlw; discriminate Hlw]. cbn [sys system task]. by rewrite Hlp.
    + intros _. exists ∅. cbn [files persisted_watermarks]. rewrite El. split; [apply empty_store|]. split; [by intros k ts v (c & d & Hc & _)|].
      intros j sys' h p Hs' Hh Hp. apply lookup_replicate in Hs' as [-> Hlt], Hh as [-> _].
      rewrite list_lookup_fmap, lookup_seq_lt in Hp by done. injection Hp as <-.
      split; [reflexivity|split; discriminate|intros k ts v Hlw; discriminate Hlw].
  - intros _. reflexivity.
Qed.

(** ** All runs *)

Lemma inv_live s content a s' : state_inv s content → live_step valid s a s' → a = [] → moves s content s'.
Proof.
  intros I Hs Ea. destruct Hs; eauto using inv_log_failed, inv_insert, inv_cancel, inv_ack, inv_sweep_begin, inv_sweep_finish,
    inv_capture, inv_save, inv_pick, inv_compact.
  apply inv_log; [done..|]. by apply unless_nil in Ea.
Qed.

Lemma inv_step s s' : system_inv s → sys_step cfg valid s s' → system_inv s'.
Proof.
  intros I [Hs|Hs].
  - destruct I as (content & I). destruct (inv_live _ _ _ _ I Hs eq_refl) as (content' & I' & _). by exists content'.
  - remember [] as a eqn:Ea. destruct Hs. eauto using inv_crash.
Qed.

Lemma inv_reachable s0 s : sys_start cfg s0 → run cfg valid s0 [] s → system_inv s.
Proof. intros H0' Hr%run_regular. apply inv_start in H0'. induction Hr; eauto using inv_step. Qed.

End SystemInv.
