(* ===== verification/Answers.v ===== *)
(** * What a state answers

    In a state that satisfies the invariant of [System], queries deliver a value for every
    cell, the last one unless chunks that clash on the cell were merged, and nothing that was
    not written; they agree with a full scan of the memtables and of the chunk files; and
    compaction changes them only where chunks clash. *)
From S2P Require Import Prelude BTree F64 Externals Types Memtable Fs ChunkFormat ChunkWriter ChunkReader ChunkFile WalWriter Recovery GroupCommit ChunkIndex Persistence Compaction Config Server QuerySource Store StoreMerge CompactTask ShardLog Restart System SystemInv.

Section Answers.
Context `{XxHash, Crc32, Lz4, BloomFilter, Codec WalEntry, Codec IndexSnapshot}.
Context (cfg : StorageConfig).
Context `{!XxHashLaws, !Crc32Laws, !Lz4Laws, !BloomLaws, !CodecLaws WalEntry entry_wf}.

#[local] Abbreviation state_inv := (state_inv cfg).
#[local] Abbreviation system_inv := (system_inv cfg).

(** Answers are the cells of the memtables and of the content. *)
Lemma inv_answer s content metric filters lo hi r :
  state_inv s content →
  r ∈ query_rpc (server s) metric filters lo hi ↔
  ∃ key ts v, (memtables_hold (memtables (server s)) key ts v ∨ content_cell content key ts v) ∧
    asked metric filters (default i64_min lo) (default i64_max hi) key ts ∧ r = response key ts v.
Proof. intros I. eapply (query_rpc_exact (writer_of cfg)); [by eapply state_memtables|apply I]. Qed.

(** A value of every cell is delivered, the last one unless chunks clashed on it, if it is not
    in flight and no flush of the shard has failed. *)
Lemma inv_visible s i h key ts v metric filters lo hi :
  system_inv s → history s !! i = Some h → i ∉ gone s → last_write h key ts = Some v →
  asked metric filters (default i64_min lo) (default i64_max hi) key ts →
  ∃ v', (v' = v ∨ (key, ts) ∈ clashed s) ∧
    (response key ts v' ∈ query_rpc (server s) metric filters lo hi ∨
     data_lookup (in_flight (flushing s) i) key ts = Some v').
Proof.
  intros (content & I) Hh Hg Hw Hq. pose proof (lookup_lt_Some _ _ _ Hh) as Hlt. rewrite (st_history _ _ _ I) in Hlt.
  destruct (state_shard _ _ _ _ I Hlt) as (t & m & h' & q & l & p & _ & Hm & Hh' & _ & _ & _ & Sm).
  rewrite Hh in Hh'. injection Hh' as <-. destruct (sm_last _ _ _ _ _ _ Sm Hg key ts v Hw) as (v' & Ev & Hv').
  exists v'. split; [exact Ev|]. destruct Hv' as [Hc|[Hd|Hm']]; [left|by right|left]; apply (inv_answer _ _ _ _ _ _ _ I);
    exists key, ts, v'; (split; [|done]).
  - by right.
  - left. exists m. split; [by eapply list_elem_of_lookup_2|done].
Qed.

(** Everything that is in the log when the server crashes is delivered when it is up again. *)
Lemma crash_serves (Hcfg : cfg_ok cfg) s torn io fs env sv' i w key ts v metric filters lo hi :
  system_inv s → crash_accidents cfg s torn io fs env = [] → left_over cfg (files (server s)) fs →
  open_server cfg fs (crash_dirs (server s) torn io) env (λ _, true) = Ok sv' → written s !! i = Some w →
  last_write (w ++ concat (survivors (server s) torn io i)) key ts = Some v →
  asked metric filters (default i64_min lo) (default i64_max hi) key ts →
  ∃ v', (v' = v ∨ (key, ts) ∈ clashed s) ∧ response key ts v' ∈ query_rpc sv' metric filters lo hi.
Proof.
  intros Hi Ha Hleft Hr Hw Hv Hq. pose proof (inv_crash cfg Hcfg s torn io fs env sv' Hi Ha Hleft Hr) as Hi'.
  destruct (inv_visible (after_crash cfg s torn io fs sv') i _ key ts v metric filters lo hi Hi'
    (crash_history_lookup s torn io i w Hw) (not_elem_of_empty i) Hv Hq) as (v' & Ev & [Hr'|Hr']); [by exists v'|discriminate Hr'].
Qed.

(** What is in a memtable was written. *)
Lemma memtables_known s content k ts v :
  state_inv s content → memtables_hold (memtables (server s)) k ts v → known (history s) k ts v.
Proof.
  intros I (m & Hm & Hl). apply list_elem_of_lookup in Hm as (i & Hm). pose proof (lookup_lt_Some _ _ _ Hm) as Hlt.
  rewrite (sp_memtables _ _ _ (st_shape _ _ _ I)) in Hlt.
  destruct (state_shard _ _ _ _ I Hlt) as (t & m' & h & q & l & p & _ & Hm' & Hh & _ & _ & _ & Sm).
  rewrite Hm in Hm'. injection Hm' as <-. exists i, h. split; [done|]. apply (sm_known _ _ _ _ _ _ Sm). by right.
Qed.

(** Nothing is delivered that was not written. *)
Lemma inv_sound s metric filters lo hi r :
  system_inv s → r ∈ query_rpc (server s) metric filters lo hi →
  ∃ key ts v, known (history s) key ts v ∧
    asked metric filters (default i64_min lo) (default i64_max hi) key ts ∧ r = response key ts v.
Proof.
  intros (content & I) (key & ts & v & Hc & Hq & ->)%(inv_answer _ _ _ _ _ _ _ I). exists key, ts, v. split; [|done].
  destruct Hc as [Hm|Hc]; [by eapply memtables_known|by apply (st_known _ _ _ I)].
Qed.

(** ** Queries against a full scan *)

(** The reference: everything in the memtables and in every file of the index. *)
Definition scan (sv : StorageServer) : list DataPoint :=
  flat_map (λ m, all_points (entries m)) (memtables sv) ++
  flat_map (λ cm, match read_chunk (files sv) (file_path cm.2) with Ok ps => ps | Err _ => [] end)
    (map_to_list (chunk_files (index sv))).

Lemma elem_of_scan sv content p :
  Forall mt_wf (memtables sv) → store_inv (writer_of cfg) (files sv) (index sv) content →
  p ∈ scan sv ↔ memtables_hold (memtables sv) (point_key p) (timestamp_ns p) (value p) ∨
                content_cell content (point_key p) (timestamp_ns p) (value p).
Proof.
  intros Hm S. rewrite Forall_forall in Hm. unfold scan. rewrite elem_of_app, !elem_of_flat_map. f_equiv.
  - unfold memtables_hold. apply exist_proper. intros m. split; intros [Hin Hp]; (split; [done|]).
    + apply elem_of_all_points in Hp; [done|apply Hm, Hin].
    + apply elem_of_all_points; [apply Hm, Hin|done].
  - split.
    + intros ([c m] & Hin%elem_of_map_to_list & Hp). cbn [snd] in Hp.
      destruct (proj1 (si_listed _ _ _ _ S c) (ex_intro _ m Hin)) as [data Hc].
      rewrite (si_path _ _ _ _ S _ _ Hin), (store_read_chunk _ _ _ _ (si_file _ _ _ _ S _ _ Hc)) in Hp.
      exists c, data. split; [done|]. apply elem_of_all_points in Hp; [done|]. by destruct (si_file _ _ _ _ S _ _ Hc).
    + intros (c & data & Hc & Hl). destruct (proj2 (si_listed _ _ _ _ S c) (ex_intro _ data Hc)) as [m Hin].
      exists (c, m). split; [by apply elem_of_map_to_list|]. cbn [snd].
      rewrite (si_path _ _ _ _ S _ _ Hin), (store_read_chunk _ _ _ _ (si_file _ _ _ _ S _ _ Hc)).
      apply elem_of_all_points; [|done]. by destruct (si_file _ _ _ _ S _ _ Hc).
Qed.

Lemma inv_query_scan s metric filters lo hi r :
  system_inv s →
  r ∈ query_rpc (server s) metric filters lo hi ↔
  ∃ p, p ∈ scan (server s) ∧
    asked metric filters (default i64_min lo) (default i64_max hi) (point_key p) (timestamp_ns p) ∧
    r = response (point_key p) (timestamp_ns p) (value p).
Proof.
  intros (content & I). pose proof (state_memtables _ _ _ I) as Hm. pose proof (st_store _ _ _ I) as S.
  rewrite (query_rpc_exact _ _ _ _ _ _ _ _ Hm S). setoid_rewrite (elem_of_scan _ _ _ Hm S). split.
  - intros (key & ts & v & Hc & Ha & ->). exists (to_point key (ts, v)). by destruct key.
  - intros (p & Hc & Ha & ->). by exists (point_key p), (timestamp_ns p), (value p).
Qed.

(** ** Queries before and after compaction *)

(** Two answers for one cell. *)
Definition same_cell (r r' : QueryResponse) : Prop :=
  qr_series_id r = qr_series_id r' ∧ qr_timestamp_ns r = qr_timestamp_ns r'.

(** The answers after a merge: every one was an answer before, and a cell that had an answer
    has one still. *)
Definition answers_merged (before after : list QueryResponse) : Prop :=
  (∀ r, r ∈ after → r ∈ before) ∧ (∀ r, r ∈ before → ∃ r', r' ∈ after ∧ same_cell r' r).

(** So a cell with one answer keeps it. *)
Lemma answers_merged_one before after r :
  answers_merged before after → r ∈ before → (∀ r', r' ∈ before → same_cell r' r → r' = r) → r ∈ after.
Proof. intros [Hs Hk] Hr Hone. destruct (Hk r Hr) as (r' & Hr' & Hc). by rewrite <-(Hone r' (Hs r' Hr') Hc). Qed.

(** Two servers with the same memtables, and stores of which one has the cells of the other
    merged. *)
Lemma merged_answers sv sv' content content' clashed metric filters lo hi :
  Forall mt_wf (memtables sv) → memtables sv' = memtables sv →
  store_inv (writer_of cfg) (files sv) (index sv) content → store_inv (writer_of cfg) (files sv') (index sv') content' →
  cells_merged clashed content content' →
  let before := query_rpc sv metric filters lo hi in
  let after := query_rpc sv' metric filters lo hi in
  answers_merged before after ∧ (clashed = [] → ∀ r, r ∈ after ↔ r ∈ before).
Proof.
  intros Hm Em S S' [Hsound Hkeep] before after. pose proof Hm as Hm'. rewrite <-Em in Hm'.
  assert (∀ r, r ∈ after → r ∈ before) as Hab.
  { intros r (key & ts & v & Hc & Ha & ->)%(query_rpc_exact _ _ _ _ _ _ _ _ Hm' S'). rewrite Em in Hc.
    apply (query_rpc_exact _ _ _ _ _ _ _ _ Hm S). exists key, ts, v. split; [|done]. destruct Hc; auto. }
  assert (∀ r, r ∈ before → ∃ r', r' ∈ after ∧ same_cell r' r ∧ (clashed = [] → r' = r)) as Hba.
  { intros r (key & ts & v & Hc & Ha & ->)%(query_rpc_exact _ _ _ _ _ _ _ _ Hm S).
    assert (∃ v', (memtables_hold (memtables sv') key ts v' ∨ content_cell content' key ts v') ∧ (clashed = [] → v' = v)) as (v' & Hv' & E).
    { rewrite Em. destruct Hc as [Hc|Hc]; [exists v; auto|]. destruct (Hkeep key ts v Hc) as (v' & Ev & Hv'). exists v'.
      split; [by right|]. intros ->. by destruct Ev as [?|?%elem_of_nil]. }
    exists (response key ts v'). split; [|split; [done|by intros ?; rewrite E]].
    apply (query_rpc_exact _ _ _ _ _ _ _ _ Hm' S'). by exists key, ts, v'. }
  split; [split; [done|]|].
  - intros r (r' & Hr' & Hc & _)%Hba. by exists r'.
  - intros El r. split; [apply Hab|]. intros Hr. destruct (Hba r Hr) as (r' & Hr' & _ & E). by rewrite <-(E El).
Qed.

(** A call of the handler. *)
Lemma inv_compact_answers s env metric filters lo hi :
  system_inv s → compact_ok (compaction_worker (server s)) (files (server s)) (index (server s)) env →
  answers_merged (query_rpc (server s) metric filters lo hi) (query_rpc (compact_rpc (server s) env).1 metric filters lo hi).
Proof.
  intros (content & I) Hok. pose proof (state_memtables _ _ _ I) as Hm. pose proof (st_store _ _ _ I) as S.
  pose proof (sp_worker _ _ _ (st_shape _ _ _ I)) as Hwk. pose proof S as Sw.
  rewrite <-Hwk in Sw. destruct (compact_store _ _ _ _ _ Sw Hok) as (content' & clashed & S' & Hc). rewrite Hwk in S'.
  unfold compact_rpc. destruct (compact_once _ _ _ _) as [[fs' idx'] res]. cbn [fst snd] in *.
  by eapply (merged_answers (server s) _ content content' clashed).
Qed.

(** A step of a cycle; only the update of the index can change an answer. *)
Lemma inv_compact_step_answers s env metric filters lo hi :
  system_inv s → compact_accidents (files (server s)) (index (server s)) (compacting s) env = [] →
  let before := query_rpc (server s) metric filters lo hi in
  let after := query_rpc (server (after_compact s env)) metric filters lo hi in
  answers_merged before after ∧
  (step_clashes (files (server s)) (compacting s) = [] → ∀ r, r ∈ after ↔ r ∈ before).
Proof.
  intros (content & I) Hok%compact_accidents_nil. pose proof (state_memtables _ _ _ I) as Hm. pose proof (st_store _ _ _ I) as S.
  pose proof (st_compact _ _ _ I) as Hcp. pose proof (sp_worker _ _ _ (st_shape _ _ _ I)) as Hwk. pose proof S as Sw.
  rewrite <-Hwk in Sw, Hcp. pose proof (compact_step_inv _ _ _ _ _ env Sw Hcp Hok) as Hs. unfold after_compact.
  destruct (compact_step _ _ _ _ _) as [[fs' idx'] st']. destruct Hs as (content' & S' & _ & Hc). rewrite Hwk in S'.
  by eapply (merged_answers (server s) _ content content').
Qed.

(** Everything in a state has its shape, every file of the index can be read, and as long
    as the logs are in order no watermark is ahead of them. *)
Lemma inv_well_formed s :
  system_inv s →
  server_shape cfg (server s) (Z.to_nat (num_shards cfg)) ∧ Forall mt_wf (memtables (server s)) ∧
  idx_wf (index (server s)) ∧
  (∀ c m, chunk_files (index (server s)) !! c = Some m →
     ∃ points, read_chunk (files (server s)) (file_path m) = Ok points) ∧
  (logged s = true → ∀ i t l p, wals (server s) !! i = Some t → live_watermarks (server s) !! i = Some l →
     persisted_watermarks (server s) !! i = Some p →
     0 <= l <= sender_current_sequence t ∧ p <= sender_current_sequence t).
Proof.
  intros (content & I). pose proof (st_store _ _ _ I) as S.
  split; [apply I|]. split; [by eapply state_memtables|]. split; [apply S|]. split.
  - intros c m Hm. destruct (proj1 (si_listed _ _ _ _ S c) (ex_intro _ m Hm)) as [data Hc]. exists (all_points data).
    rewrite (si_path _ _ _ _ S _ _ Hm). eapply store_read_chunk, (si_file _ _ _ _ S), Hc.
  - intros Hlg i t l p Ht Hl Hp. destruct (st_logs _ _ _ I Hlg) as (syss & L).
    rewrite (li_tasks _ _ _ _ L), list_lookup_fmap in Ht. apply fmap_Some in Ht as (sys & Hs & ->).
    destruct (logs_shard _ _ _ _ _ _ I L Hs) as (m & h & q & l' & p' & _ & _ & _ & _ & Hl' & Hp' & _ & [Hsys Hgc Hlive Hper _ _]).
    simplify_eq. unfold sender_current_sequence. rewrite (sys_inv_last _ Hsys). lia.
Qed.

End Answers.
