(* ===== verification/Runs.v ===== *)
(** * What holds of every run

    The theorems about the runs of the whole system in which no accident happens: every cell
    has an answer, the last value unless chunks clashed; nothing is delivered that was not
    written; a crash at any byte of the batches being logged, of a chunk or of a snapshot is
    recovered from in a covered state; queries answer exactly what the memtables and the
    chunks hold; and compaction changes answers only where chunks clash.  The sample runs
    show that the steps can be taken, and what accidents and a crash after a compaction do. *)
From S2P Require Import Prelude BTree F64 Externals Types Memtable Fs ChunkFormat ChunkWriter ChunkReader ChunkFile WalWriter Recovery GroupCommit ChunkIndex Persistence Compaction Config Server QuerySource Store StoreMerge CompactTask ShardLog Restart System SystemInv Answers.

(** ** Sample runs *)

Module Run.
#[local] Existing Instances poly_hash ieee_crc32 stored_lz4 cell_bloom wal_codec snapshot_codec insertion_sort.

Definition always (s : IndexSnapshot) : Prop := True.

(** The steps, each with one point or one shard. *)
Definition logging_point (s : System) (p : DataPoint) : System :=
  match wals (server s) !! 0%nat with Some t => after_log s 0 t [[p]] true | None => s end.
Definition put_point (s : System) (p : DataPoint) : System := after_ack (after_insert (logging_point s p) 0 [] [p] []).
Definition put (s : System) (n : Z) : System := put_point s (decode_point (Sample.point n)).
Definition drained (s : System) : System :=
  after_drain s 0 (sweep_begin (server s) 0).1 (default [] (sweep_begin (server s) 0).2).
Definition flushed (s : System) (now : Z) (io : io_outcome) : System :=
  match flushing s with Some (i, data) => after_flush s i data (Sample.env_at now io) | None => s end.
Definition saved (s : System) : System := after_save (after_capture s) 0 (live_watermarks (server s)) IoOk true.
Definition reopened (cfg : StorageConfig) (s : System) (torn : nat → list (list DataPoint)) (io : nat → io_outcome) (fs : Fs) (now : Z)
    : StorageServer :=
  Sample.get (open_server cfg fs (crash_dirs (server s) torn io) (λ _, Sample.env_at now IoOk) (λ _, true)).

(** One point can be appended. *)
Definition put_ok (s : System) (p : DataPoint) : Prop :=
  match wals (server s) !! 0%nat with
  | Some t => batch_ok (writer t) (messages [[p]]) ∧ queued s = [[]]
  | None => False
  end.
#[global] Instance put_ok_dec s p : Decision (put_ok s p).
Proof. unfold put_ok. destruct (wals (server s) !! 0%nat); apply _. Defined.

(** Steps of a running server without accidents. *)
Definition calm (s s' : System) : Prop := live_step always s [] s'.

Lemma calm_step s a s' : live_step always s a s' → a = [] → calm s s'.
Proof. by intros Hs ->. Qed.

Lemma put_steps s p s' : put_ok s p → rtc calm (put_point s p) s' → rtc calm s s'.
Proof.
  unfold put_ok. intros Hok Hr. apply rtc_l with (logging_point s p); [|apply rtc_l with (after_insert (logging_point s p) 0 [] [p] [])].
  - unfold logging_point. destruct (wals (server s) !! 0%nat) as [t|] eqn:Ht; [|done]. destruct Hok as [Hb _].
    eapply calm_step; [by apply do_log|by apply unless_nil].
  - apply do_insert. unfold logging_point. destruct (wals (server s) !! 0%nat) as [t|] eqn:Ht; [|done]. destruct Hok as [_ Hq].
    cbn [after_log queued]. by rewrite Hq.
  - apply rtc_l with (put_point s p); [apply do_ack|done].
Qed.

Lemma put_next n s s' : put_ok s (decode_point (Sample.point n)) → rtc calm (put s n) s' → rtc calm s s'.
Proof. apply put_steps. Qed.

Lemma drain_step s :
  flushing s = None → is_ok (ok_or "" (sweep_begin (server s) 0).2) = true → calm s (drained s).
Proof.
  intros Hf Hr. unfold drained. destruct (sweep_begin (server s) 0) as [sv' [data|]] eqn:E; [|done].
  by apply do_sweep_begin.
Qed.

Lemma flush_step s i data now io :
  flushing s = Some (i, data) →
  live_step always s (finish_accidents (server s) i data (Sample.env_at now io)) (flushed s now io).
Proof. intros Hf. unfold flushed. rewrite Hf. by apply do_sweep_finish. Qed.

(** What is in flight once shard 0 was drained. *)
Definition in_hand (s : System) : SeriesData := match flushing s with Some (_, data) => data | None => [] end.
Definition busy (s : System) : bool := match flushing s with Some (0%nat, _) => true | _ => false end.

Lemma busy_flushing s : busy s = true → flushing s = Some (0%nat, in_hand s).
Proof. unfold busy, in_hand. by destruct (flushing s) as [[[|j] data]|]. Qed.

Lemma finish_step s now io :
  busy s = true → finish_accidents (server s) 0 (in_hand s) (Sample.env_at now io) = [] → calm s (flushed s now io).
Proof. intros Hb Ha. eapply calm_step; [by apply flush_step, busy_flushing|exact Ha]. Qed.

(** A sweep of a shard that is full. *)
Lemma sweep_steps s now s' :
  flushing s = None → is_ok (ok_or "" (sweep_begin (server s) 0).2) = true →
  finish_accidents (server (drained s)) 0 (default [] (sweep_begin (server s) 0).2) (Sample.env_at now IoOk) = [] →
  rtc calm (flushed (drained s) now IoOk) s' → rtc calm s s'.
Proof.
  intros Hf Hr Ha Hs. apply rtc_l with (drained s); [by apply drain_step|].
  eapply rtc_l; [|exact Hs]. by apply finish_step.
Qed.

Lemma save_steps s s' : snapping s = [] → rtc calm (saved s) s' → rtc calm s s'.
Proof.
  intros Hn Hr. apply rtc_l with (after_capture s); [apply do_snapshot_begin|].
  apply rtc_l with (saved s); [apply do_snapshot_finish; [cbn; by rewrite Hn|done]|done].
Qed.

Lemma live_run cfg s s' : rtc calm s s' → run cfg always s [] s'.
Proof. intros Hr. apply run_regular. revert Hr. apply rtc_subrel. intros x y Hs. by left. Qed.

(** A run that goes on with one step, accidents included. *)
Lemma run_live cfg s s1 a s2 : run cfg always s [] s1 → live_step always s1 a s2 → run cfg always s a s2.
Proof.
  intros Hr Hs. apply (run_app cfg always s [] s1 a s2 Hr). rewrite <-(app_nil_r a).
  eapply run_step; [by left|constructor].
Qed.

(** Evaluates a condition. *)
Ltac evaluate := apply (bool_decide_unpack _); vm_compute; exact I.

(** Append, sweep, snapshot, append; then a crash in the middle of a third append, which
    leaves ten bytes of its frame and a file nobody knows. *)
Definition third (j : nat) : list (list DataPoint) := [[decode_point (Sample.point 3)]].
Definition s0 : System := started Sample.config Sample.start.
Definition s1 : System := put s0 1.
Definition s2 : System := drained s1.
Definition s3 : System := flushed s2 2 IoOk.
Definition s4 : System := saved s3.
Definition s5 : System := put s4 2.
Definition debris : Fs := <["/c/half" := [Byte.x4d; Byte.x43; Byte.x53]]> (files (server s5)).
Definition s6 : System :=
  after_crash Sample.config s5 third (λ _, IoErr 10) debris (reopened Sample.config s5 third (λ _, IoErr 10) debris 3).

(** A sweep that goes wrong: a second append comes in between, and the chunk cannot be
    written; then a crash after the whole of a third append was written. *)
Definition u3 : System := put (drained s1) 2.
Definition u4 : System := flushed u3 2 (IoErr 5).
Definition u5 : System :=
  after_crash Sample.config u4 third (λ _, IoErr 1000) (files (server u4)) (reopened Sample.config u4 third (λ _, IoErr 1000) (files (server u4)) 3).

(** A server that merges two chunks: appends and sweeps twice, snapshots, compacts,
    crashes. *)
Definition config2 : StorageConfig :=
  {| wal_dir := "/w"; cfg_chunk_dir := "/c"; index_path := "/index.bin"; wal_max_segment_bytes := 1000000;
     wal_channel_capacity := 16; wal_max_batch := 16; wal_batch_delay_us := 0;
     memtable_flush_threshold_bytes := 1; num_shards := 1; index_snapshot_interval_secs := 60;
     compaction_interval_secs := 300; compaction_min_threshold := 2;
     compaction_size_ratio := f64_three_halves; grpc_addr := ""; metrics_addr := "" |}.
Definition start2 : StorageServer := Sample.get (open_server config2 ∅ [] (λ _, Sample.env_at 1 IoOk) (λ _, true)).
Definition merge_env (i : nat) : MergeEnv := {| env_now := 9; env_seed := 0; env_io := IoOk; env_removed := λ _, true |}.

Definition t0 : System := started config2 start2.
Definition t1 : System := flushed (drained (put t0 1)) 2 IoOk.
Definition t2 : System := flushed (drained (put t1 2)) 3 IoOk.
Definition t3 : System := saved t2.
Definition t4 : System := flushed (drained (put t3 3)) 4 IoOk.
Definition compacted : StorageServer := (compact_rpc (server t3) merge_env).1.
Definition merging (s : System) : System := after_compact s (merge_env 0).
Definition registered : System := merging (merging (after_pick t3)).
Definition removed : System := merging (merging (saved registered)).
Definition lost : StorageServer := Sample.get (restart config2 compacted (λ _, Sample.env_at 10 IoOk) (λ _, true)).

Lemma merge_step s s' :
  compact_accidents (files (server s)) (index (server s)) (compacting s) (merge_env 0) = [] →
  rtc calm (merging s) s' → rtc calm s s'.
Proof. intros Ha Hr. apply rtc_l with (merging s); [|exact Hr]. eapply calm_step; [apply do_compact|exact Ha]. Qed.

Lemma sample_cfg_ok : cfg_ok Sample.config.
Proof.
  split; [exists 0; split; [lia|reflexivity]|..].
  - intros c E. discriminate E.
  - intros c E. discriminate E.
  - intros E. discriminate E.
Qed.

Lemma sample_starts : sys_start Sample.config s0.
Proof. apply (first_start Sample.config ∅ (λ _, Sample.env_at 1 IoOk) (λ _, true) Sample.start); vm_compute; reflexivity. Qed.

(** The first append and the drain of its memtable. *)
Lemma s2_run s : rtc calm s2 s → rtc calm s0 s.
Proof.
  intros Hr. eapply put_steps; [|apply rtc_l with s2; [apply drain_step; vm_compute; reflexivity|exact Hr]]. evaluate.
Qed.

(** The steps of the first run, up to the crash. *)
Lemma sample_run : run Sample.config always s0 [] s5.
Proof.
  apply live_run, s2_run. apply rtc_l with s3; [apply finish_step; vm_compute; reflexivity|].
  apply save_steps; [vm_compute; reflexivity|]. apply put_next with 2; [evaluate|apply rtc_refl].
Qed.

Lemma debris_left : left_over Sample.config (files (server s5)) debris.
Proof.
  assert (files (server s5) !! "/c/half" = None) as Hn by (vm_compute; reflexivity). intros path _ Hp. unfold debris.
  rewrite lookup_insert_ne; [done|]. intros <-. destruct Hp as [Hp|Hp]; [rewrite Hn in Hp; by destruct Hp|discriminate Hp].
Qed.

Lemma sample_crash : crash_step Sample.config s5 [] s6.
Proof.
  pose proof (do_crash Sample.config s5 third (λ _, IoErr 10) debris (λ _, Sample.env_at 3 IoOk)
    (reopened Sample.config s5 third (λ _, IoErr 10) debris 3) debris_left) as Hc.
  replace (crash_accidents Sample.config s5 third (λ _, IoErr 10) debris (λ _, Sample.env_at 3 IoOk)) with ([] : list Accident) in Hc
    by (vm_compute; reflexivity).
  apply Hc. vm_compute. reflexivity.
Qed.

Lemma sample_crash_run : run Sample.config always s0 [] s6.
Proof. apply run_regular. eapply rtc_r; [apply run_regular, sample_run|right; exact sample_crash]. Qed.

Lemma failed_flush_run : run Sample.config always s0 [] u4.
Proof.
  apply live_run, s2_run. apply put_next with 2; [evaluate|]. apply rtc_once, finish_step; vm_compute; reflexivity.
Qed.

Lemma config2_ok : cfg_ok config2.
Proof. split; [exists 0; split; [lia|reflexivity]|..]; [intros c E; discriminate E..|intros E; discriminate E]. Qed.

Lemma t0_starts : sys_start config2 t0.
Proof. apply (first_start config2 ∅ (λ _, Sample.env_at 1 IoOk) (λ _, true) start2); vm_compute; reflexivity. Qed.

Lemma live2 : rtc calm t0 t3.
Proof.
  apply put_next with 1; [evaluate|]. apply sweep_steps with 2; [vm_compute; reflexivity..|].
  apply put_next with 2; [evaluate|]. apply sweep_steps with 3; [vm_compute; reflexivity..|].
  apply save_steps; [vm_compute; reflexivity|apply rtc_refl].
Qed.

Lemma run2 : run config2 always t0 [] t3.
Proof. apply live_run, live2. Qed.

Lemma t4_run : rtc calm t3 t4.
Proof. apply put_next with 3; [evaluate|]. apply sweep_steps with 4; [vm_compute; reflexivity..|]. apply rtc_refl. Qed.

Lemma t3_compact_ok : compact_ok (compaction_worker (server t3)) (files (server t3)) (index (server t3)) merge_env.
Proof. evaluate. Qed.

(** Two chunks of a series that start at the same time. *)
Definition v1 : System := flushed (drained (put (put s0 1) 2)) 2 IoOk.
Definition v2 : System := drained (put v1 1).
Definition v3 : System := flushed v2 3 IoOk.

(** A metric name with separators in it: two chunks, and their merge. *)
Definition odd_point (n : Z) : DataPoint := point_at {| sk_metric_name := "m,h=a"; sk_tags := [] |} n n.
Definition o1 : System := drained (put_point t0 (odd_point 1)).
Definition o2 : System := drained (put_point (flushed o1 2 IoOk) (odd_point 2)).
Definition o3 : System := flushed o2 3 IoOk.
Definition o4 : System := merging (merging (after_pick o3)).

Lemma start_taken_run : run Sample.config always s0 [StartTaken] v3.
Proof.
  apply run_live with v2.
  - apply live_run. apply put_next with 1; [evaluate|]. apply put_next with 2; [evaluate|]. apply sweep_steps with 2; [vm_compute; reflexivity..|].
    apply put_next with 1; [evaluate|]. apply rtc_once, drain_step; vm_compute; reflexivity.
  - assert (finish_accidents (server v2) 0 (in_hand v2) (Sample.env_at 3 IoOk) = [StartTaken]) as <- by (vm_compute; reflexivity).
    apply flush_step, busy_flushing. vm_compute. reflexivity.
Qed.

Lemma odd_sweep s s1 now :
  rtc calm s s1 → busy s1 = true →
  finish_accidents (server s1) 0 (in_hand s1) (Sample.env_at now IoOk) = [AmbiguousKey] →
  run config2 always s [AmbiguousKey] (flushed s1 now IoOk).
Proof. intros Hr Hb E. apply run_live with s1; [by apply live_run|]. rewrite <-E. by apply flush_step, busy_flushing. Qed.

Lemma odd_run : run config2 always t0 [AmbiguousKey; AmbiguousKey] o4.
Proof.
  apply (run_app config2 always t0 [AmbiguousKey] (flushed o1 2 IoOk) [AmbiguousKey]).
  { apply odd_sweep; [|vm_compute; reflexivity..]. apply put_steps with (odd_point 1); [evaluate|]. apply rtc_once, drain_step; vm_compute; reflexivity. }
  apply (run_app config2 always _ [AmbiguousKey] o3 []).
  { apply odd_sweep; [|vm_compute; reflexivity..]. apply put_steps with (odd_point 2); [evaluate|]. apply rtc_once, drain_step; vm_compute; reflexivity. }
  apply live_run. apply rtc_l with (after_pick o3); [apply do_compact_begin; vm_compute; reflexivity|].
  apply merge_step; [vm_compute; reflexivity|]. apply merge_step; [vm_compute; reflexivity|]. unfold o4. apply rtc_refl.
Qed.

End Run.

(** ** Properties *)

(** C1. No cell is lost in a run without accidents: start the server on an empty disk and let
    batches be logged or fail, groups that are in the log be inserted in any order or be given
    up, requests be answered, sweeps drain and write (successfully or not), snapshots read
    watermarks and save, compactions merge, register and remove, and crashes with restarts
    happen, in any order and interleaving in which none of these accidents occurs: something
    does not fit its width; a flushed key contains separators or shares its id; the clock
    names a chunk twice; a series of a new chunk starts where another chunk of the series
    starts; the server crashes in a state that is not covered.  Then in the state that is
    reached, for every shard none of whose flushes has failed since the last restart and
    every cell (series and timestamp) the shard was ever given, a value is delivered by the
    query stream or is in the data a sweep is writing at that moment, and it is the value
    given last, unless chunks were merged that clash on the cell. *)
Theorem system_no_loss `{HX : XxHash, HC : Crc32, HL : Lz4, HB : BloomFilter, HW : Codec WalEntry,
      HS : Codec IndexSnapshot}
    (LX : XxHashLaws) (LC : Crc32Laws) (LL : Lz4Laws) (LB : BloomLaws) (LW : CodecLaws WalEntry entry_wf)
    valid (LS : CodecLaws IndexSnapshot valid) cfg s0 s i h key ts v metric filters lo hi
    (Hcfg : cfg_ok cfg) (Hstart : sys_start cfg s0) (Hrun : run cfg valid s0 [] s)
    (Hh : history s !! i = Some h) (Hg : i ∉ gone s) (Hv : last_write h key ts = Some v)
    (Hq : asked metric filters (default i64_min lo) (default i64_max hi) key ts) :
  ∃ v', (v' = v ∨ (key, ts) ∈ clashed s) ∧
    (response key ts v' ∈ query_rpc (server s) metric filters lo hi ∨
     data_lookup (in_flight (flushing s) i) key ts = Some v').
Proof.
  exact (inv_visible cfg s i h key ts v metric filters lo hi (inv_reachable cfg valid Hcfg s0 s Hstart Hrun) Hh Hg Hv Hq).
Qed.

Lemma system_no_loss_witness :
  @response poly_hash tiny_key 1 (F64 1) ∈
    @query_rpc poly_hash ieee_crc32 stored_lz4 (server Run.s6) "m" [] None None ∧
  @response poly_hash tiny_key 2 (F64 2) ∈
    @query_rpc poly_hash ieee_crc32 stored_lz4 (server Run.s6) "m" [] None None.
Proof.
  assert (∀ n, n = 1 ∨ n = 2 → @response poly_hash tiny_key n (F64 n) ∈
    @query_rpc poly_hash ieee_crc32 stored_lz4 (server Run.s6) "m" [] None None) as Hn; [|split; apply Hn; lia].
  intros n Hn.
  destruct (system_no_loss poly_hash_laws ieee_crc32_laws stored_lz4_laws cell_bloom_laws wal_codec_laws
    Run.always snapshot_codec_laws Sample.config Run.s0 Run.s6 0
    [decode_point (Sample.point 1); decode_point (Sample.point 2)] tiny_key n (F64 n) "m" [] None None)
    as (v' & Ev & Hr).
  - exact Run.sample_cfg_ok.
  - exact Run.sample_starts.
  - exact Run.sample_crash_run.
  - vm_compute. reflexivity.
  - apply not_elem_of_empty.
  - destruct Hn as [->| ->]; vm_compute; reflexivity.
  - split; [reflexivity|]. split; [constructor|]. destruct Hn as [->| ->]; vm_compute; split; congruence.
  - destruct Ev as [->|Ev]; [|by apply elem_of_nil in Ev]. destruct Hr as [Hr|Hr]; [exact Hr|discriminate Hr].
Defined.



(** C3. Nothing is invented: in every state that a run without accidents reaches (in
    particular no key with separators and no id shared by two keys was flushed),
    everything the query stream delivers has the metric, the tags and a timestamp in the
    range, and is a point some shard was given to write, with that series, timestamp and
    value: it was inserted by a request, or it was in the log when the server crashed. *)
Theorem system_no_invention `{HX : XxHash, HC : Crc32, HL : Lz4, HB : BloomFilter, HW : Codec WalEntry,
      HS : Codec IndexSnapshot}
    (LX : XxHashLaws) (LC : Crc32Laws) (LL : Lz4Laws) (LB : BloomLaws) (LW : CodecLaws WalEntry entry_wf)
    valid (LS : CodecLaws IndexSnapshot valid) cfg s0 s metric filters lo hi r
    (Hcfg : cfg_ok cfg) (Hstart : sys_start cfg s0) (Hrun : run cfg valid s0 [] s)
    (Hr : r ∈ query_rpc (server s) metric filters lo hi) :
  ∃ key ts v i h, history s !! i = Some h ∧ to_point key (ts, v) ∈ h ∧
    asked metric filters (default i64_min lo) (default i64_max hi) key ts ∧ r = response key ts v.
Proof.
  destruct (inv_sound cfg s metric filters lo hi r (inv_reachable cfg valid Hcfg s0 s Hstart Hrun) Hr)
    as (key & ts & v & (i & h & Hh & Hp) & Hq & Er). by exists key, ts, v, i, h.
Qed.

Lemma system_no_invention_witness :
  ∃ key ts v i h, history Run.s6 !! i = Some h ∧ to_point key (ts, v) ∈ h ∧
    asked "m" [] i64_min i64_max key ts ∧ @response poly_hash tiny_key 2 (F64 2) = @response poly_hash key ts v.
Proof.
  apply (system_no_invention poly_hash_laws ieee_crc32_laws stored_lz4_laws cell_bloom_laws wal_codec_laws
    Run.always snapshot_codec_laws Sample.config Run.s0 Run.s6 "m" [] None None
    (@response poly_hash tiny_key 2 (F64 2)) Run.sample_cfg_ok Run.sample_starts Run.sample_crash_run).
  vm_compute. right. left.
Defined.

(** C7. Equivalence with a full scan: in every state that a run without accidents reaches (in
    particular no two chunks of a series start at the same time), the query stream delivers
    exactly the points that a scan of all memtables and all chunk files of the index
    finds and that have the metric, the tags and a timestamp in the range: pruning and
    the inverted index lose nothing and add nothing. *)
Theorem system_query_full_scan `{HX : XxHash, HC : Crc32, HL : Lz4, HB : BloomFilter, HW : Codec WalEntry,
      HS : Codec IndexSnapshot}
    (LX : XxHashLaws) (LC : Crc32Laws) (LL : Lz4Laws) (LB : BloomLaws) (LW : CodecLaws WalEntry entry_wf)
    valid (LS : CodecLaws IndexSnapshot valid) cfg s0 s metric filters lo hi r
    (Hcfg : cfg_ok cfg) (Hstart : sys_start cfg s0) (Hrun : run cfg valid s0 [] s) :
  r ∈ query_rpc (server s) metric filters lo hi ↔
  ∃ p, p ∈ scan (server s) ∧
    asked metric filters (default i64_min lo) (default i64_max hi) (point_key p) (timestamp_ns p) ∧
    r = response (point_key p) (timestamp_ns p) (value p).
Proof. exact (inv_query_scan cfg s metric filters lo hi r (inv_reachable cfg valid Hcfg s0 s Hstart Hrun)). Qed.

Lemma system_query_full_scan_witness :
  @response poly_hash tiny_key 1 (F64 1) ∈
    @query_rpc poly_hash ieee_crc32 stored_lz4 (server Run.t3) "m" [] (Some 0) (Some 1).
Proof.
  apply (system_query_full_scan poly_hash_laws ieee_crc32_laws stored_lz4_laws cell_bloom_laws wal_codec_laws
    Run.always snapshot_codec_laws Run.config2 Run.t0 Run.t3 "m" [] (Some 0) (Some 1)
    (@response poly_hash tiny_key 1 (F64 1)) Run.config2_ok Run.t0_starts Run.run2).
  exists (decode_point (Sample.point 1)). split; [|split; [|reflexivity]].
  - vm_compute. right; left.
  - split; [reflexivity|]. split; [constructor|]. vm_compute. split; congruence.
Defined.

(** C15. The state is well formed after every run without accidents: there are as many WAL
    tasks, memtables and watermarks as configured shards, the memtables and the index
    satisfy their invariants, and every chunk file the index names is on disk and can be
    read in full; and as long as no WAL write or rotation has failed and no restart has set
    the sequence numbers back ([logged]), no watermark is ahead of its shard's log. *)
Theorem system_well_formed `{HX : XxHash, HC : Crc32, HL : Lz4, HB : BloomFilter, HW : Codec WalEntry,
      HS : Codec IndexSnapshot}
    (LX : XxHashLaws) (LC : Crc32Laws) (LL : Lz4Laws) (LB : BloomLaws) (LW : CodecLaws WalEntry entry_wf)
    valid (LS : CodecLaws IndexSnapshot valid) cfg s0 s
    (Hcfg : cfg_ok cfg) (Hstart : sys_start cfg s0) (Hrun : run cfg valid s0 [] s) :
  server_shape cfg (server s) (Z.to_nat (num_shards cfg)) ∧ Forall mt_wf (memtables (server s)) ∧
  idx_wf (index (server s)) ∧
  (∀ c m, chunk_files (index (server s)) !! c = Some m →
     ∃ points, read_chunk (files (server s)) (file_path m) = Ok points) ∧
  (logged s = true → ∀ i t l p, wals (server s) !! i = Some t → live_watermarks (server s) !! i = Some l →
     persisted_watermarks (server s) !! i = Some p →
     0 <= l <= sender_current_sequence t ∧ p <= sender_current_sequence t).
Proof. exact (inv_well_formed cfg s (inv_reachable cfg valid Hcfg s0 s Hstart Hrun)). Qed.

Lemma system_well_formed_witness :
  length (memtables (server Run.t3)) = 1%nat ∧ @idx_wf poly_hash (index (server Run.t3)).
Proof.
  destruct (system_well_formed poly_hash_laws ieee_crc32_laws stored_lz4_laws cell_bloom_laws wal_codec_laws
    Run.always snapshot_codec_laws Run.config2 Run.t0 Run.t3 Run.config2_ok Run.t0_starts Run.run2)
    as (Hs & _ & Hi & _).
  split; [exact (sp_memtables _ _ _ Hs)|exact Hi].
Defined.

(** C12. What compaction does to the answers, in every state that a run without accidents
    reaches, also in the middle of a cycle: a step of a compaction (writing the merged chunk
    of a group, updating the index, removing an old file), whatever the outcome of its write
    or removal, leaves for every query no answer that was not there before, and an answer
    for every cell that had one; so a cell with one answer keeps it, and of a cell on which
    chunks clash one of the values stays.  A step changes no answer at all unless it updates
    the index for chunks that clash on some cell.  The same holds of a whole call of the
    handler.  What is merged must fit the format, and the new chunks have new ids. *)
Theorem system_compaction_transparent `{HX : XxHash, HC : Crc32, HL : Lz4, HB : BloomFilter, HW : Codec WalEntry,
      HS : Codec IndexSnapshot}
    (LX : XxHashLaws) (LC : Crc32Laws) (LL : Lz4Laws) (LB : BloomLaws) (LW : CodecLaws WalEntry entry_wf)
    valid (LS : CodecLaws IndexSnapshot valid) cfg s0 s metric filters lo hi
    (Hcfg : cfg_ok cfg) (Hstart : sys_start cfg s0) (Hrun : run cfg valid s0 [] s) :
  let before := query_rpc (server s) metric filters lo hi in
  (∀ env, compact_accidents (files (server s)) (index (server s)) (compacting s) env = [] →
     let after := query_rpc (server (after_compact s env)) metric filters lo hi in
     answers_merged before after ∧
     (∀ r, r ∈ before → (∀ r', r' ∈ before → same_cell r' r → r' = r) → r ∈ after) ∧
     (step_clashes (files (server s)) (compacting s) = [] → ∀ r, r ∈ after ↔ r ∈ before)) ∧
  (∀ env, compact_ok (compaction_worker (server s)) (files (server s)) (index (server s)) env →
     let after := query_rpc (compact_rpc (server s) env).1 metric filters lo hi in
     answers_merged before after ∧
     (∀ r, r ∈ before → (∀ r', r' ∈ before → same_cell r' r → r' = r) → r ∈ after)).
Proof.
  pose proof (inv_reachable cfg valid Hcfg s0 s Hstart Hrun) as Hi. split; intros env Hok; cbv zeta.
  - destruct (inv_compact_step_answers cfg s env metric filters lo hi Hi Hok) as [Hm Hn].
    split; [exact Hm|]. split; [|exact Hn]. intros r. by apply answers_merged_one.
  - pose proof (inv_compact_answers cfg s env metric filters lo hi Hi Hok) as Hm.
    split; [exact Hm|]. intros r. by apply answers_merged_one.
Qed.

(** Two chunks are merged into one. *)
Lemma system_compaction_transparent_witness :
  (@compact_rpc poly_hash ieee_crc32 stored_lz4 cell_bloom (server Run.t3) Run.merge_env).2 =
    Ok {| chunks_merged := 2; bytes_freed := 229 |} ∧
  @response poly_hash tiny_key 1 (F64 1) ∈
    @query_rpc poly_hash ieee_crc32 stored_lz4 Run.compacted "m" [] None None.
Proof.
  split; [vm_compute; reflexivity|].
  destruct (system_compaction_transparent poly_hash_laws ieee_crc32_laws stored_lz4_laws cell_bloom_laws wal_codec_laws
    Run.always snapshot_codec_laws Run.config2 Run.t0 Run.t3 "m" [] None None
    Run.config2_ok Run.t0_starts Run.run2) as [_ Ht].
  destruct (Ht Run.merge_env Run.t3_compact_ok) as [_ Hone]. apply Hone; [vm_compute; left|].
  assert (@query_rpc poly_hash ieee_crc32 stored_lz4 (server Run.t3) "m" [] None None =
    [@response poly_hash tiny_key 1 (F64 1); @response poly_hash tiny_key 2 (F64 2)]) as -> by (vm_compute; reflexivity).
  intros r [->|[->|Hr%elem_of_nil]%elem_of_cons]%elem_of_cons [_ E]; [reflexivity|discriminate E|destruct Hr].
Defined.

(** ** What accidents do *)

(** Two chunks of a series that start at the same time: two points are appended and flushed,
    the first one is written again and flushed; nothing fails, and the second point is not
    found any more. *)
Theorem system_start_taken_loses_data :
  @run poly_hash ieee_crc32 stored_lz4 cell_bloom wal_codec snapshot_codec Sample.config Run.always Run.s0 [StartTaken] Run.v3 ∧
  gone Run.v3 = ∅ ∧ flushing Run.v3 = None ∧ clashed Run.v3 = [] ∧
  Sample.values (server Run.v1) = [1; 2] ∧ Sample.values (server Run.v3) = [1].
Proof. split; [exact Run.start_taken_run|]. split_and!; vm_compute; reflexivity. Qed.

(** A metric name with separators: two points of the metric [m,h=a] are appended and flushed
    separately; when their chunks have been merged, a query for the metric [m] delivers
    them, which nobody has written under that name. *)
Theorem system_ambiguous_key_invents :
  @run poly_hash ieee_crc32 stored_lz4 cell_bloom wal_codec snapshot_codec Run.config2 Run.always Run.t0
    [AmbiguousKey; AmbiguousKey] Run.o4 ∧
  concat (history Run.o4) = [Run.odd_point 1; Run.odd_point 2] ∧
  Sample.values (server Run.o3) = [] ∧ Sample.values (server Run.o4) = [1; 2].
Proof. split; [exact Run.odd_run|]. split_and!; vm_compute; reflexivity. Qed.

(** A merge deletes its input files before the snapshot that still names them is
    replaced: two points are acknowledged, flushed and covered by a snapshot; a
    compaction merges the two chunks; after a crash the restarted server loads the old
    snapshot, whose files are gone, and both points are lost although no operation
    failed. *)
Theorem system_compaction_crash_loses_data :
  Sample.values (server Run.t3) = [1; 2] ∧ Sample.values Run.compacted = [1; 2] ∧ Sample.values Run.lost = [].
Proof. split; [|split]; vm_compute; reflexivity. Qed.

(** A snapshot between the update of the index and the removal of the files would do: the
    state stays covered, and everything is there after a crash. *)
Theorem system_snapshot_before_removal :
  covered Run.registered = true ∧ covered (Run.merging Run.registered) = false ∧ covered Run.removed = true ∧
  Sample.values (Run.reopened Run.config2 Run.removed (λ _, []) (λ _, IoOk) (files (server Run.removed)) 10) = [1; 2].
Proof. split_and!; vm_compute; reflexivity. Qed.
