(* ===== verification/Requests.v ===== *)
(** * Requests as runs

    The handler [append_rpc] is one function; in the system its parts are steps of their
    own.  The theorem here connects the two: a call of the handler, whatever the outcome of
    its writes, is a run of the system, which leaves the server the handler leaves, and
    after an acknowledged call every shard has been given its part of the request.  The
    handler [compact_rpc] is a run as well, on every path through it. *)
From S2P Require Import Prelude BTree F64 Externals Types Memtable Fs ChunkFormat ChunkWriter ChunkReader ChunkFile WalWriter Recovery GroupCommit ChunkIndex Persistence Compaction Config Server QuerySource Store StoreMerge CompactTask ShardLog Restart System SystemInv Answers Runs.

Section Requests.
Context `{XxHash, Crc32, Lz4, BloomFilter, Codec WalEntry, Codec IndexSnapshot, UnstableSort}.
Context (cfg : StorageConfig) (valid : IndexSnapshot → Prop).

(** The groups of a request can be written: counters have room and entries fit. *)
Definition request_ok (sv : StorageServer) (request : list RequestPoint) : Prop :=
  Forall seq_room (wals sv) ∧
  Forall (λ g, match wals sv !! Z.to_nat g.1 with
               | Some t => batch_ok (writer t) (messages [g.2])
               | None => False
               end) (route (len (memtables sv)) (map decode_point request)).

#[export] Instance request_ok_dec sv request : Decision (request_ok sv request).
Proof.
  unfold request_ok, seq_room, in_u64. apply and_dec; [apply _|]. apply Forall_dec. intros g.
  destruct (wals sv !! Z.to_nat g.1); apply _.
Defined.

(** A step of the running server without an accident. *)
Definition smooth_step (s s' : System) : Prop := live_step valid s [] s'.

Lemma smooth_run s s' : rtc smooth_step s s' → run cfg valid s [] s'.
Proof. intros Hr. apply run_regular. eapply rtc_subrel; [|exact Hr]. intros x y Hs. by left. Qed.

(** Every shard gets its part. *)
Definition give {A} (part : Z * list DataPoint → list A) (gs : list (Z * list DataPoint)) (xs : list (list A))
    : list (list A) :=
  fold_left (λ xs g, alter (λ x, x ++ part g) (Z.to_nat g.1) xs) gs xs.

Lemma give_lookup {A} (part : Z * list DataPoint → list A) gs xs i :
  give part gs xs !! i = (λ x, x ++ flat_map (λ g, if decide (Z.to_nat g.1 = i) then part g else []) gs) <$> xs !! i.
Proof.
  revert xs. induction gs as [|g gs IH]; intros xs; unfold give; cbn [fold_left flat_map].
  { destruct (xs !! i); cbn; by rewrite ?app_nil_r. }
  fold (give part gs (alter (λ x, x ++ part g) (Z.to_nat g.1) xs)). rewrite IH. destruct (decide (Z.to_nat g.1 = i)) as [<-|Hne].
  - rewrite list_lookup_alter_eq. destruct (xs !! _); cbn; by rewrite <-?app_assoc.
  - by rewrite list_lookup_alter_ne.
Qed.

Lemma no_part {A} (part : Z * list DataPoint → list A) gs i :
  i ∉ map (λ g, Z.to_nat g.1) gs → flat_map (λ g, if decide (Z.to_nat g.1 = i) then part g else []) gs = [].
Proof.
  induction gs as [|g gs IH]; intros Hn; [done|]. cbn in *. apply not_elem_of_cons in Hn as [Hne Hn].
  rewrite decide_False by done. by apply IH.
Qed.

Lemma give_ext {A} (part part' : Z * list DataPoint → list A) gs xs :
  (∀ g, g ∈ gs → part g = part' g) → give part gs xs = give part' gs xs.
Proof.
  intros E. apply list_eq. intros i. rewrite !give_lookup. destruct (xs !! i); [|done]. cbn. do 2 f_equal.
  induction gs as [|g gs IH]; [done|]. cbn. rewrite IH by (intros; apply E; by right). by rewrite E by left.
Qed.

(** The part of the first group, on top of the others'. *)
Lemma give_first {A} (part : Z * list DataPoint → list A) g gs xs x :
  Z.to_nat g.1 ∉ map (λ g, Z.to_nat g.1) gs → xs !! Z.to_nat g.1 = Some x →
  give part (g :: gs) xs !! Z.to_nat g.1 = Some (x ++ part g) ∧
  <[Z.to_nat g.1 := x]> (give part (g :: gs) xs) = give part gs xs.
Proof.
  intros Hn Hx. split.
  { rewrite give_lookup, Hx. cbn [flat_map fmap option_fmap option_map]. rewrite decide_True by done.
    by rewrite no_part, app_nil_r. }
  apply list_eq. intros i. destruct (decide (Z.to_nat g.1 = i)) as [<-|Hne].
  - rewrite list_lookup_insert_eq, give_lookup, Hx; [cbn; by rewrite no_part, app_nil_r|].
    apply lookup_lt_is_Some. rewrite give_lookup, Hx. by eexists.
  - rewrite list_lookup_insert_ne, !give_lookup by done. cbn [flat_map]. by rewrite decide_False.
Qed.

Lemma alter_nil {A} (xs : list (list A)) j : alter (λ x, x ++ []) j xs = xs.
Proof.
  apply list_eq. intros i. destruct (decide (j = i)) as [<-|Hne].
  - rewrite list_lookup_alter_eq. destruct (xs !! j); cbn; by rewrite ?app_nil_r.
  - by rewrite list_lookup_alter_ne.
Qed.

(** ** Logging the groups *)

(** What a group leaves behind when its write succeeds. *)
Definition if_logged {A} (io : Z → io_outcome) (part : Z * list DataPoint → list A) (g : Z * list DataPoint) : list A :=
  match io g.1 with IoOk => part g | IoErr _ => [] end.

Definition log_group (io : Z → io_outcome) (rot : Z → bool) (s : System) (g : Z * list DataPoint) : System :=
  let j := Z.to_nat g.1 in
  match wals (server s) !! j with
  | None => s
  | Some t =>
      match io g.1 with
      | IoOk => after_log s j t [g.2] (rot g.1)
      | IoErr k => after_failure s j t [g.2] k (rot g.1)
      end
  end.
Definition log_groups (io : Z → io_outcome) (rot : Z → bool) (s : System) (gs : list (Z * list DataPoint)) : System :=
  fold_left (log_group io rot) gs s.

(** The shards of the groups are different and exist. *)
Definition groups_ok (sv : StorageServer) (gs : list (Z * list DataPoint)) : Prop :=
  NoDup (map (λ g, Z.to_nat g.1) gs) ∧
  Forall (λ g, ∃ t, wals sv !! Z.to_nat g.1 = Some t ∧ batch_ok (writer t) (messages [g.2])) gs.

(** What the logging does not touch. *)
Record same_but_logs (s s' : System) : Prop := {
  sb_flushing : flushing s' = flushing s;
  sb_history : history s' = history s;
  sb_gone : gone s' = gone s
}.

Lemma log_group_spec io rot s g t :
  wals (server s) !! Z.to_nat g.1 = Some t → batch_ok (writer t) (messages [g.2]) →
  let s' := log_group io rot s g in
  live_step valid s [] s' ∧ server s' = with_wals (server s) (wal_append_one (wals (server s)) g io rot).1 ∧ same_but_logs s s' ∧
  queued s' = alter (λ q, q ++ if_logged io (λ g, [g.2]) g) (Z.to_nat g.1) (queued s) ∧
  written s' = alter (λ w, w ++ if_logged io (λ g, concat [g.2]) g) (Z.to_nat g.1) (written s).
Proof.
  intros Ht Hb. cbv zeta. unfold log_group, wal_append_one, sender_append, if_logged. rewrite Ht.
  destruct (io g.1) as [|k] eqn:E.
  - split; [|split; [done|by split]]. pose proof (do_log valid s _ t [g.2] (rot g.1) Ht) as Hs. unfold log_accidents in Hs.
    by rewrite (proj2 (unless_nil _ _) Hb) in Hs.
  - rewrite !alter_nil. split; [by apply do_log_failed|]. split; [done|]. by split.
Qed.

Lemma log_groups_run io rot gs s :
  groups_ok (server s) gs →
  let s' := log_groups io rot s gs in
  rtc smooth_step s s' ∧
  server s' = with_wals (server s) (wal_append_all (wals (server s)) gs io rot).1 ∧ same_but_logs s s' ∧
  queued s' = give (if_logged io (λ g, [g.2])) gs (queued s) ∧
  written s' = give (if_logged io (λ g, concat [g.2])) gs (written s).
Proof.
  cbv zeta. revert s. induction gs as [|g gs IH]; intros s [Hnd HF].
  { cbn. split; [apply rtc_refl|]. split; [by destruct (server s)|]. by split. }
  cbn [map] in Hnd. apply NoDup_cons in Hnd as [Hn Hnd]. apply Forall_cons in HF as [(t & Ht & Hb) HF].
  destruct (log_group_spec io rot s g t Ht Hb) as (Hs & Esv & [Ef Eh Eg] & Eq & Ew). cbv zeta in *.
  unfold log_groups. cbn [fold_left]. fold (log_groups io rot (log_group io rot s g) gs).
  destruct (IH (log_group io rot s g)) as (Hr & Esv' & [Ef' Eh' Eg'] & Eq' & Ew').
  { split; [done|]. rewrite Forall_forall in HF |- *. intros g' Hg'. destruct (HF g' Hg') as (t' & Ht' & Hb'). exists t'.
    split; [|done]. rewrite Esv. cbn [with_wals wals]. unfold wal_append_one. rewrite Ht. cbn [fst].
    rewrite list_lookup_insert_ne; [done|]. intros E. apply Hn. rewrite E. by apply (list_elem_of_fmap_2 (λ g, Z.to_nat g.1)). }
  split; [by eapply rtc_l|]. split; [by rewrite Esv', Esv|]. split; [split; congruence|].
  by rewrite Eq', Eq, Ew', Ew.
Qed.

(** ** Inserting the groups *)

Definition insert_last (s : System) (g : Z * list DataPoint) : System :=
  let j := Z.to_nat g.1 in
  match queued s !! j with
  | Some q => after_insert s j (removelast q) g.2 []
  | None => s
  end.
Definition insert_lasts (s : System) (gs : list (Z * list DataPoint)) : System := fold_left insert_last gs s.

Lemma insert_lasts_run gs s qs :
  NoDup (map (λ g, Z.to_nat g.1) gs) → Forall (λ g, (Z.to_nat g.1 < length qs)%nat) gs →
  queued s = give (λ g, [g.2]) gs qs →
  let s' := insert_lasts s gs in
  rtc smooth_step s s' ∧
  server s' = with_memtables (server s) (insert_groups (memtables (server s)) gs) ∧
  queued s' = qs ∧ history s' = give snd gs (history s) ∧ written s' = written s ∧ flushing s' = flushing s ∧ gone s' = gone s.
Proof.
  cbv zeta. revert s. induction gs as [|g gs IH]; intros s Hnd Hlt Eq.
  { cbn in *. split; [apply rtc_refl|]. split; [by destruct (server s)|]. done. }
  cbn [map] in Hnd. apply NoDup_cons in Hnd as [Hn Hnd]. apply Forall_cons in Hlt as [Hg Hlt]. set (j := Z.to_nat g.1) in *.
  destruct (lookup_lt_is_Some_2 qs j Hg) as [q Hq]. destruct (give_first (λ g, [g.2]) g gs qs q Hn Hq) as [Hqs Erest].
  fold j in Hqs, Erest. rewrite <-Eq in Hqs, Erest.
  assert (insert_last s g = after_insert s j q g.2 []) as E1.
  { unfold insert_last. fold j. by rewrite Hqs, removelast_last. }
  unfold insert_lasts. cbn [fold_left]. fold (insert_lasts (insert_last s g) gs). rewrite E1.
  destruct (IH (after_insert s j q g.2 [])) as (Hr & Esv & Eq' & Eh & Ew & Ef & Eg); [done|done|..].
  - cbn [after_insert queued]. by rewrite app_nil_r.
  - split_and!; [|by rewrite Esv|done|by rewrite Eh|by rewrite Ew|by rewrite Ef|by rewrite Eg].
    eapply rtc_l; [|exact Hr]. by apply do_insert.
Qed.

(** ** Giving the groups up *)

Definition cancel_last (io : Z → io_outcome) (s : System) (g : Z * list DataPoint) : System :=
  let j := Z.to_nat g.1 in
  match io g.1, queued s !! j with
  | IoOk, Some q => after_cancel s j (removelast q) []
  | _, _ => s
  end.
Definition cancel_lasts (io : Z → io_outcome) (s : System) (gs : list (Z * list DataPoint)) : System :=
  fold_left (cancel_last io) gs s.

Lemma cancel_lasts_run io gs s qs :
  NoDup (map (λ g, Z.to_nat g.1) gs) → Forall (λ g, (Z.to_nat g.1 < length qs)%nat) gs →
  queued s = give (if_logged io (λ g, [g.2])) gs qs →
  let s' := cancel_lasts io s gs in
  rtc smooth_step s s' ∧ server s' = server s ∧ queued s' = qs ∧ history s' = history s ∧ written s' = written s ∧
  flushing s' = flushing s ∧ gone s' = gone s.
Proof.
  cbv zeta. revert s. induction gs as [|g gs IH]; intros s Hnd Hlt Eq; [by split; [apply rtc_refl|]|].
  cbn [map] in Hnd. apply NoDup_cons in Hnd as [Hn Hnd]. apply Forall_cons in Hlt as [Hg Hlt]. set (j := Z.to_nat g.1) in *.
  destruct (lookup_lt_is_Some_2 qs j Hg) as [q Hq].
  destruct (give_first (if_logged io (λ g, [g.2])) g gs qs q Hn Hq) as [Hqs Erest].
  fold j in Hqs, Erest. rewrite <-Eq in Hqs, Erest.
  unfold cancel_lasts. cbn [fold_left]. fold (cancel_lasts io (cancel_last io s g) gs). unfold cancel_last. fold j.
  unfold if_logged in Hqs. destruct (io g.1).
  - rewrite Hqs, removelast_last. destruct (IH (after_cancel s j q [])) as (Hr & Hrest); [done|done|..].
    + cbn [after_cancel queued]. by rewrite app_nil_r.
    + split; [|exact Hrest]. eapply rtc_l; [|exact Hr]. by apply (do_cancel _ s j q g.2 []).
  - apply IH; [done|done|]. rewrite <-Erest. symmetry. apply list_insert_id. by rewrite Hqs, app_nil_r.
Qed.

(** ** Compaction *)

Lemma after_compact_parts s env :
  let r := compact_step (compaction_worker (server s)) (files (server s)) (index (server s)) (compacting s) env in
  server (after_compact s env) = with_store (server s) r.1.1 r.1.2 ∧ compacting (after_compact s env) = r.2 ∧
  flushing (after_compact s env) = flushing s ∧ history (after_compact s env) = history s ∧
  queued (after_compact s env) = queued s ∧ gone (after_compact s env) = gone s.
Proof. unfold after_compact. by destruct (compact_step _ _ _ _ _) as [[? ?] ?]. Qed.

(** What can go wrong in a cycle. *)
Definition merge_accident (a : Accident) : Prop := a = TooLarge ∨ a = ClockRepeats.

Lemma unless_all (Q : Accident → Prop) P `{Decision P} a : Q a → Forall Q (unless P a).
Proof. intros Ha. unfold unless. destruct (decide P); [constructor|by apply Forall_singleton]. Qed.

Lemma compact_accidents_kind fs idx st env : Forall merge_accident (compact_accidents fs idx st env).
Proof.
  unfold compact_accidents. destruct st as [|[|g gs]|g r gs|old gs]; try constructor. destruct (collect _); [|constructor].
  apply Forall_app. split; apply unless_all; [by left|by right].
Qed.

(** Steps of a cycle as a run of the system. *)
Lemma cycle_lifts wk strict x y s :
  rtc (cycle_step wk strict) x y → compaction_worker (server s) = wk →
  (files (server s), index (server s), compacting s) = x →
  ∃ a s', run cfg valid s a s' ∧ Forall merge_accident a ∧ (strict = true → a = []) ∧
    server s' = with_store (server s) y.1.1 y.1.2 ∧ compacting s' = y.2 ∧
    flushing s' = flushing s ∧ history s' = history s ∧ queued s' = queued s ∧ gone s' = gone s.
Proof.
  intros Hr. revert s. induction Hr as [x|x y z Hs _ IH]; intros s Hwk Ex.
  { exists [], s. subst x. cbn. split; [apply run_refl|]. split; [constructor|]. split; [done|]. split; [by destruct (server s)|done]. }
  destruct Hs as [fs idx st env Hok]. injection Ex as Ef Ei Ec.
  destruct (after_compact_parts s env) as (Asv & Ast & Afl & Ah & Aq & Ag). rewrite Hwk, Ef, Ei, Ec in Asv, Ast.
  destruct (IH (after_compact s env)) as (a & s' & Hr' & Ha & Hn & Esv & Est & Efl & Eh & Eq & Eg).
  { by rewrite Asv. }
  { rewrite Asv, Ast. by destruct (compact_step wk fs idx st env) as [[? ?] ?]. }
  exists (compact_accidents fs idx st env ++ a), s'. split; [|split; [|split]].
  - eapply run_step; [left|exact Hr']. rewrite <-Ef, <-Ei, <-Ec. apply do_compact.
  - apply Forall_app. split; [apply compact_accidents_kind|done].
  - intros E. rewrite (Hn E), app_nil_r. apply compact_accidents_nil, (Hok E).
  - rewrite Esv, Asv. split_and!; try done; congruence.
Qed.

Lemma compact_run s env :
  compacting s = Idle →
  ∃ a s', run cfg valid s a s' ∧ Forall merge_accident a ∧
    (compact_ok (compaction_worker (server s)) (files (server s)) (index (server s)) env → a = []) ∧
    server s' = (compact_rpc (server s) env).1 ∧ compacting s' = Idle ∧
    flushing s' = flushing s ∧ history s' = history s ∧ queued s' = queued s ∧ gone s' = gone s.
Proof.
  intros Hi. set (P := compact_ok _ _ _ _).
  destruct (cycle_lifts _ _ _ _ (after_pick s) (cycle_alone _ (bool_decide P) _ _ _ (bool_decide_eq_true_1 P)))
    as (a & s' & Hr & Ha & Hn & Esv & Hs'); [done|done|].
  exists a, s'. split; [|split; [done|split; [|split; [|exact Hs']]]].
  - apply (run_step _ _ s [] (after_pick s)); [left; by apply do_compact_begin|exact Hr].
  - intros HP. apply Hn. by apply bool_decide_eq_true.
  - rewrite Esv. unfold compact_rpc. by destruct (compact_once _ _ _ _) as [[fs' idx'] r].
Qed.

(** ** The handler *)

Context `{!XxHashLaws, !Crc32Laws, !UnstableSortLaws, !CodecLaws WalEntry entry_wf} (Hcfg : cfg_ok cfg).

Lemma request_server_wf s content request :
  state_inv cfg s content → request_ok (server s) request → server_wf (server s).
Proof.
  intros I [Hroom _]. pose proof (st_shape _ _ _ I) as Sh. destruct (co_shards _ Hcfg) as (k & Hk & En).
  pose proof (sp_memtables _ _ _ Sh) as Em. pose proof (sp_wals _ _ _ Sh) as Ew. split_and!.
  - exists k. split; [done|]. unfold len. rewrite Em, En, Z2Nat.id; [done|]. apply Z.pow_nonneg. lia.
  - congruence.
  - by eapply state_memtables.
  - done.
Qed.

Lemma request_groups_ok s content request :
  state_inv cfg s content → request_ok (server s) request →
  groups_ok (server s) (route (len (memtables (server s))) (map decode_point request)).
Proof.
  intros I Hok. destruct (route_shards _ (map decode_point request) (request_server_wf _ _ _ I Hok)) as (Hnd & Hr & _).
  destruct Hok as [_ Hok]. set (gs := route _ _) in *. rewrite Forall_forall in Hr. split.
  - assert (map (λ g, Z.to_nat g.1) gs = map Z.to_nat (map fst gs)) as -> by (by rewrite map_map).
    apply NoDup_fmap_2_strong; [|done]. intros x y (g & -> & Hg)%elem_of_map (g' & -> & Hg')%elem_of_map E.
    pose proof (Hr g Hg). pose proof (Hr g' Hg'). lia.
  - eapply Forall_impl; [exact Hok|]. intros g Hg. cbn beta in Hg. destruct (wals (server s) !! Z.to_nat g.1) as [t|]; [by exists t|done].
Qed.

(** What a shard's log gets from the groups of a request. *)
Lemma logged_points io gs i :
  NoDup (map (λ g, Z.to_nat g.1) gs) →
  let part := flat_map (λ g, if decide (Z.to_nat g.1 = i) then if_logged io (λ g, concat [g.2]) g else []) gs in
  (part = [] ∨ part = group_points gs i) ∧ (Forall (λ g, io g.1 = IoOk) gs → part = group_points gs i).
Proof.
  unfold group_points, if_logged. cbn [concat]. induction gs as [|g gs IH]; intros Hnd; [by split; [left|]|].
  cbn [map] in Hnd. apply NoDup_cons in Hnd as [Hn Hnd]. destruct (IH Hnd) as [IH1 IH2]. cbn [flat_map]. case_decide as E.
  - rewrite (no_part (λ g, match io g.1 with IoOk => g.2 ++ [] | _ => [] end)) by (by rewrite <-E).
    rewrite (no_part snd) by (by rewrite <-E). rewrite !app_nil_r. split; [destruct (io g.1); auto|].
    intros [-> _]%Forall_cons. done.
  - split; [exact IH1|]. intros [_ HF]%Forall_cons. by apply IH2.
Qed.

Lemma append_run s content request io rot sv' res :
  state_inv cfg s content → request_ok (server s) request → append_rpc (server s) request io rot = (sv', res) →
  ∃ s', rtc smooth_step s s' ∧ server s' = sv' ∧ flushing s' = flushing s ∧ gone s' = gone s ∧ queued s' = queued s ∧
    match res with
    | Ok _ => ∀ i h w, history s !! i = Some h → written s !! i = Some w →
        ∃ batch, Permutation batch (points_of_shard (server s) request i) ∧
          history s' !! i = Some (h ++ batch) ∧ written s' !! i = Some (w ++ batch)
    | Err _ => history s' = history s ∧ ∀ i w, written s !! i = Some w →
        ∃ batch, (batch = [] ∨ Permutation batch (points_of_shard (server s) request i)) ∧
          written s' !! i = Some (w ++ batch)
    end.
Proof.
  intros I Hok Ha. pose proof (request_server_wf _ _ _ I Hok) as Hwf. pose proof (request_groups_ok _ _ _ I Hok) as Hgs.
  destruct (route_shards _ (map decode_point request) Hwf) as (Hnd & Hr & Hne & Hperm). unfold append_rpc in Ha.
  set (gs := route _ _) in *. destruct (log_groups_run io rot gs s Hgs) as (Hrun & Esv & [Ef Eh Eg] & Eq & Ew).
  destruct (wal_append_all_spec (wals (server s)) gs io rot Hnd Hr Hne) as (_ & _ & Hio).
  { intros g t _ Ht. destruct Hok as [Hroom _]. rewrite Forall_lookup in Hroom. by eapply Hroom. }
  assert (Forall (λ g, (Z.to_nat g.1 < length (queued s))%nat) gs) as Hlt.
  { eapply Forall_impl; [exact Hr|]. intros g Hg. cbn beta in Hg.
    rewrite (st_queued _ _ _ I), <-(sp_wals _ _ _ (st_shape _ _ _ I)). lia. }
  destruct (wal_append_all _ gs io rot) as [ws results]. cbn [fst snd] in *. cbv zeta in *.
  set (s1 := log_groups io rot s gs) in *. destruct (collect results) as [seqs|e]; injection Ha as <- <-.
  - specialize (Hio eq_refl). destruct (insert_lasts_run gs s1 (queued s) (proj1 Hgs) Hlt) as (Hrun' & Esv' & Eq' & Eh' & Ew' & Ef' & Eg').
    { rewrite Eq. apply give_ext. intros g Hg. unfold if_logged. rewrite Forall_forall in Hio. by rewrite (Hio g Hg). }
    exists (after_ack (insert_lasts s1 gs)). split_and!; cbn [after_ack server append_ack fst flushing gone queued]; try congruence.
    + etrans; [exact Hrun|]. eapply rtc_r; [exact Hrun'|apply do_ack].
    + by rewrite Esv', Esv.
    + intros i h w Hh Hw. exists (group_points gs i). split; [by apply Hperm|]. cbn [after_ack history written].
      rewrite Eh', Ew', Ew, !give_lookup, Eh, Hh, Hw. split; [done|]. cbn [fmap option_fmap option_map]. do 2 f_equal.
      exact (proj2 (logged_points io gs i (proj1 Hgs)) Hio).
  - destruct (cancel_lasts_run io gs s1 (queued s) (proj1 Hgs) Hlt Eq) as (Hrun' & Esv' & Eq' & Eh' & Ew' & Ef' & Eg').
    exists (cancel_lasts io s1 gs). split_and!; try congruence; [by etrans|].
    intros i w Hw. rewrite Ew', Ew, give_lookup, Hw. eexists. split; [|reflexivity].
    destruct (logged_points io gs i (proj1 Hgs)) as [[->| ->] _]; [by left|]. right. by apply Hperm.
Qed.

End Requests.

(** C8. The append handler is a run of the system: in any reachable state, a call of [append]
    with any outcome of its WAL writes and rotations takes the server where a sequence of
    the system's steps takes it, whatever other requests are under way.  When the call is
    acknowledged, every shard has been given exactly its points of the request, behind what
    it had, in its log and in its memtable; when it fails, no memtable has been given
    anything, and the log of every shard has either nothing of the request or all of its
    points. *)
Theorem append_refines `{HX : XxHash, HC : Crc32, HL : Lz4, HB : BloomFilter, HW : Codec WalEntry,
      HS : Codec IndexSnapshot, HU : UnstableSort}
    (LX : XxHashLaws) (LC : Crc32Laws) (LL : Lz4Laws) (LB : BloomLaws) (LW : CodecLaws WalEntry entry_wf)
    (LU : UnstableSortLaws) valid (LS : CodecLaws IndexSnapshot valid) cfg s0 s request io rot sv' res
    (Hcfg : cfg_ok cfg) (Hstart : sys_start cfg s0) (Hrun : run cfg valid s0 [] s)
    (Hok : request_ok (server s) request) (Ha : append_rpc (server s) request io rot = (sv', res)) :
  ∃ s', run cfg valid s [] s' ∧ server s' = sv' ∧ flushing s' = flushing s ∧ gone s' = gone s ∧ queued s' = queued s ∧
    match res with
    | Ok _ => ∀ i h w, history s !! i = Some h → written s !! i = Some w →
        ∃ batch, Permutation batch (points_of_shard (server s) request i) ∧
          history s' !! i = Some (h ++ batch) ∧ written s' !! i = Some (w ++ batch)
    | Err _ => history s' = history s ∧ ∀ i w, written s !! i = Some w →
        ∃ batch, (batch = [] ∨ Permutation batch (points_of_shard (server s) request i)) ∧
          written s' !! i = Some (w ++ batch)
    end.
Proof.
  destruct (inv_reachable cfg valid Hcfg s0 s Hstart Hrun) as (content & I).
  destruct (append_run cfg valid Hcfg s content request io rot sv' res I Hok Ha) as (s' & Hr & Hs').
  exists s'. split; [by apply smooth_run|exact Hs'].
Qed.

Lemma append_refines_witness :
  ∃ s', @run poly_hash ieee_crc32 stored_lz4 cell_bloom wal_codec snapshot_codec Run.config2 Run.always Run.t3 [] s' ∧
    history s' !! 0%nat = Some (map decode_point [Sample.point 1; Sample.point 2; Sample.point 3]).
Proof.
  destruct (append_refines poly_hash_laws ieee_crc32_laws stored_lz4_laws cell_bloom_laws wal_codec_laws
    insertion_sort_laws Run.always snapshot_codec_laws Run.config2 Run.t0 Run.t3 [Sample.point 3]
    (λ _, IoOk) (λ _, true)
    (@append_rpc poly_hash ieee_crc32 wal_codec insertion_sort (server Run.t3) [Sample.point 3] (λ _, IoOk) (λ _, true)).1
    (Ok 3) Run.config2_ok Run.t0_starts Run.run2) as (s' & Hr & _ & _ & _ & _ & Hh).
  - Run.evaluate.
  - vm_compute. reflexivity.
  - exists s'. split; [exact Hr|].
    destruct (Hh 0%nat (map decode_point [Sample.point 1; Sample.point 2]) (map decode_point [Sample.point 1; Sample.point 2]))
      as (batch & Hp & Eh & _); [vm_compute; reflexivity..|].
    assert (batch = [decode_point (Sample.point 3)]) as ->; [|exact Eh].
    apply Permutation_length_1_inv. rewrite Hp. vm_compute. reflexivity.
Defined.

(** C9. The compact handler is a run of the system: from any state in which no cycle is under
    way, a call of [compact], whatever it finds (files that cannot be read, failed writes and
    removals, no candidates, chunks that clash) and on every path through it, takes the server
    where the small steps of the compaction task take it, from which other tasks can take
    turns; it leaves what the shards were given, what is in flight and what waits as it was.
    Nothing can go wrong on the way but that what is merged does not fit the format or the
    clock names a chunk twice, and if neither is the case the run has no accident. *)
Theorem compact_refines `{HX : XxHash, HC : Crc32, HL : Lz4, HB : BloomFilter, HW : Codec WalEntry,
      HS : Codec IndexSnapshot} valid cfg s env
    (Hidle : compacting s = Idle) :
  ∃ accidents s', run cfg valid s accidents s' ∧
    Forall (λ a, a = TooLarge ∨ a = ClockRepeats) accidents ∧
    (compact_ok (compaction_worker (server s)) (files (server s)) (index (server s)) env → accidents = []) ∧
    server s' = (compact_rpc (server s) env).1 ∧ compacting s' = Idle ∧
    flushing s' = flushing s ∧ history s' = history s ∧ queued s' = queued s ∧ gone s' = gone s.
Proof. exact (compact_run cfg valid s env Hidle). Qed.

Lemma compact_refines_witness :
  ∃ s', @run poly_hash ieee_crc32 stored_lz4 cell_bloom wal_codec snapshot_codec Run.config2 Run.always Run.t3 [] s' ∧
    Sample.values (server s') = [1; 2].
Proof.
  destruct (@compact_refines poly_hash ieee_crc32 stored_lz4 cell_bloom wal_codec snapshot_codec Run.always Run.config2 Run.t3
    Run.merge_env) as (a & s' & Hr & _ & Ha & Esv & _).
  - vm_compute. reflexivity.
  - exists s'. rewrite (Ha Run.t3_compact_ok) in Hr. split; [exact Hr|]. rewrite Esv. vm_compute. reflexivity.
Defined.

(** ** Two requests for one cell *)

Module Order.
#[local] Existing Instances poly_hash ieee_crc32 stored_lz4 cell_bloom wal_codec snapshot_codec insertion_sort.

(** Two requests write the cell of timestamp 1, and share a batch of the group commit. *)
Definition write_of (v : Z) : list DataPoint :=
  [decode_point {| rq_metric_name := "m"; rq_tags := []; rq_timestamp_ns := 1; rq_value := F64 v |}].
Definition both_logged : StorageServer :=
  match wals Sample.start !! 0%nat with
  | Some t => write_log Sample.start 0 t [write_of 5; write_of 6] IoOk true
  | None => Sample.start
  end.

(** The request that was logged second takes the memtable's lock first. *)
Definition both_inserted : StorageServer := insert_group (insert_group both_logged 0 (write_of 6)) 0 (write_of 5).
Definition both_answered : StorageServer := (append_ack (append_ack both_inserted).1).1.
Definition both_replayed : StorageServer := Sample.crash_restart both_answered 2.
End Order.

(** Two acknowledged requests for the same cell can reach the log in one order and the
    memtable in the other: the server answers one value, and the other one after a crash. *)
Theorem append_order_differs :
  Sample.values Order.both_answered = [5] ∧ Sample.values Order.both_replayed = [6].
Proof. split; vm_compute; reflexivity. Qed.
