(* ===== verification/QueryTask.v ===== *)
(** * The query task

    [query] returns at once; a spawned task does the work in small steps between which the
    rest of the server goes on: it locks one memtable after the other and collects what it
    finds, streams that, reads the index once and keeps the paths and series keys it needs,
    and then reads one chunk file after the other without any lock.  The step function
    here takes the server as it is at that moment.  On a server that stands still the task
    delivers exactly what [query_rpc] says ([query_task_refines]), and on any server it takes
    finitely many steps. *)
From S2P Require Import Prelude BTree F64 Externals Types Memtable Fs ChunkFormat ChunkWriter ChunkReader ChunkFile WalWriter Recovery GroupCommit ChunkIndex Persistence Compaction Config Server QuerySource.

(** The request, with the defaults of the time range. *)
Record Query := {
  q_metric_name : string;
  q_tags : list (string * string);
  q_time_start_ns : Z;
  q_time_end_ns : Z
}.

Definition new_query (metric : string) (filters : list (string * string)) (lo hi : option Z) : Query :=
  {| q_metric_name := metric; q_tags := filters; q_time_start_ns := default i64_min lo;
     q_time_end_ns := default i64_max hi |}.

(** What the index stage keeps: the surviving entries, file paths and series keys. *)
Record Plan := {
  pl_chunks : list SeriesChunkEntry;
  pl_paths : gmap Z string;
  pl_keys : gmap Z SeriesKey
}.

(** Where the task is; the responses it has yet to send travel with it. *)
Inductive Stage :=
| ScanMemtables (shard : nat) (mem_response : list QueryResponse)
| StreamMemtables (queue : list QueryResponse)
| ReadIndex
| ReadChunks (plan : Plan)
| StreamChunk (queue : list QueryResponse) (plan : Plan)
| Complete
| Disconnected.

Record QueryTask := {
  query : Query;
  stage : Stage;
  sent : list QueryResponse;
  warnings : nat
}.

Section QueryTask.
Context `{XxHash, Crc32, Lz4}.

Definition start_query (q : Query) : QueryTask :=
  {| query := q; stage := ScanMemtables 0 []; sent := []; warnings := 0 |}.

(** Stage 1, one shard under its lock. *)
Definition scan_shard (q : Query) (m : Memtable) : list QueryResponse :=
  flat_map
    (λ key, map (λ p, {| qr_series_id := series_id key; qr_timestamp_ns := timestamp_ns p; qr_value := value p |})
              (Memtable.read_series m key (q_time_start_ns q) (q_time_end_ns q) None))
    (resolve_series m (q_metric_name q) (q_tags q)).

(** Stage 2, under the index read lock. *)
Definition plan_of (q : Query) (idx : ChunkIndex) : Plan :=
  let series_ids := index_resolve_series idx (q_metric_name q) (q_tags q) in
  let chunks := flat_map (λ id, prune_chunks idx id (q_time_start_ns q) (q_time_end_ns q) None) series_ids in
  {| pl_chunks := chunks;
     pl_paths := list_to_map
       (omap (λ c, m ← chunk_files idx !! ce_chunk_id c; Some (ce_chunk_id c, file_path m)) chunks);
     pl_keys := list_to_map
       (omap (λ c, k ← series_registry idx !! ce_series_id c; Some (ce_series_id c, k)) chunks) |}.

(** Stage 3, one entry: the responses, and whether a warning was logged. *)
Definition read_planned (q : Query) (fs : Fs) (plan : Plan) (c : SeriesChunkEntry) : list QueryResponse * bool :=
  match pl_paths plan !! ce_chunk_id c, pl_keys plan !! ce_series_id c with
  | Some path, Some key =>
      match ChunkReader.read_series fs path key (q_time_start_ns q) (q_time_end_ns q) with
      | Ok (Some points) =>
          (map (λ p, {| qr_series_id := ce_series_id c; qr_timestamp_ns := timestamp_ns p; qr_value := value p |})
             points, false)
      | Ok None => ([], false)
      | Err _ => ([], true)
      end
  | _, _ => ([], true)
  end.

Definition at_stage (t : QueryTask) (st : Stage) : QueryTask :=
  {| query := query t; stage := st; sent := sent t; warnings := warnings t |}.
Definition send (t : QueryTask) (r : QueryResponse) (connected : bool) (next : Stage) : QueryTask :=
  if connected
  then {| query := query t; stage := next; sent := sent t ++ [r]; warnings := warnings t |}
  else at_stage t Disconnected.

(** One step; [connected] is whether the client still takes what is sent. *)
Definition task_step (sv : StorageServer) (connected : bool) (t : QueryTask) : QueryTask :=
  match stage t with
  | ScanMemtables j acc =>
      match memtables sv !! j with
      | Some m => at_stage t (ScanMemtables (S j) (acc ++ scan_shard (query t) m))
      | None => at_stage t (StreamMemtables acc)
      end
  | StreamMemtables (r :: rs) => send t r connected (StreamMemtables rs)
  | StreamMemtables [] => at_stage t ReadIndex
  | ReadIndex => at_stage t (ReadChunks (plan_of (query t) (index sv)))
  | ReadChunks plan =>
      match pl_chunks plan with
      | [] => at_stage t Complete
      | c :: cs =>
          let r := read_planned (query t) (files sv) plan c in
          let rest := {| pl_chunks := cs; pl_paths := pl_paths plan; pl_keys := pl_keys plan |} in
          {| query := query t; stage := StreamChunk r.1 rest; sent := sent t;
             warnings := warnings t + if r.2 then 1 else 0 |}
      end
  | StreamChunk (r :: rs) plan => send t r connected (StreamChunk rs plan)
  | StreamChunk [] plan => at_stage t (ReadChunks plan)
  | Complete => t
  | Disconnected => t
  end.

(** The steps on a server that stands still, to a client that stays. *)
Definition runs_to (sv : StorageServer) (t t' : QueryTask) : Prop := ∃ n, t' = Nat.iter n (task_step sv true) t.

(** ** The plan *)

(** A map collected from a list of entries is the map it was collected from. *)
Lemma collected_lookup {A B} (f : SeriesChunkEntry → Z) (g : Z → option B) (h : B → A) (cs : list SeriesChunkEntry) c :
  c ∈ cs → (list_to_map (omap (λ c, x ← g (f c); Some (f c, h x)) cs) : gmap Z A) !! f c = h <$> g (f c).
Proof.
  intros Hc. assert (∀ k x, (list_to_map (omap (λ c, x ← g (f c); Some (f c, h x)) cs) : gmap Z A) !! k = Some x →
    h <$> g k = Some x) as Hsound.
  { intros k x Hl. apply elem_of_list_to_map_2 in Hl. apply list_elem_of_omap in Hl as (c' & _ & Hx).
    by destruct (g (f c')) eqn:E; cbn in Hx; simplify_eq; rewrite E. }
  destruct (list_to_map _ !! f c) as [x|] eqn:E; [by apply Hsound in E|].
  destruct (g (f c)) as [x|] eqn:Eg; [|done]. exfalso. apply not_elem_of_list_to_map_2 in E. apply E.
  apply list_elem_of_fmap. exists (f c, h x). split; [done|]. apply list_elem_of_omap. exists c. split; [done|]. by rewrite Eg.
Qed.

(** Reading a planned entry is the third stage of [query_rpc]. *)
Lemma read_planned_chunk q fs idx c :
  c ∈ pl_chunks (plan_of q idx) →
  (read_planned q fs (plan_of q idx) c).1 = query_chunk fs idx (q_time_start_ns q) (q_time_end_ns q) c.
Proof.
  intros Hc. unfold read_planned, query_chunk. cbn [plan_of pl_paths pl_keys pl_chunks] in *.
  pose proof (collected_lookup ce_series_id (λ k, series_registry idx !! k) (λ k, k) _ c Hc) as Ek.
  pose proof (collected_lookup ce_chunk_id (λ k, chunk_files idx !! k) file_path _ c Hc) as Ep.
  cbn beta in Ek, Ep. rewrite Ek, Ep. destruct (chunk_files idx !! ce_chunk_id c); [|done].
  destruct (series_registry idx !! ce_series_id c); [|done]. cbn [fmap option_fmap option_map].
  by destruct (ChunkReader.read_series _ _ _ _ _) as [[?|]|].
Qed.

(** The plan of an index as [query_chunks] uses it. *)
Lemma query_chunks_plan q fs idx :
  query_chunks fs idx (q_metric_name q) (q_tags q) (q_time_start_ns q) (q_time_end_ns q) =
  flat_map (λ c, (read_planned q fs (plan_of q idx) c).1) (pl_chunks (plan_of q idx)).
Proof.
  unfold query_chunks. cbn [plan_of pl_chunks]. apply flat_map_ext_elem. intros c Hc.
  symmetry. by apply read_planned_chunk.
Qed.

(** ** Running alone *)

#[local] Instance runs_to_trans sv : Transitive (runs_to sv).
Proof. intros t1 t2 t3 [n ->] [m ->]. exists (m + n)%nat. by rewrite Nat.iter_add. Qed.

Lemma runs_once sv t t' : task_step sv true t = t' → runs_to sv t t'.
Proof. intros <-. by exists 1%nat. Qed.

Definition task_at (q : Query) (st : Stage) (out : list QueryResponse) (w : nat) : QueryTask :=
  {| query := q; stage := st; sent := out; warnings := w |}.

Lemma scan_runs sv q j acc w :
  runs_to sv (task_at q (ScanMemtables j acc) [] w)
    (task_at q (StreamMemtables (acc ++ flat_map (scan_shard q) (drop j (memtables sv)))) [] w).
Proof.
  remember (drop j (memtables sv)) as ms eqn:E. revert j acc E. induction ms as [|m ms IH]; intros j acc E; symmetry in E.
  - apply runs_once. unfold task_step. cbn [task_at stage flat_map]. rewrite <-(Nat.add_0_r j), <-lookup_drop, E, app_nil_r. done.
  - cbn [flat_map]. rewrite app_assoc. transitivity (task_at q (ScanMemtables (S j) (acc ++ scan_shard q m)) [] w).
    + apply runs_once. unfold task_step. cbn [task_at stage]. assert (memtables sv !! j = Some m) as ->; [|done].
      by rewrite <-(Nat.add_0_r j), <-lookup_drop, E.
    + apply IH. replace (S j) with (j + 1)%nat by lia. by rewrite <-drop_drop, E.
Qed.

Lemma stream_memtables_runs sv q rs out w :
  runs_to sv (task_at q (StreamMemtables rs) out w) (task_at q ReadIndex (out ++ rs) w).
Proof.
  revert out. induction rs as [|r rs IH]; intros out; [apply runs_once; by rewrite app_nil_r|].
  transitivity (task_at q (StreamMemtables rs) (out ++ [r]) w); [by apply runs_once|].
  rewrite (cons_middle r out rs), app_assoc. apply IH.
Qed.

Lemma stream_chunk_runs sv q rs plan out w :
  runs_to sv (task_at q (StreamChunk rs plan) out w) (task_at q (ReadChunks plan) (out ++ rs) w).
Proof.
  revert out. induction rs as [|r rs IH]; intros out; [apply runs_once; by rewrite app_nil_r|].
  transitivity (task_at q (StreamChunk rs plan) (out ++ [r]) w); [by apply runs_once|].
  rewrite (cons_middle r out rs), app_assoc. apply IH.
Qed.

Lemma read_chunks_runs sv q plan out w :
  ∃ w', runs_to sv (task_at q (ReadChunks plan) out w)
    (task_at q Complete (out ++ flat_map (λ c, (read_planned q (files sv) plan c).1) (pl_chunks plan)) w').
Proof.
  destruct plan as [cs paths keys]. cbn [pl_chunks].
  change (λ c, (read_planned q (files sv) {| pl_chunks := cs; pl_paths := paths; pl_keys := keys |} c).1)
    with (λ c, (read_planned q (files sv) {| pl_chunks := []; pl_paths := paths; pl_keys := keys |} c).1).
  revert out w. induction cs as [|c cs IH]; intros out w; [exists w; apply runs_once; by rewrite app_nil_r|].
  set (r := read_planned q (files sv) {| pl_chunks := c :: cs; pl_paths := paths; pl_keys := keys |} c).
  destruct (IH (out ++ r.1) (w + if r.2 then 1 else 0)%nat) as [w' Hr]. exists w'. cbn [flat_map]. rewrite app_assoc.
  etrans; [by apply runs_once|]. etrans; [apply stream_chunk_runs|]. exact Hr.
Qed.

(** The task alone delivers what the handler's definition says. *)
Lemma query_alone sv metric filters lo hi :
  ∃ w, runs_to sv (start_query (new_query metric filters lo hi))
    (task_at (new_query metric filters lo hi) Complete (query_rpc sv metric filters lo hi) w).
Proof.
  set (q := new_query metric filters lo hi).
  destruct (read_chunks_runs sv q (plan_of q (index sv)) (query_memtables (memtables sv) metric filters
    (default i64_min lo) (default i64_max hi)) 0) as [w Hr]. exists w.
  unfold query_rpc. change (query_chunks (files sv) (index sv) metric filters (default i64_min lo) (default i64_max hi))
    with (query_chunks (files sv) (index sv) (q_metric_name q) (q_tags q) (q_time_start_ns q) (q_time_end_ns q)).
  rewrite query_chunks_plan. etrans; [|exact Hr]. etrans; [apply (scan_runs sv q 0 [] 0)|].
  etrans; [apply stream_memtables_runs|]. by apply runs_once.
Qed.

(** ** Termination *)

(** The task at work, on a server with [n] memtables that may change at will. *)
Definition works (n : nat) (t' t : QueryTask) : Prop :=
  match stage t with
  | Complete | Disconnected => False
  | _ => ∃ sv connected, length (memtables sv) = n ∧ t' = task_step sv connected t
  end.

Lemma done_acc n t : stage t = Complete ∨ stage t = Disconnected → Acc (works n) t.
Proof. intros [E|E]; constructor; intros t' Hw; unfold works in Hw; by rewrite E in Hw. Qed.

Lemma step_acc n t :
  (∀ sv connected, length (memtables sv) = n → Acc (works n) (task_step sv connected t)) → Acc (works n) t.
Proof.
  intros Hs. constructor. intros t' Hw. unfold works in Hw.
  assert (∃ sv connected, length (memtables sv) = n ∧ t' = task_step sv connected t) as (sv & c & En & ->)
    by (destruct (stage t); [exact Hw..|destruct Hw|destruct Hw]).
  by apply Hs.
Qed.

Lemma send_acc n t r connected next :
  (∀ t', stage t' = next → Acc (works n) t') → Acc (works n) (send t r connected next).
Proof. intros Hn. unfold send. destruct connected; [by apply Hn|]. apply done_acc. by right. Qed.

Lemma stream_chunk_acc n plan :
  (∀ t, stage t = ReadChunks plan → Acc (works n) t) → ∀ rs t, stage t = StreamChunk rs plan → Acc (works n) t.
Proof.
  intros Hread rs. induction rs as [|r rs IH]; intros t E; apply step_acc; intros sv conn _; unfold task_step; rewrite E.
  - by apply Hread.
  - by apply send_acc.
Qed.

Lemma read_chunks_acc n plan t : stage t = ReadChunks plan → Acc (works n) t.
Proof.
  destruct plan as [cs paths keys]. revert t. induction cs as [|c cs IH]; intros t E; apply step_acc; intros sv conn _;
    unfold task_step; rewrite E; cbn [pl_chunks].
  - apply done_acc. by left.
  - eapply stream_chunk_acc; [exact IH|]. reflexivity.
Qed.

Lemma stream_memtables_acc n rs t : stage t = StreamMemtables rs → Acc (works n) t.
Proof.
  revert t. induction rs as [|r rs IH]; intros t E; apply step_acc; intros sv conn _; unfold task_step; rewrite E.
  - apply step_acc. intros sv' conn' _. unfold task_step. cbn [at_stage stage]. by eapply read_chunks_acc.
  - by apply send_acc.
Qed.

Lemma scan_acc n k j acc t : (n - j = k)%nat → stage t = ScanMemtables j acc → Acc (works n) t.
Proof.
  revert j acc t. induction k as [|k IH]; intros j acc t Ek E; apply step_acc; intros sv conn En; unfold task_step; rewrite E.
  - rewrite lookup_ge_None_2 by lia. by eapply stream_memtables_acc.
  - destruct (memtables sv !! j); [|by eapply stream_memtables_acc]. eapply (IH (S j)); [lia|reflexivity].
Qed.

Lemma query_finite n t : Acc (works n) t.
Proof.
  destruct (stage t) as [j acc|rs| |plan|rs plan| |] eqn:E.
  - by eapply scan_acc.
  - by eapply stream_memtables_acc.
  - apply step_acc. intros sv conn _. unfold task_step. rewrite E. by eapply read_chunks_acc.
  - by eapply read_chunks_acc.
  - eapply stream_chunk_acc; [|exact E]. intros t'. by apply read_chunks_acc.
  - apply done_acc. by left.
  - apply done_acc. by right.
Qed.

End QueryTask.

(** ** Properties *)

(** C17. The query task, run alone: on a server that stands still and for a client that
    stays, the task's small steps come to an end and have delivered exactly the responses
    of the atomic definition [query_rpc], in that order. *)
Theorem query_task_refines `{HX : XxHash, HC : Crc32, HL : Lz4} sv metric filters lo hi :
  ∃ n, let t := Nat.iter n (task_step sv true) (start_query (new_query metric filters lo hi)) in
    stage t = Complete ∧ sent t = query_rpc sv metric filters lo hi.
Proof. destruct (query_alone sv metric filters lo hi) as (w & n & E). exists n. by rewrite <-E. Qed.

(** C26. The query task always comes to an end: however the memtables, the index and the
    files change between its steps, and whether the client stays or not, it takes only
    finitely many steps. *)
Theorem query_task_terminates `{HX : XxHash, HC : Crc32, HL : Lz4} n : well_founded (works n).
Proof. intros t. apply query_finite. Qed.
