(* ===== verification/Concurrent.v ===== *)
(** * Queries beside the running server

    A query task of [QueryTask] interleaved with the steps of [System]: appends, sweeps,
    snapshots and compactions go on between the shards it scans, between the memtables and
    the index, and between the chunk files it reads.  Steps are labelled with accidents as in
    [System].  In any interleaving without accidents the task delivers only points that were
    written, and it delivers every cell that was written before it started, with a value the
    cell had while the task ran (or some value where merged chunks clashed), as long as no
    file it planned to read is taken away ([query_race] shows that compaction does), no flush
    of the shard fails and the cell was not in flight when the index was read. *)
From S2P Require Import Prelude BTree F64 Externals Types Memtable Fs ChunkFormat ChunkWriter ChunkReader ChunkFile WalWriter Recovery GroupCommit ChunkIndex Persistence Compaction Config Server QuerySource Store StoreMerge CompactTask ShardLog Restart System SystemInv Answers Runs QueryTask.

(** The system, the task, and the system as it was when the task read the index. *)
Record Conc := {
  cc_system : System;
  cc_task : QueryTask;
  cc_indexed : System
}.

(** The plan the task works on. *)
Definition planned (t : QueryTask) : option Plan :=
  match stage t with ReadChunks plan | StreamChunk _ plan => Some plan | _ => None end.

(** The responses the task holds, and all it has found. *)
Definition held (t : QueryTask) : list QueryResponse :=
  match stage t with
  | ScanMemtables _ rs | StreamMemtables rs | StreamChunk rs _ => rs
  | _ => []
  end.
Definition collected (t : QueryTask) : list QueryResponse := sent t ++ held t.

(** A file the task has planned to read may disappear but does not come into being again:
    its name is a reading of the nanosecond clock. *)
Definition not_reused (t : QueryTask) (fs fs' : Fs) : Prop :=
  match planned t with
  | Some plan => map_Forall (λ _ path, fs' !! path = fs !! path ∨ fs' !! path = None) (pl_paths plan)
  | None => True
  end.

#[export] Instance not_reused_dec t fs fs' : Decision (not_reused t fs fs').
Proof. unfold not_reused. destruct (planned t); apply _. Defined.
#[global] Typeclasses Opaque not_reused.

Section Concurrent.
Context `{XxHash, Crc32, Lz4, BloomFilter, Codec WalEntry, Codec IndexSnapshot}.
Context (cfg : StorageConfig) (valid : IndexSnapshot → Prop).

(** Steps are labelled with their accidents; the clock also repeats where a name the task
    has planned to read comes into being again. *)
Inductive conc_step : Conc → list Accident → Conc → Prop :=
| task_moves c connected :
    conc_step c []
      {| cc_system := cc_system c; cc_task := task_step (server (cc_system c)) connected (cc_task c);
         cc_indexed := match stage (cc_task c) with ReadIndex => cc_system c | _ => cc_indexed c end |}
| server_moves c a s' :
    live_step valid (cc_system c) a s' →
    conc_step c (a ++ unless (not_reused (cc_task c) (files (server (cc_system c))) (files (server s'))) ClockRepeats)
      {| cc_system := s'; cc_task := cc_task c; cc_indexed := cc_indexed c |}.

(** Steps without accidents. *)
Definition conc_calm (c c' : Conc) : Prop := conc_step c [] c'.

Definition query_starts (s : System) (q : Query) : Conc := {| cc_system := s; cc_task := start_query q; cc_indexed := s |}.

(** ** The invariant *)

(** A response that carries a written point the query asks for. *)
Definition answers (hist : list (list DataPoint)) (q : Query) (r : QueryResponse) : Prop :=
  ∃ key ts v, known hist key ts v ∧
    asked (q_metric_name q) (q_tags q) (q_time_start_ns q) (q_time_end_ns q) key ts ∧ r = response key ts v.

(** The plan comes from the index of [o], and its files are as they were or gone. *)
Record plan_inv (s o : System) (q : Query) (plan : Plan) : Prop := {
  pi_store : ∃ content, store_inv (writer_of cfg) (files (server o)) (index (server o)) content ∧
    content_known content (history s);
  pi_chunks : pl_chunks plan ⊆ pl_chunks (plan_of q (index (server o)));
  pi_paths : pl_paths plan = pl_paths (plan_of q (index (server o)));
  pi_keys : pl_keys plan = pl_keys (plan_of q (index (server o)));
  pi_files : ∀ c path, pl_paths plan !! c = Some path →
    files (server s) !! path = files (server o) !! path ∨ files (server s) !! path = None
}.

Record conc_inv (c : Conc) (content : Content) : Prop := {
  ci_state : state_inv cfg (cc_system c) content;
  ci_answers : ∀ r, r ∈ collected (cc_task c) → answers (history (cc_system c)) (query (cc_task c)) r;
  ci_plan : ∀ plan, planned (cc_task c) = Some plan → plan_inv (cc_system c) (cc_indexed c) (query (cc_task c)) plan
}.

Context `{!XxHashLaws, !Crc32Laws, !Lz4Laws, !BloomLaws, !CodecLaws WalEntry entry_wf}.
Context `{!CodecLaws IndexSnapshot valid} (Hcfg : cfg_ok cfg).

(** ** What the stages find *)

Lemma elem_of_scan_shard q m r :
  mt_wf m →
  r ∈ scan_shard q m ↔
  ∃ key ts v, mt_lookup m key ts = Some v ∧
    asked (q_metric_name q) (q_tags q) (q_time_start_ns q) (q_time_end_ns q) key ts ∧ r = response key ts v.
Proof.
  intros Hm.
  pose proof (query_memtables_exact [m] (q_metric_name q) (q_tags q) (q_time_start_ns q) (q_time_end_ns q) r) as E.
  change (query_memtables [m] _ _ _ _) with (scan_shard q m ++ []) in E. rewrite app_nil_r in E.
  rewrite E by (by apply Forall_singleton).
  unfold memtables_hold. setoid_rewrite list_elem_of_singleton. naive_solver.
Qed.

(** Reading a planned entry now gives what it gave when the index was read, or a warning. *)
Lemma read_now s o q plan c :
  plan_inv s o q plan →
  read_planned q (files (server s)) plan c = read_planned q (files (server o)) plan c ∨
  read_planned q (files (server s)) plan c = ([], true).
Proof.
  intros [_ _ _ _ Hf]. unfold read_planned. destruct (pl_paths plan !! ce_chunk_id c) as [path|] eqn:Ep; [|by left].
  destruct (pl_keys plan !! ce_series_id c) as [key|]; [|by left]. unfold ChunkReader.read_series, fs_read.
  destruct (Hf _ _ Ep) as [->| ->]; [by left|by right].
Qed.

(** The plan and the answers of the store agree. *)
Lemma plan_exact s o q plan c :
  plan_inv s o q plan → c ∈ pl_chunks plan →
  read_planned q (files (server o)) plan c = read_planned q (files (server o)) (plan_of q (index (server o))) c.
Proof. intros P _. unfold read_planned. by rewrite (pi_paths _ _ _ _ P), (pi_keys _ _ _ _ P). Qed.

Lemma planned_answers s o q plan c r :
  plan_inv s o q plan → c ∈ pl_chunks plan → r ∈ (read_planned q (files (server s)) plan c).1 → answers (history s) q r.
Proof.
  intros P Hc Hr. destruct (read_now _ _ _ _ c P) as [E|E]; rewrite E in Hr; [|by apply elem_of_nil in Hr].
  rewrite (plan_exact _ _ _ _ _ P Hc) in Hr. destruct (pi_store _ _ _ _ P) as (content & S & Hk).
  assert (r ∈ query_chunks (files (server o)) (index (server o)) (q_metric_name q) (q_tags q) (q_time_start_ns q)
    (q_time_end_ns q)) as Hq.
  { rewrite query_chunks_plan. apply elem_of_flat_map. exists c. split; [by apply (pi_chunks _ _ _ _ P)|done]. }
  apply (query_chunks_exact _ _ _ _ _ _ _ _ _ S) in Hq as (key & ts & v & Hcell & Hask & ->).
  exists key, ts, v. split; [by apply Hk|done].
Qed.

(** A cell of the content is in the plan. *)
Lemma content_planned fs idx content q key ts v :
  store_inv (writer_of cfg) fs idx content → content_cell content key ts v →
  asked (q_metric_name q) (q_tags q) (q_time_start_ns q) (q_time_end_ns q) key ts →
  ∃ c, c ∈ pl_chunks (plan_of q idx) ∧ response key ts v ∈ (read_planned q fs (plan_of q idx) c).1.
Proof.
  intros S Hc Hask. apply elem_of_flat_map. rewrite <-query_chunks_plan.
  apply (query_chunks_exact _ _ _ _ _ _ _ _ _ S). by exists key, ts, v.
Qed.

(** ** Soundness *)

Lemma answers_mono s content s' content' q r :
  kept s content s' content' → answers (history s) q r → answers (history s') q r.
Proof.
  intros K (key & ts & v & (i & h & Hh & Hp) & Ha). exists key, ts, v. split; [|done].
  destruct (kp_history _ _ _ _ K i h Hh) as [new Hn]. exists i, (h ++ new). split; [done|]. apply elem_of_app. by left.
Qed.

Lemma known_mono s content s' content' k ts v :
  kept s content s' content' → known (history s) k ts v → known (history s') k ts v.
Proof.
  intros K (i & h & Hh & Hp). destruct (kp_history _ _ _ _ K i h Hh) as [new Hn]. exists i, (h ++ new).
  split; [done|]. apply elem_of_app. by left.
Qed.

Lemma conc_server c content s' :
  conc_inv c content → live_step valid (cc_system c) [] s' →
  not_reused (cc_task c) (files (server (cc_system c))) (files (server s')) →
  ∃ content', conc_inv {| cc_system := s'; cc_task := cc_task c; cc_indexed := cc_indexed c |} content' ∧
    kept (cc_system c) content s' content'.
Proof.
  intros [I Ha Hp] Hs Hn. destruct (inv_live cfg valid Hcfg _ _ _ _ I Hs eq_refl) as (content' & I' & K). exists content'. split; [|done].
  split; cbn [cc_system cc_task cc_indexed]; [done|..].
  - intros r Hr. by eapply answers_mono, Ha.
  - intros plan Ep. destruct (Hp plan Ep) as [(co & S & Hk) Hc Hpa Hke Hf]. split; try done.
    + exists co. split; [done|]. intros k ts v Hv. by eapply known_mono, Hk.
    + intros d path Hd. unfold not_reused in Hn. rewrite Ep in Hn. destruct (Hn d path Hd) as [->| ->]; [by apply Hf with d|by right].
Qed.

(** The part of a plan that is left. *)
Lemma plan_rest s o q c cs paths keys :
  plan_inv s o q {| pl_chunks := c :: cs; pl_paths := paths; pl_keys := keys |} →
  plan_inv s o q {| pl_chunks := cs; pl_paths := paths; pl_keys := keys |}.
Proof. intros [? Hc ? ? ?]. split; try done. intros d Hd. apply Hc. by right. Qed.

Lemma plan_fresh s content q :
  state_inv cfg s content → plan_inv s s q (plan_of q (index (server s))).
Proof. intros I. split; try done; [|by left]. exists content. split; apply I. Qed.

Lemma shard_answers s content q j m r :
  state_inv cfg s content → memtables (server s) !! j = Some m → r ∈ scan_shard q m → answers (history s) q r.
Proof.
  intros I Hm Hr. pose proof (state_memtables _ _ _ I) as Hms. rewrite Forall_lookup in Hms.
  apply elem_of_scan_shard in Hr as (key & ts & v & Hl & Ha & ->); [|by eapply Hms]. exists key, ts, v. split; [|done].
  eapply memtables_known; [exact I|]. exists m. split; [by eapply list_elem_of_lookup_2|done].
Qed.

Lemma conc_task c content connected :
  conc_inv c content →
  conc_inv {| cc_system := cc_system c; cc_task := task_step (server (cc_system c)) connected (cc_task c);
              cc_indexed := match stage (cc_task c) with ReadIndex => cc_system c | _ => cc_indexed c end |} content.
Proof.
  destruct c as [s [q st out w] o]. intros [I Ha Hp]. cbn [cc_system cc_task cc_indexed] in *.
  unfold collected, planned in Ha, Hp. unfold task_step. cbn [stage query sent warnings held] in *.
  destruct st as [j acc|[|r rs]| |[[|c cs] paths keys]|[|r rs] plan| |]; cbn [pl_chunks].
  - destruct (memtables (server s) !! j) as [m|] eqn:Em; (split; [done| |done]); unfold collected; cbn;
      intros r; rewrite ?elem_of_app; setoid_rewrite elem_of_app in Ha; [|by auto].
    intros [?|[?|?]]; [by auto..|by eapply shard_answers].
  - by split.
  - unfold send. destruct connected; (split; [done| |done]); unfold collected; cbn; intros r'; rewrite ?elem_of_app; intros Hr;
      apply Ha; rewrite elem_of_app; set_solver.
  - split; [done|done|]. intros plan [= <-]. by eapply plan_fresh.
  - by split.
  - specialize (Hp _ eq_refl). split; [done|..]; unfold collected; cbn.
    + intros r. rewrite elem_of_app. intros [Hr|Hr]; [apply Ha, elem_of_app; by left|].
      eapply planned_answers; [exact Hp| |exact Hr]. cbn. left.
    + intros plan [= <-]. by eapply plan_rest.
  - by split.
  - unfold send. destruct connected; (split; [done| |done || (intros plan' [= <-]; by apply Hp)]); unfold collected; cbn; intros r';
      rewrite ?elem_of_app; intros Hr; apply Ha; rewrite elem_of_app; set_solver.
  - by split.
  - by split.
Qed.

(** A step without an accident, taken apart. *)
Lemma conc_calm_inv c c' (P : Conc → Prop) :
  conc_calm c c' →
  (∀ connected, P {| cc_system := cc_system c; cc_task := task_step (server (cc_system c)) connected (cc_task c);
                     cc_indexed := match stage (cc_task c) with ReadIndex => cc_system c | _ => cc_indexed c end |}) →
  (∀ s', live_step valid (cc_system c) [] s' → not_reused (cc_task c) (files (server (cc_system c))) (files (server s')) →
     P {| cc_system := s'; cc_task := cc_task c; cc_indexed := cc_indexed c |}) →
  P c'.
Proof.
  unfold conc_calm. intros Hs. remember [] as l eqn:E in Hs. intros Ht Hv. destruct Hs as [c connected|c a s' Hl]; [apply Ht|].
  apply app_eq_nil in E as [-> Hn%unless_nil]. by apply Hv.
Qed.

Lemma server_calm c s' :
  live_step valid (cc_system c) [] s' → not_reused (cc_task c) (files (server (cc_system c))) (files (server s')) →
  conc_calm c {| cc_system := s'; cc_task := cc_task c; cc_indexed := cc_indexed c |}.
Proof. intros Hl Hn. pose proof (server_moves c [] s' Hl) as Hs. by rewrite (proj2 (unless_nil _ _) Hn) in Hs. Qed.

Lemma conc_reachable s q c content :
  state_inv cfg s content → rtc conc_calm (query_starts s q) c → ∃ content', conc_inv c content'.
Proof.
  intros I Hr. assert (∃ content, conc_inv (query_starts s q) content) as Hi.
  { exists content. split; [done|..]; cbn; [by intros r Hr'%elem_of_nil|done]. }
  revert Hi. induction Hr as [|c1 c2 c3 Hs _ IH]; intros (co & Hi); [by exists co|]. apply IH.
  apply (conc_calm_inv _ _ (λ c, ∃ content', conc_inv c content') Hs).
  - intros connected. exists co. by apply conc_task.
  - intros s' Hl Hn. destruct (conc_server _ _ _ Hi Hl Hn) as (co' & ? & _). by exists co'.
Qed.

(** ** Completeness *)

Section Tracking.
(** A cell of shard [i], and how many points the shard had been given when the query began. *)
Context (i : nat) (key : SeriesKey) (ts : Z) (n0 : nat).

(** A value the cell has had since then, or any once chunks were merged that clash on it. *)
Definition had (s : System) (u : f64) : Prop :=
  (∃ h n, history s !! i = Some h ∧ (n0 ≤ n ≤ length h)%nat ∧ last_write (take n h) key ts = Some u) ∨
  clash_on (clashed s) key ts.

Definition found (s : System) (t : QueryTask) : Prop := ∃ u, had s u ∧ response key ts u ∈ collected t.
Definition aside (s : System) (content : Content) : Prop :=
  ∃ u, had s u ∧ (content_cell content key ts u ∨ data_lookup (in_flight (flushing s) i) key ts = Some u).
Definition missed (s o : System) : Prop :=
  ∃ u, had s u ∧ data_lookup (in_flight (flushing o) i) key ts = Some u.
Definition due (s o : System) (q : Query) (plan : Plan) : Prop :=
  ∃ u d, had s u ∧ d ∈ pl_chunks plan ∧ response key ts u ∈ (read_planned q (files (server o)) plan d).1.

(** Where the cell is, stage by stage. *)
Definition tracked (s o : System) (t : QueryTask) (content : Content) : Prop :=
  match stage t with
  | ScanMemtables j _ => (i < j)%nat → found s t ∨ aside s content
  | StreamMemtables _ | ReadIndex => found s t ∨ aside s content
  | ReadChunks plan | StreamChunk _ plan => found s t ∨ missed s o ∨ due s o (query t) plan
  | Complete => found s t ∨ missed s o
  | Disconnected => True
  end.

Record track_inv (c : Conc) (content : Content) : Prop := {
  tr_conc : conc_inv c content;
  tr_cell : ∃ h u, history (cc_system c) !! i = Some h ∧ (n0 ≤ length h)%nat ∧ last_write h key ts = Some u;
  tr_asked : let q := query (cc_task c) in
    asked (q_metric_name q) (q_tags q) (q_time_start_ns q) (q_time_end_ns q) key ts;
  tr_found : warnings (cc_task c) = 0%nat → i ∉ gone (cc_system c) →
    tracked (cc_system c) (cc_indexed c) (cc_task c) content
}.

Lemma had_mono s content s' content' u : kept s content s' content' → had s u → had s' u.
Proof.
  intros K [(h & n & Hh & Hn & Hl)|Hc]; [left|right; by apply (kp_clashed _ _ _ _ K)].
  destruct (kp_history _ _ _ _ K i h Hh) as [new Hn']. exists (h ++ new), n.
  split; [done|]. rewrite length_app. split; [lia|]. by rewrite take_app_le by lia.
Qed.

Lemma tracked_server s content s' content' o t :
  kept s content s' content' → i ∉ gone s' → tracked s o t content → tracked s' o t content'.
Proof.
  intros K Hg. assert (∀ u, had s u → had s' u) as Hh by (intros u; by eapply had_mono).
  assert (found s t → found s' t) as Hf by (intros (u & ? & ?); exists u; auto).
  assert (aside s content → aside s' content') as Ha.
  { intros (u & Hu & [Hc|Hd]); [|exists u; split; [by auto|by eapply kp_flight]].
    destruct (kp_content _ _ _ _ K _ _ _ Hc) as (u' & Eu & Hc'). exists u'. split; [|by left].
    destruct Eu as [->|Ec]; [by auto|by right]. }
  assert (missed s o → missed s' o) as Hm by (intros (u & ? & ?); exists u; auto).
  assert (∀ plan, due s o (query t) plan → due s' o (query t) plan) as Hd by (intros plan (u & d & ? & ? & ?); exists u, d; auto).
  unfold tracked. destruct (stage t); naive_solver.
Qed.

Lemma track_server c content s' :
  track_inv c content → live_step valid (cc_system c) [] s' →
  not_reused (cc_task c) (files (server (cc_system c))) (files (server s')) →
  ∃ content', track_inv {| cc_system := s'; cc_task := cc_task c; cc_indexed := cc_indexed c |} content'.
Proof.
  intros [C (h & u & Hh & Hn & Hl) Hask Htr] Hs Hre. destruct (conc_server _ _ _ C Hs Hre) as (content' & C' & K).
  exists content'. split; cbn [cc_system cc_task cc_indexed]; [done| |done|].
  - destruct (kp_history _ _ _ _ K i h Hh) as [new Hn']. exists (h ++ new).
    assert (is_Some (last_write (h ++ new) key ts)) as [u' Hu'].
    { rewrite last_write_app, Hl. by destruct (last_write new key ts). }
    exists u'. split; [done|]. rewrite length_app. split; [lia|done].
  - intros Hw Hg. eapply tracked_server; [exact K|done|]. apply Htr; [done|]. pose proof (kp_gone _ _ _ _ K). set_solver.
Qed.

(** The shard itself: its cell is found in the memtable, or is in a chunk or in flight. *)
Lemma scan_finds s content q m h u :
  state_inv cfg s content → memtables (server s) !! i = Some m → history s !! i = Some h → (n0 ≤ length h)%nat →
  last_write h key ts = Some u → i ∉ gone s →
  asked (q_metric_name q) (q_tags q) (q_time_start_ns q) (q_time_end_ns q) key ts →
  (∃ u', had s u' ∧ response key ts u' ∈ scan_shard q m) ∨ aside s content.
Proof.
  intros I Hm Hh Hn Hl Hg Ha. pose proof (st_mem _ _ _ I i m h Hm Hh) as Sm.
  destruct (sm_last _ _ _ _ _ _ Sm Hg key ts u Hl) as (u' & Eu & Hu').
  assert (had s u') as Hhad.
  { destruct Eu as [->|Ec]; [left|by right]. exists h, (length h). rewrite firstn_all. split_and!; [done|lia|lia|done]. }
  destruct Hu' as [?|[?|?]]; [right; exists u'; auto..|left].
  exists u'. split; [done|]. apply elem_of_scan_shard; [apply Sm|]. by exists key, ts, u'.
Qed.

Lemma found_mono s t t' : collected t ⊆ collected t' → found s t → found s t'.
Proof. intros Hc (u & Hu & Hr). exists u. auto. Qed.

(** Sending loses nothing of it. *)
Lemma send_collected t r rs next :
  held t = r :: rs → (∀ t', stage t' = next → held t' = rs) → collected t ⊆ collected (send t r true next).
Proof. intros Eh Hn x. unfold collected. rewrite Eh, (Hn (send t r true next) eq_refl). cbn [send sent]. set_solver. Qed.

Lemma track_scan s o q j acc out w content :
  state_inv cfg s content →
  (∃ h u, history s !! i = Some h ∧ (n0 ≤ length h)%nat ∧ last_write h key ts = Some u) →
  asked (q_metric_name q) (q_tags q) (q_time_start_ns q) (q_time_end_ns q) key ts → i ∉ gone s →
  let t := {| query := q; stage := ScanMemtables j acc; sent := out; warnings := w |} in
  tracked s o t content → tracked s o (task_step (server s) true t) content.
Proof.
  intros I (h & u & Hh & Hn & Hl) Hask Hg t Ht. unfold task_step. cbn [t stage query].
  pose proof (lookup_lt_Some _ _ _ Hh) as Hlt. rewrite (st_history _ _ _ I), <-(sp_memtables _ _ _ (st_shape _ _ _ I)) in Hlt.
  unfold tracked in Ht. cbn [t stage] in Ht.
  assert (∀ st, collected t ⊆ collected (at_stage t (ScanMemtables (S j) (acc ++ st)))) as Hsub.
  { intros st x. unfold collected. cbn. set_solver. }
  destruct (memtables (server s) !! j) as [m|] eqn:Em; unfold tracked; cbn [at_stage stage].
  - intros Hij. destruct (decide (i = j)) as [<-|Hne].
    + destruct (scan_finds s content q m h u I Em Hh Hn Hl Hg Hask) as [(u' & Hu & Hr)|?]; [left|by right].
      exists u'. split; [done|]. unfold collected. cbn. set_solver.
    + destruct (Ht ltac:(lia)) as [Hf|?]; [left|by right]. eapply found_mono, Hf. apply Hsub.
  - apply lookup_ge_None in Em. apply Ht. lia.
Qed.

Lemma track_index s o q out w content :
  state_inv cfg s content →
  asked (q_metric_name q) (q_tags q) (q_time_start_ns q) (q_time_end_ns q) key ts →
  let t := {| query := q; stage := ReadIndex; sent := out; warnings := w |} in
  tracked s o t content → tracked s s (task_step (server s) true t) content.
Proof.
  intros I Hask t [Hf|(u & Hu & [Hc|Hd])].
  - left. by eapply found_mono, Hf.
  - right; right. destruct (content_planned _ _ _ q _ _ _ (st_store _ _ _ I) Hc Hask) as (d & Hd & Hr).
    exists u, d. auto.
  - right; left. by exists u.
Qed.

Lemma track_read s o q plan out w content :
  plan_inv s o q plan →
  let t := {| query := q; stage := ReadChunks plan; sent := out; warnings := w |} in
  warnings (task_step (server s) true t) = 0%nat →
  tracked s o t content → tracked s o (task_step (server s) true t) content.
Proof.
  intros P t Hw Ht. destruct plan as [[|c cs] paths keys]; cbn in Hw.
  - destruct Ht as [Hf|[?|(u & d & _ & Hd & _)]]; [left|by right|by apply elem_of_nil in Hd]. by eapply found_mono, Hf.
  - destruct Ht as [Hf|[?|(u & d & Hu & Hd & Hr)]]; [left|by right; left|].
    { eapply found_mono, Hf. intros x. unfold collected. cbn. set_solver. }
    cbn [pl_chunks] in Hd. apply elem_of_cons in Hd as [->|Hd]; [|right; right; exists u, d; auto].
    left. exists u. split; [done|]. unfold collected. cbn. apply elem_of_app. right.
    destruct (read_now _ _ _ _ c P) as [E|E]; rewrite E in Hw |- *; [done|]. cbn in Hw. lia.
Qed.

Lemma track_task c content connected :
  track_inv c content →
  track_inv {| cc_system := cc_system c; cc_task := task_step (server (cc_system c)) connected (cc_task c);
               cc_indexed := match stage (cc_task c) with ReadIndex => cc_system c | _ => cc_indexed c end |} content.
Proof.
  intros [C Hcell Hask Htr]. pose proof (conc_task _ _ connected C) as C'. destruct C as [I Ha Hp].
  destruct c as [s [q st out w] o]. cbn [cc_system cc_task cc_indexed] in *.
  split; [exact C'|exact Hcell|..]; cbn [cc_system cc_task cc_indexed].
  { unfold task_step, send. by destruct st as [j acc|[|r rs]| |[[|c cs] paths keys]|[|r rs] plan| |]; cbn;
      [destruct (memtables (server s) !! j)|..]; try destruct connected. }
  intros Hw Hg. cbn [stage query warnings] in *.
  destruct st as [j acc|[|r rs]| |plan|[|r rs] plan| |].
  - apply (track_scan s o q j acc out w content I Hcell Hask Hg), Htr; [|done]. cbn in Hw.
    by destruct (memtables (server s) !! j).
  - exact (Htr Hw Hg).
  - destruct connected; [|done]. destruct (Htr Hw Hg) as [Hf|?]; [left|by right].
    eapply found_mono, Hf. apply send_collected with rs; [done|]. intros t' E. unfold held. by rewrite E.
  - exact (track_index s o q out w content I Hask (Htr Hw Hg)).
  - assert (w = 0%nat) as Hw0 by (destruct plan as [[|c cs] paths keys]; cbn in Hw; lia).
    exact (track_read s o q plan out w content (Hp _ eq_refl) Hw (Htr Hw0 Hg)).
  - exact (Htr Hw Hg).
  - destruct connected; [|done]. destruct (Htr Hw Hg) as [Hf|?]; [left|by right].
    eapply found_mono, Hf. apply send_collected with rs; [done|]. intros t' E. unfold held. by rewrite E.
  - exact (Htr Hw Hg).
  - done.
Qed.

End Tracking.

Lemma track_reachable s q c content i h key ts v :
  state_inv cfg s content → history s !! i = Some h → last_write h key ts = Some v →
  asked (q_metric_name q) (q_tags q) (q_time_start_ns q) (q_time_end_ns q) key ts →
  rtc conc_calm (query_starts s q) c → ∃ content', track_inv i key ts (length h) c content'.
Proof.
  intros I Hh Hv Hq Hr. assert (∃ content, track_inv i key ts (length h) (query_starts s q) content) as Hi.
  { exists content. split; [split; [done|..]; cbn; [by intros r Hr'%elem_of_nil|done]|by exists h, v|done|].
    intros _ _ Hlt. lia. }
  revert Hi. induction Hr as [|c1 c2 c3 Hs _ IH]; intros (co & Hi); [by exists co|]. apply IH.
  apply (conc_calm_inv _ _ (λ c, ∃ content', track_inv i key ts (length h) c content') Hs);
    [intros connected; exists co; by apply track_task|intros s' Hl Hn; by eapply track_server].
Qed.

(** The task does not change its request. *)
Lemma conc_query s q c : rtc conc_calm (query_starts s q) c → query (cc_task c) = q.
Proof.
  intros Hr. change (query (cc_task c) = query (cc_task (query_starts s q))). induction Hr as [|c1 c2 c3 Hs _ IH]; [done|].
  rewrite IH. apply (conc_calm_inv c1 c2 (λ c, query (cc_task c) = query (cc_task c1)) Hs); [|done]. intros connected.
  clear. destruct c1 as [s1 [q1 st out w] o]. cbn [cc_task cc_system]. unfold task_step, send.
  by destruct st as [j acc|[|r rs]| |[[|d ds] paths keys]|[|r rs] plan| |]; cbn;
    [destruct (memtables (server s1) !! j)|..]; try destruct connected.
Qed.

(** The steps of the task alone, for a client that stays. *)
Definition tick (c : Conc) : Conc :=
  {| cc_system := cc_system c; cc_task := task_step (server (cc_system c)) true (cc_task c);
     cc_indexed := match stage (cc_task c) with ReadIndex => cc_system c | _ => cc_indexed c end |}.

Lemma ticks n c : rtc conc_calm c (Nat.iter n tick c).
Proof. induction n as [|n IH]; [done|]. eapply rtc_r; [exact IH|]. apply (task_moves _ true). Qed.

(** As long as it has no plan, the task is not concerned. *)
Lemma unplanned_moves s s' t o :
  planned t = None → live_step valid s [] s' →
  conc_calm {| cc_system := s; cc_task := t; cc_indexed := o |} {| cc_system := s'; cc_task := t; cc_indexed := o |}.
Proof.
  intros Ep Hl. apply (server_calm {| cc_system := s; cc_task := t; cc_indexed := o |} s' Hl).
  unfold not_reused. cbn [cc_task]. by rewrite Ep.
Qed.

(** The next steps of a compaction cycle. *)
Fixpoint cycle (n : nat) (s : System) (env : MergeEnv) : System :=
  match n with O => s | S n' => cycle n' (after_compact s env) env end.
Fixpoint cycle_ok (n : nat) (s : System) (env : MergeEnv) (t : QueryTask) : Prop :=
  match n with
  | O => True
  | S n' =>
      compact_accidents (files (server s)) (index (server s)) (compacting s) env = [] ∧
      not_reused t (files (server s)) (files (server (after_compact s env))) ∧ cycle_ok n' (after_compact s env) env t
  end.
#[export] Instance cycle_ok_dec n s env t : Decision (cycle_ok n s env t).
Proof. revert s. induction n as [|n IH]; intros s; cbn [cycle_ok]; apply _. Defined.

Lemma cycle_moves n s env t o :
  cycle_ok n s env t →
  rtc conc_calm {| cc_system := s; cc_task := t; cc_indexed := o |}
    {| cc_system := cycle n s env; cc_task := t; cc_indexed := o |}.
Proof.
  revert s. induction n as [|n IH]; intros s Hok; [apply rtc_refl|]. destruct Hok as (Hs & Hn & Hok).
  eapply rtc_l; [|exact (IH (after_compact s env) Hok)].
  apply (server_calm {| cc_system := s; cc_task := t; cc_indexed := o |}); [|done].
  pose proof (do_compact valid s env) as Hd. by rewrite Hs in Hd.
Qed.

Lemma ticks_system n c : cc_system (Nat.iter n tick c) = cc_system c.
Proof. by induction n. Qed.

End Concurrent.

(** ** Sample runs *)

Module Race.
#[local] Existing Instances poly_hash ieee_crc32 stored_lz4 cell_bloom wal_codec snapshot_codec insertion_sort.

Definition everything : Query := new_query "m" [] None None.

(** The server compacts between the index and the chunks: it picks the two chunks, writes
    and registers the merged one, and removes them. *)
Definition indexed : Conc := Nat.iter 4 tick (query_starts Run.t3 everything).
Definition merged : Conc :=
  {| cc_system := cycle 4 (after_pick Run.t3) (Run.merge_env 0); cc_task := cc_task indexed; cc_indexed := cc_indexed indexed |}.
Definition raced : Conc := Nat.iter 5 tick merged.

(** A point is appended after the shard was scanned, and the memtable is Run.t4. *)
Definition scanned : Conc := Nat.iter 1 tick (query_starts Run.t3 everything).
Definition beside (s : System) : Conc := {| cc_system := s; cc_task := cc_task scanned; cc_indexed := cc_indexed scanned |}.
Definition finished : Conc := Nat.iter 20 tick (beside Run.t4).

Lemma race_run : rtc (conc_calm Run.always) (query_starts Run.t3 everything) raced.
Proof.
  transitivity indexed; [exact (ticks Run.always 4 (query_starts Run.t3 everything))|].
  transitivity merged; [|exact (ticks Run.always 5 merged)].
  apply rtc_l with {| cc_system := after_pick Run.t3; cc_task := cc_task indexed; cc_indexed := cc_indexed indexed |}.
  - refine (server_calm Run.always indexed (after_pick Run.t3) _ _).
    + unfold indexed. rewrite ticks_system. apply do_compact_begin; vm_compute; reflexivity.
    + Run.evaluate.
  - apply cycle_moves. Run.evaluate.
Qed.

Lemma finished_run : rtc (conc_calm Run.always) (query_starts Run.t3 everything) finished.
Proof.
  transitivity (beside Run.t3); [exact (ticks Run.always 1 (query_starts Run.t3 everything))|].
  transitivity (beside Run.t4); [|exact (ticks Run.always 20 (beside Run.t4))].
  assert (planned (cc_task scanned) = None) as Ep by (vm_compute; reflexivity).
  assert (∀ s s', live_step Run.always s [] s' → conc_calm Run.always (beside s) (beside s')) as Hs.
  { intros s s' Hl. exact (unplanned_moves Run.always s s' (cc_task scanned) (cc_indexed scanned) Ep Hl). }
  assert (∀ s s', rtc Run.calm s s' → rtc (conc_calm Run.always) (beside s) (beside s')) as Hrun.
  { intros s s' Hl. induction Hl as [|s1 s2 s3 Hl _ IH]; [apply rtc_refl|]. exact (rtc_l _ _ _ _ (Hs s1 s2 Hl) IH). }
  exact (Hrun Run.t3 Run.t4 Run.t4_run).
Qed.

End Race.

(** ** Properties *)

(** C6. Queries beside a running server are sound: start a query in any state that a run
    without accidents reaches and let its task run in any interleaving with the steps of the
    server (appends, sweeps, snapshots and compactions, successful or not), for a client
    that may leave at any moment.  As long as no step has an accident (in particular no
    flushed key contains separators, and no chunk gets a name the task has planned to read),
    everything the client has received has the metric, the tags and a timestamp in the range
    of the query, and is a point that was written, with that series, timestamp and value. *)
Theorem query_sound `{HX : XxHash, HC : Crc32, HL : Lz4, HB : BloomFilter, HW : Codec WalEntry,
      HS : Codec IndexSnapshot}
    (LX : XxHashLaws) (LC : Crc32Laws) (LL : Lz4Laws) (LB : BloomLaws) (LW : CodecLaws WalEntry entry_wf)
    valid (LS : CodecLaws IndexSnapshot valid) cfg s0 s metric filters lo hi c r
    (Hcfg : cfg_ok cfg) (Hstart : sys_start cfg s0) (Hrun : run cfg valid s0 [] s)
    (Hconc : rtc (conc_calm valid) (query_starts s (new_query metric filters lo hi)) c) (Hr : r ∈ sent (cc_task c)) :
  ∃ key ts v i h, history (cc_system c) !! i = Some h ∧ to_point key (ts, v) ∈ h ∧
    asked metric filters (default i64_min lo) (default i64_max hi) key ts ∧ r = response key ts v.
Proof.
  destruct (inv_reachable cfg valid Hcfg s0 s Hstart Hrun) as (content & I).
  destruct (conc_reachable cfg valid Hcfg _ _ _ _ I Hconc) as (content' & C). pose proof (conc_query valid _ _ _ Hconc) as Eq.
  destruct (ci_answers _ _ _ C r) as (key & ts & v & (i & h & Hh & Hp) & Hq & Er); [apply elem_of_app; by left|].
  rewrite Eq in Hq. by exists key, ts, v, i, h.
Qed.

Lemma query_sound_witness :
  ∃ key ts v i h, history (cc_system Race.finished) !! i = Some h ∧ to_point key (ts, v) ∈ h ∧
    asked "m" [] i64_min i64_max key ts ∧ @response poly_hash tiny_key 3 (F64 3) = @response poly_hash key ts v.
Proof.
  apply (query_sound poly_hash_laws ieee_crc32_laws stored_lz4_laws cell_bloom_laws wal_codec_laws
    Run.always snapshot_codec_laws Run.config2 Run.t0 Run.t3 "m" [] None None Race.finished
    (@response poly_hash tiny_key 3 (F64 3)) Run.config2_ok Run.t0_starts Run.run2 Race.finished_run).
  vm_compute. right; right; left.
Defined.

(** C5. Queries beside a running server are complete: start a query in any state that a run
    without accidents reaches, and let its task run to the end in any interleaving with
    steps of the server without accidents (in particular no series of a new chunk starts
    where a chunk of the series starts, and no chunk gets a name the task has planned to
    read).  A cell that was written before the query started is delivered, with a value it
    had at some moment between the start and the end of the query or, if chunks were merged
    that clash on the cell, some value; unless the task logged a warning (a planned chunk
    file had been taken away), a flush of the shard has failed, or the value was in flight
    when the task read the index. *)
Theorem query_complete `{HX : XxHash, HC : Crc32, HL : Lz4, HB : BloomFilter, HW : Codec WalEntry,
      HS : Codec IndexSnapshot}
    (LX : XxHashLaws) (LC : Crc32Laws) (LL : Lz4Laws) (LB : BloomLaws) (LW : CodecLaws WalEntry entry_wf)
    valid (LS : CodecLaws IndexSnapshot valid) cfg s0 s metric filters lo hi c i h key ts v
    (Hcfg : cfg_ok cfg) (Hstart : sys_start cfg s0) (Hrun : run cfg valid s0 [] s)
    (Hh : history s !! i = Some h) (Hv : last_write h key ts = Some v)
    (Hq : asked metric filters (default i64_min lo) (default i64_max hi) key ts)
    (Hconc : rtc (conc_calm valid) (query_starts s (new_query metric filters lo hi)) c)
    (Hdone : stage (cc_task c) = Complete) (Hw : warnings (cc_task c) = 0%nat) (Hg : i ∉ gone (cc_system c)) :
  ∃ u,
    ((∃ h' n, history (cc_system c) !! i = Some h' ∧ (length h ≤ n ≤ length h')%nat ∧
        last_write (take n h') key ts = Some u) ∨ (key, ts) ∈ clashed (cc_system c)) ∧
    (response key ts u ∈ sent (cc_task c) ∨
     data_lookup (in_flight (flushing (cc_indexed c)) i) key ts = Some u).
Proof.
  destruct (inv_reachable cfg valid Hcfg s0 s Hstart Hrun) as (content & I).
  destruct (track_reachable cfg valid Hcfg _ (new_query metric filters lo hi) _ _ _ _ _ _ _ I Hh Hv Hq Hconc) as (co & T).
  pose proof (tr_found _ _ _ _ _ _ _ T Hw Hg) as Ht. unfold tracked in Ht. rewrite Hdone in Ht.
  destruct Ht as [(u & Hu & Hr)|(u & Hu & Hd)]; exists u; (split; [exact Hu|]); [left|by right].
  unfold collected, held in Hr. rewrite Hdone, app_nil_r in Hr. done.
Qed.

Lemma query_complete_witness :
  ∃ u,
    ((∃ h' n, history (cc_system Race.finished) !! 0%nat = Some h' ∧ (2 ≤ n ≤ length h')%nat ∧
        last_write (take n h') tiny_key 2 = Some u) ∨ (tiny_key, 2) ∈ clashed (cc_system Race.finished)) ∧
    (@response poly_hash tiny_key 2 u ∈ sent (cc_task Race.finished) ∨
     data_lookup (in_flight (flushing (cc_indexed Race.finished)) 0) tiny_key 2 = Some u).
Proof.
  apply (query_complete poly_hash_laws ieee_crc32_laws stored_lz4_laws cell_bloom_laws wal_codec_laws
    Run.always snapshot_codec_laws Run.config2 Run.t0 Run.t3 "m" [] None None Race.finished 0
    [decode_point (Sample.point 1); decode_point (Sample.point 2)] tiny_key 2 (F64 2)
    Run.config2_ok Run.t0_starts Run.run2).
  - vm_compute. reflexivity.
  - vm_compute. reflexivity.
  - split; [reflexivity|]. split; [constructor|]. vm_compute. split; congruence.
  - exact Race.finished_run.
  - vm_compute. reflexivity.
  - vm_compute. reflexivity.
  - Run.evaluate.
Defined.

(** Compaction takes files away from a running query: a query that has read the index
    when the two chunks it plans to read are merged and deleted delivers nothing and only
    logs two warnings, although both points are stored before, during and after. *)
Theorem query_race :
  @rtc Conc (@conc_calm poly_hash ieee_crc32 stored_lz4 cell_bloom wal_codec snapshot_codec Run.always)
    (query_starts Run.t3 Race.everything) Race.raced ∧
  stage (cc_task Race.raced) = Complete ∧ sent (cc_task Race.raced) = [] ∧ warnings (cc_task Race.raced) = 2%nat ∧
  Sample.values (server Run.t3) = [1; 2] ∧ Sample.values (server (cc_system Race.raced)) = [1; 2].
Proof. split; [exact Race.race_run|]. vm_compute. split_and!; reflexivity. Qed.
