(* ===== verification/Metrics.v ===== *)
(** * Metrics ([src/storage-engine/src/metrics.rs] and its uses in the server)

    Each metric is a static that is registered with the global Prometheus registry on
    first use; a failed registration panics.  The prometheus crate is the parameter
    [Prometheus]: a registry refuses a name it already has and accepts a well-formed
    descriptor with a new name.  The values are [Meters]; the instrumented handlers are
    those of [Server] with the updates the source makes, durations counted and not timed. *)
From S2P Require Import Prelude BTree F64 Externals Types Memtable Fs ChunkFormat ChunkWriter ChunkReader ChunkFile WalWriter Recovery GroupCommit ChunkIndex Persistence Compaction Config Server QuerySource Store StoreMerge ShardLog Restart System Runs.
From Stdlib Require Import Strings.Ascii.

Inductive MetricKind := IntCounter | IntCounterVec | IntGauge | Histogram | HistogramVec.

Record Metric := {
  mt_kind : MetricKind;
  mt_name : string;
  mt_help : string;
  mt_labels : list string;
  mt_buckets : list f64
}.

(** The statics, one per accessor. *)
Inductive MetricId :=
| WalAppendDuration | WalEntriesTotal | MemtableSizeBytes | MemtableFlushTotal | MemtableFlushDurationSeconds
| ChunkFilesTotal | ChunkBytesWrittenTotal | QueryDurationSeconds | QueryChunksScanned | IndexSeriesCount
| CompactionRunsTotal | CompactionChunksMergedTotal.

#[export] Instance MetricId_eq_dec : EqDecision MetricId.
Proof. solve_decision. Defined.

(** The descriptors; the bucket bounds are the bits of the literals. *)
Definition wal_append_duration : Metric :=
  {| mt_kind := HistogramVec; mt_name := "micius_wal_append_duration_seconds";
     mt_help := "WAL append + fsync duration in seconds"; mt_labels := ["result"];
     mt_buckets := map F64 [0x3f1a36e2eb1c432d; 0x3f40624dd2f1a9fc; 0x3f50624dd2f1a9fc; 0x3f747ae147ae147b;
                            0x3f847ae147ae147b; 0x3fa999999999999a; 0x3fb999999999999a] |}.
Definition wal_entries_total : Metric :=
  {| mt_kind := IntCounterVec; mt_name := "micius_wal_entries_total"; mt_help := "Total WAL batches written";
     mt_labels := ["result"]; mt_buckets := [] |}.
Definition memtable_size_bytes : Metric :=
  {| mt_kind := IntGauge; mt_name := "micius_memtable_size_bytes"; mt_help := "Current memtable size in bytes";
     mt_labels := []; mt_buckets := [] |}.
Definition memtable_flush_total : Metric :=
  {| mt_kind := IntCounterVec; mt_name := "micius_memtable_flush_total"; mt_help := "Total memtable flushes";
     mt_labels := ["result"]; mt_buckets := [] |}.
Definition memtable_flush_duration_seconds : Metric :=
  {| mt_kind := Histogram; mt_name := "micius_memtable_flush_duration_seconds";
     mt_help := "Time to flush memtable to a chunk file"; mt_labels := [];
     mt_buckets := map F64 [0x3f847ae147ae147b; 0x3fa999999999999a; 0x3fb999999999999a; 0x3fe0000000000000;
                            0x3ff0000000000000; 0x4014000000000000] |}.
Definition chunk_files_total : Metric :=
  {| mt_kind := IntGauge; mt_name := "micius_chunk_files_total"; mt_help := "Total chunk files on disk";
     mt_labels := []; mt_buckets := [] |}.
Definition chunk_bytes_written_total : Metric :=
  {| mt_kind := IntCounter; mt_name := "micius_chunk_bytes_written_total";
     mt_help := "Total bytes written to chunk files"; mt_labels := []; mt_buckets := [] |}.
Definition query_duration_seconds : Metric :=
  {| mt_kind := Histogram; mt_name := "micius_query_duration_seconds";
     mt_help := "End-to-end query latency in seconds"; mt_labels := [];
     mt_buckets := map F64 [0x3f50624dd2f1a9fc; 0x3f747ae147ae147b; 0x3f847ae147ae147b; 0x3fa999999999999a;
                            0x3fb999999999999a; 0x3fe0000000000000; 0x3ff0000000000000] |}.
Definition query_chunks_scanned : Metric :=
  {| mt_kind := HistogramVec; mt_name := "micius_query_chunks_scanned";
     mt_help := "Chunk files evaluated at each query pruning stage"; mt_labels := ["stage"];
     mt_buckets := map F64 [0; 0x3ff0000000000000; 0x4014000000000000; 0x4024000000000000; 0x4049000000000000;
                            0x4059000000000000; 0x407f400000000000] |}.
Definition index_series_count : Metric :=
  {| mt_kind := IntGauge; mt_name := "micius_index_series_count";
     mt_help := "Number of distinct time series in the chunk index"; mt_labels := []; mt_buckets := [] |}.
Definition compaction_runs_total : Metric :=
  {| mt_kind := IntCounterVec; mt_name := "micius_compaction_runs_total"; mt_help := "Total compaction cycles";
     mt_labels := ["result"]; mt_buckets := [] |}.
Definition compaction_chunks_merged_total : Metric :=
  {| mt_kind := IntCounter; mt_name := "micius_compaction_chunks_merged_total";
     mt_help := "Total chunk files consumed by compaction"; mt_labels := []; mt_buckets := [] |}.

Definition descriptor (i : MetricId) : Metric :=
  match i with
  | WalAppendDuration => wal_append_duration
  | WalEntriesTotal => wal_entries_total
  | MemtableSizeBytes => memtable_size_bytes
  | MemtableFlushTotal => memtable_flush_total
  | MemtableFlushDurationSeconds => memtable_flush_duration_seconds
  | ChunkFilesTotal => chunk_files_total
  | ChunkBytesWrittenTotal => chunk_bytes_written_total
  | QueryDurationSeconds => query_duration_seconds
  | QueryChunksScanned => query_chunks_scanned
  | IndexSeriesCount => index_series_count
  | CompactionRunsTotal => compaction_runs_total
  | CompactionChunksMergedTotal => compaction_chunks_merged_total
  end.

(** ** The prometheus crate *)

(** What the crate asks of a descriptor: names of letters, digits, underscores (and, for
    the metric, colons) that do not start with a digit, a help text, different labels,
    and for a histogram finite bounds in strictly increasing order. *)
Definition letter (c : ascii) : bool :=
  let n := N_of_ascii c in ((65 <=? n) && (n <=? 90) || (97 <=? n) && (n <=? 122) || (n =? 95))%N.
Definition digit (c : ascii) : bool := let n := N_of_ascii c in ((48 <=? n) && (n <=? 57))%N.
Definition ident (extra : ascii → bool) (s : string) : bool :=
  match String.list_ascii_of_string s with
  | [] => false
  | c :: l => (letter c || extra c) && forallb (λ c, letter c || digit c || extra c) l
  end.
Definition colon (c : ascii) : bool := bool_decide (c = ":"%char).
Fixpoint increasing (l : list f64) : bool :=
  match l with
  | [] => true
  | x :: l' => negb (is_nan x) && match l' with [] => true | y :: _ => f64_lt x y end && increasing l'
  end.
Definition descriptor_ok (m : Metric) : Prop :=
  ident colon (mt_name m) = true ∧ mt_help m ≠ "" ∧
  Forall (λ l, ident (λ _, false) l = true) (mt_labels m) ∧ NoDup (mt_labels m) ∧
  increasing (mt_buckets m) = true.

Class Prometheus := {
  registry : Type;
  empty_registry : registry;
  registered : registry → list string;
  register_metric : registry → Metric → result registry
}.
Class PrometheusLaws `{Prometheus} : Prop := {
  registry_starts_empty : registered empty_registry = [];
  register_new r m : descriptor_ok m → mt_name m ∉ registered r →
    ∃ r', register_metric r m = Ok r' ∧ registered r' = mt_name m :: registered r;
  register_known r m : mt_name m ∈ registered r → is_ok (register_metric r m) = false
}.

(** ** The statics *)

Section Statics.
Context `{Prometheus}.

Record Statics := {
  global : registry;
  cells : list MetricId
}.
Definition no_statics : Statics := {| global := empty_registry; cells := [] |}.

(** [M.get_or_init(|| register..().expect(..))]: an error is a panic. *)
Definition get_or_init (st : Statics) (i : MetricId) : result Statics :=
  if bool_decide (i ∈ cells st) then Ok st
  else
    r ← register_metric (global st) (descriptor i);
    Ok {| global := r; cells := i :: cells st |}.

(** A run of accesses. *)
Fixpoint access_all (st : Statics) (ids : list MetricId) : result Statics :=
  match ids with
  | [] => Ok st
  | i :: ids' => st' ← get_or_init st i; access_all st' ids'
  end.

Lemma descriptor_name_inj i j : mt_name (descriptor i) = mt_name (descriptor j) → i = j.
Proof. destruct i, j; try done; discriminate. Qed.

Lemma descriptors_ok i : descriptor_ok (descriptor i).
Proof.
  unfold descriptor_ok. destruct i; (split; [reflexivity|]); (split; [discriminate|]);
    (split; [repeat constructor|]); (split; [repeat constructor; set_solver|reflexivity]).
Qed.

Context `{!PrometheusLaws}.

Definition statics_inv (st : Statics) : Prop :=
  NoDup (cells st) ∧ registered (global st) = map (λ i, mt_name (descriptor i)) (cells st).

Lemma get_or_init_ok st i :
  statics_inv st → ∃ st', get_or_init st i = Ok st' ∧ statics_inv st' ∧ ∀ j, j ∈ cells st' ↔ j = i ∨ j ∈ cells st.
Proof.
  intros [Hnd Hr]. unfold get_or_init. case_bool_decide as Hin; [by exists st; split_and!; [..|set_solver]|].
  destruct (register_new (global st) (descriptor i) (descriptors_ok i)) as (r & -> & Er).
  { rewrite Hr. intros (j & E & Hj)%elem_of_map. by apply descriptor_name_inj in E as ->. }
  eexists. split; [reflexivity|]. split; [|cbn; set_solver]. split; [by constructor|]. cbn. by rewrite Er, Hr.
Qed.

Lemma access_all_ok st ids :
  statics_inv st → ∃ st', access_all st ids = Ok st' ∧ statics_inv st' ∧ ∀ j, j ∈ cells st' ↔ j ∈ ids ∨ j ∈ cells st.
Proof.
  revert st. induction ids as [|i ids IH]; intros st Hi; [by exists st; split_and!; [..|set_solver]|]. cbn [access_all].
  destruct (get_or_init_ok st i Hi) as (st1 & -> & Hi1 & Hc1). cbn [mbind result_bind].
  destruct (IH st1 Hi1) as (st2 & -> & Hi2 & Hc2). exists st2. split_and!; [done..|]. intros j. rewrite Hc2, Hc1. set_solver.
Qed.

Lemma no_statics_inv : statics_inv no_statics.
Proof. split; [constructor|]. apply registry_starts_empty. Qed.

End Statics.

(** ** The endpoint *)

Record HttpResponse := { http_status : Z; http_content_type : string; http_body : bytes }.

(** [prometheus::gather], the text encoder (what it has written, and its result) and its
    format are the crate's; binding a socket and axum's server are arguments of [serve]. *)
Section Endpoint.
Context `{Prometheus} {Family : Type} (gather : registry → list Family).
Context (encode : list Family → bytes * result ()) (format_type : string).

(** [metrics_handler]; the encoder's error is dropped. *)
Definition metrics_handler (st : Statics) : HttpResponse :=
  {| http_status := 200; http_content_type := format_type; http_body := (encode (gather (global st))).1 |}.

(** The router: [GET] (which axum also uses for [HEAD], without the body) of one path. *)
Definition metrics_router (st : Statics) (method path : string) : HttpResponse :=
  if bool_decide (path = "/metrics") then
    if bool_decide (method = "GET") then metrics_handler st
    else if bool_decide (method = "HEAD") then
      {| http_status := 200; http_content_type := format_type; http_body := [] |}
    else {| http_status := 405; http_content_type := ""; http_body := [] |}
  else {| http_status := 404; http_content_type := ""; http_body := [] |}.

(** [serve]. *)
Definition serve {SocketAddr Listener} (bind : SocketAddr → result Listener)
    (axum_serve : Listener → (Statics → string → string → HttpResponse) → result ()) (addr : SocketAddr) : result () :=
  listener ← bind addr;
  _ ← axum_serve listener metrics_router;
  Ok ().

(** A scrape succeeds with whatever the encoder wrote, also when it failed half way. *)
Theorem metrics_scrape_hides_errors st written e :
  encode (gather (global st)) = (written, Err e) →
  metrics_router st "GET" "/metrics" =
  {| http_status := 200; http_content_type := format_type; http_body := written |}.
Proof. intros E. unfold metrics_router, metrics_handler. by rewrite E. Qed.

End Endpoint.

(** ** The instrumented handlers *)

(** The values, one record per handler that writes them: counters are 64-bit unsigned,
    gauges 64-bit signed; of a duration histogram the number of observations, of
    [query_chunks_scanned] the observed values. *)
Record AppendMeters := { wal_ok : Z; wal_error : Z; wal_durations : Z }.
Record QueryMeters := { scanned_total : list Z; scanned_after_pruning : list Z; query_durations : Z }.
Record CompactMeters := { compaction_oks : Z; compaction_errors : Z; merged_total : Z }.
Record SweepMeters := {
  memtable_bytes : Z;
  flush_oks : Z;
  flush_errors : Z;
  flush_durations : Z;
  chunk_files_gauge : Z;
  chunk_bytes_total : Z;
  series_gauge : Z
}.

Section Handlers.
Context `{XxHash, Crc32, Lz4, BloomFilter, Codec WalEntry, UnstableSort}.

(** [append]: one duration and one count for a request that succeeds, one error count for
    one whose WAL write fails; a panicked task is not counted. *)
Definition append_metered (sv : StorageServer) (mt : AppendMeters) (request : list RequestPoint)
    (io : Z → io_outcome) (rot : Z → bool) : StorageServer * AppendMeters * result Z :=
  let '(sv', r) := append_rpc sv request io rot in
  (sv',
   match r with
   | Ok _ => {| wal_ok := wrap_u64 (wal_ok mt + 1); wal_error := wal_error mt;
                wal_durations := wrap_u64 (wal_durations mt + 1) |}
   | Err e =>
       if bool_decide (e = "WAL task panicked") then mt
       else {| wal_ok := wal_ok mt; wal_error := wrap_u64 (wal_error mt + 1); wal_durations := wal_durations mt |}
   end, r).

(** [query], for a client that reads the whole stream. *)
Definition query_metered (sv : StorageServer) (mt : QueryMeters) (metric : string) (filters : list (string * string))
    (time_start time_end : option Z) : QueryMeters * list QueryResponse :=
  let lo := default i64_min time_start in
  let hi := default i64_max time_end in
  let series_ids := index_resolve_series (index sv) metric filters in
  let chunks := flat_map (λ id, prune_chunks (index sv) id lo hi None) series_ids in
  ({| scanned_total := scanned_total mt ++ [len series_ids];
      scanned_after_pruning := scanned_after_pruning mt ++ [len chunks];
      query_durations := wrap_u64 (query_durations mt + 1) |},
   query_rpc sv metric filters time_start time_end).

(** The [compact] handler; the background task runs [compact_once] without counting. *)
Definition compact_metered (sv : StorageServer) (mt : CompactMeters) (env : nat → MergeEnv)
    : StorageServer * CompactMeters * result CompactionResult :=
  let '(sv', r) := compact_rpc sv env in
  (sv',
   match r with
   | Ok c => {| compaction_oks := wrap_u64 (compaction_oks mt + 1); compaction_errors := compaction_errors mt;
                merged_total := wrap_u64 (merged_total mt + chunks_merged c) |}
   | Err _ => {| compaction_oks := compaction_oks mt; compaction_errors := wrap_u64 (compaction_errors mt + 1);
                 merged_total := merged_total mt |}
   end, r).

(** The flush of a shard within the sweep. *)
Definition flush_metered (sv : StorageServer) (mt : SweepMeters) (i : nat) (env : FlushEnv)
    : StorageServer * SweepMeters :=
  match sweep_begin sv i with
  | (sv1, None) => (sv1, mt)
  | (sv1, Some drained) =>
      let sv2 := sweep_finish sv1 i drained env in
      (sv2,
       match (write (chunk_writer sv1) (files sv1) drained (fe_now env) (fe_seed env) (fe_io env)).2 with
       | Ok r =>
           {| memtable_bytes := memtable_bytes mt; flush_oks := wrap_u64 (flush_oks mt + 1);
              flush_errors := flush_errors mt; flush_durations := wrap_u64 (flush_durations mt + 1);
              chunk_files_gauge := wrap_i64 (chunk_file_count (index sv2));
              chunk_bytes_total := wrap_u64 (chunk_bytes_total mt + file_size (cw_chunk_meta r));
              series_gauge := wrap_i64 (series_count (index sv2)) |}
       | Err _ =>
           {| memtable_bytes := memtable_bytes mt; flush_oks := flush_oks mt;
              flush_errors := wrap_u64 (flush_errors mt + 1); flush_durations := flush_durations mt;
              chunk_files_gauge := chunk_files_gauge mt; chunk_bytes_total := chunk_bytes_total mt;
              series_gauge := series_gauge mt |}
       end)
  end.

(** The shards of a sweep from [i] on, with the sum of the sizes seen before draining. *)
Fixpoint sweep_shards (n i : nat) (sv : StorageServer) (mt : SweepMeters) (total : Z) (env : nat → FlushEnv)
    : StorageServer * SweepMeters * Z :=
  match n with
  | O => (sv, mt, total)
  | S n' =>
      let total' := wrap_u64 (total + match memtables sv !! i with Some m => size_bytes m | None => 0 end) in
      let '(sv', mt') := flush_metered sv mt i (env i) in
      sweep_shards n' (S i) sv' mt' total' env
  end.

(** One tick of the sweep task over all shards. *)
Definition sweep_tick (sv : StorageServer) (mt : SweepMeters) (env : nat → FlushEnv) : StorageServer * SweepMeters :=
  let '(sv', mt', total) := sweep_shards (length (memtables sv)) 0 sv mt 0 env in
  (sv',
   {| memtable_bytes := wrap_i64 total; flush_oks := flush_oks mt'; flush_errors := flush_errors mt';
      flush_durations := flush_durations mt'; chunk_files_gauge := chunk_files_gauge mt';
      chunk_bytes_total := chunk_bytes_total mt'; series_gauge := series_gauge mt' |}).

(** A run of appends, with the replies. *)
Fixpoint append_run (sv : StorageServer) (mt : AppendMeters)
    (reqs : list (list RequestPoint * (Z → io_outcome) * (Z → bool))) : StorageServer * AppendMeters * list (result Z) :=
  match reqs with
  | [] => (sv, mt, [])
  | (request, io, rot) :: reqs' =>
      let '(sv1, mt1, r) := append_metered sv mt request io rot in
      let '(sv2, mt2, rs) := append_run sv1 mt1 reqs' in
      (sv2, mt2, r :: rs)
  end.

(** The number of acknowledged requests. *)
Definition oks (rs : list (result Z)) : Z := len (List.filter is_ok rs).
(** The number of requests whose WAL write failed. *)
Definition wal_failed (r : result Z) : bool :=
  match r with Ok _ => false | Err e => negb (bool_decide (e = "WAL task panicked")) end.
Definition failures (rs : list (result Z)) : Z := len (List.filter wal_failed rs).

Lemma append_rpc_seq sv request io rot sv' r :
  append_rpc sv request io rot = (sv', r) →
  append_seq sv' = match r with Ok _ => wrap_u64 (append_seq sv + 1) | Err _ => append_seq sv end.
Proof.
  unfold append_rpc. destruct (wal_append_all _ _ _ _) as [ws results].
  destruct (collect results); intros [= <- <-]; reflexivity.
Qed.

Lemma append_run_counts sv mt reqs sv' mt' rs :
  append_run sv mt reqs = (sv', mt', rs) → in_u64 (wal_ok mt) → in_u64 (append_seq sv) → in_u64 (wal_error mt) →
  append_seq sv' = wrap_u64 (append_seq sv + oks rs) ∧
  wal_ok mt' = wrap_u64 (wal_ok mt + oks rs) ∧ wal_error mt' = wrap_u64 (wal_error mt + failures rs) ∧
  (wal_durations mt = wal_ok mt → wal_durations mt' = wal_ok mt').
Proof.
  revert sv mt rs. induction reqs as [|[[request io] rot] reqs IH]; intros sv mt rs Er Hm Hs He; cbn [append_run] in Er.
  - injection Er as <- <- <-. change (oks []) with 0. change (failures []) with 0. by rewrite !Z.add_0_r, !wrap_u64_id.
  - unfold append_metered in Er. destruct (append_rpc sv request io rot) as [sv1 r] eqn:Ea.
    apply append_rpc_seq in Ea. cbv beta iota zeta in Er.
    set (mt1 := match r with Ok _ => _ | Err _ => _ end) in Er.
    destruct (append_run sv1 mt1 reqs) as [[sv2 mt2] rs2] eqn:E2. injection Er as <- <- <-.
    assert (in_u64 (wal_ok mt1) ∧ in_u64 (append_seq sv1) ∧ in_u64 (wal_error mt1)) as (Hm1 & Hs1 & He1).
    { split_and!; [unfold mt1; destruct r; [|case_bool_decide]|rewrite Ea; destruct r|unfold mt1; destruct r; [|case_bool_decide]];
        try done; apply wrap_u64_range. }
    destruct (IH _ _ _ E2 Hm1 Hs1 He1) as (-> & -> & -> & Hd).
    assert (append_seq sv1 = match r with Ok _ => wrap_u64 (append_seq sv + 1) | Err _ => append_seq sv end ∧
      wal_ok mt1 = match r with Ok _ => wrap_u64 (wal_ok mt + 1) | Err _ => wal_ok mt end ∧
      wal_error mt1 = (if wal_failed r then wrap_u64 (wal_error mt + 1) else wal_error mt) ∧
      (wal_durations mt = wal_ok mt → wal_durations mt1 = wal_ok mt1) ∧
      oks (r :: rs2) = match r with Ok _ => 1 + oks rs2 | Err _ => oks rs2 end ∧
      failures (r :: rs2) = (if wal_failed r then 1 + failures rs2 else failures rs2)) as (E & Em & Ef & Ed & Eo & En).
    { unfold mt1, oks, failures, len. destruct r; [|cbn [wal_failed]; case_bool_decide]; cbn; rewrite ?bool_decide_false by done;
        rewrite ?bool_decide_true by done; cbn; split_and!; try done; try lia. by intros ->. }
    split; [|split; [|split; [|by auto]]]; rewrite ?E, ?Em, ?Ef, ?Eo, ?En; [destruct r..|destruct (wal_failed r)];
      by rewrite ?wrap_u64_add_l, ?Z.add_assoc.
Qed.

(** The counting does not interfere: a tick is the sweeps of the shards in order. *)
Fixpoint plain_sweeps (n i : nat) (sv : StorageServer) (env : nat → FlushEnv) : StorageServer :=
  match n with
  | O => sv
  | S n' => plain_sweeps n' (S i) (sweep_shard sv i (env i)) env
  end.

Lemma sweep_shards_plain n i sv mt total env :
  (sweep_shards n i sv mt total env).1.1 = plain_sweeps n i sv env.
Proof.
  revert i sv mt total. induction n as [|n IH]; intros i sv mt total; [done|]. cbn [sweep_shards plain_sweeps].
  assert ((flush_metered sv mt i (env i)).1 = sweep_shard sv i (env i)) as E.
  { unfold flush_metered, sweep_shard. by destruct (sweep_begin sv i) as [sv1 [drained|]]. }
  destruct (flush_metered sv mt i (env i)) as [sv' mt']. cbn [fst] in E. rewrite <-E. apply IH.
Qed.

End Handlers.

(** ** A concrete registry and sample values *)

Definition list_prometheus : Prometheus := {|
  registry := list string;
  empty_registry := [];
  registered := λ r, r;
  register_metric := λ r m, if bool_decide (mt_name m ∈ r) then Err "Duplicate metrics collector registration attempted"
                            else Ok (mt_name m :: r)
|}.

Lemma list_prometheus_laws : @PrometheusLaws list_prometheus.
Proof.
  split; cbn; [done|..].
  - intros r m _ Hn. rewrite bool_decide_false by done. by eexists.
  - intros r m Hin. by rewrite bool_decide_true.
Qed.

Definition no_appends : AppendMeters := {| wal_ok := 0; wal_error := 0; wal_durations := 0 |}.
Definition no_queries : QueryMeters := {| scanned_total := []; scanned_after_pruning := []; query_durations := 0 |}.

(** Two appends that succeed around one whose write fails. *)
Definition three_requests : list (list RequestPoint * (Z → io_outcome) * (Z → bool)) :=
  [([Sample.point 1], λ _, IoOk, λ _, true); ([Sample.point 2], λ _, IoErr 0, λ _, true);
   ([Sample.point 3], λ _, IoOk, λ _, true)].
Definition three_appends : StorageServer * AppendMeters * list (result Z) :=
  @append_run poly_hash ieee_crc32 wal_codec insertion_sort Sample.start no_appends three_requests.

(** A server of two shards, and a request with a series in each of them. *)
Definition two_shards : StorageServer :=
  Sample.get (@open_server poly_hash ieee_crc32 stored_lz4 cell_bloom wal_codec snapshot_codec
    {| wal_dir := "/w"; cfg_chunk_dir := "/c"; index_path := "/index.bin"; wal_max_segment_bytes := 1000000;
       wal_channel_capacity := 16; wal_max_batch := 16; wal_batch_delay_us := 0;
       memtable_flush_threshold_bytes := 1; num_shards := 2; index_snapshot_interval_secs := 60;
       compaction_interval_secs := 300; compaction_min_threshold := 4;
       compaction_size_ratio := f64_three_halves; grpc_addr := ""; metrics_addr := "" |}
    ∅ [] (λ _, Sample.env_at 1 IoOk) (λ _, true)).
Definition two_series : list RequestPoint :=
  [Sample.point 1; {| rq_metric_name := "n"; rq_tags := []; rq_timestamp_ns := 1; rq_value := F64 1 |}].
Definition metered (request : list RequestPoint) : StorageServer * AppendMeters * result Z :=
  @append_metered poly_hash ieee_crc32 wal_codec insertion_sort two_shards no_appends request (λ _, IoOk) (λ _, true).
(** The batches in the logs of a server. *)
Definition batches (sv : StorageServer) : list Z := map sender_current_sequence (wals sv).

(** ** Properties *)

(** Metric registration cannot panic: from an empty registry, any sequence of uses of
    the metrics succeeds, each metric is registered on its first use only, and the
    registry then holds exactly the names of the metrics that were used. *)
Theorem metrics_register_once `{HP : Prometheus} (LP : PrometheusLaws) (ids : list MetricId) :
  ∃ st, access_all no_statics ids = Ok st ∧ NoDup (registered (global st)) ∧
    ∀ n, n ∈ registered (global st) ↔ ∃ i, i ∈ ids ∧ n = mt_name (descriptor i).
Proof.
  destruct (access_all_ok no_statics ids no_statics_inv) as (st & Hs & [Hnd Hr] & Hc). exists st. split; [done|].
  rewrite Hr. split.
  - apply NoDup_fmap_2_strong; [|done]. intros i j _ _. apply descriptor_name_inj.
  - intros n. rewrite elem_of_map. setoid_rewrite Hc. set_solver.
Qed.

Lemma metrics_register_once_witness :
  ∃ st, @access_all list_prometheus no_statics [WalEntriesTotal; QueryChunksScanned; WalEntriesTotal] = Ok st ∧
    "micius_query_chunks_scanned" ∈ @registered list_prometheus (global st).
Proof.
  destruct (metrics_register_once list_prometheus_laws [WalEntriesTotal; QueryChunksScanned; WalEntriesTotal])
    as (st & Hs & _ & Hn).
  exists st. split; [exact Hs|]. apply Hn. exists QueryChunksScanned. split; [set_solver|reflexivity].
Defined.



(** What is recorded as the number of chunks before pruning is the number of series: a
    query of one series with two chunks records 1 before and 2 after pruning. *)
Theorem metrics_total_counts_series :
  (query_metered (H0 := ieee_crc32) (H1 := stored_lz4) (H := poly_hash) (server Run.t3) no_queries "m" [] None None).1 =
  {| scanned_total := [1]; scanned_after_pruning := [2]; query_durations := 1 |}.
Proof. vm_compute. reflexivity. Qed.

(** [wal_entries_total] is documented as the number of WAL batches written; it counts
    requests: one that writes a batch to each of two logs counts once, and so does an empty
    one, which writes none. *)
Theorem metrics_entries_count_requests :
  (batches (metered two_series).1.1 = [1; 1] ∧ wal_ok (metered two_series).1.2 = 1) ∧
  (batches (metered []).1.1 = [0; 0] ∧ wal_ok (metered []).1.2 = 1).
Proof. vm_compute. split_and!; reflexivity. Qed.
