(* ===== verification/Startup.v ===== *)
(** * Starting the process ([src/storage-engine/src/main.rs], [ensure_dirs] of [config.rs])

    [ensure_dirs] creates the directories, [main] loads the configuration, creates them,
    opens the server and only then parses the two addresses.  The tree of directories is
    the set of their paths; whether a creation works is an argument.  Parsing a socket
    address ([str::parse::<SocketAddr>]) is the argument [parse_addr]; tonic's server, which
    runs until the signal or a transport error, is the argument of [main_result].  The last
    theorem takes a server from a state that a run without accidents reaches through a crash
    or a shutdown and a new start of the process to the answers it gives. *)
From S2P Require Import Prelude BTree F64 Externals Types Memtable Fs ChunkFormat ChunkWriter ChunkReader ChunkFile WalWriter Recovery GroupCommit ChunkIndex Persistence Compaction Config Server QuerySource Store StoreMerge CompactTask ShardLog Restart System SystemInv Answers Runs.
From Stdlib Require Import Strings.Ascii.

Abbreviation Tree := (gset string).

(** The path and the prefixes of it that end before a separator, outermost first. *)
Fixpoint dir_prefixes (pre s : string) : list string :=
  match s with
  | EmptyString => if bool_decide (pre = "") then [] else [pre]
  | String c s' =>
      (if bool_decide (c = "/"%char) && negb (bool_decide (pre = "")) then [pre] else [])
      ++ dir_prefixes (pre +:+ String c "") s'
  end.

(** [tokio::fs::create_dir_all]: all missing directories of the path; a failure leaves
    those that were created before it. *)
Definition create_dir_all (tree : Tree) (path : string) (io : io_outcome) : Tree * result () :=
  match io with
  | IoOk => (tree ∪ list_to_set (dir_prefixes "" path), Ok ())
  | IoErr n => (tree ∪ list_to_set (take n (dir_prefixes "" path)), Err "create_dir_all failed")
  end.

(** [path.parent()] of a path that ends in a file name. *)
Definition path_parent (path : string) : option string :=
  match rsplit "/" path with
  | Some (EmptyString, _) => Some "/"
  | Some (d, _) => Some d
  | None => if bool_decide (path = "") then None else Some ""
  end.

(** The directory of a WAL shard. *)
Definition shard_dir (cfg : StorageConfig) (i : nat) : string :=
  path_join (wal_dir cfg) ("shard-" +:+ fmt_dec2 (Z.of_nat i)).

(** The creations in order; the first failure ends them. *)
Fixpoint create_all (tree : Tree) (paths : list string) (io : string → io_outcome) : Tree * result () :=
  match paths with
  | [] => (tree, Ok ())
  | p :: paths' =>
      match create_dir_all tree p (io p) with
      | (tree1, Err e) => (tree1, Err e)
      | (tree1, Ok _) => create_all tree1 paths' io
      end
  end.

Definition wanted_dirs (cfg : StorageConfig) : list string :=
  [wal_dir cfg] ++ map (shard_dir cfg) (seq 0 (Z.to_nat (num_shards cfg))) ++ [cfg_chunk_dir cfg] ++
  match path_parent (index_path cfg) with Some parent => [parent] | None => [] end.

(** [StorageConfig::ensure_dirs]. *)
Definition ensure_dirs (cfg : StorageConfig) (tree : Tree) (io : string → io_outcome) : Tree * result () :=
  create_all tree (wanted_dirs cfg) io.

Section Main.
Context `{XxHash, Crc32, Lz4, BloomFilter, Codec WalEntry, Codec IndexSnapshot}.
Context (SocketAddr : Type) (parse_addr : string → option SocketAddr).

(** How [main] gets on: an error before the server is open, an address that does not parse
    after it was opened, or a server to run the tasks, the metrics endpoint and the gRPC
    service with. *)
Inductive Startup :=
| StartupError (e : string)
| AddressError (cfg : StorageConfig) (sv : StorageServer) (addr : string)
| Serving (cfg : StorageConfig) (sv : StorageServer) (metrics grpc : SocketAddr).

(** [main], up to serving, over the environment, the tree, the files and the WAL
    directories. *)
Definition main (env : string → option string) (parse_f64 : string → option f64) (tree : Tree) (fs : Fs) (ds : list Dir)
    (dio : string → io_outcome) (fenv : nat → FlushEnv) (rot : nat → bool) : Tree * Startup :=
  match load env parse_f64 with
  | Err e => (tree, StartupError e)
  | Ok cfg =>
      match ensure_dirs cfg tree dio with
      | (tree1, Err e) => (tree1, StartupError e)
      | (tree1, Ok _) =>
          match open_server cfg fs ds fenv rot with
          | Err e => (tree1, StartupError e)
          | Ok sv =>
              match parse_addr (metrics_addr cfg) with
              | None => (tree1, AddressError cfg sv (metrics_addr cfg))
              | Some m =>
                  match parse_addr (grpc_addr cfg) with
                  | None => (tree1, AddressError cfg sv (grpc_addr cfg))
                  | Some g => (tree1, Serving cfg sv m g)
                  end
              end
          end
      end
  end.

(** What [main] returns once [serve_with_shutdown] has ended. *)
Definition main_result (serve_with_shutdown : StorageServer → SocketAddr → result ()) (s : Startup) : result () :=
  match s with
  | StartupError e => Err e
  | AddressError _ _ _ => Err "invalid socket address syntax"
  | Serving _ sv _ grpc => _ ← serve_with_shutdown sv grpc; Ok ()
  end.

End Main.

(** ** The background tasks *)

Inductive BackgroundTask := CompactionTask | SnapshotTask | SweepTask.

(** The period of a task's ticker, in milliseconds. *)
Definition task_period (cfg : StorageConfig) (t : BackgroundTask) : Z :=
  match t with
  | CompactionTask => compaction_interval_secs cfg * 1000
  | SnapshotTask => index_snapshot_interval_secs cfg * 1000
  | SweepTask => 200
  end.

(** [spawn_background_tasks]: the tasks that reach their loop; [tokio::time::interval] panics
    on a zero period, which ends the task and nothing else. *)
Definition spawn_background_tasks (cfg : StorageConfig) : list BackgroundTask :=
  List.filter (λ t, 0 <? task_period cfg t) [CompactionTask; SnapshotTask; SweepTask].

(** ** The directories *)

Lemma dir_prefixes_last pre s : pre +:+ s ≠ "" → pre +:+ s ∈ dir_prefixes pre s.
Proof.
  revert pre. induction s as [|c s IH]; intros pre Hne; cbn [dir_prefixes].
  - rewrite append_nil_r in *. rewrite bool_decide_false by done. by left.
  - apply elem_of_app. right. assert (pre +:+ String c s = (pre +:+ String c "") +:+ s) as E
      by (by rewrite append_assoc, append_cons).
    rewrite E in *. by apply IH.
Qed.

Lemma create_all_Ok tree paths io tree' :
  create_all tree paths io = (tree', Ok ()) →
  tree ⊆ tree' ∧ ∀ p, p ∈ paths → p ≠ "" → p ∈ tree'.
Proof.
  revert tree. induction paths as [|p paths IH]; intros tree E; cbn [create_all] in E.
  - injection E as <-. set_solver.
  - unfold create_dir_all in E. destruct (io p); [|done]. apply IH in E as [Hsub Hin]. split; [set_solver|].
    intros q [->|Hq]%elem_of_cons Hne; [|by apply Hin]. apply Hsub, elem_of_union. right.
    apply elem_of_list_to_set. by apply (dir_prefixes_last "" p).
Qed.

Lemma ensure_dirs_ok cfg tree io : (∀ p, io p = IoOk) → ∃ tree', ensure_dirs cfg tree io = (tree', Ok ()).
Proof.
  intros Hio. unfold ensure_dirs. generalize (wanted_dirs cfg). intros paths. revert tree.
  induction paths as [|p paths IH]; intros tree; cbn [create_all]; [by eexists|].
  unfold create_dir_all. rewrite Hio. apply IH.
Qed.

(** No directory is removed. *)
Lemma create_all_grows tree paths io : tree ⊆ (create_all tree paths io).1.
Proof.
  revert tree. induction paths as [|p paths IH]; intros tree; cbn [create_all]; [done|].
  unfold create_dir_all. destruct (io p); cbn [fst]; [|set_solver]. etrans; [|apply IH]. set_solver.
Qed.

Lemma append_ne p q : q ≠ "" → p +:+ q ≠ "".
Proof. by destruct p. Qed.

Lemma path_join_ne d name : name ≠ "" → path_join d name ≠ "".
Proof.
  intros Hn. unfold path_join. destruct (bool_decide _); [done|]. destruct (ends_with_slash d); [by apply append_ne|].
  apply append_ne. done.
Qed.

Lemma shard_dir_inj cfg i j :
  in_u64 (Z.of_nat i) → in_u64 (Z.of_nat j) → shard_dir cfg i = shard_dir cfg j → i = j.
Proof.
  intros Hi Hj E.
  assert (fmt_dec2 (Z.of_nat i) = fmt_dec2 (Z.of_nat j)) as Ef.
  { unfold shard_dir, path_join in E. destruct (bool_decide _); [|destruct (ends_with_slash _)];
      do 3 try apply (inj (String.append _)) in E; exact E. }
  apply (f_equal (λ s, parse_digits s 0)) in Ef. rewrite !parse_fmt_dec2 in Ef by done. injection Ef as Ef. lia.
Qed.

(** An open server has everything once per shard. *)
Lemma open_server_lengths `{XxHash, Crc32, Lz4, BloomFilter, Codec WalEntry, Codec IndexSnapshot} cfg fs ds env rot sv :
  open_server cfg fs ds env rot = Ok sv →
  let n := Z.to_nat (num_shards cfg) in
  length (wals sv) = n ∧ length (memtables sv) = n ∧ length (live_watermarks sv) = n ∧ length (persisted_watermarks sv) = n.
Proof.
  intros (fs1 & idx1 & ts & worker & Ho & _ & ->)%open_server_inv. cbv zeta. apply open_shards_length in Ho.
  cbn [wals memtables live_watermarks persisted_watermarks]. by rewrite Ho, !length_map, !length_replicate, !length_seq.
Qed.

(** ** Sample starts *)

Module Boot.
#[local] Existing Instances poly_hash ieee_crc32 stored_lz4 cell_bloom wal_codec snapshot_codec insertion_sort.

(** One shard, and an address that may be wrong. *)
Definition env (grpc : string) (k : string) : option string :=
  if decide (k = "MICIUS_NUM_SHARDS") then Some "1"
  else if decide (k = "MICIUS_GRPC_ADDR") then Some grpc else None.
Definition parse_addr (s : string) : option string := if decide (s = "nowhere") then None else Some s.
Definition boot (grpc : string) (disk : Fs * list Dir) (now : Z) : Tree * Startup string :=
  main string parse_addr (env grpc) (λ _, None) ∅ disk.1 disk.2 (λ _, IoOk) (λ _, Sample.env_at now IoOk) (λ _, true).
Definition server_of (s : Startup string) : StorageServer :=
  match s with AddressError _ _ sv _ | Serving _ _ sv _ _ => sv | StartupError _ _ => Sample.empty_server end.

(** A point in the log of a crashed server. *)
Definition crashed : Fs * list Dir := disk Sample.appended.
Definition good_boot : Tree * Startup string := boot "0.0.0.0:50051" crashed 2.
Definition bad_boot : Tree * Startup string := boot "nowhere" crashed 2.
Definition zero_interval : StorageConfig :=
  match load (λ k, if decide (k = "MICIUS_INDEX_SNAPSHOT_INTERVAL_SECS") then Some "0" else None) (λ _, None) with
  | Ok cfg => cfg
  | Err _ => Sample.config
  end.
Definition zero_capacity : Tree * Startup string :=
  main string parse_addr (λ k, if decide (k = "MICIUS_WAL_CHANNEL_CAPACITY") then Some "0" else env "0.0.0.0:50051" k)
    (λ _, None) ∅ crashed.1 crashed.2 (λ _, IoOk) (λ _, Sample.env_at 2 IoOk) (λ _, true).
Definition corrected_boot : Tree * Startup string := boot "0.0.0.0:50051" (disk (server_of bad_boot.2)) 3.

(** A first start, an append, and a shutdown in the middle of nothing. *)
Definition config : StorageConfig :=
  match load (env "0.0.0.0:50051") (λ _, None) with Ok cfg => cfg | Err _ => Sample.config end.
Definition first_server : StorageServer := Sample.get (open_server config ∅ [] (λ _, Sample.env_at 1 IoOk) (λ _, true)).
Definition before : System := started config first_server.
Definition running : System := Run.put before 1.
Definition nothing_torn (j : nat) : list (list DataPoint) := [].
Definition nothing_failed (j : nat) : io_outcome := IoOk.

Lemma config_ok : cfg_ok config.
Proof.
  split; [exists 0; split; [lia|reflexivity]|..].
  - intros c E. discriminate E.
  - intros c E. discriminate E.
  - intros E. discriminate E.
Qed.

Lemma before_starts : sys_start config before.
Proof. apply (first_start config ∅ (λ _, Sample.env_at 1 IoOk) (λ _, true) first_server); vm_compute; reflexivity. Qed.

Lemma running_run : run config Run.always before [] running.
Proof. apply Run.live_run, Run.put_next with 1; [Run.evaluate|apply rtc_refl]. Qed.
End Boot.

(** ** Properties *)

(** C24. Starting the process, on every branch.  It serves only with a loaded configuration
    whose shard count is a power of two, after the WAL directory, a directory
    [shard-NN] below it for every shard (all of them different), the chunk directory and the
    directory of the snapshot exist, the server is open, with a WAL task, a memtable and two
    watermarks for every shard, and both addresses parse.  An address error comes after the
    server was opened; any other failure is an error of loading, of creating a directory or
    of opening, and then nothing is served.  No branch removes a directory. *)
Theorem startup_outcomes `{HX : XxHash, HC : Crc32, HL : Lz4, HB : BloomFilter, HW : Codec WalEntry,
      HS : Codec IndexSnapshot} (SocketAddr : Type) (parse_addr : string → option SocketAddr)
    env pf tree fs ds dio fenv rot :
  let r := main SocketAddr parse_addr env pf tree fs ds dio fenv rot in
  tree ⊆ r.1 ∧
  match r.2 with
  | Serving _ cfg sv m g =>
      load env pf = Ok cfg ∧ (∃ k, 0 <= k < 64 ∧ num_shards cfg = 2 ^ k) ∧
      parse_addr (metrics_addr cfg) = Some m ∧ parse_addr (grpc_addr cfg) = Some g ∧
      (∀ dir, dir ≠ "" → dir = wal_dir cfg ∨ dir = cfg_chunk_dir cfg ∨ path_parent (index_path cfg) = Some dir → dir ∈ r.1) ∧
      (∀ i, 0 <= i < num_shards cfg → path_join (wal_dir cfg) ("shard-" +:+ fmt_dec2 i) ∈ r.1) ∧
      (∀ i j, 0 <= i < num_shards cfg → 0 <= j < num_shards cfg →
         path_join (wal_dir cfg) ("shard-" +:+ fmt_dec2 i) = path_join (wal_dir cfg) ("shard-" +:+ fmt_dec2 j) → i = j) ∧
      open_server cfg fs ds fenv rot = Ok sv ∧ len (wals sv) = num_shards cfg ∧ len (memtables sv) = num_shards cfg ∧
      len (live_watermarks sv) = num_shards cfg ∧ len (persisted_watermarks sv) = num_shards cfg
  | AddressError _ cfg sv a =>
      load env pf = Ok cfg ∧ open_server cfg fs ds fenv rot = Ok sv ∧ parse_addr a = None ∧
      (a = metrics_addr cfg ∨ a = grpc_addr cfg)
  | StartupError _ e =>
      load env pf = Err e ∨
      ∃ cfg, load env pf = Ok cfg ∧
        ((ensure_dirs cfg tree dio).2 = Err e ∨
         (ensure_dirs cfg tree dio).2 = Ok () ∧ open_server cfg fs ds fenv rot = Err e)
  end.
Proof.
  cbv zeta. unfold main. destruct (load env pf) as [cfg|e] eqn:El; [|split; [done|by left]].
  pose proof (create_all_grows tree (wanted_dirs cfg) dio) as Hsub.
  fold (ensure_dirs cfg tree dio) in Hsub.
  destruct (ensure_dirs cfg tree dio) as [tree1 [[]|e]] eqn:Ed; cbn [fst snd] in *; [|split; [done|right; exists cfg; rewrite Ed; by auto]].
  destruct (open_server cfg fs ds fenv rot) as [sv|e] eqn:Eo; cbn [fst snd]; [|split; [done|right; exists cfg; rewrite Ed; by auto]].
  destruct (parse_addr (metrics_addr cfg)) eqn:Em; cbn [fst snd]; [|split; [done|split_and!; by auto]].
  destruct (parse_addr (grpc_addr cfg)) eqn:Eg; cbn [fst snd]; [|split; [done|split_and!; by auto]].
  split; [done|]. destruct (load_shards env pf cfg El) as [Hk H64]. apply create_all_Ok in Ed as [_ Hall].
  destruct (open_server_lengths cfg fs ds fenv rot sv Eo) as (Nw & Nm & Nl & Np).
  assert (Z.of_nat (Z.to_nat (num_shards cfg)) = num_shards cfg) as En by (destruct H64; lia).
  split_and!; try done; unfold len; rewrite ?Nw, ?Nm, ?Nl, ?Np; try exact En.
  - intros dir Hne Hdir. apply Hall; [|done]. unfold wanted_dirs. rewrite !elem_of_app, !list_elem_of_singleton.
    destruct Hdir as [?|[?| ->]]; [by auto..|]. rewrite list_elem_of_singleton. by auto.
  - intros i Hi. apply Hall; [|by apply path_join_ne]. unfold wanted_dirs. rewrite !elem_of_app, elem_of_map. right; left.
    exists (Z.to_nat i). unfold shard_dir. rewrite Z2Nat.id by lia. split; [done|]. apply elem_of_seq. lia.
  - intros i j Hi Hj E. assert (Z.to_nat i = Z.to_nat j) as E'; [|lia].
    apply (shard_dir_inj cfg); unfold shard_dir, in_u64; rewrite ?Z2Nat.id by lia; [unfold in_u64 in H64; lia..|done].
Qed.

(** A wrong address costs data: the addresses are parsed after the server was opened, and
    opening deletes the replayed log.  A crashed server with an acknowledged point in its
    log serves it after a normal start; after a start that fails on the address, before
    the snapshot task it has spawned gets to run, and a second start with the address
    corrected, the point is gone. *)
Theorem startup_bad_address_loses_data :
  Sample.values (Boot.server_of Boot.good_boot.2) = [1] ∧
  (∃ cfg sv, Boot.bad_boot.2 = AddressError _ cfg sv "nowhere") ∧
  Sample.values (Boot.server_of Boot.corrected_boot.2) = [].
Proof.
  split; [vm_compute; reflexivity|]. split; [|vm_compute; reflexivity].
  eexists _, _. vm_compute. reflexivity.
Qed.

(** Intervals and capacities are not checked: a snapshot interval of 0 is loaded, and the
    snapshot task ends at once while the server runs on without it; a channel capacity of 0
    is loaded, and [open] panics at the first shard, when it has replayed its log. *)
Theorem config_zeros_unchecked :
  (load (λ k, if decide (k = "MICIUS_INDEX_SNAPSHOT_INTERVAL_SECS") then Some "0" else None) (λ _, None) =
     Ok Boot.zero_interval ∧ SnapshotTask ∉ spawn_background_tasks Boot.zero_interval) ∧
  Boot.zero_capacity.2 = StartupError _ "mpsc bounded channel requires buffer > 0".
Proof.
  split; [split; [vm_compute; reflexivity|]|vm_compute; reflexivity].
  assert (spawn_background_tasks Boot.zero_interval = [CompactionTask; SweepTask]) as -> by (vm_compute; reflexivity).
  intros [E|[E|[]%elem_of_nil]%elem_of_cons]%elem_of_cons; discriminate E.
Qed.

(** C33. From a crash or a shutdown to the next answers, with the same conditions as crash
    recovery: take any state that a run without accidents reaches and that its snapshot and
    logs account for, stop the process at any byte of what it is writing (a shutdown is the
    case in which nothing is being written), and start it again with an environment from
    which the same configuration is loaded, directories that can be created, addresses that
    parse, a recovery of the logs without an accident (sizes fit, keys that can be told
    apart, new chunk names, no series of a recovery chunk starting where a chunk of the
    series starts) and successful writes of the recovery chunks.  Then [main] gets to
    serving, and the query stream has an answer for every cell: the last value in the order
    of its shard's log, unless chunks were merged that clash on the cell. *)
Theorem process_restart_serves `{HX : XxHash, HC : Crc32, HL : Lz4, HB : BloomFilter, HW : Codec WalEntry,
      HS : Codec IndexSnapshot}
    (LX : XxHashLaws) (LC : Crc32Laws) (LL : Lz4Laws) (LB : BloomLaws) (LW : CodecLaws WalEntry entry_wf)
    valid (LS : CodecLaws IndexSnapshot valid) (SocketAddr : Type) (parse_addr : string → option SocketAddr)
    cfg s0 s torn io fs env pf tree dio fenv m g
    (Hcfg : cfg_ok cfg) (Hstart : sys_start cfg s0) (Hrun : run cfg valid s0 [] s)
    (Hload : load env pf = Ok cfg) (Hdirs : ∀ p, dio p = IoOk)
    (Hleft : left_over cfg (files (server s)) fs) (Hacc : crash_accidents cfg s torn io fs fenv = [])
    (Hio : ∀ i, fe_io (fenv i) = IoOk)
    (Hm : parse_addr (metrics_addr cfg) = Some m) (Hg : parse_addr (grpc_addr cfg) = Some g) :
  ∃ tree' sv',
    main SocketAddr parse_addr env pf tree fs (crash_dirs (server s) torn io) dio fenv (λ _, true) =
      (tree', Serving _ cfg sv' m g) ∧
    ∀ i w key ts v metric filters lo hi, written s !! i = Some w →
      last_write (w ++ concat (survivors (server s) torn io i)) key ts = Some v →
      asked metric filters (default i64_min lo) (default i64_max hi) key ts →
      ∃ v', (v' = v ∨ (key, ts) ∈ clashed s) ∧ response key ts v' ∈ query_rpc sv' metric filters lo hi.
Proof.
  pose proof (inv_reachable cfg valid Hcfg s0 s Hstart Hrun) as Hi.
  destruct (crash_comes_up cfg Hcfg s0 s torn io fs fenv Hstart Hi Hacc Hleft Hio) as (sv' & Hr).
  destruct (ensure_dirs_ok cfg tree dio Hdirs) as (tree' & Ed). exists tree', sv'. split.
  - unfold main. by rewrite Hload, Ed, Hr, Hm, Hg.
  - intros i w key ts v metric filters lo hi Hw.
    exact (crash_serves cfg Hcfg s torn io fs fenv sv' i w key ts v metric filters lo hi Hi Hacc Hleft Hr Hw).
Qed.

(** An append, a shutdown, and the next start. *)
Lemma process_restart_serves_witness :
  ∃ tree' sv',
    @main poly_hash ieee_crc32 stored_lz4 cell_bloom wal_codec snapshot_codec string Boot.parse_addr
      (Boot.env "0.0.0.0:50051") (λ _, None) ∅ (files (server Boot.running))
      (@crash_dirs ieee_crc32 wal_codec (server Boot.running) Boot.nothing_torn Boot.nothing_failed)
      (λ _, IoOk) (λ _, Sample.env_at 3 IoOk) (λ _, true) =
      (tree', Serving _ Boot.config sv' "0.0.0.0:9091" "0.0.0.0:50051") ∧
    @response poly_hash tiny_key 1 (F64 1) ∈ @query_rpc poly_hash ieee_crc32 stored_lz4 sv' "m" [] None None.
Proof.
  destruct (process_restart_serves poly_hash_laws ieee_crc32_laws stored_lz4_laws cell_bloom_laws wal_codec_laws
    Run.always snapshot_codec_laws string Boot.parse_addr Boot.config Boot.before Boot.running Boot.nothing_torn
    Boot.nothing_failed (files (server Boot.running)) (Boot.env "0.0.0.0:50051") (λ _, None) ∅ (λ _, IoOk)
    (λ _, Sample.env_at 3 IoOk) "0.0.0.0:9091" "0.0.0.0:50051" Boot.config_ok Boot.before_starts Boot.running_run)
    as (tree' & sv' & Hm & Hall).
  - vm_compute. reflexivity.
  - reflexivity.
  - intros path _ _. reflexivity.
  - vm_compute. reflexivity.
  - reflexivity.
  - reflexivity.
  - reflexivity.
  - exists tree', sv'. split; [exact Hm|].
    destruct (Hall 0%nat [decode_point (Sample.point 1)] tiny_key 1 (F64 1) "m" [] None None) as (v' & Ev & Hr).
    + vm_compute. reflexivity.
    + vm_compute. reflexivity.
    + split; [reflexivity|]. split; [constructor|]. vm_compute; split; congruence.
    + assert (clashed Boot.running = []) as Ec by (vm_compute; reflexivity). rewrite Ec in Ev.
      destruct Ev as [->|Ev]; [exact Hr|destruct (proj1 (elem_of_nil _) Ev)].
Defined.
