(* ===== verification/Conformance.v ===== *)
(** * The repository's tests, run on the model

    The integration tests of [src/storage-engine/tests] whose outcome does not depend on
    timing, as evaluations of the definitions: the same inputs (two of them smaller), the
    same assertions. The external crates are the sample instances of [Externals]; wall-
    clock waits are the ticks of the background tasks they wait for. *)
From S2P Require Import Prelude BTree F64 Externals Types Memtable Fs ChunkFormat ChunkWriter ChunkReader ChunkFile WalWriter Recovery GroupCommit ChunkIndex Persistence Compaction Config Server WalLoop Metrics.

#[local] Existing Instances poly_hash ieee_crc32 stored_lz4 cell_bloom wal_codec snapshot_codec insertion_sort.

(** [i as f64]. *)
Definition as_f64 (i : Z) : f64 := f64_of_u64 i.
Definition nanos (s : Z) : Z := s * 1000000000.

Definition series_key (metric host : string) : SeriesKey := {| sk_metric_name := metric; sk_tags := [("host", host)] |}.
Definition make_points (ts_start step_ns n : Z) : list (Z * f64) :=
  map (λ i, (ts_start + i * step_ns, as_f64 i)) (seqZ 0 n).
Definition strictly_sorted (l : list Z) : bool := bool_decide (StronglySorted Z.lt l).

(** ** tests/memtable.rs *)

Module MemtableTests.
Definition create_point (metric : string) (ts i : Z) : DataPoint :=
  to_point (series_key metric "node-0") (ts, as_f64 i).
Definition filled (threshold : Z) (metric : string) (n : Z) : Memtable :=
  insert_all (new threshold) (map (λ i, create_point metric ((i + 1) * 100) i) (seqZ 0 n)).
Definition timestamps (data : SeriesData) (metric : string) : option (list Z) :=
  map fst <$> bt_get data (series_key metric "node-0").

Example test_insert_and_drain :
  let m := filled 256 "example" 3 in
  entry_count m = 3 ∧ is_empty (drain m).2 = true ∧ timestamps (drain m).1 "example" = Some [100; 200; 300].
Proof. vm_compute. done. Qed.

Example test_out_of_order_insert :
  let m := insert_all (new 256) (map (λ ts, create_point "example" ts ts) [300; 100; 200]) in
  entry_count m = 3 ∧ is_empty (drain m).2 = true ∧ timestamps (drain m).1 "example" = Some [100; 200; 300].
Proof. vm_compute. done. Qed.

Example test_flush_threshold :
  map (λ n, should_flush (filled 160 "example" n)) [1; 2; 3; 4; 5] = [false; false; false; false; true].
Proof. vm_compute. reflexivity. Qed.

Example test_double_buffer_pattern :
  let '(batch_1, m) := drain (filled 1024 "cpu.usage" 3) in
  let '(batch_2, _) := drain (insert_all m (map (λ i, create_point "mem.free" ((i + 1) * 100) i) (seqZ 0 2))) in
  is_empty m = true ∧ entry_count m = 0 ∧ size_bytes m = 0 ∧
  map (λ e, sk_metric_name e.1) batch_1 = ["cpu.usage"] ∧ timestamps batch_2 "mem.free" = Some [100; 200] ∧
  len batch_2 = 1.
Proof. vm_compute. done. Qed.

Example test_size_tracking :
  let m := filled 1024 "example" 5 in
  let m' := insert m (create_point "example" 300 99) in
  size_bytes m = 5 * 32 + (7 + 4 + 6 + 8) ∧ size_bytes m' = size_bytes m ∧ entry_count m' = 5 ∧
  size_bytes (drain m').2 = 0.
Proof. vm_compute. done. Qed.

Example test_multi_series_drain_order :
  let m := insert_all (new 1024)
    [create_point "mem.free" 100 1; create_point "mem.free" 200 2; create_point "cpu.usage" 100 3;
     create_point "cpu.usage" 200 4; create_point "cpu.usage" 300 5; create_point "disk.io" 100 6] in
  entry_count m = 6 ∧
  map (λ e, (sk_metric_name e.1, len e.2)) (drain m).1 = [("cpu.usage", 3); ("disk.io", 1); ("mem.free", 2)].
Proof. vm_compute. done. Qed.
End MemtableTests.

(** ** tests/wal.rs *)

Module WalTests.
Definition host (i : Z) : string := if i mod 3 =? 0 then "node-0" else if i mod 3 =? 1 then "node-1" else "node-2".
Definition sample_points (n : Z) : list DataPoint :=
  map (λ i, to_point (series_key "cpu.usage" (host i)) (1000000000 + i, as_f64 (42 + i))) (seqZ 0 n).

(** Appends to a writer, with the sequences they return. *)
Definition append_all (st : Dir * WalWriter) (batches : list (list DataPoint)) : Dir * WalWriter * list (result Z) :=
  fold_left (λ acc b, let '(d, w, rs) := acc in let '(d', w', r) := append d w b IoOk true in (d', w', rs ++ [r]))
    batches (st.1, st.2, []).
Definition log_dir (batches : list (list DataPoint)) : Dir := (append_all (open ∅ 1048576 0) batches).1.1.
Definition outcome (r : result RecoveryResult) : option (list DataPoint * bool) :=
  match r with Ok r => Some (rr_points r, torn_write_detected r) | Err _ => None end.

Example test_append_returns_incrementing_sequence :
  (append_all (open ∅ 256 0) [sample_points 5; sample_points 5; sample_points 5]).2 = [Ok 1; Ok 2; Ok 3].
Proof. vm_compute. reflexivity. Qed.

Example test_segment_rotation :
  map (λ n, len (get_wal_files (append_all (open ∅ 256 0) (replicate n (sample_points 5))).1.1)) [1; 2]%nat ≠ [1; 1].
Proof. vm_compute. discriminate. Qed.

Example test_resume_seq_continuous_across_restart :
  let '(d, w, _) := append_all (open ∅ 1048576 0) (replicate 3 (sample_points 1)) in
  current_sequence w = 3 ∧
  match recover d 0 with
  | Ok r => last_sequence r = 3 ∧ (append_all (open d 1048576 (last_sequence r)) [sample_points 1]).2 = [Ok 4]
  | Err _ => False
  end.
Proof. vm_compute. done. Qed.

Example test_drain_completed_before_no_rotation :
  let '(_, w, _) := append_all (open ∅ 1048576 0) [sample_points 1] in
  (drain_completed_before w 0).1 = [] ∧ (drain_completed_before w u64_max).1 = [].
Proof. vm_compute. done. Qed.

(** Every append of five points fills a segment of 256 bytes. *)
Example test_drain_completed_before_basic :
  let '(d, w, _) := append_all (open ∅ 256 0) (replicate 2 (sample_points 5)) in
  let '(paths, w') := drain_completed_before w u64_max in
  len (get_wal_files d) = 3 ∧ len paths = 2 ∧ forallb (λ p, bool_decide (is_Some (d !! p))) paths = true ∧
  (drain_completed_before w' u64_max).1 = [].
Proof. vm_compute. done. Qed.

Example test_drain_completed_before_boundary :
  let '(_, w, rs) := append_all (open ∅ 256 0) [sample_points 5] in
  rs = [Ok 1] ∧ (drain_completed_before w 0).1 = [] ∧ len (drain_completed_before w 1).1 = 1.
Proof. vm_compute. done. Qed.

(** Appends one after the other through the task. *)
Definition sends (t : WalTask) (batches : list (list DataPoint)) : WalTask * list (result Z * Z) :=
  fold_left (λ acc b, let '(t', r) := sender_append acc.1 b IoOk true in
                      (t', acc.2 ++ [(r, sender_current_sequence t')])) batches (t, []).
Definition task : WalTask := fresh_task 1048576.

Example test_group_commit_sequential_sequences :
  map fst (sends task (replicate 5 (sample_points 3))).2 = [Ok 1; Ok 2; Ok 3; Ok 4; Ok 5].
Proof. vm_compute. reflexivity. Qed.

Example test_group_commit_current_sequence_tracks_committed :
  sender_current_sequence task = 0 ∧
  (sends task (replicate 3 (sample_points 2))).2 = [(Ok 1, 1); (Ok 2, 2); (Ok 3, 3)].
Proof. vm_compute. done. Qed.

(** Fifty senders at once, through the channel and the loop of the task. *)
Example test_group_commit_concurrent_appends_unique_sequences :
  let l := foldl send_message (spawn_loop task) (map (λ i, Append (sample_points 2) i) (seq 0 50)) in
  match wal_task 128 (λ _ _, (IoOk, true, true)) 102 l with
  | Some l' => append_acks (answered l') = zip (seq 0 50) (map Ok (seqZ 1 50))
  | None => False
  end.
Proof. vm_compute. reflexivity. Qed.

Example test_group_commit_data_is_recoverable :
  outcome (recover (dir (sends task [sample_points 3; sample_points 2]).1) 0) =
  Some (sample_points 3 ++ sample_points 2, false).
Proof. vm_compute. reflexivity. Qed.

Example test_group_commit_rotate_and_drain_returns_segment :
  let t := (sends task [sample_points 5]).1 in
  let '(t', r) := sender_rotate_and_drain t true true in
  match r with Ok [p] => is_Some (dir t' !! p) | _ => False end.
Proof. vm_compute. eauto. Qed.

Example test_append_and_recover :
  outcome (recover (log_dir [sample_points 1; sample_points 2]) 0) = Some (sample_points 1 ++ sample_points 2, false).
Proof. vm_compute. reflexivity. Qed.

(** The last five bytes are cut off; a bit of the last payload is flipped. *)
Definition two_batches : Dir := log_dir [sample_points 3; sample_points 3].
Definition damage (f : bytes → bytes) : Dir := f <$> two_batches.
Definition flip_from_end (n : nat) (b : bytes) : bytes :=
  alter (λ x, byte_of_Z (Z.lxor (byte_to_Z x) 1)) (length b - n)%nat b.

Example test_torn_write_stops_recovery :
  outcome (recover (damage (λ b, take (length b - 5)%nat b)) 0) = Some (sample_points 3, true).
Proof. vm_compute. reflexivity. Qed.

Example test_checksum_mismatch_stops_recovery :
  outcome (recover (damage (flip_from_end 10)) 0) = Some (sample_points 3, true).
Proof. vm_compute. reflexivity. Qed.

(** With a tenth of the test's points. *)
Example test_recovery_across_segments :
  let d := (append_all (open ∅ 256 0) [sample_points 10; sample_points 20]).1.1 in
  match recover d 0 with
  | Ok r => rr_points r = sample_points 10 ++ sample_points 20 ∧ 1 < segments_replayed r
  | Err _ => False
  end.
Proof. vm_compute. done. Qed.
End WalTests.

(** ** tests/chunkreader.rs and tests/chunkwriter.rs *)

Module ChunkTests.
Definition writer : ChunkWriter := chunk_writer_new "/chunks".
Definition key : SeriesKey := series_key "cpu.usage" "node-0".

(** The bytes of a written chunk file. *)
Definition chunk_file (data : SeriesData) : bytes :=
  match write writer ∅ data 1 0 IoOk with
  | (fs, Ok r) => default [] (fs !! file_path (cw_chunk_meta r))
  | (_, Err _) => []
  end.
Definition written (data : SeriesData) : list SeriesWriteResult :=
  match (write writer ∅ data 1 0 IoOk).2 with Ok r => cw_series_results r | Err _ => [] end.
Definition got (r : result (option (list DataPoint))) : option (list (Z * f64)) :=
  match r with Ok (Some ps) => Some (map (λ p, (timestamp_ns p, value p)) ps) | _ => None end.
Definition ten_points : bytes := chunk_file [(key, make_points 1000000000 1000000 10)].

Example test_read_single_series_roundtrip :
  let points := make_points 1000000000 1000000 50 in
  got (read_series_bytes (chunk_file [(key, points)]) key i64_min i64_max) = Some points.
Proof. vm_compute. reflexivity. Qed.

Example test_read_time_range_filter :
  got (read_series_bytes (chunk_file [(key, make_points 0 1000000000 100)]) key (nanos 25) (nanos 74)) =
  Some (take 50 (drop 25 (make_points 0 1000000000 100))).
Proof. vm_compute. reflexivity. Qed.

Example test_read_multi_series_isolation :
  let data := [(series_key "cpu.usage" "node-0", make_points 1000 100 5); (series_key "disk.io" "node-2", make_points 3000 100 3);
               (series_key "mem.free" "node-1", make_points 2000 100 7)] in
  map (λ e, got (read_series_bytes (chunk_file data) e.1 i64_min i64_max)) data = map (λ e, Some e.2) data.
Proof. vm_compute. reflexivity. Qed.

Example test_read_series_absent_returns_none :
  read_series_bytes ten_points (series_key "mem.free" "node-99") i64_min i64_max = Ok None.
Proof. vm_compute. reflexivity. Qed.

Example test_read_no_time_overlap_returns_none :
  read_series_bytes (chunk_file [(key, make_points 1000000000 1000000 100)]) key (i64_max - 1) i64_max = Ok None.
Proof. vm_compute. reflexivity. Qed.

Example test_read_partial_time_overlap :
  map fst <$> got (read_series_bytes (chunk_file [(key, make_points 100 100 10)]) key 500 800) =
  Some [500; 600; 700; 800].
Proof. vm_compute. reflexivity. Qed.

Definition overwrite (b : bytes) (off : nat) (new : bytes) : bytes := take off b ++ new ++ drop (off + length new) b.

Example test_corrupt_magic_returns_error :
  is_ok (read_series_bytes (overwrite ten_points 0 (le_bytes 4 3735928559)) key i64_min i64_max) = false.
Proof. vm_compute. reflexivity. Qed.

Example test_corrupt_checksum_returns_error :
  is_ok (read_series_bytes (overwrite ten_points (length ten_points - 4) (le_bytes 4 4294967295)) key i64_min i64_max) = false.
Proof. vm_compute. reflexivity. Qed.

Example test_check_bloom_present_series_returns_true :
  check_bloom_bytes (chunk_file [(series_key "cpu" "host-0", make_points 1000000000 1000000 10)]) (series_key "cpu" "host-0") = Ok true.
Proof. vm_compute. reflexivity. Qed.

(** The key in the directory is zeroed and the checksum recomputed. *)
Example test_corrupt_directory_key_returns_none :
  let body := overwrite (take (length ten_points - 4) ten_points) 52 (replicate (length (to_bytes key)) Byte.x00) in
  read_series_bytes (body ++ le_bytes 4 (crc32 body)) key i64_min i64_max = Ok None.
Proof. vm_compute. reflexivity. Qed.

Example test_header_layout :
  let data := map (λ h, (series_key "cpu.usage" h, make_points 1000000000 1000000 5)) ["node-0"; "node-1"; "node-2"] in
  match parse_header (chunk_file data) with
  | Ok h => magic h = MAGIC ∧ version h = VERSION ∧ ChunkFormat.series_count h = 3 ∧ total_entries h = 15 ∧
      time_start_ns h <= time_end_ns h ∧ chunk_id h = new_chunk_id 1
  | Err _ => False
  end.
Proof. vm_compute. split_and!; (reflexivity || discriminate). Qed.

Example test_series_write_result_per_series_metadata :
  map (λ s, (ce_time_start_ns (sr_entry s), ce_time_end_ns (sr_entry s), min_value (sr_stats s), max_value (sr_stats s)))
    (written [(series_key "cpu.usage" "node-0", make_points 1000 100 3); (series_key "mem.free" "node-1", make_points 5000 100 2)]) =
  [(1000, 1200, as_f64 0, as_f64 2); (5000, 5100, as_f64 0, as_f64 1)].
Proof. vm_compute. reflexivity. Qed.

Example test_multi_series_global_time_bounds :
  let data := [(series_key "cpu.usage" "node-0", [(100, as_f64 1); (200, as_f64 2); (300, as_f64 3)]);
               (series_key "mem.free" "node-1", [(50, as_f64 4); (400, as_f64 5)])] in
  match parse_header (chunk_file data) with
  | Ok h => time_start_ns h = 50 ∧ time_end_ns h = 400
  | Err _ => False
  end ∧
  map (λ s, (ce_time_start_ns (sr_entry s), ce_time_end_ns (sr_entry s))) (written data) = [(100, 300); (50, 400)].
Proof. vm_compute. done. Qed.
End ChunkTests.

(** ** tests/index.rs *)

Module IndexTests.
(** Chunks written one after the other, and the index of them. *)
Definition write_and_register (st : Fs * ChunkIndex * Z) (data : SeriesData) : Fs * ChunkIndex * Z :=
  let '(fs, idx, now) := st in
  match write ChunkTests.writer fs data now 0 IoOk with
  | (fs', Ok r) => (fs', register_all idx r, now + 1)
  | (fs', Err _) => (fs', idx, now + 1)
  end.
Definition chunks_of (ds : list SeriesData) : Fs * ChunkIndex :=
  (fold_left write_and_register ds (∅, index_new, 1)).1.
Definition index_of (ds : list SeriesData) : ChunkIndex := (chunks_of ds).2.
Definition starts (l : list SeriesChunkEntry) : list Z := map ce_time_start_ns l.

Example test_single_tag_resolution :
  index_resolve_series (index_of [[(series_key "payment" "host-0", make_points 1000000000 1000000 20);
      (series_key "payments" "service", make_points 1000000000 1000000 10)]]) "payments" [("host", "service")] =
  [series_id (series_key "payments" "service")].
Proof. vm_compute. reflexivity. Qed.

Definition tagged (tags : Tags) : SeriesKey * list (Z * f64) :=
  ({| sk_metric_name := "cpu"; sk_tags := tags |}, make_points 0 1000000000 10).
Definition hosts : SeriesData :=
  [tagged [("env", "prod"); ("host", "web1")]; tagged [("env", "prod"); ("host", "web1"); ("region", "us-east")];
   tagged [("env", "prod"); ("host", "web2")]; tagged [("env", "staging"); ("host", "web1")];
   tagged [("env", "staging"); ("host", "web2")]].

Example test_multi_tag_intersection :
  let resolved := index_resolve_series (index_of [hosts]) "cpu" [("env", "prod"); ("host", "web1")] in
  len resolved = 2 ∧
  forallb (λ e, bool_decide (series_id e.1 ∈ resolved)) (take 2 hosts) = true.
Proof. vm_compute. done. Qed.

Example test_no_match_tags :
  index_resolve_series (index_of [hosts]) "cpu" [("env", "prod"); ("host", "web3")] = [].
Proof. vm_compute. reflexivity. Qed.

Definition web1 : SeriesKey := series_key "cpu" "web1".
Definition windows (l : list (Z * Z)) : ChunkIndex :=
  index_of (map (λ w, [(web1, make_points (nanos w.1) 1000000000 w.2)]) l).

Example test_time_range_pruning :
  let idx := windows [(0, 10); (10, 10); (20, 10); (30, 10); (40, 10)] in
  ChunkIndex.series_count idx = 1 ∧ chunk_file_count idx = 5 ∧
  starts (prune_chunks idx (series_id web1) (nanos 15) (nanos 35) None) = [nanos 10; nanos 20; nanos 30].
Proof. vm_compute. done. Qed.

Example test_stats_predicate_gt :
  starts (prune_chunks (windows [(0, 5); (5, 20); (25, 3)]) (series_id web1) i64_min i64_max
    (Some (GreaterThan (as_f64 5)))) = [nanos 5].
Proof. vm_compute. reflexivity. Qed.

Example test_stats_predicate_between :
  starts (prune_chunks (windows [(0, 20); (20, 2); (22, 10)]) (series_id web1) i64_min i64_max
    (Some (Between (as_f64 3) (as_f64 25)))) = [0; nanos 22].
Proof. vm_compute. reflexivity. Qed.

Example test_register_deregister :
  let idx := windows [(0, 10)] in
  let idx' := deregister idx (series_id web1) (new_chunk_id 1) 0 in
  len (prune_chunks idx (series_id web1) i64_min i64_max None) = 1 ∧ chunk_file_count idx' = 0 ∧
  prune_chunks idx' (series_id web1) i64_min i64_max None = [].
Proof. vm_compute. done. Qed.

Example test_persistence_missing_file_returns_none : load_index ∅ "/data/index.bin" = Ok None.
Proof. reflexivity. Qed.
End IndexTests.

(** ** tests/compaction.rs *)

Module CompactionTests.
Import IndexTests.
Definition ten : f64 := as_f64 10.
Definition worker (threshold : Z) (ratio : f64) : CompactionWorker :=
  {| cw_writer := ChunkTests.writer; min_threshold := threshold; size_ratio := ratio |}.
Definition env (i : nat) : MergeEnv :=
  {| env_now := 100 + Z.of_nat i; env_seed := 0; env_io := IoOk; env_removed := λ _, true |}.
Definition window (start n : Z) : SeriesData := [(web1, make_points (nanos start) 1000000000 n)].
Definition three : Fs * ChunkIndex := chunks_of [window 0 10; window 10 10; window 20 10].
Definition compact (w : CompactionWorker) (st : Fs * ChunkIndex) : Fs * ChunkIndex * result CompactionResult :=
  compact_once w st.1 st.2 env.
(** Everything the chunks of the index hold for the series. *)
Definition timestamps (st : Fs * ChunkIndex) : list Z :=
  flat_map (λ e, match chunk_files st.2 !! ce_chunk_id e with
                 | Some m => match ChunkReader.read_series st.1 (file_path m) web1 i64_min i64_max with
                             | Ok (Some ps) => map timestamp_ns ps
                             | _ => []
                             end
                 | None => []
                 end) (prune_chunks st.2 (series_id web1) i64_min i64_max None).

Example compacted_chunks_queryable :
  let '(fs, idx, r) := compact (worker 2 ten) three in
  chunk_file_count three.2 = 3 ∧ chunk_file_count idx < 3 ∧ len (timestamps (fs, idx)) = 30 ∧
  match r with Ok c => chunks_merged c = 3 ∧ 0 < bytes_freed c | Err _ => False end.
Proof. vm_compute. done. Qed.

Example test_old_chunk_files_deleted_after_compaction :
  let '(fs, _, _) := compact (worker 2 ten) three in
  map_to_list three.1 ≠ [] ∧ forallb (λ e, bool_decide (fs !! e.1 = None)) (map_to_list three.1) = true.
Proof. vm_compute. split; [discriminate|reflexivity]. Qed.

Example test_old_chunk_ids_removed_from_index :
  let '(_, idx, _) := compact (worker 2 ten) three in
  forallb (λ e, bool_decide (chunk_files idx !! e.1 = None)) (map_to_list (chunk_files three.2)) = true ∧
  chunk_file_count idx = 1.
Proof. vm_compute. done. Qed.

Example test_no_compaction_when_below_threshold :
  let st := chunks_of [window 0 10; window 10 10] in
  compact (worker 3 ten) st = (st.1, st.2, Ok {| chunks_merged := 0; bytes_freed := 0 |}).
Proof. vm_compute. reflexivity. Qed.

Example test_compact_once_empty_index_is_noop :
  compact (worker 2 (as_f64 2)) (∅, index_new) = (∅, index_new, Ok {| chunks_merged := 0; bytes_freed := 0 |}).
Proof. vm_compute. reflexivity. Qed.

(** With a tenth of the test's points in the large chunk. *)
Example test_no_compaction_when_sizes_exceed_ratio :
  let st := chunks_of [window 0 5; window 1000 50] in
  let '(_, idx, r) := compact (worker 2 (f64_div (as_f64 11) (as_f64 10))) st in
  chunk_file_count idx = 2 ∧ match r with Ok c => chunks_merged c = 0 | Err _ => False end.
Proof. vm_compute. done. Qed.

Example test_merged_data_is_sorted_and_complete :
  let '(fs, idx, r) := compact (worker 2 ten) (chunks_of [window 0 10; window 200 10]) in
  len (prune_chunks idx (series_id web1) i64_min i64_max None) = 1 ∧
  timestamps (fs, idx) = map nanos (seqZ 0 10 ++ seqZ 200 10) ∧ strictly_sorted (timestamps (fs, idx)) = true ∧
  match r with Ok c => chunks_merged c = 2 | Err _ => False end.
Proof. vm_compute. done. Qed.
End CompactionTests.

(** ** tests/server.rs *)

Module ServerTests.
Definition test_config (threshold : Z) : StorageConfig :=
  {| wal_dir := "/t/wal"; cfg_chunk_dir := "/t/chunks"; index_path := "/t/index.bin";
     wal_max_segment_bytes := 64 * 1024 * 1024; wal_channel_capacity := 1024; wal_max_batch := 256; wal_batch_delay_us := 0;
     memtable_flush_threshold_bytes := threshold; num_shards := 16; index_snapshot_interval_secs := 60;
     compaction_interval_secs := 300; compaction_min_threshold := 2; compaction_size_ratio := as_f64 2;
     grpc_addr := "0.0.0.0:50051"; metrics_addr := "0.0.0.0:9091" |}.
Definition data_point (host : string) (ts i : Z) : RequestPoint :=
  {| rq_metric_name := "cpu.load"; rq_tags := [("host", host)]; rq_timestamp_ns := ts; rq_value := as_f64 i |}.
Definition points (host : string) (from n : Z) : list RequestPoint :=
  map (λ i, data_point host (nanos (from + i)) i) (seqZ 0 n).

Definition envs (now : Z) (i : nat) : FlushEnv := Sample.env_at (now + Z.of_nat i) IoOk.
Definition started (cfg : StorageConfig) : StorageServer := Sample.get (open_server cfg ∅ [] (envs 0) (λ _, true)).
Definition small : StorageConfig := test_config 512.
Definition large : StorageConfig := test_config (32 * 1024 * 1024).
Definition append (sv : StorageServer) (ps : list RequestPoint) : StorageServer :=
  (append_rpc sv ps (λ _, IoOk) (λ _, true)).1.
Definition sweep (sv : StorageServer) (now : Z) : StorageServer :=
  (sweep_tick sv {| memtable_bytes := 0; flush_oks := 0; flush_errors := 0; flush_durations := 0; chunk_files_gauge := 0;
                    chunk_bytes_total := 0; series_gauge := 0 |} (envs now)).1.
Definition reopen (cfg : StorageConfig) (sv : StorageServer) (now : Z) : StorageServer :=
  Sample.get (restart cfg sv (envs now) (λ _, true)).
Definition hits (sv : StorageServer) (filters : list (string * string)) (lo hi : option Z) : list Z :=
  map qr_timestamp_ns (query_rpc sv "cpu.load" filters lo hi).

Example test_append_then_query_round_trip :
  hits (append (started large) (points "web1" 1 3)) [("host", "web1")] None None = [nanos 1; nanos 2; nanos 3].
Proof. vm_compute. reflexivity. Qed.

Example test_data_survives_restart :
  len (hits (reopen large (append (started large) (points "web1" 1 2)) 100) [] None None) = 2.
Proof. vm_compute. reflexivity. Qed.

Example test_query_nonexistent_metric_returns_empty :
  query_rpc (started large) "nope" [] None None = [].
Proof. vm_compute. reflexivity. Qed.

Example test_time_range_filter :
  hits (append (started large) (points "web1" 1 5)) [("host", "web1")] (Some (nanos 2)) (Some (nanos 4)) =
  [nanos 2; nanos 3; nanos 4].
Proof. vm_compute. reflexivity. Qed.

Example test_data_queryable_after_flush :
  let sv := sweep (append (started small) (points "web1" 0 20)) 100 in
  len (hits sv [("host", "web1")] None None) = 20 ∧ chunk_file_count (index sv) = 1.
Proof. vm_compute. done. Qed.

Example test_sequence_numbers_are_monotonically_increasing :
  (fold_left (λ acc i, let '(sv, r) := append_rpc acc.1 [data_point "web1" (nanos i) i] (λ _, IoOk) (λ _, true) in
                       (sv, acc.2 ++ [r])) (seqZ 0 5) (started large, [])).2 = [Ok 1; Ok 2; Ok 3; Ok 4; Ok 5].
Proof. vm_compute. reflexivity. Qed.

Example test_tag_filter_isolates_series :
  len (hits (append (started large) (points "web1" 1 2 ++ points "web2" 1 2)) [("host", "web1")] None None) = 2.
Proof. vm_compute. reflexivity. Qed.

Example test_no_data_loss_crash_before_snapshot :
  len (hits (reopen small (sweep (append (started small) (points "crash-host" 0 10)) 100) 200)
    [("host", "crash-host")] None None) = 10.
Proof. vm_compute. reflexivity. Qed.

Example test_wal_gc_unblocked_after_snapshot_no_data_loss :
  let sv := sweep (snapshot_rpc (sweep (append (started small) (points "gc-host" 0 10)) 100) IoOk true).1 200 in
  existsb (λ w, 0 <? w) (persisted_watermarks sv) = true ∧
  len (hits (reopen small sv 300) [("host", "gc-host")] None None) = 10.
Proof. vm_compute. done. Qed.

Example test_partial_wal_replay_skips_snapshotted_entries :
  let sv := (snapshot_rpc (sweep (append (started small) (points "host-a" 0 10)) 100) IoOk true).1 in
  let sv' := reopen small (append sv (points "host-b" 10 8)) 200 in
  len (hits sv' [("host", "host-a")] None None) = 10 ∧ len (hits sv' [("host", "host-b")] None None) = 8.
Proof. vm_compute. done. Qed.
End ServerTests.
